(* ===== verification/_CoqProject ===== *)
-Q . S2P
Prelude.v
Proto.v
Errors.v
Util.v
Quorum.v
Inflights.v
Progress.v
Tracker.v
ConfChange.v
Log.v
Unstable.v
Storage.v
RaftLog.v
ReadOnly.v
Config.v
RaftCore.v
Raft.v
RawNode.v
RaftFrame.v
Writes.v
RaftExample.v
RaftProps.v
Campaign.v
RawNodeProps.v
Cluster.v
LogMatching.v
Chosen.v
Provenance.v
Receives.v
Growth.v
Agreement.v
Node.v
NodeProps.v
RaftEnds.v
Peers.v
Stats.v
Wire.v
SnapFiles.v
FileUtil.v
Pipeline.v
