(* ===== verification/Prelude.v ===== *)
(** * Verification of the Raft library of retcds

    [src/raft-rs] is a Rust library for the Raft consensus algorithm, a port of the one
    of TiKV, with an asynchronous node on top; [src/server] begins a transport that sends
    its messages over HTTP.  This development models both as Rocq functions that run, and
    proves what makes them correct, from the ring buffer of the messages in flight to the
    safety of a cluster: two nodes never commit different entries at one index.

    ** The program and its model

    A node is driven by messages ([step]), time ([tick]) and the reports of its
    application; it keeps a log over a stable storage that the application writes, and
    puts messages and committed entries where the application takes them.  The parts,
    with the files under [src/raft-rs/] that they model, in the order they build on each
    other:

    - [Prelude.v]: machine words, the monad [Prog S A] of programs over a state that may
      panic or run out of fuel, records with updates, frames ([pres], [keeps], [ends])
      and their automation, the iteration order of hash tables;
    - [Proto.v] ([proto/]): the messages as records, configuration changes and their
      text form; [Errors.v] ([errors.rs]), [Util.v] ([util.rs]);
    - [Quorum.v] ([quorum.rs], [quorum/]): votes and commit indexes of majorities and
      joint majorities;
    - [Inflights.v] ([tracker/inflights.rs]), [Progress.v] ([tracker/progress.rs],
      [tracker/state.rs]), [Tracker.v] ([tracker.rs]): what a leader knows of its peers;
    - [ConfChange.v] ([confchange.rs], [confchange/]): configuration changes;
    - [Log.v]: abstract logs, the specification of the following three;
    - [Unstable.v] ([log_unstable.rs]), [Storage.v] ([storage.rs]), [RaftLog.v]
      ([raft_log.rs]): the log;
    - [ReadOnly.v] ([read_only.rs]), [Config.v] ([config.rs]);
    - [RaftCore.v], [Raft.v] ([raft.rs]): the node. [RaftCore.t] and [Raft.t] are the two
      structs of the source, their methods keep their names, and the calls that borrow
      the progress of one peer beside the core are programs over [Sender.t];
    - [RawNode.v] ([raw_node.rs], [status.rs]): the interface of the application;
    - [Node.v] ([node.rs], [async_ch.rs]): the asynchronous node, a step relation whose
      tasks interleave at their awaits and at every acquisition of the lock of the raw
      node (the branch of a proposal takes it four times, so it is five steps);
    - [Cluster.v], [LogMatching.v], [Agreement.v]: nodes with a network between them, which
      has no counterpart in the source: it is what the library is for.

    [RaftFrame.v] says what the operations of a node change and is the base of the
    theorems about the node, [Writes.v] which of them write to the log;
    [RaftExample.v] is the concrete run of their witnesses.  [Chosen.v] to [Growth.v] carry
    the proof of [Agreement.v].  [Chosen.v] is Raft without its nodes: a record of who was
    elected with which log and who acknowledged what, in which a later leader has all
    that a quorum acknowledged.  [Provenance.v] and [Receives.v] go through the operations
    of [Raft.v] once more: what a node says is true by the record if what it heard is.
    [Growth.v] shows that this stays so while the record grows.

    The transport, with the files under [src/server/src/etcdserver/api/rafthttp/]:

    - [Peers.v] ([types/], [url_pick.rs], [peer_status.rs]): identifiers, URLs, the choice
      of a URL, and whether a peer answers;
    - [Stats.v] ([v2state/]): statistics, with latencies as binary64 numbers;
    - [Wire.v] ([util/net_util.rs], [util/reader.rs], [util/read_closer.rs], [peer.rs],
      [error.rs]): requests, answers, versions, bounded readers;
    - [SnapFiles.v] ([snap/snap_shotter.rs], [util/util.rs]): snapshots in files with their
      modes, on a disk whose operations can fail;
    - [Pipeline.v] ([pipeline.rs], [remote.rs], [snapshot_sender.rs], [transport.rs],
      [etcdserver/async_ch.rs]): the tasks that send, as a step relation.

    Of the client, with the files under [src/client/src/pkg/]:

    - [FileUtil.v] ([fileutil/]): directories and files, over a file system with modes
      whose operations can fail.

    The transport does not call the library: it hands its reports to a trait [Raft], which
    [Pipeline.v] records as a list of calls with the names of those of [RawNode.v].

    ** What is proved

    - The cluster: at most one leader in a term ([Cluster.v]), although messages are
      lost, duplicated, delayed and reordered and nodes stop and start again; logs
      that share an entry agree up to it ([LogMatching.v]); and what one node has
      committed at an index is what every other node commits there, now and later
      ([Agreement.v], [state_machine_safety]).
    - A node: its term and its votes, its log, what makes it leader, when it votes,
      commits, and what the term of a message does to it ([RaftProps.v]); that it
      campaigns when it hears nothing ([Campaign.v]); that every message and every tick
      is processed in finite time ([RaftEnds.v]).
    - The application: the committed entries reach it once and in order, and what a
      [Ready] holds ([RawNodeProps.v]); the answers of the asynchronous node, and that it
      stops after one [Ready] ([NodeProps.v]).
    - The log: it is one abstract log over storage, unstable entries and a pending
      snapshot; committed entries stay; reads, appends and the search for a conflict
      ([RaftLog.v]); the in-memory storage implements the interface ([Storage.v]).
    - The components: quorums intersect, also across configuration changes, and a
      configuration can be restored from its saved form ([Quorum.v], [ConfChange.v]); the
      window of in-flight messages is a bounded queue ([Inflights.v]); progress and
      reads ([Progress.v], [ReadOnly.v]); the size of the uncommitted data ([RaftCore.v]).
    - The transport: the picker reaches every URL ([Peers.v]); versions are accepted by one
      rule and readers deliver exactly what they should ([Wire.v]); a saved snapshot is
      loaded again by the superuser only, since the file is made with a mode that its owner
      cannot read, and what is loaded was in a file whatever fails ([SnapFiles.v]); a
      pipeline loses no message and reports exactly what it should, but it gets stuck if
      nobody reads that it is done ([Pipeline.v]); the queue of statistics would be a
      window on the last 200 requests, but the one that is made panics ([Stats.v]).
    - The client: making a directory loses nothing, makes nothing but it and the directories
      above it (with the mode 0777, not the 0700 of the comment), and says [Ok] only if it is
      there and empty; zeroing a file keeps what is before the position ([FileUtil.v]).

    ** Conventions

    - A [u64] is a [Z]; the wrapping arithmetic of the release profile is written out
      ([+w], [-w], [*w]), and where a theorem asks for room it says so.  The [debug_assert]s
      of the source are kept as assertions.  [panic!], [unwrap] and indexing out of range
      are the outcome [Panic].
    - Loops that do not decrease structurally take fuel, and running out of it is an outcome of its
      own: [campaign_fuel] is 2, since a won pre-election starts an election and that
      starts none; [conflict_fuel index] is [index + 2], one step per position down to 0;
      [send_fuel] counts the entries that may still be sent, as every round sends one.
      [step_terminates] shows that they suffice.  [all_entries] retries while the log is compacted under
      it, as often as its caller says.
    - Logging is left out, and allocation never fails.
    - Code that is not in the repository is a parameter with laws: the generated protobuf
      code ([Codec]), the storage of the application ([Storage], [StorageLaws]; the
      in-memory one of the repository is an instance), the channels ([AsyncChannel],
      [AsyncChannelLaws]), the order in which hash tables are visited ([HashOrder]) and
      random numbers ([Rng]); of the transport the crates url ([UrlCrate]), semver
      ([Semver], [SemverCrate]), hyper ([Http]), crc ([Crc]) and the codecs ([SnapCodec],
      [PostCrates]), the mask and the privilege of the process ([Process]), and the order in
      which a directory is listed ([ReadDir], [System] for the client, whose call
      [fallocate] is [Nix]).
    - A lock around a component makes each call one step.
    - The nodes of [LogMatching.v] and [Agreement.v] do not batch appends ([batch_append]
      is off, its default).
    - The cluster of [Cluster.v] has fixed voters, and a node starts again with the term
      and the vote it had, which the application has to store before it sends messages.
      That of [LogMatching.v] takes in only append messages that were sent.  That of
      [Agreement.v] takes in only messages that were sent to the node, but for those that
      state nothing; snapshots are not sent and logs are not compacted; the application has
      stored the log when it sends acknowledgements of it, keeps what it has stored as long as
      the log has it, and starts a node with a commit index not beyond what it stored.

    ** What is not modelled

    - [lib.rs], the loggers and [Display]: documentation, re-exports and text for people.
    - The serialisers of [proto/] for serde, and the generated protobuf code.
    - [datadriven/], [harness/], [examples/], [benches/]: tools of the tests.
    - [tlsutil/] and [transport/] of [src/client] and the clients and servers of
      [src/server]: TLS and network operations of libraries that they call.  JSON is
      generated code.
    - Of a [Transport] the fields the senders do not use; its trait [Transporter] has no
      implementation in the repository.
    - Subdirectories and files of other users in [SnapFiles.v], access rights in
      [FileUtil.v] (where a refusal is a failure like any other), and names that are not UTF-8.
    - Snapshots, compaction and changes of the voters in the cluster of [Agreement.v]; the
      operations themselves are modelled and proved node by node. *)

From stdpp Require Export base tactics numbers list option gmap sets strings pretty sorting.
From Stdlib Require Export ZArith Lia Ascii.

#[global] Open Scope Z_scope.
#[global] Set Default Proof Using "Type".

(** ** Machine integers

    A [u64] (and a [usize], the crate targets 64-bit machines) is a [Z]; the
    arithmetic of the release profile wraps around, and it is written out
    wherever the source adds or subtracts. *)

Definition U64_MOD : Z := 18446744073709551616.
Definition u64_MAX : Z := 18446744073709551615.

Definition u64_add (a b : Z) : Z := (a + b) mod U64_MOD.
Definition u64_sub (a b : Z) : Z := (a - b) mod U64_MOD.
Definition u64_mul (a b : Z) : Z := (a * b) mod U64_MOD.

(** [is_u64 a]: [a] is the value of a machine word. *)
Definition is_u64 (a : Z) : Prop := 0 <= a < U64_MOD.

Declare Scope u64_scope.
Delimit Scope u64_scope with u64.
Infix "+w" := u64_add (at level 50, left associativity) : u64_scope.
Infix "-w" := u64_sub (at level 50, left associativity) : u64_scope.
Infix "*w" := u64_mul (at level 40, left associativity) : u64_scope.
#[global] Open Scope u64_scope.

Lemma u64_add_small a b : 0 <= a + b < U64_MOD -> a +w b = a + b.
Proof. intros H. unfold u64_add. by apply Z.mod_small. Qed.

Lemma u64_sub_small a b : 0 <= a - b < U64_MOD -> a -w b = a - b.
Proof. intros H. unfold u64_sub. by apply Z.mod_small. Qed.

Lemma u64_add_range a b : is_u64 (a +w b).
Proof. unfold is_u64, u64_add, U64_MOD. apply Z.mod_pos_bound. lia. Qed.

Lemma u64_sub_range a b : is_u64 (a -w b).
Proof. unfold is_u64, u64_sub, U64_MOD. apply Z.mod_pos_bound. lia. Qed.

Lemma u64_add_sub a b : is_u64 a -> (a +w b) -w b = a.
Proof.
  intros H. unfold u64_add, u64_sub. rewrite Zminus_mod_idemp_l.
  replace (a + b - b) with a by lia. by apply Z.mod_small.
Qed.

Create HintDb u64.
#[export] Hint Resolve u64_add_range u64_sub_range : u64.

(** [u64_lia] replaces every wrapping operation whose result fits by the
    mathematical one and calls [lia]. *)
Ltac u64_unfold := try unfold is_u64 in *; try unfold U64_MOD in *; try unfold u64_MAX in *.
Ltac u64_simpl :=
  repeat match goal with
  | |- context [?a +w ?b] => rewrite (u64_add_small a b) by (u64_unfold; lia)
  | |- context [?a -w ?b] => rewrite (u64_sub_small a b) by (u64_unfold; lia)
  | H : context [?a +w ?b] |- _ => rewrite (u64_add_small a b) in H by (u64_unfold; lia)
  | H : context [?a -w ?b] |- _ => rewrite (u64_sub_small a b) in H by (u64_unfold; lia)
  end.
Ltac u64_lia := u64_simpl; u64_unfold; lia.

(** Lengths and positions of vectors as machine words. *)
Definition len {A} (l : list A) : Z := Z.of_nat (length l).

(** [l[i]] of a vector, [None] when out of range. *)
Definition index {A} (l : list A) (i : Z) : option A :=
  if i <? 0 then None else l !! Z.to_nat i.

(** [&l[lo..hi]], [None] when the range is not within the vector. *)
Definition subrange {A} (l : list A) (lo hi : Z) : option (list A) :=
  if (0 <=? lo) && (lo <=? hi) && (hi <=? len l)
  then Some (take (Z.to_nat (hi - lo)) (drop (Z.to_nat lo) l)) else None.

Lemma len_nonneg {A} (l : list A) : 0 <= len l.
Proof. unfold len. lia. Qed.

Lemma len_nil {A} : len (@nil A) = 0.
Proof. done. Qed.

Lemma len_cons {A} (x : A) l : len (x :: l) = len l + 1.
Proof. unfold len. simpl. lia. Qed.

Lemma len_app {A} (l1 l2 : list A) : len (l1 ++ l2) = len l1 + len l2.
Proof. unfold len. rewrite length_app. lia. Qed.

Lemma len_zero_nil {A} (l : list A) : len l = 0 -> l = [].
Proof. destruct l; [done|]. rewrite len_cons. pose proof (len_nonneg l). lia. Qed.

Lemma index_Some {A} (l : list A) i x : index l i = Some x -> 0 <= i < len l.
Proof.
  unfold index, len. destruct (Z.ltb_spec i 0); [done|].
  intros Hl%lookup_lt_Some. lia.
Qed.

Lemma index_is_Some {A} (l : list A) i : 0 <= i < len l -> is_Some (index l i).
Proof.
  unfold index, len. intros Hi. destruct (Z.ltb_spec i 0); [lia|].
  apply lookup_lt_is_Some. lia.
Qed.

#[export] Hint Rewrite @len_nil @len_cons @len_app : len.

(** ** Outcomes and effectful code

    A Rust function returns a value, panics ([panic!], [assert!], [unwrap] on
    nothing, an index out of range, the crate's [fatal!]) or, for a loop of the
    model that is given too little fuel, does not return within the fuel.  The
    two failures are kept apart: a theorem that excludes [OutOfFuel] is a
    termination theorem. *)

Inductive outcome (A : Type) : Type :=
  | Ret (a : A)
  | Panic
  | OutOfFuel.
Arguments Ret {_} _.
Arguments Panic {_}.
Arguments OutOfFuel {_}.

#[export] Instance outcome_ret : MRet outcome := fun A a => Ret a.
#[export] Instance outcome_bind : MBind outcome := fun A B f m =>
  match m with Ret a => f a | Panic => Panic | OutOfFuel => OutOfFuel end.

(** [let Some(x) = o else { panic }] of code that only reads. *)
Definition or_panic {A} (o : option A) : outcome A :=
  match o with Some a => Ret a | None => Panic end.
Definition check (b : bool) : outcome unit := if b then Ret tt else Panic.

(** [Prog S A]: code that runs on a state [S] (the [&mut self] of a method). *)
Definition Prog (S A : Type) : Type := S -> outcome (A * S).

#[export] Instance prog_ret {S} : MRet (Prog S) := fun A a s => Ret (a, s).
#[export] Instance prog_bind {S} : MBind (Prog S) := fun A B f m s =>
  match m s with Ret (a, s') => f a s' | Panic => Panic | OutOfFuel => OutOfFuel end.

Definition get {S} : Prog S S := fun s => Ret (s, s).
Definition put {S} (s : S) : Prog S unit := fun _ => Ret (tt, s).
Definition gets {S A} (f : S -> A) : Prog S A := fun s => Ret (f s, s).
Definition modify {S} (f : S -> S) : Prog S unit := fun s => Ret (tt, f s).
Definition panic {S A} : Prog S A := fun _ => Panic.
Definition lift {S A} (o : outcome A) : Prog S A := fun s =>
  match o with Ret a => Ret (a, s) | Panic => Panic | OutOfFuel => OutOfFuel end.

(** A read-only method of the state ([&self]). *)
Definition asks {S A} (f : S -> outcome A) : Prog S A := fun s =>
  match f s with Ret a => Ret (a, s) | Panic => Panic | OutOfFuel => OutOfFuel end.

(** Runs a method on a part of the state ([self.field.method()]). *)
Definition zoom {S T A} (get : S -> T) (put : T -> S -> S) (m : Prog T A) : Prog S A :=
  fun s => match m (get s) with
           | Ret (a, t) => Ret (a, put t s)
           | Panic => Panic
           | OutOfFuel => OutOfFuel
           end.

Definition assert {S} (b : bool) : Prog S unit := if b then mret tt else panic.
Definition unwrap {S A} (o : option A) : Prog S A :=
  match o with Some a => mret a | None => panic end.
Definition when {S} (b : bool) (m : Prog S unit) : Prog S unit :=
  if b then m else mret tt.

(** [for x in l { f(x) }] *)
Fixpoint for_each {S A} (f : A -> Prog S unit) (l : list A) : Prog S unit :=
  match l with
  | [] => mret tt
  | x :: l => f x;; for_each f l
  end.

(** ** Rust's [Result] *)
Inductive result (A E : Type) : Type :=
  | Ok (a : A)
  | Err (e : E).
Arguments Ok {_ _} _.
Arguments Err {_ _} _.

(** [e?]: on an error the enclosing function returns it. *)
Definition try_bind {S A B E} (m : Prog S (result A E)) (f : A -> Prog S (result B E)) :
  Prog S (result B E) :=
  r ← m; match r with Ok a => f a | Err e => mret (Err e) end.
Notation "x ←? m ; k" := (try_bind m (fun x => k))
  (at level 20, m at level 100, k at level 200, format "x  ←?  m ;  '//' k") : stdpp_scope.

Definition result_bind {A B E} (m : result A E) (f : A -> result B E) : result B E :=
  match m with Ok a => f a | Err e => Err e end.
Notation "x ←! m ; k" := (result_bind m (fun x => k))
  (at level 20, m at level 100, k at level 200, format "x  ←!  m ;  '//' k") : stdpp_scope.
Definition result_unwrap {A E} (r : result A E) : outcome A :=
  match r with Ok a => Ret a | Err _ => Panic end.
Definition result_ok {A E} (r : result A E) : option A :=
  match r with Ok a => Some a | Err _ => None end.

(** ** Functional record update

    [Eta R] rebuilds a record from its projections; [derive_setter] abstracts one
    projection of that expansion, which gives the update function of the field.
    [r <| f := v |>] is then [self.f = v]. *)

Class Eta (R : Type) := eta : R -> R.
Class Setter {R T : Type} (proj : R -> T) := set : (T -> T) -> R -> R.
Arguments set {R T} proj {_} f r.

Ltac head_of t := match t with ?f _ => head_of f | _ => t end.

Ltac derive_setter :=
  match goal with
  | |- @Setter ?R ?T ?proj =>
      let ei := constr:(@eta R _) in
      let ei := eval cbv beta delta [eta] in ei in
      let h := head_of ei in
      let e := eval cbv beta delta [h] in ei in
      let p := eval pattern proj in e in
      match p with
      | ?g _ => exact (fun (f : T -> T) (r : R) => ltac:(let b := eval cbv beta in (g (fun r' => f (proj r')) r) in exact b))
      end
  end.

Notation "r <| f := v |>" := (set f (fun _ => v) r)
  (at level 1, f at level 100, v at level 200, left associativity, format "r  <|  f  :=  v  |>") : stdpp_scope.

(** [fields] computes the projections of updated records in goal and context. *)
Ltac fields :=
  repeat match goal with
  | |- context [?p (@set ?R ?T ?q ?I ?f ?r)] =>
      first [ progress change (p (@set R T q I f r)) with (p r)
            | progress change (p (@set R T q I f r)) with (f (p r)) ]; cbv beta
  | H : context [?p (@set ?R ?T ?q ?I ?f ?r)] |- _ =>
      first [ progress change (p (@set R T q I f r)) with (p r) in H
            | progress change (p (@set R T q I f r)) with (f (p r)) in H ]; cbv beta in H
  end.


(** ** Reasoning about [Prog]

    [m s = Ret (a, s')] is "the call returns [a] and leaves [s']".  The lemmas
    below invert such an equation along the structure of [m]; [prog_inv] applies
    them as long as the code is built from the combinators. *)

Section prog_lemmas.
Context {S : Type}.

Lemma bind_inv {A B} (m : Prog S A) (f : A -> Prog S B) s b t :
  (m ≫= f) s = Ret (b, t) -> exists a u, m s = Ret (a, u) /\ f a u = Ret (b, t).
Proof.
  unfold mbind, prog_bind. destruct (m s) as [[a u]| |] eqn:E; [|done..]. eauto.
Qed.

Lemma bind_run {A B} (m : Prog S A) (f : A -> Prog S B) s a t :
  m s = Ret (a, t) -> (m ≫= f) s = f a t.
Proof. unfold mbind, prog_bind. by intros ->. Qed.

Lemma ret_inv {A} (a b : A) (s t : S) : (mret a : Prog S A) s = Ret (b, t) -> a = b /\ s = t.
Proof. unfold mret, prog_ret. by intros [= -> ->]. Qed.

Lemma try_bind_inv {A B E} (m : Prog S (result A E)) (f : A -> Prog S (result B E)) s b t :
  try_bind m f s = Ret (b, t) ->
  (exists a u, m s = Ret (Ok a, u) /\ f a u = Ret (b, t)) \/
  (exists e, m s = Ret (Err e, t) /\ b = Err e).
Proof.
  unfold try_bind. intros (r & u & H1 & H2)%bind_inv. destruct r as [a|e].
  - left. eauto.
  - apply ret_inv in H2 as [<- ->]. right. eauto.
Qed.

Lemma try_bind_run {A B E} (m : Prog S (result A E)) (f : A -> Prog S (result B E)) s a t :
  m s = Ret (Ok a, t) -> try_bind m f s = f a t.
Proof. intros Em. unfold try_bind. by erewrite bind_run by exact Em. Qed.
Lemma try_bind_fails {A B E} (m : Prog S (result A E)) (f : A -> Prog S (result B E)) s e t :
  m s = Ret (Err e, t) -> try_bind m f s = Ret (Err e, t).
Proof. intros Em. unfold try_bind. by erewrite bind_run by exact Em. Qed.

Lemma get_inv s (a t : S) : get s = Ret (a, t) -> a = s /\ t = s.
Proof. by intros [= -> ->]. Qed.
Lemma put_inv (x s : S) a t : put x s = Ret (a, t) -> t = x.
Proof. by intros [= _ ->]. Qed.
Lemma gets_inv {A} (f : S -> A) s a t : gets f s = Ret (a, t) -> a = f s /\ t = s.
Proof. by intros [= -> ->]. Qed.
Lemma modify_inv (f : S -> S) s a t : modify f s = Ret (a, t) -> t = f s.
Proof. by intros [= _ ->]. Qed.
Lemma lift_inv {A} (o : outcome A) (s : S) a t : lift o s = Ret (a, t) -> o = Ret a /\ t = s.
Proof. unfold lift. destruct o; by intros [= -> ->]. Qed.
Lemma asks_inv {A} (f : S -> outcome A) (s : S) a t : asks f s = Ret (a, t) -> f s = Ret a /\ t = s.
Proof. unfold asks. destruct (f s); by intros [= -> ->]. Qed.
Lemma asks_run {A} (f : S -> outcome A) (s : S) a : f s = Ret a -> asks f s = Ret (a, s).
Proof. unfold asks. by intros ->. Qed.
Lemma panic_inv {A} (s : S) (a : A) t : panic s = Ret (a, t) -> False.
Proof. done. Qed.
Lemma assert_inv b (s : S) a t : assert b s = Ret (a, t) -> b = true /\ t = s.
Proof. destruct b; simpl; [|done]. by intros [= _ ->]. Qed.
Lemma unwrap_inv {A} (o : option A) (s : S) a t : unwrap o s = Ret (a, t) -> o = Some a /\ t = s.
Proof. destruct o; simpl; [|done]. by intros [= -> ->]. Qed.
Lemma when_inv b (m : Prog S unit) s a t :
  when b m s = Ret (a, t) -> (b = true /\ m s = Ret (a, t)) \/ (b = false /\ t = s).
Proof. destruct b; simpl; [by left|]. intros [= _ ->]. by right. Qed.
Lemma zoom_inv {T A} (g : S -> T) (p : T -> S -> S) (m : Prog T A) s a t :
  zoom g p m s = Ret (a, t) -> exists u, m (g s) = Ret (a, u) /\ t = p u s.
Proof. unfold zoom. destruct (m (g s)) as [[x u]| |]; [|done..]. intros [= -> <-]. eauto. Qed.
Lemma zoom_run {T A} (g : S -> T) (p : T -> S -> S) (m : Prog T A) s a u :
  m (g s) = Ret (a, u) -> zoom g p m s = Ret (a, p u s).
Proof. unfold zoom. by intros ->. Qed.

(** A loop preserves what its body preserves. *)
Lemma for_each_inv {A} (R : S -> S -> Prop) `{!PreOrder R} (f : A -> Prog S unit) l s a t :
  (forall x u b v, x ∈ l -> f x u = Ret (b, v) -> R u v) ->
  for_each f l s = Ret (a, t) -> R s t.
Proof.
  revert s. induction l as [|x l IH]; simpl; intros s Hf.
  - by intros [_ ->]%ret_inv.
  - intros (b & u & H1 & H2)%bind_inv. etrans.
    + eapply Hf; [left|done].
    + eapply IH; [|done]. intros y ???? Hy. eapply Hf; [by right|done].
Qed.

End prog_lemmas.

Lemma outcome_bind_inv {A B} (m : outcome A) (f : A -> outcome B) b :
  (m ≫= f) = Ret b -> exists a, m = Ret a /\ f a = Ret b.
Proof. destruct m; [eauto|done..]. Qed.
Lemma outcome_bind_run {A B} (m : outcome A) (f : A -> outcome B) a :
  m = Ret a -> (m ≫= f) = f a.
Proof. by intros ->. Qed.
Lemma result_unwrap_inv {A E} (r : result A E) a : result_unwrap r = Ret a -> r = Ok a.
Proof. destruct r; by intros [= ->]. Qed.

Ltac prog_step H :=
  lazymatch type of H with
  | (mbind _ _) _ = Ret (_, _) => apply bind_inv in H as (? & ? & ? & H)
  | (mret _) _ = Ret (_, _) => apply ret_inv in H as [? ?]
  | get _ = Ret (_, _) => apply get_inv in H as [? ?]
  | put _ _ = Ret (_, _) => apply put_inv in H
  | gets _ _ = Ret (_, _) => apply gets_inv in H as [? ?]
  | modify _ _ = Ret (_, _) => apply modify_inv in H
  | asks _ _ = Ret (_, _) => apply asks_inv in H as [H ?]
  | (mbind _ _) = Ret _ => apply outcome_bind_inv in H as (? & ? & H)
  | (mret _) = Ret _ => injection H as ?
  | result_unwrap _ = Ret _ => apply result_unwrap_inv in H
  | lift _ _ = Ret (_, _) => apply lift_inv in H as [? ?]
  | assert _ _ = Ret (_, _) => apply assert_inv in H as [? ?]
  | unwrap _ _ = Ret (_, _) => apply unwrap_inv in H as [? ?]
  | panic _ = Ret (_, _) => destruct (panic_inv _ _ _ H)
  | Panic = Ret _ => discriminate H
  | OutOfFuel = Ret _ => discriminate H
  | when _ _ _ = Ret (_, _) => apply when_inv in H as [[? H]|[? ?]]
  | zoom _ _ _ _ = Ret (_, _) => apply zoom_inv in H as (? & H & ?)
  | try_bind _ _ _ = Ret (_, _) => apply try_bind_inv in H as [(? & ? & ? & H)|(? & H & ?)]
  | (match ?x with _ => _ end) _ = Ret (_, _) => destruct x eqn:?
  | (match ?x with _ => _ end) = Ret (_, _) => destruct x eqn:?
  | (let '_ := ?x in _) _ = Ret (_, _) => destruct x eqn:?
  end.

(** Inverts every hypothesis [m s = Ret (a, t)] whose [m] is a combinator. *)
Ltac prog_inv :=
  repeat match goal with
  | H : _ = Ret _ |- _ => progress (prog_step H); simplify_eq/=
  end.

(** Unfolds the combinators, to evaluate code forward on a known state. *)
Ltac prog_unfold :=
  cbv beta iota zeta delta [try_bind mbind prog_bind outcome_bind mret prog_ret outcome_ret
    get put gets modify panic lift asks zoom assert unwrap when].

(** ** Frames

    [pres R m]: every returning run of [m] relates the state before to the state
    after by [R].  For a preorder [R] the combinators preserve it, and [frame]
    proves [pres R m] along the structure of [m] from the hints of its calls. *)

Definition pres {S A} (R : S -> S -> Prop) (m : Prog S A) : Prop :=
  forall s a s', m s = Ret (a, s') -> R s s'.

Section frames.
Context {S : Type} (R : S -> S -> Prop) `{!PreOrder R}.

(** Code that does not touch the state. *)
Lemma pres_const {A} (m : Prog S A) : (forall s a s', m s = Ret (a, s') -> s' = s) -> pres R m.
Proof using Type*. intros Hm s a s' ->%Hm. reflexivity. Qed.

Lemma pres_ret {A} (a : A) : pres R (mret a : Prog S A).
Proof using Type*. apply pres_const. by intros s b s' [_ ->]%ret_inv. Qed.
Lemma pres_get : pres R (get (S:=S)).
Proof using Type*. apply pres_const. by intros s b s' [_ ->]%get_inv. Qed.
Lemma pres_gets {A} (f : S -> A) : pres R (gets f).
Proof using Type*. apply pres_const. by intros s b s' [_ ->]%gets_inv. Qed.
Lemma pres_asks {A} (f : S -> outcome A) : pres R (asks f).
Proof using Type*. apply pres_const. by intros s b s' [_ ->]%asks_inv. Qed.
Lemma pres_lift {A} (o : outcome A) : pres R (lift (S:=S) o).
Proof using Type*. apply pres_const. by intros s b s' [_ ->]%lift_inv. Qed.
Lemma pres_assert b : pres R (assert (S:=S) b).
Proof using Type*. apply pres_const. by intros s x s' [_ ->]%assert_inv. Qed.
Lemma pres_unwrap {A} (o : option A) : pres R (unwrap (S:=S) o).
Proof using Type*. apply pres_const. by intros s b s' [_ ->]%unwrap_inv. Qed.
Lemma pres_panic {A} : pres R (panic (S:=S) (A:=A)).
Proof. by intros s a s' ?. Qed.

Lemma pres_bind {A B} (m : Prog S A) (k : A -> Prog S B) :
  pres R m -> (forall a, pres R (k a)) -> pres R (m ≫= k).
Proof using Type*. intros Hm Hk s b s' (a & u & H1 & H2)%bind_inv. etrans; [by eapply Hm|by eapply Hk]. Qed.

(** The same where the rest needs to know what the first part answers. *)
Lemma pres_bind_post {A B} (Q : A -> Prop) (m : Prog S A) (k : A -> Prog S B) :
  pres R m -> (forall s a s', m s = Ret (a, s') -> Q a) -> (forall a, Q a -> pres R (k a)) -> pres R (m ≫= k).
Proof using Type*. intros Hm HQ Hk s b s' (a & u & H1 & H2)%bind_inv. etrans; [by eapply Hm|]. by eapply Hk; [eapply HQ|]. Qed.

Lemma pres_try_bind {A B E} (m : Prog S (result A E)) (k : A -> Prog S (result B E)) :
  pres R m -> (forall a, pres R (k a)) -> pres R (try_bind m k).
Proof using Type*. intros Hm Hk. apply pres_bind; [done|]. intros [a|e]; [done|apply pres_ret]. Qed.

Lemma pres_when b (m : Prog S unit) : pres R m -> pres R (when b m).
Proof using Type*. destruct b; [done|]. intros _. apply pres_ret. Qed.

Lemma pres_for_each {A} (f : A -> Prog S unit) l : (forall x, pres R (f x)) -> pres R (for_each f l).
Proof using Type*.
  intros Hf. induction l as [|x l IH]; simpl; [apply pres_ret|]. by apply pres_bind.
Qed.

(** A loop of the model preserves what it preserves with any fuel. *)
Lemma pres_modify (f : S -> S) : (forall s, R s (f s)) -> pres R (modify f).
Proof. intros Hf s a s' ->%modify_inv. apply Hf. Qed.

Lemma pres_zoom {T A} (R' : T -> T -> Prop) (g : S -> T) (p : T -> S -> S) (m : Prog T A) :
  pres R' m -> (forall s u, R' (g s) u -> R s (p u s)) -> pres R (zoom g p m).
Proof. intros Hm Hp s a s' (u & E & ->)%zoom_inv. by eapply Hp, Hm. Qed.

(** A call that gives up with the weaker relation. *)
Lemma pres_mono {A} (R' : S -> S -> Prop) (m : Prog S A) :
  (forall s s', R' s s' -> R s s') -> pres R' m -> pres R m.
Proof. intros Hr Hm s a s' E. by eapply Hr, Hm. Qed.
End frames.

Create HintDb frame.
Ltac frame_step :=
  lazymatch goal with
  | |- pres _ (mbind _ _) => apply pres_bind; [apply _| |intros ?]
  | |- pres _ (try_bind _ _) => apply pres_try_bind; [apply _| |intros ?]
  | |- pres _ (mret _) => apply pres_ret; apply _
  | |- pres _ get => apply pres_get; apply _
  | |- pres _ (gets _) => apply pres_gets; apply _
  | |- pres _ (asks _) => apply pres_asks; apply _
  | |- pres _ (lift _) => apply pres_lift; apply _
  | |- pres _ (assert _) => apply pres_assert; apply _
  | |- pres _ (unwrap _) => apply pres_unwrap; apply _
  | |- pres _ panic => apply pres_panic
  | |- pres _ (when _ _) => apply pres_when; [apply _|]
  | |- pres _ (for_each _ _) => apply pres_for_each; [apply _|intros ?]
  | |- pres _ (modify _) => apply pres_modify; intros ?
  | |- pres _ (match ?x with _ => _ end) => destruct x
  | |- pres _ (let '_ := ?x in _) => destruct x
  | |- pres _ (fun _ => _) => intros ? ? ? ?; discriminate
  end.
(** Leaves the goals about [modify] and about calls without a hint. *)
Ltac frame := repeat first [frame_step | progress (eauto with frame nocore)].

(** The frame of the call that [E] runs. *)
Tactic Notation "call_frame" uconstr(R) hyp(E) :=
  revert E; match goal with |- ?c _ = _ -> _ => cut (pres R c); [eauto|] end.

(** ** Termination

    [ends I m]: from a state with [I] the code returns or panics, it does not run out
    of fuel.  [ends] proves it along the structure of [m]; that the state keeps [I]
    between the parts is a frame. *)

Definition ends {S A} (I : S -> Prop) (m : Prog S A) : Prop := forall s, I s -> m s <> OutOfFuel.
Definition keeps {S} (I : S -> Prop) (s s' : S) : Prop := I s -> I s'.

#[export] Instance keeps_preorder {S} (I : S -> Prop) : PreOrder (keeps I).
Proof. split; [by intros s Hs|]. intros s s' s'' H1 H2 Hs. by apply H2, H1. Qed.

Section ends.
Context {S : Type} (I : S -> Prop).

Lemma ends_ret {A} (a : A) : ends I (mret a : Prog S A).
Proof. done. Qed.
Lemma ends_get : ends I (get (S:=S)).
Proof. done. Qed.
Lemma ends_gets {A} (f : S -> A) : ends I (gets f).
Proof. done. Qed.
Lemma ends_modify (f : S -> S) : ends I (modify f).
Proof. done. Qed.
Lemma ends_panic {A} : ends I (panic (S:=S) (A:=A)).
Proof. done. Qed.
Lemma ends_assert b : ends I (assert (S:=S) b).
Proof. by destruct b. Qed.
Lemma ends_unwrap {A} (o : option A) : ends I (unwrap (S:=S) o).
Proof. by destruct o. Qed.
Lemma ends_asks {A} (f : S -> outcome A) : (forall s, I s -> f s <> OutOfFuel) -> ends I (asks f).
Proof. intros Hf s Hs. unfold asks. specialize (Hf s Hs). by destruct (f s). Qed.
Lemma ends_lift {A} (o : outcome A) : o <> OutOfFuel -> ends I (lift (S:=S) o).
Proof. intros Ho s Hs. unfold lift. by destruct o. Qed.
Lemma ends_when b (m : Prog S unit) : ends I m -> ends I (when b m).
Proof. by destruct b. Qed.

Lemma ends_bind {A B} (m : Prog S A) (k : A -> Prog S B) :
  ends I m -> pres (keeps I) m -> (forall a, ends I (k a)) -> ends I (m ≫= k).
Proof.
  intros Hm Hp Hk s Hs. unfold mbind, prog_bind. specialize (Hm s Hs). destruct (m s) as [[a u]| |] eqn:E; try done.
  apply Hk. by eapply Hp.
Qed.

Lemma ends_bind_get {B} (k : S -> Prog S B) : (forall a, I a -> ends I (k a)) -> ends I (get ≫= k).
Proof. intros Hk s Hs. by apply Hk. Qed.

Lemma ends_try_bind {A B E} (m : Prog S (result A E)) (k : A -> Prog S (result B E)) :
  ends I m -> pres (keeps I) m -> (forall a, ends I (k a)) -> ends I (try_bind m k).
Proof. intros Hm Hp Hk. apply ends_bind; [done..|]. by intros [a|e]. Qed.

Lemma ends_for_each {A} (f : A -> Prog S unit) l :
  (forall x, ends I (f x)) -> (forall x, pres (keeps I) (f x)) -> ends I (for_each f l).
Proof. intros Hf Hp. induction l as [|x l IH]; simpl; [done|]. by apply ends_bind. Qed.

Lemma ends_zoom {T A} (J : T -> Prop) (g : S -> T) (p : T -> S -> S) (m : Prog T A) :
  ends J m -> (forall s, I s -> J (g s)) -> ends I (zoom g p m).
Proof. intros Hm Hg s Hs. unfold zoom. specialize (Hm _ (Hg s Hs)). by destruct (m (g s)) as [[]| |]. Qed.

(** Where a weaker invariant is enough. *)
Lemma ends_weaken {A} (J : S -> Prop) (m : Prog S A) : (forall s, I s -> J s) -> ends J m -> ends I m.
Proof. intros HJ Hm s Hs. by apply Hm, HJ. Qed.
End ends.

Lemma outcome_ends_bind {A B} (m : outcome A) (k : A -> outcome B) :
  m <> OutOfFuel -> (forall a, m = Ret a -> k a <> OutOfFuel) -> (m ≫= k) <> OutOfFuel.
Proof. intros Hm Hk. destruct m; try done. by apply Hk. Qed.

Create HintDb ends.
Ltac ends_step :=
  lazymatch goal with
  | |- ends _ (mbind _ get) => apply ends_bind_get; intros ? ?
  | |- ends _ (mbind _ _) => apply ends_bind; [|solve [frame]|intros ?]
  | |- ends _ (try_bind _ _) => apply ends_try_bind; [|solve [frame]|intros ?]
  | |- ends _ (mret _) => apply ends_ret
  | |- ends _ get => apply ends_get
  | |- ends _ (gets _) => apply ends_gets
  | |- ends _ (modify _) => apply ends_modify
  | |- ends _ panic => apply ends_panic
  | |- ends _ (assert _) => apply ends_assert
  | |- ends _ (unwrap _) => apply ends_unwrap
  | |- ends _ (asks _) => apply ends_asks; intros ? ?
  | |- ends _ (lift _) => apply ends_lift
  | |- ends _ (when _ _) => apply ends_when
  | |- ends _ (for_each _ _) => apply ends_for_each; [intros ?|intros ?; solve [frame]]
  | |- ends _ (match ?x with _ => _ end) => destruct x
  | |- ends _ (let '_ := ?x in _) => destruct x
  end.
(** Leaves the goals about calls without a hint and about pure code. *)
Ltac ends := repeat first [ends_step | progress (eauto with ends nocore)].

(** ** Iteration order of hash maps and sets

    The order in which a [HashMap] or [HashSet] yields its elements is not
    specified.  It is a parameter of the model: some reordering of a fixed
    enumeration of the elements.  Every theorem holds for each order. *)

Class HashOrder := {
  hash_order : forall {A : Type}, list A -> list A;
  hash_order_perm : forall {A : Type} (l : list A), hash_order l ≡ₚ l
}.

Definition map_iter `{HashOrder} {A} (m : gmap Z A) : list (Z * A) := hash_order (map_to_list m).
Definition set_iter `{HashOrder} (s : gset Z) : list Z := hash_order (elements s).

(** One admissible order, used where a concrete run is evaluated. *)
Definition sorted_order : HashOrder := {|
  hash_order := fun A l => l;
  hash_order_perm := fun A l => Permutation_refl l
|}.

Lemma set_iter_perm `{HashOrder} s : set_iter s ≡ₚ elements s.
Proof. apply hash_order_perm. Qed.

Lemma elem_of_set_iter `{HashOrder} s x : x ∈ set_iter s <-> x ∈ s.
Proof. rewrite set_iter_perm. apply elem_of_elements. Qed.

Lemma NoDup_set_iter `{HashOrder} s : NoDup (set_iter s).
Proof. rewrite set_iter_perm. apply NoDup_elements. Qed.

Lemma length_set_iter `{HashOrder} s : length (set_iter s) = size s.
Proof. by rewrite set_iter_perm. Qed.

Lemma map_iter_perm `{HashOrder} {A} (m : gmap Z A) : map_iter m ≡ₚ map_to_list m.
Proof. apply hash_order_perm. Qed.

Lemma elem_of_map_iter `{HashOrder} {A} (m : gmap Z A) k x :
  (k, x) ∈ map_iter m <-> m !! k = Some x.
Proof. rewrite map_iter_perm. apply elem_of_map_to_list. Qed.
#[export] Hint Rewrite @elem_of_set_iter @elem_of_map_iter @length_set_iter : hash.

(** A non-empty finite set has a positive size. *)
Lemma size_pos (s : gset Z) : s <> ∅ -> (0 < size s)%nat.
Proof.
  intros Hs. assert (size s <> 0%nat); [|lia].
  apply size_non_empty_iff. by rewrite leibniz_equiv_iff.
Qed.

Lemma bool_decide_iff (P Q : Prop) `{!Decision P, !Decision Q} :
  bool_decide P = bool_decide Q -> (P <-> Q).
Proof. intros E. rewrite <-(bool_decide_eq_true P), E. apply bool_decide_eq_true. Qed.

(** Bytes as keys of maps. *)
#[export] Instance byte_eq_dec : EqDecision Byte.byte.
Proof. intros x y. destruct (Byte.byte_eq_dec x y); [by left|by right]. Defined.
#[export] Instance byte_countable : Countable Byte.byte :=
  inj_countable Byte.to_N Byte.of_N Byte.of_to_N.
