(* ===== verification/Proto.v ===== *)
(** * Data types of the crate raft_proto

    The messages of [proto/eraftpb.proto] as records (one module per message, a
    field keeps its name), its enumerations, and the hand-written code of
    [proto/src/confchange.rs], [proto/src/confstate.rs] and [proto/src/lib.rs].
    An absent sub-message is its default value, which is what the generated
    getters return. *)

From S2P Require Import Prelude.

(** ** Enumerations *)

Inductive EntryType := EntryNormal | EntryConfChange | EntryConfChangeV2.
#[global] Instance EntryType_eq_dec : EqDecision EntryType.
Proof. solve_decision. Defined.

Inductive MessageType :=
  | MsgHup | MsgBeat | MsgPropose | MsgAppend | MsgAppendResponse
  | MsgRequestVote | MsgRequestVoteResponse | MsgSnapshot | MsgHeartbeat
  | MsgHeartbeatResponse | MsgUnreachable | MsgSnapStatus | MsgCheckQuorum
  | MsgTransferLeader | MsgTimeoutNow | MsgReadIndex | MsgReadIndexResp
  | MsgRequestPreVote | MsgRequestPreVoteResponse.
#[global] Instance MessageType_eq_dec : EqDecision MessageType.
Proof. solve_decision. Defined.

Inductive ConfChangeTransition := Auto | Implicit | Explicit.
#[global] Instance ConfChangeTransition_eq_dec : EqDecision ConfChangeTransition.
Proof. solve_decision. Defined.

Inductive ConfChangeType := AddNode | RemoveNode | AddLearnerNode.
#[global] Instance ConfChangeType_eq_dec : EqDecision ConfChangeType.
Proof. solve_decision. Defined.

(** ** Messages *)

(** [message Entry]; the deprecated [sync_log] is never read. *)
Module Entry.
Record t : Type := mk {
  entry_type : EntryType;
  term : Z;
  index : Z;
  data : list Byte.byte;
  context : list Byte.byte
}.
#[global] Instance eta_t : Eta t := fun r =>
  mk (entry_type r) (term r) (index r) (data r) (context r).
#[global] Instance set_entry_type : Setter entry_type := ltac:(derive_setter).
#[global] Instance set_term : Setter term := ltac:(derive_setter).
#[global] Instance set_index : Setter index := ltac:(derive_setter).
#[global] Instance set_data : Setter data := ltac:(derive_setter).
#[global] Instance set_context : Setter context := ltac:(derive_setter).
#[global] Instance eq_dec : EqDecision t.
Proof. solve_decision. Defined.
Definition default : t :=
  mk EntryNormal 0 0 [] [].
End Entry.

(** [message ConfState] *)
Module ConfState.
Record t : Type := mk {
  voters : list Z;
  learners : list Z;
  voters_outgoing : list Z;
  learners_next : list Z;
  auto_leave : bool
}.
#[global] Instance eta_t : Eta t := fun r =>
  mk (voters r) (learners r) (voters_outgoing r) (learners_next r) (auto_leave r).
#[global] Instance set_voters : Setter voters := ltac:(derive_setter).
#[global] Instance set_learners : Setter learners := ltac:(derive_setter).
#[global] Instance set_voters_outgoing : Setter voters_outgoing := ltac:(derive_setter).
#[global] Instance set_learners_next : Setter learners_next := ltac:(derive_setter).
#[global] Instance set_auto_leave : Setter auto_leave := ltac:(derive_setter).
#[global] Instance eq_dec : EqDecision t.
Proof. solve_decision. Defined.
Definition default : t :=
  mk [] [] [] [] false.
End ConfState.

(** [message SnapshotMetadata] *)
Module SnapshotMetadata.
Record t : Type := mk {
  conf_state : ConfState.t;
  index : Z;
  term : Z
}.
#[global] Instance eta_t : Eta t := fun r =>
  mk (conf_state r) (index r) (term r).
#[global] Instance set_conf_state : Setter conf_state := ltac:(derive_setter).
#[global] Instance set_index : Setter index := ltac:(derive_setter).
#[global] Instance set_term : Setter term := ltac:(derive_setter).
#[global] Instance eq_dec : EqDecision t.
Proof. solve_decision. Defined.
Definition default : t :=
  mk ConfState.default 0 0.
End SnapshotMetadata.

(** [message Snapshot] *)
Module Snapshot.
Record t : Type := mk {
  data : list Byte.byte;
  metadata : SnapshotMetadata.t
}.
#[global] Instance eta_t : Eta t := fun r =>
  mk (data r) (metadata r).
#[global] Instance set_data : Setter data := ltac:(derive_setter).
#[global] Instance set_metadata : Setter metadata := ltac:(derive_setter).
#[global] Instance eq_dec : EqDecision t.
Proof. solve_decision. Defined.
Definition default : t :=
  mk [] SnapshotMetadata.default.
End Snapshot.

(** [message Message] *)
Module Message.
Record t : Type := mk {
  msg_type : MessageType;
  to : Z;
  from : Z;
  term : Z;
  log_term : Z;
  index : Z;
  entries : list Entry.t;
  commit : Z;
  commit_term : Z;
  snapshot : Snapshot.t;
  request_snapshot : Z;
  reject : bool;
  reject_hint : Z;
  context : list Byte.byte;
  deprecated_priority : Z;
  priority : Z
}.
#[global] Instance eta_t : Eta t := fun r =>
  mk (msg_type r) (to r) (from r) (term r) (log_term r) (index r) (entries r) (commit r) (commit_term r) (snapshot r) (request_snapshot r) (reject r) (reject_hint r) (context r) (deprecated_priority r) (priority r).
#[global] Instance set_msg_type : Setter msg_type := ltac:(derive_setter).
#[global] Instance set_to : Setter to := ltac:(derive_setter).
#[global] Instance set_from : Setter from := ltac:(derive_setter).
#[global] Instance set_term : Setter term := ltac:(derive_setter).
#[global] Instance set_log_term : Setter log_term := ltac:(derive_setter).
#[global] Instance set_index : Setter index := ltac:(derive_setter).
#[global] Instance set_entries : Setter entries := ltac:(derive_setter).
#[global] Instance set_commit : Setter commit := ltac:(derive_setter).
#[global] Instance set_commit_term : Setter commit_term := ltac:(derive_setter).
#[global] Instance set_snapshot : Setter snapshot := ltac:(derive_setter).
#[global] Instance set_request_snapshot : Setter request_snapshot := ltac:(derive_setter).
#[global] Instance set_reject : Setter reject := ltac:(derive_setter).
#[global] Instance set_reject_hint : Setter reject_hint := ltac:(derive_setter).
#[global] Instance set_context : Setter context := ltac:(derive_setter).
#[global] Instance set_deprecated_priority : Setter deprecated_priority := ltac:(derive_setter).
#[global] Instance set_priority : Setter priority := ltac:(derive_setter).
#[global] Instance eq_dec : EqDecision t.
Proof. solve_decision. Defined.
Definition default : t :=
  mk MsgHup 0 0 0 0 0 [] 0 0 Snapshot.default 0 false 0 [] 0 0.
End Message.

(** [message HardState] *)
Module HardState.
Record t : Type := mk {
  term : Z;
  vote : Z;
  commit : Z
}.
#[global] Instance eta_t : Eta t := fun r =>
  mk (term r) (vote r) (commit r).
#[global] Instance set_term : Setter term := ltac:(derive_setter).
#[global] Instance set_vote : Setter vote := ltac:(derive_setter).
#[global] Instance set_commit : Setter commit := ltac:(derive_setter).
#[global] Instance eq_dec : EqDecision t.
Proof. solve_decision. Defined.
Definition default : t :=
  mk 0 0 0.
End HardState.

(** [message ConfChange] *)
Module ConfChange.
Record t : Type := mk {
  change_type : ConfChangeType;
  node_id : Z;
  context : list Byte.byte;
  id : Z
}.
#[global] Instance eta_t : Eta t := fun r =>
  mk (change_type r) (node_id r) (context r) (id r).
#[global] Instance set_change_type : Setter change_type := ltac:(derive_setter).
#[global] Instance set_node_id : Setter node_id := ltac:(derive_setter).
#[global] Instance set_context : Setter context := ltac:(derive_setter).
#[global] Instance set_id : Setter id := ltac:(derive_setter).
#[global] Instance eq_dec : EqDecision t.
Proof. solve_decision. Defined.
Definition default : t :=
  mk AddNode 0 [] 0.
End ConfChange.

(** [message ConfChangeSingle] *)
Module ConfChangeSingle.
Record t : Type := mk {
  change_type : ConfChangeType;
  node_id : Z
}.
#[global] Instance eta_t : Eta t := fun r =>
  mk (change_type r) (node_id r).
#[global] Instance set_change_type : Setter change_type := ltac:(derive_setter).
#[global] Instance set_node_id : Setter node_id := ltac:(derive_setter).
#[global] Instance eq_dec : EqDecision t.
Proof. solve_decision. Defined.
Definition default : t :=
  mk AddNode 0.
End ConfChangeSingle.

(** [message ConfChangeV2] *)
Module ConfChangeV2.
Record t : Type := mk {
  transition : ConfChangeTransition;
  changes : list ConfChangeSingle.t;
  context : list Byte.byte
}.
#[global] Instance eta_t : Eta t := fun r =>
  mk (transition r) (changes r) (context r).
#[global] Instance set_transition : Setter transition := ltac:(derive_setter).
#[global] Instance set_changes : Setter changes := ltac:(derive_setter).
#[global] Instance set_context : Setter context := ltac:(derive_setter).
#[global] Instance eq_dec : EqDecision t.
Proof. solve_decision. Defined.
Definition default : t :=
  mk Auto [] [].
End ConfChangeV2.


Definition Snapshot_is_empty (s : Snapshot.t) : bool :=
  SnapshotMetadata.index (Snapshot.metadata s) =? 0.

(** ** The protobuf codec

    Serialisation is generated code of the crate protobuf, a parameter: the
    size of an encoded entry, and encoding and decoding of the two
    configuration-change messages.  What the crate relies on: a size is a [u32],
    decoding inverts encoding, and no bytes decode to the default message. *)
Class Codec := {
  compute_size : Entry.t -> Z;
  write_conf_change : ConfChange.t -> list Byte.byte;
  parse_conf_change_v1 : list Byte.byte -> option ConfChange.t;
  write_conf_change_v2 : ConfChangeV2.t -> list Byte.byte;
  parse_conf_change_v2 : list Byte.byte -> option ConfChangeV2.t
}.

Class CodecLaws (C : Codec) : Prop := {
  compute_size_range e : 0 <= compute_size e < 2 ^ 32;
  parse_write_v1 cc : parse_conf_change_v1 (write_conf_change cc) = Some cc;
  parse_write_v2 cc : parse_conf_change_v2 (write_conf_change_v2 cc) = Some cc;
  parse_empty_v2 : parse_conf_change_v2 [] = Some ConfChangeV2.default
}.

(** ** proto/src/confchange.rs *)

Definition new_conf_change_single (node_id : Z) (ty : ConfChangeType) : ConfChangeSingle.t :=
  ConfChangeSingle.default <| ConfChangeSingle.node_id := node_id |>
                           <| ConfChangeSingle.change_type := ty |>.

Section text.
Local Open Scope string_scope.

(** [char::is_whitespace] and [u8::is_ascii_whitespace] on ASCII characters. *)
Definition is_whitespace (c : ascii) : bool :=
  let n := Ascii.nat_of_ascii c in ((9 <=? n) && (n <=? 13) || (n =? 32))%nat.
Definition is_ascii_whitespace (c : ascii) : bool :=
  let n := Ascii.nat_of_ascii c in ((n =? 9) || (n =? 10) || (n =? 12) || (n =? 13) || (n =? 32))%nat.

Fixpoint trim_start (s : list ascii) : list ascii :=
  match s with
  | [] => []
  | c :: s' => if is_whitespace c then trim_start s' else s
  end.
Definition trim (s : list ascii) : list ascii := rev (trim_start (rev (trim_start s))).

(** [str::split_ascii_whitespace]: the non-empty maximal runs of other characters. *)
Fixpoint split_tokens (cur : list ascii) (s : list ascii) : list (list ascii) :=
  match s with
  | [] => match cur with [] => [] | _ => [rev cur] end
  | c :: s =>
      if is_ascii_whitespace c then
        match cur with [] => split_tokens [] s | _ => rev cur :: split_tokens [] s end
      else split_tokens (c :: cur) s
  end.
Definition split_ascii_whitespace (s : list ascii) : list (list ascii) := split_tokens [] s.

(** [str::parse::<u64>]. *)
Fixpoint parse_digits (acc : Z) (s : list ascii) : result Z string :=
  match s with
  | [] => Ok acc
  | c :: s =>
      let d := Z.of_nat (Ascii.nat_of_ascii c) - 48 in
      if ((d <? 0) || (9 <? d))%Z then Err "invalid digit found in string"
      else if (U64_MOD <=? acc * 10 + d)%Z then Err "number too large to fit in target type"
      else parse_digits (acc * 10 + d) s
  end.
Definition parse_u64 (s : list ascii) : result Z string :=
  match s with
  | [] => Err "cannot parse integer from empty string"
  | "+"%char :: [] => Err "invalid digit found in string"
  | "+"%char :: s => parse_digits 0 s
  | _ => parse_digits 0 s
  end.

Definition str (s : list ascii) : string := String.string_of_list_ascii s.

(** One token of the loop of [parse_conf_change]. *)
Definition parse_token (tok : list ascii) : result ConfChangeSingle.t string :=
  if (length tok <? 2)%nat then Err ("unknown token " +:+ str tok)
  else
    match tok with
    | [] => Err ("unknown token " +:+ str tok)
    | c :: chars =>
        ty ←! (if ascii_dec c "v" then Ok AddNode
               else if ascii_dec c "l" then Ok AddLearnerNode
               else if ascii_dec c "r" then Ok RemoveNode
               else Err ("unknown token " +:+ str tok));
        match parse_u64 chars with
        | Ok id => Ok (new_conf_change_single id ty)
        | Err e => Err ("parse token " +:+ str tok +:+ " fail: " +:+ e)
        end
    end.

Fixpoint parse_tokens (toks : list (list ascii)) : result (list ConfChangeSingle.t) string :=
  match toks with
  | [] => Ok []
  | tok :: toks =>
      cc ←! parse_token tok; ccs ←! parse_tokens toks; Ok (cc :: ccs)
  end.

Definition parse_conf_change (s : string) : result (list ConfChangeSingle.t) string :=
  let s := trim (String.list_ascii_of_string s) in
  match s with
  | [] => Ok []
  | _ => parse_tokens (split_ascii_whitespace s)
  end.

Definition change_type_char (ty : ConfChangeType) : ascii :=
  match ty with AddNode => "v" | AddLearnerNode => "l" | RemoveNode => "r" end%char.

(** The loop of [stringify_conf_change]; [first] is [i = 0]. *)
Fixpoint stringify_loop (first : bool) (ccs : list ConfChangeSingle.t) : string :=
  match ccs with
  | [] => ""
  | cc :: ccs =>
      (if first then "" else " ")
        +:+ String (change_type_char (ConfChangeSingle.change_type cc))
              (pretty (ConfChangeSingle.node_id cc))
        +:+ stringify_loop false ccs
  end.
Definition stringify_conf_change (ccs : list ConfChangeSingle.t) : string := stringify_loop true ccs.
End text.

(** [trait ConfChangeI] and its two implementations. *)
Class ConfChangeI (C : Type) := {
  into_v2 : C -> ConfChangeV2.t;
  as_v2 : C -> ConfChangeV2.t;
  as_v1 : C -> option ConfChange.t;
  to_entry : C -> Entry.t
}.

Definition ConfChange_into_v2 (self : ConfChange.t) : ConfChangeV2.t :=
  let cc := ConfChangeV2.default in
  let single := new_conf_change_single (ConfChange.node_id self) (ConfChange.change_type self) in
  let cc := cc <| ConfChangeV2.changes := ConfChangeV2.changes cc ++ [single] |> in
  cc <| ConfChangeV2.context := ConfChange.context self |>.

Definition ConfChange_to_entry `{Codec} (self : ConfChange.t) : Entry.t :=
  Entry.default <| Entry.data := write_conf_change self |>
                <| Entry.entry_type := EntryConfChange |>.

Definition ConfChangeV2_to_entry `{Codec} (self : ConfChangeV2.t) : Entry.t :=
  Entry.default <| Entry.data := write_conf_change_v2 self |>
                <| Entry.entry_type := EntryConfChangeV2 |>.

#[export] Instance ConfChange_ConfChangeI `{Codec} : ConfChangeI ConfChange.t := {|
  into_v2 := ConfChange_into_v2;
  as_v2 := ConfChange_into_v2;
  as_v1 := fun self => Some self;
  to_entry := ConfChange_to_entry
|}.

#[export] Instance ConfChangeV2_ConfChangeI `{Codec} : ConfChangeI ConfChangeV2.t := {|
  into_v2 := fun self => self;
  as_v2 := fun self => self;
  as_v1 := fun _ => None;
  to_entry := ConfChangeV2_to_entry
|}.

(** [ConfChangeV2::enter_joint] and [leave_joint] *)
Definition cc_enter_joint (self : ConfChangeV2.t) : option bool :=
  if negb (bool_decide (ConfChangeV2.transition self = Auto))
     || (1 <? len (ConfChangeV2.changes self)) then
    match ConfChangeV2.transition self with
    | Auto | Implicit => Some true
    | Explicit => Some false
    end
  else None.

Definition cc_leave_joint (self : ConfChangeV2.t) : bool :=
  bool_decide (ConfChangeV2.transition self = Auto)
  && match ConfChangeV2.changes self with [] => true | _ => false end.

(** ** proto/src/confstate.rs *)

Definition eq_without_order (lhs rhs : list Z) : bool :=
  forallb (fun l => bool_decide (l ∈ rhs)) lhs && forallb (fun r => bool_decide (r ∈ lhs)) rhs.

Definition conf_state_eq (lhs rhs : ConfState.t) : bool :=
  if bool_decide (ConfState.voters lhs = ConfState.voters rhs)
     && bool_decide (ConfState.learners lhs = ConfState.learners rhs)
     && bool_decide (ConfState.voters_outgoing lhs = ConfState.voters_outgoing rhs)
     && bool_decide (ConfState.learners_next lhs = ConfState.learners_next rhs)
     && Bool.eqb (ConfState.auto_leave lhs) (ConfState.auto_leave rhs)
  then true
  else
    eq_without_order (ConfState.voters lhs) (ConfState.voters rhs)
    && eq_without_order (ConfState.learners lhs) (ConfState.learners rhs)
    && eq_without_order (ConfState.voters_outgoing lhs) (ConfState.voters_outgoing rhs)
    && eq_without_order (ConfState.learners_next lhs) (ConfState.learners_next rhs)
    && Bool.eqb (ConfState.auto_leave lhs) (ConfState.auto_leave rhs).

(** [impl From<(Iter1, Iter2)> for ConfState] *)
Definition ConfState_from (voters learners : list Z) : ConfState.t :=
  ConfState.default <| ConfState.voters := voters |> <| ConfState.learners := learners |>.
