(* ===== verification/Errors.v ===== *)
(** * Errors ([errors.rs]) *)

From S2P Require Import Prelude.

Inductive StorageError :=
  | Compacted
  | Unavailable
  | LogTemporarilyUnavailable
  | SnapshotOutOfDate
  | SnapshotTemporarilyUnavailable
  | Other.
#[global] Instance StorageError_eq_dec : EqDecision StorageError.
Proof. solve_decision. Defined.

(** The payloads of [Io], [CodecError] and [Other] come from other crates and are
    never inspected; they are left out. *)
Inductive Error :=
  | Io
  | Store (e : StorageError)
  | StepLocalMsg
  | StepPeerNotFound
  | ProposalDropped
  | ConfigInvalid (msg : string)
  | CodecError
  | Exists (id : Z) (set : string)
  | NotExists (id : Z) (set : string)
  | ConfChangeError (msg : string)
  | RequestSnapshotDropped
  | Stopped
  | NotIsVoter
  | NoLeader.
#[global] Instance Error_eq_dec : EqDecision Error.
Proof. solve_decision. Defined.

(** [impl PartialEq for StorageError] and [impl PartialEq for Error]. *)
Definition StorageError_eqb (a b : StorageError) : bool :=
  match a, b with
  | Compacted, Compacted | Unavailable, Unavailable
  | LogTemporarilyUnavailable, LogTemporarilyUnavailable
  | SnapshotOutOfDate, SnapshotOutOfDate
  | SnapshotTemporarilyUnavailable, SnapshotTemporarilyUnavailable => true
  | _, _ => false
  end.

(** Two [Io] errors are compared by their kind, which the model does not have. *)
Definition Error_eqb (a b : Error) : bool :=
  match a, b with
  | StepPeerNotFound, StepPeerNotFound | ProposalDropped, ProposalDropped => true
  | Store e1, Store e2 => StorageError_eqb e1 e2
  | StepLocalMsg, StepLocalMsg => true
  | ConfigInvalid e1, ConfigInvalid e2 => bool_decide (e1 = e2)
  | RequestSnapshotDropped, RequestSnapshotDropped => true
  | ConfChangeError e1, ConfChangeError e2 => bool_decide (e1 = e2)
  | _, _ => false
  end.

(** [type Result<T>] *)
Notation Result A := (result A Error).
