(* ===== verification/Util.v ===== *)
(** * Helpers ([util.rs]) *)

From S2P Require Import Prelude Proto.

Definition NO_LIMIT : Z := u64_MAX.

(** ** [limit_size] *)
Section limit_size.
Context {A : Type} (sz : A -> Z).

(** The [take_while(..).count()] of [limit_size], with the captured [size]. *)
Fixpoint count_within (max size : Z) (entries : list A) : nat :=
  match entries with
  | [] => 0
  | e :: entries =>
      if size =? 0 then S (count_within max (size +w sz e) entries)
      else
        let size := size +w sz e in
        if size <=? max then S (count_within max size entries) else 0
  end.

Definition limit_size (entries : list A) (max : option Z) : list A :=
  if len entries <=? 1 then entries
  else
    match max with
    | None => entries
    | Some max =>
        if max =? NO_LIMIT then entries
        else take (count_within max 0 entries) entries
    end.

Definition total_size (l : list A) : Z := foldr (fun e n => sz e + n) 0 l.

Lemma limit_size_prefix entries max : limit_size entries max `prefix_of` entries.
Proof.
  unfold limit_size. repeat case_match; try done. apply prefix_take.
Qed.

Lemma limit_size_nonempty entries max : entries <> [] -> limit_size entries max <> [].
Proof.
  unfold limit_size. intros Hne. destruct entries as [|e entries]; [done|]. repeat case_match; done.
Qed.

Lemma limit_size_length entries max : len (limit_size entries max) <= len entries.
Proof.
  destruct (limit_size_prefix entries max) as [l E]. rewrite E at 2. rewrite len_app.
  pose proof (len_nonneg l). lia.
Qed.

Lemma limit_size_none entries : limit_size entries None = entries.
Proof. unfold limit_size. by case_match. Qed.

Lemma limit_size_hd entries max : head (limit_size entries max) = head entries.
Proof.
  destruct entries as [|e entries]; [by unfold limit_size; repeat case_match|].
  pose proof (limit_size_nonempty (e :: entries) max ltac:(done)) as Hne.
  destruct (limit_size_prefix (e :: entries) max) as [l E].
  destruct (limit_size _ _); [done|]. by simplify_eq/=.
Qed.
End limit_size.

(** Check whether the entries continue those of the message. *)
Definition is_continuous_ents (msg : Message.t) (ents : list Entry.t) : bool :=
  match last (Message.entries msg), head ents with
  | Some l, Some f => (Entry.index l +w 1) =? Entry.index f
  | _, _ => true
  end.

(** The majority number of a given count of nodes. *)
Definition majority (total : Z) : Z := total / 2 + 1.

(** ** [Union] of two hash sets *)
Module Union.
Record t := mk { first : gset Z; second : gset Z }.
Definition contains (self : t) (id : Z) : bool :=
  bool_decide (id ∈ first self) || bool_decide (id ∈ second self).
(** [self.first.union(self.second)]: the elements of the larger set (of the first one
    when they are as large), then what is new in the other. *)
Definition iter_from `{HashOrder} (s1 s2 : gset Z) : list Z :=
  set_iter s1 ++ filter (fun x => x ∉ s1) (set_iter s2).
Definition iter `{HashOrder} (self : t) : list Z :=
  if (size (second self) <=? size (first self))%nat then iter_from (first self) (second self)
  else iter_from (second self) (first self).
Definition is_empty (self : t) : bool :=
  bool_decide (first self = ∅) && bool_decide (second self = ∅).
Definition len (self : t) : Z :=
  Z.of_nat (size (first self)) + Z.of_nat (size (second self))
  - Z.of_nat (size (second self ∩ first self)).

Lemma elem_of_iter_from `{HashOrder} s1 s2 x : x ∈ iter_from s1 s2 <-> x ∈ s1 ∪ s2.
Proof.
  unfold iter_from. rewrite elem_of_app, list_elem_of_filter, !elem_of_set_iter, elem_of_union.
  destruct (decide (x ∈ s1)); tauto.
Qed.

Lemma NoDup_iter_from `{HashOrder} s1 s2 : NoDup (iter_from s1 s2).
Proof.
  unfold iter_from. apply NoDup_app. split; [apply NoDup_set_iter|]. split.
  - intros x. rewrite elem_of_set_iter, list_elem_of_filter. tauto.
  - apply NoDup_filter, NoDup_set_iter.
Qed.

Lemma elem_of_iter `{HashOrder} self x : x ∈ iter self <-> x ∈ first self ∪ second self.
Proof. unfold iter. case_match; rewrite elem_of_iter_from; [done|]. set_solver. Qed.

Lemma NoDup_iter `{HashOrder} self : NoDup (iter self).
Proof. unfold iter. case_match; apply NoDup_iter_from. Qed.

(** The count is the number of distinct identifiers the iterator yields. *)
Lemma len_iter `{HashOrder} self : len self = Z.of_nat (length (iter self)).
Proof.
  assert (length (iter self) = size (first self ∪ second self)) as ->.
  { rewrite <-length_set_iter. apply Permutation_length, NoDup_Permutation;
      [apply NoDup_iter|apply NoDup_set_iter|]. intros x. by rewrite elem_of_iter, elem_of_set_iter. }
  unfold len. pose proof (size_union_alt (first self) (second self)). pose proof (size_difference_alt (second self) (first self)).
  assert (size (second self ∩ first self) <= size (second self))%nat by (apply subseteq_size; set_solver).
  lia.
Qed.
End Union.

(** The approximate size of an entry. *)
Definition entry_approximate_size (e : Entry.t) : Z :=
  len (Entry.data e) + len (Entry.context e) + 12.
