(* ===== verification/Quorum.v ===== *)
(** * Quorums ([quorum.rs], [quorum/majority.rs], [quorum/joint.rs])

    Majority and joint configurations, the commit index they allow and the
    outcome of a vote, with the intersection properties Raft's safety rests on. *)

From S2P Require Import Prelude Util.

Inductive VoteResult := Pending | Lost | Won.
#[global] Instance VoteResult_eq_dec : EqDecision VoteResult.
Proof. solve_decision. Defined.

(** A Raft log position, with the commit group that acknowledged it. *)
Module Index.
Record t : Type := mk {
  index : Z;
  group_id : Z
}.
#[global] Instance eta_t : Eta t := fun r =>
  mk (index r) (group_id r).
#[global] Instance set_index : Setter index := ltac:(derive_setter).
#[global] Instance set_group_id : Setter group_id := ltac:(derive_setter).
#[global] Instance eq_dec : EqDecision t.
Proof. solve_decision. Defined.
Definition default : t :=
  mk 0 0.
End Index.

(** [trait AckedIndexer]: the position a voter has acknowledged. *)
Abbreviation AckedIndexer := (Z -> option Index.t).

(** ** Majority configurations *)
Module Majority.

Record Configuration := mk { voters : gset Z }.
#[global] Instance Configuration_eq_dec : EqDecision Configuration.
Proof. solve_decision. Defined.

Definition new (voters : gset Z) : Configuration := mk voters.
Definition default : Configuration := mk ∅.
(** [self.voters.iter()], [raw_slice] and [slice]. *)
Definition ids `{HashOrder} (self : Configuration) : list Z := set_iter (voters self).
Definition raw_slice `{HashOrder} (self : Configuration) : list Z := ids self.
Definition slice `{HashOrder} (self : Configuration) : list Z := merge_sort Z.le (raw_slice self).
Definition clear (self : Configuration) : Configuration := mk ∅.
Definition is_empty (self : Configuration) : bool := bool_decide (voters self = ∅).
Definition voter_count (self : Configuration) : Z := Z.of_nat (size (voters self)).
Definition contains (self : Configuration) (id : Z) : bool := bool_decide (id ∈ voters self).

(** [b.index.cmp(&a.index)]: the order of the reverse sort. *)
Definition rev_index (a b : Index.t) : Prop := Index.index b <= Index.index a.
#[global] Instance rev_index_dec a b : Decision (rev_index a b).
Proof. unfold rev_index. apply _. Defined.

Definition acked (l : AckedIndexer) (v : Z) : Index.t :=
  match l v with Some i => i | None => Index.default end.

(** The acknowledged positions of the voters, in descending order. *)
Definition matched `{HashOrder} (self : Configuration) (l : AckedIndexer) : list Index.t :=
  merge_sort rev_index (map (acked l) (ids self)).

(** The scan of the group commit: [inl] is the early [return], [inr] gives
    [single_group] at the end of the loop. *)
Fixpoint scan_groups (quorum_commit_index checked_group_id : Z) (single_group : bool)
    (matched : list Index.t) : Z + bool :=
  match matched with
  | [] => inr single_group
  | m :: ms =>
      if Index.group_id m =? 0 then
        scan_groups quorum_commit_index checked_group_id false ms
      else if checked_group_id =? 0 then
        scan_groups quorum_commit_index (Index.group_id m) single_group ms
      else if checked_group_id =? Index.group_id m then
        scan_groups quorum_commit_index checked_group_id single_group ms
      else inl (Z.min (Index.index m) quorum_commit_index)
  end.

Definition committed_index `{HashOrder} (self : Configuration) (use_group_commit : bool)
    (l : AckedIndexer) : outcome (Z * bool) :=
  if is_empty self then Ret (u64_MAX, true)
  else
    let matched := matched self l in
    let quorum := majority (len matched) in
    match index matched (quorum - 1) with
    | None => Panic
    | Some quorum_index =>
        if negb use_group_commit then Ret (Index.index quorum_index, false)
        else
          match scan_groups (Index.index quorum_index) (Index.group_id quorum_index) true matched with
          | inl i => Ret (i, true)
          | inr true => Ret (Index.index quorum_index, false)
          | inr false =>
              match last matched with
              | Some m => Ret (Index.index m, false)
              | None => Panic
              end
          end
    end.

(** The counting loop of [vote_result]. *)
Definition count_votes (check : Z -> option bool) (ids : list Z) : Z * Z :=
  fold_left (fun '(yes, missing) v =>
    match check v with
    | Some true => (yes + 1, missing)
    | None => (yes, missing + 1)
    | Some false => (yes, missing)
    end) ids (0, 0).

Definition vote_result `{HashOrder} (self : Configuration) (check : Z -> option bool) : VoteResult :=
  if is_empty self then Won
  else
    let '(yes, missing) := count_votes check (ids self) in
    let q := majority (voter_count self) in
    if q <=? yes then Won
    else if q <=? yes + missing then Pending
    else Lost.

End Majority.

(** ** Joint configurations *)
Module Joint.

Record Configuration := mk { incoming : Majority.Configuration; outgoing : Majority.Configuration }.
#[global] Instance eta_Configuration : Eta Configuration := fun r => mk (incoming r) (outgoing r).
#[global] Instance set_incoming : Setter incoming := ltac:(derive_setter).
#[global] Instance set_outgoing : Setter outgoing := ltac:(derive_setter).
#[global] Instance Configuration_eq_dec : EqDecision Configuration.
Proof. solve_decision. Defined.

Definition new (voters : gset Z) : Configuration :=
  mk (Majority.new voters) Majority.default.

Definition committed_index `{HashOrder} (self : Configuration) (use_group_commit : bool)
    (l : AckedIndexer) : outcome (Z * bool) :=
  '(i_idx, i_use_gc) ← Majority.committed_index (incoming self) use_group_commit l;
  '(o_idx, o_use_gc) ← Majority.committed_index (outgoing self) use_group_commit l;
  mret (Z.min i_idx o_idx, i_use_gc && o_use_gc).

Definition vote_result `{HashOrder} (self : Configuration) (check : Z -> option bool) : VoteResult :=
  let i := Majority.vote_result (incoming self) check in
  let o := Majority.vote_result (outgoing self) check in
  match i, o with
  | Won, Won => Won
  | Lost, _ | _, Lost => Lost
  | _, _ => Pending
  end.

Definition clear (self : Configuration) : Configuration :=
  mk (Majority.clear (incoming self)) (Majority.clear (outgoing self)).

Definition is_singleton (self : Configuration) : bool :=
  Majority.is_empty (outgoing self) && (Majority.voter_count (incoming self) =? 1).

Definition ids (self : Configuration) : Union.t :=
  Union.mk (Majority.voters (incoming self)) (Majority.voters (outgoing self)).

Definition contains (self : Configuration) (id : Z) : bool :=
  Majority.contains (incoming self) id || Majority.contains (outgoing self) id.

End Joint.

(** ** Counting

    The lemmas on sorted lists and on the sizes of voter sets. *)
Section counting.
Context `{HashOrder}.

(** In a descending list the element at position [k] bounds from above exactly
    the values that at least [k + 1] elements reach. *)
Lemma sorted_count (l : list Index.t) k x i :
  StronglySorted Majority.rev_index l -> l !! k = Some x ->
  i <= Index.index x <-> (k < length (filter (fun m => (i <= Index.index m)%Z) l))%nat.
Proof.
  intros Hs. revert k. induction Hs as [|y l Hs IH Hall]; intros k Hk; [done|].
  rewrite filter_cons. destruct k as [|k]; simpl in Hk; simplify_eq.
  - case_decide as Hx; simpl; [split; [lia|done]|]. split; [done|]. intros Hlt.
    exfalso. apply Hx. rewrite Forall_forall in Hall.
    destruct (filter _ l) as [|z zs] eqn:E; simpl in Hlt; [lia|].
    assert (z ∈ filter (fun m => i <= Index.index m) l) as [Hz1 Hz2]%list_elem_of_filter
      by (rewrite E; left).
    apply Hall in Hz2. unfold Majority.rev_index in Hz2. lia.
  - case_decide as Hy; simpl.
    + rewrite (IH k Hk). lia.
    + assert (Majority.rev_index y x) as Hyx.
      { rewrite Forall_forall in Hall. apply Hall. by eapply list_elem_of_lookup_2. }
      unfold Majority.rev_index in Hyx. split; [lia|].
      intros Hlt.
      assert (k < length (filter (fun m => (i <= Index.index m)%Z) l))%nat as Hlt' by lia.
      apply (IH k Hk) in Hlt'. lia.
Qed.

Lemma filter_map_length {A B} (f : A -> B) (P : B -> Prop) `{forall b, Decision (P b)} (l : list A) :
  length (filter P (map f l)) = length (filter (fun a => P (f a)) l).
Proof.
  induction l as [|a l IH]; [done|]. simpl. rewrite !filter_cons.
  case_decide; simpl; by rewrite IH.
Qed.

Lemma filter_set_iter_length (P : Z -> Prop) `{forall v, Decision (P v)} (s : gset Z) :
  length (filter P (set_iter s)) = size (filter P s).
Proof.
  rewrite <-(length_set_iter (filter P s)). apply Permutation_length, NoDup_Permutation.
  - apply NoDup_filter, NoDup_set_iter.
  - apply NoDup_set_iter.
  - intros x. rewrite list_elem_of_filter, !elem_of_set_iter, elem_of_filter. done.
Qed.

Lemma matched_perm c l :
  Majority.matched c l ≡ₚ map (Majority.acked l) (set_iter (Majority.voters c)).
Proof. apply merge_sort_Permutation. Qed.

Lemma matched_length c l : length (Majority.matched c l) = size (Majority.voters c).
Proof. rewrite matched_perm, length_map. apply length_set_iter. Qed.

Lemma matched_sorted c l : StronglySorted Majority.rev_index (Majority.matched c l).
Proof.
  apply StronglySorted_merge_sort.
  - intros a b d. unfold Majority.rev_index. lia.
  - intros a b. unfold Majority.rev_index. lia.
Qed.

(** The voters that have acknowledged at least position [i]. *)
Definition reached (c : Majority.Configuration) (l : AckedIndexer) (i : Z) : gset Z :=
  filter (fun v => i <= Index.index (Majority.acked l v)) (Majority.voters c).

Lemma matched_reached c l i :
  length (filter (fun m => i <= Index.index m) (Majority.matched c l)) = size (reached c l i).
Proof.
  rewrite (matched_perm c l), filter_map_length. apply filter_set_iter_length.
Qed.

Lemma elem_of_matched c l m :
  m ∈ Majority.matched c l <-> exists v, v ∈ Majority.voters c /\ m = Majority.acked l v.
Proof.
  rewrite (matched_perm c l), list_elem_of_In, in_map_iff.
  setoid_rewrite <-list_elem_of_In. setoid_rewrite elem_of_set_iter.
  split; intros (v & ? & ?); eauto.
Qed.

Lemma majority_bounds n : 0 < n -> 1 <= majority n <= n /\ n < 2 * majority n.
Proof.
  unfold majority. intros Hn. pose proof (Z.div_mod n 2 ltac:(lia)).
  pose proof (Z.mod_pos_bound n 2 ltac:(lia)). lia.
Qed.

End counting.

(** ** The commit index of a majority *)
Section committed_index.
Context `{HashOrder}.

(** The element at the quorum position always exists. *)
Lemma quorum_position c l :
  Majority.voters c <> ∅ ->
  exists m, index (Majority.matched c l) (majority (len (Majority.matched c l)) - 1) = Some m.
Proof.
  intros Hne.
  assert (0 < len (Majority.matched c l)).
  { unfold len. rewrite matched_length. apply size_pos in Hne. lia. }
  pose proof (majority_bounds _ ltac:(done)). apply index_is_Some. lia.
Qed.

Lemma quorum_position_spec c l m :
  index (Majority.matched c l) (majority (len (Majority.matched c l)) - 1) = Some m ->
  forall j, j <= Index.index m <-> majority (Majority.voter_count c) <= Z.of_nat (size (reached c l j)).
Proof.
  intros Hm j. pose proof (index_Some _ _ _ Hm) as Hrange.
  unfold index in Hm. destruct (Z.ltb_spec (majority (len (Majority.matched c l)) - 1) 0); [done|].
  rewrite (sorted_count _ _ _ j (matched_sorted c l) Hm), matched_reached.
  assert (len (Majority.matched c l) = Majority.voter_count c) as E
    by (unfold len, Majority.voter_count; by rewrite matched_length).
  rewrite E in *. lia.
Qed.

(** The scan of the group commit along a descending list [pre ++ ms]; [checked]
    is the group of some element at or above the quorum index or already passed. *)
Definition two_groups (l : list Index.t) (i : Z) : Prop :=
  exists a b, a ∈ l /\ b ∈ l /\ i <= Index.index a /\ i <= Index.index b /\
    Index.group_id a <> 0 /\ Index.group_id b <> 0 /\ Index.group_id a <> Index.group_id b.

Lemma scan_groups_spec q l ms pre checked single :
  StronglySorted Majority.rev_index l -> l = pre ++ ms ->
  (forall e, e ∈ pre -> Index.group_id e = 0 \/ Index.group_id e = checked) ->
  (checked = 0 \/ exists e, e ∈ l /\ Index.group_id e = checked /\ (q <= Index.index e \/ e ∈ pre)) ->
  single = bool_decide (Forall (fun e => Index.group_id e <> 0) pre) ->
  match Majority.scan_groups q checked single ms with
  | inl r => forall i, i <= r <-> i <= q /\ two_groups l i
  | inr s => (forall i, ~ two_groups l i) /\ s = bool_decide (Forall (fun e => Index.group_id e <> 0) l)
  end.
Proof.
  intros Hs. revert pre checked single.
  induction ms as [|m ms IH]; intros pre checked single -> Hpre Hchk Hsingle; simpl.
  - rewrite app_nil_r in *. split; [|done].
    intros i (a & b & Ha & Hb & _ & _ & Hga & Hgb & Hab).
    destruct (Hpre _ Ha), (Hpre _ Hb); congruence.
  - assert (pre ++ m :: ms = (pre ++ [m]) ++ ms) as E by by rewrite <-app_assoc.
    destruct (Z.eqb_spec (Index.group_id m) 0) as [Hm0|Hm0];
      [|destruct (Z.eqb_spec checked 0) as [->|Hc0];
        [|destruct (Z.eqb_spec checked (Index.group_id m)) as [Hcm|Hcm]]].
    + apply (IH (pre ++ [m])); [done|..].
      * intros e [He| ->%list_elem_of_singleton]%elem_of_app; [by apply Hpre|by left].
      * destruct Hchk as [?|(e & ? & ? & [?|?])]; [by left|right; exists e..]; set_solver.
      * symmetry. apply bool_decide_eq_false. rewrite Forall_app, Forall_singleton. tauto.
    + apply (IH (pre ++ [m])); [done|..].
      * intros e [He| ->%list_elem_of_singleton]%elem_of_app; [|by right].
        destruct (Hpre _ He); by left.
      * right. exists m. set_solver.
      * rewrite Hsingle. apply bool_decide_ext. rewrite Forall_app, Forall_singleton. tauto.
    + apply (IH (pre ++ [m])); [done|..].
      * intros e [He| ->%list_elem_of_singleton]%elem_of_app; [by apply Hpre|by right].
      * destruct Hchk as [?|(e & ? & ? & [?|?])]; [by left|right; exists e..]; set_solver.
      * rewrite Hsingle. apply bool_decide_ext. rewrite Forall_app, Forall_singleton. tauto.
    + clear IH. intros i. apply StronglySorted_app in Hs as (Hcross & _ & Hms).
      apply StronglySorted_inv in Hms as [_ Hbelow]. rewrite Forall_forall in Hbelow.
      split.
      * intros Hi. split; [lia|].
        destruct Hchk as [?|(e & He & <- & Hq)]; [done|]. exists e, m.
        repeat split; [done|set_solver|..|done|done|done]; [|lia].
        destruct Hq as [?|He']; [lia|].
        specialize (Hcross e m He' ltac:(left)). unfold Majority.rev_index in Hcross. lia.
      * intros [Hq (a & b & Ha & Hb & Hia & Hib & Hga & Hgb & Hab)].
        apply Z.min_glb; [|done]. destruct (Z.le_gt_cases i (Index.index m)) as [|Hgt]; [done|].
        exfalso. apply Hab. assert (forall e, e ∈ pre ++ m :: ms -> i <= Index.index e ->
          Index.group_id e <> 0 -> Index.group_id e = checked) as Hall; [|by rewrite !Hall].
        intros e [He|[->|He]%elem_of_cons]%elem_of_app Hie Hge.
        { destruct (Hpre _ He); congruence. }
        { lia. }
        { apply Hbelow in He. unfold Majority.rev_index in He. lia. }
Qed.

(** The voters that have acknowledged [i] belong to two different commit groups. *)
Definition reached_two_groups (c : Majority.Configuration) (l : AckedIndexer) (i : Z) : Prop :=
  exists v w, v ∈ reached c l i /\ w ∈ reached c l i /\
    Index.group_id (Majority.acked l v) <> 0 /\ Index.group_id (Majority.acked l w) <> 0 /\
    Index.group_id (Majority.acked l v) <> Index.group_id (Majority.acked l w).

Lemma two_groups_matched c l i :
  two_groups (Majority.matched c l) i <-> reached_two_groups c l i.
Proof.
  unfold two_groups, reached_two_groups, reached.
  setoid_rewrite elem_of_matched. setoid_rewrite elem_of_filter.
  split.
  - intros (a & b & (v & ? & ->) & (w & ? & ->) & ?). exists v, w. naive_solver.
  - intros (v & w & ? & ? & ?). exists (Majority.acked l v), (Majority.acked l w). naive_solver.
Qed.

Lemma matched_groups c l :
  Forall (fun e => Index.group_id e <> 0) (Majority.matched c l) <->
  (forall v, v ∈ Majority.voters c -> Index.group_id (Majority.acked l v) <> 0).
Proof.
  rewrite Forall_forall. setoid_rewrite elem_of_matched.
  split; [intros Hf v Hv; apply Hf; eauto|]. intros Hf ? (v & ? & ->). auto.
Qed.

(** The last element of a non-empty descending list is a least one. *)
Lemma matched_last c l :
  Majority.voters c <> ∅ ->
  exists m, last (Majority.matched c l) = Some m /\
    (forall v, v ∈ Majority.voters c -> Index.index m <= Index.index (Majority.acked l v)) /\
    (exists v, v ∈ Majority.voters c /\ m = Majority.acked l v).
Proof.
  intros Hne. destruct (last (Majority.matched c l)) as [m|] eqn:E.
  - exists m. split; [done|]. apply last_Some in E as [l' E]. split.
    + intros v Hv. assert (Majority.acked l v ∈ Majority.matched c l) as Hin
        by (apply elem_of_matched; eauto).
      pose proof (matched_sorted c l) as Hs. rewrite E in Hs, Hin.
      apply StronglySorted_app in Hs as (Hcross & _ & _).
      apply elem_of_app in Hin as [Hin| ->%list_elem_of_singleton]; [|done].
      by apply (Hcross _ m Hin ltac:(left)).
    + apply elem_of_matched. rewrite E. set_solver.
  - apply last_None in E. apply size_pos in Hne.
    rewrite <-(matched_length c l), E in Hne. simpl in Hne. lia.
Qed.

End committed_index.

(** ** Votes *)
Section votes.
Context `{HashOrder}.

Definition granted (c : Majority.Configuration) (check : Z -> option bool) : gset Z :=
  filter (fun v => check v = Some true) (Majority.voters c).
Definition missing (c : Majority.Configuration) (check : Z -> option bool) : gset Z :=
  filter (fun v => check v = None) (Majority.voters c).

Lemma count_votes_spec (check : Z -> option bool) (l : list Z) y m :
  fold_left (fun '(yes, missing) v =>
    match check v with
    | Some true => (yes + 1, missing)
    | None => (yes, missing + 1)
    | Some false => (yes, missing)
    end) l (y, m)
  = (y + len (filter (fun v => check v = Some true) l), m + len (filter (fun v => check v = None) l)).
Proof.
  revert y m. induction l as [|v l IH]; intros y m.
  - unfold len. simpl. f_equal; lia.
  - rewrite !filter_cons. simpl. destruct (check v) as [[]|]; rewrite IH; simpl;
      repeat case_decide; try done; rewrite ?len_cons; f_equal; lia.
Qed.

Lemma count_votes_sizes c check :
  Majority.count_votes check (Majority.ids c)
  = (Z.of_nat (size (granted c check)), Z.of_nat (size (missing c check))).
Proof.
  unfold Majority.count_votes. rewrite count_votes_spec. unfold len, Majority.ids.
  by rewrite !filter_set_iter_length.
Qed.

(** The three outcomes in terms of the sizes of the sets of voters. *)
Lemma vote_result_cases c check :
  let q := majority (Majority.voter_count c) in
  let yes := Z.of_nat (size (granted c check)) in
  let mis := Z.of_nat (size (missing c check)) in
  match Majority.vote_result c check with
  | Won => Majority.voters c = ∅ \/ q <= yes
  | Pending => Majority.voters c <> ∅ /\ yes < q <= yes + mis
  | Lost => Majority.voters c <> ∅ /\ yes + mis < q
  end.
Proof.
  simpl. unfold Majority.vote_result, Majority.is_empty. case_bool_decide; [by left|].
  rewrite count_votes_sizes.
  destruct (Z.leb_spec (majority (Majority.voter_count c)) (Z.of_nat (size (granted c check)))); [by right|].
  destruct (Z.leb_spec (majority (Majority.voter_count c))
    (Z.of_nat (size (granted c check)) + Z.of_nat (size (missing c check)))); split; (done || lia).
Qed.

Lemma vote_won c check :
  Majority.vote_result c check = Won <->
  Majority.voters c = ∅ \/ majority (Majority.voter_count c) <= Z.of_nat (size (granted c check)).
Proof.
  pose proof (vote_result_cases c check) as Hc. simpl in Hc.
  destruct (Majority.vote_result c check); [| |tauto];
    (split; [done|]); intros [?|?]; [tauto|lia|tauto|].
  pose proof (Zle_0_nat (size (missing c check))). lia.
Qed.

Lemma vote_lost c check :
  Majority.vote_result c check = Lost <->
  Majority.voters c <> ∅ /\
  Z.of_nat (size (granted c check)) + Z.of_nat (size (missing c check)) < majority (Majority.voter_count c).
Proof.
  pose proof (vote_result_cases c check) as Hc. simpl in Hc.
  destruct (Majority.vote_result c check); [|tauto|]; (split; [done|]); intros [? ?]; [lia|].
  destruct Hc; [done|]. pose proof (Zle_0_nat (size (missing c check))). lia.
Qed.

(** [check'] knows every vote [check] knows. *)
Definition extends (check check' : Z -> option bool) : Prop :=
  forall v b, check v = Some b -> check' v = Some b.

Lemma granted_mono c check check' :
  extends check check' -> granted c check ⊆ granted c check'.
Proof. intros He v. unfold granted. rewrite !elem_of_filter. naive_solver. Qed.

Lemma possible_antimono c check check' :
  extends check check' ->
  granted c check' ∪ missing c check' ⊆ granted c check ∪ missing c check.
Proof.
  intros He v. unfold granted, missing. rewrite !elem_of_union, !elem_of_filter.
  destruct (check v) as [[]|] eqn:E; [tauto| |tauto].
  apply He in E. rewrite E. naive_solver.
Qed.

Lemma granted_missing_size c check :
  (size (granted c check ∪ missing c check) = size (granted c check) + size (missing c check))%nat.
Proof.
  apply size_union. intros v. unfold granted, missing. rewrite !elem_of_filter. intros [-> _]. naive_solver.
Qed.

(** Two sets of voters, each at least a majority of its own configuration, meet
    when the configurations differ by at most one voter. *)
Lemma majorities_meet (V V' A B : gset Z) :
  A ⊆ V -> B ⊆ V' -> (size (V ∖ V') + size (V' ∖ V) <= 1)%nat ->
  majority (Z.of_nat (size V)) <= Z.of_nat (size A) ->
  majority (Z.of_nat (size V')) <= Z.of_nat (size B) ->
  exists v, v ∈ A ∩ B.
Proof.
  intros HA HB Hdiff Hqa Hqb. apply set_choose_L. intros Hempty.
  assert (size (A ∪ B) = size A + size B)%nat as Hunion by (apply size_union; set_solver).
  assert (size (A ∪ B) <= size (V ∪ V'))%nat as Hle by (apply subseteq_size; set_solver).
  rewrite (size_union_alt V V') in Hle.
  assert (size (V ∪ V') = size V' + size (V ∖ V'))%nat as Hsym.
  { rewrite (union_comm_L V V'). apply size_union_alt. }
  rewrite (size_union_alt V V') in Hsym.
  unfold majority in *.
  pose proof (Z.div_mod (Z.of_nat (size V)) 2 ltac:(lia)).
  pose proof (Z.div_mod (Z.of_nat (size V')) 2 ltac:(lia)).
  pose proof (Z.mod_pos_bound (Z.of_nat (size V)) 2 ltac:(lia)).
  pose proof (Z.mod_pos_bound (Z.of_nat (size V')) 2 ltac:(lia)).
  lia.
Qed.

Lemma granted_subset c check : granted c check ⊆ Majority.voters c.
Proof. intros v. unfold granted. rewrite elem_of_filter. tauto. Qed.

(** Winners of neighbouring configurations share a voter that granted both. *)
Lemma won_meet c c' check check' :
  Majority.voters c <> ∅ -> Majority.voters c' <> ∅ ->
  (size (Majority.voters c ∖ Majority.voters c') + size (Majority.voters c' ∖ Majority.voters c) <= 1)%nat ->
  Majority.vote_result c check = Won -> Majority.vote_result c' check' = Won ->
  exists v, v ∈ Majority.voters c ∩ Majority.voters c' /\ check v = Some true /\ check' v = Some true.
Proof.
  intros Hne Hne' Hd Hw%vote_won Hw'%vote_won.
  destruct Hw as [?|Hw]; [done|]. destruct Hw' as [?|Hw']; [done|].
  destruct (majorities_meet _ _ _ _ (granted_subset c check) (granted_subset c' check') Hd Hw Hw') as [v Hv].
  apply elem_of_intersection in Hv as [Hv Hv'].
  apply elem_of_filter in Hv as [? ?]. apply elem_of_filter in Hv' as [? ?].
  exists v. set_solver.
Qed.

Lemma joint_won c check :
  Joint.vote_result c check = Won <->
  Majority.vote_result (Joint.incoming c) check = Won /\
  Majority.vote_result (Joint.outgoing c) check = Won.
Proof.
  unfold Joint.vote_result.
  destruct (Majority.vote_result (Joint.incoming c) check),
    (Majority.vote_result (Joint.outgoing c) check); naive_solver.
Qed.

(** Two winning votes share a voter of the incoming and one of the outgoing half. *)
Lemma halves_meet c check check' : Joint.vote_result c check = Won -> Joint.vote_result c check' = Won ->
  forall half, half = Joint.incoming c \/ half = Joint.outgoing c -> Majority.voters half <> ∅ ->
  exists v, v ∈ Majority.voters half /\ check v = Some true /\ check' v = Some true.
Proof.
  intros [Hi Ho]%joint_won [Hi' Ho']%joint_won half Hhalf Hne.
  assert (Majority.vote_result half check = Won /\ Majority.vote_result half check' = Won) as [Hw Hw']
    by (by destruct Hhalf as [-> | ->]).
  destruct (won_meet half half check check') as (v & ? & ?); [done|done| |done|done|exists v; set_solver].
  rewrite difference_diag_L, size_empty. lia.
Qed.

Lemma joint_lost c check :
  Joint.vote_result c check = Lost <->
  Majority.vote_result (Joint.incoming c) check = Lost \/
  Majority.vote_result (Joint.outgoing c) check = Lost.
Proof.
  unfold Joint.vote_result.
  destruct (Majority.vote_result (Joint.incoming c) check),
    (Majority.vote_result (Joint.outgoing c) check); naive_solver.
Qed.

Lemma won_stable c check check' :
  extends check check' -> Majority.vote_result c check = Won -> Majority.vote_result c check' = Won.
Proof.
  intros He. rewrite !vote_won. intros [?|?]; [by left|right].
  pose proof (subseteq_size _ _ (granted_mono c _ _ He)). lia.
Qed.

Lemma lost_stable c check check' :
  extends check check' -> Majority.vote_result c check = Lost -> Majority.vote_result c check' = Lost.
Proof.
  intros He. rewrite !vote_lost. intros [? ?]. split; [done|].
  pose proof (subseteq_size _ _ (possible_antimono c _ _ He)) as Hs.
  rewrite !granted_missing_size in Hs. lia.
Qed.

End votes.

(** ** Properties *)
Section properties.
Context `{HashOrder}.

Lemma majority_commit_value c l :
  Majority.voters c <> ∅ ->
  exists i, Majority.committed_index c false l = Ret (i, false) /\
    forall j, j <= i <-> majority (Majority.voter_count c) <= Z.of_nat (size (reached c l j)).
Proof.
  intros Hne. destruct (quorum_position c l Hne) as [m Hm].
  exists (Index.index m). split; [|by apply quorum_position_spec].
  unfold Majority.committed_index, Majority.is_empty. rewrite bool_decide_eq_false_2 by done.
  cbv zeta. by rewrite Hm.
Qed.

(** What the group commit computes. *)
Definition group_commit_result (c : Majority.Configuration) (l : AckedIndexer) (i : Z) (gc : bool) : Prop :=
  if gc then
    forall j, j <= i <->
      majority (Majority.voter_count c) <= Z.of_nat (size (reached c l j)) /\ reached_two_groups c l j
  else
    (forall j, ~ reached_two_groups c l j) /\
    ((forall v, v ∈ Majority.voters c -> Index.group_id (Majority.acked l v) <> 0) /\
     (forall j, j <= i <-> majority (Majority.voter_count c) <= Z.of_nat (size (reached c l j)))
     \/ (exists v, v ∈ Majority.voters c /\ Index.group_id (Majority.acked l v) = 0) /\
        (forall v, v ∈ Majority.voters c -> i <= Index.index (Majority.acked l v)) /\
        (exists v, v ∈ Majority.voters c /\ i = Index.index (Majority.acked l v))).

Lemma group_commit_value c l :
  Majority.voters c <> ∅ ->
  exists i gc, Majority.committed_index c true l = Ret (i, gc) /\ group_commit_result c l i gc.
Proof.
  intros Hne. destruct (quorum_position c l Hne) as [m Hm].
  pose proof (quorum_position_spec c l m Hm) as Hq.
  unfold Majority.committed_index, Majority.is_empty. rewrite bool_decide_eq_false_2 by done.
  cbv zeta. rewrite Hm. simpl.
  pose proof (scan_groups_spec (Index.index m) (Majority.matched c l) (Majority.matched c l) []
    (Index.group_id m) true (matched_sorted c l) eq_refl) as Hscan.
  destruct (Majority.scan_groups _ _ _ _) as [r|s].
  - exists r, true. split; [done|]. intros j. rewrite <-Hq, <-two_groups_matched. apply Hscan.
    + intros e He%elem_of_nil. done.
    + right. exists m. split; [|split; [done|left; lia]].
      unfold index in Hm. case_match; [done|]. by eapply list_elem_of_lookup_2.
    + by rewrite bool_decide_eq_true_2.
  - destruct Hscan as [Hnone ->].
    + intros e He%elem_of_nil. done.
    + right. exists m. split; [|split; [done|left; lia]].
      unfold index in Hm. case_match; [done|]. by eapply list_elem_of_lookup_2.
    + by rewrite bool_decide_eq_true_2.
    + assert (forall j, ~ reached_two_groups c l j) as Hnone'
        by (intros j; rewrite <-two_groups_matched; apply Hnone).
      case_bool_decide as Hall.
      * exists (Index.index m), false. split; [done|]. split; [done|]. left. split; [|done].
        by apply matched_groups.
      * destruct (matched_last c l Hne) as (z & -> & Hmin & (v & Hv & ->)).
        exists (Index.index (Majority.acked l v)), false. split; [done|]. split; [done|]. right.
        split; [|by eauto]. apply not_Forall_Exists in Hall; [|apply _].
        apply Exists_exists in Hall as (e & (w & ? & ->)%elem_of_matched & Hw).
        exists w. split; [done|]. by apply dec_stable in Hw.
Qed.

(** C21 — Majority commit index: for a configuration with voters, [committed_index]
    without group commit returns (never panics) the greatest position that a
    majority of the voters has acknowledged. *)
Theorem majority_committed_index_correct (c : Majority.Configuration) (l : AckedIndexer)
    (Hne : Majority.voters c <> ∅) :
  exists i, Majority.committed_index c false l = Ret (i, false) /\
    forall j, j <= i <-> majority (Majority.voter_count c) <= Z.of_nat (size (reached c l j)).
Proof. by apply majority_commit_value. Qed.

(** Group commit: with group commit enabled the flag says whether voters of two
    different groups exist; if so the index is the greatest one acknowledged by a
    majority and by two groups, otherwise it is the majority index when every
    voter has a group and the least acknowledged position when some has none. *)
Theorem group_committed_index_correct (c : Majority.Configuration) (l : AckedIndexer)
    (Hne : Majority.voters c <> ∅) :
  exists i gc, Majority.committed_index c true l = Ret (i, gc) /\ group_commit_result c l i gc.
Proof. by apply group_commit_value. Qed.

(** C20 — Joint quorums intersect: two winning votes of one joint configuration share a
    voter of the incoming majority and a voter of the outgoing majority that
    granted both. *)
Theorem joint_quorums_intersect (c : Joint.Configuration) (check check' : Z -> option bool)
    (Hin : Majority.voters (Joint.incoming c) <> ∅)
    (Hw : Joint.vote_result c check = Won) (Hw' : Joint.vote_result c check' = Won) :
  (exists v, v ∈ Majority.voters (Joint.incoming c) /\ check v = Some true /\ check' v = Some true) /\
  (Majority.voters (Joint.outgoing c) <> ∅ ->
   exists v, v ∈ Majority.voters (Joint.outgoing c) /\ check v = Some true /\ check' v = Some true).
Proof.
  split; [|intros Hout]; eapply halves_meet; eauto.
Qed.

(** Answers every open vote with [b]. *)
Definition settle (check : Z -> option bool) (b : bool) : Z -> option bool :=
  fun v => match check v with Some x => Some x | None => Some b end.

Lemma settle_extends check b : extends check (settle check b).
Proof. intros v x E. unfold settle. by rewrite E. Qed.

Lemma settle_yes c check :
  Majority.vote_result c check <> Lost -> Majority.vote_result c (settle check true) = Won.
Proof.
  intros Hn. rewrite vote_lost in Hn. apply vote_won.
  destruct (decide (Majority.voters c = ∅)) as [|Hne]; [by left|right].
  assert (granted c (settle check true) = granted c check ∪ missing c check) as ->.
  { apply set_eq. intros v. unfold granted, missing, settle.
    rewrite elem_of_union, !elem_of_filter. destruct (check v) as [[]|]; naive_solver. }
  rewrite granted_missing_size. apply Z.nlt_ge. intros Hlt. apply Hn. split; [done|lia].
Qed.

Lemma settle_no c check :
  Majority.vote_result c check <> Won -> Majority.vote_result c (settle check false) = Lost.
Proof.
  intros Hn. rewrite vote_won in Hn. apply vote_lost. split; [tauto|].
  assert (granted c (settle check false) = granted c check) as ->.
  { apply set_eq. intros v. unfold granted, settle. rewrite !elem_of_filter.
    destruct (check v) as [[]|]; naive_solver. }
  assert (missing c (settle check false) = ∅) as ->.
  { apply set_eq. intros v. unfold missing, settle. rewrite elem_of_filter.
    destruct (check v); set_solver. }
  rewrite size_empty. apply Z.nle_gt. intros Hle. apply Hn. right. lia.
Qed.

(** The verdict of a joint vote is final exactly when it is decided: a vote that is
    won or lost keeps its result whatever votes arrive later, and a pending one
    can still be won and can still be lost. *)
Theorem vote_result_final (c : Joint.Configuration) (check : Z -> option bool) :
  match Joint.vote_result c check with
  | Pending =>
      (exists check', extends check check' /\ Joint.vote_result c check' = Won) /\
      (exists check', extends check check' /\ Joint.vote_result c check' = Lost)
  | r => forall check', extends check check' -> Joint.vote_result c check' = r
  end.
Proof.
  destruct (Joint.vote_result c check) eqn:E.
  - split.
    + exists (settle check true). split; [apply settle_extends|]. apply joint_won.
      assert (~ (Joint.vote_result c check = Lost)) as Hn by congruence.
      rewrite joint_lost in Hn. split; apply settle_yes; tauto.
    + exists (settle check false). split; [apply settle_extends|]. apply joint_lost.
      assert (~ (Joint.vote_result c check = Won)) as Hn by congruence.
      rewrite joint_won in Hn.
      destruct (decide (Majority.vote_result (Joint.incoming c) check = Won));
        [right|left]; apply settle_no; tauto.
  - intros check' He. rewrite joint_lost in E |- *. destruct E as [E|E]; [left|right]; by eapply lost_stable.
  - intros check' He. rewrite joint_won in E |- *. destruct E as [E1 E2]. split; by eapply won_stable.
Qed.
End properties.

Lemma majority_order_independent (o1 o2 : HashOrder) (c : Majority.Configuration) gc l :
  @Majority.committed_index o1 c gc l = @Majority.committed_index o2 c gc l.
Proof.
  destruct (decide (Majority.voters c = ∅)) as [He|Hne].
  { unfold Majority.committed_index, Majority.is_empty. by rewrite He. }
  assert (forall i i', (forall j : Z, j <= i <-> j <= i') -> i = i') as Hext.
  { intros i i' Hj. pose proof (proj1 (Hj i)). pose proof (proj2 (Hj i')). lia. }
  destruct gc.
  - destruct (@group_commit_value o1 c l Hne) as (i1 & g1 & -> & H1).
    destruct (@group_commit_value o2 c l Hne) as (i2 & g2 & -> & H2).
    destruct g1, g2; simpl in H1, H2.
    + do 2 f_equal. apply Hext. intros j. by rewrite H1, H2.
    + destruct H2 as [Hn _]. exfalso. apply (Hn i1), H1. lia.
    + destruct H1 as [Hn _]. exfalso. apply (Hn i2), H2. lia.
    + enough (i1 = i2) as -> by done.
      destruct H1 as [_ [[Ha H1]|(Ha & Hb & (v1 & Hv1 & ->))]],
        H2 as [_ [[Ha' H2]|(Ha' & Hb' & (v2 & Hv2 & ->))]].
      * apply Hext. intros j. by rewrite H1, H2.
      * destruct Ha' as (v & Hv & E). by destruct (Ha v Hv).
      * destruct Ha as (v & Hv & E). by destruct (Ha' v Hv).
      * pose proof (Hb v2 Hv2). pose proof (Hb' v1 Hv1). lia.
  - destruct (@majority_commit_value o1 c l Hne) as (i1 & -> & H1).
    destruct (@majority_commit_value o2 c l Hne) as (i2 & -> & H2).
    do 2 f_equal. apply Hext. intros j. by rewrite H1, H2.
Qed.

(** The iteration order of the hash sets does not matter: for any two orders a
    joint configuration's [committed_index] is the same, group commit included. *)
Theorem committed_index_order_independent (o1 o2 : HashOrder) (c : Joint.Configuration)
    (gc : bool) (l : AckedIndexer) :
  @Joint.committed_index o1 c gc l = @Joint.committed_index o2 c gc l.
Proof.
  unfold Joint.committed_index.
  by rewrite !(majority_order_independent o1 o2).
Qed.

(** ** Witnesses *)
Section witnesses.
Local Instance order : HashOrder := sorted_order.

Definition five : Majority.Configuration := Majority.new {[1; 2; 3; 4; 5]}.
Definition acks : AckedIndexer := fun v =>
  if v =? 1 then Some (Index.mk 2 1) else if v =? 2 then Some (Index.mk 2 1)
  else if v =? 3 then Some (Index.mk 2 2) else if v =? 4 then Some (Index.mk 4 1)
  else if v =? 5 then Some (Index.mk 5 1) else None.

Lemma majority_committed_index_correct_witness :
  Majority.committed_index five false acks = Ret (2, false) /\
  exists i, Majority.committed_index five false acks = Ret (i, false) /\
    forall j, j <= i <-> majority (Majority.voter_count five) <= Z.of_nat (size (reached five acks j)).
Proof.
  split; [vm_compute; reflexivity|].
  apply (majority_committed_index_correct five acks).
  apply (bool_decide_unpack _). vm_compute. exact I.
Defined.

Lemma group_committed_index_correct_witness :
  Majority.committed_index five true acks = Ret (2, true) /\
  exists i gc, Majority.committed_index five true acks = Ret (i, gc) /\
    group_commit_result five acks i gc.
Proof.
  split; [vm_compute; reflexivity|].
  apply (group_committed_index_correct five acks).
  apply (bool_decide_unpack _). vm_compute. exact I.
Defined.

Definition joint_five : Joint.Configuration := Joint.mk five (Majority.new {[4; 5; 6]}).

Lemma joint_quorums_intersect_witness :
  exists v, v ∈ Majority.voters (Joint.incoming joint_five) /\
    (fun v => Some (v <=? 5)) v = Some true /\ (fun v => Some (3 <=? v)) v = Some true.
Proof.
  apply (joint_quorums_intersect joint_five (fun v => Some (v <=? 5)) (fun v => Some (3 <=? v))).
  - apply (bool_decide_unpack _). vm_compute. exact I.
  - vm_compute. reflexivity.
  - vm_compute. reflexivity.
Defined.
End witnesses.
