(* ===== verification/Inflights.v ===== *)
(** * The window of in-flight messages ([tracker/inflights.rs])

    A ring buffer of the last indexes sent to a follower, whose capacity can be
    changed while messages are in flight, and its refinement of a bounded queue.

    Of the vector only its elements and whether it has an allocation are kept
    ([buffer.capacity() > 0]); allocation does not fail.  Positions are bounded by
    the length of a vector, so sums of two of them do not wrap. *)

From S2P Require Import Prelude.

Module Inflights.

Record t := mk {
  start : Z;
  count : Z;
  buffer : list Z;
  allocated : bool;
  cap : Z;
  incoming_cap : option Z
}.
#[global] Instance eta_t : Eta t := fun r =>
  mk (start r) (count r) (buffer r) (allocated r) (cap r) (incoming_cap r).
#[global] Instance set_start : Setter start := ltac:(derive_setter).
#[global] Instance set_count : Setter count := ltac:(derive_setter).
#[global] Instance set_buffer : Setter buffer := ltac:(derive_setter).
#[global] Instance set_allocated : Setter allocated := ltac:(derive_setter).
#[global] Instance set_field_cap : Setter cap := ltac:(derive_setter).
#[global] Instance set_incoming_cap : Setter incoming_cap := ltac:(derive_setter).
#[global] Instance eq_dec : EqDecision t.
Proof. solve_decision. Defined.

(** [Vec::with_capacity(n)] allocates when [n > 0]. *)
Definition with_capacity (n : Z) (self : t) : t :=
  self <| buffer := [] |> <| allocated := 0 <? n |>.

(** [&v[lo..]] and [&v[..hi]] *)
Definition slice_from (v : list Z) (lo : Z) : option (list Z) :=
  if (lo <? 0) || (len v <? lo) then None else Some (drop (Z.to_nat lo) v).
Definition slice_to (v : list Z) (hi : Z) : option (list Z) :=
  if (hi <? 0) || (len v <? hi) then None else Some (take (Z.to_nat hi) v).

Definition new (cap : Z) : t := mk 0 0 [] (0 <? cap) cap None.

Definition set_cap (incoming : Z) : Prog t unit :=
  self ← get;
  match cap self ?= incoming with
  | Eq => modify (fun s => s <| incoming_cap := None |>)
  | Lt =>
      (if start self + count self <=? cap self then mret tt
       else
         assert (cap self =? len (buffer self));;
         tail ← unwrap (slice_from (buffer self) (start self));
         front ← unwrap (slice_to (buffer self) (count self - (cap self - start self)));
         modify (fun s => (with_capacity incoming s) <| buffer := tail ++ front |> <| start := 0 |>));;
      modify (fun s => s <| cap := incoming |> <| incoming_cap := None |>)
  | Gt =>
      if count self =? 0 then
        modify (fun s => s <| cap := incoming |> <| incoming_cap := None |> <| start := 0 |>);;
        when (allocated self) (modify (with_capacity incoming))
      else modify (fun s => s <| incoming_cap := Some incoming |>)
  end.

Definition full (self : t) : bool :=
  (count self =? cap self)
  || match incoming_cap self with Some cap => cap <=? count self | None => false end.

(** The second half of [add]: writes at the next free position. *)
Definition add_next (inflight : Z) : Prog t unit :=
  self ← get;
  let next := start self + count self in
  let next := if cap self <=? next then next - cap self else next in
  assert (next <=? len (buffer self));;
  (if next =? len (buffer self) then
     modify (fun s => s <| buffer := buffer s ++ [inflight] |> <| allocated := true |>)
   else modify (fun s => s <| buffer := <[Z.to_nat next := inflight]> (buffer s) |>));;
  modify (fun s => s <| count := count s + 1 |>).

Definition add (inflight : Z) : Prog t unit :=
  self ← get;
  if full self then panic
  else
    when (negb (allocated self)) (
      assert (count self =? 0);;
      assert (start self =? 0);;
      assert (bool_decide (incoming_cap self = None));;
      modify (with_capacity (cap self)));;
    add_next inflight.

(** The scan of [free_to]: how many entries to free and where the next one is. *)
Fixpoint free_scan (fuel : nat) (self : t) (to i idx : Z) : outcome (Z * Z) :=
  if i <? count self then
    match fuel with
    | O => OutOfFuel
    | S fuel =>
        match index (buffer self) idx with
        | None => Panic
        | Some b =>
            if to <? b then Ret (i, idx)
            else
              let idx := idx + 1 in
              let idx := if cap self <=? idx then idx - cap self else idx in
              free_scan fuel self to (i + 1) idx
        end
    end
  else Ret (i, idx).

Definition free_to (to : Z) : Prog t unit :=
  self ← get;
  if count self =? 0 then mret tt
  else
    first ← unwrap (index (buffer self) (start self));
    if to <? first then mret tt
    else
      '(i, idx) ← lift (free_scan (Z.to_nat (count self)) self to 0 (start self));
      modify (fun s => s <| count := count s - i |> <| start := idx |>);;
      self ← get;
      when (count self =? 0)
        match incoming_cap self with
        | None => mret tt
        | Some c =>
            modify (fun s => with_capacity c (s <| incoming_cap := None |> <| start := 0 |> <| cap := c |>))
        end.

Definition free_first_one : Prog t unit :=
  self ← get;
  when (0 <? count self) (
    first ← unwrap (index (buffer self) (start self));
    free_to first).

Definition reset (self : t) : t :=
  self <| count := 0 |> <| start := 0 |> <| buffer := [] |> <| allocated := false |>
       <| cap := default (cap self) (incoming_cap self) |> <| incoming_cap := None |>.

Definition buffer_is_allocated (self : t) : bool := allocated self.

Definition maybe_free_buffer (self : t) : t :=
  if count self =? 0 then self <| start := 0 |> <| buffer := [] |> <| allocated := false |>
  else self.

End Inflights.

(** ** The abstract window: a bounded queue *)
Module Window.
Record t := mk { items : list Z; cap : Z; pending_cap : option Z }.

Definition empty (cap : Z) : t := mk [] cap None.
Definition full (w : t) : bool :=
  (len (items w) =? cap w) || match pending_cap w with Some c => c <=? len (items w) | None => false end.
Definition add (x : Z) (w : t) : t := mk (items w ++ [x]) (cap w) (pending_cap w).
(** A pending smaller capacity takes effect once the window is empty. *)
Definition settle (w : t) : t :=
  match items w, pending_cap w with [], Some c => mk [] c None | _, _ => w end.
Fixpoint drop_upto (to : Z) (l : list Z) : list Z :=
  match l with
  | [] => []
  | x :: l' => if to <? x then l else drop_upto to l'
  end.
Definition free_to (to : Z) (w : t) : t :=
  settle (mk (drop_upto to (items w)) (cap w) (pending_cap w)).
Definition free_first_one (w : t) : t :=
  match items w with [] => w | x :: _ => free_to x w end.
Definition reset (w : t) : t := mk [] (default (cap w) (pending_cap w)) None.
Definition set_cap (c : Z) (w : t) : t :=
  match items w with
  | [] => mk [] c None
  | _ => if c <? cap w then mk (items w) (cap w) (Some c) else mk (items w) c None
  end.
End Window.

(** ** Representation *)
Section refinement.
Import Inflights.

(** The physical position of the [k]-th element of the window. *)
Definition pos (s : Inflights.t) (k : Z) : Z :=
  if cap s <=? start s + k then start s + k - cap s else start s + k.

Record wf (s : Inflights.t) : Prop := {
  wf_start : 0 <= start s;
  wf_count : 0 <= count s <= cap s;
  wf_len : len (buffer s) <= cap s;
  wf_line : start s + count s <= cap s -> start s + count s <= len (buffer s);
  wf_wrap : cap s < start s + count s -> len (buffer s) = cap s;
  wf_start_cap : start s < cap s \/ start s = 0;
  wf_alloc : allocated s = false -> buffer s = [];
  wf_incoming : forall c, incoming_cap s = Some c -> 0 <= c < cap s /\ 0 < count s
}.

Record repr (s : Inflights.t) (w : Window.t) : Prop := {
  repr_wf : wf s;
  repr_cap : Window.cap w = cap s;
  repr_pending : Window.pending_cap w = incoming_cap s;
  repr_len : len (Window.items w) = count s;
  repr_items : forall k, 0 <= k < count s ->
    Window.items w !! Z.to_nat k = buffer s !! Z.to_nat (pos s k)
}.

Ltac pos_lia :=
  unfold pos in *; simpl in *; unfold len in *; repeat case_match;
  repeat match goal with
  | H : (_ <=? _) = true |- _ => apply Z.leb_le in H
  | H : (_ <=? _) = false |- _ => apply Z.leb_gt in H
  end; lia.

Lemma pos_range s k : wf s -> 0 <= k < count s -> 0 <= pos s k < len (buffer s).
Proof. intros [] Hk. pos_lia. Qed.

(** Two windows that show the same physical cells at the same logical places. *)
Lemma repr_lookup s w k x :
  repr s w -> 0 <= k < count s -> Window.items w !! Z.to_nat k = Some x ->
  index (buffer s) (pos s k) = Some x.
Proof.
  intros Hr Hk Hx. pose proof (pos_range s k (repr_wf _ _ Hr) Hk).
  rewrite (repr_items _ _ Hr k Hk) in Hx. unfold index.
  destruct (Z.ltb_spec (pos s k) 0); [lia|done].
Qed.

Lemma window_item s w k :
  repr s w -> 0 <= k < count s -> exists x, Window.items w !! Z.to_nat k = Some x.
Proof.
  intros Hr Hk. apply lookup_lt_is_Some. pose proof (repr_len _ _ Hr). unfold len in *. lia.
Qed.

Lemma items_nil_iff s w : repr s w -> Window.items w = [] <-> count s = 0.
Proof.
  intros Hr. rewrite <-(repr_len _ _ Hr). split; [by intros ->|apply len_zero_nil].
Qed.

Lemma full_repr s w : repr s w -> full s = Window.full w.
Proof.
  intros Hr. unfold full, Window.full.
  by rewrite (repr_len _ _ Hr), (repr_cap _ _ Hr), (repr_pending _ _ Hr).
Qed.

(** ** [add] *)
Lemma add_next_repr s w x :
  repr s w -> count s < cap s -> (forall c, incoming_cap s = Some c -> count s < c) ->
  exists s', add_next x s = Ret (tt, s') /\ repr s' (Window.add x w).
Proof.
  intros Hr Hc Hinc. pose proof (repr_wf _ _ Hr) as Hwf.
  assert (0 <= pos s (count s) <= len (buffer s)) as Hnext by (destruct Hwf; pos_lia).
  unfold add_next. prog_unfold. fold (pos s (count s)).
  rewrite (proj2 (Z.leb_le _ _)) by lia.
  destruct (Z.eqb_spec (pos s (count s)) (len (buffer s))) as [E|E]; eexists; (split; [reflexivity|]).
  - split; simpl.
    + destruct Hwf. split; simpl; rewrite ?len_app, ?len_cons, ?len_nil; try (pos_lia || done).
      intros c Hi. specialize (wf_incoming0 c Hi). lia.
    + apply Hr.
    + apply Hr.
    + rewrite len_app, len_cons, len_nil, (repr_len _ _ Hr). lia.
    + intros k Hk. pose proof (repr_len _ _ Hr) as Hlen. unfold len in Hlen, E.
      destruct (decide (k = count s)) as [->|Hne].
      * rewrite !lookup_app_r by pos_lia.
        replace (Z.to_nat (count s) - length (Window.items w))%nat with 0%nat by lia.
        by replace (Z.to_nat _ - length (buffer s))%nat with 0%nat by pos_lia.
      * pose proof (pos_range s k Hwf ltac:(lia)) as Hp. unfold len in Hp.
        rewrite !lookup_app_l by pos_lia. rewrite (repr_items _ _ Hr) by lia. done.
  - split; simpl.
    + destruct Hwf. split; simpl; unfold len; rewrite ?length_insert; try (pos_lia || done).
      * intros Ha. by rewrite (wf_alloc0 Ha).
      * intros c Hi. specialize (wf_incoming0 c Hi). lia.
    + apply Hr.
    + apply Hr.
    + rewrite len_app, len_cons, len_nil, (repr_len _ _ Hr). lia.
    + intros k Hk. pose proof (repr_len _ _ Hr) as Hlen. unfold len in Hlen, E, Hnext.
      destruct (decide (k = count s)) as [->|Hne].
      * rewrite lookup_app_r by lia.
        replace (Z.to_nat (count s) - length (Window.items w))%nat with 0%nat by lia.
        symmetry. apply list_lookup_insert_eq. pos_lia.
      * pose proof (pos_range s k Hwf ltac:(lia)) as Hp. unfold len in Hp.
        rewrite lookup_app_l by lia. rewrite (repr_items _ _ Hr) by lia. symmetry.
        apply list_lookup_insert_ne. destruct Hwf. pos_lia.
Qed.

Lemma add_repr s w x :
  repr s w -> full s = false ->
  exists s', add x s = Ret (tt, s') /\ repr s' (Window.add x w).
Proof.
  intros Hr Hfull. pose proof (repr_wf _ _ Hr) as Hwf. pose proof Hfull as Hf.
  unfold full in Hf. apply orb_false_iff in Hf as [Hcap%Z.eqb_neq Hinc].
  assert (count s < cap s) as Hlt by (destruct Hwf; lia).
  assert (forall c, incoming_cap s = Some c -> count s < c) as Hinc'.
  { intros c Hc. rewrite Hc in Hinc. apply Z.leb_gt in Hinc. lia. }
  unfold add. prog_unfold. rewrite Hfull.
  destruct (allocated s) eqn:Ha; simpl.
  - by apply add_next_repr.
  - pose proof (wf_alloc _ Hwf Ha) as Hb.
    assert (count s = 0 /\ start s = 0) as [Hc0 Hs0].
    { destruct Hwf. rewrite Hb, len_nil in *. lia. }
    assert (incoming_cap s = None) as Hi.
    { destruct (incoming_cap s) as [c|] eqn:Ei; [|done].
      pose proof (wf_incoming _ Hwf c Ei). lia. }
    rewrite Hc0, Hs0, Hi. simpl.
    apply (add_next_repr (with_capacity (cap s) s)); [|done|done].
    assert (with_capacity (cap s) s = s <| allocated := 0 <? cap s |>) as ->.
    { unfold with_capacity. destruct s; simpl in *. by subst. }
    destruct Hr, Hwf; split; [split|..]; simpl; done.
Qed.

(** ** [free_to] *)
Lemma free_scan_spec s w to fuel i :
  repr s w -> 0 <= i <= count s -> count s - i <= Z.of_nat fuel ->
  exists n, free_scan fuel s to i (pos s i) = Ret (n, pos s n) /\ i <= n <= count s /\
    Window.drop_upto to (drop (Z.to_nat i) (Window.items w)) = drop (Z.to_nat n) (Window.items w).
Proof.
  intros Hr. pose proof (repr_wf _ _ Hr) as Hwf. revert i.
  induction fuel as [|fuel IH]; intros i Hi Hfuel; simpl.
  - assert (i = count s) as -> by lia. rewrite Z.ltb_irrefl. exists (count s).
    split; [done|]. split; [lia|]. pose proof (repr_len _ _ Hr) as Hl. unfold len in Hl.
    by rewrite drop_ge by lia.
  - destruct (Z.ltb_spec i (count s)) as [Hlt|Hge].
    + destruct (window_item s w i Hr ltac:(lia)) as [x Hx].
      rewrite (repr_lookup s w i x Hr ltac:(lia) Hx).
      rewrite (drop_S _ x (Z.to_nat i)) by done. simpl.
      destruct (to <? x).
      * exists i. split; [done|]. split; [lia|]. by rewrite (drop_S _ x (Z.to_nat i)).
      * replace (if cap s <=? pos s i + 1 then pos s i + 1 - cap s else pos s i + 1)
          with (pos s (i + 1)) by (destruct Hwf; pos_lia).
        destruct (IH (i + 1)) as (n & -> & Hn & Hd); [lia|lia|].
        exists n. split; [done|]. split; [lia|]. rewrite <-Hd. do 2 f_equal. lia.
    + assert (i = count s) as -> by lia. exists (count s).
      split; [done|]. split; [lia|]. pose proof (repr_len _ _ Hr) as Hl. unfold len in Hl.
      by rewrite drop_ge by lia.
Qed.

Lemma repr_drop s w n :
  repr s w -> 0 <= n <= count s -> (incoming_cap s = None \/ n < count s) ->
  repr (s <| count := count s - n |> <| start := pos s n |>)
    (Window.mk (drop (Z.to_nat n) (Window.items w)) (Window.cap w) (Window.pending_cap w)).
Proof.
  intros Hr Hn Hinc. pose proof (repr_wf _ _ Hr) as Hwf. split; simpl.
  - destruct Hwf. split; simpl; try (pos_lia || done).
    intros c Hc. destruct Hinc as [?|?]; [congruence|]. specialize (wf_incoming0 c Hc). lia.
  - apply Hr.
  - apply Hr.
  - unfold len. rewrite length_drop. pose proof (repr_len _ _ Hr) as Hl. unfold len in Hl. lia.
  - intros k Hk. rewrite lookup_drop. rewrite <-Z2Nat.inj_add by lia.
    rewrite (repr_items _ _ Hr) by lia. f_equal. destruct Hwf. pos_lia.
Qed.

(** A state with nothing in flight. *)
Lemma repr_empty s w :
  Window.items w = [] -> Window.cap w = cap s -> Window.pending_cap w = None ->
  count s = 0 -> start s = 0 -> buffer s = [] -> incoming_cap s = None -> 0 <= cap s -> repr s w.
Proof.
  intros Hi Hc Hp H1 H2 H3 H4 H5. split; [|done|congruence|..].
  - split; rewrite ?H1, ?H2, ?H3, ?H4, ?len_nil; try (done || lia). 
  - by rewrite Hi, H1.
  - rewrite H1. lia.
Qed.

Lemma free_to_repr s w to :
  repr s w -> exists s', free_to to s = Ret (tt, s') /\ repr s' (Window.free_to to w).
Proof.
  intros Hr. pose proof (repr_wf _ _ Hr) as Hwf. unfold free_to. prog_unfold.
  destruct (Z.eqb_spec (count s) 0) as [Hc0|Hc0].
  { exists s. split; [done|]. apply (items_nil_iff s w Hr) in Hc0 as Hi. unfold Window.free_to.
    destruct w as [l c p]; simpl in *. subst. simpl.
    assert (incoming_cap s = None) as Hn.
    { destruct (incoming_cap s) as [c'|] eqn:Ei; [|done]. pose proof (wf_incoming _ Hwf c' Ei). lia. }
    pose proof (repr_pending _ _ Hr) as Hp. simpl in Hp. rewrite Hp, Hn. unfold Window.settle. simpl.
    rewrite Hp, Hn in Hr. done. }
  assert (0 < count s) as Hpos by (destruct Hwf; lia).
  destruct (window_item s w 0 Hr ltac:(lia)) as [x Hx].
  assert (pos s 0 = start s) as Hp0 by (destruct Hwf; pos_lia).
  pose proof (repr_lookup s w 0 x Hr ltac:(lia) Hx) as Hidx. rewrite Hp0 in Hidx. rewrite Hidx. cbv beta iota.
  destruct w as [l c p]; simpl in Hx. destruct l as [|y l]; [done|]. simpl in Hx.
  injection Hx as ->. destruct (to <? x) eqn:Ex.
  { exists s. split; [done|]. unfold Window.free_to, Window.settle. simpl. rewrite Ex. done. }
  destruct (free_scan_spec s _ to (Z.to_nat (count s)) 0 Hr) as (n & Hscan & Hn & Hd); [lia|lia|].
  rewrite Hp0 in Hscan. rewrite Hscan. cbv beta iota. simpl in Hd. unfold Window.free_to. simpl Window.items.
  rewrite Ex in Hd. simpl. rewrite Ex, Hd.
  destruct (Z.eqb_spec (count s - n) 0) as [E|E].
  - assert (n = count s) as -> by lia. rewrite drop_ge
      by (pose proof (repr_len _ _ Hr) as Hl; unfold len in Hl; simpl in *; lia).
    unfold Window.settle. simpl. pose proof (repr_pending _ _ Hr) as Hp. simpl in Hp. subst p.
    destruct (incoming_cap s) as [c'|] eqn:Ei; simpl; eexists; (split; [reflexivity|]).
    + pose proof (wf_incoming _ Hwf c' Ei). apply repr_empty; simpl; (done || lia).
    + pose proof (repr_drop s _ (count s) Hr ltac:(lia) (or_introl Ei)) as Hr'. simpl in Hr'.
      rewrite drop_ge in Hr' by (pose proof (repr_len _ _ Hr) as Hl; unfold len in Hl; simpl in *; lia).
      exact Hr'.
  - eexists; (split; [reflexivity|]). pose proof (repr_drop s _ n Hr Hn ltac:(lia)) as Hr'.
    simpl in Hr'. unfold Window.settle. simpl.
    destruct (drop (Z.to_nat n) (x :: l)) eqn:Ed; [|done].
    pose proof (repr_len _ _ Hr') as Hl. simpl in Hl. unfold len in Hl. simpl in Hl. lia.
Qed.

(** ** The other operations *)
Lemma new_repr c : 0 <= c -> repr (new c) (Window.empty c).
Proof. intros Hc. by apply repr_empty. Qed.

Lemma reset_repr s w : repr s w -> repr (reset s) (Window.reset w).
Proof.
  intros Hr. pose proof (repr_wf _ _ Hr) as Hwf. apply repr_empty; try done; simpl.
  - by rewrite (repr_cap _ _ Hr), (repr_pending _ _ Hr).
  - destruct (incoming_cap s) as [c|] eqn:E; simpl.
    + pose proof (wf_incoming _ Hwf c E). lia.
    + destruct Hwf. lia.
Qed.

Lemma maybe_free_buffer_repr s w : repr s w -> repr (maybe_free_buffer s) w.
Proof.
  intros Hr. pose proof (repr_wf _ _ Hr) as Hwf. unfold maybe_free_buffer.
  destruct (Z.eqb_spec (count s) 0) as [Hc|]; [|done].
  assert (incoming_cap s = None) as Hn.
  { destruct (incoming_cap s) as [c'|] eqn:Ei; [|done]. pose proof (wf_incoming _ Hwf c' Ei). lia. }
  apply repr_empty; simpl; try done.
  - by apply (items_nil_iff _ _ Hr).
  - apply Hr.
  - by rewrite (repr_pending _ _ Hr).
  - destruct Hwf. lia.
Qed.

Lemma free_first_one_repr s w :
  repr s w -> exists s', free_first_one s = Ret (tt, s') /\ repr s' (Window.free_first_one w).
Proof.
  intros Hr. unfold free_first_one. unfold when. prog_unfold.
  destruct (Z.ltb_spec 0 (count s)) as [Hc|Hc].
  - destruct (window_item s w 0 Hr ltac:(lia)) as [x Hx].
    assert (pos s 0 = start s) as Hp0 by (destruct (repr_wf _ _ Hr); pos_lia).
    pose proof (repr_lookup s w 0 x Hr ltac:(lia) Hx) as Hidx. rewrite Hp0 in Hidx.
    rewrite Hidx. unfold Window.free_first_one.
    destruct (Window.items w) as [|y l] eqn:E; [done|]. simpl in Hx. injection Hx as ->.
    by apply free_to_repr.
  - exists s. split; [done|]. unfold Window.free_first_one.
    assert (count s = 0) as Hc0 by (destruct (repr_wf _ _ Hr); lia).
    by rewrite (proj2 (items_nil_iff s w Hr) Hc0).
Qed.

(** The buffer unrolled to the front shows the window. *)
Lemma unrolled_lookup s w (b := drop (Z.to_nat (start s)) (buffer s)
    ++ take (Z.to_nat (count s - (cap s - start s))) (buffer s)) k :
  repr s w -> cap s < start s + count s -> 0 <= k < count s ->
  Window.items w !! Z.to_nat k = b !! Z.to_nat k.
Proof.
  intros Hr Hw Hk. rewrite (repr_items _ _ Hr k Hk). subst b. destruct (repr_wf _ _ Hr).
  specialize (wf_wrap0 Hw). unfold len in *.
  destruct (Z.le_gt_cases (cap s) (start s + k)) as [Hge|Hlt].
  - rewrite lookup_app_r by (rewrite length_drop; lia). rewrite length_drop, lookup_take_lt by lia.
    f_equal. pos_lia.
  - rewrite lookup_app_l by (rewrite length_drop; lia). rewrite lookup_drop. f_equal. pos_lia.
Qed.

Lemma set_cap_repr s w c :
  repr s w -> 0 <= c ->
  exists s', set_cap c s = Ret (tt, s') /\ repr s' (Window.set_cap c w).
Proof.
  intros Hr Hc. pose proof (repr_wf _ _ Hr) as Hwf. pose proof (items_nil_iff s w Hr) as Hnil.
  unfold set_cap, Window.set_cap. prog_unfold. rewrite (repr_cap _ _ Hr).
  destruct (Z.compare_spec (cap s) c) as [Heq|Hlt|Hgt].
  - eexists; split; [reflexivity|]. rewrite Heq, Z.ltb_irrefl. subst c.
    destruct Hr, Hwf. destruct (Window.items w) as [|x l] eqn:E; split; try split; simpl; rewrite ?E; done.
  - rewrite (proj2 (Z.ltb_ge _ _)) by lia.
    destruct (Z.leb_spec (start s + count s) (cap s)) as [Hline|Hw].
    + eexists; split; [reflexivity|].
      destruct Hr, Hwf. destruct (Window.items w) as [|x l] eqn:E; split; try split; simpl; rewrite ?E;
        try (done || pos_lia).
      * intros k Hk. rewrite repr_items0 by lia. f_equal. pos_lia.
      * intros k Hk. rewrite repr_items0 by lia. f_equal. pos_lia.
    + pose proof (wf_wrap _ Hwf Hw) as Hfull. rewrite Hfull, Z.eqb_refl.
      unfold slice_from, slice_to.
      destruct (Z.ltb_spec (start s) 0); [destruct Hwf; lia|].
      destruct (Z.ltb_spec (len (buffer s)) (start s)); [destruct Hwf; lia|].
      destruct (Z.ltb_spec (count s - (cap s - start s)) 0); [lia|].
      destruct (Z.ltb_spec (len (buffer s)) (count s - (cap s - start s))); [destruct Hwf; lia|].
      eexists; split; [reflexivity|].
      assert (Window.items w <> []) as Hne by (rewrite Hnil; destruct Hwf; lia).
      destruct (Window.items w) as [|x l] eqn:E; [done|]. rewrite <-E.
      pose proof (fun k => unrolled_lookup s w k Hr Hw) as Hun.
      pose proof (repr_len _ _ Hr) as Hl. unfold len in *.
      destruct Hwf; split; [split|..]; simpl; try done.
      all: try (unfold len; rewrite length_app, length_drop, length_take; lia).
      all: try lia.
      intros k Hk. rewrite Hun by lia. f_equal. pos_lia.
  - destruct (Z.eqb_spec (count s) 0) as [Hc0|Hc0].
    + rewrite (proj2 Hnil Hc0).
      assert (allocated s = false -> buffer s = []) as Hb by apply Hwf.
      destruct (allocated s); eexists; (split; [reflexivity|]); apply repr_empty; simpl; auto.
    + eexists; split; [reflexivity|].
      destruct (Window.items w) as [|x l] eqn:E; [by destruct Hc0; apply Hnil|].
      rewrite (proj2 (Z.ltb_lt _ _)) by lia. destruct Hr, Hwf.
      split; [split|..]; simpl; try done.
      * intros c' [= <-]. lia.
      * by rewrite <-E.
      * by rewrite <-E.
Qed.
End refinement.

(** ** Runs of operations *)
Inductive inflights_op :=
  | OpAdd (x : Z) | OpFreeTo (to : Z) | OpFreeFirstOne | OpSetCap (c : Z)
  | OpReset | OpMaybeFreeBuffer.

(** A capacity is a [usize]. *)
Definition op_wf (o : inflights_op) : Prop :=
  match o with OpSetCap c => 0 <= c | _ => True end.

Definition run_op (o : inflights_op) : Prog Inflights.t unit :=
  match o with
  | OpAdd x => Inflights.add x
  | OpFreeTo to => Inflights.free_to to
  | OpFreeFirstOne => Inflights.free_first_one
  | OpSetCap c => Inflights.set_cap c
  | OpReset => modify Inflights.reset
  | OpMaybeFreeBuffer => modify Inflights.maybe_free_buffer
  end.

(** The specification of a run; [None]: an index is added to a full window. *)
Fixpoint window_run (ops : list inflights_op) (w : Window.t) : option Window.t :=
  match ops with
  | [] => Some w
  | OpAdd x :: ops => if Window.full w then None else window_run ops (Window.add x w)
  | OpFreeTo to :: ops => window_run ops (Window.free_to to w)
  | OpFreeFirstOne :: ops => window_run ops (Window.free_first_one w)
  | OpSetCap c :: ops => window_run ops (Window.set_cap c w)
  | OpReset :: ops => window_run ops (Window.reset w)
  | OpMaybeFreeBuffer :: ops => window_run ops w
  end.

Lemma run_ops_repr ops s w :
  Forall op_wf ops -> repr s w ->
  match window_run ops w with
  | Some w' => exists s', for_each run_op ops s = Ret (tt, s') /\ repr s' w'
  | None => for_each run_op ops s = Panic
  end.
Proof.
  intros Hall. revert s w. induction Hall as [|o ops Ho Hall IH]; intros s w Hr; simpl; [by eauto|].
  assert (forall s' w', run_op o s = Ret (tt, s') -> repr s' w' ->
    match window_run ops w' with
    | Some w'' => exists s'', (run_op o;; for_each run_op ops) s = Ret (tt, s'') /\ repr s'' w''
    | None => (run_op o;; for_each run_op ops) s = Panic
    end) as Hstep.
  { intros s' w' Hrun Hr'. specialize (IH s' w' Hr'). rewrite (bind_run _ _ _ _ _ Hrun). done. }
  destruct o as [x|to| |c| |]; simpl in *.
  - destruct (Window.full w) eqn:Hf.
    + rewrite <-(full_repr _ _ Hr) in Hf. unfold Inflights.add. prog_unfold. by rewrite Hf.
    + rewrite <-(full_repr _ _ Hr) in Hf. destruct (add_repr s w x Hr Hf) as (s' & ? & ?). by eapply Hstep.
  - destruct (free_to_repr s w to Hr) as (s' & ? & ?). by eapply Hstep.
  - destruct (free_first_one_repr s w Hr) as (s' & ? & ?). by eapply Hstep.
  - destruct (set_cap_repr s w c Hr Ho) as (s' & ? & ?). by eapply Hstep.
  - eapply Hstep; [done|]. by apply reset_repr.
  - eapply Hstep; [done|]. by apply maybe_free_buffer_repr.
Qed.

(** C30 — The ring buffer refines a bounded queue: any sequence of operations on a new
    [Inflights] runs exactly as on the abstract window.  It panics only where the
    specification does (adding to a full window), never on an index, an overflow
    or one of its assertions, its loop terminates, and [full] and [count] agree. *)
Theorem inflights_refine_window (c : Z) (ops : list inflights_op)
    (Hc : 0 <= c) (Hops : Forall op_wf ops) :
  match window_run ops (Window.empty c) with
  | Some w => exists s, for_each run_op ops (Inflights.new c) = Ret (tt, s) /\
      repr s w /\ Inflights.full s = Window.full w /\ Inflights.count s = len (Window.items w)
  | None => for_each run_op ops (Inflights.new c) = Panic
  end.
Proof.
  pose proof (run_ops_repr ops _ _ Hops (new_repr c Hc)) as Hrun.
  destruct (window_run ops (Window.empty c)) as [w|]; [|done].
  destruct Hrun as (s & ? & Hr). exists s. split; [done|]. split; [done|].
  by rewrite (full_repr _ _ Hr), (repr_len _ _ Hr).
Qed.

(** A run that wraps around, grows while wrapped, and shrinks when drained. *)
Definition sample_ops : list inflights_op :=
  [OpAdd 1; OpAdd 2; OpAdd 3; OpFreeTo 2; OpAdd 4; OpAdd 5; OpSetCap 5; OpAdd 6;
   OpSetCap 2; OpFreeFirstOne; OpFreeTo 9; OpAdd 7].

Lemma inflights_refine_window_witness :
  window_run sample_ops (Window.empty 3) = Some (Window.mk [7] 2 None) /\
  match window_run sample_ops (Window.empty 3) with
  | Some w => exists s, for_each run_op sample_ops (Inflights.new 3) = Ret (tt, s) /\
      repr s w /\ Inflights.full s = Window.full w /\ Inflights.count s = len (Window.items w)
  | None => for_each run_op sample_ops (Inflights.new 3) = Panic
  end.
Proof.
  split; [vm_compute; reflexivity|].
  apply (inflights_refine_window 3 sample_ops); [lia|]. repeat constructor; simpl; lia.
Defined.
