(* ===== verification/Progress.v ===== *)
(** * Replication progress of a peer ([tracker/progress.rs], [tracker/state.rs])

    What a leader knows of one follower: the matched and the next index and the
    probe/replicate/snapshot state machine that controls its flow. *)

From S2P Require Import Prelude Inflights.

Definition INVALID_INDEX : Z := 0.

Inductive ProgressState := Probe | Replicate | Snapshot.
#[global] Instance ProgressState_eq_dec : EqDecision ProgressState.
Proof. solve_decision. Defined.
Definition ProgressState_default : ProgressState := Probe.

(** [struct Progress] and its methods. *)
Module Progress.
Record t : Type := mk {
  matched : Z;
  next_idx : Z;
  state : ProgressState;
  paused : bool;
  pending_snapshot : Z;
  pending_request_snapshot : Z;
  recent_active : bool;
  ins : Inflights.t;
  commit_group_id : Z;
  committed_index : Z
}.
#[global] Instance eta_t : Eta t := fun r =>
  mk (matched r) (next_idx r) (state r) (paused r) (pending_snapshot r) (pending_request_snapshot r) (recent_active r) (ins r) (commit_group_id r) (committed_index r).
#[global] Instance set_matched : Setter matched := ltac:(derive_setter).
#[global] Instance set_next_idx : Setter next_idx := ltac:(derive_setter).
#[global] Instance set_state : Setter state := ltac:(derive_setter).
#[global] Instance set_paused : Setter paused := ltac:(derive_setter).
#[global] Instance set_pending_snapshot : Setter pending_snapshot := ltac:(derive_setter).
#[global] Instance set_pending_request_snapshot : Setter pending_request_snapshot := ltac:(derive_setter).
#[global] Instance set_recent_active : Setter recent_active := ltac:(derive_setter).
#[global] Instance set_ins : Setter ins := ltac:(derive_setter).
#[global] Instance set_commit_group_id : Setter commit_group_id := ltac:(derive_setter).
#[global] Instance set_committed_index : Setter committed_index := ltac:(derive_setter).
#[global] Instance eq_dec : EqDecision t.
Proof. solve_decision. Defined.

Definition new (next_idx ins_size : Z) : t :=
  mk 0 next_idx ProgressState_default false 0 0 false (Inflights.new ins_size) 0 0.

Definition reset_state (st : ProgressState) (self : t) : t :=
  self <| paused := false |> <| pending_snapshot := 0 |> <| state := st |>
       <| ins := Inflights.reset (ins self) |>.

Definition reset (next : Z) (self : t) : t :=
  self <| matched := 0 |> <| next_idx := next |> <| state := ProgressState_default |>
       <| paused := false |> <| pending_snapshot := 0 |>
       <| pending_request_snapshot := INVALID_INDEX |> <| recent_active := false |>
       <| ins := Inflights.reset (ins self) |>.

Definition become_probe (self : t) : t :=
  if bool_decide (state self = Snapshot) then
    let pending := pending_snapshot self in
    let self := reset_state Probe self in
    self <| next_idx := Z.max (matched self +w 1) (pending +w 1) |>
  else
    let self := reset_state Probe self in
    self <| next_idx := matched self +w 1 |>.

Definition become_replicate (self : t) : t :=
  let self := reset_state Replicate self in
  self <| next_idx := matched self +w 1 |>.

Definition become_snapshot (snapshot_idx : Z) (self : t) : t :=
  let self := reset_state Snapshot self in
  self <| pending_snapshot := snapshot_idx |>.

Definition snapshot_failure (self : t) : t := self <| pending_snapshot := 0 |>.

Definition is_snapshot_caught_up (self : t) : bool :=
  bool_decide (state self = Snapshot) && (pending_snapshot self <=? matched self).

Definition resume (self : t) : t := self <| paused := false |>.
Definition pause (self : t) : t := self <| paused := true |>.

Definition maybe_update (n : Z) : Prog t bool :=
  self ← get;
  let need_update := matched self <? n in
  when need_update (
    modify (fun s => s <| matched := n |>);;
    modify resume);;
  when (next_idx self <? n +w 1) (modify (fun s => s <| next_idx := n +w 1 |>));;
  mret need_update.

Definition update_committed (committed : Z) (self : t) : t :=
  if committed_index self <? committed then self <| committed_index := committed |> else self.

Definition optimistic_update (n : Z) (self : t) : t := self <| next_idx := n +w 1 |>.

Definition maybe_decr_to (rejected match_hint request_snapshot : Z) : Prog t bool :=
  self ← get;
  if bool_decide (state self = Replicate) then
    if (rejected <? matched self)
       || ((rejected =? matched self) && (request_snapshot =? INVALID_INDEX)) then mret false
    else
      (if request_snapshot =? INVALID_INDEX then
         modify (fun s => s <| next_idx := matched s +w 1 |>)
       else modify (fun s => s <| pending_request_snapshot := request_snapshot |>));;
      mret true
  else if ((next_idx self =? 0) || negb (next_idx self -w 1 =? rejected))
          && (request_snapshot =? INVALID_INDEX) then mret false
  else
    (if request_snapshot =? INVALID_INDEX then
       modify (fun s => s <| next_idx := Z.min rejected (match_hint +w 1) |>);;
       self ← get;
       when (next_idx self <? 1) (modify (fun s => s <| next_idx := 1 |>))
     else if pending_request_snapshot self =? INVALID_INDEX then
       modify (fun s => s <| pending_request_snapshot := request_snapshot |>)
     else mret tt);;
    modify resume;;
    mret true.

Definition is_paused (self : t) : bool :=
  match state self with
  | Probe => paused self
  | Replicate => Inflights.full (ins self)
  | Snapshot => true
  end.

Definition update_state (last : Z) : Prog t unit :=
  self ← get;
  match state self with
  | Replicate =>
      modify (optimistic_update last);;
      zoom ins (fun i s => s <| ins := i |>) (Inflights.add last)
  | Probe => modify pause
  | Snapshot => panic
  end.

End Progress.

(** ** Functional behaviour *)
Section behaviour.
Import Progress.

Lemma maybe_update_run p n :
  0 <= n < u64_MAX ->
  maybe_update n p = Ret (matched p <? n,
    let p1 := if matched p <? n then resume (p <| matched := n |>) else p in
    if next_idx p <? n + 1 then p1 <| next_idx := n + 1 |> else p1).
Proof.
  intros Hn. unfold maybe_update. prog_unfold. rewrite u64_add_small by u64_lia.
  destruct (matched p <? n); simpl; by destruct (next_idx p <? n + 1).
Qed.

Lemma update_state_runs p last :
  is_paused p = false -> (exists w, repr (ins p) w) -> exists p', update_state last p = Ret (tt, p').
Proof.
  unfold is_paused, update_state. intros Hp [w Hr]. prog_unfold.
  destruct (state p); [eauto| |done].
  destruct (add_repr (ins p) w last Hr Hp) as (i & E & _).
  change (ins (optimistic_update last p)) with (ins p). rewrite E. eauto.
Qed.
End behaviour.

(** ** Well-formed progress *)
Section invariant.
Import Progress.

Record wf_progress (p : Progress.t) : Prop := {
  wfp_matched : 0 <= matched p < u64_MAX;
  wfp_next : 1 <= next_idx p < U64_MOD;
  wfp_replicate : state p = Replicate -> matched p < next_idx p;
  wfp_pending : 0 <= pending_snapshot p < u64_MAX;
  wfp_window : exists w, repr (ins p) w
}.

(** The operations as a leader uses them: an index it sends is at least the next
    one and the peer is not paused; what a peer rejects or hints at is any word. *)
Inductive progress_step (p : Progress.t) : Progress.t -> Prop :=
  | step_probe : progress_step p (become_probe p)
  | step_replicate : progress_step p (become_replicate p)
  | step_snapshot i : 0 <= i < u64_MAX -> progress_step p (become_snapshot i p)
  | step_failure : progress_step p (snapshot_failure p)
  | step_update n b p' : 0 <= n < u64_MAX -> maybe_update n p = Ret (b, p') -> progress_step p p'
  | step_decr rejected hint rs b p' :
      is_u64 rejected -> is_u64 hint -> maybe_decr_to rejected hint rs p = Ret (b, p') -> progress_step p p'
  | step_sent last p' : is_paused p = false -> next_idx p <= last < u64_MAX ->
      update_state last p = Ret (tt, p') -> progress_step p p'
  | step_freed to i : Inflights.free_to to (ins p) = Ret (tt, i) -> progress_step p (p <| ins := i |>)
  | step_set_cap c i : 0 <= c -> Inflights.set_cap c (ins p) = Ret (tt, i) -> progress_step p (p <| ins := i |>)
  | step_resume : progress_step p (resume p)
  | step_pause : progress_step p (pause p)
  | step_committed c : progress_step p (update_committed c p).

(** The fields of a progress that was changed. *)
Ltac wf_fields := split; fields;
  first [done|u64_lia|congruence|intros ?; match goal with Hr : _ = Replicate -> _ < _ |- _ => specialize (Hr ltac:(congruence)) end; u64_lia|intros; congruence|idtac].

Lemma wf_reset_ins p : (exists w, repr (ins p) w) -> exists w, repr (Inflights.reset (ins p)) w.
Proof. intros [w Hr]. exists (Window.reset w). by apply reset_repr. Qed.

Lemma wf_maybe_decr_to p rejected hint rs b p' :
  wf_progress p -> is_u64 rejected -> is_u64 hint -> maybe_decr_to rejected hint rs p = Ret (b, p') -> wf_progress p'.
Proof.
  intros [] Hrej Hhint. pose proof (u64_add_range hint 1) as Hsum. unfold maybe_decr_to. intros H. prog_inv;
    rewrite ?bool_decide_eq_true, ?bool_decide_eq_false in *;
    unfold resume, INVALID_INDEX in *; wf_fields.
Qed.

Lemma wf_maybe_update p n b p' :
  wf_progress p -> 0 <= n < u64_MAX -> maybe_update n p = Ret (b, p') -> wf_progress p'.
Proof.
  intros [] Hn. rewrite maybe_update_run by done. intros [= <- <-].
  destruct (Z.ltb_spec (matched p) n), (Z.ltb_spec (next_idx p) (n + 1)); simpl; unfold resume; wf_fields.
Qed.

Lemma wf_update_state p last p' :
  wf_progress p -> is_paused p = false -> next_idx p <= last < u64_MAX ->
  update_state last p = Ret (tt, p') -> wf_progress p'.
Proof.
  intros [] Hp Hl. unfold update_state, is_paused in *. intros H. apply bind_inv in H as (q & u & Hg & H).
  apply get_inv in Hg as [-> ->]. destruct (state p) eqn:Hst; prog_inv; simpl in *; unfold pause, optimistic_update; wf_fields.
  destruct wfp_window0 as [w Hr]. destruct (add_repr (ins p) w last Hr Hp) as (i & E & Hi).
  eexists. unfold optimistic_update in *. fields. rewrite E in *. by simplify_eq.
Qed.

Lemma progress_step_wf p p' : wf_progress p -> progress_step p p' -> wf_progress p'.
Proof.
  intros Hwf Hstep. pose proof (wf_reset_ins p (wfp_window _ Hwf)) as Hins. destruct Hstep.
  - unfold become_probe, reset_state. destruct Hwf. case_bool_decide; wf_fields.
  - unfold become_replicate, reset_state. destruct Hwf. wf_fields.
  - unfold become_snapshot, reset_state. destruct Hwf. wf_fields.
  - unfold snapshot_failure. destruct Hwf. wf_fields.
  - by eapply wf_maybe_update.
  - by apply (wf_maybe_decr_to p rejected hint rs b).
  - by eapply wf_update_state.
  - destruct Hwf as [? ? ? ? [w Hr]]. split; fields; try done.
    destruct (free_to_repr _ _ to Hr) as (i' & E & ?). rewrite E in *. simplify_eq. fields. eauto.
  - destruct Hwf as [? ? ? ? [w Hr]]. split; fields; try done.
    match goal with H : 0 <= c |- _ => destruct (set_cap_repr _ _ c Hr H) as (i' & E & ?) end.
    rewrite E in *. simplify_eq. fields. eauto.
  - destruct Hwf. by split.
  - destruct Hwf. by split.
  - unfold update_committed. destruct Hwf. case_match; by split.
Qed.

Lemma progress_step_matched p p' : wf_progress p -> progress_step p p' -> matched p <= matched p'.
Proof.
  intros Hwf []; simpl; try done.
  - unfold become_probe. by case_bool_decide.
  - revert H0. rewrite maybe_update_run by done. intros [= <- <-].
    destruct (Z.ltb_spec (matched p) n), (next_idx p <? n + 1); simpl; fields; lia.
  - unfold maybe_decr_to in *. prog_inv; fields; simpl; lia.
  - unfold update_state in *. prog_inv; fields; simpl; lia.
  - unfold update_committed. by case_match.
Qed.
End invariant.

(** ** Properties *)
Section properties.
Import Progress.

(** Only a rejection outside replicate mode that reaches down to the match moves the next
    index there. *)
Lemma progress_step_next (p q : Progress.t) : wf_progress p -> progress_step p q -> matched p < next_idx p ->
  matched q < next_idx q \/
  state p <> Replicate /\ exists rejected hint, maybe_decr_to rejected hint INVALID_INDEX p = Ret (true, q) /\
    Z.min rejected (hint +w 1) <= matched p /\ next_idx q = Z.max 1 (Z.min rejected (hint +w 1)).
Proof.
  intros Hwf Hs Hnext. pose proof Hwf as []. destruct Hs as [| |i Hi| |n b q Hn E|rejected hint rs b q Hr Hh E|last q Hp Hl E|to i E|c i Hc E| | |c];
    try (left; unfold become_probe, become_replicate, reset_state, update_committed; simpl; repeat case_match; fields; u64_lia).
  - left. rewrite maybe_update_run in E by done. injection E as <- <-.
    destruct (Z.ltb_spec (matched p) n), (Z.ltb_spec (next_idx p) (n + 1)); simpl; fields; lia.
  - destruct (decide (state p = Replicate)) as [Hst|Hst].
    { left. pose proof (wf_maybe_decr_to p rejected hint rs b q Hwf Hr Hh E) as Hq. apply Hq.
      unfold maybe_decr_to in E. prog_inv; fields; done. }
    destruct (Z.eqb_spec rs INVALID_INDEX) as [->|Hrs].
    + destruct (Z.le_gt_cases (Z.min rejected (hint +w 1)) (matched p)) as [Hle|Hgt].
      * destruct b; [right; split; [done|]; exists rejected, hint; split_and!; [done..|]|left].
        all: unfold maybe_decr_to in E; prog_inv; unfold resume; fields; rewrite ?bool_decide_eq_true in *; (done || lia).
      * left. unfold maybe_decr_to in E. prog_inv; unfold resume; fields; rewrite ?bool_decide_eq_true in *; (done || lia).
    + left. apply Z.eqb_neq in Hrs. unfold maybe_decr_to in E. prog_inv; unfold resume; fields; (done || congruence).
  - left. unfold update_state, is_paused in *. prog_inv; unfold optimistic_update, pause; fields; u64_lia.
Qed.

(** C31 — Progress invariant: along every sequence of operations a leader performs on a
    peer's progress, with any rejections of the peer, duplicated and late ones too, both
    indexes stay machine words (no wrap-around happens), the next index is at least 1 and
    in replicate mode above the match, the in-flight ring buffer stays well formed, and the
    match never decreases.  Where the next index is above the match, every operation keeps
    it there but for a rejection outside replicate mode that reaches down to the match. *)
Theorem progress_invariant (p p' : Progress.t) (Hwf : wf_progress p) (Hrun : rtc progress_step p p') :
  wf_progress p' /\ matched p <= matched p' /\
  forall q, progress_step p' q -> matched p' < next_idx p' ->
    matched q < next_idx q \/
    state p' <> Replicate /\ exists rejected hint, maybe_decr_to rejected hint INVALID_INDEX p' = Ret (true, q) /\
      Z.min rejected (hint +w 1) <= matched p' /\ next_idx q = Z.max 1 (Z.min rejected (hint +w 1)).
Proof.
  induction Hrun as [p|p q p' Hs Hrun IH]; [split_and!; [done|lia|intros q; by apply progress_step_next]|].
  pose proof (progress_step_wf _ _ Hwf Hs) as Hq. pose proof (progress_step_matched _ _ Hwf Hs).
  destruct (IH Hq) as (? & ? & ?). split_and!; [done|lia|done].
Qed.

(** [maybe_update]: it reports whether the index is news, raises the match and the
    next index to at least it, clears the pause exactly when it is news, and
    touches nothing else. *)
Theorem maybe_update_correct (p : Progress.t) (n : Z) (Hn : 0 <= n < u64_MAX) :
  exists p', maybe_update n p = Ret (matched p <? n, p') /\
    matched p' = Z.max (matched p) n /\ next_idx p' = Z.max (next_idx p) (n + 1) /\
    paused p' = paused p && negb (matched p <? n) /\
    state p' = state p /\ pending_snapshot p' = pending_snapshot p /\
    pending_request_snapshot p' = pending_request_snapshot p /\ ins p' = ins p.
Proof.
  rewrite maybe_update_run by done. eexists. split; [reflexivity|].
  destruct (Z.ltb_spec (matched p) n), (Z.ltb_spec (next_idx p) (n + 1)); simpl; fields;
    rewrite ?andb_true_r, ?andb_false_r; repeat split; lia.
Qed.

(** Whether a rejection is stale, as [maybe_decr_to] decides it. *)
Definition stale_rejection (p : Progress.t) (rejected request_snapshot : Z) : Prop :=
  match state p with
  | Replicate =>
      rejected < matched p \/ (rejected = matched p /\ request_snapshot = INVALID_INDEX)
  | _ => (next_idx p = 0 \/ next_idx p - 1 <> rejected) /\ request_snapshot = INVALID_INDEX
  end.

#[local] Instance stale_rejection_dec p r rs : Decision (stale_rejection p r rs).
Proof. unfold stale_rejection. destruct (state p); apply _. Defined.

Lemma maybe_decr_to_stale p rejected hint rs :
  is_u64 (next_idx p) -> stale_rejection p rejected rs ->
  maybe_decr_to rejected hint rs p = Ret (false, p).
Proof.
  unfold maybe_decr_to, stale_rejection. prog_unfold. intros Hn Hs.
  destruct (state p); rewrite ?bool_decide_eq_true_2, ?bool_decide_eq_false_2 by done.
  2: by replace (_ || _) with true by (symmetry; apply orb_true_iff; rewrite andb_true_iff; lia).
  all: destruct Hs as [Hs ->]; rewrite Z.eqb_refl, andb_true_r.
  all: destruct (Z.eqb_spec (next_idx p) 0); [done|]; u64_simpl.
  all: by destruct (Z.eqb_spec (next_idx p - 1) rejected); [lia|].
Qed.

Lemma maybe_decr_to_fresh p rejected hint rs :
  is_u64 (next_idx p) -> 0 <= matched p < u64_MAX -> 0 <= hint < u64_MAX -> is_u64 rejected ->
  ~ stale_rejection p rejected rs ->
  maybe_decr_to rejected hint rs p = Ret (true,
      match state p with
      | Replicate =>
          if rs =? INVALID_INDEX then p <| next_idx := matched p + 1 |>
          else p <| pending_request_snapshot := rs |>
      | _ =>
          if rs =? INVALID_INDEX then
            p <| next_idx := Z.max 1 (Z.min rejected (hint + 1)) |> <| paused := false |>
          else if pending_request_snapshot p =? INVALID_INDEX then
            p <| pending_request_snapshot := rs |> <| paused := false |>
          else p <| paused := false |>
      end).
Proof.
  unfold maybe_decr_to, stale_rejection. prog_unfold. intros Hn Hm Hh Hr Hs. u64_simpl.
  destruct (state p); rewrite ?bool_decide_eq_true_2, ?bool_decide_eq_false_2 by done.
  2: { replace (_ || _) with false by (symmetry; apply orb_false_iff; rewrite andb_false_iff; lia).
       destruct (rs =? INVALID_INDEX); [by u64_simpl|done]. }
  all: destruct (Z.eqb_spec rs INVALID_INDEX) as [->|]; rewrite ?andb_false_r, ?andb_true_r;
    [|by destruct (pending_request_snapshot p =? INVALID_INDEX)].
  all: destruct (Z.eqb_spec (next_idx p) 0); [exfalso; lia|]; u64_simpl.
  all: destruct (Z.eqb_spec (next_idx p - 1) rejected); [simpl|exfalso; lia].
  all: unfold resume; fields.
  all: destruct (Z.ltb_spec (Z.min rejected (hint + 1)) 1);
    [rewrite Z.max_l by lia|rewrite Z.max_r by lia]; reflexivity.
Qed.

(** [maybe_decr_to]: a stale rejection changes nothing and is reported; a request
    for a snapshot is recorded (outside replicate mode only when none is pending);
    any other rejection moves the next index back, to the match plus one in
    replicate mode and to at least 1 otherwise, where it also resumes the peer. *)
Theorem maybe_decr_to_correct (p : Progress.t) (rejected hint rs : Z)
    (Hnext : is_u64 (next_idx p)) (Hm : 0 <= matched p < u64_MAX) (Hh : 0 <= hint < u64_MAX)
    (Hr : is_u64 rejected) :
  exists b p', maybe_decr_to rejected hint rs p = Ret (b, p') /\
    (stale_rejection p rejected rs -> b = false /\ p' = p) /\
    (~ stale_rejection p rejected rs -> b = true /\
      match state p with
      | Replicate =>
          if rs =? INVALID_INDEX then p' = p <| next_idx := matched p + 1 |>
          else p' = p <| pending_request_snapshot := rs |>
      | _ =>
          if rs =? INVALID_INDEX then
            p' = p <| next_idx := Z.max 1 (Z.min rejected (hint + 1)) |> <| paused := false |>
          else if pending_request_snapshot p =? INVALID_INDEX then
            p' = p <| pending_request_snapshot := rs |> <| paused := false |>
          else p' = p <| paused := false |>
      end).
Proof.
  destruct (decide (stale_rejection p rejected rs)) as [Hs|Hs].
  - exists false, p. split; [by apply maybe_decr_to_stale|]. by split.
  - eexists true, _. split; [by apply maybe_decr_to_fresh|]. split; [done|]. intros _. split; [done|].
    destruct (state p); repeat case_match; done.
Qed.

Lemma wf_new next cap : 0 < next < U64_MOD -> 0 <= cap -> wf_progress (new next cap).
Proof.
  intros Hn Hc. split; simpl; try (done || u64_lia). exists (Window.empty cap). by apply new_repr.
Qed.

(** A late rejection of position 3 reaches a peer that is probed again and has 3 already. *)
Lemma progress_invariant_witness : exists p', rtc progress_step (new 1 2) p' /\
  wf_progress p' /\ 0 <= matched p' /\ matched p' = 3 /\ next_idx p' = 2.
Proof.
  assert (Hwf : wf_progress (new 1 2)) by (apply wf_new; [|done]; unfold U64_MOD; lia).
  assert (exists p', rtc progress_step (new 1 2) p' /\ matched p' = 3 /\ next_idx p' = 2)
    as (p' & Hrun & Hm & Hn).
  { eexists. split; [|split].
    - eapply rtc_l; [apply (step_update _ 3 true); [unfold u64_MAX; lia|vm_compute; reflexivity]|].
      eapply rtc_l; [apply step_replicate|].
      eapply rtc_l; [eapply (step_sent _ 5); [reflexivity|by vm_compute|vm_compute; reflexivity]|].
      eapply rtc_l; [apply step_probe|].
      eapply rtc_l; [apply (step_decr _ 3 1 0 true); [by vm_compute|by vm_compute|vm_compute; reflexivity]|].
      apply rtc_refl.
    - reflexivity.
    - reflexivity. }
  exists p'. split; [exact Hrun|].
  destruct (progress_invariant _ _ Hwf Hrun) as (H1 & H2 & _).
  split; [exact H1|]. split; [exact H2|]. split; [exact Hm|exact Hn].
Defined.

Lemma maybe_update_correct_witness : exists p', maybe_update 3 (pause (new 1 2)) = Ret (true, p') /\
  matched p' = 3 /\ next_idx p' = 4 /\ paused p' = false.
Proof.
  destruct (maybe_update_correct (pause (new 1 2)) 3 ltac:(unfold u64_MAX; lia))
    as (p' & H1 & H2 & H3 & H4 & _).
  exists p'. split; [exact H1|]. split; [exact H2|]. split; [exact H3|exact H4].
Defined.

Lemma maybe_decr_to_correct_witness :
  maybe_decr_to 4 2 0 (pause (new 5 2)) = Ret (true, new 3 2) /\
  exists b p', maybe_decr_to 4 2 0 (pause (new 5 2)) = Ret (b, p') /\ b = true /\ next_idx p' = 3.
Proof.
  split; [reflexivity|].
  destruct (maybe_decr_to_correct (pause (new 5 2)) 4 2 0) as (b & p' & H1 & _ & H3);
    [unfold is_u64, U64_MOD; simpl; lia|simpl; unfold u64_MAX; lia|unfold u64_MAX; lia|unfold is_u64, U64_MOD; lia|].
  exists b, p'. split; [exact H1|]. destruct H3 as [-> ->]; [|split; reflexivity].
  unfold stale_rejection. simpl. lia.
Defined.
End properties.
