(* ===== verification/Tracker.v ===== *)
(** * The progress tracker ([tracker.rs])

    The configuration of the group, the progress of every peer and the votes of
    an election; quorum questions are answered through the joint configuration. *)

From S2P Require Import Prelude Proto Util Quorum Inflights Progress.

Inductive MapChangeType := Add | Remove.
#[global] Instance MapChangeType_eq_dec : EqDecision MapChangeType.
Proof. solve_decision. Defined.

(** Changes made by a [Changer] ([confchange/changer.rs]). *)
Definition MapChange : Type := list (Z * MapChangeType).

(** [struct Configuration]: the configuration tracked in a [ProgressTracker]. *)
Module Configuration.
Record t : Type := mk {
  voters : Joint.Configuration;
  learners : gset Z;
  learners_next : gset Z;
  auto_leave : bool
}.
#[global] Instance eta_t : Eta t := fun r =>
  mk (voters r) (learners r) (learners_next r) (auto_leave r).
#[global] Instance set_voters : Setter voters := ltac:(derive_setter).
#[global] Instance set_learners : Setter learners := ltac:(derive_setter).
#[global] Instance set_learners_next : Setter learners_next := ltac:(derive_setter).
#[global] Instance set_auto_leave : Setter auto_leave := ltac:(derive_setter).
#[global] Instance eq_dec : EqDecision t.
Proof. solve_decision. Defined.
Definition default : t :=
  mk (Joint.new ∅) ∅ ∅ false.

Definition new (voters learners : list Z) : t :=
  mk (Joint.new (list_to_set voters)) (list_to_set learners) ∅ false.

Definition with_capacity (voters learners : Z) : t := mk (Joint.new ∅) ∅ ∅ false.

Definition to_conf_state `{HashOrder} (self : t) : ConfState.t :=
  let state := ConfState.default in
  let state := state <| ConfState.voters := Majority.raw_slice (Joint.incoming (voters self)) |> in
  let state := state <| ConfState.voters_outgoing := Majority.raw_slice (Joint.outgoing (voters self)) |> in
  let state := state <| ConfState.learners := set_iter (learners self) |> in
  let state := state <| ConfState.learners_next := set_iter (learners_next self) |> in
  state <| ConfState.auto_leave := auto_leave self |>.

Definition clear (self : t) : t :=
  self <| voters := Joint.clear (voters self) |> <| learners := ∅ |> <| learners_next := ∅ |>
       <| auto_leave := false |>.
End Configuration.

(** [type ProgressMap] and its [AckedIndexer]. *)
Abbreviation ProgressMap := (gmap Z Progress.t).
Definition acked_index (self : ProgressMap) (voter_id : Z) : option Index.t :=
  (fun p => Index.mk (Progress.matched p) (Progress.commit_group_id p)) <$> self !! voter_id.

(** [struct ProgressTracker] and its methods. *)
Module ProgressTracker.
Record t : Type := mk {
  progress : ProgressMap;
  conf : Configuration.t;
  votes : gmap Z bool;
  max_inflight : Z;
  group_commit : bool
}.
#[global] Instance eta_t : Eta t := fun r =>
  mk (progress r) (conf r) (votes r) (max_inflight r) (group_commit r).
#[global] Instance set_progress : Setter progress := ltac:(derive_setter).
#[global] Instance set_conf : Setter conf := ltac:(derive_setter).
#[global] Instance set_votes : Setter votes := ltac:(derive_setter).
#[global] Instance set_max_inflight : Setter max_inflight := ltac:(derive_setter).
#[global] Instance set_group_commit : Setter group_commit := ltac:(derive_setter).
#[global] Instance eq_dec : EqDecision t.
Proof. solve_decision. Defined.
Definition default : t :=
  mk ∅ Configuration.default ∅ 0 false.

Definition with_capacity (voters learners max_inflight : Z) : t :=
  mk ∅ (Configuration.with_capacity voters learners) ∅ max_inflight false.

Definition new (max_inflight : Z) : t := with_capacity 0 0 max_inflight.

Definition enable_group_commit (enable : bool) (self : t) : t := self <| group_commit := enable |>.

Definition clear (self : t) : t :=
  self <| progress := ∅ |> <| conf := Configuration.clear (conf self) |> <| votes := ∅ |>.

Definition is_singleton (self : t) : bool := Joint.is_singleton (Configuration.voters (conf self)).

Definition get_progress (self : t) (id : Z) : option Progress.t := progress self !! id.

Definition maximal_committed_index `{HashOrder} (self : t) : outcome (Z * bool) :=
  Joint.committed_index (Configuration.voters (conf self)) (group_commit self)
    (acked_index (progress self)).

Definition reset_votes (self : t) : t := self <| votes := ∅ |>.

(** [self.votes.entry(id).or_insert(vote)] *)
Definition record_vote (id : Z) (vote : bool) (self : t) : t :=
  match votes self !! id with
  | Some _ => self
  | None => self <| votes := <[id := vote]> (votes self) |>
  end.

Definition vote_result `{HashOrder} (self : t) (votes : gmap Z bool) : VoteResult :=
  Joint.vote_result (Configuration.voters (conf self)) (fun id => votes !! id).

(** The counting loop of [tally_votes]. *)
Definition tally_loop (self : t) (l : list (Z * bool)) : Z * Z :=
  fold_left (fun '(granted, rejected) '(id, vote) =>
    if negb (Joint.contains (Configuration.voters (conf self)) id) then (granted, rejected)
    else if vote : bool then (granted + 1, rejected) else (granted, rejected + 1)) l (0, 0).

Definition tally_votes `{HashOrder} (self : t) : Z * Z * VoteResult :=
  (tally_loop self (map_iter (votes self)), vote_result self (votes self)).

Definition has_quorum `{HashOrder} (self : t) (potential_quorum : gset Z) : bool :=
  bool_decide (Joint.vote_result (Configuration.voters (conf self))
    (fun id => if bool_decide (id ∈ potential_quorum) then Some true else None) = Won).

(** The loop of [quorum_recently_active] over [&mut self.progress]. *)
Definition activity_step (perspective_of : Z) : ProgressMap * gset Z -> Z * Progress.t -> ProgressMap * gset Z :=
  fun '(prs, active) '(id, pr) =>
    if id =? perspective_of then
      (<[id := pr <| Progress.recent_active := true |>]> prs, active ∪ {[id]})
    else if Progress.recent_active pr then
      (<[id := pr <| Progress.recent_active := false |>]> prs, active ∪ {[id]})
    else (prs, active).

Definition quorum_recently_active `{HashOrder} (perspective_of : Z) (self : t) : bool * t :=
  let '(prs, active) :=
    fold_left (activity_step perspective_of) (map_iter (progress self)) (progress self, ∅) in
  let self := self <| progress := prs |> in
  (has_quorum self active, self).

(** One iteration of [apply_conf]. *)
Definition apply_change (next_idx : Z) (self : t) (change : Z * MapChangeType) : t :=
  match change with
  | (id, Add) =>
      let pr := Progress.new next_idx (max_inflight self) in
      let pr := pr <| Progress.recent_active := true |> in
      self <| progress := <[id := pr]> (progress self) |>
  | (id, Remove) => self <| progress := delete id (progress self) |>
  end.

Definition apply_conf (conf' : Configuration.t) (changes : MapChange) (next_idx : Z) (self : t) : t :=
  fold_left (apply_change next_idx) changes (self <| conf := conf' |>).

End ProgressTracker.

(** ** Lemmas *)
Section lemmas.
Context `{HashOrder}.

Definition all_voters (c : Joint.Configuration) : gset Z :=
  Majority.voters (Joint.incoming c) ∪ Majority.voters (Joint.outgoing c).

Lemma elem_of_all_voters c id : id ∈ all_voters c <-> Joint.contains c id = true.
Proof.
  unfold all_voters, Joint.contains, Majority.contains.
  rewrite orb_true_iff, !bool_decide_eq_true. set_solver.
Qed.

Lemma NoDup_map_iter_fst {A} (m : gmap Z A) : NoDup (map_iter m).*1.
Proof. rewrite map_iter_perm. apply NoDup_fst_map_to_list. Qed.

Lemma map_iter_fst {A} (m : gmap Z A) id : id ∈ (map_iter m).*1 <-> id ∈ dom m.
Proof.
  rewrite list_elem_of_fmap, elem_of_dom. split.
  - intros ([k x] & -> & Hx%elem_of_map_iter). eauto.
  - intros [x Hx]. exists (id, x). by rewrite elem_of_map_iter.
Qed.

(** What [tally_votes] counts: the voters that voted [b]. *)
Definition voted (self : ProgressTracker.t) (b : bool) : gset Z :=
  filter (fun id => ProgressTracker.votes self !! id = Some b)
    (all_voters (Configuration.voters (ProgressTracker.conf self))).

Definition counted (self : ProgressTracker.t) (b : bool) (x : Z * bool) : Prop :=
  x.1 ∈ all_voters (Configuration.voters (ProgressTracker.conf self)) /\ x.2 = b.
#[local] Instance counted_dec self b x : Decision (counted self b x).
Proof. unfold counted. apply _. Defined.

Lemma tally_loop_filter self l :
  ProgressTracker.tally_loop self l = (len (filter (counted self true) l), len (filter (counted self false) l)).
Proof.
  unfold ProgressTracker.tally_loop.
  enough (forall g r, fold_left _ l (g, r)
      = (g + len (filter (counted self true) l), r + len (filter (counted self false) l))) as E
    by (rewrite E; by rewrite !Z.add_0_l).
  induction l as [|[id v] l IH]; intros g r; simpl; [unfold len; simpl; by rewrite !Z.add_0_r|].
  rewrite !filter_cons.   destruct (Joint.contains _ id) eqn:E, v; simpl; rewrite IH.
  all: unfold counted; simpl; repeat case_decide; rewrite ?len_cons;
    try (f_equal; lia); exfalso; rewrite elem_of_all_voters, E in *; naive_solver.
Qed.

Lemma counted_voted self b :
  len (filter (counted self b) (map_iter (ProgressTracker.votes self))) = Z.of_nat (size (voted self b)).
Proof.
  unfold len. f_equal. rewrite <-(length_fmap fst), <-length_set_iter. apply Permutation_length.
  apply NoDup_Permutation; [|apply NoDup_set_iter|].
  - eapply (sublist_NoDup _ (map_iter (ProgressTracker.votes self)).*1);
      [apply NoDup_map_iter_fst|apply fmap_sublist, sublist_filter].
  - intros id. rewrite elem_of_set_iter. unfold voted, counted. rewrite elem_of_filter, list_elem_of_fmap.
    split.
    + intros ([k v] & -> & Hx). apply list_elem_of_filter in Hx as [[? <-] Hx%elem_of_map_iter]. by split.
    + intros [Hv Hin]. exists (id, b). rewrite list_elem_of_filter, elem_of_map_iter. by repeat split.
Qed.

(** The effect of [quorum_recently_active] on one progress. *)
Definition mark (me id : Z) (pr : Progress.t) : Progress.t :=
  pr <| Progress.recent_active := bool_decide (id = me) |>.

Lemma activity_fold me (l : list (Z * Progress.t)) prs active :
  NoDup l.*1 -> (forall id pr, (id, pr) ∈ l -> prs !! id = Some pr) ->
  fold_left (ProgressTracker.activity_step me) l (prs, active) =
    (list_to_map ((fun x => (x.1, mark me x.1 x.2)) <$> l) ∪ prs,
     active ∪ list_to_set (filter (fun x => x.1 = me \/ Progress.recent_active x.2 = true) l).*1).
Proof.
  revert prs active. induction l as [|[id pr] l IH]; intros prs active Hnd Hl.
  { simpl. f_equal; [symmetry; apply (map_empty_union (M:=gmap Z))|set_solver]. }
  simpl fmap in Hnd. apply NoDup_cons in Hnd as [Hid Hnd].
  assert (Hpr : prs !! id = Some pr) by (apply Hl; left).
  set (x := mark me id pr).
  assert (ProgressTracker.activity_step me (prs, active) (id, pr) =
    (<[id := x]> prs, if decide (id = me \/ Progress.recent_active pr = true)
                      then active ∪ {[id]} else active)) as Estep.
  { unfold ProgressTracker.activity_step, x, mark. destruct (Z.eqb_spec id me).
    - rewrite decide_True, bool_decide_eq_true_2 by tauto. done.
    - rewrite bool_decide_eq_false_2 by done. destruct (Progress.recent_active pr) eqn:Ea.
      + by rewrite decide_True by tauto.
      + rewrite decide_False by naive_solver. f_equal. symmetry. apply insert_id. etrans; [exact Hpr|]. f_equal.
        destruct pr; simpl in *; by subst. }
  cbn [fold_left]. rewrite Estep, IH; [|done|].
  - f_equal.
    + simpl. rewrite <-insert_union_l. symmetry. apply insert_union_r.
      apply not_elem_of_list_to_map_1. rewrite <-list_fmap_compose. exact Hid.
    + rewrite filter_cons. simpl. case_decide; set_solver.
  - intros id' pr' Hin. rewrite lookup_insert_ne; [apply Hl; by right|].
    intros <-. apply Hid. apply list_elem_of_fmap. by exists (id, pr').
Qed.

(** The peers that count as active: this one and those heard of lately. *)
Definition active_set (me : Z) (prs : ProgressMap) : gset Z :=
  dom (filter (fun x : Z * Progress.t => x.1 = me \/ Progress.recent_active x.2 = true) prs).

Lemma activity_loop me (prs : ProgressMap) :
  fold_left (ProgressTracker.activity_step me) (map_iter prs) (prs, ∅) =
    (map_imap (fun id pr => Some (mark me id pr)) prs, active_set me prs).
Proof.
  rewrite activity_fold; [|apply NoDup_map_iter_fst|intros ??; by rewrite elem_of_map_iter].
  f_equal.
  - apply map_eq. intros id. rewrite map_lookup_imap, lookup_union.
    destruct (prs !! id) as [pr|] eqn:E; simpl.
    + erewrite (elem_of_list_to_map_1 _ id (mark me id pr)); [by rewrite union_Some_l| |].
      * rewrite <-list_fmap_compose. apply NoDup_map_iter_fst.
      * apply list_elem_of_fmap. exists (id, pr). by rewrite elem_of_map_iter.
    + rewrite not_elem_of_list_to_map_1; [done|].
      rewrite <-list_fmap_compose. change (id ∉ (map_iter prs).*1).
      rewrite map_iter_fst. by apply not_elem_of_dom.
  - unfold active_set. rewrite union_empty_l_L. apply set_eq. intros id.
    rewrite elem_of_list_to_set, elem_of_dom, list_elem_of_fmap. split.
    + intros ([k pr] & -> & Hx). apply list_elem_of_filter in Hx as [? Hx%elem_of_map_iter].
      exists pr. by apply map_lookup_filter_Some.
    + intros [pr [? ?]%map_lookup_filter_Some]. exists (id, pr).
      by rewrite list_elem_of_filter, elem_of_map_iter.
Qed.
End lemmas.

(** ** Properties *)
Section properties.
Context `{HashOrder}.
Import ProgressTracker.

(** [tally_votes] counts exactly the current voters that granted and that rejected
    (votes of peers outside the configuration are ignored), and its verdict is
    the joint one; the iteration order of the vote map does not matter. *)
Theorem tally_votes_correct (self : ProgressTracker.t) :
  tally_votes self = (Z.of_nat (size (voted self true)), Z.of_nat (size (voted self false)),
    Joint.vote_result (Configuration.voters (conf self)) (fun id => votes self !! id)).
Proof.
  unfold tally_votes, vote_result. by rewrite tally_loop_filter, !counted_voted.
Qed.

(** [has_quorum]: a set of peers is a quorum exactly when it holds a majority of the
    incoming voters and, in a joint configuration, one of the outgoing voters. *)
Theorem has_quorum_correct (self : ProgressTracker.t) (q : gset Z) :
  let c := Configuration.voters (conf self) in
  let holds_majority (v : gset Z) :=
    v = ∅ \/ majority (Z.of_nat (size v)) <= Z.of_nat (size (v ∩ q)) in
  has_quorum self q = true <->
  holds_majority (Majority.voters (Joint.incoming c)) /\ holds_majority (Majority.voters (Joint.outgoing c)).
Proof.
  simpl. unfold has_quorum. rewrite bool_decide_eq_true, joint_won, !vote_won.
  assert (forall m, granted m (fun id => if bool_decide (id ∈ q) then Some true else None)
    = Majority.voters m ∩ q) as Hg; [|by rewrite !Hg].
  intros m. apply set_eq. intros id. unfold granted. rewrite elem_of_filter, elem_of_intersection.
  case_bool_decide; naive_solver.
Qed.

(** [quorum_recently_active]: the verdict is whether the peers heard of since the
    last call, and the caller itself, form a quorum; afterwards exactly the
    caller's progress is marked active, and nothing else has changed. *)
Theorem quorum_recently_active_correct (self : ProgressTracker.t) (me : Z) :
  quorum_recently_active me self =
    (has_quorum self (active_set me (progress self)),
     self <| progress := map_imap (fun id pr => Some (mark me id pr)) (progress self) |>).
Proof. unfold quorum_recently_active. by rewrite activity_loop. Qed.
End properties.
