(* ===== verification/ConfChange.v ===== *)
(** * Configuration changes ([confchange.rs], [confchange/changer.rs],
    [confchange/restore.rs])

    The validation and application of simple and joint configuration changes,
    the per-peer state machine they implement, and the reconstruction of a
    configuration from a [ConfState]. *)

From S2P Require Import Prelude Proto Errors Util Quorum Inflights Progress Tracker.


(** [pub(crate) fn joint] *)
Definition joint (cfg : Configuration.t) : bool :=
  negb (Majority.is_empty (Joint.outgoing (Configuration.voters cfg))).

(** [struct IncrChangeMap] *)
Module IncrChangeMap.
Record t := mk { changes : MapChange; base : ProgressMap }.
#[global] Instance eta_t : Eta t := fun r => mk (changes r) (base r).
#[global] Instance set_changes : Setter changes := ltac:(derive_setter).

Definition contains (self : t) (id : Z) : bool :=
  match List.find (fun x => x.1 =? id) (rev (changes self)) with
  | Some (_, Remove) => false
  | Some (_, Add) => true
  | None => bool_decide (is_Some (base self !! id))
  end.

Definition push (x : Z * MapChangeType) (self : t) : t := self <| changes := changes self ++ [x] |>.
End IncrChangeMap.

(** The text of a configuration in one error message ([derive(Debug)]). *)
Class ConfigurationDebug := debug_configuration : Configuration.t -> string.

(** A [for] loop whose body may return an error from the function. *)
Fixpoint try_each (f : Z -> Result unit) (l : list Z) : Result unit :=
  match l with
  | [] => Ok tt
  | x :: l => match f x with Ok _ => try_each f l | Err e => Err e end
  end.

Section check_invariants.
Context `{HashOrder}.
Variables (cfg : Configuration.t) (prs : IncrChangeMap.t).

Definition check_voter (id : Z) : Result unit :=
  if negb (IncrChangeMap.contains prs id) then
    Err (ConfChangeError ("no progress for voter " +:+ pretty id)%string)
  else Ok tt.

Definition check_learner (id : Z) : Result unit :=
  if negb (IncrChangeMap.contains prs id) then
    Err (ConfChangeError ("no progress for learner " +:+ pretty id)%string)
  else if Majority.contains (Joint.outgoing (Configuration.voters cfg)) id then
    Err (ConfChangeError (pretty id +:+ " is in learners and outgoing voters")%string)
  else if Majority.contains (Joint.incoming (Configuration.voters cfg)) id then
    Err (ConfChangeError (pretty id +:+ " is in learners and incoming voters")%string)
  else Ok tt.

Definition check_learner_next (id : Z) : Result unit :=
  if negb (IncrChangeMap.contains prs id) then
    Err (ConfChangeError ("no progress for learner(next) " +:+ pretty id)%string)
  else if negb (Majority.contains (Joint.outgoing (Configuration.voters cfg)) id) then
    Err (ConfChangeError (pretty id +:+ " is in learners_next and outgoing voters")%string)
  else Ok tt.

Definition check_invariants : Result unit :=
  _u ←! try_each check_voter (Union.iter (Joint.ids (Configuration.voters cfg)));
  _u ←! try_each check_learner (set_iter (Configuration.learners cfg));
  _u ←! try_each check_learner_next (set_iter (Configuration.learners_next cfg));
  if negb (joint cfg) then
    if negb (bool_decide (Configuration.learners_next cfg = ∅)) then
      Err (ConfChangeError "learners_next must be empty when not joint")
    else if Configuration.auto_leave cfg then
      Err (ConfChangeError "auto_leave must be false when not joint")
    else Ok tt
  else Ok tt.
End check_invariants.

(** [cfg.voters.incoming] and [cfg.voters.outgoing] as sets, and their updates. *)
Definition incoming_voters (cfg : Configuration.t) : gset Z :=
  Majority.voters (Joint.incoming (Configuration.voters cfg)).
Definition outgoing_voters (cfg : Configuration.t) : gset Z :=
  Majority.voters (Joint.outgoing (Configuration.voters cfg)).
Definition with_incoming (f : gset Z -> gset Z) (cfg : Configuration.t) : Configuration.t :=
  cfg <| Configuration.voters := (Configuration.voters cfg)
           <| Joint.incoming := Majority.mk (f (incoming_voters cfg)) |> |>.
Definition with_outgoing (f : gset Z -> gset Z) (cfg : Configuration.t) : Configuration.t :=
  cfg <| Configuration.voters := (Configuration.voters cfg)
           <| Joint.outgoing := Majority.mk (f (outgoing_voters cfg)) |> |>.
Definition with_learners (f : gset Z -> gset Z) (cfg : Configuration.t) : Configuration.t :=
  cfg <| Configuration.learners := f (Configuration.learners cfg) |>.
Definition with_learners_next (f : gset Z -> gset Z) (cfg : Configuration.t) : Configuration.t :=
  cfg <| Configuration.learners_next := f (Configuration.learners_next cfg) |>.
Definition set_insert (id : Z) (s : gset Z) : gset Z := {[id]} ∪ s.
Definition set_remove (id : Z) (s : gset Z) : gset Z := s ∖ {[id]}.

(** [struct Changer]: its methods take the tracker it refers to. *)
Module Changer.

Definition init_progress (st : Configuration.t * IncrChangeMap.t) (id : Z) (is_learner : bool) :
  Configuration.t * IncrChangeMap.t :=
  let '(cfg, prs) := st in
  let cfg := if negb is_learner then with_incoming (set_insert id) cfg
             else with_learners (set_insert id) cfg in
  (cfg, IncrChangeMap.push (id, Add) prs).

Definition make_voter (st : Configuration.t * IncrChangeMap.t) (id : Z) : Configuration.t * IncrChangeMap.t :=
  let '(cfg, prs) := st in
  if negb (IncrChangeMap.contains prs id) then init_progress (cfg, prs) id false
  else
    let cfg := with_incoming (set_insert id) cfg in
    let cfg := with_learners (set_remove id) cfg in
    let cfg := with_learners_next (set_remove id) cfg in
    (cfg, prs).

Definition make_learner (st : Configuration.t * IncrChangeMap.t) (id : Z) : Configuration.t * IncrChangeMap.t :=
  let '(cfg, prs) := st in
  if negb (IncrChangeMap.contains prs id) then init_progress (cfg, prs) id true
  else if bool_decide (id ∈ Configuration.learners cfg) then (cfg, prs)
  else
    let cfg := with_incoming (set_remove id) cfg in
    let cfg := with_learners (set_remove id) cfg in
    let cfg := with_learners_next (set_remove id) cfg in
    if bool_decide (id ∈ outgoing_voters cfg) then (with_learners_next (set_insert id) cfg, prs)
    else (with_learners (set_insert id) cfg, prs).

Definition remove (st : Configuration.t * IncrChangeMap.t) (id : Z) : Configuration.t * IncrChangeMap.t :=
  let '(cfg, prs) := st in
  if negb (IncrChangeMap.contains prs id) then (cfg, prs)
  else
    let cfg := with_incoming (set_remove id) cfg in
    let cfg := with_learners (set_remove id) cfg in
    let cfg := with_learners_next (set_remove id) cfg in
    if negb (bool_decide (id ∈ outgoing_voters cfg)) then (cfg, IncrChangeMap.push (id, Remove) prs)
    else (cfg, prs).

(** One iteration of [apply]. *)
Definition apply_one (st : Configuration.t * IncrChangeMap.t) (cc : ConfChangeSingle.t) :
  Configuration.t * IncrChangeMap.t :=
  if ConfChangeSingle.node_id cc =? 0 then st
  else
    match ConfChangeSingle.change_type cc with
    | AddNode => make_voter st (ConfChangeSingle.node_id cc)
    | AddLearnerNode => make_learner st (ConfChangeSingle.node_id cc)
    | RemoveNode => remove st (ConfChangeSingle.node_id cc)
    end.

Definition apply (cfg : Configuration.t) (prs : IncrChangeMap.t) (ccs : list ConfChangeSingle.t) :
  Result (Configuration.t * IncrChangeMap.t) :=
  let st := fold_left apply_one ccs (cfg, prs) in
  if bool_decide (incoming_voters st.1 = ∅) then Err (ConfChangeError "removed all voters")
  else Ok st.

Section ops.
Context `{HashOrder} `{ConfigurationDebug}.

Definition check_and_copy (tracker : ProgressTracker.t) : Result (Configuration.t * IncrChangeMap.t) :=
  let prs := IncrChangeMap.mk [] (ProgressTracker.progress tracker) in
  _u ←! check_invariants (ProgressTracker.conf tracker) prs;
  Ok (ProgressTracker.conf tracker, prs).

Definition enter_joint (tracker : ProgressTracker.t) (auto_leave : bool) (ccs : list ConfChangeSingle.t) :
  Result (Configuration.t * MapChange) :=
  if joint (ProgressTracker.conf tracker) then Err (ConfChangeError "config is already joint")
  else
    st ←! check_and_copy tracker;
    let '(cfg, prs) := st in
    if bool_decide (incoming_voters cfg = ∅) then
      Err (ConfChangeError "can't make a zero-voter config joint")
    else
      let cfg := with_outgoing (fun o => o ∪ incoming_voters cfg) cfg in
      st ←! apply cfg prs ccs;
      let '(cfg, prs) := st in
      let cfg := cfg <| Configuration.auto_leave := auto_leave |> in
      _u ←! check_invariants cfg prs;
      Ok (cfg, IncrChangeMap.changes prs).

(** The loop of [leave_joint] over the outgoing voters. *)
Definition drop_outgoing (cfg : Configuration.t) (prs : IncrChangeMap.t) (ids : list Z) : IncrChangeMap.t :=
  fold_left (fun prs id =>
    if negb (bool_decide (id ∈ incoming_voters cfg)) && negb (bool_decide (id ∈ Configuration.learners cfg))
    then IncrChangeMap.push (id, Remove) prs else prs) ids prs.

Definition leave_joint (tracker : ProgressTracker.t) : Result (Configuration.t * MapChange) :=
  if negb (joint (ProgressTracker.conf tracker)) then
    Err (ConfChangeError "can't leave a non-joint config")
  else
    st ←! check_and_copy tracker;
    let '(cfg, prs) := st in
    if bool_decide (outgoing_voters cfg = ∅) then
      Err (ConfChangeError ("configuration is not joint: " +:+ debug_configuration cfg)%string)
    else
      let cfg := with_learners (fun l => l ∪ Configuration.learners_next cfg) cfg in
      let cfg := with_learners_next (fun _ => ∅) cfg in
      let prs := drop_outgoing cfg prs (set_iter (outgoing_voters cfg)) in
      let cfg := with_outgoing (fun _ => ∅) cfg in
      let cfg := cfg <| Configuration.auto_leave := false |> in
      _u ←! check_invariants cfg prs;
      Ok (cfg, IncrChangeMap.changes prs).

Definition simple (tracker : ProgressTracker.t) (ccs : list ConfChangeSingle.t) :
  Result (Configuration.t * MapChange) :=
  if joint (ProgressTracker.conf tracker) then
    Err (ConfChangeError "can't apply simple config change in joint config")
  else
    st ←! check_and_copy tracker;
    let '(cfg, prs) := st in
    st ←! apply cfg prs ccs;
    let '(cfg, prs) := st in
    let old := incoming_voters (ProgressTracker.conf tracker) in
    if (1 <? size (incoming_voters cfg ∖ old) + size (old ∖ incoming_voters cfg))%nat then
      Err (ConfChangeError "more than one voter changed without entering joint config")
    else
      _u ←! check_invariants cfg prs;
      Ok (cfg, IncrChangeMap.changes prs).
End ops.
End Changer.

(** ** [confchange/restore.rs] *)
Definition to_conf_change_single (cs : ConfState.t) : list ConfChangeSingle.t * list ConfChangeSingle.t :=
  let each ty ids := map (fun id => new_conf_change_single id ty) ids in
  let outgoing := each AddNode (ConfState.voters_outgoing cs) in
  let incoming := each RemoveNode (ConfState.voters_outgoing cs) ++ each AddNode (ConfState.voters cs)
    ++ each AddLearnerNode (ConfState.learners cs) ++ each AddLearnerNode (ConfState.learners_next cs) in
  (outgoing, incoming).

Section restore.
Context `{HashOrder} `{ConfigurationDebug}.

(** The loop of [restore] over simple changes. *)
Fixpoint restore_simple (next_idx : Z) (ccs : list ConfChangeSingle.t) : Prog ProgressTracker.t (Result unit) :=
  match ccs with
  | [] => mret (Ok tt)
  | cc :: ccs =>
      tracker ← get;
      st ←? mret (Changer.simple tracker [cc]);
      let '(cfg, changes) := st in
      modify (ProgressTracker.apply_conf cfg changes next_idx);;
      restore_simple next_idx ccs
  end.

Definition restore (next_idx : Z) (cs : ConfState.t) : Prog ProgressTracker.t (Result unit) :=
  let '(outgoing, incoming) := to_conf_change_single cs in
  match outgoing with
  | [] => restore_simple next_idx incoming
  | _ =>
      _u ←? restore_simple next_idx outgoing;
      tracker ← get;
      st ←? mret (Changer.enter_joint tracker (ConfState.auto_leave cs) incoming);
      let '(cfg, changes) := st in
      modify (ProgressTracker.apply_conf cfg changes next_idx);;
      mret (Ok tt)
  end.
End restore.

(** ** The state machine of one peer

    Seen from one identifier, a configuration is five flags and a change is a
    function on them. *)
Module Role.
Record t := mk { inc : bool; out : bool; lrn : bool; nxt : bool; trk : bool }.

Definition view (st : Configuration.t * IncrChangeMap.t) (id : Z) : t :=
  mk (bool_decide (id ∈ incoming_voters st.1)) (bool_decide (id ∈ outgoing_voters st.1))
     (bool_decide (id ∈ Configuration.learners st.1)) (bool_decide (id ∈ Configuration.learners_next st.1))
     (IncrChangeMap.contains st.2 id).

Definition step (ty : ConfChangeType) (r : t) : t :=
  match ty with
  | AddNode =>
      if trk r then mk true (out r) false false true else mk true (out r) (lrn r) (nxt r) true
  | AddLearnerNode =>
      if negb (trk r) then mk (inc r) (out r) true (nxt r) true
      else if lrn r then r
      else mk false (out r) (negb (out r)) (out r) true
  | RemoveNode => if trk r then mk false (out r) false false (out r) else r
  end.

(** The roles a valid configuration gives: a tracked peer is a voter or a
    learner, never both, and only an outgoing voter that has left the incoming
    majority waits to become a learner. *)
Definition ok (r : t) : bool :=
  Bool.eqb (trk r) (inc r || out r || lrn r) && negb (lrn r && (inc r || out r)) && (negb (nxt r) || out r)
  && negb (nxt r && inc r).

Lemma step_ok ty r : ok r = true -> ok (step ty r) = true.
Proof. destruct ty, r as [[] [] [] [] []]; done. Qed.

Lemma step_out ty r : out (step ty r) = out r.
Proof. destruct ty, r as [[] [] [] [] []]; done. Qed.
End Role.

Lemma contains_push prs id id' ty :
  IncrChangeMap.contains (IncrChangeMap.push (id, ty) prs) id' =
  if id =? id' then bool_decide (ty = Add) else IncrChangeMap.contains prs id'.
Proof.
  unfold IncrChangeMap.contains, IncrChangeMap.push. fields. rewrite rev_app_distr. simpl.
  destruct (id =? id'); [|done]. by destruct ty.
Qed.

Section sets.
Implicit Types (cfg : Configuration.t).
Lemma incoming_with_incoming f cfg : incoming_voters (with_incoming f cfg) = f (incoming_voters cfg).
Proof. done. Qed.
Lemma outgoing_with_incoming f cfg : outgoing_voters (with_incoming f cfg) = outgoing_voters cfg.
Proof. done. Qed.
Lemma learners_with_incoming f cfg : Configuration.learners (with_incoming f cfg) = Configuration.learners cfg.
Proof. done. Qed.
Lemma next_with_incoming f cfg : Configuration.learners_next (with_incoming f cfg) = Configuration.learners_next cfg.
Proof. done. Qed.
Lemma incoming_with_outgoing f cfg : incoming_voters (with_outgoing f cfg) = incoming_voters cfg.
Proof. done. Qed.
Lemma outgoing_with_outgoing f cfg : outgoing_voters (with_outgoing f cfg) = f (outgoing_voters cfg).
Proof. done. Qed.
Lemma learners_with_outgoing f cfg : Configuration.learners (with_outgoing f cfg) = Configuration.learners cfg.
Proof. done. Qed.
Lemma next_with_outgoing f cfg : Configuration.learners_next (with_outgoing f cfg) = Configuration.learners_next cfg.
Proof. done. Qed.
Lemma incoming_with_learners f cfg : incoming_voters (with_learners f cfg) = incoming_voters cfg.
Proof. done. Qed.
Lemma outgoing_with_learners f cfg : outgoing_voters (with_learners f cfg) = outgoing_voters cfg.
Proof. done. Qed.
Lemma learners_with_learners f cfg : Configuration.learners (with_learners f cfg) = f (Configuration.learners cfg).
Proof. done. Qed.
Lemma next_with_learners f cfg : Configuration.learners_next (with_learners f cfg) = Configuration.learners_next cfg.
Proof. done. Qed.
Lemma incoming_with_next f cfg : incoming_voters (with_learners_next f cfg) = incoming_voters cfg.
Proof. done. Qed.
Lemma outgoing_with_next f cfg : outgoing_voters (with_learners_next f cfg) = outgoing_voters cfg.
Proof. done. Qed.
Lemma learners_with_next f cfg : Configuration.learners (with_learners_next f cfg) = Configuration.learners cfg.
Proof. done. Qed.
Lemma next_with_next f cfg : Configuration.learners_next (with_learners_next f cfg) = f (Configuration.learners_next cfg).
Proof. done. Qed.
Lemma incoming_auto b cfg : incoming_voters (cfg <| Configuration.auto_leave := b |>) = incoming_voters cfg.
Proof. done. Qed.
Lemma outgoing_auto b cfg : outgoing_voters (cfg <| Configuration.auto_leave := b |>) = outgoing_voters cfg.
Proof. done. Qed.
End sets.
Create HintDb conf.
#[export] Hint Rewrite incoming_with_incoming outgoing_with_incoming learners_with_incoming next_with_incoming
  incoming_with_outgoing outgoing_with_outgoing learners_with_outgoing next_with_outgoing
  incoming_with_learners outgoing_with_learners learners_with_learners next_with_learners
  incoming_with_next outgoing_with_next learners_with_next next_with_next incoming_auto outgoing_auto : conf.

Lemma in_insert id id' s : bool_decide (id' ∈ set_insert id s) = (id =? id') || bool_decide (id' ∈ s).
Proof.
  unfold set_insert. destruct (Z.eqb_spec id id'); simpl; [apply bool_decide_eq_true_2; set_solver|].
  apply bool_decide_ext. set_solver.
Qed.
Lemma in_remove id id' s : bool_decide (id' ∈ set_remove id s) = negb (id =? id') && bool_decide (id' ∈ s).
Proof.
  unfold set_remove. destruct (Z.eqb_spec id id'); simpl; [apply bool_decide_eq_false_2; set_solver|].
  apply bool_decide_ext. set_solver.
Qed.

(** Evaluates the role of [id'] after an operation on [id]. *)
Ltac roles := unfold Role.view; cbn [fst snd]; autorewrite with conf; rewrite ?contains_push, ?in_insert, ?in_remove;
  autorewrite with conf.

Lemma apply_one_role st cc id :
  Role.view (Changer.apply_one st cc) id =
  if (ConfChangeSingle.node_id cc =? id) && negb (id =? 0)
  then Role.step (ConfChangeSingle.change_type cc) (Role.view st id) else Role.view st id.
Proof.
  destruct st as [cfg prs], cc as [ty n]. unfold Changer.apply_one. simpl.
  destruct (Z.eqb_spec n 0) as [->|Hn].
  { destruct (Z.eqb_spec 0 id) as [<-|]; done. }
  destruct ty; simpl; unfold Changer.make_voter, Changer.make_learner, Changer.remove, Changer.init_progress.
  all: destruct (Z.eqb_spec n id) as [<-|Hne]; simpl.
  all: try rewrite (proj2 (Z.eqb_neq n 0) Hn); simpl.
  all: repeat case_match; roles; rewrite ?Z.eqb_refl, ?(proj2 (Z.eqb_neq n id) Hne); simpl.
  all: repeat match goal with
       | H : negb _ = true |- _ => apply negb_true_iff in H
       | H : negb _ = false |- _ => apply negb_false_iff in H
       end.
  all: unfold Role.step; simpl; try done; autorewrite with conf in *.
  all: by repeat match goal with H : @eq bool ?a _ |- _ => rewrite H; clear H end.
Qed.

(** The changes that concern [id], in order, on its role. *)
Definition Role_run (id : Z) (ccs : list ConfChangeSingle.t) (r : Role.t) : Role.t :=
  fold_left (fun r cc => if (ConfChangeSingle.node_id cc =? id) && negb (id =? 0)
                         then Role.step (ConfChangeSingle.change_type cc) r else r) ccs r.

Lemma apply_role ccs st id :
  Role.view (fold_left Changer.apply_one ccs st) id = Role_run id ccs (Role.view st id).
Proof.
  revert st. induction ccs as [|cc ccs IH]; intros st; [done|].
  simpl. by rewrite IH, apply_one_role.
Qed.

Lemma Role_run_ok id ccs r : Role.ok r = true -> Role.ok (Role_run id ccs r) = true.
Proof.
  revert r. induction ccs as [|cc ccs IH]; intros r Hr; [done|]. simpl. apply IH.
  case_match; [by apply Role.step_ok|done].
Qed.

Lemma Role_run_out id ccs r : Role.out (Role_run id ccs r) = Role.out r.
Proof.
  revert r. induction ccs as [|cc ccs IH]; intros r; [done|]. simpl. rewrite IH.
  case_match; [apply Role.step_out|done].
Qed.

(** ** Validity *)
Section validity.
Context `{HashOrder} `{ConfigurationDebug}.

(** What [check_invariants] is meant to check. *)
Record valid (cfg : Configuration.t) (prs : IncrChangeMap.t) : Prop := {
  valid_voters : forall id, id ∈ incoming_voters cfg ∪ outgoing_voters cfg -> IncrChangeMap.contains prs id = true;
  valid_learners : forall id, id ∈ Configuration.learners cfg ->
    IncrChangeMap.contains prs id = true /\ id ∉ incoming_voters cfg ∪ outgoing_voters cfg;
  valid_next : forall id, id ∈ Configuration.learners_next cfg ->
    IncrChangeMap.contains prs id = true /\ id ∈ outgoing_voters cfg;
  valid_not_joint : outgoing_voters cfg = ∅ ->
    Configuration.learners_next cfg = ∅ /\ Configuration.auto_leave cfg = false
}.

Lemma try_each_ok f l : try_each f l = Ok tt <-> forall x, x ∈ l -> f x = Ok tt.
Proof.
  induction l as [|x l IH]; simpl; [set_solver|]. destruct (f x) as [[]|e] eqn:E.
  - rewrite IH. set_solver.
  - split; [done|]. intros Hx. rewrite Hx in E by left. done.
Qed.

Lemma result_bind_ok {A B E} (m : result A E) (f : A -> result B E) b :
  result_bind m f = Ok b <-> exists a, m = Ok a /\ f a = Ok b.
Proof. destruct m; simpl; naive_solver. Qed.

Lemma bind_unit_ok {B E} (m : result unit E) (f : unit -> result B E) b :
  result_bind m f = Ok b <-> m = Ok tt /\ f tt = Ok b.
Proof. rewrite result_bind_ok. split; [intros ([] & ?)|]; naive_solver. Qed.

Lemma joint_false cfg : joint cfg = false <-> outgoing_voters cfg = ∅.
Proof. unfold joint, Majority.is_empty. by rewrite negb_false_iff, bool_decide_eq_true. Qed.
Lemma joint_true cfg : joint cfg = true <-> outgoing_voters cfg <> ∅.
Proof. rewrite <-not_false_iff_true, joint_false. done. Qed.

Lemma check_invariants_valid cfg prs : check_invariants cfg prs = Ok tt <-> valid cfg prs.
Proof.
  unfold check_invariants. rewrite !bind_unit_ok, !try_each_ok.
  setoid_rewrite Union.elem_of_iter. setoid_rewrite elem_of_set_iter.
  unfold check_voter, check_learner, check_learner_next, Majority.contains. simpl.
  fold (incoming_voters cfg) (outgoing_voters cfg).
  assert ((if negb (joint cfg) then _ else _) = Ok tt <-> (outgoing_voters cfg = ∅ ->
    Configuration.learners_next cfg = ∅ /\ Configuration.auto_leave cfg = false)) as ->.
  { destruct (joint cfg) eqn:Ej; simpl.
    - apply joint_true in Ej. naive_solver.
    - apply joint_false in Ej. case_bool_decide; simpl; [|naive_solver]. by destruct (Configuration.auto_leave cfg); naive_solver. }
  split.
  - intros (Hv & Hl & Hn & Hj). split.
    + intros id Hid. specialize (Hv id Hid). by destruct (IncrChangeMap.contains prs id).
    + intros id Hid. specialize (Hl id Hid). destruct (IncrChangeMap.contains prs id); [|done]. simpl in Hl.
      repeat case_bool_decide; set_solver.
    + intros id Hid. specialize (Hn id Hid). destruct (IncrChangeMap.contains prs id); [|done]. simpl in Hn.
      by case_bool_decide.
    + done.
  - intros [Hv Hl Hn Hj]. split; [|split; [|split; [|done]]].
    + intros id Hid. by rewrite Hv.
    + intros id Hid. destruct (Hl id Hid) as [-> Hnot]. simpl.
      rewrite !bool_decide_eq_false_2 by set_solver. done.
    + intros id Hid. destruct (Hn id Hid) as [-> Ho]. simpl. by rewrite bool_decide_eq_true_2.
Qed.

(** The stronger invariant the operations preserve: besides what is checked,
    only members are tracked and no incoming voter waits to be a learner. *)
Definition ok_config (cfg : Configuration.t) (prs : IncrChangeMap.t) : Prop :=
  (forall id, Role.ok (Role.view (cfg, prs) id) = true) /\
  (outgoing_voters cfg = ∅ -> Configuration.auto_leave cfg = false).

Lemma ok_config_valid cfg prs : ok_config cfg prs -> valid cfg prs.
Proof.
  intros [Hok Ha].
  assert (forall id, Role.ok (Role.view (cfg, prs) id) = true) as Hr by done. unfold Role.view, Role.ok in Hr.
  simpl in Hr. split.
  - intros id Hid. specialize (Hr id). repeat case_bool_decide; destruct (IncrChangeMap.contains prs id); set_solver.
  - intros id Hid. specialize (Hr id). rewrite (bool_decide_eq_true_2 (id ∈ Configuration.learners cfg)) in Hr by done.
    repeat case_bool_decide; destruct (IncrChangeMap.contains prs id); set_solver.
  - intros id Hid. specialize (Hr id). rewrite (bool_decide_eq_true_2 (id ∈ Configuration.learners_next cfg)) in Hr by done.
    repeat case_bool_decide; destruct (IncrChangeMap.contains prs id); set_solver.
  - intros Ho. split; [|auto]. apply elem_of_equiv_empty_L. intros id Hid. specialize (Hr id).
    rewrite (bool_decide_eq_true_2 (id ∈ Configuration.learners_next cfg)), (bool_decide_eq_false_2 (id ∈ outgoing_voters cfg)) in Hr by set_solver.
    repeat case_bool_decide; destruct (IncrChangeMap.contains prs id); set_solver.
Qed.

Definition tracked (tracker : ProgressTracker.t) : IncrChangeMap.t :=
  IncrChangeMap.mk [] (ProgressTracker.progress tracker).
Definition ok_tracker (tracker : ProgressTracker.t) : Prop :=
  ok_config (ProgressTracker.conf tracker) (tracked tracker).

Lemma apply_conf_contains cfg changes next tracker id :
  IncrChangeMap.contains (tracked (ProgressTracker.apply_conf cfg changes next tracker)) id =
  IncrChangeMap.contains (IncrChangeMap.mk changes (ProgressTracker.progress tracker)) id.
Proof.
  unfold ProgressTracker.apply_conf.
  change (ProgressTracker.progress tracker) with
    (ProgressTracker.progress (tracker <| ProgressTracker.conf := cfg |>)).
  generalize (tracker <| ProgressTracker.conf := cfg |>). clear tracker. intros tracker.
  induction changes as [|[k ty] changes IH] using rev_ind; [done|].
  rewrite fold_left_app. change (IncrChangeMap.mk (changes ++ [(k, ty)]) ?b) with
    (IncrChangeMap.push (k, ty) (IncrChangeMap.mk changes b)).
  rewrite contains_push, <-IH. unfold IncrChangeMap.contains, tracked. simpl. destruct ty; simpl.
  - destruct (Z.eqb_spec k id) as [->|]; fields.
    + rewrite lookup_insert_eq. by rewrite bool_decide_eq_true_2 by eauto.
    + by rewrite lookup_insert_ne.
  - destruct (Z.eqb_spec k id) as [->|]; fields.
    + by rewrite lookup_delete_eq.
    + by rewrite lookup_delete_ne.
Qed.

Lemma apply_conf_conf cfg changes next tracker :
  ProgressTracker.conf (ProgressTracker.apply_conf cfg changes next tracker) = cfg.
Proof.
  unfold ProgressTracker.apply_conf. induction changes as [|[k []] changes IH] using rev_ind; [done|..];
    rewrite fold_left_app; exact IH.
Qed.

Lemma apply_conf_ok cfg changes next tracker :
  ok_config cfg (IncrChangeMap.mk changes (ProgressTracker.progress tracker)) ->
  ok_tracker (ProgressTracker.apply_conf cfg changes next tracker).
Proof.
  intros [Hr Ha]. unfold ok_tracker. rewrite apply_conf_conf. split; [|done].
  intros id. specialize (Hr id). unfold Role.view in *. simpl in *. by rewrite apply_conf_contains.
Qed.
End validity.

(** ** The operations *)
Section operations.
Context `{HashOrder} `{ConfigurationDebug}.

Lemma apply_base ccs st :
  IncrChangeMap.base (fold_left Changer.apply_one ccs st).2 = IncrChangeMap.base st.2.
Proof.
  revert st. induction ccs as [|cc ccs IH]; intros st; [done|]. cbn [fold_left]. rewrite IH. destruct st as [cfg prs].
  unfold Changer.apply_one, Changer.make_voter, Changer.make_learner, Changer.remove, Changer.init_progress.
  repeat case_match; simplify_eq; done.
Qed.

Lemma apply_auto ccs st :
  Configuration.auto_leave (fold_left Changer.apply_one ccs st).1 = Configuration.auto_leave st.1.
Proof.
  revert st. induction ccs as [|cc ccs IH]; intros st; [done|]. cbn [fold_left]. rewrite IH. destruct st as [cfg prs].
  unfold Changer.apply_one, Changer.make_voter, Changer.make_learner, Changer.remove, Changer.init_progress.
  repeat case_match; simplify_eq; done.
Qed.

Lemma apply_outgoing ccs st :
  outgoing_voters (fold_left Changer.apply_one ccs st).1 = outgoing_voters st.1.
Proof.
  apply set_eq. intros id. pose proof (apply_role ccs st id) as E. apply (f_equal Role.out) in E.
  rewrite Role_run_out in E. unfold Role.view in E. by apply bool_decide_iff in E.
Qed.

Lemma apply_ok_config ccs cfg prs :
  ok_config cfg prs ->
  let st := fold_left Changer.apply_one ccs (cfg, prs) in ok_config st.1 st.2.
Proof.
  intros [Hr Ha]. simpl. split.
  - intros id. rewrite <-surjective_pairing, apply_role. by apply Role_run_ok.
  - by rewrite apply_outgoing, apply_auto.
Qed.

Lemma ok_check cfg prs : ok_config cfg prs -> check_invariants cfg prs = Ok tt.
Proof. intros Hok. by apply check_invariants_valid, ok_config_valid. Qed.

Lemma ok_check_and_copy tracker : ok_tracker tracker ->
  Changer.check_and_copy tracker = Ok (ProgressTracker.conf tracker, tracked tracker).
Proof. intros Hok. unfold Changer.check_and_copy. by rewrite ok_check. Qed.

(** The configuration and the change log after a list of changes. *)
Definition applied (cfg : Configuration.t) (tracker : ProgressTracker.t) (ccs : list ConfChangeSingle.t) :=
  fold_left Changer.apply_one ccs (cfg, tracked tracker).

Lemma simple_run tracker ccs : ok_tracker tracker ->
  let cfg := ProgressTracker.conf tracker in
  let st := applied cfg tracker ccs in
  Changer.simple tracker ccs =
  if joint cfg then Err (ConfChangeError "can't apply simple config change in joint config")
  else if bool_decide (incoming_voters st.1 = ∅) then Err (ConfChangeError "removed all voters")
  else if (1 <? size (incoming_voters st.1 ∖ incoming_voters cfg) + size (incoming_voters cfg ∖ incoming_voters st.1))%nat
  then Err (ConfChangeError "more than one voter changed without entering joint config")
  else Ok (st.1, IncrChangeMap.changes st.2).
Proof.
  intros Hok. simpl. unfold Changer.simple. destruct (joint _); [done|].
  rewrite ok_check_and_copy by done. cbn [result_bind]. unfold Changer.apply.
  fold (applied (ProgressTracker.conf tracker) tracker ccs).
  pose proof (apply_ok_config ccs _ _ Hok) as Hok'. cbv zeta in Hok'.
  fold (applied (ProgressTracker.conf tracker) tracker ccs) in Hok'.
  case_bool_decide; [done|]. cbn [result_bind].
  destruct (applied _ _ _) as [cfg' prs']. cbn [fst snd] in *.
  case_match; [done|]. by rewrite ok_check.
Qed.

(** The joint configuration before the changes are applied. *)
Definition doubled (cfg : Configuration.t) : Configuration.t :=
  with_outgoing (fun o => o ∪ incoming_voters cfg) cfg.

Lemma doubled_ok tracker : ok_tracker tracker -> joint (ProgressTracker.conf tracker) = false ->
  incoming_voters (ProgressTracker.conf tracker) <> ∅ ->
  ok_config (doubled (ProgressTracker.conf tracker)) (tracked tracker).
Proof.
  intros [Hr Ha] Hj%joint_false Hne. split.
  - intros id. specialize (Hr id). unfold Role.view, doubled in *. cbn [fst snd] in *. autorewrite with conf.
    rewrite Hj in *. rewrite (bool_decide_eq_false_2 (id ∈ ∅)) in Hr by set_solver.
    rewrite union_empty_l_L. revert Hr. unfold Role.ok. simpl.
    destruct (bool_decide (id ∈ incoming_voters _)), (IncrChangeMap.contains _ _),
      (bool_decide (id ∈ Configuration.learners _)), (bool_decide (id ∈ Configuration.learners_next _)); done.
  - unfold doubled. autorewrite with conf. set_solver.
Qed.

Lemma enter_joint_run tracker auto ccs : ok_tracker tracker ->
  let cfg := ProgressTracker.conf tracker in
  let st := applied (doubled cfg) tracker ccs in
  Changer.enter_joint tracker auto ccs =
  if joint cfg then Err (ConfChangeError "config is already joint")
  else if bool_decide (incoming_voters cfg = ∅) then Err (ConfChangeError "can't make a zero-voter config joint")
  else if bool_decide (incoming_voters st.1 = ∅) then Err (ConfChangeError "removed all voters")
  else Ok (st.1 <| Configuration.auto_leave := auto |>, IncrChangeMap.changes st.2).
Proof.
  intros Hok. simpl. unfold Changer.enter_joint. destruct (joint _) eqn:Hj; [done|].
  rewrite ok_check_and_copy by done. cbn [result_bind]. case_bool_decide as Hne; [done|].
  fold (doubled (ProgressTracker.conf tracker)). unfold Changer.apply.
  fold (applied (doubled (ProgressTracker.conf tracker)) tracker ccs).
  pose proof (apply_ok_config ccs _ _ (doubled_ok _ Hok Hj Hne)) as Hok'. cbv zeta in Hok'.
  pose proof (apply_outgoing ccs (doubled (ProgressTracker.conf tracker), tracked tracker)) as Ho.
  fold (applied (doubled (ProgressTracker.conf tracker)) tracker ccs) in Hok', Ho.
  case_bool_decide; [done|]. cbn [result_bind].
  destruct (applied _ _ _) as [cfg' prs']. cbn [fst snd] in *.
  rewrite ok_check; [done|]. destruct Hok' as [Hr' _]. split; [exact Hr'|].
  autorewrite with conf. rewrite Ho. unfold doubled. autorewrite with conf. set_solver.
Qed.

(** The configuration after leaving a joint one. *)
Definition left_joint (cfg : Configuration.t) : Configuration.t :=
  Configuration.mk (Joint.mk (Joint.incoming (Configuration.voters cfg)) (Majority.mk ∅))
    (Configuration.learners cfg ∪ Configuration.learners_next cfg) ∅ false.

Lemma drop_outgoing_contains cfg prs ids id :
  IncrChangeMap.contains (Changer.drop_outgoing cfg prs ids) id =
  if bool_decide (id ∈ ids /\ id ∉ incoming_voters cfg /\ id ∉ Configuration.learners cfg) then false
  else IncrChangeMap.contains prs id.
Proof.
  unfold Changer.drop_outgoing. revert prs. induction ids as [|x ids IH]; intros prs.
  { by rewrite bool_decide_eq_false_2 by set_solver. }
  cbn [fold_left]. rewrite IH. case_bool_decide as H1.
  { rewrite bool_decide_eq_true_2; [done|]. set_solver. }
  destruct (decide (x = id)) as [->|Hne].
  - case_bool_decide; simpl; [rewrite bool_decide_eq_false_2 by set_solver; done|].
    case_bool_decide; simpl; [rewrite bool_decide_eq_false_2 by set_solver; done|].
    rewrite contains_push, Z.eqb_refl, (bool_decide_eq_true_2 (id ∈ _ /\ _)); [done|]. set_solver.
  - rewrite (bool_decide_eq_false_2 (_ ∈ x :: ids /\ _)) by set_solver.
    case_match; [|done]. rewrite contains_push. by rewrite (proj2 (Z.eqb_neq _ _) Hne).
Qed.

Lemma drop_outgoing_base cfg prs ids :
  IncrChangeMap.base (Changer.drop_outgoing cfg prs ids) = IncrChangeMap.base prs.
Proof.
  unfold Changer.drop_outgoing. revert prs. induction ids as [|x ids IH]; intros prs; [done|].
  cbn [fold_left]. rewrite IH. by case_match.
Qed.

(** The change log of [leave_joint]. *)
Definition dropped (tracker : ProgressTracker.t) : IncrChangeMap.t :=
  let cfg := ProgressTracker.conf tracker in
  let cfg' := with_learners_next (fun _ => ∅) (with_learners (fun l => l ∪ Configuration.learners_next cfg) cfg) in
  Changer.drop_outgoing cfg' (tracked tracker) (set_iter (outgoing_voters cfg)).

Lemma left_joint_ok tracker : ok_tracker tracker ->
  ok_config (left_joint (ProgressTracker.conf tracker)) (dropped tracker).
Proof.
  intros [Hr Ha]. split; [|done]. intros id. specialize (Hr id).
  unfold Role.view, dropped in *. cbn [fst snd] in *. rewrite drop_outgoing_contains. autorewrite with conf.
  unfold left_joint, incoming_voters, outgoing_voters in *. cbn [Configuration.voters Configuration.learners
    Configuration.learners_next Joint.incoming Joint.outgoing Majority.voters] in *.
  rewrite (bool_decide_eq_false_2 (id ∈ (∅ : gset Z))) by set_solver.
  revert Hr. unfold Role.ok. cbn [Role.trk Role.inc Role.out Role.lrn Role.nxt].
  rewrite (bool_decide_ext (id ∈ Configuration.learners _ ∪ _) (id ∈ Configuration.learners (ProgressTracker.conf tracker)
    \/ id ∈ Configuration.learners_next (ProgressTracker.conf tracker))) by set_solver.
  repeat case_bool_decide; destruct (IncrChangeMap.contains _ _); simpl; try done;
    autorewrite with hash in *; set_solver.
Qed.

Lemma leave_joint_run tracker : ok_tracker tracker ->
  Changer.leave_joint tracker =
  if negb (joint (ProgressTracker.conf tracker)) then Err (ConfChangeError "can't leave a non-joint config")
  else Ok (left_joint (ProgressTracker.conf tracker), IncrChangeMap.changes (dropped tracker)).
Proof.
  intros Hok. unfold Changer.leave_joint. destruct (joint _) eqn:Hj; [|done]. cbn [negb].
  rewrite ok_check_and_copy by done. cbn [result_bind]. apply joint_true in Hj.
  rewrite bool_decide_eq_false_2 by done. cbv zeta. autorewrite with conf.
  fold (dropped tracker).
  match goal with |- context [check_invariants ?c _] => change c with (left_joint (ProgressTracker.conf tracker)) end.
  by rewrite ok_check by (by apply left_joint_ok).
Qed.
End operations.

(** ** Transitions of a tracker *)
Section transitions.
Context `{HashOrder} `{ConfigurationDebug}.

(** An accepted change is applied with [apply_conf]; between changes the
    tracker is used in ways that keep the configuration and the tracked peers. *)
Inductive conf_step (tr : ProgressTracker.t) : ProgressTracker.t -> Prop :=
  | step_simple ccs cfg changes next : Changer.simple tr ccs = Ok (cfg, changes) ->
      conf_step tr (ProgressTracker.apply_conf cfg changes next tr)
  | step_enter auto ccs cfg changes next : Changer.enter_joint tr auto ccs = Ok (cfg, changes) ->
      conf_step tr (ProgressTracker.apply_conf cfg changes next tr)
  | step_leave cfg changes next : Changer.leave_joint tr = Ok (cfg, changes) ->
      conf_step tr (ProgressTracker.apply_conf cfg changes next tr)
  | step_other tr' : ProgressTracker.conf tr' = ProgressTracker.conf tr ->
      dom (ProgressTracker.progress tr') = dom (ProgressTracker.progress tr) ->
      conf_step tr tr'.

Definition role_of (tr : ProgressTracker.t) (id : Z) : Role.t :=
  Role.view (ProgressTracker.conf tr, tracked tr) id.

Lemma tracked_contains tr id :
  IncrChangeMap.contains (tracked tr) id = bool_decide (id ∈ dom (ProgressTracker.progress tr)).
Proof. unfold IncrChangeMap.contains, tracked. simpl. apply bool_decide_ext. by rewrite elem_of_dom. Qed.

Lemma base_mk (prs : IncrChangeMap.t) b : IncrChangeMap.base prs = b ->
  IncrChangeMap.mk (IncrChangeMap.changes prs) b = prs.
Proof. destruct prs. by intros <-. Qed.

(** An accepted simple change. *)
Lemma simple_accepted tr ccs cfg changes next :
  ok_tracker tr -> Changer.simple tr ccs = Ok (cfg, changes) ->
  let tr' := ProgressTracker.apply_conf cfg changes next tr in
  ok_tracker tr' /\ outgoing_voters (ProgressTracker.conf tr) = ∅ /\ outgoing_voters cfg = ∅ /\
  incoming_voters cfg <> ∅ /\
  (size (incoming_voters cfg ∖ incoming_voters (ProgressTracker.conf tr))
   + size (incoming_voters (ProgressTracker.conf tr) ∖ incoming_voters cfg) <= 1)%nat /\
  forall id, role_of tr' id = Role_run id ccs (role_of tr id).
Proof.
  intros Hok. rewrite simple_run by done. destruct (joint _) eqn:Hj; [done|]. apply joint_false in Hj.
  case_bool_decide; [done|]. case_match eqn:Hs; [done|]. intros [= <- <-]. apply Nat.ltb_ge in Hs.
  pose proof (apply_ok_config ccs _ _ Hok) as Hok'. cbv zeta in Hok'.
  assert (IncrChangeMap.mk (IncrChangeMap.changes (applied (ProgressTracker.conf tr) tr ccs).2)
    (ProgressTracker.progress tr) = (applied (ProgressTracker.conf tr) tr ccs).2) as Eb.
  { apply base_mk, apply_base. }
  split; [apply apply_conf_ok; by rewrite Eb|]. split; [done|].
  split; [unfold applied; rewrite apply_outgoing; exact Hj|]. split; [done|]. split; [exact Hs|].
  intros id. unfold role_of. rewrite <-apply_role. fold (applied (ProgressTracker.conf tr) tr ccs).
  unfold Role.view. cbn [fst snd]. by rewrite apply_conf_conf, apply_conf_contains, Eb.
Qed.

(** The role at the moment a joint configuration is entered, before the changes. *)
Definition double (r : Role.t) : Role.t :=
  Role.mk (Role.inc r) (Role.out r || Role.inc r) (Role.lrn r) (Role.nxt r) (Role.trk r).

Lemma enter_accepted tr auto ccs cfg changes next :
  ok_tracker tr -> Changer.enter_joint tr auto ccs = Ok (cfg, changes) ->
  let tr' := ProgressTracker.apply_conf cfg changes next tr in
  ok_tracker tr' /\ outgoing_voters (ProgressTracker.conf tr) = ∅ /\
  incoming_voters (ProgressTracker.conf tr) <> ∅ /\
  outgoing_voters cfg = incoming_voters (ProgressTracker.conf tr) /\ incoming_voters cfg <> ∅ /\
  Configuration.auto_leave cfg = auto /\
  forall id, role_of tr' id = Role_run id ccs (double (role_of tr id)).
Proof.
  intros Hok. rewrite enter_joint_run by done. destruct (joint _) eqn:Hj; [done|].
  case_bool_decide as Hne; [done|]. case_bool_decide as Hne'; [done|]. intros [= <- <-].
  pose proof (apply_ok_config ccs _ _ (doubled_ok _ Hok Hj Hne)) as [Hr _]. cbv zeta in Hr.
  apply joint_false in Hj. set (st := applied (doubled (ProgressTracker.conf tr)) tr ccs).
  assert (IncrChangeMap.mk (IncrChangeMap.changes st.2) (ProgressTracker.progress tr) = st.2) as Eb.
  { apply base_mk, apply_base. }
  assert (outgoing_voters st.1 = incoming_voters (ProgressTracker.conf tr)) as Ho.
  { unfold st, applied. rewrite apply_outgoing. unfold doubled. cbn [fst]. autorewrite with conf. set_solver. }
  assert (Hviews : forall id, Role.view st id = Role_run id ccs (double (role_of tr id))).
  { intros id. unfold st, applied. rewrite apply_role. f_equal. unfold role_of, double, Role.view, doubled.
    cbn [fst snd Role.inc Role.out Role.lrn Role.nxt Role.trk]. autorewrite with conf. f_equal.
    rewrite <-bool_decide_or. apply bool_decide_ext. set_solver. }
  split; [|split; [done|split; [done|split; [exact Ho|split; [done|split; [done|]]]]]].
  - apply apply_conf_ok. rewrite Eb. split; [exact Hr|]. autorewrite with conf. by rewrite Ho.
  - intros id. rewrite <-Hviews. unfold role_of, Role.view. cbn [fst snd].
    by rewrite apply_conf_conf, apply_conf_contains, Eb.
Qed.

(** What leaving a joint configuration does to a role. *)
Definition leave (r : Role.t) : Role.t :=
  let lrn := Role.lrn r || Role.nxt r in
  Role.mk (Role.inc r) false lrn false
    (if Role.out r && negb (Role.inc r) && negb lrn then false else Role.trk r).

Lemma leave_accepted tr cfg changes next :
  ok_tracker tr -> Changer.leave_joint tr = Ok (cfg, changes) ->
  let tr' := ProgressTracker.apply_conf cfg changes next tr in
  ok_tracker tr' /\ outgoing_voters (ProgressTracker.conf tr) <> ∅ /\
  cfg = left_joint (ProgressTracker.conf tr) /\ forall id, role_of tr' id = leave (role_of tr id).
Proof.
  intros Hok. rewrite leave_joint_run by done. destruct (joint _) eqn:Hj; [|done]. apply joint_true in Hj.
  intros [= <- <-].
  assert (IncrChangeMap.mk (IncrChangeMap.changes (dropped tr)) (ProgressTracker.progress tr) = dropped tr) as Eb.
  { apply base_mk. unfold dropped. by rewrite drop_outgoing_base. }
  split; [apply apply_conf_ok; rewrite Eb; by apply left_joint_ok|]. split; [done|]. split; [done|].
  intros id. unfold role_of, Role.view, leave. cbn [fst snd Role.inc Role.out Role.lrn Role.nxt Role.trk].
  rewrite apply_conf_conf, apply_conf_contains, Eb. unfold dropped. rewrite drop_outgoing_contains.
  autorewrite with conf. unfold left_joint, incoming_voters, outgoing_voters.
  cbn [Configuration.voters Configuration.learners Configuration.learners_next Joint.incoming Joint.outgoing Majority.voters].
  rewrite !(bool_decide_eq_false_2 (id ∈ (∅ : gset Z))) by set_solver.
  rewrite <-bool_decide_or, <-!bool_decide_not, <-!bool_decide_and.
  assert (forall (b : bool) (P Q R S : Prop) `{!Decision P, !Decision Q, !Decision R, !Decision S} (x : bool),
    (P <-> Q) -> (R <-> S) -> Role.mk b false (bool_decide P) false (if bool_decide R then false else x)
    = Role.mk b false (bool_decide Q) false (if bool_decide S then false else x)) as Hext.
  { intros b P Q R S ? ? ? ? x HP HR. by rewrite (bool_decide_ext P Q), (bool_decide_ext R S). }
  apply Hext; [set_solver|]. rewrite elem_of_set_iter. set_solver.
Qed.

Lemma ok_same_members tr tr' : ok_tracker tr -> ProgressTracker.conf tr' = ProgressTracker.conf tr ->
  dom (ProgressTracker.progress tr') = dom (ProgressTracker.progress tr) -> ok_tracker tr'.
Proof.
  intros [Hr Ha] Hc Hd. split; rewrite Hc; [|done]. intros id. specialize (Hr id). unfold Role.view in *.
  cbn [fst snd] in *. by rewrite tracked_contains, Hd, <-tracked_contains.
Qed.

Lemma conf_step_ok tr tr' : ok_tracker tr -> conf_step tr tr' -> ok_tracker tr'.
Proof.
  intros Hok [ccs cfg changes next E|auto ccs cfg changes next E|cfg changes next E|? ? ?].
  - by eapply simple_accepted.
  - by eapply enter_accepted.
  - by eapply leave_accepted.
  - by eapply ok_same_members.
Qed.

Lemma ok_new n : ok_tracker (ProgressTracker.new n).
Proof. by split. Qed.

Lemma reachable_ok tr tr' : ok_tracker tr -> rtc conf_step tr tr' -> ok_tracker tr'.
Proof. intros Hok Hrun. induction Hrun; [done|]. eauto using conf_step_ok. Qed.

(** A change and its detour through a joint configuration agree on every role. *)
Lemma leave_step ty r : Role.ok r = true -> leave (Role.step ty r) = Role.step ty (leave r).
Proof. destruct ty, r as [[] [] [] [] []]; done. Qed.

Lemma leave_run id ccs r : Role.ok r = true -> leave (Role_run id ccs r) = Role_run id ccs (leave r).
Proof.
  revert r. induction ccs as [|cc ccs IH]; intros r Hr; [done|]. simpl.
  case_match; [|by apply IH]. rewrite IH by (by apply Role.step_ok). by rewrite leave_step.
Qed.

Lemma leave_double r : Role.ok r = true -> Role.out r = false -> leave (double r) = r /\ Role.ok (double r) = true.
Proof. destruct r as [[] [] [] [] []]; done. Qed.

Lemma role_of_ok tr id : ok_tracker tr -> Role.ok (role_of tr id) = true.
Proof. intros [Hr _]. apply Hr. Qed.

Lemma conf_ext (c c' : Configuration.t) :
  incoming_voters c = incoming_voters c' -> outgoing_voters c = outgoing_voters c' ->
  Configuration.learners c = Configuration.learners c' ->
  Configuration.learners_next c = Configuration.learners_next c' ->
  Configuration.auto_leave c = Configuration.auto_leave c' -> c = c'.
Proof.
  destruct c as [[[i] [o]] l n a], c' as [[[i'] [o']] l' n' a']. unfold incoming_voters, outgoing_voters. simpl. congruence.
Qed.

Lemma views_conf tr tr' : (forall id, role_of tr id = role_of tr' id) ->
  Configuration.auto_leave (ProgressTracker.conf tr) = Configuration.auto_leave (ProgressTracker.conf tr') ->
  ProgressTracker.conf tr = ProgressTracker.conf tr' /\
  dom (ProgressTracker.progress tr) = dom (ProgressTracker.progress tr').
Proof.
  intros Hv Ha. unfold role_of, Role.view in Hv. cbn [fst snd] in Hv.
  split; [apply conf_ext; try done|]; apply set_eq; intros id; specialize (Hv id); simplify_eq;
    rewrite ?tracked_contains in *; eapply bool_decide_iff; eassumption.
Qed.
End transitions.

(** ** Restoring a configuration *)
Section restoring.
Context `{HashOrder} `{ConfigurationDebug}.

Lemma Role_run_app id l1 l2 r : Role_run id (l1 ++ l2) r = Role_run id l2 (Role_run id l1 r).
Proof. apply fold_left_app. Qed.

Lemma Role_run_cons id cc ccs r : Role_run id (cc :: ccs) r =
  Role_run id ccs (if (ConfChangeSingle.node_id cc =? id) && negb (id =? 0)
                   then Role.step (ConfChangeSingle.change_type cc) r else r).
Proof. done. Qed.

Lemma Role_run_map id ty ids r : NoDup ids ->
  Role_run id (map (fun i => new_conf_change_single i ty) ids) r =
  if bool_decide (id ∈ ids) && negb (id =? 0) then Role.step ty r else r.
Proof.
  intros Hnd. revert r. induction Hnd as [|x ids Hx Hnd IH]; intros r; [done|]. simpl. rewrite IH.
  unfold new_conf_change_single. cbn. destruct (Z.eqb_spec x id) as [->|Hne]; simpl.
  - rewrite (bool_decide_eq_false_2 (id ∈ ids)) by done. rewrite (bool_decide_eq_true_2 (id ∈ id :: ids)) by left.
    by destruct (id =? 0).
  - by rewrite (bool_decide_ext (id ∈ x :: ids) (id ∈ ids)) by set_solver.
Qed.

(** An accepted single change alters at most one incoming voter. *)
Lemma one_change_size tr cc : ok_tracker tr ->
  let cfg := ProgressTracker.conf tr in let st := applied cfg tr [cc] in
  (size (incoming_voters st.1 ∖ incoming_voters cfg) + size (incoming_voters cfg ∖ incoming_voters st.1) <= 1)%nat.
Proof.
  intros Hok cfg st.
  assert (Hsame : forall id, id <> ConfChangeSingle.node_id cc ->
    (id ∈ incoming_voters st.1 <-> id ∈ incoming_voters cfg)).
  { intros id Hid. pose proof (apply_role [cc] (cfg, tracked tr) id) as E. apply (f_equal Role.inc) in E.
    cbn [Role_run fold_left] in E. rewrite (proj2 (Z.eqb_neq _ _)) in E by done.
    by apply bool_decide_iff in E. }
  set (n := ConfChangeSingle.node_id cc) in *. rewrite <-size_union by set_solver.
  rewrite <-(size_singleton (C:=gset Z) n). apply subseteq_size. intros id.
  destruct (decide (id = n)); [set_solver|]. specialize (Hsame id). set_solver.
Qed.

Lemma restore_simple_run next ccs tr :
  ok_tracker tr -> outgoing_voters (ProgressTracker.conf tr) = ∅ ->
  (forall k, (k < length ccs)%nat -> exists id, Role.inc (Role_run id (take (S k) ccs) (role_of tr id)) = true) ->
  exists tr', restore_simple next ccs tr = Ret (Ok tt, tr') /\ ok_tracker tr' /\
    outgoing_voters (ProgressTracker.conf tr') = ∅ /\
    forall id, role_of tr' id = Role_run id ccs (role_of tr id).
Proof.
  revert tr. induction ccs as [|cc ccs IH]; intros tr Hok Ho Hne.
  { exists tr. done. }
  destruct (Changer.simple tr [cc]) as [[cfg changes]|e] eqn:E; revert E.
  - intros E. destruct (simple_accepted tr [cc] cfg changes next Hok E) as (Hok' & _ & Ho' & _ & _ & Hv).
    cbv zeta in *. set (tr1 := ProgressTracker.apply_conf cfg changes next tr) in *.
    destruct (IH tr1) as (tr' & Hr & Hok2 & Ho2 & Hv2); [done|by unfold tr1; rewrite apply_conf_conf| |].
    { intros k Hk. destruct (Hne (S k)) as [id Hid]; [simpl; lia|]. exists id. by rewrite Hv. }
    exists tr'. split; [|split; [done|split; [done|]]].
    + cbn [restore_simple]. prog_unfold. by rewrite E.
    + intros id. by rewrite Hv2, Hv.
  - rewrite simple_run by done. rewrite (proj2 (joint_false _) Ho).
    pose proof (one_change_size tr cc Hok) as Hs. cbv zeta in Hs. rewrite (proj2 (Nat.ltb_ge _ _) Hs).
    case_bool_decide as Hempty; [|done]. exfalso. destruct (Hne 0%nat) as [id Hid]; [simpl; lia|].
    change (take 1 (cc :: ccs)) with [cc] in Hid. unfold role_of in Hid. rewrite <-apply_role in Hid.
    unfold applied in Hempty. unfold Role.view in Hid. cbn [Role.inc] in Hid.
    apply bool_decide_eq_true in Hid. rewrite Hempty in Hid. set_solver.
Qed.

(** A role that is an incoming voter stays one when the peer is only added. *)
Lemma Role_run_stays id ccs r : Role.inc r = true ->
  (forall cc, cc ∈ ccs -> ConfChangeSingle.node_id cc = id -> ConfChangeSingle.change_type cc = AddNode) ->
  Role.inc (Role_run id ccs r) = true.
Proof.
  revert r. induction ccs as [|cc ccs IH]; intros r Hr Hcc; [done|]. simpl. apply IH; [|set_solver].
  case_match eqn:E; [|done]. apply andb_true_iff in E as [E%Z.eqb_eq _].
  rewrite Hcc by (done || left). simpl. by destruct (Role.trk r).
Qed.

Lemma prefix_has_voter v ccs r k :
  v <> 0 -> (k < length (new_conf_change_single v AddNode :: ccs))%nat ->
  (forall cc, cc ∈ ccs -> ConfChangeSingle.node_id cc = v -> ConfChangeSingle.change_type cc = AddNode) ->
  Role.inc (Role_run v (take (S k) (new_conf_change_single v AddNode :: ccs)) r) = true.
Proof.
  intros Hv Hk Hcc. cbn [take]. rewrite Role_run_cons.
  change (ConfChangeSingle.node_id (new_conf_change_single v AddNode)) with v.
  change (ConfChangeSingle.change_type (new_conf_change_single v AddNode)) with AddNode.
  rewrite Z.eqb_refl, (proj2 (Z.eqb_neq v 0) Hv). apply Role_run_stays.
  - simpl. by destruct (Role.trk r).
  - intros cc Hin. apply Hcc. eapply elem_of_prefix; [exact Hin|apply prefix_take].
Qed.

(** The state a follower rebuilds the configuration in. *)
Lemma role_of_new n id : role_of (ProgressTracker.new n) id = Role.mk false false false false false.
Proof.
  unfold role_of, Role.view, incoming_voters, outgoing_voters. simpl.
  rewrite !(bool_decide_eq_false_2 (id ∈ (∅ : gset Z))) by set_solver. done.
Qed.

Lemma set_iter_voter (s : gset Z) : s <> ∅ -> exists v l, set_iter s = v :: l /\ v ∈ s.
Proof.
  intros Hs. destruct (set_iter s) as [|v l] eqn:E.
  - apply set_choose_L in Hs as [v Hv]. rewrite <-elem_of_set_iter, E in Hv. set_solver.
  - exists v, l. split; [done|]. rewrite <-elem_of_set_iter, E. left.
Qed.

Definition members (c : Configuration.t) : gset Z :=
  incoming_voters c ∪ outgoing_voters c ∪ Configuration.learners c.

Lemma ok_members tr : ok_tracker tr -> dom (ProgressTracker.progress tr) = members (ProgressTracker.conf tr).
Proof.
  intros Hok. apply set_eq. intros id. pose proof (role_of_ok tr id Hok) as Hr. unfold role_of, Role.view, Role.ok in Hr.
  cbn [fst snd Role.inc Role.out Role.lrn Role.nxt Role.trk] in Hr. rewrite tracked_contains in Hr.
  unfold members. repeat case_bool_decide; set_solver.
Qed.

(** The incoming half of the list of changes rebuilds the roles from the doubled
    role of an outgoing voter. *)
Lemma rebuild_role tr id n : ok_tracker tr -> 0 ∉ members (ProgressTracker.conf tr) ->
  let cs := Configuration.to_conf_state (ProgressTracker.conf tr) in
  let r := role_of tr id in
  Role_run id (to_conf_change_single cs).1 (role_of (ProgressTracker.new n) id) =
    Role.mk (Role.out r) false false false (Role.out r) /\
  Role_run id (to_conf_change_single cs).2 (double (Role.mk (Role.out r) false false false (Role.out r))) = r.
Proof.
  intros Hok Hzero cs r. pose proof (role_of_ok tr id Hok) as Hr. fold r in Hr. rewrite role_of_new.
  assert (r = role_of tr id) as Er by done.
  assert (Hz : id = 0 -> r = Role.mk false false false false false).
  { intros ->. rewrite <-ok_members in Hzero by done. revert Hr. rewrite Er. unfold role_of, Role.view. cbn [fst snd].
    rewrite tracked_contains, (bool_decide_eq_false_2 (0 ∈ dom _)) by done. unfold Role.ok. simpl.
    repeat case_bool_decide; done. }
  unfold to_conf_change_single. cbn [fst snd]. rewrite !Role_run_app, !Role_run_map by apply NoDup_set_iter.
  unfold cs, Configuration.to_conf_state, Majority.raw_slice, Majority.ids. fields.
  rewrite !(bool_decide_ext (id ∈ set_iter _) _ (elem_of_set_iter _ _)).
  fold (incoming_voters (ProgressTracker.conf tr)) (outgoing_voters (ProgressTracker.conf tr)).
  change (bool_decide (id ∈ incoming_voters (ProgressTracker.conf tr))) with (Role.inc (role_of tr id)).
  change (bool_decide (id ∈ outgoing_voters (ProgressTracker.conf tr))) with (Role.out (role_of tr id)).
  change (bool_decide (id ∈ Configuration.learners (ProgressTracker.conf tr))) with (Role.lrn (role_of tr id)).
  change (bool_decide (id ∈ Configuration.learners_next (ProgressTracker.conf tr))) with (Role.nxt (role_of tr id)).
  rewrite <-Er. clearbody r. destruct (Z.eqb_spec id 0) as [Hid|Hid]; [rewrite Hz by done; done|].
  clear - Hr. by destruct r as [[] [] [] [] []].
Qed.

Lemma changes_of_conf_state (c : Configuration.t) :
  to_conf_change_single (Configuration.to_conf_state c) =
  (map (fun id => new_conf_change_single id AddNode) (set_iter (outgoing_voters c)),
   map (fun id => new_conf_change_single id RemoveNode) (set_iter (outgoing_voters c)) ++
   map (fun id => new_conf_change_single id AddNode) (set_iter (incoming_voters c)) ++
   map (fun id => new_conf_change_single id AddLearnerNode) (set_iter (Configuration.learners c)) ++
   map (fun id => new_conf_change_single id AddLearnerNode) (set_iter (Configuration.learners_next c))).
Proof. done. Qed.

Lemma set_iter_empty (s : gset Z) : s = ∅ -> set_iter s = [].
Proof. intros ->. apply Permutation_nil. symmetry. etrans; [apply set_iter_perm|]. by rewrite elements_empty. Qed.

Lemma role_of_inc tr id : Role.inc (role_of tr id) = bool_decide (id ∈ incoming_voters (ProgressTracker.conf tr)).
Proof. done. Qed.
Lemma role_of_out tr id : Role.out (role_of tr id) = bool_decide (id ∈ outgoing_voters (ProgressTracker.conf tr)).
Proof. done. Qed.

(** In the incoming list of changes a voter is only ever added after the
    removal of the outgoing voters. *)
Lemma voter_only_added tr v l :
  ok_tracker tr -> v ∈ incoming_voters (ProgressTracker.conf tr) ->
  (forall x, x ∈ l -> x ∈ set_iter (incoming_voters (ProgressTracker.conf tr))) ->
  forall cc, cc ∈ map (fun i => new_conf_change_single i AddNode) l
    ++ map (fun i => new_conf_change_single i AddLearnerNode) (set_iter (Configuration.learners (ProgressTracker.conf tr)))
    ++ map (fun i => new_conf_change_single i AddLearnerNode) (set_iter (Configuration.learners_next (ProgressTracker.conf tr))) ->
  ConfChangeSingle.node_id cc = v -> ConfChangeSingle.change_type cc = AddNode.
Proof.
  intros Hok Hv Hl cc. pose proof (role_of_ok tr v Hok) as Hr. unfold role_of, Role.view, Role.ok in Hr.
  cbn [fst snd Role.inc Role.out Role.lrn Role.nxt Role.trk] in Hr. rewrite (bool_decide_eq_true_2 _ Hv) in Hr.
  rewrite !elem_of_app, !list_elem_of_fmap.
  intros [(x & -> & Hx)|[(x & -> & Hx)|(x & -> & Hx)]]; [done|..]; cbn; intros ->; exfalso;
    apply elem_of_set_iter in Hx; rewrite (bool_decide_eq_true_2 _ Hx) in Hr; repeat case_bool_decide;
    destruct (IncrChangeMap.contains _ _); done.
Qed.

Lemma restore_not_joint tr n next : ok_tracker tr -> incoming_voters (ProgressTracker.conf tr) <> ∅ ->
  0 ∉ members (ProgressTracker.conf tr) -> outgoing_voters (ProgressTracker.conf tr) = ∅ ->
  exists tr', restore next (Configuration.to_conf_state (ProgressTracker.conf tr)) (ProgressTracker.new n) = Ret (Ok tt, tr') /\
    (forall id, role_of tr' id = role_of tr id) /\
    Configuration.auto_leave (ProgressTracker.conf tr') = Configuration.auto_leave (ProgressTracker.conf tr).
Proof.
  intros Hok Hne Hzero Ho. pose proof (fun id => rebuild_role tr id n Hok Hzero) as Hrole. cbv zeta in Hrole.
  unfold restore. rewrite changes_of_conf_state in *. cbn [fst snd] in Hrole.
  rewrite (set_iter_empty _ Ho) in *. cbn [map app] in *.
  destruct (set_iter_voter _ Hne) as (v & l & El & Hv).
  assert (v <> 0) by (intros ->; apply Hzero; unfold members; set_solver).
  pose proof (voter_only_added tr v l Hok Hv ltac:(rewrite El; set_solver)) as Hadd.
  rewrite El in *. cbn [map app] in *.
  match goal with |- context [restore_simple next ?ccs] => destruct (restore_simple_run next ccs (ProgressTracker.new n))
    as (tr' & E & Hok' & Ho' & Hv') end; [apply ok_new|done| |].
  { intros k Hk. exists v. by apply prefix_has_voter. }
  exists tr'. split; [exact E|]. split.
  - intros id. rewrite Hv', role_of_new. destruct (Hrole id) as [_ Hr]. etrans; [|exact Hr]. f_equal.
    rewrite role_of_out, Ho. by rewrite bool_decide_eq_false_2 by set_solver.
  - destruct Hok as [_ Ha], Hok' as [_ Ha']. by rewrite Ha, Ha'.
Qed.

Lemma restore_joint tr n next : ok_tracker tr -> incoming_voters (ProgressTracker.conf tr) <> ∅ ->
  0 ∉ members (ProgressTracker.conf tr) -> outgoing_voters (ProgressTracker.conf tr) <> ∅ ->
  exists tr', restore next (Configuration.to_conf_state (ProgressTracker.conf tr)) (ProgressTracker.new n) = Ret (Ok tt, tr') /\
    (forall id, role_of tr' id = role_of tr id) /\
    Configuration.auto_leave (ProgressTracker.conf tr') = Configuration.auto_leave (ProgressTracker.conf tr).
Proof.
  intros Hok Hne Hzero Ho. pose proof (fun id => rebuild_role tr id n Hok Hzero) as Hrole. cbv zeta in Hrole.
  unfold restore. set (cs := Configuration.to_conf_state (ProgressTracker.conf tr)) in *.
  destruct (to_conf_change_single cs) as [outgoing incoming] eqn:Ecs. cbn [fst snd] in Hrole.
  destruct (set_iter_voter _ Ho) as (v & l & El & Hv).
  assert (v <> 0) by (intros ->; apply Hzero; unfold members; set_solver).
  assert (outgoing = new_conf_change_single v AddNode :: map (fun id => new_conf_change_single id AddNode) l) as Eo.
  { unfold cs in Ecs. rewrite changes_of_conf_state in Ecs. simplify_eq/=. by rewrite El. }
  destruct (restore_simple_run next outgoing (ProgressTracker.new n)) as (tr1 & E1 & Hok1 & Ho1 & Hv1);
    [apply ok_new|done| |].
  { intros k Hk. exists v. rewrite Eo in *. apply prefix_has_voter; [done|done|].
    intros cc (? & -> & _)%list_elem_of_fmap. done. }
  assert (Hr1 : forall id, role_of tr1 id = Role.mk (Role.out (role_of tr id)) false false false (Role.out (role_of tr id))).
  { intros id. rewrite Hv1. apply Hrole. }
  assert (incoming_voters (ProgressTracker.conf tr1) <> ∅) as Hne1.
  { intros Hemp. pose proof (f_equal Role.inc (Hr1 v)) as Hi. rewrite role_of_inc, role_of_out in Hi. cbn [Role.inc] in Hi.
    rewrite (bool_decide_eq_true_2 _ Hv), Hemp in Hi. apply bool_decide_eq_true in Hi. set_solver. }
  set (auto := ConfState.auto_leave cs) in *. pose proof (enter_joint_run tr1 auto incoming Hok1) as Ej. cbv zeta in Ej.
  rewrite (proj2 (joint_false _) Ho1), (bool_decide_eq_false_2 _ Hne1) in Ej.
  set (st := applied (doubled (ProgressTracker.conf tr1)) tr1 incoming) in *.
  rewrite bool_decide_eq_false_2 in Ej.
  2: { intros Hemp. apply set_choose_L in Hne as [w Hw].
       pose proof (apply_role incoming (doubled (ProgressTracker.conf tr1), tracked tr1) w) as Hst.
       change (fold_left _ _ _) with st in Hst. apply (f_equal Role.inc) in Hst.
       assert (Role.view (doubled (ProgressTracker.conf tr1), tracked tr1) w = double (role_of tr1 w)) as Ed.
       { unfold role_of, double, Role.view, doubled. cbn [fst snd Role.inc Role.out Role.lrn Role.nxt Role.trk].
         autorewrite with conf. f_equal. rewrite <-bool_decide_or. apply bool_decide_ext. set_solver. }
       rewrite Ed, Hr1 in Hst. destruct (Hrole w) as [_ Hr]. rewrite Hr, role_of_inc in Hst.
       rewrite (bool_decide_eq_true_2 _ Hw) in Hst. unfold Role.view in Hst. cbn [Role.inc] in Hst.
       apply bool_decide_eq_true in Hst. rewrite Hemp in Hst. set_solver. }
  destruct (enter_accepted tr1 auto incoming _ _ next Hok1 Ej) as (_ & _ & _ & _ & _ & Ha & Hv2). cbv zeta in Hv2.
  eexists. split; [|split].
  - rewrite Eo in *. unfold try_bind at 1. erewrite bind_run by exact E1. prog_unfold. rewrite Ej. reflexivity.
  - intros id. rewrite Hv2, Hr1. apply Hrole.
  - rewrite apply_conf_conf, Ha. done.
Qed.
End restoring.

(** ** Properties *)
Section properties.
Context `{HashOrder} `{ConfigurationDebug}.

(** C15 — Configuration-change safety: whenever a change accepted by [simple],
    [enter_joint] or [leave_joint] takes a tracker from one configuration to the
    next, a winning vote under the old configuration and a winning vote under the
    new one have a voter in common that granted both. *)
Theorem conf_change_quorums_intersect (tr tr' : ProgressTracker.t) (check check' : Z -> option bool)
    (Hok : ok_tracker tr) (Hstep : conf_step tr tr')
    (Hne : incoming_voters (ProgressTracker.conf tr) <> ∅)
    (Hw : Joint.vote_result (Configuration.voters (ProgressTracker.conf tr)) check = Won)
    (Hw' : Joint.vote_result (Configuration.voters (ProgressTracker.conf tr')) check' = Won) :
  exists v, v ∈ all_voters (Configuration.voters (ProgressTracker.conf tr)) /\
    v ∈ all_voters (Configuration.voters (ProgressTracker.conf tr')) /\
    check v = Some true /\ check' v = Some true.
Proof.
  apply joint_won in Hw as [Hi Ho]. apply joint_won in Hw' as [Hi' Ho'].
  assert (forall c c' : Majority.Configuration, Majority.voters c = Majority.voters c' -> c = c') as Hinj.
  { intros [] []. simpl. by intros ->. }
  destruct Hstep as [ccs cfg changes next E|auto ccs cfg changes next E|cfg changes next E|? Hc Hd].
  - destruct (simple_accepted tr ccs cfg changes next Hok E) as (_ & _ & _ & Hne' & Hs & _).
    rewrite apply_conf_conf in *. rewrite Nat.add_comm in Hs.
    destruct (won_meet _ _ _ _ Hne Hne' Hs Hi Hi') as (v & ? & ?). exists v. unfold all_voters. set_solver.
  - destruct (enter_accepted tr auto ccs cfg changes next Hok E) as (_ & _ & _ & Hout & _ & _ & _).
    rewrite apply_conf_conf in *. apply Hinj in Hout. unfold all_voters. rewrite Hout in *.
    destruct (won_meet _ _ _ _ Hne Hne ltac:(rewrite difference_diag_L, size_empty; lia) Hi Ho') as (v & ? & ?).
    exists v. set_solver.
  - destruct (leave_accepted tr cfg changes next Hok E) as (_ & _ & -> & _).
    rewrite apply_conf_conf in *.
    destruct (won_meet _ _ _ _ Hne Hne ltac:(rewrite difference_diag_L, size_empty; lia) Hi Hi') as (v & ? & ?).
    exists v. unfold all_voters. simpl. set_solver.
  - rewrite Hc in *.
    destruct (won_meet _ _ _ _ Hne Hne ltac:(rewrite difference_diag_L, size_empty; lia) Hi Hi') as (v & ? & ?).
    exists v. unfold all_voters. set_solver.
Qed.

(** C17 — Configuration invariant: in every tracker reached from a new one through
    accepted changes, exactly the voters and learners are tracked, no learner is a
    voter, a staged learner is an outgoing voter that has left the incoming
    majority, a configuration that is not joint stages nothing and has no
    [auto_leave], and [check_invariants] accepts the tracker. *)
Theorem conf_change_invariant (n : Z) (tr : ProgressTracker.t) (Hrun : rtc conf_step (ProgressTracker.new n) tr) :
  let cfg := ProgressTracker.conf tr in
  dom (ProgressTracker.progress tr) = incoming_voters cfg ∪ outgoing_voters cfg ∪ Configuration.learners cfg /\
  Configuration.learners cfg ## incoming_voters cfg ∪ outgoing_voters cfg /\
  Configuration.learners_next cfg ⊆ outgoing_voters cfg ∖ incoming_voters cfg /\
  (outgoing_voters cfg = ∅ -> Configuration.learners_next cfg = ∅ /\ Configuration.auto_leave cfg = false) /\
  check_invariants cfg (tracked tr) = Ok tt.
Proof.
  pose proof (reachable_ok _ _ (ok_new n) Hrun) as Hok. simpl.
  pose proof (ok_config_valid _ _ Hok) as Hval. split; [by apply ok_members|].
  split; [|split; [|split; [apply (valid_not_joint _ _ Hval)|by apply ok_check]]].
  - intros id Hl Hv. destruct (valid_learners _ _ Hval id Hl). set_solver.
  - intros id Hn. destruct (valid_next _ _ Hval id Hn) as [_ Ho].
    pose proof (role_of_ok tr id Hok) as Hr. unfold role_of, Role.view, Role.ok in Hr.
    cbn [fst snd Role.inc Role.out Role.lrn Role.nxt Role.trk] in Hr.
    rewrite (bool_decide_eq_true_2 _ Hn) in Hr. repeat case_bool_decide; destruct (IncrChangeMap.contains _ _); set_solver.
Qed.

(** [check_invariants] decides validity: it returns [Ok] exactly when every member
    is tracked, learners and voters are disjoint, staged learners are outgoing
    voters and a configuration that is not joint stages nothing; the iteration
    order of the sets can only change the error message. *)
Theorem check_invariants_correct (cfg : Configuration.t) (prs : IncrChangeMap.t) :
  match check_invariants cfg prs with
  | Ok _ => valid cfg prs
  | Err e => ~ valid cfg prs /\ exists msg, e = ConfChangeError msg
  end.
Proof.
  destruct (check_invariants cfg prs) as [[]|e] eqn:E; [by apply check_invariants_valid|].
  split; [intros Hv%check_invariants_valid; congruence|].
  assert (forall f l x, (forall id y, f id = Err y -> exists msg, y = ConfChangeError msg) ->
    try_each f l = Err x -> exists msg, x = ConfChangeError msg) as Htry.
  { intros f l x Hf. induction l as [|id l IH]; simpl; [done|]. destruct (f id) eqn:Ef; [done|].
    intros [= <-]. by eapply Hf. }
  unfold check_invariants in E. unfold result_bind in E.
  destruct (try_each (check_voter prs) _) eqn:E1 in E.
  2: { eapply Htry; [|rewrite E1; exact E]. unfold check_voter. intros id y. case_match; naive_solver. }
  destruct (try_each (check_learner cfg prs) _) eqn:E2 in E.
  2: { eapply Htry; [|rewrite E2; exact E]. unfold check_learner. intros id y. repeat case_match; naive_solver. }
  destruct (try_each (check_learner_next cfg prs) _) eqn:E3 in E.
  2: { eapply Htry; [|rewrite E3; exact E]. unfold check_learner_next. intros id y. repeat case_match; naive_solver. }
  repeat case_match; naive_solver.
Qed.

(** [apply] refines the state machine of one peer: the role of every peer after the
    changes is the result of running the changes that name it, in order, on its
    role; the only error is that no incoming voter is left. *)
Theorem apply_refines_roles (cfg : Configuration.t) (prs : IncrChangeMap.t) (ccs : list ConfChangeSingle.t) :
  let left_voter := exists id, Role.inc (Role_run id ccs (Role.view (cfg, prs) id)) = true in
  match Changer.apply cfg prs ccs with
  | Ok st => left_voter /\ forall id, Role.view st id = Role_run id ccs (Role.view (cfg, prs) id)
  | Err e => e = ConfChangeError "removed all voters" /\ ~ left_voter
  end.
Proof.
  cbv zeta. unfold Changer.apply.
  assert (forall id, Role.inc (Role_run id ccs (Role.view (cfg, prs) id)) = true <->
    id ∈ incoming_voters (fold_left Changer.apply_one ccs (cfg, prs)).1) as Hinc.
  { intros id. rewrite <-apply_role. apply bool_decide_eq_true. }
  case_bool_decide as He; setoid_rewrite Hinc.
  - split; [done|]. rewrite He. set_solver.
  - split; [by apply set_choose_L|]. intros id. apply apply_role.
Qed.

(** C22 — A change made through a joint configuration has the effect of the same change
    made at once: after an accepted [enter_joint], [leave_joint] is accepted too,
    and the role of every peer is then the result of running the changes on its
    role before. *)
Theorem joint_change_equals_direct_change (tr : ProgressTracker.t) (auto : bool) (ccs : list ConfChangeSingle.t)
    (cfg : Configuration.t) (changes : MapChange) (next next' : Z)
    (Hok : ok_tracker tr) (Henter : Changer.enter_joint tr auto ccs = Ok (cfg, changes)) :
  let tr1 := ProgressTracker.apply_conf cfg changes next tr in
  exists cfg' changes', Changer.leave_joint tr1 = Ok (cfg', changes') /\
    forall id, Role.view (cfg', tracked (ProgressTracker.apply_conf cfg' changes' next' tr1)) id
               = Role_run id ccs (Role.view (ProgressTracker.conf tr, tracked tr) id).
Proof.
  destruct (enter_accepted tr auto ccs cfg changes next Hok Henter) as (Hok1 & Ho & Hne & Hout & Hne' & _ & Hv).
  cbv zeta in *. set (tr1 := ProgressTracker.apply_conf cfg changes next tr) in *.
  pose proof (leave_joint_run tr1 Hok1) as El.
  assert (ProgressTracker.conf tr1 = cfg) as Ec by apply apply_conf_conf.
  rewrite Ec, (proj2 (joint_true cfg)) in El by congruence. cbn [negb] in El.
  eexists _, _. split; [exact El|]. intros id.
  destruct (leave_accepted tr1 _ _ next' Hok1 El) as (_ & _ & _ & Hv'). specialize (Hv' id).
  unfold role_of at 1 in Hv'. rewrite apply_conf_conf in Hv'. rewrite Hv', Hv.
  destruct (leave_double (role_of tr id)) as [Hld Hokd].
  - by apply role_of_ok.
  - rewrite role_of_out, Ho. apply bool_decide_eq_false_2. set_solver.
  - by rewrite leave_run, Hld.
Qed.

(** C19 — Round trip: restoring the [ConfState] of a valid configuration into a new
    tracker succeeds, whatever the iteration order of the sets, and gives back the
    configuration and the set of tracked peers. *)
Theorem restore_roundtrip (tr : ProgressTracker.t) (n next : Z) (Hok : ok_tracker tr)
    (Hne : incoming_voters (ProgressTracker.conf tr) <> ∅)
    (Hzero : 0 ∉ dom (ProgressTracker.progress tr)) :
  exists tr', restore next (Configuration.to_conf_state (ProgressTracker.conf tr)) (ProgressTracker.new n)
                = Ret (Ok tt, tr') /\
    ProgressTracker.conf tr' = ProgressTracker.conf tr /\
    dom (ProgressTracker.progress tr') = dom (ProgressTracker.progress tr).
Proof.
  rewrite ok_members in Hzero by done.
  destruct (decide (outgoing_voters (ProgressTracker.conf tr) = ∅)) as [Ho|Ho].
  - destruct (restore_not_joint tr n next Hok Hne Hzero Ho) as (tr' & E & Hv & Ha).
    exists tr'. split; [exact E|]. by apply views_conf.
  - destruct (restore_joint tr n next Hok Hne Hzero Ho) as (tr' & E & Hv & Ha).
    exists tr'. split; [exact E|]. by apply views_conf.
Qed.
End properties.

(** ** Witnesses *)
Section witnesses.
#[local] Existing Instance sorted_order.
#[local] Instance no_text : ConfigurationDebug := fun _ => ""%string.

Definition three : ProgressTracker.t :=
  ProgressTracker.mk (list_to_map [(1, Progress.new 1 2); (2, Progress.new 1 2); (3, Progress.new 1 2)])
    (Configuration.mk (Joint.new {[1; 2; 3]}) ∅ ∅ false) ∅ 2 false.

Lemma three_ok : ok_tracker three.
Proof.
  split; [|done]. intros id. unfold Role.view. cbn [fst snd]. rewrite tracked_contains.
  unfold incoming_voters, outgoing_voters, Role.ok. simpl.
  rewrite !(bool_decide_eq_false_2 (id ∈ (∅ : gset Z))) by set_solver. simpl.
  rewrite (bool_decide_ext (id ∈ dom _) (id ∈ ({[1; 2; 3]} : gset Z))) by set_solver.
  by destruct (bool_decide _).
Qed.

(** Demote 3 to a learner and add 4 as a voter. *)
Definition demote : list ConfChangeSingle.t :=
  [new_conf_change_single 3 AddLearnerNode; new_conf_change_single 4 AddNode].
Definition entered : ProgressTracker.t :=
  match Changer.enter_joint three true demote with
  | Ok (cfg, changes) => ProgressTracker.apply_conf cfg changes 5 three
  | Err _ => three
  end.

Lemma demoted : exists cfg changes, Changer.enter_joint three true demote = Ok (cfg, changes) /\
  entered = ProgressTracker.apply_conf cfg changes 5 three.
Proof. unfold entered. destruct (Changer.enter_joint three true demote) as [[cfg changes]|] eqn:E; [eauto|]. by vm_compute in E. Qed.

Lemma entered_ok : ok_tracker entered.
Proof. destruct demoted as (cfg & changes & E & ->). by eapply enter_accepted, E; apply three_ok. Qed.

Definition grants (ids : list Z) : Z -> option bool := fun id => if bool_decide (id ∈ ids) then Some true else None.

Lemma conf_change_quorums_intersect_witness :
  exists v, v ∈ all_voters (Configuration.voters (ProgressTracker.conf three)) /\
    v ∈ all_voters (Configuration.voters (ProgressTracker.conf entered)) /\
    grants [1; 2] v = Some true /\ grants [2; 3; 4] v = Some true.
Proof.
  apply (conf_change_quorums_intersect three entered (grants [1; 2]) (grants [2; 3; 4])).
  - apply three_ok.
  - destruct demoted as (cfg & changes & E & ->). by apply (step_enter _ true demote).
  - by vm_compute.
  - by vm_compute.
  - by vm_compute.
Defined.

Lemma conf_change_invariant_witness :
  exists tr, rtc conf_step (ProgressTracker.new 2) tr /\ incoming_voters (ProgressTracker.conf tr) = {[1]} /\
    dom (ProgressTracker.progress tr) = incoming_voters (ProgressTracker.conf tr)
      ∪ outgoing_voters (ProgressTracker.conf tr) ∪ Configuration.learners (ProgressTracker.conf tr).
Proof.
  destruct (Changer.simple (ProgressTracker.new 2) [new_conf_change_single 1 AddNode]) as [[cfg changes]|] eqn:E;
    [|by vm_compute in E].
  assert (Hrun : rtc conf_step (ProgressTracker.new 2) (ProgressTracker.apply_conf cfg changes 1 (ProgressTracker.new 2))).
  { apply rtc_once. by eapply step_simple. }
  eexists. split; [exact Hrun|]. split.
  - rewrite apply_conf_conf. vm_compute in E. injection E as <- <-. by vm_compute.
  - apply (conf_change_invariant 2 _ Hrun).
Defined.

Lemma joint_change_equals_direct_change_witness :
  exists cfg' changes', Changer.leave_joint entered = Ok (cfg', changes') /\
    Role.view (cfg', tracked (ProgressTracker.apply_conf cfg' changes' 5 entered)) 3
      = Role.mk false false true false true.
Proof.
  destruct demoted as (cfg & changes & E & ->).
  destruct (joint_change_equals_direct_change three true demote cfg changes 5 5 three_ok E) as (cfg' & changes' & E' & Hv).
  exists cfg', changes'. split; [exact E'|]. rewrite Hv. by vm_compute.
Defined.

Lemma restore_roundtrip_witness :
  exists tr', restore 7 (Configuration.to_conf_state (ProgressTracker.conf entered)) (ProgressTracker.new 2) = Ret (Ok tt, tr') /\
    ProgressTracker.conf tr' = ProgressTracker.conf entered /\
    outgoing_voters (ProgressTracker.conf tr') = {[1; 2; 3]} /\
    Configuration.learners_next (ProgressTracker.conf tr') = {[3]}.
Proof.
  destruct (restore_roundtrip entered 2 7 entered_ok) as (tr' & E & Hc & _); [by vm_compute|by vm_compute|].
  exists tr'. split; [exact E|]. split; [exact Hc|]. rewrite Hc. split; by vm_compute.
Defined.
End witnesses.
