(* ===== verification/Log.v ===== *)
(** * Abstract logs

    The specification the log components are proved against: a compacted prefix
    of which only the last position is known, and the entries after it.  It has
    no counterpart in the source; [Storage.v], [Unstable.v] and [RaftLog.v] say
    how the states of the code represent it. *)

From S2P Require Import Prelude Proto Util.

Module ALog.
Record t := mk {
  base : Z;                   (** the index before the first entry *)
  base_term : option Z;       (** its term, when it is still known *)
  ents : list Entry.t
}.

Definition last (l : t) : Z := base l + len (ents l).

(** The entry at an index. *)
Definition at_index (l : t) (i : Z) : option Entry.t := index (ents l) (i - base l - 1).

Definition term_at (l : t) (i : Z) : option Z :=
  if i =? base l then base_term l else Entry.term <$> at_index l i.

(** The entries with indexes in [lo, hi). *)
Definition range (l : t) (lo hi : Z) : list Entry.t :=
  take (Z.to_nat (hi - lo)) (drop (Z.to_nat (lo - base l - 1)) (ents l)).

(** Drops the entries from [after] on. *)
Definition truncate (l : t) (after : Z) : t :=
  mk (base l) (base_term l) (take (Z.to_nat (after - base l - 1)) (ents l)).

Definition append (l : t) (es : list Entry.t) : t := mk (base l) (base_term l) (ents l ++ es).

(** Entries with consecutive indexes starting at [from]. *)
Fixpoint contiguous (from : Z) (es : list Entry.t) : Prop :=
  match es with
  | [] => True
  | e :: es => Entry.index e = from /\ contiguous (from + 1) es
  end.

Definition ok (l : t) : Prop := 0 <= base l /\ contiguous (base l + 1) (ents l).
End ALog.

Section contiguous.
Import ALog.

Lemma contiguous_app i l1 l2 : contiguous i (l1 ++ l2) <-> contiguous i l1 /\ contiguous (i + len l1) l2.
Proof.
  revert i. induction l1 as [|e l1 IH]; intros i; simpl.
  - rewrite len_nil, Z.add_0_r. tauto.
  - rewrite IH, len_cons. replace (i + 1 + len l1) with (i + (len l1 + 1)) by lia. tauto.
Qed.

Lemma contiguous_take n i l : contiguous i l -> contiguous i (take n l).
Proof. intros Hc. rewrite <-(take_drop n l), contiguous_app in Hc. tauto. Qed.

Lemma contiguous_lookup i l n e : contiguous i l -> l !! n = Some e -> Entry.index e = i + Z.of_nat n.
Proof.
  revert i n. induction l as [|x l IH]; intros i n; simpl; [done|]. intros [Hx Hl].
  destruct n as [|n]; simpl; [intros [= <-]; lia|]. intros He. rewrite (IH _ _ Hl He). lia.
Qed.

Lemma contiguous_drop n i l : (n <= length l)%nat -> contiguous i l -> contiguous (i + Z.of_nat n) (drop n l).
Proof.
  intros Hn Hc. rewrite <-(take_drop n l), contiguous_app in Hc. destruct Hc as [_ Hc]. unfold len in Hc.
  by rewrite length_take, Nat.min_l in Hc.
Qed.

Lemma contiguous_last i l e : contiguous i l -> list.last l = Some e -> Entry.index e = i + len l - 1.
Proof.
  intros Hc Hl. rewrite last_lookup in Hl. pose proof (lookup_lt_Some _ _ _ Hl).
  apply (contiguous_lookup _ _ _ _ Hc) in Hl. rewrite Hl. unfold len. lia.
Qed.

Lemma contiguous_head i l e : contiguous i l -> head l = Some e -> Entry.index e = i.
Proof. destruct l; [done|]. simpl. intros [<- _]. by intros [= <-]. Qed.
End contiguous.

Section lookup.
Import ALog.

Lemma last_base l : base l <= last l.
Proof. unfold last. pose proof (len_nonneg (ents l)). lia. Qed.

Lemma at_index_Some l i e : at_index l i = Some e -> base l < i <= last l.
Proof. unfold at_index, last. intros Hi%index_Some. lia. Qed.

Lemma at_index_is_Some l i : base l < i <= last l -> is_Some (at_index l i).
Proof. unfold at_index, last. intros Hi. apply index_is_Some. lia. Qed.

Lemma at_index_None l i : ~ (base l < i <= last l) -> at_index l i = None.
Proof. intros Hi. destruct (at_index l i) eqn:E; [|done]. apply at_index_Some in E. done. Qed.

Lemma at_index_entry l i e : ok l -> at_index l i = Some e -> Entry.index e = i.
Proof.
  intros [_ Hc] Hi. pose proof (at_index_Some _ _ _ Hi). unfold at_index, index in Hi.
  destruct (Z.ltb_spec (i - base l - 1) 0); [done|]. rewrite (contiguous_lookup _ _ _ _ Hc Hi). lia.
Qed.

Lemma at_index_append l es i :
  at_index (append l es) i = if i <=? last l then at_index l i else index es (i - last l - 1).
Proof.
  unfold at_index, append, last, index. simpl. destruct (Z.leb_spec i (base l + len (ents l))) as [Hi|Hi].
  - destruct (Z.ltb_spec (i - base l - 1) 0); [done|]. apply lookup_app_l. unfold len in *. lia.
  - pose proof (len_nonneg (ents l)). rewrite !(proj2 (Z.ltb_ge _ _)) by lia.
    rewrite lookup_app_r by (unfold len in *; lia). f_equal. unfold len in *. lia.
Qed.

Lemma at_index_truncate l a i :
  at_index (truncate l a) i = if i <? a then at_index l i else None.
Proof.
  unfold at_index, truncate, index. simpl. destruct (Z.ltb_spec (i - base l - 1) 0); [by case_match|].
  destruct (Z.ltb_spec i a).
  - apply lookup_take_lt. lia.
  - apply lookup_take_ge. lia.
Qed.

Lemma base_truncate l a : base (truncate l a) = base l.
Proof. done. Qed.
Lemma base_append l es : base (append l es) = base l.
Proof. done. Qed.

Lemma last_truncate l a : base l < a -> last (truncate l a) = Z.min (last l) (a - 1).
Proof.
  intros Ha. unfold last, truncate, len. simpl. rewrite length_take. lia.
Qed.

Lemma last_append l es : last (append l es) = last l + len es.
Proof. unfold last, append. simpl. rewrite len_app. lia. Qed.

Lemma term_at_truncate l a i : base l < a ->
  term_at (truncate l a) i = if i <? a then term_at l i else None.
Proof.
  intros Ha. unfold term_at. rewrite at_index_truncate. simpl.
  destruct (Z.eqb_spec i (base l)), (Z.ltb_spec i a); (done || lia).
Qed.

Lemma term_at_append l es i :
  term_at (append l es) i = if i <=? last l then term_at l i else Entry.term <$> index es (i - last l - 1).
Proof.
  unfold term_at. rewrite at_index_append. simpl. pose proof (last_base l).
  destruct (Z.eqb_spec i (base l)), (Z.leb_spec i (last l)); (done || lia).
Qed.

Lemma ok_truncate l a : ok l -> ok (truncate l a).
Proof. intros [Hb Hc]. split; [done|]. simpl. by apply contiguous_take. Qed.

Lemma ok_append l es : ok l -> contiguous (last l + 1) es -> ok (append l es).
Proof.
  intros [Hb Hc] Hes. split; [done|]. simpl. apply contiguous_app. split; [done|].
  unfold last in Hes. by replace (base l + 1 + len (ents l)) with (base l + len (ents l) + 1) by lia.
Qed.

Lemma term_at_range l i : base l < i <= last l -> is_Some (term_at l i).
Proof.
  intros Hi. unfold term_at. destruct (Z.eqb_spec i (base l)); [lia|].
  destruct (at_index_is_Some l i Hi) as [e ->]. eauto.
Qed.

Lemma term_at_Some_bounds l i t : term_at l i = Some t -> base l <= i <= last l.
Proof.
  unfold term_at. pose proof (last_base l). destruct (Z.eqb_spec i (base l)) as [->|]; [lia|].
  destruct (at_index l i) eqn:E; [|done]. apply at_index_Some in E. lia.
Qed.

(** *** Ranges *)
Lemma range_length l lo hi : base l < lo -> lo <= hi -> hi <= last l + 1 -> len (range l lo hi) = hi - lo.
Proof.
  unfold range, last, len. intros. rewrite length_take, length_drop. lia.
Qed.

Lemma range_lookup l lo hi n : base l < lo -> (Z.of_nat n < hi - lo) ->
  range l lo hi !! n = at_index l (lo + Z.of_nat n).
Proof.
  intros Hlo Hn. unfold range, at_index, index. rewrite lookup_take_lt by lia. rewrite lookup_drop.
  rewrite (proj2 (Z.ltb_ge _ _)) by lia. f_equal. lia.
Qed.

Lemma range_contiguous l lo hi : ok l -> base l < lo -> lo <= last l + 1 -> contiguous lo (range l lo hi).
Proof.
  intros [_ Hc] Hlo Hlast. unfold range. apply contiguous_take.
  replace lo with (base l + 1 + Z.of_nat (Z.to_nat (lo - base l - 1))) at 1 by lia.
  apply contiguous_drop; [unfold last, len in *; lia|done].
Qed.

Lemma range_app l lo mid hi : base l < lo -> lo <= mid -> mid <= hi ->
  range l lo hi = range l lo mid ++ range l mid hi.
Proof.
  intros H1 H2 H3. unfold range.
  replace (Z.to_nat (hi - lo)) with (Z.to_nat (mid - lo) + Z.to_nat (hi - mid))%nat by lia.
  rewrite <-take_take_drop, drop_drop. f_equal. f_equal. f_equal. lia.
Qed.

Lemma range_nil l lo : range l lo lo = [].
Proof. unfold range. by rewrite Z.sub_diag. Qed.

Lemma range_truncate l a lo hi : base l < lo -> hi <= a -> range (truncate l a) lo hi = range l lo hi.
Proof.
  intros Hlo Ha. unfold range, truncate. simpl.
  apply list_eq. intros n. destruct (decide (n < Z.to_nat (hi - lo))%nat).
  - rewrite !lookup_take_lt, !lookup_drop by lia. apply lookup_take_lt. lia.
  - by rewrite !lookup_take_ge by lia.
Qed.
End lookup.
