(* ===== verification/Unstable.v ===== *)
(** * Unstable entries ([log_unstable.rs])

    The entries and the snapshot that are not written to storage yet. *)

From S2P Require Import Prelude Proto Util Log.

(** [struct Unstable] and its methods; the logger is left out. *)
Module Unstable.
Record t : Type := mk {
  snapshot : option Snapshot.t;
  entries : list Entry.t;
  entries_size : Z;
  offset : Z
}.
#[global] Instance eta_t : Eta t := fun r =>
  mk (snapshot r) (entries r) (entries_size r) (offset r).
#[global] Instance set_snapshot : Setter snapshot := ltac:(derive_setter).
#[global] Instance set_entries : Setter entries := ltac:(derive_setter).
#[global] Instance set_entries_size : Setter entries_size := ltac:(derive_setter).
#[global] Instance set_offset : Setter offset := ltac:(derive_setter).
#[global] Instance eq_dec : EqDecision t.
Proof. solve_decision. Defined.
Definition default : t :=
  mk None [] 0 0.

Definition new (offset : Z) : t := mk None [] 0 offset.

Definition snap_index (s : Snapshot.t) : Z := SnapshotMetadata.index (Snapshot.metadata s).
Definition snap_term (s : Snapshot.t) : Z := SnapshotMetadata.term (Snapshot.metadata s).

Definition maybe_first_index (self : t) : option Z :=
  (fun snap => snap_index snap +w 1) <$> snapshot self.

Definition maybe_last_index (self : t) : option Z :=
  if len (entries self) =? 0 then snap_index <$> snapshot self
  else Some (offset self +w len (entries self) -w 1).

Definition maybe_term (self : t) (idx : Z) : outcome (option Z) :=
  if idx <? offset self then
    Ret (match snapshot self with
         | None => None
         | Some snapshot => if idx =? snap_index snapshot then Some (snap_term snapshot) else None
         end)
  else
    match maybe_last_index self with
    | None => Ret None
    | Some last =>
        if last <? idx then Ret None
        else e ← or_panic (index (entries self) (idx -w offset self)); Ret (Some (Entry.term e))
    end.

Definition stable_entries (index term : Z) : Prog t unit :=
  self ← get;
  assert (bool_decide (snapshot self = None));;
  match list.last (entries self) with
  | Some entry =>
      if negb (Entry.index entry =? index) || negb (Entry.term entry =? term) then panic
      else
        modify (fun s => s <| offset := Entry.index entry +w 1 |>);;
        modify (fun s => s <| entries := [] |>);;
        modify (fun s => s <| entries_size := 0 |>)
  | None => panic
  end.

Definition stable_snap (index : Z) : Prog t unit :=
  self ← get;
  match snapshot self with
  | Some snap =>
      if negb (snap_index snap =? index) then panic
      else modify (fun s => s <| snapshot := None |>)
  | None => panic
  end.

Definition restore (snap : Snapshot.t) (self : t) : t :=
  self <| entries := [] |> <| entries_size := 0 |> <| offset := snap_index snap +w 1 |>
       <| snapshot := Some snap |>.

Definition must_check_outofbounds (self : t) (lo hi : Z) : outcome unit :=
  if hi <? lo then Panic
  else
    let upper := offset self +w len (entries self) in
    if (lo <? offset self) || (upper <? hi) then Panic else Ret tt.

(** [entries_size] changes by the sizes of the dropped and of the added entries. *)
Definition sub_sizes (size : Z) (es : list Entry.t) : Z :=
  fold_left (fun size e => size -w entry_approximate_size e) es size.
Definition sum_sizes (es : list Entry.t) : Z :=
  fold_left (fun size e => size +w entry_approximate_size e) es 0.

Definition truncate_and_append (ents : list Entry.t) : Prog t unit :=
  first ← unwrap (head ents);
  let after := Entry.index first in
  self ← get;
  (if after =? offset self +w len (entries self) then mret tt
   else if after <=? offset self then
     modify (fun s => s <| offset := after |>);;
     modify (fun s => s <| entries := [] |>);;
     modify (fun s => s <| entries_size := 0 |>)
   else
     let off := offset self in
     lift (must_check_outofbounds self off after);;
     dropped ← unwrap (subrange (entries self) (after -w off) (len (entries self)));
     modify (fun s => s <| entries_size := sub_sizes (entries_size s) dropped |>);;
     modify (fun s => s <| entries := take (Z.to_nat (after -w off)) (entries s) |>));;
  modify (fun s => s <| entries := entries s ++ ents |>);;
  modify (fun s => s <| entries_size := entries_size s +w sum_sizes ents |>).

Definition slice (self : t) (lo hi : Z) : outcome (list Entry.t) :=
  must_check_outofbounds self lo hi;;
  or_panic (subrange (entries self) (lo -w offset self) (hi -w offset self)).

End Unstable.

(** ** Well-formed unstable logs *)
Section unstable.
Import Unstable.

(** The sum of the sizes, as a machine word. *)
Definition size_of (es : list Entry.t) : Z :=
  foldr (fun e n => n + entry_approximate_size e) 0 es mod U64_MOD.

Record unstable_ok (u : Unstable.t) : Prop := {
  uo_offset : 0 < offset u;
  uo_bound : offset u + len (entries u) <= u64_MAX;
  uo_contiguous : ALog.contiguous (offset u) (entries u);
  uo_snapshot : forall s, snapshot u = Some s -> snap_index s + 1 = offset u;
  uo_size : entries_size u = size_of (entries u)
}.

Definition unstable_last (u : Unstable.t) : Z := offset u + len (entries u) - 1.

Lemma maybe_first_index_run u s : unstable_ok u -> snapshot u = Some s ->
  maybe_first_index u = Some (offset u).
Proof.
  intros Hok Hs. unfold maybe_first_index. rewrite Hs. simpl. pose proof (uo_snapshot _ Hok s Hs).
  pose proof (uo_bound _ Hok). pose proof (uo_offset _ Hok). pose proof (len_nonneg (entries u)).
  f_equal. u64_lia.
Qed.

Lemma maybe_last_index_run u : unstable_ok u ->
  maybe_last_index u =
    if bool_decide (entries u = [] /\ snapshot u = None) then None else Some (unstable_last u).
Proof.
  intros Hok. unfold maybe_last_index, unstable_last.
  pose proof (uo_bound _ Hok). pose proof (uo_offset _ Hok). destruct (Z.eqb_spec (len (entries u)) 0) as [E|E].
  - apply len_zero_nil in E as E'. destruct (snapshot u) as [s|] eqn:Es; simpl.
    + rewrite bool_decide_eq_false_2 by naive_solver. pose proof (uo_snapshot _ Hok s Es). f_equal. lia.
    + by rewrite bool_decide_eq_true_2.
  - rewrite bool_decide_eq_false_2; [|intros [E' _]; by rewrite E' in E].
    pose proof (len_nonneg (entries u)). f_equal. u64_lia.
Qed.

(** [maybe_term] finds the snapshot's term just below the offset and the terms of
    the unstable entries, and never panics. *)
Lemma maybe_term_run u idx : unstable_ok u -> 0 <= idx ->
  maybe_term u idx = Ret (
    if idx <? offset u then
      match snapshot u with Some s => if idx =? offset u - 1 then Some (snap_term s) else None | None => None end
    else Entry.term <$> index (entries u) (idx - offset u)).
Proof.
  intros Hok Hidx. unfold maybe_term. destruct (Z.ltb_spec idx (offset u)).
  { destruct (snapshot u) as [s|] eqn:Es; [|done]. pose proof (uo_snapshot _ Hok s Es).
    by replace (offset u - 1) with (snap_index s) by lia. }
  rewrite maybe_last_index_run by done. pose proof (uo_offset _ Hok). pose proof (uo_bound _ Hok).
  pose proof (len_nonneg (entries u)).
  case_bool_decide as Hb.
  { destruct Hb as [-> _]. unfold index. destruct (Z.ltb_spec (idx - offset u) 0); done. }
  unfold unstable_last. destruct (Z.ltb_spec (offset u + len (entries u) - 1) idx).
  { destruct (index (entries u) (idx - offset u)) eqn:E; [|done]. apply index_Some in E. lia. }
  rewrite u64_sub_small by u64_lia. destruct (index_is_Some (entries u) (idx - offset u)) as [e ->]; [lia|]. done.
Qed.

Lemma size_of_nil : size_of [] = 0.
Proof. done. Qed.

Lemma approximate_size_nonneg e : 0 <= entry_approximate_size e.
Proof. unfold entry_approximate_size. pose proof (len_nonneg (Entry.data e)). pose proof (len_nonneg (Entry.context e)). lia. Qed.

Lemma sum_sizes_run es : sum_sizes es = size_of es.
Proof.
  unfold sum_sizes, size_of.
  enough (forall n, fold_left (fun size e => size +w entry_approximate_size e) es (n mod U64_MOD)
    = (n + foldr (fun e n => n + entry_approximate_size e) 0 es) mod U64_MOD) as E by exact (E 0).
  induction es as [|e es IH]; intros n; simpl; [by rewrite Z.add_0_r|].
  unfold u64_add at 2. rewrite Zplus_mod_idemp_l, IH. f_equal. lia.
Qed.

Lemma size_of_app l1 l2 : size_of (l1 ++ l2) = size_of l1 +w size_of l2.
Proof.
  unfold size_of, u64_add. rewrite Zplus_mod_idemp_l, Zplus_mod_idemp_r. f_equal.
  induction l1 as [|e l1 IH]; simpl; [lia|]. rewrite IH. lia.
Qed.

Lemma sub_sizes_run l1 l2 : sub_sizes (size_of (l1 ++ l2)) l2 = size_of l1.
Proof.
  unfold sub_sizes. revert l1. induction l2 as [|e l2 IH]; intros l1; simpl; [by rewrite app_nil_r|].
  rewrite <-(IH l1). f_equal. unfold size_of, u64_sub. rewrite Zminus_mod_idemp_l. f_equal.
  induction l1 as [|x l1 IH1]; simpl; lia.
Qed.

(** The unstable part of the log as an abstract log. *)
Definition unstable_log (u : Unstable.t) : ALog.t :=
  ALog.mk (offset u - 1) (snap_term <$> snapshot u) (entries u).

Definition unstable_append (u : Unstable.t) (es : list Entry.t) (after : Z) : Unstable.t :=
  let kept := if after <=? offset u then [] else take (Z.to_nat (after - offset u)) (entries u) in
  u <| offset := Z.min (offset u) after |> <| entries := kept ++ es |> <| entries_size := size_of (kept ++ es) |>.

Lemma truncate_and_append_run u es e : unstable_ok u -> head es = Some e ->
  0 < Entry.index e <= offset u + len (entries u) ->
  truncate_and_append es u = Ret (tt, unstable_append u es (Entry.index e)).
Proof.
  intros Hok He Hafter. unfold truncate_and_append. rewrite He. prog_unfold. set (after := Entry.index e) in *.
  pose proof (uo_bound _ Hok). pose proof (uo_offset _ Hok). pose proof (uo_size _ Hok).
  pose proof (len_nonneg (entries u)).
  rewrite u64_add_small by u64_lia. rewrite sum_sizes_run. unfold unstable_append.
  destruct (Z.eqb_spec after (offset u + len (entries u))) as [E|E].
  - rewrite (Z.min_l (offset u) after) by lia. rewrite E.
    assert ((if offset u + len (entries u) <=? offset u then [] else take (Z.to_nat (offset u + len (entries u) - offset u)) (entries u))
      = entries u) as ->.
    { destruct (Z.leb_spec (offset u + len (entries u)) (offset u)).
      - symmetry. apply len_zero_nil. lia.
      - apply take_ge. unfold len. lia. }
    rewrite size_of_app. destruct u; simpl in *. by subst.
  - destruct (Z.leb_spec after (offset u)).
    + rewrite Z.min_r by lia. cbn. rewrite <-size_of_nil, <-size_of_app. done.
    + unfold must_check_outofbounds. rewrite (proj2 (Z.ltb_ge _ _)) by lia.
      rewrite u64_add_small by u64_lia.
      rewrite (proj2 (Z.ltb_ge _ _)), (proj2 (Z.ltb_ge _ _)) by lia. cbn [orb].
      rewrite u64_sub_small by u64_lia. unfold subrange.
      rewrite !(proj2 (Z.leb_le _ _)) by lia. cbn [andb].
      rewrite Z.min_l by lia.
      rewrite (take_ge (drop _ _)) by (rewrite length_drop; unfold len in *; lia).
      set (k := Z.to_nat (after - offset u)). rewrite size_of_app, <-(sub_sizes_run (take k (entries u)) (drop k (entries u))).
      rewrite take_drop. destruct u; simpl in *. by subst.
Qed.

Lemma unstable_append_ok u es e : unstable_ok u -> head es = Some e ->
  0 < Entry.index e <= offset u + len (entries u) -> ALog.contiguous (Entry.index e) es ->
  Entry.index e + len es <= u64_MAX -> (forall s, snapshot u = Some s -> offset u <= Entry.index e) ->
  unstable_ok (unstable_append u es (Entry.index e)).
Proof.
  intros Hok He Hafter Hc Hb Hs. set (after := Entry.index e) in *.
  pose proof (uo_offset _ Hok). pose proof (uo_bound _ Hok). pose proof (len_nonneg (entries u)).
  unfold unstable_append. destruct (Z.leb_spec after (offset u)); split; fields; cbn [app]; try done; try lia.
  - by rewrite Z.min_r by lia.
  - intros s Es. specialize (Hs s Es). pose proof (uo_snapshot _ Hok s Es). lia.
  - rewrite Z.min_l by lia. rewrite len_app. unfold len in *. rewrite length_take. lia.
  - rewrite Z.min_l by lia. apply contiguous_app. split; [by apply contiguous_take, uo_contiguous|].
    replace (offset u + _) with after; [done|]. unfold len in *. rewrite length_take. lia.
  - intros s Es. pose proof (uo_snapshot _ Hok s Es). lia.
Qed.
End unstable.
