(* ===== verification/Storage.v ===== *)
(** * Storage ([storage.rs])

    The interface between the log and stable storage, its laws against an
    abstract log, and the in-memory implementation. *)

From S2P Require Import Prelude Proto Errors Util Log.

(** [struct RaftState] *)
Module RaftState.
Record t : Type := mk {
  hard_state : HardState.t;
  conf_state : ConfState.t
}.
#[global] Instance eta_t : Eta t := fun r =>
  mk (hard_state r) (conf_state r).
#[global] Instance set_hard_state : Setter hard_state := ltac:(derive_setter).
#[global] Instance set_conf_state : Setter conf_state := ltac:(derive_setter).
#[global] Instance eq_dec : EqDecision t.
Proof. solve_decision. Defined.
Definition default : t :=
  mk HardState.default ConfState.default.

Definition new (hard_state : HardState.t) (conf_state : ConfState.t) : t := mk hard_state conf_state.
Definition initialized (self : t) : bool := negb (bool_decide (conf_state self = ConfState.default)).
End RaftState.

(** [enum GetEntriesFor] and [struct GetEntriesContext]. *)
Inductive GetEntriesFor :=
  | SendAppend (to term : Z) (aggressively : bool)
  | GenReady
  | TransferLeader
  | CommitByVote
  | Empty (can_async : bool).
#[global] Instance GetEntriesFor_eq_dec : EqDecision GetEntriesFor.
Proof. solve_decision. Defined.
Abbreviation GetEntriesContext := GetEntriesFor.

Definition can_async (self : GetEntriesContext) : bool :=
  match self with
  | SendAppend _ _ _ => true
  | Empty can_async => can_async
  | _ => false
  end.

(** [trait Storage].  [entries] and [snapshot] may change the storage, which the
    trait hides behind [&self] (the in-memory storage records the caller). *)
Class Storage (T : Type) := {
  initial_state : T -> outcome (Result RaftState.t);
  st_entries : Z -> Z -> option Z -> GetEntriesContext -> Prog T (Result (list Entry.t));
  st_term : T -> Z -> outcome (Result Z);
  st_first_index : T -> outcome (Result Z);
  st_last_index : T -> outcome (Result Z);
  st_snapshot : Z -> Z -> Prog T (Result Snapshot.t)
}.

(** What the crate relies on: the documented behaviour of the trait for a storage
    in a good state, against the abstract log it holds. *)
Class StorageLaws (T : Type) `{Storage T} := {
  storage_ok : T -> Prop;
  storage_log : T -> ALog.t;
  storage_log_ok s : storage_ok s -> ALog.ok (storage_log s);
  first_index_law s : storage_ok s -> st_first_index s = Ret (Ok (ALog.base (storage_log s) + 1));
  last_index_law s : storage_ok s -> st_last_index s = Ret (Ok (ALog.last (storage_log s)));
  term_law s i : storage_ok s -> ALog.base (storage_log s) < i <= ALog.last (storage_log s) ->
    exists t, ALog.term_at (storage_log s) i = Some t /\ st_term s i = Ret (Ok t);
  term_base_law s : storage_ok s ->
    st_term s (ALog.base (storage_log s)) =
      Ret (match ALog.base_term (storage_log s) with Some t => Ok t | None => Err (Store Compacted) end);
  term_beyond_law s i : storage_ok s -> ALog.last (storage_log s) < i -> st_term s i = Ret (Err (Store Unavailable));
  entries_compacted_law s lo hi max ctx : storage_ok s -> lo <= ALog.base (storage_log s) ->
    st_entries lo hi max ctx s = Ret (Err (Store Compacted), s);
  (** [max_size] limits what is returned, but never to nothing. *)
  entries_law s lo hi max ctx : storage_ok s ->
    ALog.base (storage_log s) < lo -> lo < hi -> hi <= ALog.last (storage_log s) + 1 ->
    exists r s', st_entries lo hi max ctx s = Ret (r, s') /\ storage_ok s' /\ storage_log s' = storage_log s /\
      ((r = Err (Store LogTemporarilyUnavailable) /\ can_async ctx = true) \/
       exists es, r = Ok es /\ es `prefix_of` ALog.range (storage_log s) lo hi /\ es <> [] /\
         (max = None -> es = ALog.range (storage_log s) lo hi));
  snapshot_law s req to : storage_ok s ->
    exists r s', st_snapshot req to s = Ret (r, s') /\ storage_ok s' /\ storage_log s' = storage_log s /\
      match r with
      | Ok snap => req <= SnapshotMetadata.index (Snapshot.metadata snap)
      | Err e => e = Store SnapshotTemporarilyUnavailable
      end
}.

(** [struct MemStorageCore] and its methods. *)
Module MemStorageCore.
Record t : Type := mk {
  raft_state : RaftState.t;
  entries : list Entry.t;
  snapshot_metadata : SnapshotMetadata.t;
  trigger_snap_unavailable : bool;
  trigger_log_unavailable : bool;
  get_entries_context : option GetEntriesContext
}.
#[global] Instance eta_t : Eta t := fun r =>
  mk (raft_state r) (entries r) (snapshot_metadata r) (trigger_snap_unavailable r) (trigger_log_unavailable r) (get_entries_context r).
#[global] Instance set_raft_state : Setter raft_state := ltac:(derive_setter).
#[global] Instance set_entries : Setter entries := ltac:(derive_setter).
#[global] Instance set_snapshot_metadata : Setter snapshot_metadata := ltac:(derive_setter).
#[global] Instance set_trigger_snap_unavailable : Setter trigger_snap_unavailable := ltac:(derive_setter).
#[global] Instance set_trigger_log_unavailable : Setter trigger_log_unavailable := ltac:(derive_setter).
#[global] Instance set_get_entries_context : Setter get_entries_context := ltac:(derive_setter).
#[global] Instance eq_dec : EqDecision t.
Proof. solve_decision. Defined.
Definition default : t :=
  mk RaftState.default [] SnapshotMetadata.default false false None.

Definition set_hardstate (hs : HardState.t) (self : t) : t :=
  self <| raft_state := (raft_state self) <| RaftState.hard_state := hs |> |>.
Definition hard_state (self : t) : HardState.t := RaftState.hard_state (raft_state self).
Definition set_conf_state (cs : ConfState.t) (self : t) : t :=
  self <| raft_state := (raft_state self) <| RaftState.conf_state := cs |> |>.

Definition first_index (self : t) : Z :=
  match head (entries self) with
  | Some e => Entry.index e
  | None => SnapshotMetadata.index (snapshot_metadata self) +w 1
  end.

Definition last_index (self : t) : Z :=
  match last (entries self) with
  | Some e => Entry.index e
  | None => SnapshotMetadata.index (snapshot_metadata self)
  end.

Definition has_entry_at (self : t) (index : Z) : bool :=
  negb (bool_decide (entries self = [])) && (first_index self <=? index) && (index <=? last_index self).

Definition commit_to (index : Z) : Prog t (Result unit) :=
  self ← get;
  assert (has_entry_at self index);;
  first ← unwrap (head (entries self));
  let diff := index -w Entry.index first in
  modify (fun s => set_hardstate ((hard_state s) <| HardState.commit := index |>) s);;
  e ← unwrap (Prelude.index (entries self) diff);
  modify (fun s => set_hardstate ((hard_state s) <| HardState.term := Entry.term e |>) s);;
  mret (Ok tt).

Definition apply_snapshot (snapshot : Snapshot.t) : Prog t (Result unit) :=
  let meta := Snapshot.metadata snapshot in
  let index := SnapshotMetadata.index meta in
  self ← get;
  if index <? first_index self then mret (Err (Store SnapshotOutOfDate))
  else
    modify (fun s => s <| snapshot_metadata := meta |>);;
    modify (fun s => set_hardstate ((hard_state s)
      <| HardState.term := Z.max (HardState.term (hard_state s)) (SnapshotMetadata.term meta) |>) s);;
    modify (fun s => set_hardstate ((hard_state s) <| HardState.commit := index |>) s);;
    modify (fun s => s <| entries := [] |>);;
    modify (set_conf_state (SnapshotMetadata.conf_state meta));;
    mret (Ok tt).

Definition snapshot (self : t) : outcome Snapshot.t :=
  let meta := SnapshotMetadata.default in
  let meta := meta <| SnapshotMetadata.index := HardState.commit (hard_state self) |> in
  term ← match SnapshotMetadata.index meta ?= SnapshotMetadata.index (snapshot_metadata self) with
         | Eq => Ret (SnapshotMetadata.term (snapshot_metadata self))
         | Gt =>
             first ← or_panic (head (entries self));
             let offset := Entry.index first in
             e ← or_panic (index (entries self) (SnapshotMetadata.index meta -w offset));
             Ret (Entry.term e)
         | Lt => Panic
         end;
  let meta := meta <| SnapshotMetadata.term := term |> in
  let meta := meta <| SnapshotMetadata.conf_state := RaftState.conf_state (raft_state self) |> in
  Ret (Snapshot.default <| Snapshot.metadata := meta |>).

Definition compact (compact_index : Z) : Prog t (Result unit) :=
  self ← get;
  if compact_index <=? first_index self then mret (Ok tt)
  else if last_index self +w 1 <? compact_index then panic
  else
    match head (entries self) with
    | Some entry =>
        let offset := compact_index -w Entry.index entry in
        (** [drain(..offset)] *)
        assert (offset <=? len (entries self));;
        modify (fun s => s <| entries := drop (Z.to_nat offset) (entries s) |>);;
        mret (Ok tt)
    | None => mret (Ok tt)
    end.

Definition append (ents : list Entry.t) : Prog t (Result unit) :=
  match head ents with
  | None => mret (Ok tt)
  | Some e0 =>
      self ← get;
      if Entry.index e0 <? first_index self then panic
      else if last_index self +w 1 <? Entry.index e0 then panic
      else
        let diff := Entry.index e0 -w first_index self in
        (** [drain(diff..)] *)
        assert (diff <=? len (entries self));;
        modify (fun s => s <| entries := take (Z.to_nat diff) (entries s) |>);;
        modify (fun s => s <| entries := entries s ++ ents |>);;
        mret (Ok tt)
  end.

Definition commit_to_and_set_conf_states (idx : Z) (cs : option ConfState.t) : Prog t (Result unit) :=
  _u ←? commit_to idx;
  match cs with
  | Some cs => modify (set_conf_state cs)
  | None => mret tt
  end;;
  mret (Ok tt).

Definition trigger_snap (self : t) : t := self <| trigger_snap_unavailable := true |>.
Definition trigger_log (v : bool) (self : t) : t := self <| trigger_log_unavailable := v |>.

Definition take_get_entries_context : Prog t (option GetEntriesContext) :=
  self ← get;
  modify (fun s => s <| get_entries_context := None |>);;
  mret (get_entries_context self).
End MemStorageCore.

(** [struct MemStorage]: the core behind a lock.  The lock is taken for the whole of
    each call, so a call is one step on the core; a clone shares the core, and a
    write of the application is a step of [MemStorageCore] on it. *)
Module MemStorage.
Abbreviation t := MemStorageCore.t.
Import MemStorageCore.

Definition new : t := MemStorageCore.default.

Definition initialize_with_conf_state (conf_state : ConfState.t) : Prog t unit :=
  self ← get;
  assert (negb (RaftState.initialized (raft_state self)));;
  modify (set_conf_state conf_state).

Section impl.
Context `{Codec}.

Definition entries (low high : Z) (max_size : option Z) (context : GetEntriesContext) :
  Prog t (Result (list Entry.t)) :=
  core ← get;
  if low <? first_index core then mret (Err (Store Compacted))
  else if last_index core +w 1 <? high then panic
  else if trigger_log_unavailable core && can_async context then
    modify (fun s => s <| get_entries_context := Some context |>);;
    mret (Err (Store LogTemporarilyUnavailable))
  else
    first ← unwrap (head (MemStorageCore.entries core));
    let offset := Entry.index first in
    ents ← unwrap (subrange (MemStorageCore.entries core) (low -w offset) (high -w offset));
    mret (Ok (limit_size compute_size ents max_size)).

Definition term (core : t) (idx : Z) : outcome (Result Z) :=
  if idx =? SnapshotMetadata.index (snapshot_metadata core) then
    Ret (Ok (SnapshotMetadata.term (snapshot_metadata core)))
  else
    let offset := first_index core in
    if idx <? offset then Ret (Err (Store Compacted))
    else if last_index core <? idx then Ret (Err (Store Unavailable))
    else e ← or_panic (index (MemStorageCore.entries core) (idx -w offset)); Ret (Ok (Entry.term e)).

Definition take_snapshot (request_index _to : Z) : Prog t (Result Snapshot.t) :=
  core ← get;
  if trigger_snap_unavailable core then
    modify (fun s => s <| trigger_snap_unavailable := false |>);;
    mret (Err (Store SnapshotTemporarilyUnavailable))
  else
    snap ← asks snapshot;
    let meta := Snapshot.metadata snap in
    mret (Ok (if SnapshotMetadata.index meta <? request_index
              then snap <| Snapshot.metadata := meta <| SnapshotMetadata.index := request_index |> |>
              else snap)).

#[global] Instance storage : Storage t := {
  initial_state := fun core => Ret (Ok (raft_state core));
  st_entries := entries;
  st_term := term;
  st_first_index := fun core => Ret (Ok (first_index core));
  st_last_index := fun core => Ret (Ok (last_index core));
  st_snapshot := take_snapshot
}.
End impl.
End MemStorage.


(** ** The in-memory storage keeps the laws *)
Section mem.
Context `{Codec}.
Import MemStorageCore.

Definition snap_index (core : t) : Z := SnapshotMetadata.index (snapshot_metadata core).

(** The index before the first entry. *)
Definition mem_base (core : t) : Z :=
  match head (entries core) with Some e => Entry.index e - 1 | None => snap_index core end.

Definition mem_log (core : t) : ALog.t :=
  ALog.mk (mem_base core)
    (if mem_base core =? snap_index core then Some (SnapshotMetadata.term (snapshot_metadata core)) else None)
    (entries core).

Record mem_ok (core : t) : Prop := {
  mo_snap : 0 <= snap_index core <= mem_base core;
  mo_contiguous : ALog.contiguous (mem_base core + 1) (entries core);
  mo_bound : mem_base core + len (entries core) < u64_MAX;
  mo_commit : HardState.commit (hard_state core) = snap_index core \/
    snap_index core < HardState.commit (hard_state core) /\
    mem_base core < HardState.commit (hard_state core) <= mem_base core + len (entries core)
}.

Lemma mem_log_ok core : mem_ok core -> ALog.ok (mem_log core).
Proof. intros Hok. split; [|apply Hok]. simpl. pose proof (mo_snap _ Hok). lia. Qed.

Lemma mem_first_index core : mem_ok core -> first_index core = mem_base core + 1.
Proof.
  intros Hok. pose proof (mo_snap _ Hok). pose proof (mo_bound _ Hok). pose proof (len_nonneg (entries core)).
  unfold first_index, mem_base, snap_index in *. destruct (head (entries core)); [lia|]. u64_lia.
Qed.

Lemma mem_last_index core : mem_ok core -> last_index core = ALog.last (mem_log core).
Proof.
  intros Hok. unfold last_index, ALog.last. simpl. destruct (last (entries core)) as [e|] eqn:E.
  - rewrite (contiguous_last _ _ _ (mo_contiguous _ Hok) E). lia.
  - apply last_None in E. rewrite E, len_nil. unfold mem_base. rewrite E. simpl. unfold snap_index. lia.
Qed.

Lemma mem_head_index core e : mem_ok core -> head (entries core) = Some e -> Entry.index e = mem_base core + 1.
Proof. intros Hok He. unfold mem_base. rewrite He. lia. Qed.

Lemma mem_lookup core i : mem_ok core -> mem_base core < i <= ALog.last (mem_log core) ->
  exists e, index (entries core) (i -w (mem_base core + 1)) = Some e /\
    ALog.term_at (mem_log core) i = Some (Entry.term e).
Proof.
  intros Hok Hi. pose proof (mo_snap _ Hok). pose proof (mo_bound _ Hok).
  destruct (at_index_is_Some (mem_log core) i Hi) as [e He]. exists e.
  unfold ALog.term_at. rewrite He. unfold ALog.at_index in He. simpl in *.
  unfold ALog.last in Hi. simpl in Hi. split.
  - rewrite <-He. f_equal. u64_lia.
  - destruct (Z.eqb_spec i (mem_base core)); [lia|done].
Qed.

Lemma mem_entries_run core lo hi max ctx : mem_ok core ->
  mem_base core < lo -> lo < hi -> hi <= ALog.last (mem_log core) + 1 ->
  MemStorage.entries lo hi max ctx core =
  if trigger_log_unavailable core && can_async ctx
  then Ret (Err (Store LogTemporarilyUnavailable), core <| get_entries_context := Some ctx |>)
  else Ret (Ok (limit_size compute_size (ALog.range (mem_log core) lo hi) max), core).
Proof.
  intros Hok Hlo Hlt Hhi. unfold MemStorage.entries. prog_unfold.
  pose proof (mo_snap _ Hok). pose proof (mo_bound _ Hok). pose proof (len_nonneg (entries core)).
  rewrite mem_first_index, mem_last_index by done. unfold ALog.last in *. simpl in *.
  rewrite (proj2 (Z.ltb_ge lo _)) by lia. rewrite u64_add_small by u64_lia.
  rewrite (proj2 (Z.ltb_ge _ hi)) by lia. destruct (_ && _); [done|].
  destruct (head (entries core)) as [e0|] eqn:E0.
  2: { destruct (entries core); [|done]. rewrite len_nil in *. lia. }
  rewrite (mem_head_index core e0 Hok E0). rewrite !u64_sub_small by u64_lia.
  unfold subrange. rewrite !(proj2 (Z.leb_le _ _)) by lia. simpl. repeat f_equal.
  unfold ALog.range. simpl. f_equal; [lia|]. f_equal. lia.
Qed.

Lemma range_nonempty l lo hi : ALog.base l < lo -> lo < hi -> hi <= ALog.last l + 1 -> ALog.range l lo hi <> [].
Proof. intros H1 H2 H3 E. pose proof (range_length l lo hi H1 ltac:(lia) H3) as Hl. rewrite E, len_nil in Hl. lia. Qed.

#[export] Program Instance mem_laws : StorageLaws MemStorage.t := {
  storage_ok := mem_ok;
  storage_log := mem_log
}.
Next Obligation. intros. by apply mem_log_ok. Qed.
Next Obligation. intros core Hok. simpl. by rewrite mem_first_index. Qed.
Next Obligation. intros core Hok. simpl. by rewrite mem_last_index. Qed.
Next Obligation.
  intros core i Hok Hi. simpl in *. unfold MemStorage.term. destruct (mem_lookup core i Hok Hi) as (e & He & Ht).
  exists (Entry.term e). split; [exact Ht|]. fold (snap_index core). pose proof (mo_snap _ Hok).
  rewrite (proj2 (Z.eqb_neq _ _)) by lia. rewrite mem_first_index, mem_last_index by done.
  rewrite !(proj2 (Z.ltb_ge _ _)) by lia. by rewrite He.
Qed.
Next Obligation.
  intros core Hok. simpl. unfold MemStorage.term. fold (snap_index core). destruct (Z.eqb_spec (mem_base core) (snap_index core)); [done|].
  rewrite mem_first_index by done. by rewrite (proj2 (Z.ltb_lt _ _)) by lia.
Qed.
Next Obligation.
  intros core i Hok Hi. simpl in *. unfold MemStorage.term. fold (snap_index core). pose proof (mo_snap _ Hok).
  pose proof (last_base (mem_log core)). simpl in *. rewrite (proj2 (Z.eqb_neq _ _)) by lia.
  rewrite mem_first_index, mem_last_index by done. rewrite (proj2 (Z.ltb_ge _ _)) by lia. by rewrite (proj2 (Z.ltb_lt _ _)).
Qed.
Next Obligation.
  intros core lo hi max ctx Hok Hlo. simpl in *. unfold MemStorage.entries. prog_unfold.
  rewrite mem_first_index by done. by rewrite (proj2 (Z.ltb_lt _ _)) by lia.
Qed.
Next Obligation.
  intros core lo hi max ctx Hok H1 H2 H3. simpl in *. rewrite mem_entries_run by done.
  destruct (trigger_log_unavailable core && can_async ctx) eqn:E.
  - eexists _, _. split; [done|]. split; [by destruct Hok|]. split; [done|]. left.
    apply andb_true_iff in E. by destruct E.
  - eexists _, _. split; [done|]. split; [done|]. split; [done|]. right. eexists. split; [done|].
    split; [apply limit_size_prefix|]. split; [by apply limit_size_nonempty, range_nonempty|].
    intros ->. apply limit_size_none.
Qed.
Next Obligation.
  intros core req to Hok. simpl. unfold MemStorage.take_snapshot. prog_unfold.
  destruct (trigger_snap_unavailable core).
  { eexists _, _. split; [done|]. split; [by destruct Hok|]. done. }
  assert (exists snap, snapshot core = Ret snap) as [snap Es].
  { unfold snapshot. pose proof (mo_snap _ Hok). pose proof (mo_bound _ Hok). fold (snap_index core).
    change (SnapshotMetadata.index (SnapshotMetadata.default <| SnapshotMetadata.index := HardState.commit (hard_state core) |>))
      with (HardState.commit (hard_state core)).
    destruct (mo_commit _ Hok) as [->|[Hc Hr]]; [rewrite Z.compare_refl; by eexists|].
    rewrite (proj2 (Z.compare_gt_iff _ _)) by lia.
    destruct (head (entries core)) as [e0|] eqn:E0; simpl.
    - rewrite (mem_head_index core e0 Hok E0).
      destruct (mem_lookup core (HardState.commit (hard_state core)) Hok Hr) as (e & -> & _). by eexists.
    - destruct (entries core); [|done]. rewrite len_nil in *. lia. }
  unfold asks. rewrite Es. eexists _, _. split; [done|]. split; [done|]. split; [done|].
  destruct (Z.ltb_spec (SnapshotMetadata.index (Snapshot.metadata snap)) req); simpl; [|lia]. fields. lia.
Qed.

(** ** Writing *)

Lemma mem_append_run core es e0 : mem_ok core -> head es = Some e0 ->
  mem_base core < Entry.index e0 <= ALog.last (mem_log core) + 1 ->
  append es core = Ret (Ok tt,
    core <| entries := ALog.ents (ALog.append (ALog.truncate (mem_log core) (Entry.index e0)) es) |>).
Proof.
  intros Hok He Hr. unfold append. rewrite He. prog_unfold.
  pose proof (mo_snap _ Hok). pose proof (mo_bound _ Hok). pose proof (len_nonneg (entries core)).
  rewrite mem_first_index, mem_last_index by done. unfold ALog.last in *. simpl in *.
  rewrite (proj2 (Z.ltb_ge _ _)) by lia. u64_simpl.
  rewrite (proj2 (Z.ltb_ge _ _)) by lia. rewrite (proj2 (Z.leb_le _ _)) by lia. simpl. fields.
  by replace (Entry.index e0 - (mem_base core + 1)) with (Entry.index e0 - mem_base core - 1) by lia.
Qed.

(** A vector of entries that keeps its first index keeps the base. *)
Lemma mem_base_entries core es : ALog.contiguous (mem_base core + 1) es ->
  (es = [] -> entries core = []) -> mem_base (core <| entries := es |>) = mem_base core.
Proof.
  intros Hc He. destruct es as [|e es].
  - unfold mem_base. fields. by rewrite He.
  - destruct Hc as [Hc _]. unfold mem_base at 1. fields. simpl. lia.
Qed.

(** The writes of the application, and what they do to the abstract log. *)
Inductive mem_write :=
  | WAppend (es : list Entry.t)
  | WCompact (compact_index : Z)
  | WApplySnapshot (snap : Snapshot.t)
  | WCommit (index : Z).

Definition run_write (w : mem_write) : Prog t (Result unit) :=
  match w with
  | WAppend es => append es
  | WCompact i => compact i
  | WApplySnapshot snap => apply_snapshot snap
  | WCommit i => commit_to i
  end.

(** What the documentation of the writes asks of the caller ("Panics if"), with positions that are
    words and entries that follow each other. *)
Definition write_allowed (core : t) (w : mem_write) : Prop :=
  match w with
  | WAppend es =>
      forall e0, head es = Some e0 ->
        mem_base core < Entry.index e0 <= ALog.last (mem_log core) + 1 /\
        ALog.contiguous (Entry.index e0) es /\ Entry.index e0 + len es <= u64_MAX
  | WCompact i => i <= ALog.last (mem_log core) + 1
  | WApplySnapshot snap => SnapshotMetadata.index (Snapshot.metadata snap) < u64_MAX
  | WCommit i => mem_base core < i <= ALog.last (mem_log core)
  end.
(** The committed entry stays: nothing committed is replaced, and what is dropped is committed
    ("it is the application's responsibility"). *)
Definition commit_stays (core : t) (w : mem_write) : Prop :=
  let commit := HardState.commit (hard_state core) in
  match w with
  | WAppend es => forall e0, head es = Some e0 -> commit = snap_index core \/ commit < Entry.index e0
  | WCompact i => i <= ALog.last (mem_log core) /\ (commit = snap_index core \/ i <= commit)
  | WApplySnapshot _ | WCommit _ => True
  end.

Definition write_spec (l : ALog.t) (w : mem_write) : ALog.t :=
  match w with
  | WAppend es =>
      match head es with
      | Some e0 => ALog.append (ALog.truncate l (Entry.index e0)) es
      | None => l
      end
  | WCompact i =>
      if i <=? ALog.base l + 1 then l else ALog.mk (i - 1) None (ALog.range l i (ALog.last l + 1))
  | WApplySnapshot snap =>
      let meta := Snapshot.metadata snap in
      ALog.mk (SnapshotMetadata.index meta) (Some (SnapshotMetadata.term meta)) []
  | WCommit _ => l
  end.
(** Compacting all entries: the log falls back to the last snapshot, whose position may be
    before that of the entries. *)
Definition drops_everything (core : t) (w : mem_write) : bool :=
  match w with
  | WCompact i => (mem_base core + 1 <? i) && (i =? ALog.last (mem_log core) + 1)
  | _ => false
  end.
Definition at_snapshot (core : t) : ALog.t :=
  ALog.mk (snap_index core) (Some (SnapshotMetadata.term (snapshot_metadata core))) [].

(** What becomes of the hard state and of the configuration. *)
Definition write_state (core : t) (w : mem_write) : RaftState.t :=
  match w with
  | WAppend _ | WCompact _ => raft_state core
  | WApplySnapshot snap =>
      let meta := Snapshot.metadata snap in
      RaftState.mk ((hard_state core)
        <| HardState.term := Z.max (HardState.term (hard_state core)) (SnapshotMetadata.term meta) |>
        <| HardState.commit := SnapshotMetadata.index meta |>) (SnapshotMetadata.conf_state meta)
  | WCommit i =>
      (raft_state core) <| RaftState.hard_state := (hard_state core) <| HardState.commit := i |>
        <| HardState.term := from_option (fun t => t) 0 (ALog.term_at (mem_log core) i) |> |>
  end.

Lemma write_append core es : mem_ok core -> write_allowed core (WAppend es) ->
  exists core', append es core = Ret (Ok tt, core') /\ (commit_stays core (WAppend es) -> mem_ok core') /\
    mem_log core' = write_spec (mem_log core) (WAppend es) /\ raft_state core' = raft_state core.
Proof.
  intros Hok Hpre. simpl in *. destruct (head es) as [e0|] eqn:E0.
  2: { exists core. unfold append. by rewrite E0. }
  destruct (Hpre e0 eq_refl) as (Hr & Hc & Hb). eexists. split; [by apply mem_append_run|].
  set (es' := ALog.ents _). pose proof (mem_log_ok _ Hok) as Hlog.
  assert (ALog.last (ALog.truncate (mem_log core) (Entry.index e0)) = Entry.index e0 - 1) as Hlast.
  { rewrite last_truncate by (simpl; lia). lia. }
  assert (Hc' : ALog.contiguous (mem_base core + 1) es').
  { apply (ok_append (ALog.truncate (mem_log core) (Entry.index e0)) es); [by apply ok_truncate|].
    rewrite Hlast. by replace (Entry.index e0 - 1 + 1) with (Entry.index e0) by lia. }
  assert (Hlen : mem_base core + len es' = Entry.index e0 - 1 + len es).
  { unfold es'. pose proof (last_append (ALog.truncate (mem_log core) (Entry.index e0)) es) as Hl.
    rewrite Hlast in Hl. exact Hl. }
  assert (Hbase : mem_base (core <| entries := es' |>) = mem_base core).
  { apply mem_base_entries; [done|]. unfold es'. simpl. intros [_ ->]%app_nil. done. }
  pose proof (mo_snap _ Hok).
  split; [|split; [|done]].
  - intros Hcommit. specialize (Hcommit e0 eq_refl). split; rewrite ?Hbase; fields; try done; try lia.
    destruct (mo_commit _ Hok) as [Hm|Hm]; [left; exact Hm|].
    destruct Hcommit as [->|?]; [by left|]. right. pose proof (len_nonneg es). lia.
  - unfold mem_log at 1. by rewrite Hbase.
Qed.

Lemma write_compact core i : mem_ok core -> write_allowed core (WCompact i) ->
  exists core', compact i core = Ret (Ok tt, core') /\ (commit_stays core (WCompact i) -> mem_ok core') /\
    mem_log core' = (if drops_everything core (WCompact i) then at_snapshot core else write_spec (mem_log core) (WCompact i)) /\
    raft_state core' = raft_state core.
Proof.
  intros Hok Hlast. change (i <= ALog.last (mem_log core) + 1) in Hlast. unfold compact. prog_unfold. pose proof (mo_snap _ Hok). pose proof (mo_bound _ Hok).
  pose proof (len_nonneg (entries core)). unfold write_spec, drops_everything, commit_stays. unfold ALog.last in *. simpl in *.
  rewrite mem_first_index, mem_last_index by done. unfold ALog.last. simpl.
  destruct (Z.leb_spec i (mem_base core + 1)) as [Hi|Hi]; [rewrite (proj2 (Z.ltb_ge _ _)) by lia; by exists core|]. u64_simpl.
  rewrite (proj2 (Z.ltb_lt _ _) Hi). cbn [andb].
  rewrite (proj2 (Z.ltb_ge _ _)) by lia. destruct (head (entries core)) as [e0|] eqn:E0.
  2: { destruct (entries core); [|done]. rewrite len_nil in *. lia. }
  rewrite (mem_head_index core e0 Hok E0). u64_simpl. rewrite (proj2 (Z.leb_le _ _)) by lia. fields.
  set (k := Z.to_nat (i - (mem_base core + 1))).
  assert (len (drop k (entries core)) = mem_base core + len (entries core) - (i - 1)) as Hlen.
  { unfold len in *. rewrite length_drop. lia. }
  eexists. split; [reflexivity|]. destruct (Z.eqb_spec i (mem_base core + len (entries core) + 1)) as [Hall|Hpart].
  { assert (drop k (entries core) = []) as -> by (apply len_zero_nil; lia). split; [lia|]. split; [|done].
    unfold mem_log, at_snapshot, mem_base. simpl. by rewrite Z.eqb_refl. }
  assert (ALog.contiguous i (drop k (entries core))) as Hc.
  { replace i with (mem_base core + 1 + Z.of_nat k) by lia. apply contiguous_drop; [unfold len in *; lia|]. apply Hok. }
  assert (mem_base (core <| entries := drop k (entries core) |>) = i - 1) as Hbase.
  { unfold mem_base at 1. fields. destruct (drop k (entries core)) as [|e l] eqn:E; [rewrite len_nil in Hlen; lia|].
    destruct Hc as [Hc _]. simpl. lia. }
  split; [|split; [|done]].
  - intros [_ Hcommit]. pose proof (mo_commit _ Hok) as Hm. split; rewrite ?Hbase; fields; try lia.
    by replace (i - 1 + 1) with i by lia.
  - unfold mem_log at 1. rewrite Hbase. change (snap_index (core <| entries := drop k (entries core) |>)) with (snap_index core).
    rewrite (proj2 (Z.eqb_neq _ _)) by lia. f_equal. unfold ALog.range. simpl. fields.
    rewrite take_ge by (rewrite length_drop; unfold len; lia). f_equal. lia.
Qed.

Lemma write_apply_snapshot core snap : mem_ok core -> write_allowed core (WApplySnapshot snap) ->
  exists r core', apply_snapshot snap core = Ret (r, core') /\ mem_ok core' /\
    if SnapshotMetadata.index (Snapshot.metadata snap) <=? mem_base core
    then r = Err (Store SnapshotOutOfDate) /\ core' = core
    else r = Ok tt /\ mem_log core' = write_spec (mem_log core) (WApplySnapshot snap) /\
      raft_state core' = write_state core (WApplySnapshot snap).
Proof.
  intros Hok Hb. unfold apply_snapshot. prog_unfold. rewrite mem_first_index by done. simpl in Hb.
  pose proof (mo_snap _ Hok). set (i := SnapshotMetadata.index (Snapshot.metadata snap)) in *.
  destruct (Z.leb_spec i (mem_base core)).
  { rewrite (proj2 (Z.ltb_lt _ _)) by lia. by eexists _, _. }
  rewrite (proj2 (Z.ltb_ge _ _)) by lia. eexists _, _. split; [reflexivity|].
  unfold mem_log, write_spec, mem_base, snap_index, set_conf_state, set_hardstate. fields. simpl. fold i.
  rewrite Z.eqb_refl. split; [|by split; [|split]]. split; unfold mem_base, snap_index, hard_state; fields; simpl; fold i; rewrite ?len_nil; (done || lia).
Qed.

Lemma write_commit core i : mem_ok core -> write_allowed core (WCommit i) ->
  exists core', commit_to i core = Ret (Ok tt, core') /\ mem_ok core' /\ mem_log core' = mem_log core /\
    raft_state core' = write_state core (WCommit i).
Proof.
  intros Hok Hi. simpl in Hi. unfold commit_to. prog_unfold. pose proof (mo_snap _ Hok). pose proof (len_nonneg (entries core)).
  assert (has_entry_at core i = true) as ->.
  { unfold has_entry_at. rewrite mem_first_index, mem_last_index by done. rewrite !andb_true_iff, !Z.leb_le.
    split; [split; [|lia]|lia]. apply negb_true_iff, bool_decide_eq_false_2. intros E. unfold ALog.last in Hi. simpl in Hi.
    rewrite E, len_nil in Hi. lia. }
  destruct (head (entries core)) as [e0|] eqn:E0.
  2: { unfold ALog.last in Hi. simpl in Hi. destruct (entries core); [|done]. rewrite len_nil in *. lia. }
  rewrite (mem_head_index core e0 Hok E0). unfold set_hardstate. fields.
  destruct (mem_lookup core i Hok Hi) as (e & -> & Hterm). eexists. split; [reflexivity|].
  split; [|split; [done|unfold write_state, hard_state; fields; by rewrite Hterm]].
  destruct (Z.eq_dec i (snap_index core)) as [->|]; [|]; split; try apply Hok.
  - by left.
  - right. unfold ALog.last in Hi. simpl in Hi. unfold mem_base, snap_index, hard_state in *. fields. lia.
Qed.
End mem.

(** ** Properties *)
Section properties.
Context `{Codec}.
Import MemStorageCore.


(** Reading the in-memory storage: within the log, [entries] returns the longest
    prefix of the range that [limit_size] allows (at least one entry), or records
    the caller and reports that the entries are not available yet. *)
Theorem mem_storage_entries_correct (core : t) (lo hi : Z) (max : option Z) (ctx : GetEntriesContext)
    (Hok : mem_ok core) (Hlo : mem_base core < lo) (Hlt : lo < hi) (Hhi : hi <= ALog.last (mem_log core) + 1) :
  st_entries lo hi max ctx core =
    if trigger_log_unavailable core && can_async ctx
    then Ret (Err (Store LogTemporarilyUnavailable), core <| get_entries_context := Some ctx |>)
    else Ret (Ok (limit_size compute_size (ALog.range (mem_log core) lo hi) max), core).
Proof. by apply mem_entries_run. Qed.
End properties.

(** ** Witnesses *)
Section witnesses.
(** A codec in which every entry has size 10. *)
Definition ten_bytes : Codec := {|
  compute_size := fun _ => 10;
  write_conf_change := fun _ => [];
  parse_conf_change_v1 := fun _ => None;
  write_conf_change_v2 := fun _ => [];
  parse_conf_change_v2 := fun _ => None
|}.
#[local] Existing Instance ten_bytes.
Import MemStorageCore.

Definition entry (i t : Z) : Entry.t := Entry.mk EntryNormal t i [] [].
Definition core3 : t := default <| entries := [entry 1 1; entry 2 1; entry 3 2] |>.

Lemma core3_ok : mem_ok core3.
Proof. split; vm_compute; auto; split; congruence. Qed.

(** Compacting up to and with the last entry, which the documentation of [compact] allows,
    loses the position of the log: the storage then reports the index after the last
    snapshot as its first one. *)
Definition compacted_away : t :=
  match compact 4 core3 with Ret (_, core) => core | _ => core3 end.


Lemma mem_storage_entries_correct_witness :
  st_entries 1 4 (Some 25) GenReady core3 = Ret (Ok [entry 1 1; entry 2 1], core3).
Proof.
  rewrite (mem_storage_entries_correct core3 1 4 (Some 25) GenReady core3_ok); [reflexivity|..]; by vm_compute.
Defined.
End witnesses.
