(* ===== verification/RaftLog.v ===== *)
(** * The Raft log ([raft_log.rs])

    Stable storage and unstable entries as one log, with the positions up to which
    it is committed, persisted and applied. *)

From S2P Require Import Prelude Proto Errors Util Log Unstable Storage.

(** [struct RaftLog] and its methods.  The logger is left out; what is computed
    only for a log message has no effect of its own. *)
Module RaftLog.
Record t {T : Type} : Type := mk {
  store : T;
  unstable : Unstable.t;
  committed : Z;
  persisted : Z;
  applied : Z
}.
Arguments t : clear implicits.
#[global] Instance eta_t {T} : Eta (t T) := fun r =>
  mk T (store r) (unstable r) (committed r) (persisted r) (applied r).
#[global] Instance set_store {T} : Setter (@store T) := ltac:(derive_setter).
#[global] Instance set_unstable {T} : Setter (@unstable T) := ltac:(derive_setter).
#[global] Instance set_committed {T} : Setter (@committed T) := ltac:(derive_setter).
#[global] Instance set_persisted {T} : Setter (@persisted T) := ltac:(derive_setter).
#[global] Instance set_applied {T} : Setter (@applied T) := ltac:(derive_setter).
Arguments mk {T}.

Section ops.
Context {T : Type} `{Storage T} `{Codec}.

Definition new (store : T) : outcome (t T) :=
  first_index ← st_first_index store ≫= result_unwrap;
  last_index ← st_last_index store ≫= result_unwrap;
  mret (mk store (Unstable.new (last_index +w 1)) (first_index -w 1) last_index (first_index -w 1)).

Definition first_index (self : t T) : outcome Z :=
  match Unstable.maybe_first_index (unstable self) with
  | Some idx => mret idx
  | None => st_first_index (store self) ≫= result_unwrap
  end.

Definition last_index (self : t T) : outcome Z :=
  match Unstable.maybe_last_index (unstable self) with
  | Some idx => mret idx
  | None => st_last_index (store self) ≫= result_unwrap
  end.

Definition term (self : t T) (idx : Z) : outcome (Result Z) :=
  first ← first_index self;
  let dummy_idx := first -w 1 in
  if idx <? dummy_idx then mret (Ok 0)
  else
    last ← last_index self;
    if last <? idx then mret (Ok 0)
    else
      term ← Unstable.maybe_term (unstable self) idx;
      match term with
      | Some term => mret (Ok term)
      | None =>
          r ← st_term (store self) idx;
          match r with
          | Ok term => mret (Ok term)
          | Err (Store Compacted) | Err (Store Unavailable) => mret r
          | Err _ => Panic
          end
      end.

Definition last_term (self : t T) : outcome Z :=
  last ← last_index self;
  r ← term self last;
  result_unwrap r.

Definition match_term (self : t T) (idx term' : Z) : outcome bool :=
  r ← term self idx;
  mret (match r with Ok t => t =? term' | Err _ => false end).

Fixpoint find_conflict (self : t T) (ents : list Entry.t) : outcome Z :=
  match ents with
  | [] => mret 0
  | e :: ents =>
      m ← match_term self (Entry.index e) (Entry.term e);
      if negb m then mret (Entry.index e) else find_conflict self ents
  end.

(** The [loop] of [find_conflict_by_term]. *)
Fixpoint conflict_loop (fuel : nat) (self : t T) (conflict_index term' : Z) : outcome (Z * option Z) :=
  match fuel with
  | O => OutOfFuel
  | S fuel =>
      r ← term self conflict_index;
      match r with
      | Ok t => if term' <? t then conflict_loop fuel self (conflict_index -w 1) term'
                else mret (conflict_index, Some t)
      | Err _ => mret (conflict_index, None)
      end
  end.

Definition find_conflict_by_term (fuel : nat) (self : t T) (index term' : Z) : outcome (Z * option Z) :=
  last_index ← last_index self;
  if last_index <? index then mret (index, None)
  else conflict_loop fuel self index term'.

Definition commit_to (to_commit : Z) : Prog (t T) unit :=
  self ← get;
  if to_commit <=? committed self then mret tt
  else
    last ← asks last_index;
    if last <? to_commit then panic
    else modify (fun s => s <| committed := to_commit |>).

Definition append (ents : list Entry.t) : Prog (t T) Z :=
  match head ents with
  | None => asks last_index
  | Some e =>
      let after := Entry.index e -w 1 in
      self ← get;
      if after <? committed self then panic
      else
        zoom unstable (fun u s => s <| unstable := u |>) (Unstable.truncate_and_append ents);;
        asks last_index
  end.

Definition maybe_append (idx term' committed' : Z) (ents : list Entry.t) : Prog (t T) (option (Z * Z)) :=
  m ← asks (fun self => match_term self idx term');
  if m : bool then
    conflict_idx ← asks (fun self => find_conflict self ents);
    self ← get;
    (if conflict_idx =? 0 then mret tt
     else if conflict_idx <=? committed self then panic
     else
       let start := conflict_idx -w (idx +w 1) in
       tail ← unwrap (subrange ents start (len ents));
       append tail;;
       when (conflict_idx -w 1 <? persisted self)
         (modify (fun s => s <| persisted := conflict_idx -w 1 |>)));;
    let last_new_index := idx +w len ents in
    commit_to (Z.min committed' last_new_index);;
    mret (Some (conflict_idx, last_new_index))
  else mret None.

Definition applied_to (idx : Z) : Prog (t T) unit :=
  if idx =? 0 then mret tt
  else
    self ← get;
    if (Z.min (committed self) (persisted self) <? idx) || (idx <? applied self) then panic
    else modify (fun s => s <| applied := idx |>).

Definition stable_entries (index term' : Z) : Prog (t T) unit :=
  zoom unstable (fun u s => s <| unstable := u |>) (Unstable.stable_entries index term').
Definition stable_snap (index : Z) : Prog (t T) unit :=
  zoom unstable (fun u s => s <| unstable := u |>) (Unstable.stable_snap index).

Definition unstable_entries (self : t T) : list Entry.t := Unstable.entries (unstable self).
Definition unstable_snapshot (self : t T) : option Snapshot.t := Unstable.snapshot (unstable self).
Definition pending_snapshot (self : t T) : option Snapshot.t := Unstable.snapshot (unstable self).

Definition must_check_outofbounds (self : t T) (low high : Z) : outcome (option Error) :=
  if high <? low then Panic
  else
    first_index ← first_index self;
    if low <? first_index then mret (Some (Store Compacted))
    else
      last ← last_index self;
      let length := last +w 1 -w first_index in
      if (low <? first_index) || (first_index +w length <? high) then Panic
      else mret None.

Definition slice (low high : Z) (max_size : option Z) (context : GetEntriesContext) :
  Prog (t T) (Result (list Entry.t)) :=
  err ← asks (fun self => must_check_outofbounds self low high);
  match err with
  | Some err => mret (Err err)
  | None =>
      if low =? high then mret (Ok [])
      else
        self ← get;
        let offset := Unstable.offset (unstable self) in
        (** [inl] is an early [return]. *)
        r ← (if low <? offset then
               let unstable_high := Z.min high offset in
               r ← zoom store (fun st s => s <| store := st |>) (st_entries low unstable_high max_size context);
               match r with
               | Err (Store Compacted) | Err (Store LogTemporarilyUnavailable) => mret (inl r)
               | Err _ => panic
               | Ok entries =>
                   if len entries <? unstable_high -w low then mret (inl (Ok entries))
                   else mret (inr entries)
               end
             else mret (inr []));
        match r with
        | inl r => mret r
        | inr ents =>
            ents ← (if offset <? high then
                      unstable ← lift (Unstable.slice (unstable self) (Z.max low offset) high);
                      mret (ents ++ unstable)
                    else mret ents);
            mret (Ok (limit_size compute_size ents max_size))
        end
  end.

Definition entries (idx : Z) (max_size : option Z) (context : GetEntriesContext) :
  Prog (t T) (Result (list Entry.t)) :=
  last ← asks last_index;
  if last <? idx then mret (Ok [])
  else slice idx (last +w 1) max_size context.

(** Retries while a compaction races with it. *)
Fixpoint all_entries (fuel : nat) : Prog (t T) (list Entry.t) :=
  match fuel with
  | O => fun _ => OutOfFuel
  | S fuel =>
      first_index ← asks first_index;
      r ← entries first_index None (Empty false);
      match r with
      | Err e => if Error_eqb e (Store Compacted) then all_entries fuel else panic
      | Ok ents => mret ents
      end
  end.

Definition is_up_to_date (self : t T) (last_index' term' : Z) : outcome bool :=
  last_term1 ← last_term self;
  if last_term1 <? term' then mret true
  else
    last ← last_index self;
    mret ((term' =? last_term1) && (last <=? last_index')).

Definition next_entries_since (since_idx : Z) (max_size : option Z) : Prog (t T) (option (list Entry.t)) :=
  self ← get;
  first ← asks first_index;
  let offset := Z.max (since_idx +w 1) first in
  let high := Z.min (committed self) (persisted self) +w 1 in
  if offset <? high then
    r ← slice offset high max_size GenReady;
    match r with
    | Ok vec => mret (Some vec)
    | Err _ => panic
    end
  else mret None.

Definition next_entries (max_size : option Z) : Prog (t T) (option (list Entry.t)) :=
  self ← get;
  next_entries_since (applied self) max_size.

Definition has_next_entries_since (self : t T) (since_idx : Z) : outcome bool :=
  first ← first_index self;
  let offset := Z.max (since_idx +w 1) first in
  let high := Z.min (committed self) (persisted self) +w 1 in
  mret (offset <? high).

Definition has_next_entries (self : t T) : outcome bool := has_next_entries_since self (applied self).

Definition snapshot (request_index to : Z) : Prog (t T) (Result Snapshot.t) :=
  self ← get;
  let from_store := zoom store (fun st s => s <| store := st |>) (st_snapshot request_index to) in
  match Unstable.snapshot (unstable self) with
  | Some snap =>
      if request_index <=? SnapshotMetadata.index (Snapshot.metadata snap) then mret (Ok snap)
      else from_store
  | None => from_store
  end.

Definition maybe_commit (max_index term' : Z) : Prog (t T) bool :=
  self ← get;
  if max_index <=? committed self then mret false
  else
    r ← asks (fun self => term self max_index);
    match r with
    | Ok t => if t =? term' then commit_to max_index;; mret true else mret false
    | Err _ => mret false
    end.

Definition maybe_persist (index term' : Z) : Prog (t T) bool :=
  self ← get;
  let first_update_index :=
    match Unstable.snapshot (unstable self) with
    | Some s => SnapshotMetadata.index (Snapshot.metadata s)
    | None => Unstable.offset (unstable self)
    end in
  if (persisted self <? index) && (index <? first_update_index) then
    r ← asks (fun self => st_term (store self) index);
    match r with
    | Ok t => if t =? term' then modify (fun s => s <| persisted := index |>);; mret true else mret false
    | Err _ => mret false
    end
  else mret false.

Definition maybe_persist_snap (index : Z) : Prog (t T) bool :=
  self ← get;
  if persisted self <? index then
    if committed self <? index then panic
    else if Unstable.offset (unstable self) <=? index then panic
    else modify (fun s => s <| persisted := index |>);; mret true
  else mret false.

Definition restore (snapshot : Snapshot.t) : Prog (t T) unit :=
  self ← get;
  let index := SnapshotMetadata.index (Snapshot.metadata snapshot) in
  assert (committed self <=? index);;
  when (committed self <? persisted self) (modify (fun s => s <| persisted := committed s |>));;
  modify (fun s => s <| committed := index |>);;
  modify (fun s => s <| unstable := Unstable.restore snapshot (unstable s) |>).

Definition commit_info (self : t T) : outcome (Z * Z) :=
  r ← term self (committed self);
  match r with
  | Ok t => mret (committed self, t)
  | Err _ => Panic
  end.

End ops.
End RaftLog.

(** ** The abstract log of a Raft log *)
Section view.
Context {T : Type} `{StorageLaws T} `{Codec}.
Import RaftLog.
Implicit Types rl : RaftLog.t T.

Definition view rl : ALog.t :=
  match Unstable.snapshot (unstable rl) with
  | Some _ => unstable_log (unstable rl)
  | None => ALog.append (ALog.truncate (storage_log (store rl)) (Unstable.offset (unstable rl)))
              (Unstable.entries (unstable rl))
  end.

Abbreviation offset rl := (Unstable.offset (unstable rl)).

(** The storage continues to the offset; where nothing is unstable it ends there. *)
Definition joined rl : Prop :=
  ALog.base (storage_log (store rl)) < offset rl <= ALog.last (storage_log (store rl)) + 1 /\
  (Unstable.entries (unstable rl) = [] -> offset rl = ALog.last (storage_log (store rl)) + 1).

Record log_ok rl : Prop := {
  lo_store : storage_ok (store rl);
  lo_unstable : unstable_ok (unstable rl);
  lo_joined : Unstable.snapshot (unstable rl) = None -> joined rl;
  lo_committed : ALog.base (view rl) <= committed rl <= ALog.last (view rl);
  lo_applied : 0 <= applied rl <= Z.min (committed rl) (persisted rl);
  lo_persisted : persisted rl < offset rl
}.

Lemma view_last rl : log_ok rl -> ALog.last (view rl) = offset rl + len (Unstable.entries (unstable rl)) - 1.
Proof.
  intros Hok. unfold view. destruct (Unstable.snapshot (unstable rl)) eqn:Es.
  - unfold ALog.last. simpl. lia.
  - destruct (lo_joined _ Hok Es). rewrite last_append, last_truncate by lia. lia.
Qed.

Lemma view_base rl : ALog.base (view rl) =
  match Unstable.snapshot (unstable rl) with
  | Some _ => offset rl - 1
  | None => ALog.base (storage_log (store rl))
  end.
Proof. unfold view. by destruct (Unstable.snapshot (unstable rl)). Qed.

Lemma view_ok rl : log_ok rl -> ALog.ok (view rl).
Proof.
  intros Hok. pose proof (lo_unstable _ Hok) as Hu. unfold view. destruct (Unstable.snapshot (unstable rl)) eqn:Es.
  - split; simpl; [pose proof (uo_offset _ Hu); lia|].
    replace (offset rl - 1 + 1) with (offset rl) by lia. apply Hu.
  - destruct (lo_joined _ Hok Es). pose proof (storage_log_ok _ (lo_store _ Hok)) as Hs.
    apply ok_append; [by apply ok_truncate|]. rewrite last_truncate by lia.
    replace (Z.min _ _ + 1) with (offset rl) by lia. apply Hu.
Qed.

Lemma base_lt_offset rl : log_ok rl -> ALog.base (view rl) < offset rl.
Proof.
  intros Hok. rewrite view_base. destruct (Unstable.snapshot (unstable rl)) eqn:Es; [lia|].
  apply (lo_joined _ Hok Es).
Qed.

Lemma view_bounds rl : log_ok rl ->
  0 <= ALog.base (view rl) /\ offset rl <= ALog.last (view rl) + 1 /\ ALog.last (view rl) < u64_MAX.
Proof.
  intros Hok. pose proof (view_ok _ Hok) as [? _]. pose proof (uo_bound _ (lo_unstable _ Hok)).
  rewrite view_last by done. pose proof (len_nonneg (Unstable.entries (unstable rl))). lia.
Qed.

(** Below the offset the log is the storage's, from the offset on it is unstable. *)
Lemma at_index_stable rl i : log_ok rl -> Unstable.snapshot (unstable rl) = None -> i < offset rl ->
  ALog.at_index (view rl) i = ALog.at_index (storage_log (store rl)) i.
Proof.
  intros Hok Es Hi. unfold view. rewrite Es, at_index_append, at_index_truncate.
  destruct (lo_joined _ Hok Es). rewrite last_truncate by lia.
  rewrite (proj2 (Z.ltb_lt _ _)) by lia. by rewrite (proj2 (Z.leb_le _ _)) by lia.
Qed.

Lemma at_index_unstable rl i : log_ok rl -> offset rl <= i ->
  ALog.at_index (view rl) i = index (Unstable.entries (unstable rl)) (i - offset rl).
Proof.
  intros Hok Hi. unfold view. destruct (Unstable.snapshot (unstable rl)) eqn:Es.
  - unfold ALog.at_index. simpl. f_equal. lia.
  - destruct (lo_joined _ Hok Es). rewrite at_index_append. rewrite last_truncate by lia.
    rewrite (proj2 (Z.leb_gt _ _)) by lia. f_equal. lia.
Qed.

Lemma first_index_run rl : log_ok rl -> first_index rl = Ret (ALog.base (view rl) + 1).
Proof.
  intros Hok. unfold first_index. rewrite view_base. destruct (Unstable.snapshot (unstable rl)) as [s|] eqn:Es.
  - rewrite (maybe_first_index_run _ _ (lo_unstable _ Hok) Es). unfold mret, outcome_ret. f_equal. lia.
  - unfold Unstable.maybe_first_index. rewrite Es. simpl. by rewrite (first_index_law _ (lo_store _ Hok)).
Qed.

Lemma last_index_run rl : log_ok rl -> last_index rl = Ret (ALog.last (view rl)).
Proof.
  intros Hok. unfold last_index. rewrite maybe_last_index_run by apply Hok. case_bool_decide as Hb.
  - destruct Hb as [He Es]. rewrite (last_index_law _ (lo_store _ Hok)). simpl. unfold mret, outcome_ret. f_equal.
    rewrite view_last, He, len_nil by done. destruct (lo_joined _ Hok Es) as [_ Hj]. rewrite (Hj He). lia.
  - by rewrite view_last.
Qed.

(** The term of a position: outside the log the code answers 0; the term before
    the first entry may have been compacted away. *)
Definition lterm (l : ALog.t) (i : Z) : option Z :=
  if (ALog.base l <=? i) && (i <=? ALog.last l) then ALog.term_at l i else Some 0.

Lemma term_run rl i : log_ok rl -> 0 <= i ->
  term rl i = Ret (match lterm (view rl) i with Some t => Ok t | None => Err (Store Compacted) end).
Proof.
  intros Hok Hi. unfold term, lterm. rewrite first_index_run by done. cbn [mbind outcome_bind].
  pose proof (view_bounds rl Hok) as (? & ? & ?). pose proof (base_lt_offset rl Hok).
  rewrite u64_sub_small by u64_lia. replace (ALog.base (view rl) + 1 - 1) with (ALog.base (view rl)) by lia.
  destruct (Z.ltb_spec i (ALog.base (view rl))) as [Hb|Hb].
  { rewrite (proj2 (Z.leb_gt _ _)) by lia. done. }
  rewrite (proj2 (Z.leb_le _ _)) by lia. rewrite last_index_run by done. cbn [mbind outcome_bind andb].
  destruct (Z.ltb_spec (ALog.last (view rl)) i) as [Hl|Hl].
  { rewrite (proj2 (Z.leb_gt _ _)) by lia. done. }
  rewrite (proj2 (Z.leb_le _ _)) by lia. rewrite maybe_term_run by (done || apply Hok). cbn [mbind outcome_bind].
  destruct (Z.ltb_spec i (offset rl)) as [Ho|Ho].
  - destruct (Unstable.snapshot (unstable rl)) as [s|] eqn:Es.
    + rewrite view_base, Es in Hb. assert (i = offset rl - 1) as -> by lia. rewrite Z.eqb_refl.
      unfold ALog.term_at, view. rewrite Es. simpl. by rewrite Z.eqb_refl, Es.
    + destruct (lo_joined _ Hok Es) as [Hj _]. unfold ALog.term_at. rewrite at_index_stable by done.
      pose proof (view_base rl) as Eb. rewrite Es in Eb. rewrite Eb in *.
      assert (ALog.base_term (view rl) = ALog.base_term (storage_log (store rl))) as -> by (unfold view; by rewrite Es).
      destruct (Z.eqb_spec i (ALog.base (storage_log (store rl)))) as [->|Hne].
      * rewrite term_base_law by apply Hok. simpl. by destruct (ALog.base_term _).
      * destruct (term_law (store rl) i (lo_store _ Hok) ltac:(lia)) as (t & Ht & ->). simpl.
        unfold ALog.term_at in Ht. rewrite (proj2 (Z.eqb_neq _ _) Hne) in Ht. by rewrite Ht.
  - unfold ALog.term_at. rewrite at_index_unstable by done.
    destruct (Z.eqb_spec i (ALog.base (view rl))); [lia|].
    destruct (index_is_Some (Unstable.entries (unstable rl)) (i - offset rl)) as [e ->]; [|done].
    rewrite view_last in Hl by done. lia.
Qed.

Lemma lterm_inside l i : ALog.base l < i <= ALog.last l ->
  exists e, ALog.at_index l i = Some e /\ lterm l i = Some (Entry.term e).
Proof.
  intros Hi. destruct (at_index_is_Some l i Hi) as [e He]. exists e. split; [done|]. unfold lterm, ALog.term_at.
  rewrite !(proj2 (Z.leb_le _ _)) by lia. simpl. rewrite (proj2 (Z.eqb_neq _ _)) by lia. by rewrite He.
Qed.

(** A position matches a term; the code also lets 0 match outside the log. *)
Definition matches (l : ALog.t) (i t : Z) : bool := bool_decide (lterm l i = Some t).

Lemma match_term_run rl i t : log_ok rl -> 0 <= i -> match_term rl i t = Ret (matches (view rl) i t).
Proof.
  intros Hok Hi. unfold match_term, matches. rewrite term_run by done. simpl. unfold mret, outcome_ret. f_equal.
  destruct (lterm (view rl) i) as [t'|]; [|by rewrite bool_decide_eq_false_2].
  destruct (Z.eqb_spec t' t); [subst; by rewrite bool_decide_eq_true_2|by rewrite bool_decide_eq_false_2 by congruence].
Qed.

Fixpoint first_mismatch (l : ALog.t) (es : list Entry.t) : Z :=
  match es with
  | [] => 0
  | e :: es => if matches l (Entry.index e) (Entry.term e) then first_mismatch l es else Entry.index e
  end.

Lemma find_conflict_run rl es i : log_ok rl -> 0 <= i -> ALog.contiguous i es ->
  find_conflict rl es = Ret (first_mismatch (view rl) es).
Proof.
  intros Hok. revert i. induction es as [|e es IH]; intros i Hi; [done|]. intros [He Hc]. simpl.
  rewrite match_term_run by (done || lia). simpl. destruct (matches _ _ _); simpl; [|done].
  apply (IH (i + 1)); [lia|done].
Qed.

(** What [find_conflict] finds among entries that start at [i]. *)
Lemma first_mismatch_spec l es i : 0 < i -> ALog.contiguous i es ->
  let c := first_mismatch l es in
  (c = 0 /\ Forall (fun e => matches l (Entry.index e) (Entry.term e) = true) es) \/
  (exists k e, es !! k = Some e /\ c = i + Z.of_nat k /\ Entry.index e = c /\
     matches l (Entry.index e) (Entry.term e) = false /\
     Forall (fun e => matches l (Entry.index e) (Entry.term e) = true) (take k es)).
Proof.
  revert i. induction es as [|e es IH]; intros i Hi; simpl; [by left|]. intros [He Hc].
  destruct (matches l (Entry.index e) (Entry.term e)) eqn:E.
  - destruct (IH (i + 1) ltac:(lia) Hc) as [[-> Hf]|(k & x & Hk & -> & Hx & Hm & Hf)].
    + left. by split; [|constructor].
    + right. exists (S k), x. split; [done|]. split; [lia|]. split; [lia|]. split; [done|]. by constructor.
  - right. exists 0%nat, e. split; [done|]. split; [lia|]. by split; [|split].
Qed.
End view.

(** ** The operations on the abstract log *)
Section operations.
Context {T : Type} `{StorageLaws T} `{Codec}.
Import RaftLog.
Implicit Types rl : RaftLog.t T.
Abbreviation offset rl := (Unstable.offset (unstable rl)).

(** Entries that may be appended: consecutive, and above the committed index. *)
Record appendable rl (es : list Entry.t) (e : Entry.t) : Prop := {
  ap_head : head es = Some e;
  ap_contiguous : ALog.contiguous (Entry.index e) es;
  ap_above : committed rl < Entry.index e <= ALog.last (view rl) + 1;
  ap_bound : Entry.index e + len es <= u64_MAX
}.

Lemma appendable_unstable rl es e : log_ok rl -> appendable rl es e ->
  0 < Entry.index e <= offset rl + len (Unstable.entries (unstable rl)) /\
  (forall s, Unstable.snapshot (unstable rl) = Some s -> offset rl <= Entry.index e).
Proof.
  intros Hok [_ _ Ha _]. rewrite view_last in Ha by done. pose proof (lo_committed _ Hok) as Hc.
  pose proof (view_bounds _ Hok). rewrite view_base in *. split; [lia|]. intros s Es. rewrite Es in *. lia.
Qed.

Lemma last_index_unstable rl : unstable_ok (unstable rl) -> Unstable.entries (unstable rl) <> [] ->
  last_index rl = Ret (unstable_last (unstable rl)).
Proof.
  intros Hu Hne. unfold last_index. rewrite maybe_last_index_run by done.
  rewrite bool_decide_eq_false_2; [done|]. tauto.
Qed.

Lemma unstable_append_last u es after : 0 < after <= Unstable.offset u + len (Unstable.entries u) ->
  unstable_last (unstable_append u es after) = after + len es - 1.
Proof.
  intros Ha. unfold unstable_last, unstable_append. fields. rewrite len_app.
  destruct (Z.leb_spec after (Unstable.offset u)).
  - rewrite len_nil, Z.min_r by lia. lia.
  - rewrite Z.min_l by lia. unfold len in *. rewrite length_take. lia.
Qed.

Lemma append_run rl es e : log_ok rl -> appendable rl es e ->
  append es rl = Ret (Entry.index e + len es - 1,
    rl <| unstable := unstable_append (unstable rl) es (Entry.index e) |>).
Proof.
  intros Hok Hap. destruct (appendable_unstable rl es e Hok Hap) as [Hr Hs]. destruct Hap as [Hh Hc Ha Hb].
  pose proof (lo_unstable _ Hok) as Hu. unfold append. rewrite Hh. prog_unfold.
  pose proof (lo_committed _ Hok). pose proof (view_bounds _ Hok).
  rewrite u64_sub_small by u64_lia. rewrite (proj2 (Z.ltb_ge _ _)) by lia.
  rewrite (truncate_and_append_run _ _ _ Hu Hh Hr).
  pose proof (unstable_append_ok _ _ _ Hu Hh Hr Hc Hb Hs) as Hu'.
  rewrite last_index_unstable; fields; [|done|].
  - by rewrite unstable_append_last.
  - unfold unstable_append. fields. intros [_ ->]%app_nil. done.
Qed.

(** The log after an append, with the persisted index lowered to [p]. *)
Definition appended rl (es : list Entry.t) (e : Entry.t) (p : Z) : RaftLog.t T :=
  rl <| unstable := unstable_append (unstable rl) es (Entry.index e) |> <| persisted := p |>.

Lemma view_appended rl es e p : log_ok rl -> appendable rl es e ->
  view (appended rl es e p) = ALog.append (ALog.truncate (view rl) (Entry.index e)) es.
Proof.
  intros Hok Hap. destruct (appendable_unstable rl es e Hok Hap) as [Hr Hs]. destruct Hap as [Hh Hc Ha Hb].
  pose proof (lo_committed _ Hok) as Hcm.
  unfold view, appended, unstable_append. fields. destruct (Unstable.snapshot (unstable rl)) as [s|] eqn:Es.
  - specialize (Hs s eq_refl). rewrite Z.min_l by lia. unfold unstable_log, ALog.append, ALog.truncate. fields. simpl. f_equal.
    f_equal. replace (Entry.index e - (offset rl - 1) - 1) with (Entry.index e - offset rl) by lia.
    destruct (Z.leb_spec (Entry.index e) (offset rl)); [|done].
    by replace (Entry.index e - offset rl) with 0 by lia.
  - unfold ALog.append, ALog.truncate. simpl. f_equal. rewrite app_assoc. f_equal.
    destruct (lo_joined _ Hok Es) as [Hj _]. rewrite view_base, Es in Hcm. unfold ALog.last in Hj.
    set (S := ALog.ents (storage_log (store rl))) in *. set (b := ALog.base (storage_log (store rl))) in *.
    destruct (Z.leb_spec (Entry.index e) (offset rl)).
    + rewrite app_nil_r, Z.min_r by lia. rewrite take_app_le by (rewrite length_take; unfold len in *; lia).
      rewrite take_take. f_equal. lia.
    + rewrite Z.min_l by lia. rewrite take_app_ge by (rewrite length_take; unfold len in *; lia).
      f_equal. f_equal. rewrite length_take. unfold len in *. lia.
Qed.

Lemma appended_ok rl es e p : log_ok rl -> appendable rl es e ->
  applied rl <= p < Entry.index e -> p < offset rl -> log_ok (appended rl es e p).
Proof.
  intros Hok Hap Hp Hpo. pose proof (view_appended rl es e p Hok Hap) as Hv.
  destruct (appendable_unstable rl es e Hok Hap) as [Hr Hs]. destruct Hap as [Hh Hc Ha Hb].
  pose proof (lo_committed _ Hok). pose proof (lo_applied _ Hok).
  assert (es <> []) by (intros ->; done). pose proof (len_nonneg es).
  split; rewrite ?Hv; unfold appended; fields.
  - apply Hok.
  - apply unstable_append_ok; try done. apply Hok.
  - unfold unstable_append. fields. intros Es. destruct (lo_joined _ Hok Es) as [Hj _]. rewrite view_base, Es in *.
    unfold joined. fields. split; [lia|]. intros [_ ->]%app_nil. done.
  - rewrite base_append, base_truncate, last_append, last_truncate by lia. lia.
  - lia.
  - unfold unstable_append. fields. lia.
Qed.

Lemma commit_to_run rl i : log_ok rl -> i <= ALog.last (view rl) ->
  commit_to i rl = Ret (tt, rl <| committed := Z.max (committed rl) i |>).
Proof.
  intros Hok Hi. unfold commit_to. prog_unfold. destruct (Z.leb_spec i (committed rl)).
  - rewrite Z.max_l by done. by destruct rl.
  - rewrite last_index_run by done. rewrite (proj2 (Z.ltb_ge _ _)) by lia. by rewrite Z.max_r by lia.
Qed.

Lemma commit_to_panics rl i : log_ok rl -> ALog.last (view rl) < i -> commit_to i rl = Panic.
Proof.
  intros Hok Hi. unfold commit_to. prog_unfold. pose proof (lo_committed _ Hok).
  rewrite (proj2 (Z.leb_gt _ _)) by lia. rewrite last_index_run by done. by rewrite (proj2 (Z.ltb_lt _ _)).
Qed.

Lemma view_committed rl c : view (rl <| committed := c |>) = view rl.
Proof. done. Qed.
Lemma view_persisted rl p : view (rl <| persisted := p |>) = view rl.
Proof. done. Qed.
Lemma view_applied rl p : view (rl <| applied := p |>) = view rl.
Proof. done. Qed.

Lemma committed_ok rl c : log_ok rl -> committed rl <= c <= ALog.last (view rl) -> log_ok (rl <| committed := c |>).
Proof.
  intros [] Hc. split; rewrite ?view_committed; fields; try done; lia.
Qed.

(** ** [maybe_append] *)

(** The log and the positions after an accepted append: [c] is the first
    position that was missing or in conflict, 0 when there was none. *)
Definition accept_append rl (idx ca : Z) (es : list Entry.t) : RaftLog.t T :=
  let c := first_mismatch (view rl) es in
  let tail := drop (Z.to_nat (c - (idx + 1))) es in
  let rl := if c =? 0 then rl
            else rl <| unstable := unstable_append (unstable rl) tail c |>
                    <| persisted := Z.min (persisted rl) (c - 1) |> in
  rl <| committed := Z.max (committed rl) (Z.min ca (idx + len es)) |>.

Lemma subrange_from {A} (l : list A) lo : 0 <= lo <= len l ->
  subrange l lo (len l) = Some (drop (Z.to_nat lo) l).
Proof.
  intros Hl. unfold subrange. rewrite !(proj2 (Z.leb_le _ _)) by lia. simpl.
  rewrite take_ge; [done|]. rewrite length_drop. unfold len in *. lia.
Qed.

(** A mismatch above the committed index leaves an appendable tail. *)
Lemma mismatch_appendable rl idx es : log_ok rl -> 0 <= idx -> ALog.contiguous (idx + 1) es ->
  idx + len es < u64_MAX -> idx <= ALog.last (view rl) ->
  Forall (fun e => Entry.term e <> 0) es ->
  let c := first_mismatch (view rl) es in c <> 0 -> committed rl < c ->
  idx < c /\ c - (idx + 1) <= len es /\
  exists e, Entry.index e = c /\ appendable rl (drop (Z.to_nat (c - (idx + 1))) es) e.
Proof.
  intros Hok Hidx Hc Hb Hlast Hterms c Hc0 Hcm.
  destruct (first_mismatch_spec (view rl) es (idx + 1) ltac:(lia) Hc) as [[Hz _]|(k & e & Hk & Hck & Hek & Hm & Hf)]; [done|].
  fold c in Hck, Hek. pose proof (lookup_lt_Some _ _ _ Hk) as Hlt.
  split; [lia|]. split; [unfold len; lia|]. exists e. split; [done|].
  replace (Z.to_nat (c - (idx + 1))) with k by lia. split.
  - by rewrite head_lookup, lookup_drop, Nat.add_0_r.
  - rewrite Hek, Hck. replace (idx + 1 + Z.of_nat k) with (idx + 1 + Z.of_nat k) by lia.
    apply contiguous_drop; [lia|done].
  - rewrite Hek. split; [done|]. destruct k as [|k]; [lia|].
    (* the entry before the mismatch is in the log *)
    destruct (lookup_lt_is_Some_2 es k ltac:(lia)) as [e' He'].
    pose proof (contiguous_lookup _ _ _ _ Hc He') as Hi'.
    assert (matches (view rl) (Entry.index e') (Entry.term e') = true) as Hm'.
    { rewrite Forall_lookup in Hf. apply (Hf k). rewrite lookup_take_lt by lia. done. }
    unfold matches, lterm in Hm'. apply bool_decide_eq_true in Hm'.
    assert (Entry.term e' <> 0) by (rewrite Forall_lookup in Hterms; by eapply Hterms).
    destruct (Z.leb_spec (ALog.base (view rl)) (Entry.index e')), (Z.leb_spec (Entry.index e') (ALog.last (view rl)));
      simpl in Hm'; simplify_eq; lia.
  - rewrite Hek. unfold len in *. rewrite length_drop. lia.
Qed.

Lemma maybe_append_run rl idx t ca es : log_ok rl -> 0 <= idx -> ALog.contiguous (idx + 1) es ->
  idx + len es < u64_MAX -> idx <= ALog.last (view rl) -> Forall (fun e => Entry.term e <> 0) es ->
  let c := first_mismatch (view rl) es in
  maybe_append idx t ca es rl =
    if negb (matches (view rl) idx t) then Ret (None, rl)
    else if negb (c =? 0) && (c <=? committed rl) then Panic
    else Ret (Some (c, idx + len es), accept_append rl idx ca es).
Proof.
  intros Hok Hidx Hc Hb Hlast Hterms c. unfold maybe_append. erewrite bind_run by (apply asks_run, match_term_run; done).
  destruct (matches (view rl) idx t); [|done]. cbn [negb].
  erewrite bind_run by (eapply asks_run, find_conflict_run; [done| |exact Hc]; lia).
  erewrite bind_run by done. fold c. unfold accept_append. fold c.
  pose proof (len_nonneg es).
  destruct (Z.eqb_spec c 0) as [Hc0|Hc0]; cbn [negb andb].
  - erewrite bind_run by done. rewrite u64_add_small by u64_lia.
    erewrite bind_run; [reflexivity|]. apply commit_to_run; [done|].
    destruct (first_mismatch_spec (view rl) es (idx + 1) ltac:(lia) Hc) as [[_ Hf]|(k & e & Hk & Hck & Hek & _)]; [|fold c in Hck; lia].
    destruct (decide (es = [])) as [->|Hne]; [rewrite len_nil; lia|].
    destruct (last es) as [e|] eqn:El; [|by apply last_None in El].
    pose proof (contiguous_last _ _ _ Hc El) as Hie.
    assert (e ∈ es) as Hin by (rewrite last_lookup in El; by eapply list_elem_of_lookup_2).
    rewrite Forall_forall in Hf, Hterms. specialize (Hf e Hin). specialize (Hterms e Hin).
    unfold matches, lterm in Hf. apply bool_decide_eq_true in Hf.
    destruct (Z.leb_spec (ALog.base (view rl)) (Entry.index e)), (Z.leb_spec (Entry.index e) (ALog.last (view rl)));
      simpl in Hf; simplify_eq; lia.
  - destruct (Z.leb_spec c (committed rl)) as [Hcm|Hcm]; [done|].
    destruct (mismatch_appendable rl idx es Hok Hidx Hc Hb Hlast Hterms Hc0 Hcm) as (Hci & Hcl & e & Hec & Hap).
    fold c in Hci, Hcl, Hec, Hap. set (tail := drop (Z.to_nat (c - (idx + 1))) es) in *.
    pose proof (lo_applied _ Hok). pose proof (lo_persisted _ Hok).
    pose proof (appended_ok rl tail e (Z.min (persisted rl) (c - 1)) Hok Hap ltac:(lia) ltac:(lia)) as Hok'.
    pose proof (view_appended rl tail e (Z.min (persisted rl) (c - 1)) Hok Hap) as Hv.
    rewrite (u64_add_small idx 1), (u64_sub_small c 1), (u64_sub_small c (idx + 1)), u64_add_small by u64_lia.
    etrans; [eapply bind_run|].
    { rewrite subrange_from by lia. erewrite bind_run by done. fold tail.
      erewrite bind_run by (by apply append_run). unfold when. fields.
      instantiate (1 := appended rl tail e (Z.min (persisted rl) (c - 1))). instantiate (1 := tt).
      unfold appended. rewrite Hec. destruct (Z.ltb_spec (c - 1) (persisted rl)).
      - rewrite Z.min_r by lia. done.
      - rewrite Z.min_l by lia. destruct rl; done. }
    etrans; [eapply bind_run, commit_to_run; [done|]|].
    + rewrite Hv, last_append, last_truncate by (pose proof (lo_committed _ Hok); lia).
      assert (len tail = len es - (c - (idx + 1))) by (unfold tail, len in *; rewrite length_drop; lia).
      pose proof (ap_above _ _ _ Hap). lia.
    + unfold appended. rewrite Hec. done.
Qed.

Definition accepted_view rl (idx : Z) (es : list Entry.t) : ALog.t :=
  let c := first_mismatch (view rl) es in
  if c =? 0 then view rl
  else ALog.append (ALog.truncate (view rl) c) (drop (Z.to_nat (c - (idx + 1))) es).

Lemma mismatch_facts rl idx es : 0 <= idx -> ALog.contiguous (idx + 1) es ->
  let c := first_mismatch (view rl) es in
  (c = 0 \/ idx < c <= idx + len es) /\
  (forall e, e ∈ es -> c = 0 \/ Entry.index e < c -> lterm (view rl) (Entry.index e) = Some (Entry.term e)) /\
  (forall e, e ∈ es -> Entry.index e = c -> lterm (view rl) c <> Some (Entry.term e)).
Proof.
  intros Hidx Hc c. pose proof (first_mismatch_spec (view rl) es (idx + 1) ltac:(lia) Hc) as Hs. cbv zeta in Hs. fold c in Hs.
  assert (Hm : forall e, matches (view rl) (Entry.index e) (Entry.term e) = true ->
    lterm (view rl) (Entry.index e) = Some (Entry.term e)) by (intros e He; by apply bool_decide_eq_true in He).
  destruct Hs as [[Hc0 Hf]|(k & e' & Hk & Hck & Hek & Hne & Hf)].
  - split; [by left|]. rewrite Forall_forall in Hf. split; [intros e He _; by apply Hm, Hf|].
    intros e He Hi. apply list_elem_of_lookup_1 in He as [n Hn]. pose proof (contiguous_lookup _ _ _ _ Hc Hn). lia.
  - pose proof (lookup_lt_Some _ _ _ Hk). split; [right; unfold len; lia|]. split.
    + intros e He Hlt. apply Hm. apply list_elem_of_lookup_1 in He as [n Hn]. pose proof (contiguous_lookup _ _ _ _ Hc Hn).
      rewrite Forall_lookup in Hf. apply (Hf n). rewrite lookup_take_lt by lia. done.
    + intros e He Hi. apply list_elem_of_lookup_1 in He as [n Hn]. pose proof (contiguous_lookup _ _ _ _ Hc Hn).
      assert (n = k) as -> by lia. simplify_eq. rewrite <-Hi. apply bool_decide_eq_false in Hne. done.
Qed.

Lemma accepted_last rl idx es : log_ok rl -> 0 <= idx -> ALog.contiguous (idx + 1) es ->
  idx + len es < u64_MAX -> idx <= ALog.last (view rl) -> Forall (fun e => Entry.term e <> 0) es ->
  let c := first_mismatch (view rl) es in c = 0 \/ committed rl < c ->
  ALog.last (accepted_view rl idx es) = if c =? 0 then ALog.last (view rl) else idx + len es.
Proof.
  intros Hok Hidx Hc Hb Hlast Ht c Hcase. unfold accepted_view. fold c. destruct (Z.eqb_spec c 0) as [|Hc0]; [done|].
  destruct Hcase as [?|Hcm]; [done|].
  destruct (mismatch_appendable rl idx es Hok Hidx Hc Hb Hlast Ht Hc0 Hcm) as (Hci & Hcl & e & Hec & Hap).
  fold c in Hci, Hcl, Hec, Hap. pose proof (ap_above _ _ _ Hap). pose proof (lo_committed _ Hok).
  rewrite last_append, last_truncate by lia. unfold len in *. rewrite length_drop. lia.
Qed.

Section accepted.
Context (rl : RaftLog.t T) (idx ca : Z) (es : list Entry.t).
Let c := first_mismatch (view rl) es.

Lemma accept_append_ok : log_ok rl -> 0 <= idx -> ALog.contiguous (idx + 1) es ->
  idx + len es < u64_MAX -> idx <= ALog.last (view rl) -> Forall (fun e => Entry.term e <> 0) es ->
  c = 0 \/ committed rl < c ->
  log_ok (accept_append rl idx ca es) /\ view (accept_append rl idx ca es) = accepted_view rl idx es /\
  idx + len es <= ALog.last (accepted_view rl idx es).
Proof.
  intros Hok Hidx Hc Hb Hlast Hterms Hcase. unfold accept_append, accepted_view. fold c.
  pose proof (len_nonneg es). pose proof (lo_committed _ Hok). destruct (Z.eqb_spec c 0) as [Hc0|Hc0].
  - assert (Hle : idx + len es <= ALog.last (view rl)).
    { destruct (first_mismatch_spec (view rl) es (idx + 1) ltac:(lia) Hc) as [[_ Hf]|(k & e & Hk & Hck & Hek & _)]; [|fold c in Hck; lia].
      destruct (decide (es = [])) as [->|Hne]; [rewrite len_nil; lia|].
      destruct (last es) as [e|] eqn:El; [|by apply last_None in El].
      pose proof (contiguous_last _ _ _ Hc El) as Hie.
      assert (e ∈ es) as Hin by (rewrite last_lookup in El; by eapply list_elem_of_lookup_2).
      rewrite Forall_forall in Hf, Hterms. specialize (Hf e Hin). specialize (Hterms e Hin).
      unfold matches, lterm in Hf. apply bool_decide_eq_true in Hf.
      destruct (Z.leb_spec (ALog.base (view rl)) (Entry.index e)), (Z.leb_spec (Entry.index e) (ALog.last (view rl)));
        simpl in Hf; simplify_eq; lia. }
    split; [|done]. apply committed_ok; [done|lia].
  - destruct Hcase as [?|Hcm]; [done|].
    destruct (mismatch_appendable rl idx es Hok Hidx Hc Hb Hlast Hterms Hc0 Hcm) as (Hci & Hcl & e & Hec & Hap).
    fold c in Hci, Hcl, Hec, Hap. set (tail := drop (Z.to_nat (c - (idx + 1))) es) in *.
    pose proof (lo_applied _ Hok). pose proof (lo_persisted _ Hok). pose proof (ap_above _ _ _ Hap) as Hab.
    pose proof (appended_ok rl tail e (Z.min (persisted rl) (c - 1)) Hok Hap ltac:(lia) ltac:(lia)) as Hok'.
    pose proof (view_appended rl tail e (Z.min (persisted rl) (c - 1)) Hok Hap) as Hv.
    rewrite view_committed. unfold appended in Hok', Hv. rewrite Hec in *.
    assert (len tail = len es - (c - (idx + 1))) by (unfold tail, len in *; rewrite length_drop; lia).
    assert (ALog.last (ALog.append (ALog.truncate (view rl) c) tail) = idx + len es) as El.
    { rewrite last_append, last_truncate by lia. lia. }
    split; [|split; [exact Hv|lia]]. apply committed_ok; [done|]. rewrite Hv, El. fields. lia.
Qed.

(** The log matching property of an accepted append: every entry of the message
    is in the log afterwards, and what matched before is left alone. *)
Lemma accept_append_matches : log_ok rl -> 0 <= idx -> ALog.contiguous (idx + 1) es ->
  idx + len es < u64_MAX -> idx <= ALog.last (view rl) -> Forall (fun e => Entry.term e <> 0) es ->
  c = 0 \/ committed rl < c ->
  (forall e, e ∈ es -> ALog.base (view rl) < Entry.index e ->
    ALog.term_at (accepted_view rl idx es) (Entry.index e) = Some (Entry.term e)) /\
  (forall i, c = 0 \/ i < c -> ALog.at_index (accepted_view rl idx es) i = ALog.at_index (view rl) i).
Proof.
  intros Hok Hidx Hc Hb Hlast Hterms Hcase. unfold accepted_view. fold c.
  assert (Hmatch : forall e, matches (view rl) (Entry.index e) (Entry.term e) = true -> Entry.term e <> 0 ->
    ALog.term_at (view rl) (Entry.index e) = Some (Entry.term e)).
  { intros e Hm Ht. unfold matches, lterm in Hm. apply bool_decide_eq_true in Hm. case_match; [done|]. congruence. }
  pose proof (first_mismatch_spec (view rl) es (idx + 1) ltac:(lia) Hc) as Hs. cbv zeta in Hs. fold c in Hs.
  destruct Hs as [[Hc0 Hf]|(k & e' & Hk & Hck & Hek & Hm & Hf)].
  - rewrite Hc0. simpl. split; [|done]. intros e Hin Hbase. rewrite Forall_forall in Hf, Hterms.
    apply Hmatch; [by apply Hf|by apply Hterms].
  - assert (c <> 0) as Hc0 by lia. rewrite (proj2 (Z.eqb_neq _ _) Hc0). destruct Hcase as [?|Hcm]; [done|].
    destruct (mismatch_appendable rl idx es Hok Hidx Hc Hb Hlast Hterms Hc0 Hcm) as (Hci & Hcl & e0 & Hec & Hap).
    fold c in Hci, Hcl, Hec, Hap. pose proof (ap_above _ _ _ Hap) as Hab. pose proof (lo_committed _ Hok).
    assert (ALog.last (ALog.truncate (view rl) c) = c - 1) as El by (rewrite last_truncate by lia; lia).
    split.
    + intros e Hin Hbase. apply list_elem_of_lookup_1 in Hin as [n Hn]. pose proof (contiguous_lookup _ _ _ _ Hc Hn) as Hi.
      rewrite term_at_append, El. destruct (Z.leb_spec (Entry.index e) (c - 1)).
      * rewrite term_at_truncate by lia. rewrite (proj2 (Z.ltb_lt _ _)) by lia.
        rewrite Forall_lookup in Hf, Hterms. apply Hmatch; [|by eapply Hterms].
        apply (Hf n). rewrite lookup_take_lt by lia. done.
      * replace (Entry.index e - (c - 1) - 1) with (Entry.index e - c) by lia. unfold index.
        rewrite (proj2 (Z.ltb_ge _ _)) by lia. rewrite lookup_drop.
        replace (Z.to_nat (c - (idx + 1)) + Z.to_nat (Entry.index e - c))%nat with n by lia. by rewrite Hn.
    + intros i Hi. rewrite at_index_append, El, at_index_truncate.
      rewrite (proj2 (Z.leb_le _ _)), (proj2 (Z.ltb_lt _ _)) by lia. done.
Qed.
End accepted.

(** ** [slice] *)

(** What a reader of the log gets for a range inside the log. *)
Definition slice_result rl (low high : Z) (max : option Z) (ctx : GetEntriesContext)
    (r : Result (list Entry.t)) (rl' : RaftLog.t T) : Prop :=
  (exists s', rl' = rl <| store := s' |> /\ storage_ok s' /\ storage_log s' = storage_log (store rl)) /\
  ((r = Err (Store LogTemporarilyUnavailable) /\ can_async ctx = true) \/
   exists es, r = Ok es /\ es `prefix_of` ALog.range (view rl) low high /\
     (low < high -> es <> []) /\ (max = None -> es = ALog.range (view rl) low high)).

Lemma same_store rl : log_ok rl -> exists s', rl = rl <| store := s' |> /\ storage_ok s' /\ storage_log s' = storage_log (store rl).
Proof. intros Hok. exists (store rl). split; [by destruct rl|]. split; [apply Hok|done]. Qed.

Lemma range_stable rl lo hi : log_ok rl -> Unstable.snapshot (unstable rl) = None ->
  ALog.base (view rl) < lo -> hi <= offset rl ->
  ALog.range (view rl) lo hi = ALog.range (storage_log (store rl)) lo hi.
Proof.
  intros Hok Es Hlo Hhi. pose proof (view_base rl) as Eb. rewrite Es in Eb.
  apply list_eq. intros n. destruct (decide (Z.of_nat n < hi - lo)).
  - rewrite !range_lookup by lia. apply at_index_stable; [done|done|lia].
  - unfold ALog.range. by rewrite !lookup_take_ge by lia.
Qed.

Lemma range_unstable rl lo hi : log_ok rl -> offset rl <= lo ->
  ALog.range (view rl) lo hi = take (Z.to_nat (hi - lo)) (drop (Z.to_nat (lo - offset rl)) (Unstable.entries (unstable rl))).
Proof.
  intros Hok Hlo. pose proof (base_lt_offset _ Hok).
  apply list_eq. intros n. destruct (decide (Z.of_nat n < hi - lo)).
  - rewrite range_lookup by lia. rewrite at_index_unstable by (done || lia).
    rewrite lookup_take_lt by lia. rewrite lookup_drop. unfold index. rewrite (proj2 (Z.ltb_ge _ _)) by lia. f_equal. lia.
  - unfold ALog.range. by rewrite !lookup_take_ge by lia.
Qed.

Lemma unstable_slice_run rl lo hi : log_ok rl -> offset rl <= lo -> lo <= hi -> hi <= ALog.last (view rl) + 1 ->
  Unstable.slice (unstable rl) lo hi = Ret (ALog.range (view rl) lo hi).
Proof.
  intros Hok Hlo Hhi Hl. rewrite range_unstable by done. rewrite view_last in Hl by done.
  pose proof (lo_unstable _ Hok) as Hu. pose proof (uo_bound _ Hu). pose proof (uo_offset _ Hu).
  pose proof (len_nonneg (Unstable.entries (unstable rl))).
  unfold Unstable.slice, Unstable.must_check_outofbounds. rewrite (proj2 (Z.ltb_ge _ _)) by lia.
  rewrite u64_add_small by u64_lia. rewrite (proj2 (Z.ltb_ge _ _)), (proj2 (Z.ltb_ge _ _)) by lia. simpl.
  rewrite !u64_sub_small by u64_lia. unfold subrange. rewrite !(proj2 (Z.leb_le _ _)) by lia. simpl.
  replace (hi - offset rl - (lo - offset rl)) with (hi - lo) by lia. done.
Qed.

Lemma must_check_run rl lo hi : log_ok rl -> lo <= hi ->
  must_check_outofbounds rl lo hi =
    if lo <=? ALog.base (view rl) then Ret (Some (Store Compacted))
    else if ALog.last (view rl) + 1 <? hi then Panic else Ret None.
Proof.
  intros Hok Hle. unfold must_check_outofbounds. rewrite (proj2 (Z.ltb_ge _ _)) by lia.
  rewrite first_index_run by done. cbn [mbind outcome_bind].
  pose proof (view_bounds rl Hok) as (? & ? & ?). pose proof (last_base (view rl)).
  destruct (Z.leb_spec lo (ALog.base (view rl))).
  { by rewrite (proj2 (Z.ltb_lt _ _)) by lia. }
  rewrite (proj2 (Z.ltb_ge _ _)) by lia. rewrite last_index_run by done. cbn [mbind outcome_bind].
  rewrite (u64_add_small (ALog.last (view rl))), u64_sub_small, u64_add_small by u64_lia. simpl.
  replace (ALog.base (view rl) + 1 + (ALog.last (view rl) + 1 - (ALog.base (view rl) + 1))) with (ALog.last (view rl) + 1) by lia.
  done.
Qed.

Lemma prefix_eq_length {A} (l1 l2 : list A) : l1 `prefix_of` l2 -> len l2 <= len l1 -> l1 = l2.
Proof.
  intros [k ->]. rewrite len_app. intros Hl. pose proof (len_nonneg k).
  assert (len k = 0) as Hk by lia. apply len_zero_nil in Hk as ->. by rewrite app_nil_r.
Qed.

Lemma slice_run rl low high max ctx : log_ok rl ->
  ALog.base (view rl) < low -> low <= high -> high <= ALog.last (view rl) + 1 ->
  exists r rl', slice low high max ctx rl = Ret (r, rl') /\ slice_result rl low high max ctx r rl'.
Proof.
  intros Hok Hlo Hle Hhi. unfold slice. erewrite bind_run.
  2: { apply asks_run. rewrite must_check_run by done. rewrite (proj2 (Z.leb_gt _ _)), (proj2 (Z.ltb_ge _ _)) by lia. reflexivity. }
  destruct (Z.eqb_spec low high) as [->|Hne].
  { eexists _, _. split; [done|]. split; [by apply same_store|]. right. exists []. rewrite range_nil.
    split; [done|]. split; [done|]. split; [lia|done]. }
  erewrite bind_run by done. pose proof (view_bounds rl Hok) as (? & ? & ?). pose proof (base_lt_offset rl Hok).
  destruct (Z.ltb_spec low (offset rl)) as [Hlow|Hlow].
  - (* the range starts in the storage *)
    destruct (Unstable.snapshot (unstable rl)) as [s|] eqn:Es.
    { rewrite view_base, Es in Hlo. lia. }
    destruct (lo_joined _ Hok Es) as [Hj _]. pose proof (view_base rl) as Eb. rewrite Es in Eb.
    set (uh := Z.min high (offset rl)).
    destruct (entries_law (store rl) low uh max ctx (lo_store _ Hok) ltac:(lia) ltac:(lia) ltac:(lia))
      as (r & s' & E & Hs' & Hlog & Hr).
    assert (Hst : exists s', rl <| store := s' |> = rl <| store := s' |> /\ storage_ok s' /\ storage_log s' = storage_log (store rl)).
    { by exists s'. }
    destruct Hr as [[-> Hasync]|(es & -> & Hpre & Hne' & Hfull)].
    { eexists _, _. split.
      - etrans; [eapply bind_run|].
        + etrans; [eapply bind_run, zoom_run, E|]. reflexivity.
        + reflexivity.
      - split; [by exists s'|]. by left. }
    rewrite <-range_stable in Hpre, Hfull by (done || lia).
    pose proof (range_length (view rl) low uh Hlo ltac:(lia) ltac:(lia)) as Hlen.
    destruct (Z.ltb_spec (len es) (uh - low)) as [Hshort|Hlong].
    { eexists _, _. split.
      - etrans; [eapply bind_run|].
        + etrans; [eapply bind_run, zoom_run, E|]. cbv beta iota. rewrite u64_sub_small by u64_lia.
          rewrite (proj2 (Z.ltb_lt _ _) Hshort). reflexivity.
        + reflexivity.
      - split; [by exists s'|]. right. exists es. split; [done|].
        split; [etrans; [exact Hpre|]; rewrite (range_app _ low uh high) by lia; by apply prefix_app_r|].
        split; [done|]. intros Hm. rewrite (Hfull Hm) in Hshort. lia. }
    assert (es = ALog.range (view rl) low uh) as -> by (apply prefix_eq_length; [done|lia]).
    eexists _, _. split.
    + etrans; [eapply bind_run|].
      * etrans; [eapply bind_run, zoom_run, E|]. cbv beta iota. rewrite u64_sub_small by u64_lia.
        rewrite (proj2 (Z.ltb_ge _ _) Hlong). reflexivity.
      * cbv beta iota. etrans; [eapply bind_run|].
        -- instantiate (2 := ALog.range (view rl) low high). destruct (Z.ltb_spec (offset rl) high) as [Hu|Hu].
           ++ rewrite Z.max_r by lia. rewrite unstable_slice_run by (done || lia). prog_unfold.
              rewrite (range_app _ low uh high) by lia. replace uh with (offset rl) by lia. reflexivity.
           ++ replace uh with high by lia. reflexivity.
        -- reflexivity.
    + split; [by exists s'|]. right. eexists. split; [done|].
      split; [apply limit_size_prefix|]. split; [intros _; apply limit_size_nonempty|intros ->; apply limit_size_none].
      apply range_nonempty; lia.
  - eexists _, _. split.
    + etrans; [eapply bind_run; reflexivity|]. cbv beta iota. rewrite (proj2 (Z.ltb_lt _ _)) by lia.
      rewrite Z.max_l by lia. rewrite unstable_slice_run by (done || lia). prog_unfold. reflexivity.
    + split; [by apply same_store|]. right. eexists. split; [done|]. simpl.
      split; [apply limit_size_prefix|]. split; [intros _; apply limit_size_nonempty|intros ->; apply limit_size_none].
      apply range_nonempty; lia.
Qed.
End operations.

(** ** The search for a conflict by term *)
Section conflict.
Context {T : Type} `{StorageLaws T} `{Codec}.
Import RaftLog.
Implicit Types rl : RaftLog.t T.

(** The answer for [(index, t)]: the greatest position up to [index] whose term is
    at most [t], or the compacted position before the log. *)
Definition conflict_answer (l : ALog.t) (index t : Z) (r : Z * option Z) : Prop :=
  let '(c, found) := r in
  c <= index /\ (forall j, c < j <= index -> exists tj, lterm l j = Some tj /\ t < tj) /\
  match found with
  | Some tc => lterm l c = Some tc /\ tc <= t
  | None => c = ALog.base l /\ ALog.base_term l = None
  end.

(** Position 0 has no term above 0. *)
Definition zero_at_origin (l : ALog.t) : Prop :=
  ALog.base l = 0 -> forall t, ALog.base_term l = Some t -> t = 0.

Lemma conflict_loop_run rl (fuel : nat) i t : log_ok rl -> zero_at_origin (view rl) ->
  0 <= i <= ALog.last (view rl) -> 0 <= t ->
  (Z.to_nat (i - ALog.base (view rl)) + 2 <= fuel)%nat ->
  exists r, conflict_loop fuel rl i t = Ret r /\ conflict_answer (view rl) i t r.
Proof.
  intros Hok Hz. revert i. induction fuel as [|fuel IH]; intros i Hi Ht Hfuel; [lia|]. cbn [conflict_loop].
  rewrite term_run by (done || lia). cbn [mbind outcome_bind].
  destruct (lterm (view rl) i) as [ti|] eqn:Eti.
  2: { eexists. split; [reflexivity|]. simpl. split; [lia|]. split; [lia|]. unfold lterm in Eti.
       destruct (Z.leb_spec (ALog.base (view rl)) i), (Z.leb_spec i (ALog.last (view rl))); simpl in Eti; try done.
       destruct (decide (ALog.base (view rl) = i)) as [Hb|Hne].
       - unfold ALog.term_at in Eti. rewrite <-Hb, Z.eqb_refl in Eti. by split.
       - destruct (term_at_range (view rl) i) as [? Ht']; [lia|congruence]. }
  destruct (Z.ltb_spec t ti) as [Hlt|Hge].
  2: { eexists. split; [reflexivity|]. simpl. split; [lia|]. split; [lia|]. by split. }
  assert (0 < i /\ ALog.base (view rl) <= i) as [Hpos Hbase].
  { unfold lterm in Eti. pose proof (view_bounds _ Hok).
    destruct (Z.leb_spec (ALog.base (view rl)) i), (Z.leb_spec i (ALog.last (view rl))); simpl in Eti; simplify_eq; try lia.
    split; [|done]. destruct (decide (i = 0)) as [->|]; [|lia].
    assert (ALog.base (view rl) = 0) as Hb by lia. unfold ALog.term_at in Eti. rewrite Hb in Eti. simpl in Eti.
    rewrite (Hz Hb _ Eti) in Hlt. lia. }
  pose proof (view_bounds _ Hok). rewrite u64_sub_small by u64_lia.
  destruct (decide (i = ALog.base (view rl))) as [->|Hne].
  - (* below the log every term is 0 *)
    destruct fuel as [|fuel]; [lia|]. cbn [conflict_loop].
    rewrite term_run by (done || lia). cbn [mbind outcome_bind].
    assert (lterm (view rl) (ALog.base (view rl) - 1) = Some 0) as E.
    { unfold lterm. by rewrite (proj2 (Z.leb_gt _ _)) by lia. }
    rewrite E. rewrite (proj2 (Z.ltb_ge _ _)) by lia. eexists. split; [reflexivity|].
    simpl. split; [lia|]. split; [|by split]. intros j Hj. assert (j = ALog.base (view rl)) as -> by lia. eauto.
  - destruct (IH (i - 1)) as ((c & found) & E & Hc & Hj & Hf); [lia|done|lia|].
    exists (c, found). split; [exact E|]. split; [lia|]. split; [|done].
    intros j Hji. destruct (decide (j = i)) as [->|]; [eauto|]. apply Hj. lia.
Qed.
End conflict.

(** ** The life of a log *)
Section life.
Context {T : Type} `{StorageLaws T} `{Codec}.
Import RaftLog.
Implicit Types rl : RaftLog.t T.
Abbreviation offset rl := (Unstable.offset (unstable rl)).

(** Reading may change the storage behind its [&self], but not what it holds. *)
Definition same_log rl rl' : Prop :=
  exists s', rl' = rl <| store := s' |> /\ storage_ok s' /\ storage_log s' = storage_log (store rl).

(** The storage the application may put in place of the old one: before the offset the
    entries stay, but for those that were applied. *)
Definition may_store rl (s' : T) : Prop := storage_ok s' /\
  (Unstable.snapshot (unstable rl) = None ->
    ALog.base (storage_log (store rl)) <= ALog.base (storage_log s') <= applied rl /\
    ALog.base (storage_log s') < offset rl <= ALog.last (storage_log s') + 1 /\
    (Unstable.entries (unstable rl) = [] -> offset rl = ALog.last (storage_log s') + 1) /\
    forall i, ALog.base (storage_log s') < i < offset rl ->
      ALog.at_index (storage_log s') i = ALog.at_index (storage_log (store rl)) i).

(** What the crate and the application do to a log; reads are [slice_reads],
    [entries_reads] and [snapshot_reads] below.  The application writes the
    unstable entries or the snapshot to the storage ([step_store]) before it
    reports them stable; it may compact the storage up to the applied index. *)
Inductive log_step rl : RaftLog.t T -> Prop :=
  | step_append es e r rl' :
      appendable rl es e -> persisted rl < Entry.index e ->
      append es rl = Ret (r, rl') -> log_step rl rl'
  | step_maybe_append idx t ca es r rl' :
      0 <= idx <= ALog.last (view rl) -> ALog.contiguous (idx + 1) es -> idx + len es < u64_MAX ->
      Forall (fun e => Entry.term e <> 0) es ->
      maybe_append idx t ca es rl = Ret (r, rl') -> log_step rl rl'
  | step_commit_to i rl' : commit_to i rl = Ret (tt, rl') -> log_step rl rl'
  | step_maybe_commit i t r rl' : maybe_commit i t rl = Ret (r, rl') -> log_step rl rl'
  | step_maybe_persist i t r rl' : maybe_persist i t rl = Ret (r, rl') -> log_step rl rl'
  | step_maybe_persist_snap i r rl' : maybe_persist_snap i rl = Ret (r, rl') -> log_step rl rl'
  | step_applied_to i rl' : applied_to i rl = Ret (tt, rl') -> log_step rl rl'
  | step_restore snap rl' :
      SnapshotMetadata.index (Snapshot.metadata snap) < u64_MAX - 1 ->
      restore snap rl = Ret (tt, rl') -> log_step rl rl'
  | step_store s' : may_store rl s' -> log_step rl (rl <| store := s' |>)
  | step_stable_entries i t rl' :
      stable_entries i t rl = Ret (tt, rl') ->
      ALog.last (storage_log (store rl)) = i ->
      (forall j, offset rl <= j <= i -> ALog.at_index (storage_log (store rl)) j = ALog.at_index (view rl) j) ->
      log_step rl rl'
  | step_stable_snap i rl' :
      stable_snap i rl = Ret (tt, rl') ->
      ALog.base (storage_log (store rl)) = i -> joined rl ->
      log_step rl rl'
  | step_read rl' : same_log rl rl' -> log_step rl rl'.

(** What every step guarantees. *)
Definition step_good rl rl' : Prop :=
  log_ok rl' /\ committed rl <= committed rl' /\ applied rl <= applied rl' /\
  forall i, ALog.base (view rl') < i <= committed rl -> ALog.at_index (view rl') i = ALog.at_index (view rl) i.

Lemma good_positions rl rl' : log_ok rl' -> view rl' = view rl -> committed rl <= committed rl' ->
  applied rl <= applied rl' -> step_good rl rl'.
Proof. intros Hok Hv Hc Ha. split; [done|]. split; [done|]. split; [done|]. by rewrite Hv. Qed.

Lemma good_commit_to rl i rl' : log_ok rl -> commit_to i rl = Ret (tt, rl') -> step_good rl rl'.
Proof.
  intros Hok E. destruct (Z.le_gt_cases i (ALog.last (view rl))) as [Hi|Hi].
  - rewrite commit_to_run in E by done. injection E as <-. pose proof (lo_committed _ Hok).
    apply good_positions; [apply committed_ok; [done|lia]|done|fields; lia|done].
  - rewrite commit_to_panics in E by done. done.
Qed.

Lemma good_append rl es e r rl' : log_ok rl -> appendable rl es e -> persisted rl < Entry.index e ->
  append es rl = Ret (r, rl') -> step_good rl rl'.
Proof.
  intros Hok Hap Hp E. rewrite (append_run _ _ _ Hok Hap) in E. injection E as _ <-.
  pose proof (lo_applied _ Hok). pose proof (lo_persisted _ Hok). pose proof (lo_committed _ Hok).
  pose proof (ap_above _ _ _ Hap).
  assert (rl <| unstable := unstable_append (unstable rl) es (Entry.index e) |> = appended rl es e (persisted rl)) as ->
    by (by destruct rl).
  split; [apply appended_ok; (done || lia)|]. split; [done|]. split; [done|].
  intros i Hi. rewrite view_appended by done. rewrite at_index_append, last_truncate, at_index_truncate by lia.
  rewrite (proj2 (Z.leb_le _ _)), (proj2 (Z.ltb_lt _ _)) by lia. done.
Qed.

Lemma good_maybe_append rl idx t ca es r rl' : log_ok rl ->
  0 <= idx <= ALog.last (view rl) -> ALog.contiguous (idx + 1) es -> idx + len es < u64_MAX ->
  Forall (fun e => Entry.term e <> 0) es ->
  maybe_append idx t ca es rl = Ret (r, rl') -> step_good rl rl'.
Proof.
  intros Hok [Hidx Hlast] Hc Hb Ht. rewrite maybe_append_run by done. cbv zeta.
  destruct (negb (matches _ _ _)); [intros [= _ <-]; by apply good_positions|].
  destruct (_ && _) eqn:Ep; [done|]. intros [= _ <-].
  assert (first_mismatch (view rl) es = 0 \/ committed rl < first_mismatch (view rl) es) as Hcase.
  { apply andb_false_iff in Ep as [Ep|Ep]; [left; apply negb_false_iff in Ep; lia|right; lia]. }
  destruct (accept_append_ok rl idx ca es Hok Hidx Hc Hb Hlast Ht Hcase) as (Hok' & Hv & _).
  destruct (accept_append_matches rl idx es Hok Hidx Hc Hb Hlast Ht Hcase) as [_ Hsame].
  split; [done|]. split; [unfold accept_append; cbv zeta; fields; case_match; fields; lia|]. split; [unfold accept_append; cbv zeta; fields; case_match; done|].
  intros i Hi. rewrite Hv. apply Hsame. lia.
Qed.

Lemma good_applied_to rl i rl' : log_ok rl -> applied_to i rl = Ret (tt, rl') -> step_good rl rl'.
Proof.
  intros Hok. unfold applied_to. destruct (Z.eqb_spec i 0); [intros [= <-]; by apply good_positions|].
  prog_unfold. destruct (_ || _) eqn:E; [done|]. intros [= <-]. apply orb_false_iff in E as [E1 E2].
  apply Z.ltb_ge in E1, E2. pose proof (lo_applied _ Hok).
  apply good_positions; [|done|done|fields; lia]. destruct Hok. split; rewrite ?view_applied; fields; try done; lia.
Qed.

Lemma good_maybe_persist rl i t r rl' : log_ok rl -> maybe_persist i t rl = Ret (r, rl') -> step_good rl rl'.
Proof.
  intros Hok. unfold maybe_persist. prog_unfold. case_match eqn:E; [|intros [= _ <-]; by apply good_positions].
  apply andb_true_iff in E as [E1 E2]. apply Z.ltb_lt in E1, E2.
  destruct (st_term (store rl) i) as [[t'|]| |]; simpl; try done; [|intros [= _ <-]; by apply good_positions].
  destruct (t' =? t); intros [= _ <-]; [|by apply good_positions].
  apply good_positions; [|done|done|done]. pose proof (lo_applied _ Hok).
  assert (i < offset rl).
  { destruct (Unstable.snapshot (unstable rl)) as [s|] eqn:Es; [|done].
    pose proof (uo_snapshot _ (lo_unstable _ Hok) s Es) as Hs. unfold Unstable.snap_index in Hs. lia. }
  destruct Hok. split; rewrite ?view_persisted; fields; try done; lia.
Qed.

Lemma good_maybe_persist_snap rl i r rl' : log_ok rl -> maybe_persist_snap i rl = Ret (r, rl') -> step_good rl rl'.
Proof.
  intros Hok. unfold maybe_persist_snap. prog_unfold. destruct (Z.ltb_spec (persisted rl) i); [|intros [= _ <-]; by apply good_positions].
  destruct (committed rl <? i); [done|]. destruct (Z.leb_spec (offset rl) i); [done|]. intros [= _ <-].
  apply good_positions; [|done|done|done]. pose proof (lo_applied _ Hok).
  destruct Hok. split; rewrite ?view_persisted; fields; try done; lia.
Qed.

Lemma good_maybe_commit rl i t r rl' : log_ok rl -> maybe_commit i t rl = Ret (r, rl') -> step_good rl rl'.
Proof.
  intros Hok. unfold maybe_commit. prog_unfold. destruct (Z.leb_spec i (committed rl)); [intros [= _ <-]; by apply good_positions|].
  unfold asks. pose proof (lo_committed _ Hok). pose proof (view_bounds _ Hok).
  rewrite term_run by (done || lia). destruct (lterm _ _) as [t'|]; [|intros [= _ <-]; by apply good_positions].
  destruct (t' =? t); [|intros [= _ <-]; by apply good_positions].
  destruct (commit_to i rl) as [[[] rl1]| |] eqn:E; try done. intros [= _ <-]. by eapply good_commit_to.
Qed.

Lemma restore_run rl snap rl' : log_ok rl ->
  SnapshotMetadata.index (Snapshot.metadata snap) < u64_MAX - 1 ->
  restore snap rl = Ret (tt, rl') ->
  committed rl <= Unstable.snap_index snap /\
  rl' = rl <| persisted := Z.min (persisted rl) (committed rl) |> <| committed := Unstable.snap_index snap |>
           <| unstable := Unstable.restore snap (unstable rl) |> /\
  Unstable.snap_index snap +w 1 = Unstable.snap_index snap + 1 /\
  view rl' = ALog.mk (Unstable.snap_index snap) (Some (Unstable.snap_term snap)) [].
Proof.
  intros Hok Hb. unfold restore. fold (Unstable.snap_index snap) in *. set (i := Unstable.snap_index snap) in *. prog_unfold.
  destruct (Z.leb_spec (committed rl) i) as [Hi|]; [|done]. intros E. split; [done|].
  pose proof (lo_committed _ Hok). pose proof (view_bounds _ Hok).
  assert (Ho : i +w 1 = i + 1) by u64_lia. split; [|split; [done|]].
  - destruct (Z.ltb_spec (committed rl) (persisted rl)); injection E as <-.
    + by rewrite Z.min_r by lia.
    + rewrite Z.min_l by lia. by destruct rl.
  - assert (unstable rl' = Unstable.restore snap (unstable rl)) as Eu
      by (destruct (committed rl <? persisted rl); injection E as <-; done).
    unfold view. rewrite Eu. unfold Unstable.restore, unstable_log. fields. fold i. rewrite Ho. f_equal. lia.
Qed.

Lemma good_restore rl snap rl' : log_ok rl ->
  SnapshotMetadata.index (Snapshot.metadata snap) < u64_MAX - 1 ->
  restore snap rl = Ret (tt, rl') -> step_good rl rl'.
Proof.
  intros Hok Hb E. destruct (restore_run rl snap rl' Hok Hb E) as (Hi & -> & Ho & Hview). fold (Unstable.snap_index snap) in Hb.
  set (i := Unstable.snap_index snap) in *.
  pose proof (lo_applied _ Hok). pose proof (lo_persisted _ Hok). pose proof (lo_committed _ Hok). pose proof (view_bounds _ Hok).
  split; [|split; [fields; lia|split; [done|]]].
  - split; rewrite ?Hview; unfold Unstable.restore; fields; fold i; rewrite ?Ho; try done.
    + apply Hok.
    + split; fields; fold i; rewrite ?Ho, ?len_nil; try done; try (unfold u64_MAX in *; lia).
      intros s [= <-]. lia.
    + unfold ALog.last. simpl. rewrite len_nil. lia.
    + lia.
    + lia.
  - intros j Hj. rewrite Hview in Hj. simpl in Hj. lia.
Qed.

Lemma stable_entries_inv rl i t rl' : log_ok rl -> stable_entries i t rl = Ret (tt, rl') ->
  exists u, rl' = rl <| unstable := u |> /\ Unstable.snapshot (unstable rl) = None /\ Unstable.snapshot u = None /\
    Unstable.entries u = [] /\ Unstable.entries_size u = 0 /\ Unstable.offset u = i + 1 /\ i = ALog.last (view rl) /\ offset rl <= i.
Proof.
  intros Hok. unfold stable_entries, Unstable.stable_entries. prog_unfold.
  destruct (bool_decide (Unstable.snapshot (unstable rl) = None)) eqn:Es; [|done]. apply bool_decide_eq_true in Es.
  destruct (list.last (Unstable.entries (unstable rl))) as [e|] eqn:El; [|done].
  destruct (_ || _) eqn:E; [done|]. apply orb_false_iff in E as [E _]. apply negb_false_iff, Z.eqb_eq in E.
  intros [= <-]. pose proof (view_bounds _ Hok). pose proof (lo_unstable _ Hok) as Hu.
  pose proof (contiguous_last _ _ _ (uo_contiguous _ Hu) El) as Hi. pose proof (view_last rl Hok) as Hvl. pose proof (uo_offset _ Hu).
  assert (0 < len (Unstable.entries (unstable rl))).
  { rewrite last_lookup in El. apply lookup_lt_Some in El. unfold len. lia. }
  eexists. split; [reflexivity|]. fields. rewrite E, u64_add_small by u64_lia. split_and!; (done || lia).
Qed.

Lemma good_stable_entries rl i t rl' : log_ok rl -> stable_entries i t rl = Ret (tt, rl') ->
  ALog.last (storage_log (store rl)) = i ->
  (forall j, offset rl <= j <= i -> ALog.at_index (storage_log (store rl)) j = ALog.at_index (view rl) j) ->
  step_good rl rl'.
Proof.
  intros Hok (u & -> & Es & Esu & Eu & Ez & Hoff & Hiv & Hoi)%stable_entries_inv Hlast Hsame; [|done].
  pose proof (view_bounds _ Hok). pose proof (last_base (view rl)).
  destruct (lo_joined _ Hok Es) as [Hj _]. pose proof (view_base rl) as Eb. rewrite Es in Eb.
  assert (Hview : view (rl <| unstable := u |>) = ALog.append (ALog.truncate (storage_log (store rl)) (i + 1)) []).
  { unfold view. fields. by rewrite Esu, Eu, Hoff. }
  pose proof (last_base (storage_log (store rl))). pose proof (lo_committed _ Hok). pose proof (lo_applied _ Hok).
  pose proof (lo_persisted _ Hok). pose proof (base_lt_offset _ Hok).
  assert (Hvl' : ALog.last (view (rl <| unstable := u |>)) = i).
  { rewrite Hview, last_append, last_truncate, len_nil by lia. lia. }
  split; [|split; [done|split; [done|]]].
  - split; rewrite ?Hvl'; fields; try done.
    + apply Hok.
    + split; rewrite ?Eu, ?Hoff, ?len_nil; try done; try (unfold u64_MAX in *; lia). intros s Hs. congruence.
    + intros _. unfold joined. fields. rewrite Hoff. split; [lia|]. intros _. lia.
    + rewrite Hview, base_append, base_truncate. lia.
    + lia.
  - intros j. rewrite Hview, base_append, base_truncate. intros Hjr. rewrite at_index_append, at_index_truncate, last_truncate by lia.
    rewrite (proj2 (Z.leb_le _ _)), (proj2 (Z.ltb_lt _ _)) by lia.
    destruct (Z.lt_ge_cases j (offset rl)); [by rewrite at_index_stable|]. apply Hsame. lia.
Qed.

Lemma stable_snap_inv rl i rl' : stable_snap i rl = Ret (tt, rl') -> log_ok rl ->
  exists s, Unstable.snapshot (unstable rl) = Some s /\ i = offset rl - 1 /\
    rl' = rl <| unstable := (unstable rl) <| Unstable.snapshot := None |> |> /\
    view rl' = ALog.append (ALog.truncate (storage_log (store rl)) (offset rl)) (Unstable.entries (unstable rl)).
Proof.
  unfold stable_snap, Unstable.stable_snap. prog_unfold.
  destruct (Unstable.snapshot (unstable rl)) as [s|] eqn:Es; [|done].
  destruct (negb _) eqn:E; [done|]. apply negb_false_iff, Z.eqb_eq in E. intros [= <-] Hok. exists s.
  pose proof (uo_snapshot _ (lo_unstable _ Hok) s Es). split_and!; try done. lia.
Qed.

Lemma good_stable_snap rl i rl' : log_ok rl -> stable_snap i rl = Ret (tt, rl') ->
  ALog.base (storage_log (store rl)) = i -> joined rl -> step_good rl rl'.
Proof.
  intros Hok (s & Es & Hi & -> & Hview)%stable_snap_inv Hb [Hl Hl']; [|done].
  pose proof (view_base rl) as Eb. rewrite Es in Eb.
  assert (Hlt : ALog.last (ALog.truncate (storage_log (store rl)) (offset rl)) = i) by (rewrite last_truncate by lia; lia).
  pose proof (view_last rl Hok). pose proof (lo_committed _ Hok). pose proof (lo_applied _ Hok). pose proof (lo_persisted _ Hok).
  split; [|split; [done|split; [done|]]].
  - split; rewrite ?Hview; fields; try done.
    + apply Hok.
    + destruct (lo_unstable _ Hok). by split.
    + rewrite base_append, base_truncate, last_append, Hlt. lia.
  - intros j. rewrite Hview, base_append, base_truncate. intros Hj. rewrite at_index_append, Hlt.
    rewrite (proj2 (Z.leb_gt _ _)) by lia. rewrite at_index_unstable by (done || lia). f_equal. lia.
Qed.

(** The entries after the snapshot stay where they are. *)
Lemma stable_snap_view rl i rl' : log_ok rl -> stable_snap i rl = Ret (tt, rl') ->
  ALog.base (storage_log (store rl)) = i -> joined rl ->
  offset rl' = offset rl /\ store rl' = store rl /\
  forall j, offset rl <= j -> ALog.at_index (view rl') j = ALog.at_index (view rl) j.
Proof.
  intros Hok (s & Es & Hi & -> & Hview)%stable_snap_inv Hb [Hl Hl']; [|done]. split; [done|]. split; [done|].
  intros j Hj. rewrite Hview, at_index_append.
  assert (ALog.last (ALog.truncate (storage_log (store rl)) (offset rl)) = offset rl - 1) as -> by (rewrite last_truncate by lia; lia).
  rewrite (proj2 (Z.leb_gt _ _)) by lia. rewrite at_index_unstable by (done || lia). f_equal. lia.
Qed.

Lemma good_store rl s' : log_ok rl -> may_store rl s' -> step_good rl (rl <| store := s' |>).
Proof.
  intros Hok [Hs Hpre]. pose proof (lo_committed _ Hok). pose proof (lo_applied _ Hok). pose proof (view_last rl Hok) as Hvl.
  destruct (Unstable.snapshot (unstable rl)) as [s|] eqn:Es.
  - assert (view (rl <| store := s' |>) = view rl) as Hv by (unfold view; fields; by rewrite Es).
    apply good_positions; try done. destruct Hok. split; rewrite ?Hv; fields; try done. intros E. congruence.
  - destruct (Hpre eq_refl) as (Hb & Ho & He & Hsame).
    assert (Hview : view (rl <| store := s' |>) = ALog.append (ALog.truncate (storage_log s') (offset rl)) (Unstable.entries (unstable rl))).
    { unfold view. fields. by rewrite Es. }
    split; [|split; [done|split; [done|]]].
    + destruct Hok. split; rewrite ?Hview, ?last_append, ?last_truncate by lia; fields; try done.
      rewrite base_append, base_truncate. lia.
    + intros i. rewrite Hview, base_append, base_truncate. intros Hi.
      rewrite at_index_append, last_truncate, at_index_truncate by lia.
      destruct (Z.leb_spec i (Z.min (ALog.last (storage_log s')) (offset rl - 1))).
      * rewrite (proj2 (Z.ltb_lt _ _)) by lia. rewrite at_index_stable by (done || lia). apply Hsame. lia.
      * rewrite at_index_unstable by (done || lia). f_equal. lia.
Qed.

Lemma same_log_view rl rl' : same_log rl rl' -> view rl' = view rl.
Proof. intros (s' & -> & _ & Hl). unfold view. fields. by rewrite Hl. Qed.

Lemma same_log_refl rl : log_ok rl -> same_log rl rl.
Proof. apply same_store. Qed.

Lemma good_read rl rl' : log_ok rl -> same_log rl rl' -> step_good rl rl'.
Proof.
  intros Hok Hr. pose proof (same_log_view _ _ Hr) as Hv. destruct Hr as (s' & -> & Hs & Hl).
  apply good_positions; try done. destruct Hok. split; rewrite ?Hv; fields; try done. unfold joined in *. fields. by rewrite Hl.
Qed.

Lemma log_step_good rl rl' : log_ok rl -> log_step rl rl' -> step_good rl rl'.
Proof.
  intros Hok []; eauto using good_append, good_maybe_append, good_commit_to, good_maybe_commit, good_maybe_persist,
    good_maybe_persist_snap, good_applied_to, good_restore, good_store, good_stable_entries, good_stable_snap, good_read.
Qed.

(** The position of the first entry never moves back. *)
Lemma log_step_base rl rl' : log_ok rl -> log_step rl rl' -> ALog.base (view rl) <= ALog.base (view rl').
Proof.
  intros Hok Hs. pose proof (lo_committed _ Hok). destruct (log_step_good _ _ Hok Hs) as (Hok' & _).
  destruct Hs as [es e r rl' Hap Hp E|idx t ca es r rl' Hidx Hc Hb Ht E|i rl' E|i t r rl' E|i t r rl' E|i r rl' E|i rl' E
    |snap rl' Hb E|s' [Hs Hpre]|i t rl' E Hl Hsame|i rl' E Hb Hl|rl' Hr].
  - rewrite (append_run _ _ _ Hok Hap) in E. injection E as _ <-.
    assert (rl <| unstable := unstable_append (unstable rl) es (Entry.index e) |> = appended rl es e (persisted rl)) as ->
      by (by destruct rl). rewrite view_appended by done. done.
  - rewrite maybe_append_run in E by (done || apply Hidx). cbv zeta in E.
    destruct (negb (matches _ _ _)); [injection E as _ <-; lia|]. destruct (_ && _) eqn:Ep; [done|]. injection E as _ <-.
    assert (first_mismatch (view rl) es = 0 \/ committed rl < first_mismatch (view rl) es) as Hcase.
    { apply andb_false_iff in Ep as [Ep|Ep]; [left; apply negb_false_iff in Ep; lia|right; lia]. }
    destruct (accept_append_ok rl idx ca es Hok (proj1 Hidx) Hc Hb (proj2 Hidx) Ht Hcase) as (_ & -> & _).
    unfold accepted_view. case_match; done.
  - unfold commit_to in E. prog_inv; done.
  - unfold maybe_commit, commit_to in E. prog_inv; done.
  - unfold maybe_persist in E. prog_inv; done.
  - unfold maybe_persist_snap in E. prog_inv; done.
  - unfold applied_to in E. prog_inv; done.
  - destruct (restore_run rl snap rl' Hok Hb E) as (Hi & _ & _ & ->). simpl. lia.
  - rewrite !view_base. fields. destruct (Unstable.snapshot (unstable rl)); [lia|]. by apply Hpre.
  - rewrite !view_base. unfold stable_entries, Unstable.stable_entries in E. prog_inv. fields.
    rewrite bool_decide_eq_true in *. match goal with Hn : Unstable.snapshot _ = None |- _ => rewrite Hn end. lia.
  - rewrite !view_base. unfold stable_snap, Unstable.stable_snap in E. prog_inv. fields.
    match goal with Hn : Unstable.snapshot _ = Some ?s |- _ => pose proof (uo_snapshot _ (lo_unstable _ Hok) s Hn); rewrite ?Hn end.
    match goal with Hn : negb _ = false |- _ => apply negb_false_iff, Z.eqb_eq in Hn end. lia.
  - by rewrite (same_log_view _ _ Hr).
Qed.

Lemma log_steps_good rl rl' : log_ok rl -> rtc log_step rl rl' ->
  log_ok rl' /\ committed rl <= committed rl' /\ applied rl <= applied rl' /\
  ALog.base (view rl) <= ALog.base (view rl') /\
  forall i, ALog.base (view rl') < i <= committed rl -> ALog.at_index (view rl') i = ALog.at_index (view rl) i.
Proof.
  intros Hok Hrun. induction Hrun as [rl|rl rl1 rl2 Hs Hrun IH].
  { split; [done|]. split; [lia|]. split; [lia|]. split; [lia|done]. }
  destruct (log_step_good _ _ Hok Hs) as (Hok1 & Hc1 & Ha1 & Hi1).
  destruct (IH Hok1) as (Hok2 & Hc2 & Ha2 & Hb2 & Hi2).
  pose proof (log_step_base _ _ Hok Hs).
  split; [done|]. split; [lia|]. split; [lia|]. split; [lia|].
  intros i Hi. rewrite Hi2 by lia. apply Hi1. lia.
Qed.

(** Up to where entries may be handed to the application: committed and persisted. *)
Definition deliverable rl : Z := Z.min (committed rl) (persisted rl).
Lemma log_step_deliverable rl rl' : log_ok rl -> log_step rl rl' -> deliverable rl <= deliverable rl'.
Proof.
  intros Hok Hs. destruct (log_step_good _ _ Hok Hs) as (_ & Hcm & _). unfold deliverable.
  destruct Hs as [es e r rl' Hap Hp E|idx t ca es r rl' Hidx Hc Hb Ht E|i rl' E|i t r rl' E|i t r rl' E|i r rl' E|i rl' E
    |snap rl' Hb E|s' Hst|i t rl' E Hl Hsame|i rl' E Hb Hl|rl' Hr].
  - rewrite (append_run _ _ _ Hok Hap) in E. injection E as _ <-. done.
  - rewrite maybe_append_run in E by (done || apply Hidx). cbv zeta in E.
    destruct (negb (matches _ _ _)); [injection E as _ <-; lia|]. destruct (_ && _) eqn:Ep; [done|]. injection E as _ <-.
    apply andb_false_iff in Ep as [Ep|Ep]; [apply negb_false_iff in Ep|apply Z.leb_gt in Ep];
      unfold accept_append; cbv zeta; fields; case_match; fields; lia.
  - unfold commit_to in E. prog_inv; fields; lia.
  - unfold maybe_commit, commit_to in E. prog_inv; fields; lia.
  - unfold maybe_persist in E. prog_inv; fields; lia.
  - unfold maybe_persist_snap in E. prog_inv; fields; lia.
  - unfold applied_to in E. prog_inv; fields; lia.
  - destruct (restore_run rl snap rl' Hok Hb E) as (Hi & -> & _). fields. lia.
  - done.
  - unfold stable_entries in E. prog_inv; fields; lia.
  - unfold stable_snap in E. prog_inv; fields; lia.
  - by destruct Hr as (s' & -> & _).
Qed.
Lemma log_steps_deliverable rl rl' : log_ok rl -> rtc log_step rl rl' -> deliverable rl <= deliverable rl'.
Proof.
  intros Hok Hrun. induction Hrun as [rl|rl rl1 rl2 Hs Hrun IH]; [done|].
  etrans; [by apply log_step_deliverable|]. apply IH. by apply (log_step_good _ _ Hok Hs).
Qed.
(** What is persisted is in the storage. *)
Lemma persisted_stored rl i : log_ok rl -> ALog.base (view rl) < i <= persisted rl ->
  ALog.at_index (storage_log (store rl)) i = ALog.at_index (view rl) i.
Proof.
  intros Hok Hi. pose proof (lo_persisted _ Hok). rewrite view_base in Hi.
  destruct (Unstable.snapshot (unstable rl)) eqn:Es; [lia|]. symmetry. apply at_index_stable; [done..|lia].
Qed.

(** Every read is such a step. *)
Lemma slice_reads rl low high max ctx r rl' : log_ok rl -> slice low high max ctx rl = Ret (r, rl') -> same_log rl rl'.
Proof.
  intros Hok E. destruct (Z.lt_ge_cases high low) as [Hlt|Hle].
  { exfalso. unfold slice, must_check_outofbounds in E. rewrite (proj2 (Z.ltb_lt _ _) Hlt) in E. done. }
  pose proof (must_check_run rl low high Hok Hle) as Hc.
  destruct (Z.leb_spec low (ALog.base (view rl))); [|destruct (Z.ltb_spec (ALog.last (view rl) + 1) high)].
  - unfold slice in E. erewrite bind_run in E by (by apply asks_run). simpl in E. injection E as _ <-. by apply same_log_refl.
  - unfold slice, asks in E. unfold mbind at 1, prog_bind in E. rewrite Hc in E. done.
  - destruct (slice_run rl low high max ctx Hok) as (r' & rl1 & E' & Hr & _); [lia..|].
    rewrite E in E'. simplify_eq. exact Hr.
Qed.

(** What [entries] yields is a part of the log from the position asked for. *)
Lemma entries_prefix rl idx max ctx es rl' : log_ok rl -> entries idx max ctx rl = Ret (Ok es, rl') -> es <> [] ->
  ALog.base (view rl) < idx <= ALog.last (view rl) /\ es `prefix_of` ALog.range (view rl) idx (ALog.last (view rl) + 1).
Proof.
  intros Hok E Hne. unfold entries in E. apply bind_inv in E as (li & l1 & [Hl ->]%asks_inv & E).
  rewrite last_index_run in Hl by done. injection Hl as <-. pose proof (view_bounds _ Hok). pose proof (view_ok _ Hok).
  destruct (Z.ltb_spec (ALog.last (view rl)) idx); [by apply ret_inv in E as [[= <-] _]|].
  rewrite u64_add_small in E by (pose proof (last_base (view rl)); u64_lia).
  destruct (Z.le_gt_cases idx (ALog.base (view rl))) as [Hb|Hb].
  { unfold slice in E. erewrite bind_run in E; [|apply asks_run; rewrite must_check_run by (done || lia);
      rewrite (proj2 (Z.leb_le _ _)) by lia; reflexivity]. done. }
  destruct (slice_run rl idx (ALog.last (view rl) + 1) max ctx Hok) as (r & l2 & E' & _ & Hr); [lia..|].
  rewrite E in E'. simplify_eq. destruct Hr as [[? _]|(es' & [= <-] & Hk & _)]; [done|]. split; [lia|done].
Qed.

Lemma entries_reads rl idx max ctx r rl' : log_ok rl -> entries idx max ctx rl = Ret (r, rl') -> same_log rl rl'.
Proof.
  intros Hok E. unfold entries in E. prog_inv; [by apply same_log_refl|]. by eapply slice_reads.
Qed.

Lemma snapshot_reads rl req to r rl' : log_ok rl -> snapshot req to rl = Ret (r, rl') -> same_log rl rl'.
Proof.
  intros Hok E. unfold snapshot in E. prog_inv; try (by apply same_log_refl).
  all: match goal with H : st_snapshot _ _ (store ?y) = _ |- _ =>
    destruct (snapshot_law (store y) req to (lo_store _ Hok)) as (r' & s' & E' & Hs & Hl & _); rewrite H in E' end;
    simplify_eq; by eexists.
Qed.

(** What is handed out after position [since]. *)
Lemma next_entries_since_run rl since max : log_ok rl -> 0 <= since < u64_MAX ->
  let from := Z.max (since + 1) (ALog.base (view rl) + 1) in
  let upto := Z.min (committed rl) (persisted rl) in
  exists r rl', next_entries_since since max rl = Ret (r, rl') /\ same_log rl rl' /\
    match r with
    | Some es => es <> [] /\ es `prefix_of` ALog.range (view rl) from (upto + 1)
    | None => upto < from
    end.
Proof.
  intros Hok Hsince from upto. unfold next_entries_since. erewrite bind_run by done.
  erewrite bind_run by (by apply asks_run, first_index_run).
  pose proof (lo_applied _ Hok). pose proof (lo_committed _ Hok). pose proof (view_bounds _ Hok).
  rewrite !u64_add_small by u64_lia. fold from upto.
  destruct (Z.ltb_spec from (upto + 1)) as [Hlt|Hge].
  - destruct (slice_run rl from (upto + 1) max GenReady Hok ltac:(lia) ltac:(lia) ltac:(lia))
      as (r & rl' & E & (s' & -> & Hs & Hl) & Hr).
    destruct Hr as [[_ Hasync]|(es & -> & Hp & Hne & _)]; [done|].
    eexists _, _. split; [erewrite bind_run by exact E; reflexivity|].
    split; [by exists s'|]. split; [by apply Hne|done].
  - eexists _, _. split; [reflexivity|]. split; [by apply same_log_refl|]. lia.
Qed.

Lemma has_next_entries_since_run rl since : log_ok rl -> 0 <= since < u64_MAX ->
  has_next_entries_since rl since =
    Ret (Z.max (since + 1) (ALog.base (view rl) + 1) <? Z.min (committed rl) (persisted rl) + 1).
Proof.
  intros Hok Hsince. unfold has_next_entries_since. rewrite first_index_run by done. cbn [mbind outcome_bind].
  pose proof (lo_applied _ Hok). pose proof (lo_committed _ Hok). pose proof (view_bounds _ Hok).
  by rewrite !u64_add_small by u64_lia.
Qed.

Lemma new_ok s rl : storage_ok s -> ALog.last (storage_log s) < u64_MAX - 1 -> new s = Ret rl ->
  log_ok rl /\ view rl = storage_log s /\ committed rl = ALog.base (storage_log s) /\ applied rl = ALog.base (storage_log s).
Proof.
  intros Hs Hb. unfold new. rewrite first_index_law, last_index_law by done. cbn [mbind outcome_bind result_unwrap].
  intros [= <-]. destruct (storage_log_ok _ Hs) as [Hb0 _]. pose proof (last_base (storage_log s)).
  rewrite (u64_add_small (ALog.last _)), u64_sub_small by u64_lia.
  replace (ALog.base (storage_log s) + 1 - 1) with (ALog.base (storage_log s)) by lia.
  set (rl := mk _ _ _ _ _).
  assert (Hview : view rl = storage_log s).
  { unfold view. simpl. unfold ALog.append, ALog.truncate. destruct (storage_log s) as [b bt es] eqn:E. simpl. f_equal.
    rewrite app_nil_r. apply take_ge. unfold ALog.last, len. simpl. lia. }
  split; [|done]. split; rewrite ?Hview; simpl; try done; try lia.
  - split; simpl; rewrite ?len_nil; try done; unfold u64_MAX in *; lia.
  - intros _. split; simpl; lia.
Qed.
End life.

(** ** Properties *)
Section properties.
Context {T : Type} `{StorageLaws T} `{Codec}.
Import RaftLog.

(** C14 — Committed entries are stable: along every sequence of operations of the crate
    and writes of the application, from any well-formed log, the log stays well
    formed, the committed and the applied index never decrease, and no entry at or
    below the committed index ever changes (until a compaction drops it). *)
Theorem committed_entries_stable (rl rl' : RaftLog.t T) (Hok : log_ok rl) (Hrun : rtc log_step rl rl') :
  log_ok rl' /\ committed rl <= committed rl' /\ applied rl <= applied rl' /\
  ALog.base (view rl) <= ALog.base (view rl') /\
  forall i, ALog.base (view rl') < i <= committed rl -> ALog.at_index (view rl') i = ALog.at_index (view rl) i.
Proof. by apply log_steps_good. Qed.

(** C18 — The documented invariants of [RaftLog]: from a log created on a good storage,
    always applied <= min(committed, persisted), persisted < unstable.offset, the
    committed index lies within the log, and what counts as persisted and is still
    in the log is in the storage. *)
Theorem raft_log_invariant (s : T) (rl rl' : RaftLog.t T) (Hs : storage_ok s)
    (Hb : ALog.last (storage_log s) < u64_MAX - 1) (Hnew : new s = Ret rl) (Hrun : rtc log_step rl rl') :
  applied rl' <= Z.min (committed rl') (persisted rl') /\
  persisted rl' < Unstable.offset (unstable rl') /\
  ALog.base (view rl') <= committed rl' <= ALog.last (view rl') /\
  ALog.ok (view rl') /\
  forall i, ALog.base (view rl') < i <= persisted rl' ->
    ALog.at_index (storage_log (store rl')) i = ALog.at_index (view rl') i.
Proof.
  destruct (new_ok s rl Hs Hb Hnew) as [Hok _].
  assert (log_ok rl') as Hok'.
  { clear - Hok Hrun. induction Hrun; [done|]. apply IHHrun. by eapply log_step_good. }
  pose proof (lo_applied _ Hok'). pose proof (lo_persisted _ Hok'). pose proof (lo_committed _ Hok').
  split; [lia|]. split; [done|]. split; [done|]. split; [by apply view_ok|].
  intros i Hi. pose proof (base_lt_offset _ Hok'). pose proof (view_base rl') as Eb.
  destruct (Unstable.snapshot (unstable rl')) as [sn|] eqn:Es; [lia|].
  symmetry. apply at_index_stable; [done|done|lia].
Qed.

(** C16 — [maybe_append] on every branch.  When the entry before the new ones does not
    match, nothing happens.  Otherwise it finds the first position that is missing
    or in conflict; a conflict at or below the committed index panics; otherwise
    afterwards the log holds every entry of the message, agrees with the old log
    before that position (entirely, when there was none), the commit index has
    advanced to what the leader committed of the matched prefix, and the persisted
    index has been lowered below the rewritten part. *)
Theorem maybe_append_correct (rl : RaftLog.t T) (idx t ca : Z) (es : list Entry.t)
    (Hok : log_ok rl) (Hidx : 0 <= idx <= ALog.last (view rl)) (Hc : ALog.contiguous (idx + 1) es)
    (Hb : idx + len es < u64_MAX) (Hterms : Forall (fun e => Entry.term e <> 0) es) :
  if negb (matches (view rl) idx t) then maybe_append idx t ca es rl = Ret (None, rl)
  else
    exists c, (c = 0 \/ idx < c <= idx + len es) /\
    (forall e, e ∈ es -> c = 0 \/ Entry.index e < c -> lterm (view rl) (Entry.index e) = Some (Entry.term e)) /\
    (forall e, e ∈ es -> Entry.index e = c -> lterm (view rl) c <> Some (Entry.term e)) /\
    if negb (c =? 0) && (c <=? committed rl) then maybe_append idx t ca es rl = Panic
    else exists rl', maybe_append idx t ca es rl = Ret (Some (c, idx + len es), rl') /\ log_ok rl' /\
      (forall e, e ∈ es -> ALog.base (view rl) < Entry.index e ->
         ALog.term_at (view rl') (Entry.index e) = Some (Entry.term e)) /\
      (forall i, c = 0 \/ i < c -> ALog.at_index (view rl') i = ALog.at_index (view rl) i) /\
      ALog.last (view rl') = (if c =? 0 then ALog.last (view rl) else idx + len es) /\
      committed rl' = Z.max (committed rl) (Z.min ca (idx + len es)) /\
      persisted rl' = (if c =? 0 then persisted rl else Z.min (persisted rl) (c - 1)).
Proof.
  destruct Hidx as [Hidx Hlast]. rewrite maybe_append_run by done. cbv zeta.
  destruct (matches (view rl) idx t); [|done]. cbn [negb].
  pose proof (first_mismatch_spec (view rl) es (idx + 1) ltac:(lia) Hc) as Hs. cbv zeta in Hs.
  set (c := first_mismatch (view rl) es) in *. exists c.
  assert (Hspec : (c = 0 \/ idx < c <= idx + len es) /\
    (forall e, e ∈ es -> c = 0 \/ Entry.index e < c -> lterm (view rl) (Entry.index e) = Some (Entry.term e)) /\
    (forall e, e ∈ es -> Entry.index e = c -> lterm (view rl) c <> Some (Entry.term e))).
  { by apply mismatch_facts. }
  destruct Hspec as (Hc1 & Hc2 & Hc3). split; [done|]. split; [done|]. split; [done|].
  destruct (negb (c =? 0) && (c <=? committed rl)) eqn:Ep; [done|].
  assert (c = 0 \/ committed rl < c) as Hcase.
  { apply andb_false_iff in Ep as [Ep|Ep]; [left; apply negb_false_iff in Ep; lia|right; lia]. }
  destruct (accept_append_ok rl idx ca es Hok Hidx Hc Hb Hlast Hterms Hcase) as (Hok' & Hv & _).
  destruct (accept_append_matches rl idx es Hok Hidx Hc Hb Hlast Hterms Hcase) as [Hall Hsame].
  eexists. split; [reflexivity|]. split; [done|]. rewrite Hv. split; [done|]. split; [done|].
  split; [by apply accepted_last|]. unfold accept_append. fold c. cbv zeta. fields. by case_match.
Qed.

(** [term], [first_index] and [last_index] read the one log that stable storage and
    the unstable part represent together: positions outside the log have term 0, a
    position inside has its entry's term, and only the position just before the
    first entry can have been compacted away. *)
Theorem term_correct (rl : RaftLog.t T) (i : Z) (Hok : log_ok rl) (Hi : 0 <= i) :
  first_index rl = Ret (ALog.base (view rl) + 1) /\ last_index rl = Ret (ALog.last (view rl)) /\
  term rl i = Ret (
    if (i <? ALog.base (view rl)) || (ALog.last (view rl) <? i) then Ok 0
    else match ALog.term_at (view rl) i with
         | Some t => Ok t
         | None => Err (Store Compacted)
         end) /\
  (ALog.base (view rl) < i <= ALog.last (view rl) -> is_Some (ALog.term_at (view rl) i)).
Proof.
  split; [by apply first_index_run|]. split; [by apply last_index_run|]. split; [|apply term_at_range].
  rewrite term_run by done. f_equal. unfold lterm.
  destruct (Z.leb_spec (ALog.base (view rl)) i), (Z.ltb_spec i (ALog.base (view rl))),
    (Z.leb_spec i (ALog.last (view rl))), (Z.ltb_spec (ALog.last (view rl)) i); (done || lia).
Qed.

(** No entry up to [i] has a term that is not above [t]. *)
Definition no_candidate (l : ALog.t) (i t : Z) : Prop :=
  ALog.base l <= i <= ALog.last l /\ forall j, ALog.base l < j <= i -> exists tj, ALog.term_at l j = Some tj /\ t < tj.
(** What is answered then: the position before the first entry if its term is not known or not above
    [t], and the one before that otherwise, where every term counts as 0. *)
Definition below_log (l : ALog.t) (t : Z) : Z * option Z :=
  match ALog.base_term l with
  | None => (ALog.base l, None)
  | Some tb => if tb <=? t then (ALog.base l, Some tb) else (ALog.base l - 1, Some 0)
  end.
Lemma conflict_below l i t r : 0 <= t -> no_candidate l i t -> conflict_answer l i t r -> r = below_log l t.
Proof.
  intros Ht [Hi Hnone] Ha. destruct r as [c found]. destruct Ha as (Hc & Hmax & Hfound).
  assert (forall j, ALog.base l <= j <= i -> lterm l j = ALog.term_at l j) as Hin.
  { intros j Hj. unfold lterm. by rewrite (proj2 (Z.leb_le _ _)), (proj2 (Z.leb_le _ _)) by lia. }
  assert (forall j, j < ALog.base l -> lterm l j = Some 0) as Hout.
  { intros j Hj. unfold lterm. by rewrite (proj2 (Z.leb_gt _ _)) by lia. }
  assert (lterm l (ALog.base l) = ALog.base_term l) as Hbase.
  { rewrite Hin by lia. unfold ALog.term_at. by rewrite Z.eqb_refl. }
  assert (c <= ALog.base l) as Hle.
  { destruct (Z.le_gt_cases c (ALog.base l)) as [|Hgt]; [done|]. destruct found as [tc|]; [|lia].
    destruct Hfound as [Etc Hle]. destruct (Hnone c) as (tj & Ej & Hlt); [lia|]. rewrite Hin in Etc by lia. simplify_eq. lia. }
  unfold below_log. destruct (Z.eq_dec c (ALog.base l)) as [->|Hne].
  - destruct found as [tc|]; [|by destruct Hfound as [_ ->]]. destruct Hfound as [Etc Hle']. rewrite Hbase in Etc. rewrite Etc.
    by rewrite (proj2 (Z.leb_le _ _)) by lia.
  - destruct found as [tc|]; [|lia]. destruct Hfound as [Etc _]. rewrite Hout in Etc by lia. injection Etc as <-.
    destruct (Hmax (ALog.base l)) as (tb & Etb & Hlt); [lia|]. rewrite Hbase in Etb. rewrite Etb, (proj2 (Z.leb_gt _ _)) by lia.
    destruct (Z.eq_dec c (ALog.base l - 1)) as [->|Hne']; [done|].
    destruct (Hmax (ALog.base l - 1)) as (t0 & Et0 & Hlt0); [lia|]. rewrite Hout in Et0 by lia. injection Et0 as <-. lia.
Qed.

(** C25 — [find_conflict_by_term] terminates, and answers the greatest position up to the
    index whose term is not above the given one (or the compacted position before
    the log, without a term); an index beyond the log is returned as it is.  If no
    entry qualifies the answer is a position before the first entry: this is not what the comment of the
    function says ("the log's first index is returned"). *)
Theorem find_conflict_by_term_correct (rl : RaftLog.t T) (i t : Z) (fuel : nat) (Hok : log_ok rl)
    (Hz : zero_at_origin (view rl)) (Hi : 0 <= i) (Ht : 0 <= t)
    (Hfuel : (Z.to_nat (i - ALog.base (view rl)) + 2 <= fuel)%nat) :
  exists c found, find_conflict_by_term fuel rl i t = Ret (c, found) /\
    (if ALog.last (view rl) <? i then c = i /\ found = None
     else conflict_answer (view rl) i t (c, found)) /\
    (no_candidate (view rl) i t -> (c, found) = below_log (view rl) t /\ c < ALog.base (view rl) + 1).
Proof.
  unfold find_conflict_by_term. rewrite last_index_run by done. cbn [mbind outcome_bind].
  destruct (Z.ltb_spec (ALog.last (view rl)) i).
  { eexists _, _. split; [done|]. split; [done|]. intros [? _]. lia. }
  destruct (conflict_loop_run rl fuel i t Hok Hz ltac:(lia) Ht Hfuel) as ((c & found) & E & Ha).
  exists c, found. split; [done|]. split; [done|]. intros Hnone. pose proof (conflict_below _ _ _ _ Ht Hnone Ha) as Eb.
  split; [done|]. revert Eb. unfold below_log. destruct (ALog.base_term (view rl)) as [tb|]; [destruct (tb <=? t)|]; intros [= -> _]; lia.
Qed.

(** C23 — [slice] reads a range across stable storage and the unstable part: below the log
    it reports compaction, beyond the log it panics, and inside it yields a prefix
    of the range, not empty unless the range is, and all of it when no size limit is
    given; the storage may only answer that it fetches entries asynchronously where
    the context allows it. *)
Theorem slice_correct (rl : RaftLog.t T) (low high : Z) (max : option Z) (ctx : GetEntriesContext)
    (Hok : log_ok rl) (Hle : low <= high) :
  if low <=? ALog.base (view rl) then slice low high max ctx rl = Ret (Err (Store Compacted), rl)
  else if ALog.last (view rl) + 1 <? high then slice low high max ctx rl = Panic
  else exists r rl', slice low high max ctx rl = Ret (r, rl') /\ slice_result rl low high max ctx r rl'.
Proof.
  destruct (Z.leb_spec low (ALog.base (view rl))).
  { unfold slice. unfold mbind, prog_bind, asks. rewrite must_check_run by done.
    by rewrite (proj2 (Z.leb_le _ _)) by lia. }
  destruct (Z.ltb_spec (ALog.last (view rl) + 1) high).
  { unfold slice. unfold mbind, prog_bind, asks. rewrite must_check_run by done.
    rewrite (proj2 (Z.leb_gt _ _)) by lia. by rewrite (proj2 (Z.ltb_lt _ _)) by lia. }
  apply slice_run; (done || lia).
Qed.

(** [next_entries] hands the application only entries that are both committed and
    persisted, in order and without a gap after the last applied one (or from the
    first entry of the log); it never panics, and answers nothing exactly when there
    is none. *)
Theorem next_entries_correct (rl : RaftLog.t T) (max : option Z) (Hok : log_ok rl) :
  let from := Z.max (applied rl + 1) (ALog.base (view rl) + 1) in
  let upto := Z.min (committed rl) (persisted rl) in
  exists r rl', next_entries max rl = Ret (r, rl') /\ view rl' = view rl /\
    match r with
    | Some es => es <> [] /\ es `prefix_of` ALog.range (view rl) from (upto + 1)
    | None => upto < from
    end.
Proof.
  intros from upto. unfold next_entries. erewrite bind_run by done. pose proof (lo_applied _ Hok). pose proof (lo_committed _ Hok).
  pose proof (view_bounds _ Hok).
  destruct (next_entries_since_run rl (applied rl) max Hok ltac:(lia)) as (r & rl' & E & Hs & Hr).
  exists r, rl'. split; [exact E|]. split; [by apply same_log_view|exact Hr].
Qed.

(** [is_up_to_date] compares logs by the term and then the index of their last
    entry, as the election restriction asks. *)
Theorem is_up_to_date_correct (rl : RaftLog.t T) (last_index' term' last_term' : Z) (Hok : log_ok rl)
    (Hlast : lterm (view rl) (ALog.last (view rl)) = Some last_term') :
  is_up_to_date rl last_index' term' =
    Ret (bool_decide (last_term' < term' \/ term' = last_term' /\ ALog.last (view rl) <= last_index')).
Proof.
  unfold is_up_to_date, last_term. rewrite last_index_run by done. cbn [mbind outcome_bind].
  pose proof (view_bounds _ Hok). pose proof (last_base (view rl)).
  rewrite term_run by (done || lia). rewrite Hlast. cbn [mbind outcome_bind result_unwrap].
  destruct (Z.ltb_spec last_term' term').
  - by rewrite bool_decide_eq_true_2 by lia.
  - unfold mret, outcome_ret. f_equal. symmetry.
    destruct (Z.eqb_spec term' last_term'), (Z.leb_spec (ALog.last (view rl)) last_index'); simpl;
      first [apply bool_decide_eq_true_2; lia | apply bool_decide_eq_false_2; lia].
Qed.
End properties.

(** ** Witnesses *)
Section witnesses.
#[local] Existing Instance ten_bytes.
Import RaftLog.

(** Entries 1 to 3 are stable, 4 and 5 are not, 2 are committed. *)
Definition log5 : RaftLog.t MemStorage.t :=
  mk core3 (Unstable.mk None [entry 4 2; entry 5 2] 24 4) 2 3 1.

Lemma log5_ok : log_ok log5.
Proof.
  split.
  - apply core3_ok.
  - split; try done; vm_compute; try done; congruence.
  - intros _. split; [vm_compute; split; congruence|done].
  - vm_compute. split; congruence.
  - vm_compute. split; congruence.
  - by vm_compute.
Qed.

Definition log5_appended : RaftLog.t MemStorage.t :=
  match maybe_append 3 2 5 [entry 4 3] log5 with Ret (_, rl) => rl | _ => log5 end.
Lemma log5_run : maybe_append 3 2 5 [entry 4 3] log5 = Ret (Some (4, 4), log5_appended).
Proof. by vm_compute. Qed.

Lemma committed_entries_stable_witness :
  committed log5_appended = 4 /\ ALog.at_index (view log5_appended) 2 = Some (entry 2 1).
Proof.
  assert (Hrun : rtc log_step log5 log5_appended).
  { apply rtc_once. eapply (step_maybe_append log5 3 2 5 [entry 4 3]); [..|apply log5_run].
    - by vm_compute.
    - by vm_compute.
    - by vm_compute.
    - by repeat constructor. }
  destruct (committed_entries_stable log5 log5_appended log5_ok Hrun) as (_ & _ & _ & _ & Hi).
  split; [by vm_compute|]. rewrite (Hi 2); [by vm_compute|by vm_compute].
Defined.

Lemma raft_log_invariant_witness : exists rl, new core3 = Ret rl /\
  applied rl <= Z.min (committed rl) (persisted rl) /\ persisted rl = 3.
Proof.
  eexists. split; [reflexivity|].
  split; [|reflexivity].
  eapply (raft_log_invariant core3); [exact core3_ok|by vm_compute|reflexivity|apply rtc_refl].
Defined.

Lemma maybe_append_correct_witness : exists rl', maybe_append 3 2 5 [entry 4 3] log5 = Ret (Some (4, 4), rl') /\
  ALog.term_at (view rl') 4 = Some 3 /\ committed rl' = 4 /\ persisted rl' = 3.
Proof.
  destruct (maybe_append_correct log5 3 2 5 [entry 4 3] log5_ok ltac:(by vm_compute) ltac:(by vm_compute)
    ltac:(by vm_compute) ltac:(by repeat constructor)) as (c & Hc & Hlow & Hne & Hr).
  assert (c = 4) as ->.
  { destruct Hc as [->|Hc]; [|change (len [entry 4 3]) with 1 in Hc; lia].
    specialize (Hlow (entry 4 3) ltac:(left) ltac:(by left)). vm_compute in Hlow. discriminate. }
  destruct Hr as (rl' & E & _ & Ht & _ & _ & Hcm & Hp). exists rl'. split; [exact E|].
  split; [apply (Ht (entry 4 3)); [left|by vm_compute]|]. split; [exact Hcm|exact Hp].
Defined.

Lemma term_correct_witness : term log5 5 = Ret (Ok 2) /\ last_index log5 = Ret 5.
Proof.
  destruct (term_correct log5 5 log5_ok ltac:(lia)) as (_ & Hl & Ht & _).
  split; [rewrite Ht; by vm_compute|rewrite Hl; by vm_compute].
Defined.

Lemma find_conflict_by_term_correct_witness :
  exists c found, find_conflict_by_term 7 log5 5 1 = Ret (c, found) /\ c = 2 /\ found = Some 1.
Proof.
  destruct (find_conflict_by_term_correct log5 5 1 7 log5_ok ltac:(intros _ t [= <-]; done) ltac:(lia) ltac:(lia)
    ltac:(vm_compute; lia)) as (c & found & E & _).
  exists c, found. split; [exact E|]. assert (Ret (c, found) = Ret (2, Some 1)) as E' by (rewrite <-E; by vm_compute).
  by simplify_eq.
Defined.

Lemma slice_correct_witness : exists r rl', slice 2 6 None GenReady log5 = Ret (r, rl') /\
  slice_result log5 2 6 None GenReady r rl' /\ r = Ok [entry 2 1; entry 3 2; entry 4 2; entry 5 2].
Proof.
  destruct (slice_correct log5 2 6 None GenReady log5_ok ltac:(lia)) as (r & rl' & E & Hr).
  exists r, rl'. split; [exact E|]. split; [exact Hr|].
  assert (slice 2 6 None GenReady log5 = Ret (Ok [entry 2 1; entry 3 2; entry 4 2; entry 5 2], log5)) as E' by (by vm_compute).
  rewrite E in E'. by simplify_eq.
Defined.

Lemma next_entries_correct_witness : exists es rl', next_entries None log5 = Ret (Some es, rl') /\
  es `prefix_of` ALog.range (view log5) 2 3 /\ es <> [].
Proof.
  destruct (next_entries_correct log5 None log5_ok) as (r & rl' & E & _ & Hr).
  destruct r as [es|]; [|exfalso; by vm_compute in Hr].
  exists es, rl'. split; [exact E|]. destruct Hr as [Hne Hp]. split; [exact Hp|exact Hne].
Defined.

Lemma is_up_to_date_correct_witness : is_up_to_date log5 9 1 = Ret false /\ is_up_to_date log5 5 2 = Ret true.
Proof.
  split; rewrite (is_up_to_date_correct log5 _ _ 2 log5_ok ltac:(by vm_compute)); by vm_compute.
Defined.
End witnesses.
