(* ===== verification/ReadOnly.v ===== *)
(** * Read-only requests ([read_only.rs])

    The queue of read requests that wait for a quorum of acknowledgements. *)

From S2P Require Import Prelude Proto.

Inductive ReadOnlyOption := Safe | LeaseBased.
#[global] Instance ReadOnlyOption_eq_dec : EqDecision ReadOnlyOption.
Proof. solve_decision. Defined.
Definition ReadOnlyOption_default : ReadOnlyOption := Safe.

(** The context of a request is a byte string. *)
Abbreviation bytes := (list Byte.byte).

(** [struct ReadState] *)
Module ReadState.
Record t : Type := mk {
  index : Z;
  request_ctx : list Byte.byte
}.
#[global] Instance eta_t : Eta t := fun r =>
  mk (index r) (request_ctx r).
#[global] Instance set_index : Setter index := ltac:(derive_setter).
#[global] Instance set_request_ctx : Setter request_ctx := ltac:(derive_setter).
#[global] Instance eq_dec : EqDecision t.
Proof. solve_decision. Defined.
Definition default : t :=
  mk 0 [].
End ReadState.

(** [struct ReadIndexStatus] *)
Module ReadIndexStatus.
Record t : Type := mk {
  req : Message.t;
  index : Z;
  acks : gset Z
}.
#[global] Instance eta_t : Eta t := fun r =>
  mk (req r) (index r) (acks r).
#[global] Instance set_req : Setter req := ltac:(derive_setter).
#[global] Instance set_index : Setter index := ltac:(derive_setter).
#[global] Instance set_acks : Setter acks := ltac:(derive_setter).
#[global] Instance eq_dec : EqDecision t.
Proof. solve_decision. Defined.
Definition default : t :=
  mk Message.default 0 ∅.
End ReadIndexStatus.

(** [struct ReadOnly] and its methods. *)
Module ReadOnly.
Record t : Type := mk {
  option_ : ReadOnlyOption;
  pending_read_index : gmap (list Byte.byte) ReadIndexStatus.t;
  read_index_queue : list (list Byte.byte)
}.
#[global] Instance eta_t : Eta t := fun r =>
  mk (option_ r) (pending_read_index r) (read_index_queue r).
#[global] Instance set_option_ : Setter option_ := ltac:(derive_setter).
#[global] Instance set_pending_read_index : Setter pending_read_index := ltac:(derive_setter).
#[global] Instance set_read_index_queue : Setter read_index_queue := ltac:(derive_setter).
#[global] Instance eq_dec : EqDecision t.
Proof. solve_decision. Defined.
Definition default : t :=
  mk ReadOnlyOption_default ∅ [].

Definition new (option : ReadOnlyOption) : t := mk option ∅ [].

Definition add_request (index : Z) (req : Message.t) (self_id : Z) : Prog t unit :=
  self ← get;
  e ← unwrap (head (Message.entries req));
  let key := Entry.data e in
  if bool_decide (is_Some (pending_read_index self !! key)) then mret tt
  else
    let status := ReadIndexStatus.mk req index {[self_id]} in
    modify (fun s => s <| pending_read_index := <[key := status]> (pending_read_index s) |>);;
    modify (fun s => s <| read_index_queue := read_index_queue s ++ [key] |>).

(** Answers the set of acknowledgements. *)
Definition recv_ack (id : Z) (ctx : bytes) : Prog t (option (gset Z)) :=
  self ← get;
  match pending_read_index self !! ctx with
  | None => mret None
  | Some rs =>
      let rs := rs <| ReadIndexStatus.acks := ReadIndexStatus.acks rs ∪ {[id]} |> in
      modify (fun s => s <| pending_read_index := <[ctx := rs]> (pending_read_index s) |>);;
      mret (Some (ReadIndexStatus.acks rs))
  end.

(** [position] over the queue, with the check of its closure. *)
Fixpoint position (pending : gmap bytes ReadIndexStatus.t) (queue : list bytes) (ctx : bytes) :
  outcome (option nat) :=
  match queue with
  | [] => Ret None
  | x :: queue =>
      if negb (bool_decide (is_Some (pending !! x))) then Panic
      else if bool_decide (x = ctx) then Ret (Some O)
      else i ← position pending queue ctx; Ret (option_map S i)
  end.

(** The [for _ in 0..=i] loop of [advance]. *)
Fixpoint pop (n : nat) : Prog t (list ReadIndexStatus.t) :=
  match n with
  | O => mret []
  | S n =>
      self ← get;
      rs ← unwrap (head (read_index_queue self));
      modify (fun s => s <| read_index_queue := tail (read_index_queue s) |>);;
      self ← get;
      status ← unwrap (pending_read_index self !! rs);
      modify (fun s => s <| pending_read_index := delete rs (pending_read_index s) |>);;
      rss ← pop n;
      mret (status :: rss)
  end.

Definition advance (ctx : bytes) : Prog t (list ReadIndexStatus.t) :=
  self ← get;
  i ← lift (position (pending_read_index self) (read_index_queue self) ctx);
  match i with
  | Some i => pop (S i)
  | None => mret []
  end.

Definition last_pending_request_ctx (self : t) : option bytes := last (read_index_queue self).
Definition pending_read_count (self : t) : Z := len (read_index_queue self).

End ReadOnly.


(** ** The queue and the map agree *)
Section readonly.
Import ReadOnly.

Record ro_ok (s : t) : Prop := {
  ro_nodup : NoDup (read_index_queue s);
  ro_dom : forall k, k ∈ read_index_queue s <-> is_Some (pending_read_index s !! k)
}.

Lemma ro_ok_new o : ro_ok (new o).
Proof.
  split; [constructor|]. intros k. simpl. split; [set_solver|]. intros [x Hx]. by rewrite lookup_empty in Hx.
Qed.

Lemma add_request_ok s i req id u s' : ro_ok s -> add_request i req id s = Ret (u, s') -> ro_ok s'.
Proof.
  intros [Hn Hd]. unfold add_request. intros E. prog_inv; [by split|].
  match goal with H : bool_decide _ = false |- _ => apply bool_decide_eq_false in H; rename H into Hk end.
  split; fields.
  - apply NoDup_app. split; [done|]. split; [|apply NoDup_singleton]. intros k Hk1 Hk2. apply Hk, Hd. set_solver.
  - intros k. rewrite elem_of_app, Hd, list_elem_of_singleton, lookup_insert_is_Some.
    match goal with |- context [?a = k \/ _] => destruct (decide (a = k)) as [<-|] end; naive_solver.
Qed.

Lemma recv_ack_ok s id ctx r s' : ro_ok s -> recv_ack id ctx s = Ret (r, s') -> ro_ok s'.
Proof.
  intros [Hn Hd]. unfold recv_ack. intros E. prog_inv; [|by split]. split; fields; [done|].
  intros k. rewrite Hd, lookup_insert_is_Some. destruct (decide (ctx = k)) as [<-|]; naive_solver.
Qed.

Lemma position_run pending queue ctx : (forall k, k ∈ queue -> is_Some (pending !! k)) ->
  position pending queue ctx = Ret (fst <$> list_find (fun x => x = ctx) queue).
Proof.
  induction queue as [|x queue IH]; intros Hq; [done|]. simpl.
  rewrite bool_decide_eq_true_2 by (apply Hq; left). simpl.
  destruct (decide (x = ctx)) as [->|Hne].
  - by rewrite bool_decide_eq_true_2.
  - rewrite bool_decide_eq_false_2 by done. rewrite IH by set_solver. simpl.
    by destruct (list_find _ queue) as [[]|].
Qed.

(** Popping a prefix of the queue yields the statuses of its keys. *)
Lemma pop_run s l1 l2 : ro_ok s -> read_index_queue s = l1 ++ l2 ->
  exists rss s', pop (length l1) s = Ret (rss, s') /\ ro_ok s' /\ read_index_queue s' = l2 /\
    Forall2 (fun k rs => pending_read_index s !! k = Some rs) l1 rss /\
    (forall k, k ∈ l2 -> pending_read_index s' !! k = pending_read_index s !! k) /\
    option_ s' = option_ s.
Proof.
  revert s. induction l1 as [|k l1 IH]; intros s Hok Hq.
  { exists [], s. by split_and!. }
  pose proof (ro_nodup _ Hok) as Hn. rewrite Hq in Hn. simpl in Hn. apply NoDup_cons in Hn as [Hk Hn].
  destruct (proj1 (ro_dom _ Hok k)) as [rs Hrs]; [rewrite Hq; left|].
  set (s1 := s <| read_index_queue := l1 ++ l2 |> <| pending_read_index := delete k (pending_read_index s) |>).
  assert (Hok1 : ro_ok s1).
  { split; unfold s1; fields; [done|]. intros j. rewrite lookup_delete_is_Some, <-(ro_dom _ Hok), Hq. simpl.
    rewrite elem_of_cons. split; [|naive_solver]. intros Hj. split; [|by right]. intros <-. done. }
  destruct (IH s1 Hok1 eq_refl) as (rss & s' & E & Hok' & Hq' & Hf & Hrest & Hopt).
  exists (rs :: rss), s'. split_and!; [|done|done| | |by rewrite Hopt].
  - simpl. prog_unfold. rewrite Hq. simpl. fields. rewrite Hrs. fields.
    match goal with |- context [pop _ ?u] => replace u with s1 by (unfold s1; by rewrite Hq) end.
    by rewrite E.
  - constructor; [done|]. apply Forall2_same_length_lookup_2; [by eapply Forall2_length|].
    intros i j x Hj Hx. pose proof (Forall2_lookup_lr _ _ _ _ _ _ Hf Hj Hx) as Hp. unfold s1 in Hp. revert Hp. fields.
    rewrite lookup_delete_ne; [done|]. intros <-. apply Hk, elem_of_app. left. by eapply list_elem_of_lookup_2.
  - intros j Hj. rewrite Hrest by done. unfold s1. fields. rewrite lookup_delete_ne; [done|].
    intros <-. apply Hk, elem_of_app. by right.
Qed.

Lemma queue_split (queue : list bytes) ctx :
  match list_find (fun x => x = ctx) queue with
  | Some (i, _) => exists l1 l2, queue = l1 ++ ctx :: l2 /\ length l1 = i /\ ctx ∉ l1
  | None => ctx ∉ queue
  end.
Proof.
  destruct (list_find _ queue) as [[i x]|] eqn:E.
  - apply list_find_Some in E as (Hi & -> & Hbefore). exists (take i queue), (drop (S i) queue).
    split; [by rewrite take_drop_middle|]. split; [apply length_take_le; apply lookup_lt_Some in Hi; lia|].
    intros Hin. apply elem_of_take in Hin as (j & Hj & Hlt). by apply (Hbefore j ctx).
  - apply list_find_None in E. rewrite Forall_forall in E. intros Hin. by apply (E ctx).
Qed.
End readonly.

(** ** Properties *)
Section properties.
Import ReadOnly.

(** The operations of the queue. *)
Inductive ro_step (s s' : ReadOnly.t) : Prop :=
  | step_add i req id : add_request i req id s = Ret (tt, s') -> ro_step s s'
  | step_ack id ctx r : recv_ack id ctx s = Ret (r, s') -> ro_step s s'
  | step_advance ctx r : advance ctx s = Ret (r, s') -> ro_step s s'.

Lemma advance_run s ctx : ro_ok s ->
  exists rss s', advance ctx s = Ret (rss, s') /\ ro_ok s' /\
    ((ctx ∉ read_index_queue s /\ rss = [] /\ s' = s) \/
     exists l1 l2, read_index_queue s = l1 ++ ctx :: l2 /\ read_index_queue s' = l2 /\
       Forall2 (fun k rs => pending_read_index s !! k = Some rs) (l1 ++ [ctx]) rss /\
       forall k, k ∈ l2 -> pending_read_index s' !! k = pending_read_index s !! k).
Proof.
  intros Hok. unfold advance. prog_unfold. rewrite position_run by (intros k; apply (ro_dom _ Hok)).
  pose proof (queue_split (read_index_queue s) ctx) as Hs. destruct (list_find _ _) as [[i x]|]; simpl.
  - destruct Hs as (l1 & l2 & Hq & <- & _).
    destruct (pop_run s (l1 ++ [ctx]) l2 Hok) as (rss & s' & E & Hok' & Hq' & Hf & Hrest & _);
      [by rewrite <-app_assoc|].
    rewrite length_app, Nat.add_1_r in E. exists rss, s'. split; [exact E|]. split; [done|]. right.
    exists l1, l2. by split_and!.
  - eexists _, _. split; [reflexivity|]. split; [done|]. left. by split_and!.
Qed.

(** C29 — [advance]: from every queue reached by adding, acknowledging and answering
    requests it never panics, and yields exactly the pending requests up to and
    including the acknowledged one, in the order they were queued; later requests
    stay, and an unknown context changes nothing. *)
Theorem read_only_advance_correct (o : ReadOnlyOption) (s : ReadOnly.t) (ctx : list Byte.byte)
    (Hrun : rtc ro_step (new o) s) :
  exists rss s', advance ctx s = Ret (rss, s') /\
    ((ctx ∉ read_index_queue s /\ rss = [] /\ s' = s) \/
     exists l1 l2, read_index_queue s = l1 ++ ctx :: l2 /\ read_index_queue s' = l2 /\
       Forall2 (fun k rs => pending_read_index s !! k = Some rs) (l1 ++ [ctx]) rss /\
       forall k, k ∈ l2 -> pending_read_index s' !! k = pending_read_index s !! k).
Proof.
  assert (ro_ok s) as Hok.
  { pose proof (ro_ok_new o) as H0. induction Hrun as [|s1 s2 s3 Hs _ IH]; [done|]. apply IH.
    destruct Hs as [i req id E|id ctx' r E|ctx' r E].
    - by eapply add_request_ok.
    - by eapply recv_ack_ok.
    - destruct (advance_run s1 ctx' H0) as (rss & s' & E' & Hok & _). rewrite E in E'. by simplify_eq. }
  destruct (advance_run s ctx Hok) as (rss & s' & E & _ & Hr). eauto.
Qed.

Definition read_request (c : Byte.byte) : Message.t :=
  Message.default <| Message.entries := [Entry.default <| Entry.data := [c] |>] |>.
Definition two_requests : ReadOnly.t :=
  match (add_request 5 (read_request Byte.x61) 1;; add_request 6 (read_request Byte.x62) 1) (new Safe) with
  | Ret (_, s) => s
  | _ => new Safe
  end.

Lemma read_only_advance_correct_witness :
  exists rss s', advance [Byte.x62] two_requests = Ret (rss, s') /\ length rss = 2%nat /\ read_index_queue s' = [].
Proof.
  assert (Hrun : rtc ro_step (new Safe) two_requests).
  { eapply rtc_l; [eapply (step_add _ _ 5 (read_request Byte.x61) 1); vm_compute; reflexivity|].
    apply rtc_once. apply (step_add _ _ 6 (read_request Byte.x62) 1). vm_compute. reflexivity. }
  destruct (read_only_advance_correct Safe two_requests [Byte.x62] Hrun) as (rss & s' & E & [(Hn & _)|(l1 & l2 & Hq & Hq' & Hf & _)]).
  - exfalso. apply Hn. vm_compute. right. left.
  - exists rss, s'. split; [exact E|]. assert (l1 = [[Byte.x61]] /\ l2 = []) as [-> ->].
    { change (read_index_queue two_requests) with [[Byte.x61]; [Byte.x62]] in Hq.
      destruct l1 as [|a [|b l1]]; simplify_eq/=; [done|]. destruct l1; done. }
    split; [|exact Hq']. apply Forall2_length in Hf. rewrite <-Hf. reflexivity.
Defined.
End properties.
