(* ===== verification/Config.v ===== *)
(** * Parameters of a node ([config.rs]) *)

From S2P Require Import Prelude Errors Util ReadOnly.

(** [pub const INVALID_ID: u64] of [raft.rs] *)
Definition INVALID_ID : Z := 0.

(** [struct Config]; [default] is its [Default] instance, with [HEARTBEAT_TICK = 2]. *)
Module Config.
Record t : Type := mk {
  id : Z;
  election_tick : Z;
  heartbeat_tick : Z;
  applied : Z;
  max_size_per_msg : Z;
  max_inflight_msgs : Z;
  check_quorum : bool;
  pre_vote : bool;
  min_election_tick : Z;
  max_election_tick : Z;
  read_only_option : ReadOnlyOption;
  skip_bcast_commit : bool;
  batch_append : bool;
  priority : Z;
  max_uncommitted_size : Z;
  max_committed_size_per_ready : Z
}.
#[global] Instance eta_t : Eta t := fun r =>
  mk (id r) (election_tick r) (heartbeat_tick r) (applied r) (max_size_per_msg r) (max_inflight_msgs r) (check_quorum r) (pre_vote r) (min_election_tick r) (max_election_tick r) (read_only_option r) (skip_bcast_commit r) (batch_append r) (priority r) (max_uncommitted_size r) (max_committed_size_per_ready r).
#[global] Instance set_id : Setter id := ltac:(derive_setter).
#[global] Instance set_election_tick : Setter election_tick := ltac:(derive_setter).
#[global] Instance set_heartbeat_tick : Setter heartbeat_tick := ltac:(derive_setter).
#[global] Instance set_applied : Setter applied := ltac:(derive_setter).
#[global] Instance set_max_size_per_msg : Setter max_size_per_msg := ltac:(derive_setter).
#[global] Instance set_max_inflight_msgs : Setter max_inflight_msgs := ltac:(derive_setter).
#[global] Instance set_check_quorum : Setter check_quorum := ltac:(derive_setter).
#[global] Instance set_pre_vote : Setter pre_vote := ltac:(derive_setter).
#[global] Instance set_min_election_tick : Setter min_election_tick := ltac:(derive_setter).
#[global] Instance set_max_election_tick : Setter max_election_tick := ltac:(derive_setter).
#[global] Instance set_read_only_option : Setter read_only_option := ltac:(derive_setter).
#[global] Instance set_skip_bcast_commit : Setter skip_bcast_commit := ltac:(derive_setter).
#[global] Instance set_batch_append : Setter batch_append := ltac:(derive_setter).
#[global] Instance set_priority : Setter priority := ltac:(derive_setter).
#[global] Instance set_max_uncommitted_size : Setter max_uncommitted_size := ltac:(derive_setter).
#[global] Instance set_max_committed_size_per_ready : Setter max_committed_size_per_ready := ltac:(derive_setter).
#[global] Instance eq_dec : EqDecision t.
Proof. solve_decision. Defined.
Definition default : t :=
  mk 0 20 2 0 0 256 false false 0 0 Safe false false 0 NO_LIMIT NO_LIMIT.

Definition new (id : Z) : t := default <| Config.id := id |>.

(** The bounds of the election timeout that are in effect. *)
Definition min_election_ticks (self : t) : Z :=
  if min_election_tick self =? 0 then election_tick self else min_election_tick self.

Definition max_election_ticks (self : t) : Z :=
  if max_election_tick self =? 0 then 2 *w election_tick self else max_election_tick self.

Section validate.
Local Open Scope string_scope.
Definition validate (self : t) : Result unit :=
  if (id self =? INVALID_ID)%Z then Err (ConfigInvalid "invalid node id")
  else if (heartbeat_tick self =? 0)%Z then Err (ConfigInvalid "heartbeat tick must greater than 0")
  else if (election_tick self <=? heartbeat_tick self)%Z then
    Err (ConfigInvalid "election tick must be greater than heartbeat tick")
  else
    let min_timeout := min_election_ticks self in
    let max_timeout := max_election_ticks self in
    if (min_timeout <? election_tick self)%Z then
      Err (ConfigInvalid ("min election tick " +:+ pretty min_timeout +:+
        " must not be less than election_tick " +:+ pretty (election_tick self)))
    else if (max_timeout <=? min_timeout)%Z then
      Err (ConfigInvalid ("min election tick " +:+ pretty min_timeout +:+
        " should be less than max election tick " +:+ pretty max_timeout))
    else if (max_inflight_msgs self =? 0)%Z then
      Err (ConfigInvalid "max inflight messages must be greater than 0")
    else if bool_decide (read_only_option self = LeaseBased) && negb (check_quorum self) then
      Err (ConfigInvalid "read_only_option == LeaseBased requires check_quorum == true")
    else if (max_uncommitted_size self <? max_size_per_msg self)%Z then
      Err (ConfigInvalid "max uncommitted size should greater than max_size_per_msg")
    else Ok tt.
End validate.

End Config.

(** ** Properties *)
Section properties.
Import Config.

(** What a node relies on in its parameters. *)
Record config_ok (c : Config.t) : Prop := {
  ok_id : id c <> INVALID_ID;
  ok_heartbeat : 0 < heartbeat_tick c < election_tick c;
  ok_timeout : election_tick c <= min_election_ticks c < max_election_ticks c;
  ok_inflight : max_inflight_msgs c <> 0;
  ok_lease : read_only_option c = LeaseBased -> check_quorum c = true;
  ok_sizes : max_size_per_msg c <= max_uncommitted_size c
}.

(** [validate] accepts a configuration (of machine words) exactly when it has an
    identifier, heartbeats are shorter than elections, the range the randomised election
    timeout is drawn from is not empty and not below the election timeout, in-flight
    messages are allowed, lease reads check the quorum, and one message fits in the limit
    of uncommitted data.  A doubled election timeout that wraps around is refused. *)
Theorem validate_correct (c : Config.t)
    (Hh : is_u64 (heartbeat_tick c)) (He : is_u64 (election_tick c)) :
  (validate c = Ok tt <-> config_ok c) /\
  (max_election_tick c = 0 -> U64_MOD <= 2 * election_tick c -> validate c <> Ok tt).
Proof.
  assert (Hiff : validate c = Ok tt <-> config_ok c).
  { u64_unfold. unfold validate. split.
    - intros E. repeat case_match; try discriminate E.
      repeat match goal with H : (_ =? _) = false |- _ => apply Z.eqb_neq in H
        | H : (_ <? _) = false |- _ => apply Z.ltb_ge in H | H : (_ <=? _) = false |- _ => apply Z.leb_gt in H end.
      split; try lia; try done. intros Hl.
      match goal with H : _ && _ = false |- _ => rewrite bool_decide_eq_true_2 in H by done end.
      by destruct (check_quorum c).
    - intros [H1 H2 H3 H4 H5 H6].
      rewrite (proj2 (Z.eqb_neq _ _) H1), (proj2 (Z.eqb_neq (heartbeat_tick c) 0)), (proj2 (Z.leb_gt _ _)) by lia.
      rewrite (proj2 (Z.ltb_ge _ _)), (proj2 (Z.leb_gt _ _)), (proj2 (Z.eqb_neq _ _) H4) by lia.
      rewrite (proj2 (Z.ltb_ge _ _)) by lia.
      case_bool_decide as Hl; [by rewrite (H5 Hl)|done]. }
  split; [exact Hiff|]. intros Hmax Hwrap [_ _ Ht _ _ _]%Hiff.
  unfold max_election_ticks, u64_mul in Ht. rewrite Hmax in Ht. simpl in Ht. u64_unfold.
  rewrite <-(Z_mod_plus_full _ (-1)), Z.mod_small in Ht by lia. lia.
Qed.

Lemma validate_correct_witness :
  validate (new 1) = Ok tt /\
  validate ((new 1) <| election_tick := 10000000000000000000 |>) <> Ok tt.
Proof.
  split.
  - apply (validate_correct (new 1)); [vm_compute; split; done..|].
    split; vm_compute; (split; done) || done.
  - apply (validate_correct ((new 1) <| election_tick := 10000000000000000000 |>));
      vm_compute; (split; done) || done.
Defined.
End properties.
