(* ===== verification/RaftCore.v ===== *)
(** * The core of a node ([raft.rs], first half)

    The state of a node without its peers ([RaftCore]), and the methods that work on
    it together with the progress of one peer and the outgoing messages, which the
    source borrows separately. *)

From S2P Require Import Prelude Proto Errors Util Inflights Progress Log Storage RaftLog ReadOnly Config.

(** [CAMPAIGN_PRE_ELECTION], [CAMPAIGN_ELECTION] and [CAMPAIGN_TRANSFER] *)
Definition CAMPAIGN_PRE_ELECTION : bytes := String.list_byte_of_string "CampaignPreElection".
Definition CAMPAIGN_ELECTION : bytes := String.list_byte_of_string "CampaignElection".
Definition CAMPAIGN_TRANSFER : bytes := String.list_byte_of_string "CampaignTransfer".

Definition NONE : Z := 0.
Definition i64_MAX : Z := 9223372036854775807.

(** [enum StateRole] *)
Inductive StateRole := Follower | Candidate | Leader | PreCandidate.
#[global] Instance StateRole_eq_dec : EqDecision StateRole.
Proof. solve_decision. Defined.
Definition StateRole_default : StateRole := Follower.

(** [struct SoftState] *)
Module SoftState.
Record t : Type := mk {
  leader_id : Z;
  raft_state : StateRole
}.
#[global] Instance eta_t : Eta t := fun r =>
  mk (leader_id r) (raft_state r).
#[global] Instance set_leader_id : Setter leader_id := ltac:(derive_setter).
#[global] Instance set_raft_state : Setter raft_state := ltac:(derive_setter).
#[global] Instance eq_dec : EqDecision t.
Proof. solve_decision. Defined.
Definition default : t :=
  mk 0 StateRole_default.
End SoftState.

(** [struct UncommittedState] and its methods. *)
Module UncommittedState.
Record t : Type := mk {
  max_uncommitted_size : Z;
  uncommitted_size : Z;
  last_log_tail_index : Z
}.
#[global] Instance eta_t : Eta t := fun r =>
  mk (max_uncommitted_size r) (uncommitted_size r) (last_log_tail_index r).
#[global] Instance set_max_uncommitted_size : Setter max_uncommitted_size := ltac:(derive_setter).
#[global] Instance set_uncommitted_size : Setter uncommitted_size := ltac:(derive_setter).
#[global] Instance set_last_log_tail_index : Setter last_log_tail_index := ltac:(derive_setter).
#[global] Instance eq_dec : EqDecision t.
Proof. solve_decision. Defined.
Definition default : t :=
  mk 0 0 0.

Definition is_no_limit (self : t) : bool := max_uncommitted_size self =? NO_LIMIT.

(** [ents.iter().map(|ent| ent.get_data().len()).sum()] *)
Definition data_size (ents : list Entry.t) : Z :=
  fold_left (fun n ent => n +w len (Entry.data ent)) ents 0.

Definition maybe_increase_uncommitted_size (ents : list Entry.t) : Prog t bool :=
  self ← get;
  if is_no_limit self then mret true
  else
    let size := data_size ents in
    if (size =? 0) || (uncommitted_size self =? 0)
       || (size +w uncommitted_size self <=? max_uncommitted_size self) then
      modify (fun s => s <| uncommitted_size := uncommitted_size s +w size |>);; mret true
    else mret false.

(** [skip_while] *)
Fixpoint skip_while {A} (p : A -> bool) (l : list A) : list A :=
  match l with
  | [] => []
  | x :: l' => if p x then skip_while p l' else l
  end.

Definition maybe_reduce_uncommitted_size (ents : list Entry.t) : Prog t bool :=
  self ← get;
  if is_no_limit self || bool_decide (ents = []) then mret true
  else
    let size := data_size (skip_while (fun ent => Entry.index ent <=? last_log_tail_index self) ents) in
    if uncommitted_size self <? size then
      modify (fun s => s <| uncommitted_size := 0 |>);; mret false
    else modify (fun s => s <| uncommitted_size := uncommitted_size s -w size |>);; mret true.

End UncommittedState.

(** [struct RaftCore]; the logger is left out. *)
Module RaftCore.
Record t {T : Type} : Type := mk {
  term : Z;
  vote : Z;
  id : Z;
  read_states : list ReadState.t;
  raft_log : RaftLog.t T;
  max_inflight : Z;
  max_msg_size : Z;
  pending_request_snapshot : Z;
  state : StateRole;
  promotable : bool;
  leader_id : Z;
  lead_transferee : option Z;
  pending_conf_index : Z;
  read_only : ReadOnly.t;
  election_elapsed : Z;
  heartbeat_elapsed : Z;
  check_quorum : bool;
  pre_vote : bool;
  skip_bcast_commit : bool;
  batch_append : bool;
  heartbeat_timeout : Z;
  election_timeout : Z;
  randomized_election_timeout : Z;
  min_election_timeout : Z;
  max_election_timeout : Z;
  priority : Z;
  uncommitted_state : UncommittedState.t;
  max_committed_size_per_ready : Z
}.
Arguments t : clear implicits.
#[global] Instance eta_t {T} : Eta (t T) := fun r =>
  mk T (term r) (vote r) (id r) (read_states r) (raft_log r) (max_inflight r) (max_msg_size r) (pending_request_snapshot r) (state r) (promotable r) (leader_id r) (lead_transferee r) (pending_conf_index r) (read_only r) (election_elapsed r) (heartbeat_elapsed r) (check_quorum r) (pre_vote r) (skip_bcast_commit r) (batch_append r) (heartbeat_timeout r) (election_timeout r) (randomized_election_timeout r) (min_election_timeout r) (max_election_timeout r) (priority r) (uncommitted_state r) (max_committed_size_per_ready r).
#[global] Instance set_term {T} : Setter (@term T) := ltac:(derive_setter).
#[global] Instance set_vote {T} : Setter (@vote T) := ltac:(derive_setter).
#[global] Instance set_id {T} : Setter (@id T) := ltac:(derive_setter).
#[global] Instance set_read_states {T} : Setter (@read_states T) := ltac:(derive_setter).
#[global] Instance set_raft_log {T} : Setter (@raft_log T) := ltac:(derive_setter).
#[global] Instance set_max_inflight {T} : Setter (@max_inflight T) := ltac:(derive_setter).
#[global] Instance set_max_msg_size {T} : Setter (@max_msg_size T) := ltac:(derive_setter).
#[global] Instance set_pending_request_snapshot {T} : Setter (@pending_request_snapshot T) := ltac:(derive_setter).
#[global] Instance set_state {T} : Setter (@state T) := ltac:(derive_setter).
#[global] Instance set_promotable {T} : Setter (@promotable T) := ltac:(derive_setter).
#[global] Instance set_leader_id {T} : Setter (@leader_id T) := ltac:(derive_setter).
#[global] Instance set_lead_transferee {T} : Setter (@lead_transferee T) := ltac:(derive_setter).
#[global] Instance set_pending_conf_index {T} : Setter (@pending_conf_index T) := ltac:(derive_setter).
#[global] Instance set_read_only {T} : Setter (@read_only T) := ltac:(derive_setter).
#[global] Instance set_election_elapsed {T} : Setter (@election_elapsed T) := ltac:(derive_setter).
#[global] Instance set_heartbeat_elapsed {T} : Setter (@heartbeat_elapsed T) := ltac:(derive_setter).
#[global] Instance set_check_quorum {T} : Setter (@check_quorum T) := ltac:(derive_setter).
#[global] Instance set_pre_vote {T} : Setter (@pre_vote T) := ltac:(derive_setter).
#[global] Instance set_skip_bcast_commit {T} : Setter (@skip_bcast_commit T) := ltac:(derive_setter).
#[global] Instance set_batch_append {T} : Setter (@batch_append T) := ltac:(derive_setter).
#[global] Instance set_heartbeat_timeout {T} : Setter (@heartbeat_timeout T) := ltac:(derive_setter).
#[global] Instance set_election_timeout {T} : Setter (@election_timeout T) := ltac:(derive_setter).
#[global] Instance set_randomized_election_timeout {T} : Setter (@randomized_election_timeout T) := ltac:(derive_setter).
#[global] Instance set_min_election_timeout {T} : Setter (@min_election_timeout T) := ltac:(derive_setter).
#[global] Instance set_max_election_timeout {T} : Setter (@max_election_timeout T) := ltac:(derive_setter).
#[global] Instance set_priority {T} : Setter (@priority T) := ltac:(derive_setter).
#[global] Instance set_uncommitted_state {T} : Setter (@uncommitted_state T) := ltac:(derive_setter).
#[global] Instance set_max_committed_size_per_ready {T} : Setter (@max_committed_size_per_ready T) := ltac:(derive_setter).
Arguments mk {T}.
End RaftCore.

(** What the methods of [RaftCore] borrow: the core, the progress of one peer and the
    outgoing messages. *)
Module Sender.
Record t {T : Type} : Type := mk {
  core : RaftCore.t T;
  pr : Progress.t;
  msgs : list Message.t
}.
Arguments t : clear implicits.
#[global] Instance eta_t {T} : Eta (t T) := fun r =>
  mk T (core r) (pr r) (msgs r).
#[global] Instance set_core {T} : Setter (@core T) := ltac:(derive_setter).
#[global] Instance set_pr {T} : Setter (@pr T) := ltac:(derive_setter).
#[global] Instance set_msgs {T} : Setter (@msgs T) := ltac:(derive_setter).
Arguments mk {T}.
End Sender.

Definition new_message (to : Z) (field_type : MessageType) (from : option Z) : Message.t :=
  let m := Message.default <| Message.to := to |> in
  let m := match from with Some id => m <| Message.from := id |> | None => m end in
  m <| Message.msg_type := field_type |>.

Definition get_priority (m : Message.t) : Z :=
  if negb (Message.priority m =? 0) then Message.priority m
  else if Message.deprecated_priority m <=? i64_MAX then Message.deprecated_priority m
  else i64_MAX.

Definition vote_resp_msg_type (t : MessageType) : outcome MessageType :=
  match t with
  | MsgRequestVote => Ret MsgRequestVoteResponse
  | MsgRequestPreVote => Ret MsgRequestPreVoteResponse
  | _ => Panic
  end.

(** Tests of message types that occur more than once. *)
Definition is_vote_request (t : MessageType) : bool :=
  match t with MsgRequestVote | MsgRequestPreVote => true | _ => false end.
Definition is_vote_response (t : MessageType) : bool :=
  match t with MsgRequestVoteResponse | MsgRequestPreVoteResponse => true | _ => false end.

(** ** [impl RaftCore] *)
Module Sending.
Import RaftCore.
Section ops.
Context {T : Type} `{Storage T} `{Codec}.

(** [send]: the core is only read. *)
Definition send (self : RaftCore.t T) (m : Message.t) : Prog (list Message.t) unit :=
  let m := if Message.from m =? INVALID_ID then m <| Message.from := id self |> else m in
  m ← (if is_vote_request (Message.msg_type m) || is_vote_response (Message.msg_type m) then
         if Message.term m =? 0 then panic else mret m
       else if negb (Message.term m =? 0) then panic
       else mret (if negb (bool_decide (Message.msg_type m = MsgPropose))
                     && negb (bool_decide (Message.msg_type m = MsgReadIndex))
                  then m <| Message.term := term self |> else m));
  let m := if is_vote_request (Message.msg_type m) then
             let m := if 0 <? priority self then m <| Message.deprecated_priority := priority self |> else m in
             m <| Message.priority := priority self |>
           else m in
  modify (fun msgs => msgs ++ [m]).

Definition send_from (m : Message.t) : Prog (Sender.t T) unit :=
  self ← get;
  zoom Sender.msgs (fun msgs s => s <| Sender.msgs := msgs |>) (send (Sender.core self) m).

Definition on_log {A} (m : Prog (RaftLog.t T) A) : Prog (Sender.t T) A :=
  zoom (fun s => raft_log (Sender.core s))
    (fun l s => s <| Sender.core := (Sender.core s) <| raft_log := l |> |>) m.
Definition on_pr {A} (m : Prog Progress.t A) : Prog (Sender.t T) A :=
  zoom Sender.pr (fun pr s => s <| Sender.pr := pr |>) m.

(** Answers the message with the snapshot and whether to send it. *)
Definition prepare_send_snapshot (m : Message.t) (to : Z) : Prog (Sender.t T) (Message.t * bool) :=
  self ← get;
  if negb (Progress.recent_active (Sender.pr self)) then mret (m, false)
  else
    let m := m <| Message.msg_type := MsgSnapshot |> in
    snapshot_r ← on_log (RaftLog.snapshot (Progress.pending_request_snapshot (Sender.pr self)) to);
    match snapshot_r with
    | Err e =>
        if Error_eqb e (Store SnapshotTemporarilyUnavailable) then mret (m, false) else panic
    | Ok snapshot =>
        let sindex := SnapshotMetadata.index (Snapshot.metadata snapshot) in
        if sindex =? 0 then panic
        else
          let m := m <| Message.snapshot := snapshot |> in
          on_pr (modify (Progress.become_snapshot sindex));;
          mret (m, true)
    end.

Definition prepare_send_entries (m : Message.t) (term : Z) (ents : list Entry.t) : Prog (Sender.t T) Message.t :=
  self ← get;
  let m := m <| Message.msg_type := MsgAppend |>
             <| Message.index := Progress.next_idx (Sender.pr self) -w 1 |>
             <| Message.log_term := term |>
             <| Message.entries := ents |>
             <| Message.commit := RaftLog.committed (raft_log (Sender.core self)) |> in
  match last ents with
  | Some e => on_pr (Progress.update_state (Entry.index e))
  | None => mret tt
  end;;
  mret m.

(** The loop ends at the first append message for the receiver. *)
Definition try_batching (to : Z) (ents : list Entry.t) : Prog (Sender.t T) bool :=
  self ← get;
  let committed := RaftLog.committed (raft_log (Sender.core self)) in
  match list_find (fun msg => Message.msg_type msg = MsgAppend /\ Message.to msg = to) (Sender.msgs self) with
  | None => mret false
  | Some (i, msg) =>
      let put_back msg := modify (fun s => s <| Sender.msgs := <[i := msg]> (Sender.msgs s) |>) in
      if negb (bool_decide (ents = [])) then
        if negb (is_continuous_ents msg ents) then mret false
        else
          let msg := msg <| Message.entries := Message.entries msg ++ ents |> in
          last_entry ← unwrap (last (Message.entries msg));
          on_pr (Progress.update_state (Entry.index last_entry));;
          put_back (msg <| Message.commit := committed |>);;
          mret true
      else
        put_back (msg <| Message.commit := committed |>);;
        mret true
  end.

(** [if !self.prepare_send_snapshot(..) { return false; }] followed by the send. *)
Definition send_snapshot (m : Message.t) (to : Z) : Prog (Sender.t T) bool :=
  r ← prepare_send_snapshot m to;
  let '(m, ready) := r in
  if ready : bool then send_from m;; mret true else mret false.

Definition maybe_send_append (to : Z) (allow_empty : bool) : Prog (Sender.t T) bool :=
  self ← get;
  if Progress.is_paused (Sender.pr self) then mret false
  else
    let m := Message.default <| Message.to := to |> in
    if negb (Progress.pending_request_snapshot (Sender.pr self) =? INVALID_INDEX) then send_snapshot m to
    else
      let next_idx := Progress.next_idx (Sender.pr self) in
      ents ← on_log (RaftLog.entries next_idx (Some (max_msg_size (Sender.core self)))
        (SendAppend to (RaftCore.term (Sender.core self)) (negb allow_empty)));
      if negb allow_empty && match ents with Ok [] | Err _ => true | Ok _ => false end then mret false
      else
        term ← asks (fun s => RaftLog.term (raft_log (Sender.core s)) (next_idx -w 1));
        match term, ents with
        | Ok term, Ok ents =>
            batched ← (if batch_append (Sender.core self) then try_batching to ents else mret false);
            if batched : bool then mret true
            else
              m ← prepare_send_entries m term ents;
              send_from m;;
              mret true
        | _, Err (Store LogTemporarilyUnavailable) => mret false
        | _, _ => send_snapshot m to
        end.

Definition send_append (to : Z) : Prog (Sender.t T) unit :=
  _r ← maybe_send_append to true; mret tt.

(** [while self.maybe_send_append(to, pr, false, msgs) {}] *)
Fixpoint send_append_loop (fuel : nat) (to : Z) : Prog (Sender.t T) unit :=
  match fuel with
  | O => fun _ => OutOfFuel
  | S fuel =>
      sent ← maybe_send_append to false;
      if sent : bool then send_append_loop fuel to else mret tt
  end.

(** Every round sends at least one entry or pauses the peer. *)
Definition send_fuel (self : Sender.t T) : nat :=
  match RaftLog.last_index (raft_log (Sender.core self)) with
  | Ret last => Z.to_nat (last + 1 - Progress.next_idx (Sender.pr self)) + 2
  | _ => 2
  end.

Definition send_append_aggressively (to : Z) : Prog (Sender.t T) unit :=
  self ← get;
  send_append_loop (send_fuel self) to.

Definition send_heartbeat (to : Z) (ctx : option bytes) : Prog (Sender.t T) unit :=
  self ← get;
  let m := Message.default <| Message.to := to |> <| Message.msg_type := MsgHeartbeat |> in
  let commit := Z.min (Progress.matched (Sender.pr self)) (RaftLog.committed (raft_log (Sender.core self))) in
  let m := m <| Message.commit := commit |> in
  let m := match ctx with Some context => m <| Message.context := context |> | None => m end in
  send_from m.

End ops.
End Sending.

(** ** The size of the uncommitted data

    The entries a leader has taken and not yet handed out as committed: proposals are
    taken or refused as a whole, committed entries leave in order. *)
Section uncommitted.
(** The limit, and a bound on the size of a proposal. *)
Variables M B : Z.
Import UncommittedState.
Implicit Types u : UncommittedState.t.

Definition sum_data (es : list Entry.t) : Z := foldr (fun e n => len (Entry.data e) + n) 0 es.

Lemma sum_data_nonneg es : 0 <= sum_data es.
Proof. induction es as [|e es IH]; simpl; [done|]. pose proof (len_nonneg (Entry.data e)). lia. Qed.
Lemma sum_data_app es es' : sum_data (es ++ es') = sum_data es + sum_data es'.
Proof. induction es as [|e es IH]; simpl; [done|]. lia. Qed.

Lemma data_size_sum es : sum_data es < U64_MOD -> data_size es = sum_data es.
Proof.
  unfold data_size. cut (forall n, 0 <= n -> n + sum_data es < U64_MOD ->
    fold_left (fun n e => n +w len (Entry.data e)) es n = n + sum_data es); [intros Hc ?; by rewrite Hc by lia|].
  induction es as [|e es IH]; intros n Hn Hb; simpl in *; [lia|]. pose proof (len_nonneg (Entry.data e)).
  pose proof (sum_data_nonneg es). rewrite u64_add_small by u64_lia. rewrite IH by lia. lia.
Qed.

Lemma skip_old old es tail : Forall (fun e => Entry.index e <= tail) old ->
  skip_while (fun e => Entry.index e <=? tail) (old ++ es) = skip_while (fun e => Entry.index e <=? tail) es.
Proof. induction 1 as [|e old He _ IH]; simpl; [done|]. by rewrite (proj2 (Z.leb_le _ _)) by done. Qed.
Lemma skip_none es tail : Forall (fun e => tail < Entry.index e) es -> skip_while (fun e => Entry.index e <=? tail) es = es.
Proof. destruct 1 as [|e es He]; [done|]. simpl. by rewrite (proj2 (Z.leb_gt _ _)) by lia. Qed.

(** [es] are the entries that were taken in this leadership and not yet handed out.  A new leadership
    starts with nothing ([become_leader]); what is handed out may begin with entries from before it. *)
Inductive uncommitted_step : UncommittedState.t * list Entry.t -> UncommittedState.t * list Entry.t -> Prop :=
  | take_proposal u es new u' : sum_data new <= B -> maybe_increase_uncommitted_size new u = Ret (true, u') ->
      Forall (fun e => last_log_tail_index u < Entry.index e) new -> uncommitted_step (u, es) (u', es ++ new)
  | refuse_proposal u es new u' : sum_data new <= B -> maybe_increase_uncommitted_size new u = Ret (false, u') -> uncommitted_step (u, es) (u', es)
  | hand_out u old es es' b u' : Forall (fun e => Entry.index e <= last_log_tail_index u) old ->
      maybe_reduce_uncommitted_size (old ++ es) u = Ret (b, u') -> uncommitted_step (u, es ++ es') (u', es')
  | new_leadership u es last_index :
      uncommitted_step (u, es) (u <| uncommitted_size := 0 |> <| last_log_tail_index := last_index |>, []).

Record ledger (x : UncommittedState.t * list Entry.t) : Prop := {
  lg_max : max_uncommitted_size x.1 = M;
  lg_size : uncommitted_size x.1 = sum_data x.2;
  lg_bound : sum_data x.2 <= Z.max M B;
  lg_tail : Forall (fun e => last_log_tail_index x.1 < Entry.index e) x.2
}.
Context (HM : 0 <= M) (HB : 0 <= B /\ M + B + B < U64_MOD) (Hlimit : M <> NO_LIMIT).

Lemma increase_run u es new : ledger (u, es) -> sum_data new <= B ->
  maybe_increase_uncommitted_size new u =
    let taken := (sum_data new =? 0) || (sum_data es =? 0) || (sum_data new + sum_data es <=? M) in
    Ret (taken, if taken then u <| uncommitted_size := sum_data new + sum_data es |> else u).
Proof using HM HB Hlimit.
  intros [Hmax Hsize Hb _] Hnew. simpl in *. unfold maybe_increase_uncommitted_size. prog_unfold.
  unfold is_no_limit. rewrite Hmax, (proj2 (Z.eqb_neq _ _)) by done.
  pose proof (sum_data_nonneg new). pose proof (sum_data_nonneg es). rewrite data_size_sum by (unfold U64_MOD in *; lia).
  rewrite Hsize.
  assert (sum_data new + sum_data es < U64_MOD) by lia. rewrite u64_add_small by lia. cbv zeta.
  destruct (_ || _); [|done]. rewrite Hsize, u64_add_small by lia. by rewrite Z.add_comm.
Qed.

Lemma reduce_run u old es es' : Forall (fun e => Entry.index e <= last_log_tail_index u) old -> ledger (u, es ++ es') ->
  maybe_reduce_uncommitted_size (old ++ es) u = Ret (true, if bool_decide (old ++ es = []) then u else u <| uncommitted_size := sum_data es' |>).
Proof using HM HB Hlimit.
  intros Hold [Hmax Hsize Hb Htail]. simpl in *. unfold maybe_reduce_uncommitted_size. prog_unfold.
  unfold is_no_limit. rewrite Hmax, (proj2 (Z.eqb_neq _ _)) by done. simpl. case_bool_decide as He; [done|].
  apply Forall_app in Htail as [Htail _]. rewrite skip_old, skip_none by done. rewrite sum_data_app in *.
  pose proof (sum_data_nonneg es). pose proof (sum_data_nonneg es'). rewrite data_size_sum by (unfold U64_MOD in *; lia).
  rewrite (proj2 (Z.ltb_ge _ _)) by lia. rewrite u64_sub_small by lia.
  by replace (uncommitted_size u - sum_data es) with (sum_data es') by lia.
Qed.

Lemma uncommitted_step_ledger x y : uncommitted_step x y -> ledger x -> ledger y.
Proof using HM HB Hlimit.
  intros [u es new u' Hnew E Hf|u es new u' Hnew E|u old es es' b u' Hold E|u es li] Hl; pose proof Hl as [Hmax Hsize Hb Htail]; simpl in *.
  - rewrite (increase_run u es new Hl Hnew) in E. cbv zeta in E. destruct (_ || _) eqn:Et; [|done]. injection E as <-.
    split; simpl; fields; [done| | |by apply Forall_app].
    + rewrite sum_data_app. lia.
    + rewrite sum_data_app. apply orb_true_iff in Et as [[Hz|Hz]%orb_true_iff|Hz%Z.leb_le];
        [apply Z.eqb_eq in Hz|apply Z.eqb_eq in Hz|]; lia.
  - rewrite (increase_run u es new Hl Hnew) in E. cbv zeta in E. destruct (_ || _); [done|]. by injection E as <-.
  - rewrite (reduce_run u old es es' Hold Hl) in E. injection E as _ <-. rewrite sum_data_app in Hb. pose proof (sum_data_nonneg es).
    apply Forall_app in Htail as [_ Htail]. case_bool_decide as He; split; simpl; fields; try done; try lia.
    apply app_eq_nil in He as [_ He]. by rewrite Hsize, He.
  - split; simpl; fields; (done || lia || constructor).
Qed.

(** C24 — The size of the uncommitted data: however a leader takes proposals of at most [B] bytes
    and hands out committed entries, those from before its leadership too, and however often it becomes leader,
    its counter is the exact size of the data that it has taken and not handed out, which never exceeds the
    larger of the limit and [B]; a proposal is refused exactly if it has data, other data is uncommitted,
    and both together exceed the limit; and handing out entries, old ones or not, never finds the counter
    too small and counts the new ones only. *)
Theorem uncommitted_size_bounded u0 u es (Hmax : max_uncommitted_size u0 = M) (Hempty : uncommitted_size u0 = 0)
    (Hrun : rtc uncommitted_step (u0, []) (u, es)) :
  uncommitted_size u = sum_data es /\ sum_data es <= Z.max M B /\
  (forall new, sum_data new <= B -> exists b u', maybe_increase_uncommitted_size new u = Ret (b, u') /\
    (b = false <-> sum_data new <> 0 /\ sum_data es <> 0 /\ M < sum_data new + sum_data es) /\
    uncommitted_size u' = if b then sum_data (es ++ new) else sum_data es) /\
  (forall old es1 es2, Forall (fun e => Entry.index e <= last_log_tail_index u) old -> es = es1 ++ es2 ->
    exists u', maybe_reduce_uncommitted_size (old ++ es1) u = Ret (true, u') /\ uncommitted_size u' = sum_data es2).
Proof using HM HB Hlimit.
  assert (ledger (u, es)) as Hl.
  { assert (ledger (u0, [])) as Hl0 by (split; simpl; [done|done|lia|constructor]).
    revert Hl0. induction Hrun as [|x y z Hs _ IH]; [done|]. intros Hx. by apply IH, (uncommitted_step_ledger x). }
  pose proof Hl as [_ Hsize Hb _]. simpl in *. split_and!; [done|done| |].
  - intros new Hnew. rewrite (increase_run u es new Hl Hnew). cbv zeta. eexists _, _. split; [reflexivity|].
    destruct (_ || _) eqn:Et.
    + split; [|fields; rewrite sum_data_app; lia]. split; [done|]. intros (H1' & H2' & H3').
      rewrite (proj2 (Z.eqb_neq _ _) H1'), (proj2 (Z.eqb_neq _ _) H2') in Et. simpl in Et. apply Z.leb_le in Et. lia.
    + split; [|done]. split; [intros _|done]. apply orb_false_iff in Et as [[?%Z.eqb_neq ?%Z.eqb_neq]%orb_false_iff ?%Z.leb_gt]. done.
  - intros old es1 es2 Hold ->. rewrite (reduce_run u old es1 es2 Hold Hl). eexists. split; [reflexivity|].
    case_bool_decide as He; [|done]. apply app_eq_nil in He as [_ He]. by rewrite Hsize, He.
Qed.
End uncommitted.

Section uncommitted_witness.
Import UncommittedState.
Definition leader_limits : UncommittedState.t := UncommittedState.mk 4 0 0.
Definition three_bytes (i : Z) : Entry.t :=
  Entry.default <| Entry.index := i |> <| Entry.data := [Byte.x61; Byte.x62; Byte.x63] |>.

(** A second entry of three bytes does not fit into four, and the entry 1 from before the leadership is not
    counted when it is handed out together with the entry 2 of the leadership. *)
Definition second_leadership : UncommittedState.t := UncommittedState.mk 4 3 1.
Lemma uncommitted_size_bounded_witness :
  maybe_increase_uncommitted_size [three_bytes 3] second_leadership = Ret (false, second_leadership) /\
  sum_data [three_bytes 2] <= Z.max 4 3 /\
  exists u', maybe_reduce_uncommitted_size [three_bytes 1; three_bytes 2] second_leadership = Ret (true, u') /\ uncommitted_size u' = 0.
Proof.
  destruct (uncommitted_size_bounded 4 3 ltac:(lia) ltac:(by split; vm_compute) ltac:(by vm_compute) leader_limits
    second_leadership [three_bytes 2]) as (_ & Hb & _ & Hout); [done|done| |].
  - eapply rtc_l; [apply (take_proposal 3 leader_limits [] [three_bytes 1]); [by vm_compute|by vm_compute|by constructor; [vm_compute|]]|].
    eapply rtc_l; [apply (new_leadership 3 _ _ 1)|].
    apply rtc_once. apply (take_proposal 3 _ [] [three_bytes 2]); [by vm_compute|by vm_compute|by constructor; [vm_compute|]].
  - split; [by vm_compute|]. split; [exact Hb|]. destruct (Hout [three_bytes 1] [three_bytes 2] []) as (u' & E & Hu).
    + by constructor; [vm_compute|].
    + by rewrite app_nil_r.
    + exists u'. split; [exact E|exact Hu].
Defined.
End uncommitted_witness.
