(* ===== verification/Raft.v ===== *)
(** * A node of the cluster ([raft.rs], second half)

    The Raft state machine: the core of [RaftCore.v] with the progress of the peers
    and the outgoing messages. *)

From S2P Require Import Prelude Proto Errors Util Inflights Progress Quorum Tracker ConfChange.
From S2P Require Import Log Unstable Storage RaftLog ReadOnly Config RaftCore.

(** [rand::thread_rng().gen_range(min..max)]: the [n]-th number drawn.  The crate
    rand documents that it lies in the range, and that an empty range panics. *)
Class Rng := {
  gen_range : Z -> Z -> nat -> Z;
  gen_range_bounds lo hi n : lo < hi -> lo <= gen_range lo hi n < hi
}.

(** [struct Raft] and its methods; [draws] counts the random numbers drawn from the
    generator of the thread. *)
Module Raft.
Import RaftCore.
Record t {T : Type} : Type := mk {
  prs : ProgressTracker.t;
  msgs : list Message.t;
  r : RaftCore.t T;
  draws : nat
}.
Arguments t : clear implicits.
#[global] Instance eta_t {T} : Eta (t T) := fun s => mk T (prs s) (msgs s) (r s) (draws s).
#[global] Instance set_prs {T} : Setter (@prs T) := ltac:(derive_setter).
#[global] Instance set_msgs {T} : Setter (@msgs T) := ltac:(derive_setter).
#[global] Instance set_r {T} : Setter (@r T) := ltac:(derive_setter).
#[global] Instance set_draws {T} : Setter (@draws T) := ltac:(derive_setter).
Arguments mk {T}.

Section ops.
Context {T : Type} `{Storage T} `{Codec} `{HashOrder} `{ConfigurationDebug} `{Rng}.
Abbreviation M := (Prog (t T)).

(** [self.f = v] for a field [f] of the core. *)
Abbreviation assign f v := (modify (fun s : t T => s <| r := (r s) <| f := v |> |>)).
Abbreviation self_ f := (gets (fun s : t T => f (r s))).

(** Runs a method on the log, on the tracker, on the read-only queue. *)
Definition on_log {A} (m : Prog (RaftLog.t T) A) : M A :=
  zoom (fun s => raft_log (r s)) (fun l s => s <| r := (r s) <| raft_log := l |> |>) m.
Definition ask_log {A} (f : RaftLog.t T -> outcome A) : M A := asks (fun s => f (raft_log (r s))).
Definition on_read_only {A} (m : Prog ReadOnly.t A) : M A :=
  zoom (fun s => read_only (r s)) (fun x s => s <| r := (r s) <| read_only := x |> |>) m.
Definition on_prs (f : ProgressTracker.t -> ProgressTracker.t) : M unit :=
  modify (fun s => s <| prs := f (prs s) |>).
Definition progress_of (self : t T) (id : Z) : option Progress.t := ProgressTracker.get_progress (prs self) id.
Definition put_progress (id : Z) (pr : Progress.t) (self : t T) : t T :=
  self <| prs := (prs self) <| ProgressTracker.progress := <[id := pr]> (ProgressTracker.progress (prs self)) |> |>.

(** Runs a method on the progress of a peer ([get_mut(id).unwrap()]). *)
Definition on_progress {A} (id : Z) (m : Prog Progress.t A) : M A :=
  self ← get;
  pr ← unwrap (progress_of self id);
  zoom (fun _ => pr) (put_progress id) m.

(** Runs a method of the core that borrows the progress of a peer and the messages. *)
Definition with_progress {A} (id : Z) (m : Prog (Sender.t T) A) : M A :=
  self ← get;
  pr ← unwrap (progress_of self id);
  zoom (fun s => Sender.mk (r s) pr (msgs s))
    (fun x s => put_progress id (Sender.pr x) (s <| r := Sender.core x |> <| msgs := Sender.msgs x |>)) m.

Definition send (m : Message.t) : M unit :=
  self ← get;
  zoom msgs (fun x s => s <| msgs := x |>) (Sending.send (r self) m).

(** The other peers, in the order [iter_mut] visits them. *)
Definition others (self : t T) : list Z :=
  filter (fun i => i <> id (r self)) (map_iter (ProgressTracker.progress (prs self))).*1.

(** ** Reading the state *)
Definition soft_state (self : t T) : SoftState.t := SoftState.mk (leader_id (r self)) (state (r self)).
Definition hard_state (self : t T) : HardState.t :=
  HardState.mk (term (r self)) (vote (r self)) (RaftLog.committed (raft_log (r self))).
Definition in_lease (self : t T) : bool := bool_decide (state (r self) = Leader) && check_quorum (r self).
Definition pending_read_count (self : t T) : Z := ReadOnly.pending_read_count (read_only (r self)).
Definition ready_read_count (self : t T) : Z := len (read_states (r self)).
Definition snap (self : t T) : option Snapshot.t := Unstable.snapshot (RaftLog.unstable (raft_log (r self))).
Definition has_leader (self : t T) : bool := negb (leader_id (r self) =? NONE).

Definition set_priority (p : Z) : M unit := assign priority p.
Definition set_randomized_election_timeout (tick : Z) : M unit :=
  self ← get;
  assert ((min_election_timeout (r self) <=? tick) && (tick <? max_election_timeout (r self)));;
  assign randomized_election_timeout tick.
Definition set_skip_bcast_commit (skip : bool) : M unit := assign skip_bcast_commit skip.
Definition set_batch_append (b : bool) : M unit := assign batch_append b.
Definition set_max_committed_size_per_ready (size : Z) : M unit := assign max_committed_size_per_ready size.
Definition set_check_quorum (b : bool) : M unit := assign check_quorum b.

(** [commit_to_current_term] and [apply_to_current_term] *)
Definition at_current_term (self : t T) (idx : Z) : outcome bool :=
  r' ← RaftLog.term (raft_log (r self)) idx;
  mret (match r' with Ok x => x =? term (r self) | Err _ => false end).
Definition commit_to_current_term (self : t T) : outcome bool :=
  at_current_term self (RaftLog.committed (raft_log (r self))).
Definition apply_to_current_term (self : t T) : outcome bool :=
  at_current_term self (RaftLog.applied (raft_log (r self))).

(** ** Sending to the peers *)
Definition send_append (to : Z) : M unit := with_progress to (Sending.send_append to).
Definition send_append_aggressively (to : Z) : M unit := with_progress to (Sending.send_append_aggressively to).

Definition bcast_append : M unit :=
  self ← get;
  for_each send_append (others self).

Definition bcast_heartbeat_with_ctx (ctx : option bytes) : M unit :=
  self ← get;
  for_each (fun to => with_progress to (Sending.send_heartbeat to ctx)) (others self).

Definition bcast_heartbeat : M unit :=
  self ← get;
  bcast_heartbeat_with_ctx (ReadOnly.last_pending_request_ctx (read_only (r self))).

Definition ping : M unit :=
  self ← get;
  when (bool_decide (state (r self) = Leader)) bcast_heartbeat.

Definition send_timeout_now (to : Z) : M unit := send (new_message to MsgTimeoutNow None).

Definition abort_leader_transfer : M unit := assign lead_transferee None.

Definition send_request_snapshot : M unit :=
  self ← get;
  let m := Message.default <| Message.msg_type := MsgAppendResponse |>
             <| Message.index := RaftLog.committed (raft_log (r self)) |>
             <| Message.reject := true |> in
  last ← ask_log RaftLog.last_index;
  let m := m <| Message.reject_hint := last |>
             <| Message.to := leader_id (r self) |>
             <| Message.request_snapshot := pending_request_snapshot (r self) |> in
  x ← ask_log (fun l => RaftLog.term l last);
  log_term ← lift (result_unwrap x);
  send (m <| Message.log_term := log_term |>).

(** ** Committing *)
Definition has_pending_conf (self : t T) : bool :=
  RaftLog.applied (raft_log (r self)) <? pending_conf_index (r self).
Definition should_bcast_commit (self : t T) : bool :=
  negb (skip_bcast_commit (r self)) || has_pending_conf self.

Definition maybe_commit : M bool :=
  mci ← asks (fun s => ProgressTracker.maximal_committed_index (prs s));
  self ← get;
  b ← on_log (RaftLog.maybe_commit mci.1 (term (r self)));
  if b : bool then
    self ← get;
    on_progress (id (r self)) (modify (Progress.update_committed (RaftLog.committed (raft_log (r self)))));;
    mret true
  else mret false.

Definition enable_group_commit (enable : bool) : M unit :=
  on_prs (ProgressTracker.enable_group_commit enable);;
  self ← get;
  if bool_decide (Leader = state (r self)) && negb enable then
    b ← maybe_commit; when b bcast_append
  else mret tt.

Definition group_commit (self : t T) : bool := ProgressTracker.group_commit (prs self).

(** The loop of [assign_commit_groups]. *)
Definition assign_commit_group (x : Z * Z) : M unit :=
  let '(peer_id, group_id) := x in
  assert (0 <? group_id);;
  self ← get;
  match progress_of self peer_id with
  | Some pr => modify (put_progress peer_id (pr <| Progress.commit_group_id := group_id |>))
  | None => mret tt
  end.

Definition assign_commit_groups (ids : list (Z * Z)) : M unit :=
  for_each assign_commit_group ids;;
  self ← get;
  if bool_decide (Leader = state (r self)) && group_commit self then
    b ← maybe_commit; when b bcast_append
  else mret tt.

Definition clear_commit_group : M unit :=
  on_prs (fun p => p <| ProgressTracker.progress :=
    (fun pr => pr <| Progress.commit_group_id := 0 |>) <$> ProgressTracker.progress p |>).

Definition check_group_commit_consistent : M (option bool) :=
  self ← get;
  if negb (bool_decide (state (r self) = Leader)) then mret None
  else
    b ← lift (apply_to_current_term self);
    if negb b then mret None
    else
      m ← lift (ProgressTracker.maximal_committed_index (prs self));
      let '(index, use_group_commit) := m in
      mret (Some (use_group_commit && (index =? RaftLog.committed (raft_log (r self))))).

(** ** The size of uncommitted data *)
Definition maybe_increase_uncommitted_size (ents : list Entry.t) : M bool :=
  zoom (fun s => uncommitted_state (r s)) (fun u s => s <| r := (r s) <| uncommitted_state := u |> |>)
    (UncommittedState.maybe_increase_uncommitted_size ents).

Definition reduce_uncommitted_size (ents : list Entry.t) : M unit :=
  self ← get;
  if negb (bool_decide (state (r self) = Leader)) then mret tt
  else
    _b ← zoom (fun s => uncommitted_state (r s)) (fun u s => s <| r := (r s) <| uncommitted_state := u |> |>)
           (UncommittedState.maybe_reduce_uncommitted_size ents);
    mret tt.

Definition uncommitted_size (self : t T) : Z := UncommittedState.uncommitted_size (uncommitted_state (r self)).

Definition maybe_free_inflight_buffers : M unit :=
  on_prs (fun p => p <| ProgressTracker.progress :=
    (fun pr => pr <| Progress.ins := Inflights.maybe_free_buffer (Progress.ins pr) |>) <$> ProgressTracker.progress p |>).

Definition adjust_max_inflight_msgs (target cap : Z) : M unit :=
  self ← get;
  match progress_of self target with
  | Some pr =>
      zoom (fun _ => Progress.ins pr) (fun i => put_progress target (pr <| Progress.ins := i |>)) (Inflights.set_cap cap)
  | None => mret tt
  end.

(** The new entries of [append_entry]: the term of the leader and the next positions. *)
Definition stamp (term li : Z) (es : list Entry.t) : list Entry.t :=
  imap (fun i e => e <| Entry.term := term |> <| Entry.index := li +w 1 +w Z.of_nat i |>) es.

Definition append_entry (es : list Entry.t) : M bool :=
  b ← maybe_increase_uncommitted_size es;
  if negb b then mret false
  else
    li ← ask_log RaftLog.last_index;
    self ← get;
    _li ← on_log (RaftLog.append (stamp (term (r self)) li es));
    mret true.

(** ** Changing roles *)
Definition reset_randomized_election_timeout : M unit :=
  self ← get;
  let lo := min_election_timeout (r self) in
  let hi := max_election_timeout (r self) in
  if hi <=? lo then panic
  else
    modify (fun s => s <| draws := S (draws s) |>);;
    assign randomized_election_timeout (gen_range lo hi (draws self)).

(** The loop of [reset] over the peers. *)
Definition reset_progress (self_id last_index committed persisted : Z) (i : Z) (pr : Progress.t) : Progress.t :=
  let pr := Progress.reset (last_index +w 1) pr in
  if i =? self_id then pr <| Progress.matched := persisted |> <| Progress.committed_index := committed |> else pr.

Definition reset (term' : Z) : M unit :=
  self ← get;
  when (negb (term (r self) =? term'))
    (assign term term';; assign vote INVALID_ID);;
  assign leader_id INVALID_ID;;
  reset_randomized_election_timeout;;
  assign election_elapsed 0;;
  assign heartbeat_elapsed 0;;
  abort_leader_transfer;;
  on_prs ProgressTracker.reset_votes;;
  assign pending_conf_index 0;;
  assign read_only (ReadOnly.new (ReadOnly.option_ (read_only (r self))));;
  assign pending_request_snapshot INVALID_INDEX;;
  last_index ← ask_log RaftLog.last_index;
  let log := raft_log (r self) in
  on_prs (fun p => p <| ProgressTracker.progress :=
    map_imap (fun i pr => Some (reset_progress (id (r self)) last_index (RaftLog.committed log) (RaftLog.persisted log) i pr))
      (ProgressTracker.progress p) |>).

Definition become_follower (term' leader_id' : Z) : M unit :=
  self ← get;
  reset term';;
  assign leader_id leader_id';;
  assign state Follower;;
  assign pending_request_snapshot (pending_request_snapshot (r self)).

Definition become_candidate : M unit :=
  self ← get;
  assert (negb (bool_decide (state (r self) = Leader)));;
  reset (term (r self) +w 1);;
  assign vote (id (r self));;
  assign state Candidate.

Definition become_pre_candidate : M unit :=
  self ← get;
  assert (negb (bool_decide (state (r self) = Leader)));;
  assign state PreCandidate;;
  on_prs ProgressTracker.reset_votes;;
  assign leader_id INVALID_ID.

Definition become_leader : M unit :=
  self ← get;
  assert (negb (bool_decide (state (r self) = Follower)));;
  reset (term (r self));;
  assign leader_id (id (r self));;
  assign state Leader;;
  last_index ← ask_log RaftLog.last_index;
  assert (last_index =? RaftLog.persisted (raft_log (r self)));;
  modify (fun s => s <| r := (r s) <| uncommitted_state := (uncommitted_state (r s))
    <| UncommittedState.uncommitted_size := 0 |> <| UncommittedState.last_log_tail_index := last_index |> |> |>);;
  on_progress (id (r self)) (modify Progress.become_replicate);;
  assign pending_conf_index last_index;;
  b ← append_entry [Entry.default];
  assert b.

(** ** Campaigning *)
Definition num_pending_conf (ents : list Entry.t) : Z :=
  len (filter (fun e => Entry.entry_type e = EntryConfChange \/ Entry.entry_type e = EntryConfChangeV2) ents).

(** [poll], which calls [campaign]. *)
Definition poll_with (campaign : bytes -> M unit) (from : Z) (_t : MessageType) (vote' : bool) : M VoteResult :=
  on_prs (ProgressTracker.record_vote from vote');;
  self ← get;
  let '(_, res) := ProgressTracker.tally_votes (prs self) in
  match res with
  | Won =>
      if bool_decide (state (r self) = PreCandidate) then campaign CAMPAIGN_ELECTION
      else become_leader;; bcast_append
  | Lost => become_follower (term (r self)) INVALID_ID
  | Pending => mret tt
  end;;
  mret res.

(** One iteration of the loop of [campaign] over the voters. *)
Definition request_vote (campaign_type : bytes) (vote_msg : MessageType) (term' commit commit_term : Z) (to : Z) : M unit :=
  self ← get;
  if to =? id (r self) then mret tt
  else
    last_index ← ask_log RaftLog.last_index;
    last_term ← ask_log RaftLog.last_term;
    let m := new_message to vote_msg None in
    let m := m <| Message.term := term' |> <| Message.index := last_index |> <| Message.log_term := last_term |>
               <| Message.commit := commit |> <| Message.commit_term := commit_term |> in
    let m := if bool_decide (campaign_type = CAMPAIGN_TRANSFER) then m <| Message.context := campaign_type |> else m in
    send m.

Fixpoint campaign (fuel : nat) (campaign_type : bytes) : M unit :=
  match fuel with
  | O => fun _ => OutOfFuel
  | S fuel =>
      v ← (if bool_decide (campaign_type = CAMPAIGN_PRE_ELECTION) then
             become_pre_candidate;;
             self ← get;
             mret (MsgRequestPreVote, term (r self) +w 1)
           else
             become_candidate;;
             self ← get;
             mret (MsgRequestVote, term (r self)));
      let '(vote_msg, term') := v in
      self ← get;
      res ← poll_with (campaign fuel) (id (r self)) vote_msg true;
      if bool_decide (Won = res) then mret tt
      else
        c ← ask_log RaftLog.commit_info;
        let '(commit, commit_term) := c in
        self ← get;
        for_each (request_vote campaign_type vote_msg term' commit commit_term)
          (Union.iter (Joint.ids (Configuration.voters (ProgressTracker.conf (prs self)))))
  end.

(** A pre-election that is won starts an election, which starts no other one. *)
Definition campaign_fuel : nat := 2.

Definition poll (from : Z) (ty : MessageType) (vote' : bool) : M VoteResult :=
  poll_with (campaign campaign_fuel) from ty vote'.

Definition hup (transfer_leader : bool) : M unit :=
  self ← get;
  if bool_decide (state (r self) = Leader) then mret tt
  else
    let log := raft_log (r self) in
    let first_index := match Unstable.maybe_first_index (RaftLog.unstable log) with
                       | Some idx => idx
                       | None => RaftLog.applied log +w 1
                       end in
    x ← on_log (RaftLog.slice first_index (RaftLog.committed log +w 1) None TransferLeader);
    ents ← lift (result_unwrap x);
    if negb (num_pending_conf ents =? 0) then mret tt
    else if transfer_leader then campaign campaign_fuel CAMPAIGN_TRANSFER
    else if pre_vote (r self) then campaign campaign_fuel CAMPAIGN_PRE_ELECTION
    else campaign campaign_fuel CAMPAIGN_ELECTION.

Definition maybe_commit_by_vote (m : Message.t) : M unit :=
  if (Message.commit m =? 0) || (Message.commit_term m =? 0) then mret tt
  else
    self ← get;
    let last_commit := RaftLog.committed (raft_log (r self)) in
    if (Message.commit m <=? last_commit) || bool_decide (state (r self) = Leader) then mret tt
    else
      b ← on_log (RaftLog.maybe_commit (Message.commit m) (Message.commit_term m));
      if negb b then mret tt
      else if negb (bool_decide (state (r self) = Candidate)) && negb (bool_decide (state (r self) = PreCandidate))
      then mret tt
      else
        log ← self_ raft_log;
        x ← on_log (RaftLog.slice (last_commit +w 1) (RaftLog.committed log +w 1) None CommitByVote);
        ents ← lift (result_unwrap x);
        if negb (num_pending_conf ents =? 0) then
          self ← get;
          become_follower (term (r self)) INVALID_ID
        else mret tt.

(** ** Reads *)
Definition handle_ready_read_index (req : Message.t) (index : Z) : M (option Message.t) :=
  self ← get;
  if (Message.from req =? INVALID_ID) || (Message.from req =? id (r self)) then
    e ← unwrap (head (Message.entries req));
    modify (fun s => s <| r := (r s) <| read_states := read_states (r s) ++ [ReadState.mk index (Entry.data e)] |> |>);;
    mret None
  else
    mret (Some (Message.default <| Message.msg_type := MsgReadIndexResp |> <| Message.to := Message.from req |>
      <| Message.index := index |> <| Message.entries := Message.entries req |>)).

(** [if let Some(m) = self.handle_ready_read_index(..) { self.r.send(m, ..) }] *)
Definition answer_read (req : Message.t) (index : Z) : M unit :=
  m ← handle_ready_read_index req index;
  match m with Some m => send m | None => mret tt end.

(** A quorum acknowledged the request [ctx]: answer everything up to it. *)
Definition answer_reads_if_quorum (from : Z) (ctx : bytes) : M unit :=
  acks ← on_read_only (ReadOnly.recv_ack from ctx);
  self ← get;
  match acks with
  | Some acks =>
      if ProgressTracker.has_quorum (prs self) acks then
        rss ← on_read_only (ReadOnly.advance ctx);
        for_each (fun rs => answer_read (ReadIndexStatus.req rs) (ReadIndexStatus.index rs)) rss
      else mret tt
  | None => mret tt
  end.

(** ** Configuration changes *)

(** [is_voter] of [post_conf_change] *)
Definition is_voter (self : t T) (i : Z) : bool :=
  Joint.contains (Configuration.voters (ProgressTracker.conf (prs self))) i.

Definition post_conf_change : M ConfState.t :=
  self ← get;
  let cs := Configuration.to_conf_state (ProgressTracker.conf (prs self)) in
  let voter := is_voter self (id (r self)) in
  assign promotable voter;;
  if negb voter && bool_decide (state (r self) = Leader) then mret cs
  else if negb (bool_decide (state (r self) = Leader)) || bool_decide (ConfState.voters cs = []) then mret cs
  else
    b ← maybe_commit;
    (if b : bool then bcast_append
     else
       self ← get;
       for_each (fun to => _r ← with_progress to (Sending.maybe_send_append to false); mret tt) (others self));;
    self ← get;
    match ReadOnly.last_pending_request_ctx (read_only (r self)) with
    | Some ctx => answer_reads_if_quorum (id (r self)) ctx
    | None => mret tt
    end;;
    self ← get;
    when (match lead_transferee (r self) with Some e => negb (is_voter self e) | None => false end)
      abort_leader_transfer;;
    mret cs.

Definition apply_conf_change (cc : ConfChangeV2.t) : M (Result ConfState.t) :=
  self ← get;
  let st :=
    if cc_leave_joint cc then Changer.leave_joint (prs self)
    else match cc_enter_joint cc with
         | Some auto_leave => Changer.enter_joint (prs self) auto_leave (ConfChangeV2.changes cc)
         | None => Changer.simple (prs self) (ConfChangeV2.changes cc)
         end in
  match st with
  | Err e => mret (Err e)
  | Ok (cfg, changes) =>
      last_index ← ask_log RaftLog.last_index;
      on_prs (ProgressTracker.apply_conf cfg changes last_index);;
      cs ← post_conf_change;
      mret (Ok cs)
  end.

Definition commit_apply (applied : Z) : M unit :=
  self ← get;
  let old_applied := RaftLog.applied (raft_log (r self)) in
  on_log (RaftLog.applied_to applied);;
  if Configuration.auto_leave (ProgressTracker.conf (prs self))
     && (old_applied <=? pending_conf_index (r self))
     && (pending_conf_index (r self) <=? applied)
     && bool_decide (state (r self) = Leader) then
    b ← append_entry [Entry.default <| Entry.entry_type := EntryConfChangeV2 |>];
    assert b;;
    last_index ← ask_log RaftLog.last_index;
    assign pending_conf_index last_index
  else mret tt.

(** [restore]: a snapshot received from the leader. *)
Definition restore (snap : Snapshot.t) : M bool :=
  self ← get;
  let meta := Snapshot.metadata snap in
  let cs := SnapshotMetadata.conf_state meta in
  if SnapshotMetadata.index meta <? RaftLog.committed (raft_log (r self)) then mret false
  else if negb (bool_decide (state (r self) = Follower)) then
    become_follower (term (r self) +w 1) INVALID_INDEX;;
    mret false
  else if forallb (fun i => negb (i =? id (r self)))
            (ConfState.voters cs ++ ConfState.learners cs ++ ConfState.voters_outgoing cs) then mret false
  else
    matched ← (if pending_request_snapshot (r self) =? INVALID_INDEX
               then ask_log (fun l => RaftLog.match_term l (SnapshotMetadata.index meta) (SnapshotMetadata.term meta))
               else mret false);
    if matched : bool then
      on_log (RaftLog.commit_to (SnapshotMetadata.index meta));;
      mret false
    else
      on_log (RaftLog.restore snap);;
      self ← get;
      pending ← unwrap (RaftLog.pending_snapshot (raft_log (r self)));
      let cs := SnapshotMetadata.conf_state (Snapshot.metadata pending) in
      on_prs ProgressTracker.clear;;
      last_index ← ask_log RaftLog.last_index;
      res ← zoom prs (fun p s => s <| prs := p |>) (ConfChange.restore last_index cs);
      match res with
      | Err _ => panic
      | Ok _ =>
          new_cs ← post_conf_change;
          self ← get;
          pending ← unwrap (RaftLog.pending_snapshot (raft_log (r self)));
          assert (conf_state_eq (SnapshotMetadata.conf_state (Snapshot.metadata pending)) new_cs);;
          pr ← unwrap (progress_of self (id (r self)));
          _u ← on_progress (id (r self)) (Progress.maybe_update (Progress.next_idx pr -w 1));
          assign pending_request_snapshot INVALID_INDEX;;
          mret true
      end.

Definition load_state (hs : HardState.t) : M unit :=
  self ← get;
  last_index ← ask_log RaftLog.last_index;
  if (HardState.commit hs <? RaftLog.committed (raft_log (r self))) || (last_index <? HardState.commit hs) then panic
  else
    on_log (modify (fun l => l <| RaftLog.committed := HardState.commit hs |>));;
    assign term (HardState.term hs);;
    assign vote (HardState.vote hs).

(** ** Messages of the leader *)
Definition append_response (to : Z) : Message.t :=
  Message.default <| Message.to := to |> <| Message.msg_type := MsgAppendResponse |>.

(** Each position is looked at once, and up to two below the log. *)
Definition conflict_fuel (index : Z) : nat := Z.to_nat index + 2.

Definition handle_append_entries (m : Message.t) : M unit :=
  self ← get;
  let committed := RaftLog.committed (raft_log (r self)) in
  if negb (pending_request_snapshot (r self) =? INVALID_INDEX) then send_request_snapshot
  else if Message.index m <? committed then
    send ((append_response (Message.from m)) <| Message.index := committed |> <| Message.commit := committed |>)
  else
    let to_send := append_response (Message.from m) in
    res ← on_log (RaftLog.maybe_append (Message.index m) (Message.log_term m) (Message.commit m) (Message.entries m));
    to_send ←
      match res with
      | Some (_, last_idx) => mret (to_send <| Message.index := last_idx |>)
      | None =>
          last ← ask_log RaftLog.last_index;
          let hint_index := Z.min (Message.index m) last in
          hint ← ask_log (fun l => RaftLog.find_conflict_by_term (conflict_fuel hint_index) l hint_index (Message.log_term m));
          let '(hint_index, hint_term) := hint in
          hint_term ← unwrap hint_term;
          mret (to_send <| Message.index := Message.index m |> <| Message.reject := true |>
            <| Message.reject_hint := hint_index |> <| Message.log_term := hint_term |>)
      end;
    log ← self_ raft_log;
    send (to_send <| Message.commit := RaftLog.committed log |>).

Definition handle_heartbeat (m : Message.t) : M unit :=
  on_log (RaftLog.commit_to (Message.commit m));;
  self ← get;
  if negb (pending_request_snapshot (r self) =? INVALID_INDEX) then send_request_snapshot
  else
    send (Message.default <| Message.msg_type := MsgHeartbeatResponse |> <| Message.to := Message.from m |>
      <| Message.context := Message.context m |> <| Message.commit := RaftLog.committed (raft_log (r self)) |>).

Definition handle_snapshot (m : Message.t) : M unit :=
  restored ← restore (Message.snapshot m);
  if restored : bool then
    last ← ask_log RaftLog.last_index;
    send ((append_response (Message.from m)) <| Message.index := last |>)
  else
    log ← self_ raft_log;
    send ((append_response (Message.from m)) <| Message.index := RaftLog.committed log |>).

Definition request_snapshot : M (Result unit) :=
  self ← get;
  if bool_decide (state (r self) = Leader) then mret (Err RequestSnapshotDropped)
  else if leader_id (r self) =? INVALID_ID then mret (Err RequestSnapshotDropped)
  else if bool_decide (is_Some (snap self)) then mret (Err RequestSnapshotDropped)
  else if negb (pending_request_snapshot (r self) =? INVALID_INDEX) then mret (Err RequestSnapshotDropped)
  else
    request_index ← ask_log RaftLog.last_index;
    x ← ask_log (fun l => RaftLog.term l request_index);
    request_index_term ← lift (result_unwrap x);
    if term (r self) =? request_index_term then
      assign pending_request_snapshot request_index;;
      send_request_snapshot;;
      mret (Ok tt)
    else mret (Err RequestSnapshotDropped).

(** ** Messages to the leader *)
Definition handle_append_response (m : Message.t) : M unit :=
  next_probe_index ←
    (if Message.reject m && (0 <? Message.log_term m) then
       x ← ask_log (fun l => RaftLog.find_conflict_by_term (conflict_fuel (Message.reject_hint m)) l
             (Message.reject_hint m) (Message.log_term m));
       mret x.1
     else mret (Message.reject_hint m));
  let from := Message.from m in
  self ← get;
  match progress_of self from with
  | None => mret tt
  | Some _ =>
      on_progress from (modify (fun pr => pr <| Progress.recent_active := true |>));;
      on_progress from (modify (Progress.update_committed (Message.commit m)));;
      if Message.reject m then
        b ← on_progress from (Progress.maybe_decr_to (Message.index m) next_probe_index (Message.request_snapshot m));
        if b : bool then
          on_progress from (pr ← get;
            when (bool_decide (Progress.state pr = Replicate)) (modify Progress.become_probe));;
          send_append from
        else mret tt
      else
        old_paused ← on_progress from (gets Progress.is_paused);
        updated ← on_progress from (Progress.maybe_update (Message.index m));
        if negb updated then mret tt
        else
          on_progress from (pr ← get;
            match Progress.state pr with
            | Probe => modify Progress.become_replicate
            | Progress.Snapshot =>
                when (Progress.is_snapshot_caught_up pr) (modify Progress.become_probe)
            | Replicate =>
                zoom Progress.ins (fun i s => s <| Progress.ins := i |>) (Inflights.free_to (Message.index m))
            end);;
          b ← maybe_commit;
          (if b : bool then
             self ← get;
             when (should_bcast_commit self) bcast_append
           else when old_paused (send_append from));;
          send_append_aggressively from;;
          self ← get;
          when (bool_decide (Some from = lead_transferee (r self)))
            (last_index ← ask_log RaftLog.last_index;
             pr ← unwrap (progress_of self from);
             when (Progress.matched pr =? last_index) (send_timeout_now from))
  end.

Definition handle_heartbeat_response (m : Message.t) : M unit :=
  let from := Message.from m in
  self ← get;
  match progress_of self from with
  | None => mret tt
  | Some _ =>
      on_progress from (
        modify (Progress.update_committed (Message.commit m));;
        modify (fun pr => pr <| Progress.recent_active := true |>);;
        modify Progress.resume;;
        pr ← get;
        when (bool_decide (Progress.state pr = Replicate) && Inflights.full (Progress.ins pr))
          (zoom Progress.ins (fun i s => s <| Progress.ins := i |>) Inflights.free_first_one));;
      last_index ← ask_log RaftLog.last_index;
      self ← get;
      pr ← unwrap (progress_of self from);
      when ((Progress.matched pr <? last_index) || negb (Progress.pending_request_snapshot pr =? INVALID_INDEX))
        (send_append from);;
      self ← get;
      if negb (bool_decide (ReadOnly.option_ (read_only (r self)) = Safe)) || bool_decide (Message.context m = []) then mret tt
      else answer_reads_if_quorum from (Message.context m)
  end.

Definition handle_transfer_leader (m : Message.t) : M unit :=
  self ← get;
  let from := Message.from m in
  if negb (bool_decide (is_Some (progress_of self from))) then mret tt
  else if bool_decide (from ∈ Configuration.learners (ProgressTracker.conf (prs self))) then mret tt
  else
    go ← match lead_transferee (r self) with
         | Some last_lead_transferee =>
             if last_lead_transferee =? from then mret false
             else abort_leader_transfer;; mret true
         | None => mret true
         end;
    if negb go then mret tt
    else if from =? id (r self) then mret tt
    else
      assign election_elapsed 0;;
      assign lead_transferee (Some from);;
      self ← get;
      pr ← unwrap (progress_of self from);
      last_index ← ask_log RaftLog.last_index;
      if Progress.matched pr =? last_index then send_timeout_now from
      else send_append from.

Definition handle_snapshot_status (m : Message.t) : M unit :=
  self ← get;
  match progress_of self (Message.from m) with
  | None => mret tt
  | Some pr =>
      if negb (bool_decide (Progress.state pr = Progress.Snapshot)) then mret tt
      else
        on_progress (Message.from m) (
          when (Message.reject m) (modify Progress.snapshot_failure);;
          modify Progress.become_probe;;
          modify Progress.pause;;
          modify (fun pr => pr <| Progress.pending_request_snapshot := INVALID_INDEX |>))
  end.

Definition handle_unreachable (m : Message.t) : M unit :=
  self ← get;
  match progress_of self (Message.from m) with
  | None => mret tt
  | Some pr =>
      on_progress (Message.from m)
        (when (bool_decide (Progress.state pr = Replicate)) (modify Progress.become_probe))
  end.

Definition check_quorum_active : M bool :=
  self ← get;
  let '(b, p) := ProgressTracker.quorum_recently_active (id (r self)) (prs self) in
  modify (fun s => s <| prs := p |>);;
  mret b.

(** ** Proposals *)

(** The configuration change of an entry; [None] for other entries. *)
Definition entry_conf_change (e : Entry.t) : Result (option ConfChangeV2.t) :=
  match Entry.entry_type e with
  | EntryConfChange =>
      match parse_conf_change_v1 (Entry.data e) with
      | Some cc_v1 => Ok (Some (into_v2 cc_v1))
      | None => Err ProposalDropped
      end
  | EntryConfChangeV2 =>
      match parse_conf_change_v2 (Entry.data e) with
      | Some cc => Ok (Some cc)
      | None => Err ProposalDropped
      end
  | EntryNormal => Ok None
  end.

(** [reason] is not empty *)
Definition refuse_conf_change (self : t T) (cc : ConfChangeV2.t) : bool :=
  if has_pending_conf self then true
  else
    let already_joint := joint (ProgressTracker.conf (prs self)) in
    let want_leave := bool_decide (ConfChangeV2.changes cc = []) in
    (already_joint && negb want_leave) || (negb already_joint && want_leave).

(** The loop over the proposed entries; [i] is the position in the message. *)
Fixpoint propose_loop (i : Z) (es : list Entry.t) : M (Result (list Entry.t)) :=
  match es with
  | [] => mret (Ok [])
  | e :: es =>
      cc ←? mret (entry_conf_change e);
      e ← match cc with
          | None => mret e
          | Some cc =>
              self ← get;
              if negb (refuse_conf_change self cc) then
                last_index ← ask_log RaftLog.last_index;
                assign pending_conf_index (last_index +w i +w 1);;
                mret e
              else mret (Entry.default <| Entry.entry_type := EntryNormal |>)
          end;
      es ←? propose_loop (i + 1) es;
      mret (Ok (e :: es))
  end.

Definition propose (m : Message.t) : M (Result unit) :=
  self ← get;
  if bool_decide (Message.entries m = []) then panic
  else if negb (bool_decide (is_Some (progress_of self (id (r self))))) then mret (Err ProposalDropped)
  else if bool_decide (is_Some (lead_transferee (r self))) then mret (Err ProposalDropped)
  else
    es ←? propose_loop 0 (Message.entries m);
    b ← append_entry es;
    if negb b then mret (Err ProposalDropped)
    else bcast_append;; mret (Ok tt).

Definition handle_read_index (m : Message.t) : M unit :=
  self ← get;
  b ← lift (commit_to_current_term self);
  let committed := RaftLog.committed (raft_log (r self)) in
  if negb b then mret tt
  else if ProgressTracker.is_singleton (prs self) then answer_read m committed
  else
    match ReadOnly.option_ (read_only (r self)) with
    | Safe =>
        e ← unwrap (head (Message.entries m));
        on_read_only (ReadOnly.add_request committed m (id (r self)));;
        bcast_heartbeat_with_ctx (Some (Entry.data e))
    | LeaseBased => answer_read m committed
    end.

(** ** [step] *)
Definition step_leader (m : Message.t) : M (Result unit) :=
  match Message.msg_type m with
  | MsgBeat => bcast_heartbeat;; mret (Ok tt)
  | MsgCheckQuorum =>
      active ← check_quorum_active;
      (if negb active then
         self ← get;
         become_follower (term (r self)) INVALID_ID
       else mret tt);;
      mret (Ok tt)
  | MsgPropose => propose m
  | MsgReadIndex => handle_read_index m;; mret (Ok tt)
  | MsgAppendResponse => handle_append_response m;; mret (Ok tt)
  | MsgHeartbeatResponse => handle_heartbeat_response m;; mret (Ok tt)
  | MsgSnapStatus => handle_snapshot_status m;; mret (Ok tt)
  | MsgUnreachable => handle_unreachable m;; mret (Ok tt)
  | MsgTransferLeader => handle_transfer_leader m;; mret (Ok tt)
  | _ => mret (Ok tt)
  end.

(** A message of the leader of the term: [debug_assert_eq!(self.term, m.term)], then
    follow it. *)
Definition follow_leader (m : Message.t) : M unit :=
  self ← get;
  assert (term (r self) =? Message.term m);;
  become_follower (Message.term m) (Message.from m).

Definition step_candidate (m : Message.t) : M (Result unit) :=
  match Message.msg_type m with
  | MsgPropose => mret (Err ProposalDropped)
  | MsgAppend => follow_leader m;; handle_append_entries m;; mret (Ok tt)
  | MsgHeartbeat => follow_leader m;; handle_heartbeat m;; mret (Ok tt)
  | MsgSnapshot => follow_leader m;; handle_snapshot m;; mret (Ok tt)
  | MsgRequestPreVoteResponse | MsgRequestVoteResponse =>
      self ← get;
      if (bool_decide (state (r self) = PreCandidate)
          && negb (bool_decide (Message.msg_type m = MsgRequestPreVoteResponse)))
         || (bool_decide (state (r self) = Candidate)
             && negb (bool_decide (Message.msg_type m = MsgRequestVoteResponse)))
      then mret (Ok tt)
      else
        _res ← poll (Message.from m) (Message.msg_type m) (negb (Message.reject m));
        maybe_commit_by_vote m;;
        mret (Ok tt)
  | _ => mret (Ok tt)
  end.

(** What a follower does first on a message of its leader. *)
Definition note_leader (m : Message.t) : M unit :=
  assign election_elapsed 0;; assign leader_id (Message.from m).

(** [m.to = self.leader_id; self.r.send(m, ..)] *)
Definition forward_to_leader (m : Message.t) : M unit :=
  self ← get;
  send (m <| Message.to := leader_id (r self) |>).

Definition step_follower (m : Message.t) : M (Result unit) :=
  self ← get;
  let no_leader := leader_id (r self) =? INVALID_ID in
  match Message.msg_type m with
  | MsgPropose =>
      if no_leader then mret (Err ProposalDropped)
      else forward_to_leader m;; mret (Ok tt)
  | MsgAppend => note_leader m;; handle_append_entries m;; mret (Ok tt)
  | MsgHeartbeat => note_leader m;; handle_heartbeat m;; mret (Ok tt)
  | MsgSnapshot => note_leader m;; handle_snapshot m;; mret (Ok tt)
  | MsgTransferLeader | MsgReadIndex =>
      if no_leader then mret (Ok tt)
      else forward_to_leader m;; mret (Ok tt)
  | MsgTimeoutNow =>
      when (promotable (r self)) (hup true);;
      mret (Ok tt)
  | MsgReadIndexResp =>
      match Message.entries m with
      | [e] =>
          modify (fun s => s <| r := (r s) <| read_states := read_states (r s) ++ [ReadState.mk (Message.index m) (Entry.data e)] |> |>);;
          _b ← on_log (RaftLog.maybe_commit (Message.index m) (Message.term m));
          mret (Ok tt)
      | _ => mret (Ok tt)
      end
  | _ => mret (Ok tt)
  end.

(** Whether the request is ignored because the node heard of a leader lately. *)
Definition lease_protects (self : t T) (m : Message.t) : bool :=
  is_vote_request (Message.msg_type m)
  && negb (bool_decide (Message.context m = CAMPAIGN_TRANSFER))
  && (check_quorum (r self) && negb (leader_id (r self) =? INVALID_ID)
      && (election_elapsed (r self) <? election_timeout (r self))).

(** The term of a message, which may make this node step down; answers whether the
    message is processed further. *)
Definition step_term (m : Message.t) : M bool :=
  self ← get;
  let ty := Message.msg_type m in
  if Message.term m =? 0 then mret true
  else if term (r self) <? Message.term m then
    if lease_protects self m then mret false
    else if bool_decide (ty = MsgRequestPreVote)
            || (bool_decide (ty = MsgRequestPreVoteResponse) && negb (Message.reject m)) then mret true
    else
      (if bool_decide (ty = MsgAppend) || bool_decide (ty = MsgHeartbeat) || bool_decide (ty = MsgSnapshot)
       then become_follower (Message.term m) (Message.from m)
       else become_follower (Message.term m) INVALID_ID);;
      mret true
  else if Message.term m <? term (r self) then
    (if (check_quorum (r self) || pre_vote (r self))
        && (bool_decide (ty = MsgHeartbeat) || bool_decide (ty = MsgAppend)) then
       send (new_message (Message.from m) MsgAppendResponse None)
     else if bool_decide (ty = MsgRequestPreVote) then
       send ((new_message (Message.from m) MsgRequestPreVoteResponse None)
         <| Message.term := term (r self) |> <| Message.reject := true |>)
     else mret tt);;
    mret false
  else mret true.

Definition can_vote (self : t T) (m : Message.t) : bool :=
  (vote (r self) =? Message.from m)
  || ((vote (r self) =? INVALID_ID) && (leader_id (r self) =? INVALID_ID))
  || (bool_decide (Message.msg_type m = MsgRequestPreVote) && (term (r self) <? Message.term m)).

(** Whether the vote is granted, short-circuiting like the code. *)
Definition grants_vote (m : Message.t) : M bool :=
  self ← get;
  if negb (can_vote self m) then mret false
  else
    up_to_date ← ask_log (fun l => RaftLog.is_up_to_date l (Message.index m) (Message.log_term m));
    if negb up_to_date then mret false
    else
      last_index ← ask_log RaftLog.last_index;
      mret ((last_index <? Message.index m) || (priority (r self) <=? get_priority m)).

Definition handle_vote_request (m : Message.t) : M unit :=
  granted ← grants_vote m;
  ty ← lift (vote_resp_msg_type (Message.msg_type m));
  let to_send := new_message (Message.from m) ty None in
  if granted : bool then
    send (to_send <| Message.reject := false |> <| Message.term := Message.term m |>);;
    when (bool_decide (Message.msg_type m = MsgRequestVote))
      (assign election_elapsed 0;; assign vote (Message.from m))
  else
    self ← get;
    c ← ask_log RaftLog.commit_info;
    let '(commit, commit_term) := c in
    send (to_send <| Message.reject := true |> <| Message.term := term (r self) |>
      <| Message.commit := commit |> <| Message.commit_term := commit_term |>);;
    maybe_commit_by_vote m.

Definition step (m : Message.t) : M (Result unit) :=
  go ← step_term m;
  if negb go then mret (Ok tt)
  else
    match Message.msg_type m with
    | MsgHup => hup false;; mret (Ok tt)
    | MsgRequestVote | MsgRequestPreVote => handle_vote_request m;; mret (Ok tt)
    | _ =>
        self ← get;
        match state (r self) with
        | PreCandidate | Candidate => step_candidate m
        | Follower => step_follower m
        | Leader => step_leader m
        end
    end.

(** ** Time *)
Definition pass_election_timeout (self : t T) : bool :=
  randomized_election_timeout (r self) <=? election_elapsed (r self).

(** [let _ = self.step(new_message(INVALID_ID, ty, Some(self.id)))] *)
Definition step_local (ty : MessageType) : M unit :=
  self ← get;
  _e ← step (new_message INVALID_ID ty (Some (id (r self))));
  mret tt.

Definition tick_election : M bool :=
  modify (fun s => s <| r := (r s) <| election_elapsed := election_elapsed (r s) +w 1 |> |>);;
  self ← get;
  if negb (pass_election_timeout self) || negb (promotable (r self)) then mret false
  else
    assign election_elapsed 0;;
    step_local MsgHup;;
    mret true.

Definition tick_heartbeat : M bool :=
  modify (fun s => s <| r := (r s) <| heartbeat_elapsed := heartbeat_elapsed (r s) +w 1 |> |>);;
  modify (fun s => s <| r := (r s) <| election_elapsed := election_elapsed (r s) +w 1 |> |>);;
  self ← get;
  has_ready ←
    (if election_timeout (r self) <=? election_elapsed (r self) then
       assign election_elapsed 0;;
       when (check_quorum (r self)) (step_local MsgCheckQuorum);;
       after ← get;
       when (bool_decide (state (r after) = Leader) && bool_decide (is_Some (lead_transferee (r after))))
         abort_leader_transfer;;
       mret (check_quorum (r self))
     else mret false);
  self ← get;
  if negb (bool_decide (state (r self) = Leader)) then mret has_ready
  else if heartbeat_timeout (r self) <=? heartbeat_elapsed (r self) then
    assign heartbeat_elapsed 0;;
    step_local MsgBeat;;
    mret true
  else mret has_ready.

Definition tick : M bool :=
  self ← get;
  match state (r self) with
  | Follower | PreCandidate | Candidate => tick_election
  | Leader => tick_heartbeat
  end.

(** ** What the application reports *)
Definition on_persist_entries (index term' : Z) : M unit :=
  update ← on_log (RaftLog.maybe_persist index term');
  self ← get;
  if update && bool_decide (state (r self) = Leader) then
    updated ← on_progress (id (r self)) (Progress.maybe_update index);
    if negb updated then mret tt
    else
      b ← maybe_commit;
      if negb b then mret tt
      else
        self ← get;
        when (should_bcast_commit self) bcast_append
  else mret tt.

Definition on_persist_snap (index : Z) : M unit :=
  _b ← on_log (RaftLog.maybe_persist_snap index);
  mret tt.

(** ** [Raft::new] *)

(** The state before the configuration is restored. *)
Definition initial (draws : nat) (c : Config.t) (raft_log : RaftLog.t T) (cs : ConfState.t) : t T :=
  let tracker := ProgressTracker.with_capacity (len (ConfState.voters cs)) (len (ConfState.learners cs))
                   (Config.max_inflight_msgs c) in
  mk tracker [] (RaftCore.mk
    0 0 (Config.id c) [] raft_log (Config.max_inflight_msgs c) (Config.max_size_per_msg c)
    INVALID_INDEX Follower false 0 None 0 (ReadOnly.new (Config.read_only_option c)) 0 0
    (Config.check_quorum c) (Config.pre_vote c) (Config.skip_bcast_commit c) (Config.batch_append c)
    (Config.heartbeat_tick c) (Config.election_tick c) 0
    (Config.min_election_ticks c) (Config.max_election_ticks c) (Config.priority c)
    (UncommittedState.mk (Config.max_uncommitted_size c) 0 0) (Config.max_committed_size_per_ready c)) draws.

(** From the restored configuration on. *)
Definition start (c : Config.t) (raft_state : RaftState.t) : M (Result unit) :=
  let conf_state := RaftState.conf_state raft_state in
  last_index ← ask_log RaftLog.last_index;
  _u ←? zoom prs (fun p s => s <| prs := p |>) (ConfChange.restore last_index conf_state);
  new_cs ← post_conf_change;
  assert (conf_state_eq new_cs conf_state);;
  when (negb (bool_decide (RaftState.hard_state raft_state = HardState.default)))
    (load_state (RaftState.hard_state raft_state));;
  when (0 <? Config.applied c) (commit_apply (Config.applied c));;
  self ← get;
  become_follower (term (r self)) INVALID_ID;;
  mret (Ok tt).

(** The number of random numbers drawn before is an argument. *)
Definition new (draws : nat) (c : Config.t) (store : T) : outcome (Result (t T)) :=
  match Config.validate c with
  | Err e => mret (Err e)
  | Ok _ =>
      raft_state ← initial_state store;
      match raft_state with
      | Err e => mret (Err e)
      | Ok raft_state =>
          log ← RaftLog.new store;
          x ← start c raft_state (initial draws c log (RaftState.conf_state raft_state));
          mret (match x with (Ok _, self) => Ok self | (Err e, _) => Err e end)
      end
  end.

End ops.
End Raft.
