(* ===== verification/RawNode.v ===== *)
(** * The raw node ([raw_node.rs], [status.rs])

    The interface of the application: it hands out what is to be persisted, applied and
    sent in batches ([Ready], [LightReady]), remembers what it handed out, and takes the
    reports on it. *)

From S2P Require Import Prelude Proto Errors Util Inflights Progress Quorum Tracker ConfChange.
From S2P Require Import Log Unstable Storage RaftLog ReadOnly Config RaftCore Raft.

(** [struct Peer] *)
Module Peer.
Record t : Type := mk {
  id : Z;
  context : option (list Byte.byte)
}.
#[global] Instance eta_t : Eta t := fun r =>
  mk (id r) (context r).
#[global] Instance set_id : Setter id := ltac:(derive_setter).
#[global] Instance set_context : Setter context := ltac:(derive_setter).
#[global] Instance eq_dec : EqDecision t.
Proof. solve_decision. Defined.
Definition default : t :=
  mk 0 None.
End Peer.

(** [enum SnapshotStatus] *)
Inductive SnapshotStatus := Finish | Failure.
#[global] Instance SnapshotStatus_eq_dec : EqDecision SnapshotStatus.
Proof. solve_decision. Defined.

Definition is_local_msg (t : MessageType) : bool :=
  match t with
  | MsgHup | MsgBeat | MsgUnreachable | MsgSnapStatus | MsgCheckQuorum => true
  | _ => false
  end.

Definition is_response_msg (t : MessageType) : bool :=
  match t with
  | MsgAppendResponse | MsgRequestVoteResponse | MsgHeartbeatResponse | MsgUnreachable | MsgRequestPreVoteResponse => true
  | _ => false
  end.

(** [struct LightReady] *)
Module LightReady.
Record t : Type := mk {
  commit_index : option Z;
  committed_entries : list Entry.t;
  messages : list Message.t
}.
#[global] Instance eta_t : Eta t := fun r =>
  mk (commit_index r) (committed_entries r) (messages r).
#[global] Instance set_commit_index : Setter commit_index := ltac:(derive_setter).
#[global] Instance set_committed_entries : Setter committed_entries := ltac:(derive_setter).
#[global] Instance set_messages : Setter messages := ltac:(derive_setter).
#[global] Instance eq_dec : EqDecision t.
Proof. solve_decision. Defined.
Definition default : t :=
  mk None [] [].
End LightReady.

(** [struct Ready] *)
Module Ready.
Record t : Type := mk {
  number : Z;
  ss : option RaftCore.SoftState.t;
  hs : option HardState.t;
  read_states : list ReadState.t;
  entries : list Entry.t;
  snapshot : Snapshot.t;
  is_persisted_msg : bool;
  light : LightReady.t;
  must_sync : bool
}.
#[global] Instance eta_t : Eta t := fun r =>
  mk (number r) (ss r) (hs r) (read_states r) (entries r) (snapshot r) (is_persisted_msg r) (light r) (must_sync r).
#[global] Instance set_number : Setter number := ltac:(derive_setter).
#[global] Instance set_ss : Setter ss := ltac:(derive_setter).
#[global] Instance set_hs : Setter hs := ltac:(derive_setter).
#[global] Instance set_read_states : Setter read_states := ltac:(derive_setter).
#[global] Instance set_entries : Setter entries := ltac:(derive_setter).
#[global] Instance set_snapshot : Setter snapshot := ltac:(derive_setter).
#[global] Instance set_is_persisted_msg : Setter is_persisted_msg := ltac:(derive_setter).
#[global] Instance set_light : Setter light := ltac:(derive_setter).
#[global] Instance set_must_sync : Setter must_sync := ltac:(derive_setter).
#[global] Instance eq_dec : EqDecision t.
Proof. solve_decision. Defined.
Definition default : t :=
  mk 0 None None [] [] Snapshot.default false LightReady.default false.
End Ready.

(** [struct ReadyRecord] *)
Module ReadyRecord.
Record t : Type := mk {
  number : Z;
  last_entry : option (Z * Z);
  snapshot : option (Z * Z)
}.
#[global] Instance eta_t : Eta t := fun r =>
  mk (number r) (last_entry r) (snapshot r).
#[global] Instance set_number : Setter number := ltac:(derive_setter).
#[global] Instance set_last_entry : Setter last_entry := ltac:(derive_setter).
#[global] Instance set_snapshot : Setter snapshot := ltac:(derive_setter).
#[global] Instance eq_dec : EqDecision t.
Proof. solve_decision. Defined.
Definition default : t :=
  mk 0 None None.
End ReadyRecord.

(** The messages of a [Ready], before and after persisting. *)
Definition ready_messages (self : Ready.t) : list Message.t :=
  if negb (Ready.is_persisted_msg self) then LightReady.messages (Ready.light self) else [].
Definition ready_persisted_messages (self : Ready.t) : list Message.t :=
  if Ready.is_persisted_msg self then LightReady.messages (Ready.light self) else [].

Definition must_sync (st pre_st : HardState.t) (ents_num : Z) : bool :=
  negb (ents_num =? 0) || negb (HardState.vote st =? HardState.vote pre_st) || negb (HardState.term st =? HardState.term pre_st).

(** [struct RawNode] *)
Module RawNode.
Import RaftCore.
Record t {T : Type} : Type := mk {
  raft : Raft.t T;
  prev_ss : SoftState.t;
  prev_hs : HardState.t;
  max_number : Z;
  records : list ReadyRecord.t;
  commit_since_index : Z
}.
Arguments t : clear implicits.
#[global] Instance eta_t {T} : Eta (t T) := fun s =>
  mk T (raft s) (prev_ss s) (prev_hs s) (max_number s) (records s) (commit_since_index s).
#[global] Instance set_raft {T} : Setter (@raft T) := ltac:(derive_setter).
#[global] Instance set_prev_ss {T} : Setter (@prev_ss T) := ltac:(derive_setter).
#[global] Instance set_prev_hs {T} : Setter (@prev_hs T) := ltac:(derive_setter).
#[global] Instance set_max_number {T} : Setter (@max_number T) := ltac:(derive_setter).
#[global] Instance set_records {T} : Setter (@records T) := ltac:(derive_setter).
#[global] Instance set_commit_since_index {T} : Setter (@commit_since_index T) := ltac:(derive_setter).
Arguments mk {T}.

Section ops.
Context {T : Type} `{Storage T} `{Codec} `{HashOrder} `{ConfigurationDebug} `{Rng}.
Abbreviation M := (Prog (t T)).

(** Runs a method of the node. *)
Definition on_raft {A} (m : Prog (Raft.t T) A) : M A := zoom raft (fun x s => s <| raft := x |>) m.

Definition new (draws : nat) (config : Config.t) (store : T) : outcome (Result (t T)) :=
  if Config.id config =? 0 then Panic
  else
    x ← Raft.new draws config store;
    match x with
    | Err e => mret (Err e)
    | Ok rf => mret (Ok (mk rf (Raft.soft_state rf) (Raft.hard_state rf) 0 [] (Config.applied config)))
    end.

(** ** Driving the node *)
Definition set_priority (p : Z) : M unit := on_raft (Raft.set_priority p).
Definition tick : M bool := on_raft Raft.tick.

Definition campaign : M (Result unit) :=
  on_raft (Raft.step (Message.default <| Message.msg_type := MsgHup |>)).

Definition propose (context data : bytes) : M (Result unit) :=
  self ← get;
  let e := Entry.default <| Entry.data := data |> <| Entry.context := context |> in
  let m := Message.default <| Message.msg_type := MsgPropose |> <| Message.from := id (Raft.r (raft self)) |>
             <| Message.entries := [e] |> in
  on_raft (Raft.step m).

Definition ping : M unit := on_raft Raft.ping.

Definition propose_conf_change {C} `{ConfChangeI C} (context : bytes) (cc : C) : M (Result unit) :=
  let '(data, ty) := match as_v1 cc with
                     | Some cc => (write_conf_change cc, EntryConfChange)
                     | None => (write_conf_change_v2 (as_v2 cc), EntryConfChangeV2)
                     end in
  let e := Entry.default <| Entry.entry_type := ty |> <| Entry.data := data |> <| Entry.context := context |> in
  on_raft (Raft.step (Message.default <| Message.msg_type := MsgPropose |> <| Message.entries := [e] |>)).

Definition apply_conf_change {C} `{ConfChangeI C} (cc : C) : M (Result ConfState.t) :=
  on_raft (Raft.apply_conf_change (as_v2 cc)).

Definition step (m : Message.t) : M (Result unit) :=
  if is_local_msg (Message.msg_type m) then mret (Err StepLocalMsg)
  else
    self ← get;
    if bool_decide (is_Some (Raft.progress_of (raft self) (Message.from m))) || negb (is_response_msg (Message.msg_type m))
    then on_raft (Raft.step m)
    else mret (Err StepPeerNotFound).

Definition on_entries_fetched (context : GetEntriesContext) : M unit :=
  match context with
  | SendAppend to term' aggressively =>
      self ← get;
      if negb (term (Raft.r (raft self)) =? term') || negb (bool_decide (state (Raft.r (raft self)) = Leader)) then mret tt
      else if negb (bool_decide (is_Some (Raft.progress_of (raft self) to))) then mret tt
      else if aggressively then on_raft (Raft.send_append_aggressively to)
      else on_raft (Raft.send_append to)
  | Empty true => mret tt
  | _ => panic
  end.

(** ** Handing out work *)
Definition gen_light_ready : M LightReady.t :=
  self ← get;
  let max_size := Some (max_committed_size_per_ready (Raft.r (raft self))) in
  x ← on_raft (Raft.on_log (RaftLog.next_entries_since (commit_since_index self) max_size));
  let committed_entries := default [] x in
  on_raft (Raft.reduce_uncommitted_size committed_entries);;
  match last committed_entries with
  | Some e =>
      assert (commit_since_index self <? Entry.index e);;
      modify (fun s => s <| commit_since_index := Entry.index e |>)
  | None => mret tt
  end;;
  self ← get;
  let messages := Raft.msgs (raft self) in
  modify (fun s => s <| raft := (raft s) <| Raft.msgs := [] |> |>);;
  mret (LightReady.mk None committed_entries messages).

(** [if let Some(snapshot) = &raft.raft_log.unstable_snapshot()] of [ready] *)
Definition ready_snapshot (rd : Ready.t) (rd_record : ReadyRecord.t) : M (Ready.t * ReadyRecord.t) :=
  self ← get;
  match RaftLog.unstable_snapshot (raft_log (Raft.r (raft self))) with
  | Some snapshot =>
      let meta := Snapshot.metadata snapshot in
      assert (commit_since_index self <=? SnapshotMetadata.index meta);;
      modify (fun s => s <| commit_since_index := SnapshotMetadata.index meta |>);;
      b ← on_raft (Raft.ask_log (fun l => RaftLog.has_next_entries_since l (SnapshotMetadata.index meta)));
      assert (negb b);;
      mret (rd <| Ready.snapshot := snapshot |> <| Ready.must_sync := true |>,
            rd_record <| ReadyRecord.snapshot := Some (SnapshotMetadata.index meta, SnapshotMetadata.term meta) |>)
  | None => mret (rd, rd_record)
  end.

Definition ready : M Ready.t :=
  modify (fun s => s <| max_number := max_number s +w 1 |>);;
  self ← get;
  let rd := Ready.default <| Ready.number := max_number self |> in
  let rd_record := ReadyRecord.default <| ReadyRecord.number := max_number self |> in
  when (negb (bool_decide (SoftState.raft_state (prev_ss self) = Leader)) && bool_decide (state (Raft.r (raft self)) = Leader))
    (assert (forallb (fun rc => bool_decide (ReadyRecord.last_entry rc = None) && bool_decide (ReadyRecord.snapshot rc = None))
               (records self));;
     modify (fun s => s <| records := [] |>));;
  let ss := Raft.soft_state (raft self) in
  let rd := if negb (bool_decide (ss = prev_ss self)) then rd <| Ready.ss := Some ss |> else rd in
  let hs := Raft.hard_state (raft self) in
  let rd :=
    if negb (bool_decide (hs = prev_hs self)) then
      let rd := if negb (HardState.vote hs =? HardState.vote (prev_hs self)) || negb (HardState.term hs =? HardState.term (prev_hs self))
                then rd <| Ready.must_sync := true |> else rd in
      rd <| Ready.hs := Some hs |>
    else rd in
  let rd := rd <| Ready.read_states := read_states (Raft.r (raft self)) |> in
  modify (fun s => s <| raft := (raft s) <| Raft.r := (Raft.r (raft s)) <| read_states := [] |> |> |>);;
  x ← ready_snapshot rd rd_record;
  let '(rd, rd_record) := x in
  self ← get;
  let entries := RaftLog.unstable_entries (raft_log (Raft.r (raft self))) in
  let rd := rd <| Ready.entries := entries |> in
  let '(rd, rd_record) :=
    match last entries with
    | Some e => (rd <| Ready.must_sync := true |>,
                 rd_record <| ReadyRecord.last_entry := Some (Entry.index e, Entry.term e) |>)
    | None => (rd, rd_record)
    end in
  let rd := rd <| Ready.is_persisted_msg := negb (bool_decide (state (Raft.r (raft self)) = Leader)) |> in
  light ← gen_light_ready;
  modify (fun s => s <| records := records s ++ [rd_record] |>);;
  mret (rd <| Ready.light := light |>).

(** [Ready::new]; the value of [must_sync] is computed and dropped. *)
Definition ready_new (fuel : nat) (prev_soft_st : option SoftState.t) (prev_hard_st : HardState.t) : Prog (Raft.t T) Ready.t :=
  self ← get;
  all ← Raft.on_log (RaftLog.all_entries fuel);
  let light := LightReady.mk (Some (RaftLog.committed (raft_log (Raft.r self)))) all (Raft.msgs self) in
  let ready := Ready.mk 0 prev_soft_st (Some prev_hard_st) [] (RaftLog.unstable_entries (raft_log (Raft.r self)))
                 Snapshot.default true light true in
  let ready := match prev_soft_st with
               | Some ss => if negb (bool_decide (Raft.soft_state self = ss)) then ready <| Ready.ss := Some (Raft.soft_state self) |> else ready
               | None => ready
               end in
  let ready := if negb (bool_decide (prev_hard_st = Raft.hard_state self)) then ready <| Ready.hs := Some (Raft.hard_state self) |> else ready in
  let ready := match Unstable.snapshot (RaftLog.unstable (raft_log (Raft.r self))) with
               | Some snapshot => ready <| Ready.snapshot := snapshot |>
               | None => ready
               end in
  let ready := if negb (bool_decide (read_states (Raft.r self) = [])) then ready <| Ready.read_states := read_states (Raft.r self) |> else ready in
  mret ready.

Definition ready_without_accept (fuel : nat) : M Ready.t :=
  self ← get;
  on_raft (ready_new fuel (Some (prev_ss self)) (prev_hs self)).

Definition accept_ready (rd : Ready.t) : M unit :=
  match Ready.ss rd with
  | Some ss => modify (fun s => s <| prev_ss := ss |>)
  | None => mret tt
  end;;
  modify (fun s => s <| raft := (raft s) <| Raft.r := (Raft.r (raft s)) <| read_states := [] |> |> |>);;
  modify (fun s => s <| raft := (raft s) <| Raft.msgs := [] |> |>).

Definition snap (self : t T) : option Snapshot.t := Raft.snap (raft self).

Definition has_ready (self : t T) : outcome bool :=
  let rf := raft self in
  let log := raft_log (Raft.r rf) in
  if negb (bool_decide (Raft.msgs rf = [])) then mret true
  else if negb (bool_decide (Raft.soft_state rf = prev_ss self)) then mret true
  else if negb (bool_decide (Raft.hard_state rf = prev_hs self)) then mret true
  else if negb (bool_decide (read_states (Raft.r rf) = [])) then mret true
  else if negb (bool_decide (RaftLog.unstable_entries log = [])) then mret true
  else if match snap self with Some s => negb (Snapshot_is_empty s) | None => false end then mret true
  else RaftLog.has_next_entries_since log (commit_since_index self).

(** ** Taking the reports *)
Definition commit_ready (rd : Ready.t) : M unit :=
  match Ready.ss rd with Some ss => modify (fun s => s <| prev_ss := ss |>) | None => mret tt end;;
  match Ready.hs rd with Some hs => modify (fun s => s <| prev_hs := hs |>) | None => mret tt end;;
  self ← get;
  rd_record ← unwrap (last (records self));
  assert (ReadyRecord.number rd_record =? Ready.number rd);;
  match ReadyRecord.snapshot rd_record with
  | Some (index, _) => on_raft (Raft.on_log (RaftLog.stable_snap index))
  | None => mret tt
  end;;
  match ReadyRecord.last_entry rd_record with
  | Some (index, term') => on_raft (Raft.on_log (RaftLog.stable_entries index term'))
  | None => mret tt
  end.

Definition commit_apply (applied : Z) : M unit := on_raft (Raft.commit_apply applied).

(** The loop of [on_persist_ready] over the records: what it collects and what stays. *)
Fixpoint pop_records (number : Z) (index term' snap_index : Z) (recs : list ReadyRecord.t) :
    (Z * Z * Z) * list ReadyRecord.t :=
  match recs with
  | [] => ((index, term', snap_index), [])
  | record :: rest =>
      if number <? ReadyRecord.number record then ((index, term', snap_index), recs)
      else
        let '(index, term', snap_index) :=
          match ReadyRecord.snapshot record with Some (i, _) => (0, 0, i) | None => (index, term', snap_index) end in
        let '(index, term') :=
          match ReadyRecord.last_entry record with Some (i, t) => (i, t) | None => (index, term') end in
        pop_records number index term' snap_index rest
  end.

Definition on_persist_ready (number : Z) : M unit :=
  self ← get;
  let '((index, term', snap_index), rest) := pop_records number 0 0 0 (records self) in
  modify (fun s => s <| records := rest |>);;
  when (negb (snap_index =? 0)) (on_raft (Raft.on_persist_snap snap_index));;
  when (negb (index =? 0)) (on_raft (Raft.on_persist_entries index term')).

Definition advance_append (rd : Ready.t) : M LightReady.t :=
  commit_ready rd;;
  self ← get;
  on_persist_ready (max_number self);;
  light_rd ← gen_light_ready;
  self ← get;
  assert (bool_decide (state (Raft.r (raft self)) = Leader) || bool_decide (LightReady.messages light_rd = []));;
  let hard_state := Raft.hard_state (raft self) in
  light_rd ←
    (if HardState.commit (prev_hs self) <? HardState.commit hard_state then
       modify (fun s => s <| prev_hs := (prev_hs s) <| HardState.commit := HardState.commit hard_state |> |>);;
       mret (light_rd <| LightReady.commit_index := Some (HardState.commit hard_state) |>)
     else
       assert (HardState.commit hard_state =? HardState.commit (prev_hs self));;
       mret (light_rd <| LightReady.commit_index := None |>));
  self ← get;
  assert (bool_decide (hard_state = prev_hs self));;
  mret light_rd.

Definition advance_apply_to (applied : Z) : M unit := commit_apply applied.
Definition advance_apply : M unit :=
  self ← get;
  commit_apply (commit_since_index self).

Definition advance (rd : Ready.t) : M LightReady.t :=
  self ← get;
  let applied := commit_since_index self in
  light_rd ← advance_append rd;
  advance_apply_to applied;;
  mret light_rd.

Definition advance_append_async (rd : Ready.t) : M unit := commit_ready rd.

(** ** Reports and requests, as local messages *)
Definition step_ignoring (m : Message.t) : M unit := _e ← on_raft (Raft.step m); mret tt.

Definition report_unreachable (id : Z) : M unit :=
  step_ignoring (Message.default <| Message.msg_type := MsgUnreachable |> <| Message.from := id |>).
Definition report_snapshot (id : Z) (status : SnapshotStatus) : M unit :=
  step_ignoring (Message.default <| Message.msg_type := MsgSnapStatus |> <| Message.from := id |>
    <| Message.reject := bool_decide (status = Failure) |>).
Definition request_snapshot : M (Result unit) := on_raft Raft.request_snapshot.
Definition transfer_leader (transferee : Z) : M unit :=
  step_ignoring (Message.default <| Message.msg_type := MsgTransferLeader |> <| Message.from := transferee |>).
Definition read_index (rctx : bytes) : M unit :=
  step_ignoring (Message.default <| Message.msg_type := MsgReadIndex |> <| Message.entries := [Entry.default <| Entry.data := rctx |>] |>).

Definition store (self : t T) : T := RaftLog.store (raft_log (Raft.r (raft self))).
Definition skip_bcast_commit (skip : bool) : M unit := on_raft (Raft.set_skip_bcast_commit skip).
Definition set_batch_append (b : bool) : M unit := on_raft (Raft.set_batch_append b).

(** ** Bootstrapping a cluster *)

(** The entries that add the peers. *)
Fixpoint bootstrap_entries (i : Z) (peers : list Peer.t) : M (list Entry.t) :=
  match peers with
  | [] => mret []
  | peer :: peers =>
      context ← unwrap (Peer.context peer);
      let data := write_conf_change (Proto.ConfChange.mk AddNode (Peer.id peer) context 0) in
      let e := Entry.default <| Entry.index := i +w 1 |> <| Entry.term := 1 |> <| Entry.entry_type := EntryConfChange |>
                 <| Entry.data := data |> in
      ents ← bootstrap_entries (i + 1) peers;
      mret (e :: ents)
  end.

Definition bootstrap (peers : list Peer.t) : M (Result unit) :=
  if bool_decide (peers = []) then mret (Err (ConfigInvalid "must provide at least one peer to Bootstrap"%string))
  else
    last_index ←? asks (fun s => st_last_index (store s));
    if negb (last_index =? 0) then mret (Err (ConfigInvalid "can't bootstrap a nonempty Storage"%string))
    else
      modify (fun s => s <| prev_hs := HardState.default |>);;
      on_raft (Raft.become_follower 1 INVALID_ID);;
      ents ← bootstrap_entries 0 peers;
      _li ← on_raft (Raft.on_log (RaftLog.append ents));
      on_raft (Raft.on_log (modify (fun l => l <| RaftLog.committed := len ents |>)));;
      for_each (fun peer =>
        let cc := Proto.ConfChange.default <| Proto.ConfChange.node_id := Peer.id peer |> <| Proto.ConfChange.change_type := AddNode |> in
        _r ← on_raft (Raft.apply_conf_change (as_v2 cc)); mret tt) peers;;
      mret (Ok tt).
End ops.
End RawNode.

(** ** Status ([status.rs]) *)

(** [struct BaseStatus]; [progress] is set on a leader only. *)
Module BaseStatus.
Record t : Type := mk {
  id : Z;
  hs : HardState.t;
  ss : RaftCore.SoftState.t;
  applied : Z;
  progress : option ProgressTracker.t
}.

Section ops.
Context {T : Type}.
Implicit Types raft : Raft.t T.

Definition new raft : t :=
  mk (RaftCore.id (Raft.r raft)) (Raft.hard_state raft) (Raft.soft_state raft)
     (RaftLog.applied (RaftCore.raft_log (Raft.r raft)))
     (if bool_decide (RaftCore.SoftState.raft_state (Raft.soft_state raft) = RaftCore.Leader) then Some (Raft.prs raft) else None).

(** [impl From<&Raft>], without the progress. *)
Definition from raft : t :=
  mk (RaftCore.id (Raft.r raft)) (Raft.hard_state raft) (Raft.soft_state raft)
     (RaftLog.applied (RaftCore.raft_log (Raft.r raft))) None.
End ops.
End BaseStatus.

(** [struct Status] *)
Module Status.
Record t : Type := mk {
  base_status : BaseStatus.t;
  config : Configuration.t;
  progress : gmap Z Progress.t
}.

Section ops.
Context {T : Type}.
Implicit Types raft : Raft.t T.

Definition of_base raft (base : BaseStatus.t) : t :=
  mk base (ProgressTracker.conf (Raft.prs raft))
     (if bool_decide (RaftCore.SoftState.raft_state (BaseStatus.ss base) = RaftCore.Leader)
      then ProgressTracker.progress (Raft.prs raft) else ∅).
Definition New raft : t := of_base raft (BaseStatus.new raft).
Definition from raft : t := of_base raft (BaseStatus.from raft).
End ops.
End Status.
