(* ===== verification/RaftFrame.v ===== *)
(** * What the operations of a node change

    Frames of the operations of [Raft.v]: most of them are [quiet] (roles, terms and
    votes stay and the log is only read), the others let a node [evolve]: its term
    never decreases, a vote given in a term stays, the log takes the steps of
    [log_step], and it does not become leader except where an election is decided. *)

From S2P Require Import Prelude Proto Errors Util Inflights Progress Quorum Tracker ConfChange.
From S2P Require Import Log Unstable Storage RaftLog ReadOnly Config RaftCore Raft.

(** ** Frames of a log *)
Section log_frames.
Context {T : Type} `{StorageLaws T} `{Codec}.
Implicit Types l : RaftLog.t T.

(** Only reads, and only steps of the log, from a well-formed log. *)
Definition reads l l' : Prop := log_ok l -> same_log l l'.
Definition log_run l l' : Prop := log_ok l -> log_ok l' /\ rtc log_step l l'.
(** The storage still holds what it held. *)
Definition stored l l' : Prop := log_ok l -> storage_log (RaftLog.store l') = storage_log (RaftLog.store l).
Definition log_writes l l' : Prop := log_run l l' /\ stored l l'.
(** Steps that leave the entries alone. *)
Definition moves l l' : Prop := log_writes l l' /\ (log_ok l -> view l' = view l).

Lemma same_log_ok l l' : log_ok l -> same_log l l' -> log_ok l'.
Proof. intros Hok Hr. by apply (good_read l l'). Qed.

Lemma same_log_trans l l' l'' : same_log l l' -> same_log l' l'' -> same_log l l''.
Proof.
  intros (s1 & -> & Hs1 & E1) (s2 & -> & Hs2 & E2). exists s2. split; [done|]. split; [done|]. fields. by rewrite E2.
Qed.

#[export] Instance reads_preorder : PreOrder reads.
Proof.
  split; [intros l Hok; by apply same_log_refl|]. intros l l' l'' Hr1 Hr2 Hok.
  eapply same_log_trans; [by apply Hr1|]. apply Hr2. by eapply same_log_ok, Hr1.
Qed.

#[export] Instance log_run_preorder : PreOrder log_run.
Proof.
  split; [intros l Hok; by split|]. intros l l' l'' Hr1 Hr2 Hok. destruct (Hr1 Hok) as [Hok' R1].
  destruct (Hr2 Hok') as [Hok'' R2]. split; [done|]. by etrans.
Qed.

Lemma stored_trans l l' l'' : log_run l l' -> stored l l' -> stored l' l'' -> stored l l''.
Proof. intros Hr S1 S2 Hok. rewrite S2, S1; [done..|]. by apply Hr. Qed.

Lemma log_run_step l l' : (log_ok l -> log_step l l') -> log_run l l'.
Proof. intros Hs Hok. split; [by eapply log_step_good, Hs|by apply rtc_once, Hs]. Qed.

Lemma reads_run l l' : reads l l' -> log_run l l'.
Proof. intros Hr. apply log_run_step. intros Hok. by apply step_read, Hr. Qed.
Lemma reads_stored l l' : reads l l' -> stored l l'.
Proof. intros Hr Hok. by destruct (Hr Hok) as (s & -> & _ & Hs). Qed.
Lemma log_writes_step l l' : log_step l l' -> RaftLog.store l' = RaftLog.store l -> log_writes l l'.
Proof. intros Hs He. split; [by apply log_run_step|]. intros _. by rewrite He. Qed.
Lemma reads_view l l' : reads l l' -> log_ok l -> view l' = view l.
Proof. intros Hr Hok. by apply same_log_view, Hr. Qed.
Lemma log_writes_ok l l' : (log_ok l -> log_writes l l') -> log_writes l l'.
Proof. intros Hw. split; intros Hok; by apply (Hw Hok). Qed.

Lemma slice_pres low high max ctx : pres reads (RaftLog.slice (T:=T) low high max ctx).
Proof. intros l r l' E Hok. by eapply slice_reads. Qed.
Lemma entries_pres idx max ctx : pres reads (RaftLog.entries (T:=T) idx max ctx).
Proof. intros l r l' E Hok. by eapply entries_reads. Qed.
Lemma snapshot_pres req to : pres reads (RaftLog.snapshot (T:=T) req to).
Proof. intros l r l' E Hok. by eapply snapshot_reads. Qed.

(** One step of the log that only moves a position. *)
Ltac moves_tac step := intros l x l' E; split;
  [apply log_writes_step; [destruct x; by eapply step|]|];
  cbv beta delta [RaftLog.commit_to RaftLog.maybe_commit RaftLog.maybe_persist RaftLog.maybe_persist_snap RaftLog.applied_to] in E;
  by prog_inv.
Lemma commit_to_pres i : pres moves (RaftLog.commit_to (T:=T) i).
Proof. moves_tac step_commit_to. Qed.
Lemma log_maybe_commit_pres i t : pres moves (RaftLog.maybe_commit (T:=T) i t).
Proof. moves_tac step_maybe_commit. Qed.
Lemma maybe_persist_pres i t : pres moves (RaftLog.maybe_persist (T:=T) i t).
Proof. moves_tac step_maybe_persist. Qed.
Lemma maybe_persist_snap_pres i : pres moves (RaftLog.maybe_persist_snap (T:=T) i).
Proof. moves_tac step_maybe_persist_snap. Qed.
Lemma applied_to_pres i : pres moves (RaftLog.applied_to (T:=T) i).
Proof. moves_tac step_applied_to. Qed.
End log_frames.
#[export] Hint Resolve slice_pres entries_pres snapshot_pres commit_to_pres log_maybe_commit_pres maybe_persist_pres
  maybe_persist_snap_pres applied_to_pres : frame.

(** ** Granted votes

    The answers that give a vote of an election; only [handle_vote_request] sends
    them. *)
Definition gives_vote (m : Message.t) : Prop :=
  Message.msg_type m = MsgRequestVoteResponse /\ Message.reject m = false.
Definition no_grants (l l' : list Message.t) : Prop := forall m, gives_vote m -> m ∈ l' -> m ∈ l.

#[export] Instance no_grants_preorder : PreOrder no_grants.
Proof. split; [by intros l m|]. intros l l' l'' H1 H2 m Hm Hl. by apply H1, H2. Qed.

Lemma no_grants_snoc l m : ~ gives_vote m -> no_grants l (l ++ [m]).
Proof. intros Hm m' Hg [?|He]%elem_of_app; [done|]. apply list_elem_of_singleton in He as ->. by destruct Hm. Qed.
Lemma no_grants_insert l i m : ~ gives_vote m -> no_grants l (<[i := m]> l).
Proof.
  intros Hm m' Hg (j & Hj)%list_elem_of_lookup. apply list_lookup_insert_Some in Hj as [(-> & <- & _)|[_ Hj]];
    [by destruct Hm|]. by eapply list_elem_of_lookup_2.
Qed.

(** A message that neither gives a vote nor holds entries of the log. *)
Definition plain (m : Message.t) : Prop := ~ gives_vote m /\ Message.msg_type m <> MsgAppend.

(** For a message whose type is known. *)
Ltac by_type := repeat (progress fields || case_match); first [discriminate | congruence | simpl in *; congruence].
Ltac not_granted := solve [intros [? ?]; by_type].
Ltac is_plain := solve [split; [not_granted|intros ?; by_type]].
#[export] Hint Extern 1 (~ gives_vote _) => not_granted : frame.
#[export] Hint Extern 1 (plain _) => is_plain : frame.

(** ** Copies of the log

    The entries of an append message are a part of the log it was sent from, with the
    term of the entry before. *)
Definition log_of (m : Message.t) : ALog.t := ALog.mk (Message.index m) (Some (Message.log_term m)) (Message.entries m).
Definition copies (v : ALog.t) (m : Message.t) : Prop := forall i e, ALog.at_index (log_of m) i = Some e ->
  ALog.at_index v i = Some e /\ (i = Message.index m + 1 -> ALog.term_at v (Message.index m) = Some (Message.log_term m)).

Lemma range_copies v idx es t m : ALog.base v < idx -> es `prefix_of` ALog.range v idx (ALog.last v + 1) ->
  ALog.term_at v (idx - 1) = Some t -> log_of m = ALog.mk (idx - 1) (Some t) es -> copies v m.
Proof.
  intros Hb [k Hk] Ht Hm i e. rewrite Hm. unfold ALog.at_index at 1. simpl. intros He.
  injection Hm as Hi Hlt _. split; [|by rewrite Hi, Hlt].
  unfold index in He. destruct (Z.ltb_spec (i - (idx - 1) - 1) 0); [done|].
  assert (ALog.range v idx (ALog.last v + 1) !! Z.to_nat (i - (idx - 1) - 1) = Some e) as Hr.
  { rewrite Hk. by apply lookup_app_l_Some. }
  pose proof (lookup_lt_Some _ _ _ Hr) as Hlt'. unfold ALog.range in Hlt'. rewrite length_take in Hlt'.
  rewrite range_lookup in Hr by lia. rewrite <-Hr. f_equal. lia.
Qed.
Lemma empty_copies v m : Message.entries m = [] -> copies v m.
Proof. intros Hm i e He. unfold log_of, ALog.at_index, index in He. simpl in He. rewrite Hm in He. by destruct (_ <? _). Qed.

(** ** Frames of the core *)
Section sender.
Context {T : Type} `{StorageLaws T} `{Codec}.
Import RaftCore.

(** The core stays as it is, but for reads of its log, and no vote is granted. *)
Definition sends (s s' : Sender.t T) : Prop :=
  exists l, Sender.core s' = (Sender.core s) <| raft_log := l |> /\ reads (raft_log (Sender.core s)) l /\
    no_grants (Sender.msgs s) (Sender.msgs s').

#[export] Instance sends_preorder : PreOrder sends.
Proof.
  split.
  - intros s. exists (raft_log (Sender.core s)). split; [by destruct (Sender.core s)|by split].
  - intros s s' s'' (l & E & Hl & Hg) (l' & E' & Hl' & Hg'). exists l'. rewrite E', E. split; [done|].
    rewrite E in Hl'. split; by etrans.
Qed.

Lemma sends_core s s' : Sender.core s' = Sender.core s -> no_grants (Sender.msgs s) (Sender.msgs s') -> sends s s'.
Proof. intros E Hg. exists (raft_log (Sender.core s)). split; [rewrite E; by destruct (Sender.core s)|by split]. Qed.

(** New append messages copy the log, without batching. *)
Definition copied (c : RaftCore.t T) (ms ms' : list Message.t) : Prop :=
  log_ok (raft_log c) -> batch_append c = false ->
  forall m, m ∈ ms' -> Message.msg_type m = MsgAppend -> m ∈ ms \/ copies (view (raft_log c)) m.

#[export] Instance copied_refl c : Reflexive (copied c).
Proof. intros ms Hok Hb m Hm _. by left. Qed.
Lemma copied_trans c c' ms1 ms2 ms3 : (log_ok (raft_log c) -> log_ok (raft_log c') /\ view (raft_log c') = view (raft_log c)) ->
  batch_append c' = batch_append c -> copied c ms1 ms2 -> copied c' ms2 ms3 -> copied c ms1 ms3.
Proof.
  intros Hl Hb H1' H2' Hok Hbf m Hm Ht. destruct (Hl Hok) as [Hok' Hv].
  destruct (H2' Hok' ltac:(congruence) m Hm Ht) as [Hm2|Hc]; [by apply (H1' Hok Hbf)|]. rewrite Hv in Hc. by right.
Qed.
Lemma copied_snoc c ms m : (log_ok (raft_log c) -> Message.msg_type m = MsgAppend -> copies (view (raft_log c)) m) ->
  copied c ms (ms ++ [m]).
Proof. intros Hc Hok _ m' [?|Hm]%elem_of_app Ht; [by left|]. apply list_elem_of_singleton in Hm as ->. right. auto. Qed.

(** The core stays as it is, no vote is granted, and append messages copy the log. *)
Definition feeds (s s' : Sender.t T) : Prop :=
  sends s s' /\ copied (Sender.core s) (Sender.msgs s) (Sender.msgs s').

Lemma sends_kept s s' : sends s s' -> batch_append (Sender.core s') = batch_append (Sender.core s) /\
  (log_ok (raft_log (Sender.core s)) -> log_ok (raft_log (Sender.core s')) /\
    view (raft_log (Sender.core s')) = view (raft_log (Sender.core s))).
Proof.
  intros (l & -> & Hr & _). split; [done|]. fields. intros Hok. split; [by eapply same_log_ok, Hr|by apply reads_view].
Qed.

#[export] Instance feeds_preorder : PreOrder feeds.
Proof.
  split; [intros s; by split|]. intros s s' s'' [S1 C1] [S2 C2]. split; [by etrans|].
  destruct (sends_kept _ _ S1) as [? ?]. by eapply copied_trans.
Qed.

(** What [send] puts out is the message with some fields filled in. *)
Definition filled_in (c : RaftCore.t T) (m m' : Message.t) : Prop :=
  Message.msg_type m' = Message.msg_type m /\ Message.reject m' = Message.reject m /\ Message.to m' = Message.to m /\
  (Message.from m = INVALID_ID -> Message.from m' = id c) /\
  (is_vote_response (Message.msg_type m) = true -> Message.term m' = Message.term m) /\ log_of m' = log_of m.
(** A vote response without a term is not sent. *)
Definition sendable (m : Message.t) : Prop := is_vote_response (Message.msg_type m) = true -> Message.term m <> 0.
Lemma sending_inv (c : RaftCore.t T) m ms u ms' : Sending.send c m ms = Ret (u, ms') ->
  exists m', ms' = ms ++ [m'] /\ filled_in c m m' /\ sendable m.
Proof.
  unfold Sending.send. cbv zeta. set (m0 := if _ =? INVALID_ID then _ else m).
  assert (Hm0 : filled_in c m m0).
  { subst m0. destruct (Z.eqb_spec (Message.from m) INVALID_ID); by split_and!. }
  intros (m1 & ms1 & E1 & ->%modify_inv)%bind_inv. exists (if is_vote_request (Message.msg_type m1) then
    (if 0 <? priority c then m1 <| Message.deprecated_priority := priority c |> else m1) <| Message.priority := priority c |> else m1).
  assert (ms1 = ms /\ filled_in c m m1 /\ sendable m) as (-> & Hm1 & Hs).
  { destruct Hm0 as (Ht & Hr & Hto & Hf & Hte & Hlo). rewrite Ht in E1. unfold sendable.
    destruct (is_vote_request _ || is_vote_response _) eqn:Ev.
    - destruct (Z.eqb_spec (Message.term m0) 0) as [|Hz]; [done|]. apply ret_inv in E1 as [<- <-]. split_and!; [done..|].
      intros Hv. by rewrite <-Hte.
    - apply orb_false_iff in Ev as [_ Ev]. destruct (negb _); [done|]. apply ret_inv in E1 as [<- <-]. split; [done|].
      unfold filled_in. rewrite Ev. destruct (_ && _); by split_and!. }
  split; [done|split; [|done]]. destruct (is_vote_request (Message.msg_type m1)); [destruct (0 <? priority c)|]; exact Hm1.
Qed.

Lemma filled_in_granted c m m' : filled_in c m m' -> gives_vote m' -> gives_vote m.
Proof. intros (Ht & Hr & _) [? ?]. split; congruence. Qed.
Lemma send_grants (c : RaftCore.t T) m : ~ gives_vote m -> pres no_grants (Sending.send c m).
Proof.
  intros Hm ms u ms' (m' & -> & Hf & _)%sending_inv. apply no_grants_snoc. intros Hg. by eapply Hm, filled_in_granted.
Qed.

Lemma send_from_pres m : ~ gives_vote m -> pres sends (Sending.send_from (T:=T) m).
Proof.
  intros Hm s a s' E. unfold Sending.send_from in E. apply bind_inv in E as (s0 & ? & [-> ->]%get_inv & E).
  apply zoom_inv in E as (ms & E & ->). apply send_grants in E; [|done]. by apply sends_core.
Qed.
Lemma on_pr_pres {A} (m : Prog Progress.t A) : pres sends (Sending.on_pr (T:=T) m).
Proof. intros s a s' E. unfold Sending.on_pr in E. prog_inv. by apply sends_core. Qed.
Lemma sending_log_pres {A} (m : Prog (RaftLog.t T) A) : pres reads m -> pres sends (Sending.on_log m).
Proof. intros Hm. eapply pres_zoom; [exact Hm|]. intros s u Hu. by exists u. Qed.
Hint Resolve send_from_pres on_pr_pres sending_log_pres : frame.

Lemma prepare_send_snapshot_pres m to : pres sends (Sending.prepare_send_snapshot (T:=T) m to).
Proof. unfold Sending.prepare_send_snapshot. frame. Qed.
Lemma prepare_send_snapshot_type m to s x s' : Sending.prepare_send_snapshot (T:=T) m to s = Ret (x, s') ->
  x.2 = true -> Message.msg_type x.1 = MsgSnapshot.
Proof. unfold Sending.prepare_send_snapshot. intros E. prog_inv; done. Qed.
Lemma send_snapshot_pres m to : pres sends (Sending.send_snapshot (T:=T) m to).
Proof.
  unfold Sending.send_snapshot. eapply (pres_bind_post _ (fun x => x.2 = true -> Message.msg_type x.1 = MsgSnapshot));
    [apply prepare_send_snapshot_pres|intros ???; apply prepare_send_snapshot_type|].
  intros [m' []] Hm; simpl in Hm; [|by frame]. specialize (Hm eq_refl). frame.
Qed.
Lemma try_batching_pres to ents : pres sends (Sending.try_batching (T:=T) to ents).
Proof.
  unfold Sending.try_batching. intros s b s' (s0 & ? & [-> ->]%get_inv & E)%bind_inv. cbv zeta in E.
  destruct (list_find _ _) as [[i msg]|] eqn:Ef; [|by apply ret_inv in E as [_ <-]].
  apply list_find_Some in Ef as (_ & [Ht _] & _). call_frame sends E.
  frame; apply sends_core, no_grants_insert; try done; not_granted.
Qed.
Lemma prepare_send_entries_pres m t ents : pres sends (Sending.prepare_send_entries (T:=T) m t ents).
Proof. unfold Sending.prepare_send_entries. frame. Qed.
Lemma prepare_send_entries_type m t ents s x s' : Sending.prepare_send_entries (T:=T) m t ents s = Ret (x, s') ->
  Message.msg_type x = MsgAppend.
Proof. unfold Sending.prepare_send_entries. intros E. prog_inv; done. Qed.
Hint Resolve send_snapshot_pres try_batching_pres : frame.

(** Prepare the entries and send them. *)
Lemma send_entries_pres m t ents (k : Prog (Sender.t T) bool) : pres sends k ->
  pres sends (m ← Sending.prepare_send_entries m t ents; Sending.send_from m;; k).
Proof.
  intros Hk. eapply (pres_bind_post _ (fun x => Message.msg_type x = MsgAppend));
    [apply prepare_send_entries_pres|intros ???; apply prepare_send_entries_type|].
  intros m' Hm. frame.
Qed.

Lemma maybe_send_append_pres to b : pres sends (Sending.maybe_send_append (T:=T) to b).
Proof. unfold Sending.maybe_send_append. repeat first [apply send_entries_pres | frame_step | progress (eauto with frame nocore)]. Qed.
Hint Resolve maybe_send_append_pres : frame.


(** *** What is sent of the log *)
Lemma on_pr_feeds {A} (m : Prog Progress.t A) : pres feeds (Sending.on_pr (T:=T) m).
Proof. intros s a s' E. split; [by eapply on_pr_pres|]. unfold Sending.on_pr in E. by prog_inv. Qed.
Lemma sending_log_feeds {A} (m : Prog (RaftLog.t T) A) : pres reads m -> pres feeds (Sending.on_log m).
Proof. intros Hm s a s' E. split; [by eapply sending_log_pres|]. unfold Sending.on_log in E. by prog_inv. Qed.
Lemma send_from_copies m s a s' : ~ gives_vote m -> (log_ok (raft_log (Sender.core s)) -> Message.msg_type m = MsgAppend ->
  copies (view (raft_log (Sender.core s))) m) -> Sending.send_from (T:=T) m s = Ret (a, s') -> feeds s s'.
Proof.
  intros Hm Hc E. split; [by eapply send_from_pres|]. unfold Sending.send_from in E. apply bind_inv in E as (s0 & ? & [-> ->]%get_inv & E).
  apply zoom_inv in E as (ms & (m' & -> & (Ht & _ & _ & _ & _ & Hl) & _)%sending_inv & ->). fields.
  apply copied_snoc. unfold copies. rewrite Hl, Ht. injection Hl as -> -> _. exact Hc.
Qed.
Lemma send_from_feeds m : plain m -> pres feeds (Sending.send_from (T:=T) m).
Proof. intros [? ?] s a s'. by apply send_from_copies. Qed.
Hint Resolve on_pr_feeds sending_log_feeds send_from_feeds : frame.

Lemma prepare_send_snapshot_feeds m to : pres feeds (Sending.prepare_send_snapshot (T:=T) m to).
Proof. unfold Sending.prepare_send_snapshot. frame. Qed.
Lemma send_snapshot_feeds m to : pres feeds (Sending.send_snapshot (T:=T) m to).
Proof.
  unfold Sending.send_snapshot. eapply (pres_bind_post _ (fun x => x.2 = true -> Message.msg_type x.1 = MsgSnapshot));
    [apply prepare_send_snapshot_feeds|intros ???; apply prepare_send_snapshot_type|].
  intros [m' []] Hm; simpl in Hm; [|by frame]. specialize (Hm eq_refl). frame.
Qed.

Lemma prepare_send_entries_inv m t ents s x s' : Sending.prepare_send_entries (T:=T) m t ents s = Ret (x, s') ->
  feeds s s' /\ Message.msg_type x = MsgAppend /\ Sender.core s' = Sender.core s /\
  log_of x = ALog.mk (Progress.next_idx (Sender.pr s) -w 1) (Some t) ents.
Proof.
  intros E. split; [call_frame feeds E; unfold Sending.prepare_send_entries; frame|].
  unfold Sending.prepare_send_entries, Sending.on_pr in E. by prog_inv.
Qed.

(** The entries read are those of the message. *)
Lemma read_copies l l' idx max ctx es t m : log_ok l -> RaftLog.entries idx max ctx l = Ret (Ok es, l') ->
  RaftLog.term l' (idx -w 1) = Ret (Ok t) -> log_of m = ALog.mk (idx -w 1) (Some t) es -> copies (view l') m.
Proof.
  intros Hok E Et Hm. pose proof (entries_pres _ _ _ _ _ _ E Hok) as Hl. pose proof (same_log_view _ _ Hl) as Hv.
  pose proof (same_log_ok _ _ Hok Hl) as Hok'. destruct (decide (es = [])) as [->|Hne].
  { apply empty_copies. by injection Hm as _ _ ->. }
  destruct (entries_prefix _ _ _ _ _ _ Hok E Hne) as [Hi Hp]. rewrite <-Hv in Hi, Hp.
  pose proof (view_bounds _ Hok') as (? & ? & ?). rewrite u64_sub_small in Et, Hm by u64_lia.
  eapply range_copies; [|exact Hp| |exact Hm]; [lia|]. rewrite term_run in Et by (done || lia).
  unfold lterm in Et. rewrite !(proj2 (Z.leb_le _ _)) in Et by lia. simpl in Et. by destruct (ALog.term_at _ _); simplify_eq.
Qed.

Lemma maybe_send_append_feeds to b : pres feeds (Sending.maybe_send_append (T:=T) to b).
Proof.
  intros s x s' E. pose proof (maybe_send_append_pres _ _ _ _ _ E) as Hs.
  cut (log_ok (raft_log (Sender.core s)) -> batch_append (Sender.core s) = false -> feeds s s').
  { intros Hf. split; [done|]. intros Hok Hb. by apply Hf. }
  clear Hs. intros Hok Hb. unfold Sending.maybe_send_append in E. apply bind_inv in E as (s0 & ? & [-> ->]%get_inv & E).
  destruct (Progress.is_paused _); [by apply ret_inv in E as [_ <-]|]. cbv zeta in E.
  destruct (negb (_ =? _)); [by eapply send_snapshot_feeds|].
  apply bind_inv in E as (ents & s1 & E1 & E). pose proof (sending_log_feeds _ (entries_pres _ _ _) _ _ _ E1) as F1.
  etrans; [exact F1|]. apply zoom_inv in E1 as (l' & E1 & ->). destruct (_ && _); [by apply ret_inv in E as [_ <-]|].
  apply bind_inv in E as (t & s1 & [Et ->]%asks_inv & E). fields. rewrite Hb in E.
  destruct t as [t|], ents as [es|er];
    try (by repeat case_match; first [by eapply send_snapshot_feeds|by apply ret_inv in E as [_ <-]]).
  apply bind_inv in E as (bt & s1 & [<- <-]%ret_inv & E). apply bind_inv in E as (m & s2 & Ep & E).
  apply prepare_send_entries_inv in Ep as (F2 & Ht & Hc & Hm). fields. etrans; [exact F2|].
  apply bind_inv in E as (u & s3 & E & [_ <-]%ret_inv). eapply send_from_copies; [| |exact E]; [by intros [? _]; congruence|].
  intros _ _. rewrite Hc. fields. by eapply read_copies.
Qed.
Hint Resolve maybe_send_append_feeds : frame.

Lemma sending_append_feeds to : pres feeds (Sending.send_append (T:=T) to).
Proof. unfold Sending.send_append. frame. Qed.
Lemma send_append_loop_feeds fuel to : pres feeds (Sending.send_append_loop (T:=T) fuel to).
Proof. induction fuel; simpl; frame. Qed.
Hint Resolve send_append_loop_feeds : frame.
Lemma sending_aggressively_feeds to : pres feeds (Sending.send_append_aggressively (T:=T) to).
Proof. unfold Sending.send_append_aggressively. frame. Qed.
Lemma send_heartbeat_feeds to ctx : pres feeds (Sending.send_heartbeat (T:=T) to ctx).
Proof. unfold Sending.send_heartbeat. frame. Qed.
End sender.
#[export] Hint Resolve maybe_send_append_feeds sending_append_feeds sending_aggressively_feeds send_heartbeat_feeds : frame.

(** ** Quiet operations of a node *)
Section quiet.
Context {T : Type} `{StorageLaws T} `{Codec} `{HashOrder} `{ConfigurationDebug} `{Rng}.
Import RaftCore Raft.
Implicit Types s : Raft.t T.

(** What a quiet operation leaves as it is. *)
Record quiet s s' : Prop := {
  q_id : id (r s') = id (r s);
  q_min : min_election_timeout (r s') = min_election_timeout (r s);
  q_max : max_election_timeout (r s') = max_election_timeout (r s);
  q_rand : randomized_election_timeout (r s') = randomized_election_timeout (r s);
  q_term : term (r s') = term (r s);
  q_vote : vote (r s') = vote (r s);
  q_state : state (r s') = state (r s);
  q_conf : ProgressTracker.conf (prs s') = ProgressTracker.conf (prs s);
  q_votes : ProgressTracker.votes (prs s') = ProgressTracker.votes (prs s);
  q_batch : batch_append (r s') = batch_append (r s);
  q_grants : no_grants (msgs s) (msgs s');
  q_appends : copied (r s) (msgs s) (msgs s');
  q_log : reads (raft_log (r s)) (raft_log (r s'))
}.

#[export] Instance quiet_preorder : PreOrder quiet.
Proof.
  split; [by intros s|]. intros s s' s'' [] []. split; try congruence; try by etrans.
  eapply copied_trans; [|done..]. intros Hok. split; [by eapply same_log_ok, q_log0|by apply reads_view].
Qed.

Lemma on_progress_pres {A} i (m : Prog Progress.t A) : pres quiet (on_progress (T:=T) i m).
Proof. intros s a s' E. unfold on_progress in E. prog_inv. by split. Qed.

Lemma with_progress_pres {A} i (m : Prog (Sender.t T) A) : pres feeds m -> pres quiet (with_progress i m).
Proof.
  intros Hm s a s' E. unfold with_progress in E. prog_inv.
  match goal with Hrun : m _ = Ret _ |- _ => destruct (Hm _ _ _ Hrun) as [(l & Hc & Hl & Hg) Hcp] end.
  simpl in Hc, Hl, Hg, Hcp. unfold put_progress. split; fields; rewrite ?Hc; fields; done.
Qed.

Lemma send_pres m : plain m -> pres quiet (send (T:=T) m).
Proof.
  intros [Hg Ht] s a s' E. unfold send in E. apply bind_inv in E as (s0 & ? & [-> ->]%get_inv & E).
  apply zoom_inv in E as (ms & E & ->). pose proof (send_grants _ _ Hg _ _ _ E).
  apply sending_inv in E as (m' & -> & (Ht' & _) & _). split; try done. apply copied_snoc. congruence.
Qed.

Lemma send_inv m s u s' : send m s = Ret (u, s') ->
  exists m', s' = s <| msgs := msgs s ++ [m'] |> /\ filled_in (r s) m m' /\ sendable m.
Proof.
  unfold send. intros (s0 & ? & [-> ->]%get_inv & E)%bind_inv.
  apply zoom_inv in E as (ms & (m' & -> & Hf & Hs)%sending_inv & ->). by exists m'.
Qed.

Lemma reading_pres {A} (m : Prog (RaftLog.t T) A) : pres reads m -> pres quiet (on_log m).
Proof. intros Hm. eapply pres_zoom; [exact Hm|]. by split. Qed.

Lemma on_read_only_pres {A} (m : Prog ReadOnly.t A) : pres quiet (on_read_only (T:=T) m).
Proof. intros s a s' E. unfold on_read_only in E. prog_inv. by split. Qed.
Hint Resolve on_progress_pres with_progress_pres send_pres reading_pres on_read_only_pres : frame.
Hint Extern 1 (quiet _ _) => by split : frame.
Hint Extern 1 (pres _ (ask_log _)) => unfold ask_log : frame.

Lemma ask_log_pres {A} (f : RaftLog.t T -> outcome A) : pres quiet (ask_log f).
Proof. unfold ask_log. frame. Qed.
Hint Resolve ask_log_pres : frame.

Lemma send_append_pres to : pres quiet (send_append (T:=T) to).
Proof. unfold send_append. frame. Qed.
Lemma send_append_aggressively_pres to : pres quiet (send_append_aggressively (T:=T) to).
Proof. unfold send_append_aggressively. frame. Qed.
Hint Resolve send_append_pres send_append_aggressively_pres : frame.

Lemma bcast_append_pres : pres quiet (bcast_append (T:=T)).
Proof. unfold bcast_append. frame. Qed.
Lemma bcast_heartbeat_with_ctx_pres ctx : pres quiet (bcast_heartbeat_with_ctx (T:=T) ctx).
Proof. unfold bcast_heartbeat_with_ctx. frame. Qed.
Hint Resolve bcast_append_pres bcast_heartbeat_with_ctx_pres : frame.
Lemma bcast_heartbeat_pres : pres quiet (bcast_heartbeat (T:=T)).
Proof. unfold bcast_heartbeat. frame. Qed.
Hint Resolve bcast_heartbeat_pres : frame.

Lemma abort_leader_transfer_pres : pres quiet (abort_leader_transfer (T:=T)).
Proof. unfold abort_leader_transfer. frame. Qed.
Lemma send_request_snapshot_pres : pres quiet (send_request_snapshot (T:=T)).
Proof. unfold send_request_snapshot. frame. Qed.
Lemma handle_ready_read_index_pres req i : pres quiet (handle_ready_read_index (T:=T) req i).
Proof. unfold handle_ready_read_index. frame. Qed.
Lemma handle_ready_read_index_type req i s x s' : handle_ready_read_index (T:=T) req i s = Ret (x, s') ->
  match x with Some m => plain m | None => True end.
Proof. unfold handle_ready_read_index. intros E. prog_inv; try done. is_plain. Qed.
Lemma answer_read_pres req i : pres quiet (answer_read (T:=T) req i).
Proof.
  unfold answer_read. eapply (pres_bind_post _ (fun x => match x with Some m => plain m | None => True end));
    [apply handle_ready_read_index_pres|intros ???; apply handle_ready_read_index_type|]. intros [m|] Hm; frame.
Qed.
Hint Resolve abort_leader_transfer_pres send_request_snapshot_pres answer_read_pres : frame.

Lemma answer_reads_if_quorum_pres from ctx : pres quiet (answer_reads_if_quorum (T:=T) from ctx).
Proof. unfold answer_reads_if_quorum. frame. Qed.
Hint Resolve answer_reads_if_quorum_pres : frame.

Lemma handle_heartbeat_response_pres m : pres quiet (handle_heartbeat_response (T:=T) m).
Proof. unfold handle_heartbeat_response. frame. Qed.
Lemma handle_transfer_leader_pres m : pres quiet (handle_transfer_leader (T:=T) m).
Proof. unfold handle_transfer_leader, send_timeout_now. frame. Qed.
Lemma handle_snapshot_status_pres m : pres quiet (handle_snapshot_status (T:=T) m).
Proof. unfold handle_snapshot_status. frame. Qed.
Lemma handle_unreachable_pres m : pres quiet (handle_unreachable (T:=T) m).
Proof. unfold handle_unreachable. frame. Qed.
Lemma check_quorum_active_pres : pres quiet (check_quorum_active (T:=T)).
Proof.
  intros s a s' E. unfold check_quorum_active, ProgressTracker.quorum_recently_active in E. prog_inv.
  destruct (fold_left _ _ _). simplify_eq. by split.
Qed.
Lemma handle_read_index_pres m : pres quiet (handle_read_index (T:=T) m).
Proof. unfold handle_read_index. frame. Qed.
Lemma propose_loop_pres i es : pres quiet (propose_loop (T:=T) i es).
Proof. revert i. induction es; intros i; simpl; frame. Qed.
Lemma note_leader_pres m : pres quiet (note_leader (T:=T) m).
Proof. unfold note_leader. frame. Qed.
Lemma forward_to_leader_pres m : Message.msg_type m <> MsgRequestVoteResponse -> Message.msg_type m <> MsgAppend -> pres quiet (forward_to_leader (T:=T) m).
Proof. intros Hm Ha. unfold forward_to_leader. frame. Qed.
Lemma request_snapshot_quiet : pres quiet (request_snapshot (T:=T)).
Proof. unfold request_snapshot. frame. Qed.
Lemma request_vote_pres ty vt t c ct to : vt <> MsgRequestVoteResponse -> vt <> MsgAppend -> pres quiet (request_vote (T:=T) ty vt t c ct to).
Proof. intros Hvt Ha. unfold request_vote. frame. Qed.
End quiet.
#[export] Hint Resolve on_progress_pres with_progress_pres send_pres reading_pres on_read_only_pres ask_log_pres
  send_append_pres send_append_aggressively_pres bcast_append_pres bcast_heartbeat_with_ctx_pres bcast_heartbeat_pres
  abort_leader_transfer_pres send_request_snapshot_pres answer_read_pres answer_reads_if_quorum_pres
  handle_heartbeat_response_pres handle_transfer_leader_pres handle_snapshot_status_pres handle_unreachable_pres
  check_quorum_active_pres handle_read_index_pres propose_loop_pres note_leader_pres forward_to_leader_pres
  request_snapshot_quiet request_vote_pres : frame.

(** ** Trackers without new votes *)
Definition votes_taken (p p' : ProgressTracker.t) : Prop :=
  forall v, ProgressTracker.votes p' !! v = Some true -> ProgressTracker.votes p !! v = Some true.
#[export] Instance votes_taken_preorder : PreOrder votes_taken.
Proof. split; [by intros p v|]. intros p p' p'' H1 H2 v Hv. by apply H1, H2. Qed.

Lemma apply_conf_votes conf changes n p :
  ProgressTracker.votes (ProgressTracker.apply_conf conf changes n p) = ProgressTracker.votes p.
Proof.
  unfold ProgressTracker.apply_conf. change (ProgressTracker.votes p) with (ProgressTracker.votes (p <| ProgressTracker.conf := conf |>)).
  generalize (p <| ProgressTracker.conf := conf |>). clear p. induction changes as [|[i []] cs IH]; intros p; [done|..];
    simpl; by rewrite IH.
Qed.
Lemma apply_conf_taken conf changes n p : votes_taken p (ProgressTracker.apply_conf conf changes n p).
Proof. intros v. by rewrite apply_conf_votes. Qed.
Lemma clear_taken p : votes_taken p (ProgressTracker.clear p).
Proof. by intros v. Qed.
Lemma same_votes_taken p p' : ProgressTracker.votes p' = ProgressTracker.votes p -> votes_taken p p'.
Proof. intros E v. by rewrite E. Qed.
#[export] Hint Resolve apply_conf_taken clear_taken : frame.
#[export] Hint Extern 2 (votes_taken _ _) => by apply same_votes_taken : frame.

Lemma restore_simple_taken `{HashOrder} n ccs : pres votes_taken (restore_simple n ccs).
Proof. induction ccs; simpl; frame. Qed.
#[export] Hint Resolve restore_simple_taken : frame.
Lemma restore_taken `{HashOrder} n cs : pres votes_taken (ConfChange.restore n cs).
Proof. unfold ConfChange.restore. destruct (to_conf_change_single cs). frame. Qed.
#[export] Hint Resolve restore_taken : frame.

(** One field of [evolve] for an update that leaves it alone. *)
Ltac evolve_field :=
  first [ reflexivity | lia | discriminate | by left | by (intros; left) | by (intros; right)
        | by (intros; right; left) | by (intros; right; right) | by intros [?|?] | by (right; split)
        | by (intros ?; left; split_and!) ].
Ltac evolve_tac := split; fields; evolve_field.

(** ** How a node evolves *)
Section evolve.
Context {T : Type} `{StorageLaws T} `{Codec} `{HashOrder} `{ConfigurationDebug} `{Rng}.
Import RaftCore Raft.
Implicit Types s : Raft.t T.
Implicit Types P : Prop.

(** What may happen in an election: why the node becomes leader of a term, whose votes
    of a term it takes in, whether it gives its vote, whether it writes its log, and whether the
    application writes its storage. *)
Record cause := Cause {
  c_leader : Z -> Prop;
  c_vote : Z -> Z -> Prop;
  c_grant : Prop;
  c_log : Prop;
  c_store : Prop
}.
Implicit Types C D : cause.
Definition calm : cause := Cause (fun _ => False) (fun _ _ => False) False False False.
Definition anything : cause := Cause (fun _ => True) (fun _ _ => True) True True True.
Definition leads P : cause := Cause (fun _ => P) (fun _ _ => False) False True False.
Definition writes : cause := Cause (fun _ => False) (fun _ _ => False) False True False.

Record weaker C D : Prop := {
  w_leader t : c_leader C t -> c_leader D t;
  w_vote v t : c_vote C v t -> c_vote D v t;
  w_grant : c_grant C -> c_grant D;
  w_log : c_log C -> c_log D;
  w_store : c_store C -> c_store D
}.
Lemma calm_weaker C : weaker calm C.
Proof. by split. Qed.
Lemma writes_weaker C : c_log C -> weaker writes C.
Proof. by split. Qed.
Lemma weaker_anything C : weaker C anything.
Proof. by split. Qed.
Lemma leads_weaker P C : c_log C -> (forall t, P -> c_leader C t) -> weaker (leads P) C.
Proof. intros Hl HP. by split; [exact HP|..]. Qed.

(** The entries stay, and append messages copy them. *)
Definition still s s' : Prop := (log_ok (raft_log (r s)) -> view (raft_log (r s')) = view (raft_log (r s))) /\
  copied (r s) (msgs s) (msgs s').

(** The node has voted for itself. *)
Definition runs s : Prop := state (r s) = Candidate \/ state (r s) = Leader.

Record evolve C s s' : Prop := {
  e_id : id (r s') = id (r s);
  e_min : min_election_timeout (r s') = min_election_timeout (r s);
  e_max : max_election_timeout (r s') = max_election_timeout (r s);
  e_rand : randomized_election_timeout (r s') = randomized_election_timeout (r s) \/
           min_election_timeout (r s) <= randomized_election_timeout (r s') < max_election_timeout (r s);
  e_term : term (r s) <= term (r s');
  e_vote : term (r s') = term (r s) -> vote (r s) = INVALID_ID \/ vote (r s') = vote (r s);
  e_leader : state (r s') = Leader -> (state (r s) = Leader /\ term (r s') = term (r s)) \/ c_leader C (term (r s'));
  e_runs : runs s' -> id (r s) = INVALID_ID \/ vote (r s') = id (r s) \/ (runs s /\ term (r s') = term (r s));
  e_votes : state (r s') = Candidate -> forall v, ProgressTracker.votes (prs s') !! v = Some true ->
    v = id (r s) \/ c_vote C v (term (r s')) \/
    (state (r s) = Candidate /\ term (r s') = term (r s) /\ ProgressTracker.votes (prs s) !! v = Some true);
  e_grants : c_grant C \/ no_grants (msgs s) (msgs s');
  e_office : runs s' -> (runs s /\ term (r s') = term (r s) /\ (state (r s') = Candidate -> state (r s) = Candidate)) \/
    term (r s) < term (r s');
  e_batch : batch_append (r s') = batch_append (r s);
  e_still : c_log C \/ still s s';
  e_stored : c_store C \/ stored (raft_log (r s)) (raft_log (r s'));
  e_log : log_run (raft_log (r s)) (raft_log (r s'))
}.

#[export] Instance evolve_preorder C : PreOrder (evolve C).
Proof.
  split.
  - intros s. split; auto; evolve_field.
  - intros s s' s'' [I1 Mi1 Ma1 R1 T1 V1 L1 U1 W1 G1 F1 B1 S1 K1 O1] [I2 Mi2 Ma2 R2 T2 V2 L2 U2 W2 G2 F2 B2 S2 K2 O2]. split; try congruence.
    + destruct R2 as [->|R2]; [done|]. right. by rewrite <-Mi1, <-Ma1.
    + lia.
    + intros E. assert (term (r s') = term (r s)) as E1 by lia. rewrite <-E1 in E.
      destruct (V1 E1) as [|<-]; [by left|]. destruct (V2 E) as [|]; auto.
    + intros E. destruct (L2 E) as [[El Et]|]; [|by right]. destruct (L1 El) as [[? ?]|Hc]; [left; split; congruence|].
      right. by rewrite Et.
    + intros E. rewrite <-I1. destruct (U2 E) as [?|[?|[E1 Et]]]; [by left|by right; left|].
      destruct (U1 E1) as [?|[Hv|[? ?]]]; [left; congruence| |right; right; split; [done|congruence]].
      destruct (V2 Et) as [Hz|Hv2]; [left|right; left]; congruence.
    + intros E v Hv. rewrite <-I1. destruct (W2 E v Hv) as [?|[?|(E1 & Et & Hv1)]]; [by left|by right; left|].
      rewrite Et, I1. destruct (W1 E1 v Hv1) as [?|[?|(? & ? & ?)]]; [by left|by right; left|right; right].
      split_and!; [done|congruence|done].
    + destruct G1 as [?|G1]; [by left|]. destruct G2 as [?|G2]; [by left|]. right. by etrans.
    + intros E. destruct (F2 E) as [(E1 & Et & Ec)|]; [|right; lia]. destruct (F1 E1) as [(? & ? & ?)|]; [left|right; lia].
      split_and!; [done|congruence|auto].
    + destruct S1 as [?|[Sv1 Sc1]]; [by left|]. destruct S2 as [?|[Sv2 Sc2]]; [by left|]. right. split.
      * intros Hok. rewrite Sv2, Sv1 by (done || by apply O1). done.
      * eapply copied_trans; [|done..]. intros Hok. split; [by apply O1|auto].
    + destruct K1 as [?|K1]; [by left|]. destruct K2 as [?|K2]; [by left|]. right. by eapply stored_trans.
    + by etrans.
Qed.

Lemma evolve_mono C D s s' : weaker C D -> evolve C s s' -> evolve D s s'.
Proof.
  intros [W1 W2 W3 W4 W5] [? ? ? ? ? ? Hl ? Hv Hg ? ? Hs Hk ?]. split; try assumption.
  - intros E. destruct (Hl E) as [?|?]; auto.
  - intros E v Ev. destruct (Hv E v Ev) as [?|[?|?]]; auto.
  - destruct Hg; auto.
  - destruct Hs; auto.
  - destruct Hk; auto.
Qed.

Lemma quiet_evolve C s s' : quiet s s' -> evolve C s s'.
Proof.
  intros []. unfold runs. split; unfold runs; rewrite ?q_term0, ?q_state0, ?q_votes0, ?q_vote0; auto; try lia.
  - right. split; [intros Hok; by apply reads_view|done].
  - right. by apply reads_stored.
  - by apply reads_run.
Qed.

Lemma quiet_pres C {A} (m : Prog (Raft.t T) A) : pres quiet m -> pres (evolve C) m.
Proof. apply pres_mono. intros s s'. apply quiet_evolve. Qed.

Lemma calm_evolve C s s' : evolve calm s s' -> evolve C s s'.
Proof. apply evolve_mono, calm_weaker. Qed.
Lemma evolve_pres C {A} (m : Prog (Raft.t T) A) : pres (evolve calm) m -> pres (evolve C) m.
Proof. apply pres_mono. intros s s'. apply calm_evolve. Qed.

Lemma writes_evolve C s s' : c_log C -> evolve writes s s' -> evolve C s s'.
Proof. intros Hl. by apply evolve_mono, writes_weaker. Qed.
Lemma writes_pres C {A} (m : Prog (Raft.t T) A) : c_log C -> pres (evolve writes) m -> pres (evolve C) m.
Proof. intros Hl. apply pres_mono. intros s s'. by apply writes_evolve. Qed.

Lemma on_log_pres C {A} (m : Prog (RaftLog.t T) A) : pres moves m -> pres (evolve C) (on_log m).
Proof. intros Hm. eapply pres_zoom; [exact Hm|]. intros s l [[Hl Hk] Hv]. split; fields; try evolve_field; auto. Qed.
Lemma on_log_writes C {A} (m : Prog (RaftLog.t T) A) : c_log C -> pres log_writes m -> pres (evolve C) (on_log m).
Proof. intros HC Hm. eapply pres_zoom; [exact Hm|]. intros s l [Hl Hk]. split; fields; try evolve_field; auto. Qed.

Lemma tracker_evolve C s p : votes_taken (prs s) p -> evolve C s (s <| prs := p |>).
Proof. intros Hp. split; fields; try evolve_field. intros E v Hv. right. right. auto. Qed.
Lemma on_tracker_pres C {A} (m : Prog ProgressTracker.t A) : pres votes_taken m ->
  pres (evolve C) (zoom prs (fun p (s : Raft.t T) => s <| prs := p |>) m).
Proof. intros Hm s a s' (u & E & ->)%zoom_inv. by eapply tracker_evolve, Hm. Qed.
Lemma on_prs_pres C f : (forall p, votes_taken p (f p)) -> pres (evolve C) (on_prs (T:=T) f).
Proof. intros Hf. unfold on_prs. apply pres_modify. intros s. by apply tracker_evolve. Qed.
Hint Resolve quiet_pres on_log_pres on_log_writes on_tracker_pres on_prs_pres | 2 : frame.
Hint Extern 1 (c_log _) => exact I : frame.
Hint Extern 3 (pres (evolve writes) _) => apply evolve_pres : frame.
Hint Extern 1 (evolve _ _ _) => solve [evolve_tac] : frame.

Lemma maybe_commit_pres : pres (evolve calm) (maybe_commit (T:=T)).
Proof. unfold maybe_commit. frame. Qed.
Hint Resolve maybe_commit_pres : frame.
Lemma handle_append_response_pres m : pres (evolve calm) (handle_append_response (T:=T) m).
Proof. unfold handle_append_response, send_timeout_now. frame. Qed.
Lemma post_conf_change_pres : pres (evolve calm) (post_conf_change (T:=T)).
Proof. unfold post_conf_change. frame. Qed.
Lemma post_conf_change_idle s cs s' : state (r s) <> Leader -> post_conf_change s = Ret (cs, s') ->
  cs = Configuration.to_conf_state (ProgressTracker.conf (prs s)) /\
  s' = s <| r := (r s) <| promotable := is_voter s (id (r s)) |> |>.
Proof.
  intros Hs. unfold post_conf_change. intros (s0 & ? & [-> ->]%get_inv & E)%bind_inv. cbv zeta in E.
  apply bind_inv in E as (u & s1 & ->%modify_inv & E). rewrite (bool_decide_eq_false_2 _ Hs), andb_false_r in E.
  by apply ret_inv in E as [<- <-].
Qed.

Lemma handle_heartbeat_pres m : pres (evolve calm) (handle_heartbeat (T:=T) m).
Proof. unfold handle_heartbeat. frame. Qed.
Hint Resolve post_conf_change_pres : frame.
Lemma apply_conf_change_pres cc : pres (evolve calm) (apply_conf_change (T:=T) cc).
Proof. unfold apply_conf_change. frame. Qed.
Lemma on_persist_entries_pres i t : pres (evolve calm) (on_persist_entries (T:=T) i t).
Proof. unfold on_persist_entries. frame. Qed.
Lemma on_persist_snap_pres i : pres (evolve calm) (on_persist_snap (T:=T) i).
Proof. unfold on_persist_snap. frame. Qed.
Hint Resolve handle_append_response_pres handle_heartbeat_pres apply_conf_change_pres
  on_persist_entries_pres on_persist_snap_pres : frame.

(** ** Changes of the role *)

(** What [reset] leaves and what it sets. *)
Record was_reset s (t : Z) s' : Prop := {
  wr_term : term (r s') = t;
  wr_vote : vote (r s') = if term (r s) =? t then vote (r s) else INVALID_ID;
  wr_id : id (r s') = id (r s);
  wr_min : min_election_timeout (r s') = min_election_timeout (r s);
  wr_max : max_election_timeout (r s') = max_election_timeout (r s);
  wr_rand : min_election_timeout (r s) <= randomized_election_timeout (r s') < max_election_timeout (r s);
  wr_state : state (r s') = state (r s);
  wr_promotable : promotable (r s') = promotable (r s);
  wr_leader : leader_id (r s') = INVALID_ID;
  wr_elapsed : election_elapsed (r s') = 0;
  wr_log : raft_log (r s') = raft_log (r s);
  wr_conf : ProgressTracker.conf (prs s') = ProgressTracker.conf (prs s);
  wr_votes : ProgressTracker.votes (prs s') = ∅;
  wr_msgs : msgs s' = msgs s;
  wr_priority : priority (r s') = priority (r s);
  wr_batch : batch_append (r s') = batch_append (r s)
}.

Lemma reset_inv t s u s' : reset t s = Ret (u, s') -> was_reset s t s'.
Proof.
  unfold reset, reset_randomized_election_timeout, abort_leader_transfer, on_prs, ask_log. intros E.
  prog_inv.
  all: match goal with Hn : negb _ = ?b |- _ => apply (f_equal negb) in Hn; rewrite negb_involutive in Hn; simpl in Hn; rename Hn into Et end.
  all: assert (min_election_timeout (r s) < max_election_timeout (r s)) as Hlt
    by (match goal with Hc : (_ <=? _) = false |- _ => apply Z.leb_gt in Hc; exact Hc end).
  all: pose proof (gen_range_bounds _ _ (draws s) Hlt) as Hr; split; try reflexivity; try exact Hr.
  all: first [by rewrite Et | by apply Z.eqb_eq in Et].
Qed.

Lemma become_follower_inv t l s u s' : become_follower t l s = Ret (u, s') ->
  exists s1, was_reset s t s1 /\ s' = s1 <| r := (r s1) <| leader_id := l |> <| state := Follower |>
    <| pending_request_snapshot := pending_request_snapshot (r s) |> |>.
Proof.
  unfold become_follower. intros E. prog_inv.
  match goal with Hr : reset _ _ = _ |- _ => apply reset_inv in Hr end. by eexists.
Qed.

Lemma reset_evolve C s t s1 s' : was_reset s t s1 -> term (r s) <= t ->
  id (r s') = id (r s1) -> min_election_timeout (r s') = min_election_timeout (r s1) ->
  max_election_timeout (r s') = max_election_timeout (r s1) ->
  randomized_election_timeout (r s') = randomized_election_timeout (r s1) -> term (r s') = t ->
  (t = term (r s) -> vote (r s') = vote (r s1)) -> (state (r s') = Leader -> c_leader C t) ->
  (runs s' -> vote (r s') = id (r s) \/ (runs s /\ t = term (r s))) ->
  (runs s' -> (runs s /\ state (r s') = Leader /\ t = term (r s)) \/ term (r s) < t) ->
  ProgressTracker.votes (prs s') = ∅ -> msgs s' = msgs s1 -> batch_append (r s') = batch_append (r s1) ->
  raft_log (r s') = raft_log (r s1) -> evolve C s s'.
Proof.
  intros [] Ht Hid Hmin Hmax Hrand Hterm Hvote Hstate Hruns Hoffice Hvotes Hmsgs Hbatch Hlog. split; try congruence.
  - right. by rewrite Hrand.
  - intros E. right. rewrite Hvote by congruence. rewrite wr_vote0.
    by rewrite (proj2 (Z.eqb_eq _ _)) by congruence.
  - intros E. right. rewrite Hterm. auto.
  - intros E. right. rewrite Hterm. auto.
  - intros _ v. by rewrite Hvotes, lookup_empty.
  - right. by rewrite Hmsgs, wr_msgs0.
  - rewrite Hterm. intros E. destruct (Hoffice E) as [(? & ? & ->)|?]; [left|by right]. split_and!; [done..|congruence].
  - right. unfold still. by rewrite Hlog, wr_log0, Hmsgs, wr_msgs0.
  - right. by rewrite Hlog, wr_log0.
  - by rewrite Hlog, wr_log0.
Qed.

Lemma become_follower_evolve C t l s u s' : term (r s) <= t -> become_follower t l s = Ret (u, s') ->
  evolve C s s' /\ term (r s') = t /\ state (r s') = Follower /\ raft_log (r s') = raft_log (r s) /\
  ProgressTracker.conf (prs s') = ProgressTracker.conf (prs s) /\ id (r s') = id (r s).
Proof.
  intros Ht (s1 & Hr & ->)%become_follower_inv.
  split; [eapply reset_evolve; [exact Hr|exact Ht|..]; fields; auto; [apply Hr|done|by intros []|by intros []|apply Hr]|].
  destruct Hr. by split_and!.
Qed.

Lemma become_candidate_evolve C s u s' : is_u64 (term (r s)) -> term (r s) < u64_MAX ->
  become_candidate s = Ret (u, s') ->
  evolve C s s' /\ term (r s') = term (r s) + 1 /\ state (r s') = Candidate /\ raft_log (r s') = raft_log (r s) /\
  ProgressTracker.conf (prs s') = ProgressTracker.conf (prs s) /\ id (r s') = id (r s) /\
  vote (r s') = id (r s) /\ ProgressTracker.votes (prs s') = ∅.
Proof.
  intros Hu Ht. unfold become_candidate. intros E. prog_inv.
  match goal with Hr : reset _ _ = _ |- _ => apply reset_inv in Hr; rename Hr into Hr0 end.
  rewrite u64_add_small in Hr0 by u64_lia.
  split; [eapply reset_evolve; [exact Hr0|..]; fields; auto; try lia; [apply Hr0|done|apply Hr0]|].
  destruct Hr0. fields. by split_and!.
Qed.

Lemma become_pre_candidate_evolve C s u s' : become_pre_candidate s = Ret (u, s') ->
  evolve C s s' /\ term (r s') = term (r s) /\ state (r s') = PreCandidate /\ raft_log (r s') = raft_log (r s) /\
  ProgressTracker.conf (prs s') = ProgressTracker.conf (prs s) /\ id (r s') = id (r s) /\
  ProgressTracker.votes (prs s') = ∅.
Proof.
  unfold become_pre_candidate, on_prs. intros E. prog_inv.
  split; [evolve_tac|]. by split_and!.
Qed.

(** ** New entries of a leader *)

Lemma stamp_contiguous t li (es : list Entry.t) : 0 <= li -> li + len es < u64_MAX ->
  ALog.contiguous (li + 1) (stamp t li es).
Proof.
  intros Hli. unfold stamp. cut (forall n, li + n + len es < u64_MAX -> 0 <= n ->
    ALog.contiguous (li + n + 1)
      (imap (fun i e => e <| Entry.term := t |> <| Entry.index := li +w 1 +w (n + Z.of_nat i) |>) es)).
  { intros Hc Hb. specialize (Hc 0 ltac:(lia) ltac:(lia)). rewrite Z.add_0_r in Hc. exact Hc. }
  induction es as [|e es IH]; intros n Hb Hn; [done|]. rewrite len_cons in Hb. pose proof (len_nonneg es).
  rewrite imap_cons. split.
  - fields. rewrite Nat2Z.inj_0, (u64_add_small li), u64_add_small by u64_lia. lia.
  - replace (li + n + 1 + 1) with (li + (n + 1) + 1) by lia. erewrite imap_ext; [apply (IH (n + 1)); lia|].
    intros i x _. simpl. by replace (n + Z.of_nat (S i)) with (n + 1 + Z.of_nat i) by lia.
Qed.

(** A well-formed log with room for [n] more entries. *)
Definition room (n : Z) s : Prop :=
  log_ok (raft_log (r s)) /\ ALog.last (view (raft_log (r s))) + n < u64_MAX.

Lemma room_reads n s s' : room n s -> reads (raft_log (r s)) (raft_log (r s')) -> room n s'.
Proof.
  intros [Hok Hr] Hq. specialize (Hq Hok). split; [by eapply same_log_ok|]. by rewrite (same_log_view _ _ Hq).
Qed.

Lemma room_log n s s' : room n s -> raft_log (r s') = raft_log (r s) -> room n s'.
Proof. unfold room. by intros Hr ->. Qed.

Lemma append_entry_evolve C es s b s' : c_log C -> append_entry es s = Ret (b, s') ->
  room (len es) s -> evolve C s s' /\
  term (r s') = term (r s) /\ vote (r s') = vote (r s) /\ state (r s') = state (r s) /\ id (r s') = id (r s) /\
  ProgressTracker.conf (prs s') = ProgressTracker.conf (prs s).
Proof.
  unfold append_entry, maybe_increase_uncommitted_size, on_log, ask_log. intros HC E Hb. prog_inv.
  { split; [|done]. evolve_tac. }
  split; [|done]. destruct Hb as [Hok Hb].
  match goal with |- evolve _ _ (_ <| r := _ <| raft_log := ?l |> |>) =>
    cut (log_writes (raft_log (r s)) l); [intros [Hw Hk]; split; fields; try evolve_field; auto|] end.
  match goal with El : RaftLog.last_index _ = Ret ?y |- _ => rewrite last_index_run in El by done; injection El as <- end.
  set (li := ALog.last (view (raft_log (r s)))) in *.
  assert (0 <= li) as Hli. { pose proof (view_bounds _ Hok). pose proof (lo_committed _ Hok). lia. }
  pose proof (stamp_contiguous (term (r s)) li es Hli Hb) as Hc.
  match goal with Ea : RaftLog.append _ _ = Ret _ |- _ => rename Ea into Happ end.
  destruct es as [|e es].
  { change (stamp (term (r s)) li []) with (@nil Entry.t) in Happ. apply asks_inv in Happ as [_ ->]. by split. }
  assert (len (stamp (term (r s)) li (e :: es)) = len (e :: es)) as Hlen.
  { unfold stamp, len. by rewrite length_imap. }
  destruct (stamp (term (r s)) li (e :: es)) as [|e' es']; [rewrite len_nil, len_cons in Hlen; pose proof (len_nonneg es); lia|].
  destruct Hc as [Hi Hc]. pose proof (lo_committed _ Hok). pose proof (lo_persisted _ Hok). pose proof (view_bounds _ Hok).
  subst li. apply log_writes_step; [|unfold RaftLog.append in Happ; by prog_inv].
  eapply step_append; [|rewrite Hi; lia|exact Happ].
  split; [done|split; [done|by rewrite Hi]|rewrite Hi; lia|rewrite Hi; lia].
Qed.

(** The leader of the term first writes an empty entry. *)
Lemma become_leader_inv s u s' : state (r s) = Candidate -> become_leader s = Ret (u, s') ->
  exists s1 b, append_entry [Entry.default] s1 = Ret (b, s') /\ (forall C, c_leader C (term (r s)) -> evolve C s s1) /\
    still s s1 /\ reads (raft_log (r s)) (raft_log (r s1)) /\ term (r s1) = term (r s) /\ state (r s1) = Leader /\
    id (r s1) = id (r s) /\ ProgressTracker.conf (prs s1) = ProgressTracker.conf (prs s).
Proof.
  intros Hst. unfold become_leader, ask_log. intros E. prog_inv.
  match goal with Hr : reset _ _ = _, Ho : on_progress _ _ ?a = Ret (_, ?b), Ha : append_entry _ ?c = _ |- _ =>
    apply reset_inv in Hr; apply on_progress_pres in Ho; rename Hr into Hreset; rename Ha into Happ;
    assert (quiet a c) as Hq by (destruct Ho; by split); clear Ho; set (s1 := a) in *; exists c
  end.
  assert (raft_log (r s1) = raft_log (r s) /\ term (r s1) = term (r s) /\ state (r s1) = Leader /\ id (r s1) = id (r s) /\
    ProgressTracker.conf (prs s1) = ProgressTracker.conf (prs s)) as (Hlog & Ht & Hs & Hi & Hc)
    by (split_and!; [apply Hreset|apply Hreset|done|apply Hreset|apply Hreset]).
  assert (forall C, c_leader C (term (r s)) -> evolve C s s1) as Hev.
  { intros C HC. eapply reset_evolve; [exact Hreset|lia|..]; try reflexivity;
      [apply Hreset|by intros _|by right; split; [left|]|by left; split_and!; [left|..]|apply Hreset]. }
  assert (still s s1) as Hstill by (split; [by rewrite Hlog|unfold s1; fields; by rewrite (wr_msgs _ _ _ Hreset)]).
  clearbody s1. eexists. split; [exact Happ|]. split; [intros C HC; etrans; [by apply Hev|by apply quiet_evolve]|].
  rewrite (q_term _ _ Hq), (q_state _ _ Hq), (q_id _ _ Hq), (q_conf _ _ Hq). split; [|split; [rewrite <-Hlog; apply Hq|done]].
  destruct Hstill as [Hv Hm]. split.
  - intros Hok. rewrite <-Hv by done. apply reads_view; [apply Hq|by rewrite Hlog].
  - eapply copied_trans; [|by apply (e_batch _ _ _ (Hev anything Logic.I))|done|apply Hq]. by rewrite Hlog.
Qed.

Lemma become_leader_evolve C s u s' : c_log C -> c_leader C (term (r s)) -> state (r s) = Candidate -> room 1 s ->
  become_leader s = Ret (u, s') ->
  evolve C s s' /\ term (r s') = term (r s) /\ state (r s') = Leader /\ id (r s') = id (r s) /\
  ProgressTracker.conf (prs s') = ProgressTracker.conf (prs s).
Proof.
  intros Hw HC Hst Hb (s1 & b & Ea & Hev & _ & Hr & Ht & Hs & Hi & Hc)%become_leader_inv; [|done].
  apply (append_entry_evolve C) in Ea as (Hev' & Ht' & _ & Hs' & Hi' & Hc'); [|done|by eapply room_reads].
  split; [etrans; [by apply Hev|done]|]. rewrite Ht', Hs', Hi', Hc'. done.
Qed.

(** ** Elections *)

(** The votes win under a configuration. *)
Definition won (c : Configuration.t) (votes : gmap Z bool) : Prop :=
  Joint.vote_result (Configuration.voters c) (fun i => votes !! i) = Won.
Definition own_vote_wins s : Prop := won (ProgressTracker.conf (prs s)) {[ id (r s) := true ]}.
Definition recorded_wins s (from : Z) (v : bool) : Prop :=
  won (ProgressTracker.conf (prs s)) (ProgressTracker.votes (ProgressTracker.record_vote from v (prs s))).

Lemma record_vote_conf from v p : ProgressTracker.conf (ProgressTracker.record_vote from v p) = ProgressTracker.conf p.
Proof. unfold ProgressTracker.record_vote. by destruct (_ !! _). Qed.

(** A node that may still count its term up. *)
Definition fresh s : Prop := is_u64 (term (r s)) /\ term (r s) < u64_MAX.

(** What a vote that is counted may bring about: a candidate wins its election, a
    pre-candidate one in which its own vote decides. *)
Definition poll_cause s (from : Z) (v : bool) : cause := Cause
  (fun t => (state (r s) = Candidate /\ t = term (r s) /\ recorded_wins s from v) \/ own_vote_wins s)
  (fun i t => i = from /\ v = true /\ state (r s) = Candidate /\ t = term (r s)) False True False.

Lemma record_vote_evolve s from v : state (r s) = Candidate \/ state (r s) = PreCandidate ->
  evolve (poll_cause s from v) s (s <| prs := ProgressTracker.record_vote from v (prs s) |>).
Proof.
  intros Hst. split; fields; try evolve_field. intros Hc w. unfold ProgressTracker.record_vote.
  destruct (ProgressTracker.votes (prs s) !! from); [by intros; right; right|]. fields.
  rewrite lookup_insert. case_decide as Hw; [|by intros; right; right].
  subst w. intros [= ->]. right. left. by split_and!.
Qed.

(** What a poll does once the vote is recorded. *)
Lemma poll_with_inv c from t v s res s' : poll_with c from t v s = Ret (res, s') ->
  let s1 := s <| prs := ProgressTracker.record_vote from v (prs s) |> in
  s' = s1 \/
  (exists u, become_follower (term (r s)) INVALID_ID s1 = Ret (u, s')) \/
  (exists u, state (r s) = PreCandidate /\ c CAMPAIGN_ELECTION s1 = Ret (u, s')) \/
  (exists u s2 u', state (r s) <> PreCandidate /\ recorded_wins s from v /\
    become_leader s1 = Ret (u, s2) /\ bcast_append s2 = Ret (u', s')).
Proof.
  unfold poll_with. intros (u1 & s1 & ->%modify_inv & E)%bind_inv. cbv zeta. set (s1 := s <| prs := _ |>) in *.
  apply bind_inv in E as (s1' & s2 & [-> ->]%get_inv & E). unfold ProgressTracker.tally_votes in E. cbv beta iota zeta in E.
  destruct (ProgressTracker.vote_result _ _) eqn:Ev; apply bind_inv in E as (u & s3 & E & [<- <-]%ret_inv).
  - apply ret_inv in E as [_ <-]. by left.
  - right. left. by exists u.
  - right. right. destruct (bool_decide (state (r s1) = PreCandidate)) eqn:Es.
    + apply bool_decide_eq_true in Es. left. by exists u.
    + apply bool_decide_eq_false in Es. right. apply bind_inv in E as (u' & s4 & E1 & E2). exists u', s4, u.
      split_and!; [done| |done..]. unfold ProgressTracker.vote_result, s1 in Ev. fields.
      by rewrite record_vote_conf in Ev.
Qed.

Lemma poll_with_evolve c from t v s res s' : state (r s) = Candidate \/ state (r s) = PreCandidate ->
  (state (r s) = PreCandidate -> fresh s) -> room 1 s ->
  (forall s1 u s2, fresh s1 -> room 1 s1 -> c CAMPAIGN_ELECTION s1 = Ret (u, s2) -> evolve (leads (own_vote_wins s1)) s1 s2) ->
  poll_with c from t v s = Ret (res, s') -> evolve (poll_cause s from v) s s'.
Proof.
  intros Hst Hf Hroom Hc E%poll_with_inv. cbv zeta in E. pose proof (record_vote_evolve s from v Hst) as Hrec.
  set (s1 := s <| prs := _ |>) in *. etrans; [exact Hrec|].
  destruct E as [->|[(u & E)|[(u & Hp & E)|(u & s2 & u' & Hp & Hw & E1 & E2)]]].
  - done.
  - apply (become_follower_evolve (poll_cause s from v)) in E; [by apply E|done].
  - eapply evolve_mono; [|by eapply Hc; [apply Hf| |exact E]].
    apply leads_weaker; [done|]. intros t'. unfold own_vote_wins, s1. fields. rewrite record_vote_conf. by right.
  - assert (state (r s) = Candidate) as Hcand by by destruct Hst.
    apply (become_leader_evolve (poll_cause s from v)) in E1 as (E1 & _); [|done|by left|done..].
    etrans; [exact E1|]. apply quiet_evolve. by eapply bcast_append_pres.
Qed.

Lemma recorded_own_vote s s1 : ProgressTracker.votes (prs s1) = ∅ ->
  ProgressTracker.conf (prs s1) = ProgressTracker.conf (prs s) -> id (r s1) = id (r s) ->
  recorded_wins s1 (id (r s1)) true -> own_vote_wins s.
Proof.
  intros Hv Hc Hi. unfold recorded_wins, own_vote_wins, ProgressTracker.record_vote. rewrite Hv, lookup_empty. fields.
  by rewrite Hc, Hi.
Qed.

(** After the poll a campaign only sends messages. *)
Lemma campaign_tail_pres (b : bool) ty vt t : vt <> MsgRequestVoteResponse -> vt <> MsgAppend -> pres quiet
  (if b then mret tt
   else
     c ← ask_log (T:=T) RaftLog.commit_info;
     let '(commit, commit_term) := c in
     self ← get;
     for_each (request_vote ty vt t commit commit_term)
       (Union.iter (Joint.ids (Configuration.voters (ProgressTracker.conf (prs self)))))).
Proof. intros Hvt Ha. frame. Qed.

(** What a poll of the own vote brings about. *)
Lemma own_poll_evolve s s1 s' : ProgressTracker.votes (prs s1) = ∅ ->
  ProgressTracker.conf (prs s1) = ProgressTracker.conf (prs s) -> id (r s1) = id (r s) ->
  evolve (poll_cause s1 (id (r s1)) true) s1 s' -> evolve (leads (own_vote_wins s)) s1 s'.
Proof.
  intros Hv Hc Hi [? ? ? ? ? ? Hl ? Hvotes Hg ? ? ? ?]. split; try assumption.
  - intros E. destruct (Hl E) as [?|[(_ & _ & ?)|Hw]]; [by left|right; by eapply recorded_own_vote|right].
    revert Hw. simpl. unfold own_vote_wins. by rewrite Hc, Hi.
  - intros E w Hw. destruct (Hvotes E w Hw) as [?|[(? & _)|?]]; [by left|by left|by right; right].
Qed.

(** A campaign is a change of the role, a poll of the own vote, and messages. *)
Lemma campaign_inv fuel ty s u s' : campaign (S fuel) ty s = Ret (u, s') ->
  exists vt s1 u1 res s2, (if bool_decide (ty = CAMPAIGN_PRE_ELECTION) then become_pre_candidate else become_candidate) s = Ret (u1, s1) /\
    poll_with (campaign fuel) (id (r s1)) vt true s1 = Ret (res, s2) /\ quiet s2 s'.
Proof.
  cbn [campaign]. intros ([vt t] & s1 & E1 & E)%bind_inv.
  assert (Hv : vt <> MsgRequestVoteResponse /\ vt <> MsgAppend /\ exists u1,
    (if bool_decide (ty = CAMPAIGN_PRE_ELECTION) then become_pre_candidate else become_candidate) s = Ret (u1, s1)).
  { destruct (bool_decide _); apply bind_inv in E1 as (u1 & s1' & Eb & E1);
      apply bind_inv in E1 as (s1'' & ? & [-> ->]%get_inv & [[= <- <-] <-]%ret_inv); by split_and!; [..|exists u1]. }
  destruct Hv as (Hv1 & Hv2 & u1 & Eb). exists vt, s1, u1. apply bind_inv in E as (s2 & ? & [-> ->]%get_inv & E).
  apply bind_inv in E as (res & s3 & Ep & E). exists res, s3. split_and!; [done..|]. by eapply campaign_tail_pres.
Qed.

(** A campaign that is not a pre-election. *)
Lemma campaign_election_evolve fuel ty s u s' : ty <> CAMPAIGN_PRE_ELECTION -> fresh s -> room 1 s ->
  campaign fuel ty s = Ret (u, s') -> evolve (leads (own_vote_wins s)) s s'.
Proof.
  revert ty s u s'. induction fuel as [|fuel IH]; intros ty s u s' Hty Hf Hroom; [done|].
  intros (vt & s1 & u1 & res & s2 & Eb & Ep & Hq)%campaign_inv. rewrite bool_decide_eq_false_2 in Eb by done. destruct Hf as [Hu Ht].
  apply (become_candidate_evolve (leads (own_vote_wins s))) in Eb as (Hev & Hterm & Hst & Hlog & Hconf & Hid & _ & Hvotes); [|done..].
  etrans; [exact Hev|]. etrans; [|by apply quiet_evolve].
  eapply own_poll_evolve, poll_with_evolve; [done..|by left|congruence|by eapply room_log| |exact Ep].
  intros ?????. by apply IH.
Qed.

Lemma campaign_evolve fuel ty s u s' : fresh s -> room 1 s ->
  campaign fuel ty s = Ret (u, s') -> evolve (leads (own_vote_wins s)) s s'.
Proof.
  intros Hf Hroom. destruct (decide (ty = CAMPAIGN_PRE_ELECTION)) as [Hty|]; [|by apply campaign_election_evolve].
  destruct fuel as [|fuel]; [done|]. intros (vt & s1 & u1 & res & s2 & Eb & Ep & Hq)%campaign_inv.
  rewrite bool_decide_eq_true_2 in Eb by done.
  apply (become_pre_candidate_evolve (leads (own_vote_wins s))) in Eb as (Hev & Hterm & Hst & Hlog & Hconf & Hid & Hvotes).
  etrans; [exact Hev|]. etrans; [|by apply quiet_evolve].
  eapply own_poll_evolve, poll_with_evolve; [done..|by right| |by eapply room_log| |exact Ep].
  - intros _. unfold fresh. by rewrite Hterm.
  - intros ?????. by apply campaign_election_evolve.
Qed.

Lemma poll_evolve from t v s res s' : state (r s) = Candidate \/ state (r s) = PreCandidate ->
  (state (r s) = PreCandidate -> fresh s) -> room 1 s ->
  poll from t v s = Ret (res, s') -> evolve (poll_cause s from v) s s'.
Proof. intros Hst Hf Hroom. apply poll_with_evolve; [done..|]. intros ?????. by apply campaign_election_evolve. Qed.

(** [hup] reads the log and may start a campaign. *)
Lemma hup_inv b s u s' : hup b s = Ret (u, s') ->
  exists s1, quiet s s1 /\ (s' = s1 \/ exists ty, campaign campaign_fuel ty s1 = Ret (u, s')).
Proof.
  unfold hup. intros (s0 & ? & [-> ->]%get_inv & E)%bind_inv.
  destruct (bool_decide _); [apply ret_inv in E as [_ <-]; exists s; by split; [|left]|]. cbv zeta in E.
  apply bind_inv in E as (x & s1 & Es & E). apply (reading_pres _ (slice_pres _ _ _ _)) in Es.
  apply bind_inv in E as (ents & s2 & [_ ->]%lift_inv & E). exists s1. split; [done|].
  repeat case_match; try (apply ret_inv in E as [_ <-]; by left). all: right; by eexists.
Qed.

Lemma hup_evolve b s u s' : fresh s -> room 1 s -> hup b s = Ret (u, s') -> evolve (leads (own_vote_wins s)) s s'.
Proof.
  intros Hf Hroom (s1 & Es & E)%hup_inv. etrans; [by apply quiet_evolve|]. destruct E as [->|[ty E]]; [done|].
  eapply evolve_mono; [apply (leads_weaker (own_vote_wins s1)); [done|]|].
  - intros t. simpl. unfold own_vote_wins. by rewrite (q_conf _ _ Es), (q_id _ _ Es).
  - eapply campaign_evolve; [unfold fresh; by rewrite (q_term _ _ Es)|eapply room_reads; [done|apply Es]|done].
Qed.

Lemma maybe_commit_by_vote_evolve m s u s' : maybe_commit_by_vote m s = Ret (u, s') -> evolve calm s s'.
Proof.
  unfold maybe_commit_by_vote. destruct (_ || _); [by intros [_ ->]%ret_inv|].
  intros (s0 & ? & [-> ->]%get_inv & E)%bind_inv. cbv zeta in E.
  destruct (_ || _); [by apply ret_inv in E as [_ <-]|].
  apply bind_inv in E as (b & s1 & Ec & E). apply (on_log_pres calm _ (log_maybe_commit_pres _ _)) in Ec.
  etrans; [exact Ec|].
  repeat (case_match; [by apply ret_inv in E as [_ <-]|]).
  apply bind_inv in E as (l & s2 & [_ ->]%gets_inv & E).
  apply bind_inv in E as (x & s3 & Es & E). apply (reading_pres _ (slice_pres _ _ _ _)) in Es.
  etrans; [by eapply quiet_evolve|]. apply bind_inv in E as (ents & s4 & [_ ->]%lift_inv & E).
  case_match; [|by apply ret_inv in E as [_ <-]].
  apply bind_inv in E as (s5 & ? & [-> ->]%get_inv & E). by apply (become_follower_evolve calm) in E as [E _].
Qed.

(** ** Messages *)

(** What a node relies on in a message: terms and positions are machine words and
    not exhausted, entries continue the position of the message, and only the
    position 0 has the term 0. *)
Record wf_msg (m : Message.t) : Prop := {
  wm_term : 0 <= Message.term m < u64_MAX;
  wm_index : 0 <= Message.index m;
  wm_entries : Message.msg_type m = MsgAppend -> ALog.contiguous (Message.index m + 1) (Message.entries m) /\
    Message.index m + len (Message.entries m) < u64_MAX /\
    Forall (fun e => Entry.term e <> 0) (Message.entries m) /\
    (Message.index m = 0 \/ Message.log_term m <> 0);
  wm_snapshot : SnapshotMetadata.index (Snapshot.metadata (Message.snapshot m)) < u64_MAX - 1
}.

(** A message from beyond the log is rejected. *)
Lemma maybe_append_beyond idx t ca es (l : RaftLog.t T) : log_ok l -> ALog.last (view l) < idx -> idx = 0 \/ t <> 0 ->
  RaftLog.maybe_append idx t ca es l = Ret (None, l).
Proof.
  intros Hok Hgt Ht. pose proof (view_bounds _ Hok). pose proof (last_base (view l)).
  unfold RaftLog.maybe_append. erewrite bind_run by (apply asks_run, match_term_run; (done || lia)).
  unfold matches, lterm. rewrite (proj2 (Z.leb_gt idx _)) by lia. rewrite andb_false_r.
  rewrite bool_decide_eq_false_2; [done|]. intros [= Heq]. lia.
Qed.

Lemma maybe_append_pres idx t ca es : 0 <= idx -> ALog.contiguous (idx + 1) es -> idx + len es < u64_MAX ->
  Forall (fun e => Entry.term e <> 0) es -> (idx = 0 \/ t <> 0) ->
  pres log_writes (RaftLog.maybe_append (T:=T) idx t ca es).
Proof.
  intros Hi Hc Hb Hf Ht l a l' E. apply log_writes_ok. intros Hok.
  destruct (Z.le_gt_cases idx (ALog.last (view l))) as [Hle|Hgt].
  - apply log_writes_step; [by eapply (step_maybe_append l idx t ca es)|].
    rewrite maybe_append_run in E by done. unfold accept_append in E. cbv zeta in E. prog_inv; fields; by repeat case_match.
  - rewrite maybe_append_beyond in E by done. injection E as _ <-. by split.
Qed.

Lemma handle_append_entries_evolve m : wf_msg m -> Message.msg_type m = MsgAppend ->
  pres (evolve writes) (handle_append_entries (T:=T) m).
Proof.
  intros Hm Ht. destruct (wm_entries _ Hm Ht) as (Hc & Hb & Hf & Ht'). pose proof (wm_index _ Hm).
  pose proof (maybe_append_pres _ _ (Message.commit m) _ ltac:(done) Hc Hb Hf Ht'). unfold handle_append_entries.
  repeat first
    [ match goal with |- pres _ (mbind ?k (match _ with Some _ => _ | None => _ end)) =>
        apply (pres_bind_post _ (fun x => Message.msg_type x = MsgAppendResponse));
          [frame|intros ? ? ? E; by prog_inv|intros ? ?] end
    | frame_step | progress (eauto with frame nocore) ].
Qed.

Lemma restore_pres snap : SnapshotMetadata.index (Snapshot.metadata snap) < u64_MAX - 1 ->
  pres log_writes (RaftLog.restore (T:=T) snap).
Proof.
  intros Hb l [] l' E. apply log_writes_step; [by eapply step_restore|]. unfold RaftLog.restore in E. by prog_inv.
Qed.

Lemma restore_evolve snap s b s' : SnapshotMetadata.index (Snapshot.metadata snap) < u64_MAX - 1 ->
  state (r s) = Follower -> restore snap s = Ret (b, s') -> evolve writes s s'.
Proof.
  intros Hb Hs. pose proof (restore_pres snap Hb). unfold restore. intros (s0 & ? & [-> ->]%get_inv & E)%bind_inv.
  cbv zeta in E. rewrite Hs in E. call_frame (evolve writes) E.
  rewrite (bool_decide_eq_true_2 (Follower = Follower)) by done. simpl. frame.
Qed.

Lemma handle_snapshot_evolve m s u s' : wf_msg m -> state (r s) = Follower ->
  handle_snapshot m s = Ret (u, s') -> evolve writes s s'.
Proof.
  intros Hm Hs. unfold handle_snapshot. intros (b & s1 & Er & E)%bind_inv.
  apply restore_evolve in Er; [|apply Hm|done]. etrans; [exact Er|]. call_frame (evolve writes) E. frame.
Qed.

Lemma propose_loop_length i es s es' s' : propose_loop (T:=T) i es s = Ret (Ok es', s') -> len es' = len es.
Proof.
  revert i s es' s'. induction es as [|e es IH]; intros i s es' s'; simpl.
  - by intros [[= <-] _]%ret_inv.
  - intros [(cc & s1 & _ & E)|(? & _ & ?)]%try_bind_inv; [|done].
    apply bind_inv in E as (e' & s2 & _ & E). apply try_bind_inv in E as [(l & s3 & El & E)|(? & _ & ?)]; [|done].
    apply ret_inv in E as [[= <-] _]. rewrite !len_cons. f_equal. by eapply IH.
Qed.

Lemma propose_evolve m s x s' : room (len (Message.entries m)) s -> propose m s = Ret (x, s') -> evolve writes s s'.
Proof.
  intros Hr. unfold propose. intros (s0 & ? & [-> ->]%get_inv & E)%bind_inv.
  destruct (bool_decide _); [done|]. destruct (negb _); [by apply ret_inv in E as [_ <-]|].
  destruct (bool_decide _); [by apply ret_inv in E as [_ <-]|].
  apply try_bind_inv in E as [(es & s1 & El & E)|(e & El & _)]; [|apply propose_loop_pres in El; by apply quiet_evolve].
  pose proof (propose_loop_length _ _ _ _ _ El) as Hlen. apply propose_loop_pres in El.
  etrans; [by eapply quiet_evolve|]. apply bind_inv in E as (b & s2 & Ea & E).
  apply (append_entry_evolve writes) in Ea as [Ea _]; [|done|rewrite Hlen; eapply room_reads; [done|apply El]].
  etrans; [exact Ea|]. destruct (negb b); [by apply ret_inv in E as [_ <-]|].
  apply bind_inv in E as (u & s3 & Eb & [_ <-]%ret_inv). by eapply quiet_evolve, bcast_append_pres.
Qed.

(** Nothing happens beyond an answer and the commit index, or a vote of an election is
    granted and recorded. *)
Definition grants_to s (m : Message.t) s' : Prop :=
  Message.msg_type m = MsgRequestVote /\ can_vote s m = true /\ Message.term m <> 0 /\ exists m', filled_in (r s)
    ((new_message (Message.from m) MsgRequestVoteResponse None) <| Message.reject := false |> <| Message.term := Message.term m |>) m' /\
  s' = s <| msgs := msgs s ++ [m'] |> <| r := (r s) <| election_elapsed := 0 |> <| vote := Message.from m |> |>.

Lemma handle_vote_request_inv m s u s' : handle_vote_request m s = Ret (u, s') ->
  evolve calm s s' \/ grants_to s m s'.
Proof.
  unfold handle_vote_request. intros (g & s1 & Eg & E)%bind_inv.
  assert (s1 = s /\ (g = true -> can_vote s m = true)) as [-> Hg].
  { unfold grants_vote in Eg. apply bind_inv in Eg as (s0 & ? & [-> ->]%get_inv & Eg).
    destruct (can_vote s m); simpl in Eg; [|by apply ret_inv in Eg as [<- <-]]. split; [|done].
    unfold ask_log in Eg. by prog_inv. }
  apply bind_inv in E as (ty & s2 & [Ety ->]%lift_inv & E). cbv zeta in E. destruct g.
  - specialize (Hg eq_refl). apply bind_inv in E as (u1 & s3 & Es & E).
    apply when_inv in E as [[Ht E]|[Ht ->]].
    + apply bool_decide_eq_true in Ht. rewrite Ht in Ety. injection Ety as <-.
      apply send_inv in Es as (m' & -> & Hm' & Hs). apply bind_inv in E as (u2 & s4 & ->%modify_inv & ->%modify_inv).
      right. split_and!; [done..|by apply Hs|]. by exists m'.
    + apply bool_decide_eq_false in Ht. left. apply quiet_evolve. eapply send_pres; [|exact Es].
      unfold plain, gives_vote, new_message. fields. split; [intros [-> _]|intros ->]; by destruct (Message.msg_type m).
  - left. apply bind_inv in E as (s3 & ? & [-> ->]%get_inv & E). apply bind_inv in E as (c & s4 & Ec & E).
    apply ask_log_pres in Ec. destruct c as [c ct]. apply bind_inv in E as (u1 & s5 & Es & E).
    apply send_pres in Es; [|unfold plain, gives_vote, new_message; fields; split; [by intros [_ ?]|intros ->; by destruct (Message.msg_type m)]].
    etrans; [by eapply quiet_evolve|]. etrans; [by eapply quiet_evolve|]. by eapply maybe_commit_by_vote_evolve.
Qed.

(** A vote that is granted repeats the vote of the term or is its first. *)
Definition grants (m : Message.t) : cause := Cause (fun _ => False) (fun _ _ => False) (Message.msg_type m = MsgRequestVote) False False.
Lemma handle_vote_request_evolve m s u s' : handle_vote_request m s = Ret (u, s') -> evolve (grants m) s s'.
Proof.
  intros [?|(Ht & Hg & _ & m' & [Hty _] & ->)]%handle_vote_request_inv; [by apply calm_evolve|].
  assert (vote (r s) = INVALID_ID \/ Message.from m = vote (r s)) as Hvote.
  { unfold can_vote in Hg. rewrite Ht in Hg.
    destruct (Z.eqb_spec (vote (r s)) (Message.from m)) as [->|_]; [by right|].
    destruct (Z.eqb_spec (vote (r s)) INVALID_ID) as [->|_]; [by left|done]. }
  split; fields; try first [evolve_field|by intros _]. right. split; [done|]. apply copied_snoc. intros _. by rewrite Hty.
Qed.

(** A granted vote that is counted is one for the term of the node. *)
Definition of_term s (m : Message.t) : Prop :=
  Message.msg_type m = MsgRequestVoteResponse \/ Message.msg_type m = MsgRequestVote ->
  Message.term m = 0 \/ Message.term m = term (r s).

(** Why a message makes a node leader of a term: it is a candidate of the term and the
    message a vote that completes a quorum, or its own vote alone is one. *)
Definition leader_cause s (m : Message.t) (t : Z) : Prop :=
  (Message.msg_type m = MsgRequestVoteResponse /\ state (r s) = Candidate /\ of_term s m /\ t = term (r s) /\
   recorded_wins s (Message.from m) (negb (Message.reject m))) \/ own_vote_wins s.

Definition step_cause s (m : Message.t) : cause := Cause (leader_cause s m)
  (fun i t => gives_vote m /\ i = Message.from m /\ t = term (r s) /\ of_term s m)
  (Message.msg_type m = MsgRequestVote) True False.

Lemma own_step s s1 m : ProgressTracker.conf (prs s1) = ProgressTracker.conf (prs s) -> id (r s1) = id (r s) ->
  weaker (leads (own_vote_wins s1)) (step_cause s m).
Proof. intros Hc Hi. apply leads_weaker; [done|]. intros t. unfold own_vote_wins. rewrite Hc, Hi. by right. Qed.

Lemma room_mono n k s : k <= n -> room n s -> room k s.
Proof. intros Hk [Hok Hr]. split; [done|lia]. Qed.

Lemma follow_leader_inv m s u s' : follow_leader m s = Ret (u, s') ->
  evolve calm s s' /\ state (r s') = Follower /\ raft_log (r s') = raft_log (r s).
Proof.
  unfold follow_leader. intros (s0 & ? & [-> ->]%get_inv & E)%bind_inv.
  apply bind_inv in E as (u1 & s1 & [Ht ->]%assert_inv & E). apply Z.eqb_eq in Ht.
  apply (become_follower_evolve calm) in E as (E & _ & Hs & Hl & _); [by split_and!|lia].
Qed.

Lemma step_leader_calm m s x s' : Message.msg_type m <> MsgPropose -> step_leader m s = Ret (x, s') -> evolve calm s s'.
Proof.
  intros Hp. unfold step_leader. destruct (Message.msg_type m) eqn:Et; try done.
  all: try (match goal with |- ?c _ = _ -> _ => cut (pres (evolve calm) c); [eauto|frame; fail] end). 
  intros (b & s1 & Eq & E)%bind_inv. apply check_quorum_active_pres in Eq.
  etrans; [by eapply quiet_evolve|]. apply bind_inv in E as (u & s2 & E & [_ <-]%ret_inv).
  destruct (negb b); [|by apply ret_inv in E as [_ <-]].
  apply bind_inv in E as (s3 & ? & [-> ->]%get_inv & E). by apply (become_follower_evolve calm) in E as [E _].
Qed.

Lemma step_leader_evolve m s x s' : wf_msg m -> fresh s -> room (len (Message.entries m) + 1) s ->
  step_leader m s = Ret (x, s') -> evolve writes s s'.
Proof.
  intros Hm Hf Hr E. destruct (decide (Message.msg_type m = MsgPropose)) as [Et|Et].
  - unfold step_leader in E. rewrite Et in E. eapply propose_evolve; [|exact E]. eapply room_mono; [|exact Hr]. lia.
  - by eapply calm_evolve, step_leader_calm.
Qed.
(** A message of the leader, once the node follows it. *)
Lemma as_follower_evolve m s x s' (ty : MessageType) : wf_msg m -> Message.msg_type m = ty -> state (r s) = Follower ->
  match ty with
  | MsgAppend => handle_append_entries m s = Ret (x, s')
  | MsgHeartbeat => handle_heartbeat m s = Ret (x, s')
  | MsgSnapshot => handle_snapshot m s = Ret (x, s')
  | _ => False
  end -> evolve writes s s'.
Proof.
  intros Hm Ht Hs. destruct ty; try done; intros E.
  - by eapply handle_append_entries_evolve.
  - by eapply handle_snapshot_evolve.
  - by eapply calm_evolve, handle_heartbeat_pres.
Qed.

Lemma step_candidate_evolve m s x s' : wf_msg m -> fresh s -> room 1 s -> of_term s m ->
  state (r s) = Candidate \/ state (r s) = PreCandidate ->
  step_candidate m s = Ret (x, s') -> evolve (step_cause s m) s s'.
Proof.
  intros Hm Hf Hr Hterm Hst. unfold step_candidate. destruct (Message.msg_type m) eqn:Et;
    try (by intros [_ <-]%ret_inv).
  all: try (intros (u & s1 & (Ef & Hs & _)%follow_leader_inv & E)%bind_inv;
    apply bind_inv in E as (u2 & s2 & E & [_ <-]%ret_inv);
    apply writes_evolve; [done|]; etrans; [by apply calm_evolve|by eapply (as_follower_evolve m _ _ _ _ Hm Et Hs)]).
  all: intros (s0 & ? & [-> ->]%get_inv & E)%bind_inv; destruct (_ || _) eqn:Ecase; [by apply ret_inv in E as [_ <-]|].
  all: apply bind_inv in E as (res & s1 & Ep & E); apply bind_inv in E as (u & s2 & Ec & [_ <-]%ret_inv);
    apply poll_evolve in Ep; [|done..]; apply maybe_commit_by_vote_evolve in Ec.
  all: etrans; [|by apply calm_evolve]; eapply evolve_mono; [|exact Ep]; split; [| |done..].
  - intros t [(Hc & -> & Hw)|Hw]; [left|by right]. by split_and!.
  - intros i t (-> & Hv & Hc & ->). split_and!; try done. split; [done|]. by destruct (Message.reject m).
  - intros t [(Hc & -> & Hw)|Hw]; [|by right]. by rewrite (bool_decide_eq_true_2 _ Hc) in Ecase; destruct (bool_decide (_ = PreCandidate)).
  - intros i t (-> & Hv & Hc & ->). by rewrite (bool_decide_eq_true_2 _ Hc) in Ecase; destruct (bool_decide (_ = PreCandidate)).
Qed.

Lemma step_follower_evolve m s x s' : wf_msg m -> fresh s -> room 1 s -> state (r s) = Follower ->
  step_follower m s = Ret (x, s') -> evolve (leads (own_vote_wins s)) s s'.
Proof.
  intros Hm Hf Hr Hst. unfold step_follower. intros (s0 & ? & [-> ->]%get_inv & E)%bind_inv. cbv zeta in E.
  destruct (Message.msg_type m) eqn:Et; try (by apply ret_inv in E as [_ <-]).
  all: try (assert (pres quiet (forward_to_leader (T:=T) m)) by (apply forward_to_leader_pres; congruence);
    apply calm_evolve; call_frame (evolve calm) E; solve [frame]; fail).
  all: try (apply calm_evolve; call_frame (evolve calm) E; solve [frame]; fail).
  all: try (apply writes_evolve; [done|]; apply bind_inv in E as (u & s1 & En & E);
    apply note_leader_pres in En; apply bind_inv in E as (u2 & s2 & E & [_ <-]%ret_inv);
    etrans; [by eapply quiet_evolve|]; eapply (as_follower_evolve m _ _ _ _ Hm Et); [by rewrite (q_state _ _ En)|exact E]).
  apply bind_inv in E as (u & s1 & E & [_ <-]%ret_inv). apply when_inv in E as [[_ E]|[_ ->]]; [|done].
  by eapply hup_evolve.
Qed.

(** The term of a message: the node goes on as it was, stops after an answer, or has
    become a follower in the term of the message. *)
Lemma step_term_inv m s go s1 : wf_msg m -> step_term m s = Ret (go, s1) ->
  (s1 = s /\ (go = true -> of_term s m)) \/ (go = false /\ quiet s s1) \/
  (term (r s) < Message.term m /\ evolve calm s s1 /\ term (r s1) = Message.term m /\ state (r s1) = Follower /\
   raft_log (r s1) = raft_log (r s) /\ ProgressTracker.conf (prs s1) = ProgressTracker.conf (prs s) /\ id (r s1) = id (r s)).
Proof.
  intros Hm. unfold step_term. intros (s0 & ? & [-> ->]%get_inv & E)%bind_inv. cbv zeta in E.
  destruct (Z.eqb_spec (Message.term m) 0) as [Hz|_]; [apply ret_inv in E as [_ <-]; left; by split; [|intros _; left]|].
  destruct (Z.ltb_spec (term (r s)) (Message.term m)) as [Hlt|Hge].
  - destruct (lease_protects s m); [apply ret_inv in E as [<- <-]; by left|].
    destruct (_ || _) eqn:Ety.
    { apply ret_inv in E as [_ <-]. left. split; [done|]. intros _ [Ht|Ht]; by rewrite Ht in Ety. }
    apply bind_inv in E as (u & s2 & E & [_ <-]%ret_inv). right. right. split; [done|].
    destruct (_ || _ || _); by apply (become_follower_evolve calm) in E; [|lia].
  - destruct (Z.ltb_spec (Message.term m) (term (r s))) as [Hlt|Hge'].
    + apply bind_inv in E as (u & s2 & E & [<- <-]%ret_inv). right. left. split; [done|].
      call_frame quiet E. frame.
    + apply ret_inv in E as [_ <-]. left. split; [done|]. intros _ _. right. lia.
Qed.

Lemma step_evolve m s x s' : wf_msg m -> fresh s -> room (len (Message.entries m) + 1) s ->
  step m s = Ret (x, s') -> evolve (step_cause s m) s s'.
Proof.
  intros Hm Hf Hr. pose proof (len_nonneg (Message.entries m)). unfold step.
  intros (go & s1 & Et & E)%bind_inv. apply step_term_inv in Et; [|done].
  assert (weaker (grants m) (step_cause s m)) as Hgr by by split.
  destruct Et as [[-> Hgo]|[[-> Hq]|(Hlt & Hev & Ht & Hs & Hl & Hc & Hi)]].
  - destruct go; [|by apply ret_inv in E as [_ <-]]. specialize (Hgo eq_refl). cbn [negb] in E.
    assert (room 1 s) as Hr1 by (eapply room_mono; [|exact Hr]; lia).
    pose proof (own_step s s m eq_refl eq_refl) as Hown.
    destruct (Message.msg_type m) eqn:Ety.
    all: try (apply bind_inv in E as (s0 & ? & [-> ->]%get_inv & E); destruct (state (r s)) eqn:Est;
      first [ by eapply (step_candidate_evolve m); eauto
            | by eapply evolve_mono, step_follower_evolve
            | by eapply writes_evolve, step_leader_evolve ]).
    all: apply bind_inv in E as (u & s2 & E & [_ <-]%ret_inv).
    + by eapply evolve_mono, hup_evolve.
    + by eapply evolve_mono, handle_vote_request_evolve.
    + by eapply evolve_mono, handle_vote_request_evolve.
  - simpl in E. apply ret_inv in E as [_ <-]. by apply quiet_evolve.
  - destruct (negb go); [apply ret_inv in E as [_ <-]; by apply calm_evolve|].
    assert (room 1 s1) as Hr1 by (eapply room_log; [eapply room_mono; [|exact Hr]; lia|done]).
    assert (fresh s1) as Hf1 by (unfold fresh; rewrite Ht; pose proof (wm_term _ Hm); u64_unfold; lia).
    pose proof (own_step s s1 m Hc Hi) as Hown.
    etrans; [by apply calm_evolve|].
    destruct (Message.msg_type m) eqn:Ety.
    all: try (apply bind_inv in E as (s0 & ? & [-> ->]%get_inv & E); rewrite Hs in E; by eapply evolve_mono, step_follower_evolve).
    all: apply bind_inv in E as (u & s2 & E & [_ <-]%ret_inv).
    + by eapply evolve_mono, hup_evolve.
    + by eapply evolve_mono, handle_vote_request_evolve.
    + by eapply evolve_mono, handle_vote_request_evolve.
Qed.

(** ** Time and the application *)

Lemma local_wf ty i : ty <> MsgAppend -> wf_msg (new_message INVALID_ID ty (Some i)).
Proof. intros Ht. split; simpl; try done; lia. Qed.

Lemma step_term_local m s : Message.term m = 0 -> step_term m s = Ret (true, s).
Proof. intros Hm. unfold step_term, mbind, prog_bind, get. by rewrite Hm. Qed.

(** A local message of a leader goes to [step_leader]. *)
Lemma step_local_leader ty s u s' : ty = MsgCheckQuorum \/ ty = MsgBeat -> state (r s) = Leader ->
  step_local ty s = Ret (u, s') ->
  exists x, step_leader (new_message INVALID_ID ty (Some (id (r s)))) s = Ret (x, s').
Proof.
  intros Hty Hs. unfold step_local. intros (s0 & ? & [-> ->]%get_inv & E)%bind_inv.
  apply bind_inv in E as (x & s1 & E & [_ <-]%ret_inv). exists x. unfold step in E.
  erewrite bind_run in E by (by apply step_term_local).
  destruct Hty as [-> | ->]; cbn -[step_leader] in E; unfold mbind, prog_bind, get in E; cbn -[step_leader] in E;
    by rewrite Hs in E.
Qed.

Lemma check_quorum_evolve s u s' : state (r s) = Leader -> step_local MsgCheckQuorum s = Ret (u, s') -> evolve calm s s'.
Proof.
  intros Hs E. apply step_local_leader in E as [x E]; [|by left|done]. simpl in E.
  apply bind_inv in E as (b & s1 & Eq & E). apply check_quorum_active_pres in Eq.
  etrans; [by eapply quiet_evolve|]. apply bind_inv in E as (u1 & s2 & E & [_ <-]%ret_inv).
  destruct (negb b); [|by apply ret_inv in E as [_ <-]].
  apply bind_inv in E as (s3 & ? & [-> ->]%get_inv & E). by apply (become_follower_evolve calm) in E as [E _].
Qed.

Lemma beat_quiet s u s' : state (r s) = Leader -> step_local MsgBeat s = Ret (u, s') -> quiet s s'.
Proof.
  intros Hs E. apply step_local_leader in E as [x E]; [|by right|done]. simpl in E.
  apply bind_inv in E as (u1 & s1 & E & [_ <-]%ret_inv). by eapply bcast_heartbeat_pres.
Qed.

Lemma tick_heartbeat_evolve s b s' : state (r s) = Leader -> tick_heartbeat s = Ret (b, s') -> evolve calm s s'.
Proof.
  intros Hs. unfold tick_heartbeat. intros (u & s1 & ->%modify_inv & E)%bind_inv.
  apply bind_inv in E as (u2 & s2 & ->%modify_inv & E). apply bind_inv in E as (s0 & ? & [-> ->]%get_inv & E).
  match type of E with _ ?a = _ => set (s1 := a) in *; assert (evolve calm s s1) as Hev by evolve_tac;
    assert (state (r s1) = Leader) as Hs1 by done; clearbody s1 end.
  etrans; [exact Hev|]. clear Hev Hs. apply bind_inv in E as (hr & s2 & E1 & E). transitivity s2.
  { destruct (_ <=? _); [|by apply ret_inv in E1 as [_ <-]].
    apply bind_inv in E1 as (u1 & s3 & ->%modify_inv & E1). apply bind_inv in E1 as (u3 & s3 & Ew & E1).
    match type of Ew with _ ?a = _ => transitivity a; [evolve_tac|] end. transitivity s3; [|call_frame (evolve calm) E1; solve [frame]].
    apply when_inv in Ew as [[_ Ew]|[_ ->]]; [|done]. by eapply check_quorum_evolve. }
  clear E1 Hs1 s1. apply bind_inv in E as (s3 & ? & [-> ->]%get_inv & E).
  destruct (bool_decide (state (r s2) = Leader)) eqn:Hl; simpl in E; [|by apply ret_inv in E as [_ <-]].
  apply bool_decide_eq_true in Hl. destruct (_ <=? _); [|by apply ret_inv in E as [_ <-]].
  apply bind_inv in E as (u1 & s3 & ->%modify_inv & E). apply bind_inv in E as (u3 & s3 & E & [_ <-]%ret_inv).
  match type of E with _ ?a = _ => transitivity a; [evolve_tac|] end. by eapply quiet_evolve, beat_quiet.
Qed.

Lemma tick_evolve s b s' : fresh s -> room 1 s -> tick s = Ret (b, s') -> evolve (leads (own_vote_wins s)) s s'.
Proof.
  intros Hf Hr. unfold tick. intros (s0 & ? & [-> ->]%get_inv & E)%bind_inv.
  assert (tick_election s = Ret (b, s') -> evolve (leads (own_vote_wins s)) s s') as Hel.
  { clear E. unfold tick_election. intros (u & s1 & ->%modify_inv & E)%bind_inv.
    apply bind_inv in E as (s2 & ? & [-> ->]%get_inv & E).
    destruct (_ || _); [apply ret_inv in E as [_ <-]; evolve_tac|].
    apply bind_inv in E as (u2 & s2 & ->%modify_inv & E).
    apply bind_inv in E as (u3 & s3 & E & [_ <-]%ret_inv). unfold step_local in E.
    apply bind_inv in E as (s4 & ? & [-> ->]%get_inv & E). apply bind_inv in E as (x & s5 & E & [_ <-]%ret_inv).
    apply step_evolve in E; [|by apply local_wf|exact Hf|exact Hr].
    match type of E with evolve _ ?a _ => transitivity a; [evolve_tac|] end.
    eapply evolve_mono; [|exact E]. by split; [intros t [(? & _)|?]|intros i t [[? _] _]|..]. }
  destruct (state (r s)) eqn:Es; try (by apply Hel).
  by eapply calm_evolve, tick_heartbeat_evolve.
Qed.

Lemma commit_apply_evolve i s u s' : room 1 s -> commit_apply i s = Ret (u, s') -> evolve writes s s'.
Proof.
  intros [Hok Hr]. unfold commit_apply. intros (s0 & ? & [-> ->]%get_inv & E)%bind_inv. cbv zeta in E.
  apply bind_inv in E as (u1 & s1 & Ea & E). pose proof Ea as Eb. apply (on_log_pres writes _ (applied_to_pres i)) in Ea.
  etrans; [exact Ea|]. destruct (_ && _); [|by apply ret_inv in E as [_ <-]].
  apply bind_inv in E as (b & s2 & Ec & E). apply (append_entry_evolve writes) in Ec as [Ec _]; [|done|].
  - etrans; [exact Ec|]. apply calm_evolve. call_frame (evolve calm) E; solve [frame].
  - split; [by apply (e_log _ _ _ Ea)|]. unfold on_log, RaftLog.applied_to in Eb. prog_inv; done.
Qed.

(** ** Settings and commit groups *)
Lemma enable_group_commit_pres b : pres (evolve calm) (enable_group_commit (T:=T) b).
Proof. unfold enable_group_commit. frame. Qed.
Lemma assign_commit_groups_pres ids : pres (evolve calm) (assign_commit_groups (T:=T) ids).
Proof. unfold assign_commit_groups, assign_commit_group. frame. Qed.
Lemma ping_pres : pres (evolve calm) (ping (T:=T)).
Proof. unfold ping. frame. Qed.
Lemma reduce_uncommitted_size_pres ents : pres (evolve calm) (reduce_uncommitted_size (T:=T) ents).
Proof.
  unfold reduce_uncommitted_size. frame. eapply (pres_zoom _ (fun _ _ => True)); [done|]. intros. evolve_tac.
Qed.
End evolve.
