(* ===== verification/Writes.v ===== *)
(** * What is written to the log of a node ([raft.rs])

    A message or a tick leaves the entries of a node alone, appends new ones as the
    leader of the term, takes over those of an append message, or restores a snapshot;
    the append messages it sends are copies of its log. *)

From S2P Require Import Prelude Proto Errors Util Inflights Progress Quorum Tracker ConfChange.
From S2P Require Import Log Unstable Storage RaftLog ReadOnly Config RaftCore Raft RaftFrame.

(** ** Abstract logs *)
Section alog.
Implicit Types v : ALog.t.

Lemma truncate_all v a : ALog.last v < a -> ALog.truncate v a = v.
Proof. intros Ha. unfold ALog.truncate. rewrite take_ge; [by destruct v|]. unfold ALog.last, len in Ha. lia. Qed.

Lemma copies_append v es m : copies v m -> copies (ALog.append v es) m.
Proof.
  intros Hc i e He. destruct (Hc i e He) as [Hi Ht]. pose proof (at_index_Some _ _ _ Hi).
  rewrite at_index_append, (proj2 (Z.leb_le _ _)) by lia. split; [done|]. intros E.
  rewrite term_at_append, (proj2 (Z.leb_le _ _)) by lia. auto.
Qed.
End alog.

Section writes.
Context {T : Type} `{StorageLaws T} `{Codec} `{HashOrder} `{ConfigurationDebug} `{Rng}.
Import RaftCore Raft.
Implicit Types s : Raft.t T.
Abbreviation log s := (view (raft_log (r s))).

Lemma calm_still s s' : evolve calm s s' -> still s s'.
Proof. intros Hev. by destruct (e_still _ _ _ Hev). Qed.
Lemma quiet_still s s' : quiet s s' -> still s s'.
Proof. intros Hq. apply calm_still, quiet_evolve, Hq. Qed.
Lemma still_trans s s1 s' : evolve anything s s1 -> still s s1 -> still s1 s' -> still s s'.
Proof.
  intros Hev [Hv Hc] [Hv' Hc']. split.
  - intros Hok. rewrite Hv', Hv; [done..|]. by apply (e_log _ _ _ Hev).
  - eapply copied_trans; [|by apply (e_batch _ _ _ Hev)|done..]. intros Hok. split; [by apply (e_log _ _ _ Hev)|auto].
Qed.

(** The leader of a term appended the entries [es] to its log. *)
Record created (es : list Entry.t) s s' : Prop := {
  cr_leader : state (r s') = Leader;
  cr_log : log s' = ALog.append (log s) es;
  cr_terms : Forall (fun e => Entry.term e = term (r s')) es;
  cr_msgs m : batch_append (r s) = false -> m ∈ msgs s' -> Message.msg_type m = MsgAppend ->
    m ∈ msgs s \/ copies (log s') m
}.
Definition grows s s' : Prop := still s s' \/ exists es, created es s s'.

Lemma created_after es s s1 s' : evolve anything s s1 -> log_ok (raft_log (r s)) -> still s s1 ->
  created es s1 s' -> created es s s'.
Proof.
  intros Hev Hok [Hvs Hc] [Hl Hv Ht Hm]. rewrite Hvs in Hv by done. split; [done..|]. intros m Hb Hin Ha.
  destruct (Hm m ltac:(rewrite (e_batch _ _ _ Hev); done) Hin Ha) as [Hin'|]; [|by right].
  destruct (Hc Hok Hb m Hin' Ha) as [|Hcp]; [by left|right]. rewrite Hv. by apply copies_append.
Qed.
Lemma grows_after s s1 s' : evolve anything s s1 -> log_ok (raft_log (r s)) -> still s s1 -> grows s1 s' -> grows s s'.
Proof.
  intros Hev Hok Hs [Hs'|(es & Hc)]; [left; by eapply still_trans|right; exists es; by eapply created_after].
Qed.

(** Sending messages afterwards changes nothing. *)
Lemma grows_quiet s s1 s' : evolve anything s s1 -> log_ok (raft_log (r s)) -> grows s s1 -> quiet s1 s' -> grows s s'.
Proof.
  intros Hev Hok Hg Hq. assert (log_ok (raft_log (r s1))) as Hok1 by by apply (e_log _ _ _ Hev).
  destruct Hg as [Hs|(es & [Hl Hv Ht Hm])]; [left; by eapply still_trans, quiet_still|right; exists es].
  assert (log s' = log s1) as Hv' by (apply reads_view; [apply Hq|done]).
  split; rewrite ?(q_state _ _ Hq), ?(q_term _ _ Hq), ?Hv'; try done.
  intros m Hb Hin Ha. destruct (q_appends _ _ Hq Hok1 ltac:(rewrite (e_batch _ _ _ Hev); done) m Hin Ha); [auto|by right].
Qed.

Lemma stamp_terms t li es : Forall (fun e => Entry.term e = t) (stamp t li es).
Proof.
  unfold stamp. apply Forall_lookup. intros i e. rewrite list_lookup_imap. destruct (es !! i); [|done]. by intros [= <-].
Qed.

(** What [append_entry] appends. *)
Lemma append_entry_created es s b s' : append_entry es s = Ret (b, s') -> room (len es) s ->
  state (r s) = Leader -> exists es', created es' s s'.
Proof.
  intros E Hroom Hs. pose proof Hroom as [Hok _].
  pose proof (append_entry_evolve writes _ _ _ _ Logic.I E Hroom) as (Hev & Ht & _ & Hs' & _).
  assert (forall v, log s' = ALog.append (log s) v -> Forall (fun e => Entry.term e = term (r s)) v -> msgs s' = msgs s ->
    created v s s') as Hcr.
  { intros v Hv Hf Hm. split; [congruence|done|by rewrite Ht|]. intros m _. rewrite Hm. by left. }
  unfold append_entry, maybe_increase_uncommitted_size, on_log, ask_log in E. prog_inv.
  { exists []. apply Hcr; [|done|done]. unfold ALog.append. rewrite app_nil_r. by destruct (log s). }
  match goal with El : RaftLog.last_index _ = Ret ?y |- _ => rewrite last_index_run in El by done; injection El as <- end.
  set (li := ALog.last (log s)) in *. destruct Hroom as [_ Hb].
  assert (0 <= li) as Hli by (pose proof (view_bounds _ Hok); pose proof (lo_committed _ Hok); lia).
  pose proof (stamp_contiguous (term (r s)) li es Hli Hb) as Hc. pose proof (stamp_terms (term (r s)) li es) as Hterms.
  assert (len (stamp (term (r s)) li es) = len es) as Hlen by (unfold stamp, len; by rewrite length_imap).
  exists (stamp (term (r s)) li es). apply Hcr; [|done|done]. fields.
  match goal with Ea : RaftLog.append _ _ = Ret _ |- _ => rename Ea into Happ end.
  destruct (stamp (term (r s)) li es) as [|e es'].
  { apply asks_inv in Happ as [_ ->]. unfold ALog.append. rewrite app_nil_r. by destruct (log s). }
  destruct Hc as [Hi Hc]. pose proof (lo_committed _ Hok). pose proof (lo_persisted _ Hok). pose proof (view_bounds _ Hok).
  assert (appendable (raft_log (r s)) (e :: es') e) as Hap.
  { split; [done|split; [done|by rewrite Hi]|rewrite Hi; subst li; lia|rewrite Hi, Hlen; subst li; lia]. }
  rewrite (append_run _ _ _ Hok Hap) in Happ. injection Happ as _ <-.
  pose proof (view_appended _ _ _ (RaftLog.persisted (raft_log (r s))) Hok Hap) as Hv.
  unfold appended in Hv. rewrite view_persisted in Hv.
  rewrite Hv, truncate_all by (rewrite Hi; subst li; lia). done.
Qed.

Lemma become_leader_created s u s' : state (r s) = Candidate -> room 1 s -> become_leader s = Ret (u, s') ->
  exists es, created es s s'.
Proof.
  intros Hst Hroom (s1 & b & Ea & Hev & Hs1 & Hr & _ & Hl & _)%become_leader_inv; [|done].
  destruct (append_entry_created _ _ _ _ Ea) as [es Hes]; [by eapply room_reads|done|].
  exists es. eapply created_after; [by apply Hev|apply Hroom|done..].
Qed.

(** ** Elections *)

Lemma poll_with_grows c from t v s res s' : state (r s) = Candidate \/ state (r s) = PreCandidate ->
  (state (r s) = PreCandidate -> fresh s /\
    forall s1 u s2, fresh s1 -> room 1 s1 -> c CAMPAIGN_ELECTION s1 = Ret (u, s2) -> grows s1 s2) -> room 1 s ->
  poll_with c from t v s = Ret (res, s') -> grows s s'.
Proof.
  intros Hst Hpre Hroom E%poll_with_inv. cbv zeta in E.
  pose proof (evolve_mono _ _ _ _ (weaker_anything _) (record_vote_evolve s from v Hst)) as Hrec.
  set (s1 := s <| prs := _ |>) in *. assert (still s s1) as Hs1 by by split.
  eapply grows_after; [exact Hrec|apply Hroom|exact Hs1|].
  destruct E as [->|[(u & E)|[(u & Hp & E)|(u & s2 & u' & Hp & _ & E1 & E2)]]].
  - by left.
  - apply (become_follower_evolve calm) in E as [E _]; [|done]. left. by apply calm_still.
  - destruct (Hpre Hp) as [Hf Hc]. by eapply Hc; [exact Hf|exact Hroom|exact E].
  - assert (state (r s1) = Candidate) as Hcand by by destruct Hst.
    assert (room 1 s1) as Hroom1 by exact Hroom.
    pose proof (become_leader_evolve anything _ _ _ Logic.I Logic.I Hcand Hroom1 E1) as (Hev & _).
    eapply grows_quiet; [exact Hev|apply Hroom| |by eapply bcast_append_pres]. right. by eapply become_leader_created.
Qed.

(** A campaign is preceded by a change of the role that leaves the log alone. *)
Lemma campaign_begins (pre : bool) s u s1 : fresh s ->
  (if pre then become_pre_candidate else become_candidate) s = Ret (u, s1) ->
  evolve calm s s1 /\ raft_log (r s1) = raft_log (r s) /\
  (if pre then state (r s1) = PreCandidate /\ fresh s1 else state (r s1) = Candidate).
Proof.
  intros [Hu Ht] E. destruct pre.
  - apply (become_pre_candidate_evolve calm) in E as (Hev & Hterm & Hst & Hlog & _). split_and!; try done; unfold fresh; by rewrite Hterm.
  - apply (become_candidate_evolve calm) in E as (Hev & Hterm & Hst & Hlog & _); [|done..]. by split_and!.
Qed.

Lemma campaign_step_grows fuel ty s u s' : fresh s -> room 1 s ->
  (ty = CAMPAIGN_PRE_ELECTION -> forall s1 u s2, fresh s1 -> room 1 s1 -> campaign fuel CAMPAIGN_ELECTION s1 = Ret (u, s2) -> grows s1 s2) ->
  campaign (S fuel) ty s = Ret (u, s') -> grows s s'.
Proof.
  intros Hf Hroom IH (vt & s1 & u1 & res & s2 & Eb & Ep & Hq)%campaign_inv.
  apply campaign_begins in Eb as (Hev & Hlog & Hst); [|done].
  assert (room 1 s1) as Hr1 by by eapply room_log.
  assert (state (r s1) = Candidate \/ state (r s1) = PreCandidate) as Hst1 by (case_bool_decide; naive_solver).
  assert (state (r s1) = PreCandidate -> ty = CAMPAIGN_PRE_ELECTION /\ fresh s1) as Hpre
    by (case_bool_decide; [tauto|congruence]).
  assert (evolve anything s s1) as Hev1 by by apply calm_evolve.
  assert (grows s1 s2) as Hg by (eapply poll_with_grows; [done|intros Hp; split; [by apply Hpre|by apply IH, Hpre]|done|exact Ep]).
  eapply grows_after; [exact Hev1|apply Hroom|by apply calm_still|].
  eapply grows_quiet; [|apply Hr1|exact Hg|exact Hq].
  eapply evolve_mono; [apply weaker_anything|]. eapply poll_with_evolve; [done|by intros Hp; apply Hpre|done| |exact Ep].
  intros ? ? ? ? ?. by apply campaign_election_evolve.
Qed.

Lemma campaign_election_grows fuel ty s u s' : ty <> CAMPAIGN_PRE_ELECTION -> fresh s -> room 1 s ->
  campaign fuel ty s = Ret (u, s') -> grows s s'.
Proof. destruct fuel as [|fuel]; [done|]. intros Hty Hf Hr. by apply campaign_step_grows. Qed.
Lemma campaign_grows fuel ty s u s' : fresh s -> room 1 s -> campaign fuel ty s = Ret (u, s') -> grows s s'.
Proof.
  destruct fuel as [|fuel]; [done|]. intros Hf Hr. apply campaign_step_grows; [done..|]. intros _ ? ? ? ? ?.
  by apply campaign_election_grows.
Qed.

Lemma poll_grows from t v s res s' : state (r s) = Candidate \/ state (r s) = PreCandidate -> fresh s -> room 1 s ->
  poll from t v s = Ret (res, s') -> grows s s'.
Proof.
  intros Hst Hf Hr. apply (poll_with_grows _ from t v); [done| |done]. intros _. split; [done|].
  intros ? ? ? ? ?. by apply campaign_election_grows.
Qed.

Lemma hup_grows b s u s' : fresh s -> room 1 s -> hup b s = Ret (u, s') -> grows s s'.
Proof.
  intros Hf Hr (s1 & Hq & E)%hup_inv.
  eapply grows_after; [by apply quiet_evolve|apply Hr|by apply quiet_still|]. destruct E as [->|[ty E]]; [by left|].
  eapply campaign_grows; [|eapply room_reads; [done|apply Hq]|exact E]. unfold fresh. by rewrite (q_term _ _ Hq).
Qed.

(** ** Entries and snapshots of the leader *)

(** The role stays and no append message is sent. *)
Definition answers s s' : Prop := state (r s') = state (r s) /\
  forall m, m ∈ msgs s' -> Message.msg_type m = MsgAppend -> m ∈ msgs s.
#[export] Instance answers_preorder : PreOrder answers.
Proof.
  split; [by intros s; split|]. intros s s1 s' [S1 M1] [S2 M2]. split; [congruence|]. auto.
Qed.

Lemma send_answers m : plain m -> pres answers (send (T:=T) m).
Proof.
  intros [_ Hm] s u s' (m' & -> & (Ht & _) & _)%send_inv. split; [done|]. fields.
  intros m1 [?|Hin]%elem_of_app Ha; [done|]. apply list_elem_of_singleton in Hin as ->. congruence.
Qed.
Lemma on_log_answers {A} (m : Prog (RaftLog.t T) A) : pres answers (on_log m).
Proof. eapply (pres_zoom _ (fun _ _ => True)); [by intros ? ? ? ?|]. by split. Qed.
Lemma ask_log_answers {A} (f : RaftLog.t T -> outcome A) : pres answers (ask_log f).
Proof. unfold ask_log. frame. Qed.
Hint Resolve send_answers on_log_answers ask_log_answers : frame.
Hint Extern 1 (answers _ _) => by split : frame.

Lemma send_request_snapshot_answers : pres answers (send_request_snapshot (T:=T)).
Proof. unfold send_request_snapshot. frame. Qed.
Hint Resolve send_request_snapshot_answers : frame.

Lemma handle_append_entries_answers m : pres answers (handle_append_entries (T:=T) m).
Proof.
  unfold handle_append_entries.
  repeat first
    [ match goal with |- pres _ (mbind ?k (match _ with Some _ => _ | None => _ end)) =>
        apply (pres_bind_post _ (fun x => Message.msg_type x = MsgAppendResponse));
          [frame|intros ? ? ? E; by prog_inv|intros ? ?] end
    | frame_step | progress (eauto with frame nocore) ].
Qed.

(** An append message whose position the log has: what is taken over of it. *)
Record accepts (v : ALog.t) (committed : Z) (m : Message.t) : Prop := {
  ac_index : committed <= Message.index m <= ALog.last v;
  ac_matches : matches v (Message.index m) (Message.log_term m) = true;
  ac_conflict : first_mismatch v (Message.entries m) = 0 \/ committed < first_mismatch v (Message.entries m)
}.

Lemma maybe_append_view idx t ca es (l : RaftLog.t T) res l' : log_ok l -> 0 <= idx -> ALog.contiguous (idx + 1) es ->
  idx + len es < u64_MAX -> Forall (fun e => Entry.term e <> 0) es -> (idx = 0 \/ t <> 0) ->
  RaftLog.maybe_append idx t ca es l = Ret (res, l') ->
  view l' = view l \/
  (idx <= ALog.last (view l) /\ matches (view l) idx t = true /\
    (first_mismatch (view l) es = 0 \/ RaftLog.committed l < first_mismatch (view l) es) /\ view l' = accepted_view l idx es).
Proof.
  intros Hok Hi Hc Hb Hf Ht E. destruct (Z.le_gt_cases idx (ALog.last (view l))) as [Hle|Hgt].
  - rewrite maybe_append_run in E by done. cbv zeta in E. destruct (matches _ idx t); [|injection E as _ <-; by left].
    cbn [negb] in E. destruct (_ && _) eqn:Ec; [done|]. injection E as _ <-. right.
    assert (first_mismatch (view l) es = 0 \/ RaftLog.committed l < first_mismatch (view l) es) as Hcase.
    { apply andb_false_iff in Ec as [Ec|Ec]; [left; by apply negb_false_iff, Z.eqb_eq in Ec|right; by apply Z.leb_gt in Ec]. }
    split_and!; [done..|]. by apply accept_append_ok.
  - left. rewrite maybe_append_beyond in E by done. by injection E as _ <-.
Qed.

Lemma handle_append_entries_inv m s u s' : wf_msg m -> Message.msg_type m = MsgAppend -> log_ok (raft_log (r s)) ->
  handle_append_entries m s = Ret (u, s') ->
  log s' = log s \/ (accepts (log s) (RaftLog.committed (raft_log (r s))) m /\
    log s' = accepted_view (raft_log (r s)) (Message.index m) (Message.entries m)).
Proof.
  intros Hm Ht Hok. destruct (wm_entries _ Hm Ht) as (Hc & Hb & Hf & Ht').
  unfold handle_append_entries. intros (s0 & ? & [-> ->]%get_inv & E)%bind_inv. cbv zeta in E.
  destruct (negb _); [left; by apply (send_request_snapshot_pres _ _ _), quiet_still in E as [E _]; apply E|].
  destruct (Z.ltb_spec (Message.index m) (RaftLog.committed (raft_log (r s)))) as [|Hcm].
  { left. apply send_pres, quiet_still in E as [E _]; [by apply E|is_plain]. }
  apply bind_inv in E as (res & s1 & E1 & E). apply zoom_inv in E1 as (l & E1 & ->).
  assert (view l = log s' /\ log_ok l) as [<- Hl].
  { set (s1 := s <| r := _ |>) in *. assert (quiet s1 s') as Hq.
    { call_frame quiet E.
      repeat first
        [ match goal with |- pres _ (mbind ?k (match _ with Some _ => _ | None => _ end)) =>
            apply (pres_bind_post _ (fun x => Message.msg_type x = MsgAppendResponse));
              [frame|intros ? ? ? E; by prog_inv|intros ? ?] end
        | frame_step | progress (eauto with frame nocore) ]. }
    assert (log_ok l) as Hl by (eapply maybe_append_pres; [..|exact E1|exact Hok]; (done || apply Hm)).
    split; [|done]. symmetry. by apply (quiet_still _ _ Hq). }
  destruct (maybe_append_view _ _ _ _ _ _ _ Hok (wm_index _ Hm) Hc Hb Hf Ht' E1) as [->|(Hi & Hmt & Hcf & ->)]; [by left|right].
  by split.
Qed.

Lemma on_progress_answers {A} i (m : Prog Progress.t A) : pres answers (on_progress (T:=T) i m).
Proof. intros s a s' E. unfold on_progress in E. by prog_inv. Qed.

Lemma restore_view snap s b s' : SnapshotMetadata.index (Snapshot.metadata snap) < u64_MAX - 1 ->
  state (r s) = Follower -> log_ok (raft_log (r s)) -> restore snap s = Ret (b, s') ->
  answers s s' /\ (log s' = log s \/ ALog.ents (log s') = []).
Proof.
  intros Hb Hs Hok. unfold restore. intros (s0 & ? & [-> ->]%get_inv & E)%bind_inv. cbv zeta in E.
  destruct (_ <? _); [apply ret_inv in E as [_ <-]; split; [done|by left]|]. rewrite Hs in E. cbn [bool_decide negb] in E.
  rewrite bool_decide_eq_true_2 in E by done. cbn [negb] in E.
  destruct (forallb _ _); [apply ret_inv in E as [_ <-]; split; [done|by left]|].
  apply bind_inv in E as (mt & s1 & Em & E). assert (s1 = s) as ->.
  { destruct (_ =? _); [unfold ask_log in Em; by prog_inv|by apply ret_inv in Em as [_ <-]]. }
  destruct mt.
  { apply bind_inv in E as (u & s1 & E1 & [_ <-]%ret_inv). split; [by eapply on_log_answers|left].
    apply (on_log_pres calm _ (commit_to_pres _)) in E1. by apply (calm_still _ _ E1). }
  apply bind_inv in E as (u & s1 & E1 & E). apply zoom_inv in E1 as (l & E1 & ->). set (s1 := s <| r := _ |>) in *.
  destruct (restore_run (raft_log (r s)) snap l Hok Hb) as (_ & _ & _ & Hv); [by destruct u|].
  assert (log_ok l) as Hl by by (destruct u; eapply restore_pres; [|exact E1|]).
  assert (state (r s1) = Follower /\ log s1 = view l /\ log_ok (raft_log (r s1))) as (Hs1 & Hv1 & Hok1) by done.
  assert (answers s s1) as Ha by by split. clearbody s1.
  cut (answers s1 s' /\ still s1 s').
  { intros [Ha' [Hv' _]]. split; [by etrans|right]. rewrite Hv', Hv1, Hv by done. done. }
  apply bind_inv in E as (s2 & ? & [-> ->]%get_inv & E). apply bind_inv in E as (pd & s2 & [_ ->]%unwrap_inv & E). cbv zeta in E.
  clear Em. unfold on_prs, ask_log in E. prog_inv.
  match goal with Hp : post_conf_change _ = _ |- _ => apply post_conf_change_idle in Hp as [_ ->]; [|fields; congruence] end.
  match goal with Hp : on_progress _ _ ?a = Ret (_, ?c) |- _ => pose proof (on_progress_answers _ _ _ _ _ Hp) as Ha2;
    apply on_progress_pres, quiet_still in Hp; split; [transitivity a; [by split|by transitivity c; [|by split]]|exact Hp] end.
Qed.

(** ** What a message brings about *)

Inductive written (m : Message.t) s s' : Prop :=
  | written_grows : grows s s' -> written m s s'
  | written_accepts : Message.msg_type m = MsgAppend -> accepts (log s) (RaftLog.committed (raft_log (r s))) m ->
      log s' = accepted_view (raft_log (r s)) (Message.index m) (Message.entries m) ->
      state (r s') = Follower -> copied (r s) (msgs s) (msgs s') -> written m s s'
  | written_restores : Message.msg_type m = MsgSnapshot -> ALog.ents (log s') = [] ->
      state (r s') = Follower -> copied (r s) (msgs s) (msgs s') -> written m s s'.

Lemma written_still m s s' : still s s' -> written m s s'.
Proof. intros Hs. by apply written_grows; left. Qed.

(** The role changed before. *)
Lemma written_after m s s1 s' : evolve anything s s1 -> still s s1 -> raft_log (r s1) = raft_log (r s) ->
  log_ok (raft_log (r s)) -> written m s1 s' -> written m s s'.
Proof.
  intros Hev Hs Hl Hok [Hg|Ht Ha Hv Hf Hc|Ht Hv Hf Hc]; [apply written_grows; by eapply grows_after|..].
  all: assert (copied (r s) (msgs s) (msgs s')) by
    (eapply copied_trans; [by rewrite Hl|by apply (e_batch _ _ _ Hev)|apply Hs|exact Hc]).
  - rewrite Hl in Ha, Hv. by apply written_accepts.
  - by apply written_restores.
Qed.

Lemma answers_copied s s' : answers s s' -> copied (r s) (msgs s) (msgs s').
Proof. intros [_ Hm] _ _ m Hin Ht. left. auto. Qed.

Lemma as_follower_written m s x s' (ty : MessageType) : wf_msg m -> Message.msg_type m = ty -> state (r s) = Follower ->
  log_ok (raft_log (r s)) ->
  match ty with
  | MsgAppend => handle_append_entries m s = Ret (x, s')
  | MsgHeartbeat => handle_heartbeat m s = Ret (x, s')
  | MsgSnapshot => handle_snapshot m s = Ret (x, s')
  | _ => False
  end -> written m s s'.
Proof.
  intros Hm Ht Hs Hok. destruct ty; try done; intros E.
  - pose proof (handle_append_entries_answers _ _ _ _ E) as Ha. pose proof (answers_copied _ _ Ha).
    destruct (handle_append_entries_inv _ _ _ _ Hm Ht Hok E) as [Hv|[Hac Hv]]; [by apply written_still|].
    apply written_accepts; try done. by rewrite (proj1 Ha).
  - unfold handle_snapshot in E. apply bind_inv in E as (b & s1 & Er & E).
    pose proof (restore_evolve _ _ _ _ (wm_snapshot _ Hm) Hs Er) as Hev.
    apply restore_view in Er as [Ha Hv]; [|apply Hm|done..].
    assert (quiet s1 s' /\ answers s1 s') as [Hq Ha'].
    { match type of E with ?c _ = _ => assert (pres quiet c) as Hp by frame; assert (pres answers c) as Hp' by frame end. split; eauto. }
    assert (answers s s') as Ha2 by by etrans. pose proof (answers_copied _ _ Ha2).
    assert (log s' = log s1) as Hv' by (apply (quiet_still _ _ Hq); by apply (e_log _ _ _ Hev)).
    rewrite <-Hv' in Hv. destruct Hv as [Hv|Hv]; [by apply written_still|].
    apply written_restores; try done. by rewrite (proj1 Ha2).
  - by eapply written_still, calm_still, handle_heartbeat_pres.
Qed.

Lemma maybe_commit_by_vote_leader m s u s' : state (r s) = Leader -> maybe_commit_by_vote m s = Ret (u, s') -> s' = s.
Proof.
  intros Hs. unfold maybe_commit_by_vote. destruct (_ || _); [by intros [_ ->]%ret_inv|].
  intros (s0 & ? & [-> ->]%get_inv & E)%bind_inv. cbv zeta in E. rewrite (bool_decide_eq_true_2 _ Hs), orb_true_r in E.
  by apply ret_inv in E as [_ <-].
Qed.

Lemma propose_grows m s x s' : room (len (Message.entries m)) s -> state (r s) = Leader -> propose m s = Ret (x, s') -> grows s s'.
Proof.
  intros Hroom Hs. unfold propose. intros (s0 & ? & [-> ->]%get_inv & E)%bind_inv.
  destruct (bool_decide _); [done|]. destruct (negb _); [apply ret_inv in E as [_ <-]; by left|].
  destruct (bool_decide _); [apply ret_inv in E as [_ <-]; by left|].
  apply try_bind_inv in E as [(es & s1 & El & E)|(e & El & _)]; [|left; by eapply quiet_still, propose_loop_pres].
  pose proof (propose_loop_length _ _ _ _ _ El) as Hlen. apply propose_loop_pres in El.
  eapply grows_after; [by apply quiet_evolve|apply Hroom|by apply quiet_still|].
  assert (room (len es) s1) as Hr1 by (rewrite Hlen; eapply room_reads; [done|apply El]).
  apply bind_inv in E as (b & s2 & Ea & E).
  pose proof (append_entry_evolve anything _ _ _ _ Logic.I Ea Hr1) as [Hev _].
  apply append_entry_created in Ea; [|done|by rewrite (q_state _ _ El)].
  eapply grows_quiet; [exact Hev|apply Hr1|by right|].
  destruct (negb b); [by apply ret_inv in E as [_ <-]|].
  apply bind_inv in E as (u & s3 & Eb & [_ <-]%ret_inv). by eapply bcast_append_pres.
Qed.

Lemma step_leader_grows m s x s' : room (len (Message.entries m) + 1) s -> state (r s) = Leader ->
  step_leader m s = Ret (x, s') -> grows s s'.
Proof.
  intros Hr Hs E. destruct (decide (Message.msg_type m = MsgPropose)) as [Et|Et].
  - unfold step_leader in E. rewrite Et in E. eapply (propose_grows m); [eapply room_mono; [|exact Hr]; lia|done..].
  - left. by eapply calm_still, step_leader_calm.
Qed.

Lemma step_candidate_written m s x s' : wf_msg m -> fresh s -> room 1 s ->
  state (r s) = Candidate \/ state (r s) = PreCandidate ->
  step_candidate m s = Ret (x, s') -> written m s s'.
Proof.
  intros Hm Hf Hr Hst. pose proof (proj1 Hr) as Hok. unfold step_candidate.
  destruct (Message.msg_type m) eqn:Et; try (by intros [_ <-]%ret_inv; apply written_still).
  all: try (intros (u & s1 & (Ef & Hs & Hl)%follow_leader_inv & E)%bind_inv;
    apply bind_inv in E as (u2 & s2 & E & [_ <-]%ret_inv);
    eapply written_after; [by apply calm_evolve|by apply calm_still|done..|];
    eapply (as_follower_written m _ _ _ _ Hm Et Hs); [by rewrite Hl|exact E]).
  all: intros (s0 & ? & [-> ->]%get_inv & E)%bind_inv; destruct (_ || _) eqn:Ecase; [apply ret_inv in E as [_ <-]; by apply written_still|].
  all: apply bind_inv in E as (res & s1 & Ep & E); apply bind_inv in E as (u & s2 & Ec & [_ <-]%ret_inv).
  all: assert (evolve anything s s1) as Hev by (eapply evolve_mono; [apply weaker_anything|by eapply poll_evolve]).
  all: apply poll_grows in Ep; [|done..].
  all: apply written_grows; destruct Ep as [Hs1|(es & Hc)];
    [left; eapply still_trans; [done..|]; by eapply calm_still, maybe_commit_by_vote_evolve
    |apply maybe_commit_by_vote_leader in Ec as ->; [right; by exists es|apply Hc]].
Qed.

Hint Resolve quiet_pres on_log_pres | 2 : frame.
Hint Extern 1 (evolve _ _ _) => solve [evolve_tac] : frame.
Lemma note_leader_log m s u s' : note_leader m s = Ret (u, s') -> raft_log (r s') = raft_log (r s).
Proof. unfold note_leader. intros E. by prog_inv. Qed.

Lemma step_follower_written m s x s' : wf_msg m -> fresh s -> room 1 s -> state (r s) = Follower ->
  step_follower m s = Ret (x, s') -> written m s s'.
Proof.
  intros Hm Hf Hr Hst. unfold step_follower. intros (s0 & ? & [-> ->]%get_inv & E)%bind_inv. cbv zeta in E.
  destruct (Message.msg_type m) eqn:Et; try (by apply ret_inv in E as [_ <-]; apply written_still).
  all: try (assert (pres quiet (forward_to_leader (T:=T) m)) by (apply forward_to_leader_pres; congruence);
    apply written_still, calm_still; call_frame (evolve calm) E; solve [frame]; fail).
  all: try (apply written_still, calm_still; call_frame (evolve calm) E; solve [frame]; fail).
  all: try (apply bind_inv in E as (u & s1 & En & E); pose proof (note_leader_log _ _ _ _ En) as Hl;
    apply note_leader_pres in En; apply bind_inv in E as (u2 & s2 & E & [_ <-]%ret_inv);
    eapply written_after; [by eapply quiet_evolve|by apply quiet_still|done|apply Hr|];
    eapply (as_follower_written m _ _ _ _ Hm Et); [by rewrite (q_state _ _ En)|rewrite Hl; apply Hr|exact E]).
  apply bind_inv in E as (u & s1 & E & [_ <-]%ret_inv). apply written_grows.
  apply when_inv in E as [[_ E]|[_ ->]]; [|by left]. by eapply hup_grows.
Qed.

Lemma step_written m s x s' : wf_msg m -> fresh s -> room (len (Message.entries m) + 1) s ->
  step m s = Ret (x, s') -> written m s s'.
Proof.
  intros Hm Hf Hr. pose proof (len_nonneg (Message.entries m)). pose proof (proj1 Hr) as Hok. unfold step.
  intros (go & s1 & Et & E)%bind_inv. apply step_term_inv in Et; [|done].
  assert (room 1 s) as Hr1 by (eapply room_mono; [|exact Hr]; lia).
  destruct Et as [[-> _]|[[-> Hq]|(Hlt & Hev & Ht & Hs & Hl & _)]].
  - destruct (negb go); [apply ret_inv in E as [_ <-]; by apply written_still|].
    destruct (Message.msg_type m) eqn:Ety.
    all: try (apply bind_inv in E as (s0 & ? & [-> ->]%get_inv & E); destruct (state (r s)) eqn:Est;
      first [ by eapply step_candidate_written; eauto
            | by eapply step_follower_written
            | by eapply written_grows, step_leader_grows ]).
    all: apply bind_inv in E as (u & s2 & E & [_ <-]%ret_inv); apply written_grows.
    + by eapply hup_grows.
    + apply handle_vote_request_evolve in E. left. by destruct (e_still _ _ _ E).
    + apply handle_vote_request_evolve in E. left. by destruct (e_still _ _ _ E).
  - apply ret_inv in E as [_ <-]. by apply written_still, quiet_still.
  - assert (written m s1 s') as Hw.
    { destruct (negb go); [apply ret_inv in E as [_ <-]; by apply written_still|].
      assert (room 1 s1) as Hr2 by by eapply room_log.
      assert (fresh s1) as Hf1 by (unfold fresh; rewrite Ht; pose proof (wm_term _ Hm); u64_unfold; lia).
      destruct (Message.msg_type m) eqn:Ety.
      all: try (apply bind_inv in E as (s0 & ? & [-> ->]%get_inv & E); rewrite Hs in E; by eapply step_follower_written).
      all: apply bind_inv in E as (u & s2 & E & [_ <-]%ret_inv); apply written_grows.
      + by eapply hup_grows.
      + apply handle_vote_request_evolve in E. left. by destruct (e_still _ _ _ E).
      + apply handle_vote_request_evolve in E. left. by destruct (e_still _ _ _ E). }
    eapply written_after; [by apply calm_evolve|by apply calm_still|done..].
Qed.

(** ** Time and the application *)

Lemma tick_grows s b s' : fresh s -> room 1 s -> tick s = Ret (b, s') -> grows s s'.
Proof.
  intros Hf Hr. unfold tick. intros (s0 & ? & [-> ->]%get_inv & E)%bind_inv.
  assert (tick_election s = Ret (b, s') -> grows s s') as Hel.
  { clear E. unfold tick_election. intros (u & s1 & ->%modify_inv & E)%bind_inv.
    apply bind_inv in E as (s2 & ? & [-> ->]%get_inv & E).
    destruct (_ || _); [apply ret_inv in E as [_ <-]; left; by split|].
    apply bind_inv in E as (u2 & s2 & ->%modify_inv & E).
    apply bind_inv in E as (u3 & s3 & E & [_ <-]%ret_inv). unfold step_local in E.
    apply bind_inv in E as (s4 & ? & [-> ->]%get_inv & E). apply bind_inv in E as (x & s5 & E & [_ <-]%ret_inv).
    apply step_written in E; [|by apply local_wf|exact Hf|exact Hr].
    destruct E as [Hg|Ht|Ht]; [|discriminate..].
    match type of Hg with grows ?a _ => apply (grows_after s a); [evolve_tac|apply Hr|by split|exact Hg] end. }
  destruct (state (r s)) eqn:Es; try (by apply Hel).
  left. by eapply calm_still, tick_heartbeat_evolve.
Qed.

Lemma commit_apply_grows i s u s' : room 1 s -> commit_apply i s = Ret (u, s') -> grows s s'.
Proof.
  intros [Hok Hr]. unfold commit_apply. intros (s0 & ? & [-> ->]%get_inv & E)%bind_inv. cbv zeta in E.
  apply bind_inv in E as (u1 & s1 & Ea & E). pose proof Ea as Eb. apply (on_log_pres calm _ (applied_to_pres i)) in Ea.
  pose proof (calm_still _ _ Ea) as Hs1. eapply grows_after; [by apply calm_evolve|exact Hok|exact Hs1|].
  destruct (_ && _) eqn:Ec; [|apply ret_inv in E as [_ <-]; by left].
  apply andb_true_iff in Ec as [_ Hl%bool_decide_eq_true].
  assert (room 1 s1) as Hr1 by (split; [by apply Ea|]; by rewrite (proj1 Hs1 Hok)).
  assert (state (r s1) = Leader) as Hl1 by (unfold on_log, RaftLog.applied_to in Eb; by prog_inv).
  apply bind_inv in E as (b & s2 & Ed & E). pose proof (append_entry_evolve anything _ _ _ _ Logic.I Ed Hr1) as [Hev _].
  apply append_entry_created in Ed; [|done..].
  eapply grows_quiet; [exact Hev|apply Hr1|by right|]. call_frame quiet E. frame. by split.
Qed.
End writes.
