(* ===== verification/RaftExample.v ===== *)
(** * A cluster of three

    A concrete run that the witnesses of the following files use: node 1 campaigns,
    node 2 votes for it, node 1 becomes leader, writes its first entry and hears that
    node 2 has it. *)

From S2P Require Import Prelude Proto Errors Util Inflights Progress Quorum Tracker ConfChange.
From S2P Require Import Log Unstable Storage RaftLog ReadOnly Config RaftCore Raft RaftFrame.

#[global] Instance no_debug : ConfigurationDebug := fun _ => ""%string.
#[global] Instance lowest : Rng.
Proof. refine {| gen_range := fun lo hi n => lo |}. intros. lia. Defined.

(** Replaces a closed term by its value. *)
Ltac evaluate x := let v := eval vm_compute in x in replace x with v by (vm_compute; reflexivity).

Section example.
#[local] Existing Instance ten_bytes.
#[local] Existing Instance sorted_order.
Import RaftCore Raft.

Definition store3 : MemStorage.t :=
  MemStorage.new <| MemStorageCore.raft_state := RaftState.mk HardState.default (ConfState_from [1; 2; 3] []) |>.
Definition config (i : Z) : Config.t := (Config.new i) <| Config.election_tick := 10 |> <| Config.heartbeat_tick := 1 |>.

Definition after {A} (m : Prog (Raft.t MemStorage.t) A) s := match m s with Ret (_, s') => s' | _ => s end.
Definition idle : Raft.t MemStorage.t :=
  initial 0 (config 1) (RaftLog.mk store3 (Unstable.new 1) 0 0 0) ConfState.default.

Definition booted (i : Z) : Raft.t MemStorage.t := match new 0 (config i) store3 with Ret (Ok s) => s | _ => idle end.
Definition node1 := booted 1.
Definition node2 := booted 2.

Definition msg_hup := new_message 0 MsgHup (Some 1).
Definition node1_candidate := after (step msg_hup) node1.
Definition vote_request := nth 0 (msgs node1_candidate) Message.default.
Definition node2_in_term := after (step_term vote_request) node2.
Definition node2_voted := after (step vote_request) node2.
Definition vote_response := nth 0 (msgs node2_voted) Message.default.
Definition node1_leader := after (step vote_response) node1_candidate.

(** The application stores the first entry, node 2 acknowledges it. *)
Definition stored_log : RaftLog.t MemStorage.t :=
  RaftLog.mk (MemStorage.new <| MemStorageCore.raft_state := RaftState.mk HardState.default (ConfState_from [1; 2; 3] []) |>
    <| MemStorageCore.entries := [Entry.default <| Entry.term := 1 |> <| Entry.index := 1 |>] |>) (Unstable.new 2) 0 1 0.
Definition node1_acked :=
  let s := node1_leader <| r := (r node1_leader) <| raft_log := stored_log |> |> in
  let s := after (on_progress 1 (Progress.maybe_update 1)) s in
  after (on_progress 2 (Progress.maybe_update 1)) s.

Lemma store3_ok : storage_ok store3.
Proof. split; [by vm_compute|done|by vm_compute|by left]. Qed.

Definition empty_log : RaftLog.t MemStorage.t := RaftLog.mk store3 (Unstable.new 1) 0 0 0.
Lemma empty_log_ok : log_ok empty_log.
Proof.
  split; [exact store3_ok|split; try done; vm_compute; congruence|..]; [|by vm_compute..].
  intros _. by split; vm_compute.
Qed.

Lemma node1_log : raft_log (r node1) = empty_log.
Proof. by vm_compute. Qed.
Lemma node2_log : raft_log (r node2) = empty_log.
Proof. by vm_compute. Qed.
Lemma node1_candidate_log : raft_log (r node1_candidate) = empty_log.
Proof. by vm_compute. Qed.
Lemma node2_in_term_log : raft_log (r node2_in_term) = empty_log.
Proof. by vm_compute. Qed.
Lemma node2_voted_log : raft_log (r node2_voted) = empty_log.
Proof. by vm_compute. Qed.
Lemma node1_acked_log : raft_log (r node1_acked) = stored_log.
Proof. by vm_compute. Qed.

Lemma stored_log_ok : log_ok stored_log.
Proof.
  split.
  - split; [by vm_compute|vm_compute; split; done|by vm_compute|by left].
  - split; try done; vm_compute; congruence.
  - intros _. by split; vm_compute.
  - by vm_compute.
  - by vm_compute.
  - by vm_compute.
Qed.

Lemma msg_hup_wf : wf_msg msg_hup.
Proof. evaluate msg_hup. by split. Qed.
Lemma vote_request_wf : wf_msg vote_request.
Proof. evaluate vote_request. by split. Qed.
Lemma vote_response_wf : wf_msg vote_response.
Proof. evaluate vote_response. by split. Qed.

Lemma fresh_at t (s : Raft.t MemStorage.t) : term (r s) = t -> 0 <= t < 1000 -> fresh s.
Proof. intros E Ht. unfold fresh. rewrite E. split; u64_lia. Qed.

(** A node with the empty log has room. *)
Lemma empty_log_room n s : raft_log (r s) = empty_log -> n < 1000 -> room n s.
Proof.
  intros E Hn. unfold room. rewrite E. split; [apply empty_log_ok|]. change (ALog.last (view empty_log)) with 0. u64_lia.
Qed.
End example.
