(* ===== verification/RaftProps.v ===== *)
(** * Properties of a node ([raft.rs])

    What holds along every sequence of operations of one node, what makes it
    leader, when it votes, commits and answers, and that its loops end. *)

From S2P Require Import Prelude Proto Errors Util Inflights Progress Quorum Tracker ConfChange.
From S2P Require Import Log Unstable Storage RaftLog ReadOnly Config RaftCore Raft RaftFrame RaftExample.

(** ** The life of a node *)
Section life.
Context {T : Type} `{StorageLaws T} `{Codec} `{HashOrder} `{ConfigurationDebug} `{Rng}.
Import RaftCore Raft.
Implicit Types s : Raft.t T.

(** What happens to a node: messages, time, configuration changes, the reports of the
    application, and the work of the application on the log and on the outgoing
    messages.  Words do not overflow: the term and the log have room. *)
Inductive own_work s : Raft.t T -> Prop :=
  | step_tick b s' : fresh s -> room 1 s -> tick s = Ret (b, s') -> own_work s s'
  | step_conf_change cc x s' : apply_conf_change cc s = Ret (x, s') -> own_work s s'
  | step_commit_apply i s' : room 1 s -> commit_apply i s = Ret (tt, s') -> own_work s s'
  | step_persist_entries i t s' : on_persist_entries i t s = Ret (tt, s') -> own_work s s'
  | step_persist_snap i s' : on_persist_snap i s = Ret (tt, s') -> own_work s s'
  | step_request_snapshot x s' : request_snapshot s = Ret (x, s') -> own_work s s'
  | step_ping s' : ping s = Ret (tt, s') -> own_work s s'
  | step_reduce es s' : reduce_uncommitted_size es s = Ret (tt, s') -> own_work s s'
  | step_enable_group_commit b s' : enable_group_commit b s = Ret (tt, s') -> own_work s s'
  | step_assign_commit_groups ids s' : assign_commit_groups ids s = Ret (tt, s') -> own_work s s'
  | step_take_messages : own_work s (s <| msgs := [] |> <| r := (r s) <| read_states := [] |> |>).
Inductive local_step s : Raft.t T -> Prop :=
  | step_own_work s' : own_work s s' -> local_step s s'
  | step_log_work l : log_step (raft_log (r s)) l -> local_step s (s <| r := (r s) <| raft_log := l |> |>).
Inductive raft_step s : Raft.t T -> Prop :=
  | step_message m x s' : wf_msg m -> fresh s -> room (len (Message.entries m) + 1) s ->
      step m s = Ret (x, s') -> raft_step s s'
  | step_local_work s' : local_step s s' -> raft_step s s'.

Lemma own_work_evolve s s' : own_work s s' -> evolve (leads (own_vote_wins s)) s s'.
Proof.
  intros [].
  - by eapply tick_evolve.
  - by eapply calm_evolve, apply_conf_change_pres.
  - by eapply writes_evolve, commit_apply_evolve.
  - by eapply calm_evolve, on_persist_entries_pres.
  - by eapply calm_evolve, on_persist_snap_pres.
  - by eapply quiet_evolve, request_snapshot_quiet.
  - by eapply calm_evolve, ping_pres.
  - by eapply calm_evolve, reduce_uncommitted_size_pres.
  - by eapply calm_evolve, enable_group_commit_pres.
  - by eapply calm_evolve, assign_commit_groups_pres.
  - split; fields; try evolve_field. right. by intros m _ ?%elem_of_nil.
Qed.

Definition works s : cause := Cause (fun _ => own_vote_wins s) (fun _ _ => False) False True True.
Lemma local_step_evolve s s' : local_step s s' -> evolve (works s) s s'.
Proof.
  intros [s1 ?|l ?]; [eapply evolve_mono; [|by apply own_work_evolve]; by split|]. split; fields; try evolve_field. by apply log_run_step.
Qed.

Lemma raft_step_evolve s s' : raft_step s s' -> evolve anything s s'.
Proof.
  intros [].
  - eapply evolve_mono; [apply weaker_anything|by eapply step_evolve].
  - eapply evolve_mono; [apply weaker_anything|by eapply local_step_evolve].
Qed.

Lemma raft_steps_evolve s s' : rtc raft_step s s' -> evolve anything s s'.
Proof. induction 1 as [|s1 s2 s3 Hs _ IH]; [done|]. etrans; [by apply raft_step_evolve|done]. Qed.

(** ** The start of a node *)

Lemma load_state_inv hs s u s' : load_state hs s = Ret (u, s') -> log_ok (raft_log (r s)) ->
  RaftLog.committed (raft_log (r s)) <= HardState.commit hs <= ALog.last (view (raft_log (r s))) /\
  s' = s <| r := (r s) <| raft_log := (raft_log (r s)) <| RaftLog.committed := HardState.commit hs |> |>
    <| term := HardState.term hs |> <| vote := HardState.vote hs |> |>.
Proof.
  intros E Hok. unfold load_state, ask_log, on_log in E. prog_inv.
  match goal with El : RaftLog.last_index _ = Ret ?y |- _ => rewrite last_index_run in El by done; injection El as <- end.
  match goal with Hc : _ || _ = false |- _ => apply orb_false_iff in Hc as [?%Z.ltb_ge ?%Z.ltb_ge] end.
  split; [lia|done].
Qed.

(** What a started node has restored. *)
Record started (c : Config.t) (hs : HardState.t) (cs : ConfState.t) (l : ALog.t) s : Prop := {
  st_log : log_ok (raft_log (r s)) /\ view (raft_log (r s)) = l;
  st_hard : term (r s) = HardState.term hs /\ vote (r s) = HardState.vote hs;
  st_committed : RaftLog.committed (raft_log (r s)) =
    if bool_decide (hs = HardState.default) then ALog.base l else HardState.commit hs;
  st_applied : RaftLog.applied (raft_log (r s)) = if 0 <? Config.applied c then Config.applied c else ALog.base l;
  st_role : state (r s) = Follower /\ leader_id (r s) = INVALID_ID /\ id (r s) = Config.id c;
  st_timeout : Config.min_election_ticks c <= randomized_election_timeout (r s) < Config.max_election_ticks c /\
    min_election_timeout (r s) = Config.min_election_ticks c /\
    max_election_timeout (r s) = Config.max_election_ticks c;
  st_conf : conf_state_eq (Configuration.to_conf_state (ProgressTracker.conf (prs s))) cs = true;
  st_promotable : promotable (r s) = is_voter s (Config.id c);
  st_msgs : msgs s = [];
  st_batch : batch_append (r s) = Config.batch_append c;
  st_stored : storage_log (RaftLog.store (raft_log (r s))) = l
}.

Lemma commit_apply_idle i s u s' : state (r s) <> Leader -> commit_apply i s = Ret (u, s') ->
  log_ok (raft_log (r s)) -> exists l, log_ok l /\ view l = view (raft_log (r s)) /\
    RaftLog.committed l = RaftLog.committed (raft_log (r s)) /\ RaftLog.store l = RaftLog.store (raft_log (r s)) /\
    (i <> 0 -> RaftLog.applied l = i) /\
    s' = s <| r := (r s) <| raft_log := l |> |>.
Proof.
  intros Hs. unfold commit_apply. intros (s0 & ? & [-> ->]%get_inv & E)%bind_inv Hok. cbv zeta in E.
  apply bind_inv in E as (u1 & s1 & Ea & E). rewrite (bool_decide_eq_false_2 _ Hs), andb_false_r in E.
  apply ret_inv in E as [_ <-]. unfold on_log in Ea. apply zoom_inv in Ea as (l & Ea & ->).
  destruct u1. pose proof (proj1 (proj1 (applied_to_pres i _ _ _ Ea)) Hok) as [Hok' _]. exists l.
  unfold RaftLog.applied_to in Ea. prog_inv; split_and!; try done; intros; lia.
Qed.

Lemma load_state_ok hs s u s' : load_state hs s = Ret (u, s') -> log_ok (raft_log (r s)) -> log_ok (raft_log (r s')).
Proof.
  intros E Hok. apply load_state_inv in E as [Hc ->]; [|done]. fields. by apply committed_ok.
Qed.

Lemma start_inv d c l rs s x : log_ok l -> RaftLog.committed l = ALog.base (view l) -> RaftLog.applied l = ALog.base (view l) ->
  storage_log (RaftLog.store l) = view l -> 0 <= Config.applied c ->
  start c rs (initial d c l (RaftState.conf_state rs)) = Ret (Ok x, s) ->
  started c (RaftState.hard_state rs) (RaftState.conf_state rs) (view l) s.
Proof.
  intros Hok Hcm Hap Hstored Hpos. set (s0 := initial d c l (RaftState.conf_state rs)).
  unfold start, ask_log. cbv zeta. intros (li & s1 & [_ ->]%asks_inv & E)%bind_inv.
  apply try_bind_inv in E as [(u & s1 & E1 & E)|(? & _ & ?)]; [|done].
  apply zoom_inv in E1 as (p & E1 & ->). set (s1 := s0 <| prs := p |>) in *.
  apply bind_inv in E as (cs & s2 & E2 & E). apply post_conf_change_idle in E2 as [Hcs ->]; [|done].
  apply bind_inv in E as (u1 & s2 & [Heq ->]%assert_inv & E).
  set (s2 := s1 <| r := _ |>) in *.
  apply bind_inv in E as (u2 & s3 & E3 & E).
  assert (Hs3 : s3 = if bool_decide (RaftState.hard_state rs = HardState.default) then s2 else
    s2 <| r := (r s2) <| raft_log := l <| RaftLog.committed := HardState.commit (RaftState.hard_state rs) |> |>
      <| term := HardState.term (RaftState.hard_state rs) |> <| vote := HardState.vote (RaftState.hard_state rs) |> |>).
  { destruct (bool_decide _); simpl in E3; [by injection E3|]. by apply load_state_inv in E3 as [_ ->]. }
  assert (log_ok (raft_log (r s3))) as Hok3.
  { apply when_inv in E3 as [[_ E3]|[_ ->]]; [|exact Hok]. by eapply load_state_ok. }
  assert (state (r s3) = Follower /\ id (r s3) = Config.id c /\ prs s3 = prs s2 /\ msgs s3 = [] /\ promotable (r s3) = is_voter s2 (Config.id c) /\
    min_election_timeout (r s3) = Config.min_election_ticks c /\ max_election_timeout (r s3) = Config.max_election_ticks c /\
    view (raft_log (r s3)) = view l /\ RaftLog.applied (raft_log (r s3)) = ALog.base (view l) /\
    RaftLog.committed (raft_log (r s3)) = (if bool_decide (RaftState.hard_state rs = HardState.default) then ALog.base (view l)
      else HardState.commit (RaftState.hard_state rs)) /\
    term (r s3) = HardState.term (RaftState.hard_state rs) /\ vote (r s3) = HardState.vote (RaftState.hard_state rs) /\
    RaftLog.store (raft_log (r s3)) = RaftLog.store l /\ batch_append (r s3) = Config.batch_append c)
    as (Hst & Hid & Hprs & Hmsgs & Hpro & Hmin & Hmax & Hview & Happ & Hcom & Hterm & Hvote & Hstore & Hbatch).
  { subst s3. case_bool_decide as Hd; [rewrite Hd|]; by split_and!. }
  clear Hs3 E3 Hcm Hap. apply bind_inv in E as (u3 & s4 & E4 & E).
  assert (exists l4, s4 = s3 <| r := (r s3) <| raft_log := l4 |> |> /\ log_ok l4 /\ view l4 = view l /\
    RaftLog.committed l4 = RaftLog.committed (raft_log (r s3)) /\ RaftLog.store l4 = RaftLog.store (raft_log (r s3)) /\
    RaftLog.applied l4 = if 0 <? Config.applied c then Config.applied c else ALog.base (view l))
    as (l4 & -> & Hok4 & Hv4 & Hc4 & Hs4 & Ha4).
  { apply when_inv in E4 as [[Hp E4]|[Hp ->]]; rewrite Hp.
    - apply commit_apply_idle in E4 as (l4 & ? & Hv & ? & ? & Ha & ->); [|congruence|done]. exists l4.
      split_and!; try done; [congruence|]. apply Ha. apply Z.ltb_lt in Hp. lia.
    - exists (raft_log (r s3)). split_and!; try done. destruct s3 as [? ? [] ?]. done. }
  apply bind_inv in E as (s5 & ? & [-> ->]%get_inv & E). apply bind_inv in E as (u4 & s5 & E & [_ <-]%ret_inv).
  apply become_follower_inv in E as (s6 & Hw & ->). destruct Hw. fields.
  assert (ProgressTracker.conf (prs s3) = ProgressTracker.conf p) as Hcp by by rewrite Hprs.
  split; fields.
  - rewrite wr_log. fields. done.
  - rewrite wr_term, wr_vote, Z.eqb_refl. fields. done.
  - rewrite wr_log. fields. by rewrite Hc4.
  - rewrite wr_log. fields. done.
  - rewrite wr_id. fields. done.
  - rewrite wr_min, wr_max. fields. rewrite <-Hmin, <-Hmax. done.
  - rewrite wr_conf. fields. rewrite Hcp. rewrite Hcs in Heq. exact Heq.
  - rewrite wr_promotable. fields. rewrite Hpro. unfold is_voter. fields. by rewrite wr_conf, Hcp.
  - rewrite wr_msgs. fields. exact Hmsgs.
  - rewrite wr_batch. fields. exact Hbatch.
  - rewrite wr_log. fields. by rewrite Hs4, Hstore.
Qed.

Lemma new_started d c store rs s : storage_ok store -> ALog.last (storage_log store) < u64_MAX - 1 ->
  0 <= Config.applied c -> initial_state store = Ret (Ok rs) -> new d c store = Ret (Ok s) ->
  Config.validate c = Ok tt /\
  started c (RaftState.hard_state rs) (RaftState.conf_state rs) (storage_log store) s.
Proof.
  intros Hs Hb Ha Hinit Hnew. unfold new in Hnew. destruct (Config.validate c) as [[]|e]; [|done]. split; [done|].
  rewrite Hinit in Hnew. cbn [mbind outcome_bind] in Hnew.
  destruct (RaftLog.new store) as [l| |] eqn:El; try done. cbn [mbind outcome_bind] in Hnew.
  destruct (new_ok store l Hs Hb El) as (Hok & Hv & Hc & Hap). rewrite <-Hv in Hc, Hap.
  destruct (start _ _ _) as [[[x|e] s1]| |] eqn:Es; try done. injection Hnew as <-. rewrite <-Hv.
  assert (RaftLog.store l = store) as Hl by (unfold RaftLog.new in El; by prog_inv).
  eapply start_inv; try done. by rewrite Hl, Hv.
Qed.

(** ** Votes *)

Lemma send_run m s : Message.from m = INVALID_ID -> is_vote_response (Message.msg_type m) = true ->
  Message.term m <> 0 ->
  send m s = Ret (tt, s <| msgs := msgs s ++ [m <| Message.from := id (r s) |>] |>).
Proof.
  intros Hf Ht Hn. unfold send, Sending.send. prog_unfold. rewrite Hf. simpl. fields. rewrite Ht, orb_true_r.
  fields. rewrite (proj2 (Z.eqb_neq _ _) Hn). fields.
  assert (is_vote_request (Message.msg_type m) = false) as -> by (by destruct (Message.msg_type m)). done.
Qed.

(** The log position of a candidate is at least that of the voter. *)
Definition up_to_date (l : ALog.t) (last_index' term' last_term' : Z) : bool :=
  (last_term' <? term') || ((term' =? last_term') && (ALog.last l <=? last_index')).

Lemma last_term_run (rl : RaftLog.t T) t : log_ok rl -> lterm (view rl) (ALog.last (view rl)) = Some t ->
  RaftLog.last_term rl = Ret t.
Proof.
  intros Hok Ht. unfold RaftLog.last_term. rewrite last_index_run by done. cbn [mbind outcome_bind].
  pose proof (lo_committed _ Hok). pose proof (view_bounds _ Hok).
  rewrite term_run by (done || lia). by rewrite Ht.
Qed.

Lemma is_up_to_date_run (rl : RaftLog.t T) i t t' : log_ok rl -> lterm (view rl) (ALog.last (view rl)) = Some t' ->
  RaftLog.is_up_to_date rl i t = Ret (up_to_date (view rl) i t t').
Proof.
  intros Hok Ht. unfold RaftLog.is_up_to_date, up_to_date. rewrite (last_term_run _ _ Hok Ht). cbn [mbind outcome_bind].
  destruct (t' <? t); [done|]. by rewrite last_index_run.
Qed.

(** When a vote may be given: it was given to the sender already, or to nobody and no
    leader is known, or a pre-vote asks about a later term. *)
Definition may_vote s (m : Message.t) : Prop :=
  vote (r s) = Message.from m \/ (vote (r s) = INVALID_ID /\ leader_id (r s) = INVALID_ID) \/
  (Message.msg_type m = MsgRequestPreVote /\ term (r s) < Message.term m).
#[export] Instance may_vote_dec s m : Decision (may_vote s m).
Proof. unfold may_vote. apply _. Defined.
Lemma can_vote_spec s m : can_vote s m = bool_decide (may_vote s m).
Proof.
  apply eq_true_iff_eq. rewrite bool_decide_eq_true. unfold can_vote, may_vote.
  rewrite !orb_true_iff, !andb_true_iff, !Z.eqb_eq, Z.ltb_lt, bool_decide_eq_true. tauto.
Qed.

(** A vote request while the lease of a leader runs, other than one of a leader transfer. *)
Definition leased s (m : Message.t) : Prop :=
  (Message.msg_type m = MsgRequestVote \/ Message.msg_type m = MsgRequestPreVote) /\ Message.context m <> CAMPAIGN_TRANSFER /\
  check_quorum (r s) = true /\ leader_id (r s) <> INVALID_ID /\ election_elapsed (r s) < election_timeout (r s).
#[export] Instance leased_dec s m : Decision (leased s m).
Proof. unfold leased. apply _. Defined.
Lemma lease_protects_spec s m : lease_protects s m = bool_decide (leased s m).
Proof.
  apply eq_true_iff_eq. rewrite bool_decide_eq_true. unfold lease_protects, leased.
  rewrite !andb_true_iff, !negb_true_iff, Z.eqb_neq, Z.ltb_lt, bool_decide_eq_false.
  assert (is_vote_request (Message.msg_type m) = true <->
    Message.msg_type m = MsgRequestVote \/ Message.msg_type m = MsgRequestPreVote) as -> by (destruct (Message.msg_type m); naive_solver).
  tauto.
Qed.

Lemma grants_vote_run m s t : log_ok (raft_log (r s)) ->
  lterm (view (raft_log (r s))) (ALog.last (view (raft_log (r s)))) = Some t ->
  grants_vote m s = Ret (bool_decide (may_vote s m) && up_to_date (view (raft_log (r s))) (Message.index m) (Message.log_term m) t
    && ((ALog.last (view (raft_log (r s))) <? Message.index m) || (priority (r s) <=? get_priority m)), s).
Proof.
  intros Hok Ht. unfold grants_vote, ask_log. prog_unfold. rewrite can_vote_spec. destruct (bool_decide (may_vote s m)); [|done]. simpl.
  rewrite (is_up_to_date_run _ _ _ _ Hok Ht). destruct (up_to_date _ _ _ _); [|done]. simpl.
  by rewrite last_index_run.
Qed.

Lemma commit_info_run (rl : RaftLog.t T) t : log_ok rl -> lterm (view rl) (RaftLog.committed rl) = Some t ->
  RaftLog.commit_info rl = Ret (RaftLog.committed rl, t).
Proof.
  intros Hok Ht. unfold RaftLog.commit_info. pose proof (lo_committed _ Hok). pose proof (view_bounds _ Hok).
  rewrite term_run by (done || lia). by rewrite Ht.
Qed.

Lemma reset_runs t s : log_ok (raft_log (r s)) -> min_election_timeout (r s) < max_election_timeout (r s) ->
  exists s', reset t s = Ret (tt, s').
Proof.
  intros Hok Hlt. unfold reset, reset_randomized_election_timeout, abort_leader_transfer, on_prs, ask_log.
  erewrite bind_run by reflexivity.
  match goal with |- context [when ?b ?m] => assert (exists s1, when b m s = Ret (tt, s1) /\
    raft_log (r s1) = raft_log (r s) /\ min_election_timeout (r s1) = min_election_timeout (r s) /\
    max_election_timeout (r s1) = max_election_timeout (r s)) as (s1 & E & Hl & Hmin & Hmax) end.
  { destruct (negb _); eexists; (split; [reflexivity|done]). }
  erewrite bind_run by exact E. erewrite bind_run by reflexivity. rewrite <-Hmin, <-Hmax in Hlt. rewrite <-Hl in Hok. clear E.
  erewrite bind_run.
  2: { erewrite bind_run by reflexivity. cbv zeta. unfold min_election_timeout, max_election_timeout, set in *.
       rewrite (proj2 (Z.leb_gt _ _)) by exact Hlt. reflexivity. }
  do 7 (erewrite bind_run by reflexivity).
  erewrite bind_run by (apply asks_run; exact (last_index_run _ Hok)). eexists. reflexivity.
Qed.

Lemma become_follower_runs t l s : log_ok (raft_log (r s)) -> min_election_timeout (r s) < max_election_timeout (r s) ->
  exists s', become_follower t l s = Ret (tt, s').
Proof.
  intros Hok Hlt. destruct (reset_runs t s Hok Hlt) as [s1 E]. unfold become_follower.
  erewrite bind_run by reflexivity. erewrite bind_run by exact E. prog_unfold. eauto.
Qed.

(** Whether the commit index of a vote message is known to be committed here too. *)
Definition fast_forwards s (m : Message.t) : bool :=
  negb (Message.commit_term m =? 0) && (RaftLog.committed (raft_log (r s)) <? Message.commit m)
  && negb (bool_decide (state (r s) = Leader))
  && matches (view (raft_log (r s))) (Message.commit m) (Message.commit_term m).

Lemma matches_inside l i t : t <> 0 -> matches l i t = true -> ALog.base l <= i <= ALog.last l.
Proof.
  intros Ht Hm%bool_decide_eq_true. unfold lterm in Hm. destruct (_ && _) eqn:Er; [|congruence].
  apply andb_true_iff in Er as [?%Z.leb_le ?%Z.leb_le]. done.
Qed.

Lemma log_maybe_commit_run (rl : RaftLog.t T) i t : log_ok rl -> RaftLog.committed rl < i -> t <> 0 ->
  RaftLog.maybe_commit i t rl =
    Ret (matches (view rl) i t, if matches (view rl) i t then rl <| RaftLog.committed := i |> else rl).
Proof.
  intros Hok Hi Ht. unfold RaftLog.maybe_commit. prog_unfold. rewrite (proj2 (Z.leb_gt _ _)) by lia.
  pose proof (lo_committed _ Hok). pose proof (view_bounds _ Hok). rewrite term_run by (done || lia).
  unfold matches. destruct (lterm (view rl) i) as [ti|] eqn:Et; [|by rewrite bool_decide_eq_false_2].
  destruct (Z.eqb_spec ti t) as [->|Hne]; [|by rewrite bool_decide_eq_false_2 by congruence].
  rewrite bool_decide_eq_true_2 by done. rewrite commit_to_run; [by rewrite Z.max_r by lia|done|].
  unfold lterm in Et. destruct (_ && _) eqn:Er; [|congruence]. apply andb_true_iff in Er as [_ ?%Z.leb_le]. done.
Qed.

(** What taking over the commit index [i] of a vote message does: the entries up to it are committed, and a
    node that campaigns steps down if a change of the configuration is among them. *)
Record took_commit s (i : Z) s' : Prop := {
  tc_term : term (r s') = term (r s);
  tc_vote : vote (r s') = vote (r s);
  tc_msgs : msgs s' = msgs s;
  tc_view : view (raft_log (r s')) = view (raft_log (r s));
  tc_committed : RaftLog.committed (raft_log (r s')) = i;
  tc_effect : exists store, storage_ok store /\ storage_log store = storage_log (RaftLog.store (raft_log (r s))) /\
    let s1 := s <| r := (r s) <| raft_log := (raft_log (r s)) <| RaftLog.committed := i |> <| RaftLog.store := store |> |> |> in
    if (bool_decide (state (r s) = Candidate) || bool_decide (state (r s) = PreCandidate))
       && negb (num_pending_conf (ALog.range (view (raft_log (r s))) (RaftLog.committed (raft_log (r s)) + 1) (i + 1)) =? 0)
    then become_follower (term (r s)) INVALID_ID s1 = Ret (tt, s') /\
      state (r s') = Follower /\ leader_id (r s') = INVALID_ID /\ election_elapsed (r s') = 0
    else s' = s1
}.

Lemma maybe_commit_by_vote_runs m s : log_ok (raft_log (r s)) -> 0 <= Message.commit m ->
  min_election_timeout (r s) < max_election_timeout (r s) ->
  exists s', maybe_commit_by_vote m s = Ret (tt, s') /\
    if fast_forwards s m then took_commit s (Message.commit m) s' else s' = s.
Proof.
  intros Hok Hm Hlt. unfold maybe_commit_by_vote, fast_forwards. pose proof (lo_committed _ Hok). pose proof (view_bounds _ Hok).
  destruct (Z.eqb_spec (Message.commit_term m) 0) as [Hz|Hz].
  { rewrite orb_true_r. by eexists. }
  destruct (Z.eqb_spec (Message.commit m) 0) as [Hc|Hc].
  { rewrite (proj2 (Z.ltb_ge _ _)) by lia. by eexists. }
  cbn [orb negb andb]. erewrite bind_run by reflexivity. cbv zeta.
  destruct (Z.leb_spec (Message.commit m) (RaftLog.committed (raft_log (r s)))) as [Hle|Hgt].
  { rewrite (proj2 (Z.ltb_ge _ _)) by lia. by eexists. }
  rewrite (proj2 (Z.ltb_lt _ _)) by lia. cbn [orb andb].
  destruct (bool_decide (state (r s) = Leader)); [by eexists|].
  cbn [negb andb]. erewrite bind_run by (apply zoom_run, log_maybe_commit_run; done).
  destruct (matches _ _ _) eqn:Em; cbn [negb].
  2: { eexists. split; [reflexivity|]. fields. by destruct s as [? ? [] ?]. }
  pose proof (matches_inside _ _ _ Hz Em) as Hin.
  set (l1 := (raft_log (r s)) <| RaftLog.committed := Message.commit m |>).
  assert (log_ok l1) as Hok1 by (apply committed_ok; [done|lia]).
  set (s1 := s <| r := (r s) <| raft_log := l1 |> |>).
  destruct (negb (bool_decide (state (r s) = Candidate)) && negb (bool_decide (state (r s) = PreCandidate))) eqn:Erole.
  { exists s1. split; [done|]. split; try done. exists (RaftLog.store (raft_log (r s))). split_and!; [apply Hok|done|].
    rewrite <-negb_orb in Erole. apply (f_equal negb) in Erole. rewrite negb_involutive in Erole. rewrite Erole. done. }
  rewrite <-negb_orb in Erole. apply negb_false_iff in Erole.
  erewrite bind_run by reflexivity.
  destruct (slice_run l1 (RaftLog.committed (raft_log (r s)) + 1) (Message.commit m + 1) None CommitByVote Hok1)
    as (x & l2 & Es & (st & -> & Hst & Hlog) & Hx); [change (view l1) with (view (raft_log (r s))); lia..|].
  destruct Hx as [[_ ?]|(es & -> & _ & _ & Hall)]; [done|]. specialize (Hall eq_refl).
  assert (log_ok (l1 <| RaftLog.store := st |>)) as Hok2 by (eapply same_log_ok; [exact Hok1|by exists st]).
  assert (view (l1 <| RaftLog.store := st |>) = view (raft_log (r s))) as Hv2
    by (apply (same_log_view l1); by exists st).
  erewrite bind_run.
  2: { apply zoom_run. change (RaftLog.committed (raft_log (r s1))) with (Message.commit m).
       rewrite !u64_add_small by u64_lia. exact Es. }
  erewrite bind_run by reflexivity. change (view l1) with (view (raft_log (r s))) in Hall. subst es.
  destruct (negb (num_pending_conf _ =? 0)) eqn:Epend.
  - erewrite bind_run by reflexivity.
    match goal with |- context [become_follower ?t ?l ?a = _] =>
      destruct (become_follower_runs t l a Hok2 Hlt) as [s3 E]; exists s3; split; [exact E|];
      pose proof E as E0; apply become_follower_inv in E as (s4 & Hw & ->); destruct Hw end. fields.
    split; fields; rewrite ?wr_term, ?wr_vote, ?wr_msgs, ?wr_log, ?Z.eqb_refl; fields; try done.
    exists st. split_and!; [done..|]. cbv zeta. rewrite Erole, Epend. cbn [andb]. by split_and!.
  - eexists. split; [reflexivity|]. split; fields; try done. exists st. split_and!; [done..|]. cbv zeta. by rewrite Erole, Epend.
Qed.

(** The verdict on a vote request and the answer to it. *)
Definition vote_granted s (m : Message.t) (last_term' : Z) : bool :=
  bool_decide (may_vote s m) && up_to_date (view (raft_log (r s))) (Message.index m) (Message.log_term m) last_term'
  && ((ALog.last (view (raft_log (r s))) <? Message.index m) || (priority (r s) <=? get_priority m)).

Definition vote_answer s (m : Message.t) (g : bool) (commit_term' : Z) : Message.t :=
  Message.default <| Message.msg_type := if bool_decide (Message.msg_type m = MsgRequestVote)
                                         then MsgRequestVoteResponse else MsgRequestPreVoteResponse |>
    <| Message.to := Message.from m |> <| Message.from := id (r s) |> <| Message.reject := negb g |>
    <| Message.term := if g then Message.term m else term (r s) |>
    <| Message.commit := if g then 0 else RaftLog.committed (raft_log (r s)) |>
    <| Message.commit_term := if g then 0 else commit_term' |>.

(** ** The term of a message *)

(** The answer to a message of an old term. *)
Definition stale_answer s (m : Message.t) : list Message.t :=
  let answer := Message.default <| Message.to := Message.from m |> <| Message.from := id (r s) |>
                  <| Message.term := term (r s) |> in
  if (check_quorum (r s) || pre_vote (r s))
     && (bool_decide (Message.msg_type m = MsgHeartbeat) || bool_decide (Message.msg_type m = MsgAppend))
  then [answer <| Message.msg_type := MsgAppendResponse |>]
  else if bool_decide (Message.msg_type m = MsgRequestPreVote)
  then [answer <| Message.msg_type := MsgRequestPreVoteResponse |> <| Message.reject := true |>]
  else [].

(** Whether a message of a later term leaves the term of this node alone. *)
Definition keeps_term (m : Message.t) : bool :=
  bool_decide (Message.msg_type m = MsgRequestPreVote)
  || (bool_decide (Message.msg_type m = MsgRequestPreVoteResponse) && negb (Message.reject m)).
Definition from_leader (m : Message.t) : bool :=
  bool_decide (Message.msg_type m = MsgAppend) || bool_decide (Message.msg_type m = MsgHeartbeat)
  || bool_decide (Message.msg_type m = MsgSnapshot).

Lemma become_follower_result t l s : log_ok (raft_log (r s)) -> min_election_timeout (r s) < max_election_timeout (r s) ->
  term (r s) <> t ->
  exists s', become_follower t l s = Ret (tt, s') /\ term (r s') = t /\ vote (r s') = INVALID_ID /\
    state (r s') = Follower /\ leader_id (r s') = l /\ raft_log (r s') = raft_log (r s) /\ msgs s' = msgs s /\
    ProgressTracker.conf (prs s') = ProgressTracker.conf (prs s).
Proof.
  intros Hok Hlt Hne. destruct (become_follower_runs t l s Hok Hlt) as [s' E]. exists s'. split; [exact E|].
  apply become_follower_inv in E as (s1 & Hw & ->). destruct Hw. fields.
  rewrite (proj2 (Z.eqb_neq _ _) Hne) in wr_vote. by split_and!.
Qed.
End life.

(** ** The commit rule of a leader *)
Section commit.
Context `{HashOrder}.

(** A majority of each half of the configuration has acknowledged [j]. *)
Definition quorum_acked (c : Joint.Configuration) (l : AckedIndexer) (j : Z) : Prop :=
  majority (Majority.voter_count (Joint.incoming c)) <= Z.of_nat (size (reached (Joint.incoming c) l j)) /\
  (Majority.voters (Joint.outgoing c) <> ∅ ->
   majority (Majority.voter_count (Joint.outgoing c)) <= Z.of_nat (size (reached (Joint.outgoing c) l j))).

Lemma joint_commit_value c l : Majority.voters (Joint.incoming c) <> ∅ ->
  exists i b, Joint.committed_index c false l = Ret (i, b) /\
    forall j, j <= u64_MAX -> (j <= i <-> quorum_acked c l j).
Proof.
  intros Hin. destruct (majority_commit_value (Joint.incoming c) l Hin) as (i & Ei & Hi).
  unfold Joint.committed_index. rewrite Ei. cbn [mbind outcome_bind].
  destruct (decide (Majority.voters (Joint.outgoing c) = ∅)) as [Ho|Ho].
  - unfold Majority.committed_index, Majority.is_empty. rewrite bool_decide_eq_true_2 by done.
    eexists _, _. split; [reflexivity|]. intros j Hj. unfold quorum_acked. rewrite <-Hi. split; [|lia].
    intros. split; [lia|done].
  - destruct (majority_commit_value (Joint.outgoing c) l Ho) as (o & Eo & Hoj). rewrite Eo.
    eexists _, _. split; [reflexivity|]. intros j Hj. unfold quorum_acked. rewrite <-Hi, <-Hoj.
    split; [intros; split; [lia|intros; lia]|]. intros [? Hx]. specialize (Hx Ho). lia.
Qed.
End commit.

(** ** Properties *)
Section properties.
Context {T : Type} `{StorageLaws T} `{Codec} `{HashOrder} `{ConfigurationDebug} `{Rng}.
Import RaftCore Raft.

(** C4 — One vote per term: along every sequence of operations the term of a node never
    decreases, and a vote it has given stays given as long as the term is the same. *)
Theorem term_and_vote_stable (s s' : Raft.t T) (Hrun : rtc raft_step s s') :
  id (r s') = id (r s) /\ term (r s) <= term (r s') /\
  (term (r s') = term (r s) -> vote (r s) <> INVALID_ID -> vote (r s') = vote (r s)).
Proof.
  destruct (raft_steps_evolve _ _ Hrun). split; [done|]. split; [done|].
  intros Ht Hv. by destruct (e_vote Ht).
Qed.

(** C5 — A node becomes leader only with a quorum: when a message leaves a node leader that
    was not leader of that term before, the votes recorded with this message (a vote
    response to a candidate of the term) or its own vote alone win, that is, a majority of the
    incoming and, in a joint configuration, of the outgoing voters has granted. *)
Theorem leader_needs_quorum (s s' : Raft.t T) (m : Message.t) (x : Result unit) (Hm : wf_msg m) (Hf : fresh s)
    (Hr : room (len (Message.entries m) + 1) s) (Hstep : step m s = Ret (x, s')) (Hl : state (r s') = Leader) :
  (state (r s) = Leader /\ term (r s') = term (r s)) \/
  exists votes,
    ((Message.msg_type m = MsgRequestVoteResponse /\ state (r s) = Candidate /\ term (r s') = term (r s) /\
      votes = ProgressTracker.votes (ProgressTracker.record_vote (Message.from m) (negb (Message.reject m)) (prs s)))
     \/ votes = {[ id (r s) := true ]}) /\
    let c := Configuration.voters (ProgressTracker.conf (prs s)) in
    let grants maj := granted maj (fun i => votes !! i) in
    (Majority.voters (Joint.incoming c) = ∅ \/
     majority (Majority.voter_count (Joint.incoming c)) <= Z.of_nat (size (grants (Joint.incoming c)))) /\
    (Majority.voters (Joint.outgoing c) = ∅ \/
     majority (Majority.voter_count (Joint.outgoing c)) <= Z.of_nat (size (grants (Joint.outgoing c)))).
Proof.
  destruct (e_leader _ _ _ (step_evolve m s x s' Hm Hf Hr Hstep) Hl) as [?|[(Hty & Hst & _ & Ht & Hw)|Hw]]; [by left|..]; right.
  - eexists. split; [left; split_and!; [done..|reflexivity]|]. cbv zeta.
    rewrite <-!vote_won, <-joint_won. exact Hw.
  - eexists. split; [by right|]. cbv zeta. rewrite <-!vote_won, <-joint_won. exact Hw.
Qed.

(** C13 — [Raft::new] restores a node: it comes up as a follower without a leader, with the term
    and the vote of the stored hard state, the stored log, commit index and applied
    index, a well-formed log, the stored configuration, and an election timeout in the
    configured range. *)
Theorem new_correct (d : nat) (c : Config.t) (store : T) (rs : RaftState.t) (s : Raft.t T) (Hs : storage_ok store)
    (Hb : ALog.last (storage_log store) < u64_MAX - 1) (Ha : 0 <= Config.applied c)
    (Hinit : initial_state store = Ret (Ok rs)) (Hnew : new d c store = Ret (Ok s)) :
  Config.validate c = Ok tt /\
  started c (RaftState.hard_state rs) (RaftState.conf_state rs) (storage_log store) s.
Proof. by eapply new_started. Qed.

(** C6 — The log of a node: from its start on, through every sequence of operations, its log is
    well formed, applied <= min(committed, persisted), the commit index only grows,
    entries at or below a commit index never change (until they are compacted), and
    the election timeout stays in the configured range. *)
Theorem node_log_safety (d : nat) (c : Config.t) (store : T) (rs : RaftState.t) (s0 s s' : Raft.t T)
    (Hs : storage_ok store) (Hb : ALog.last (storage_log store) < u64_MAX - 1) (Ha : 0 <= Config.applied c)
    (Hinit : initial_state store = Ret (Ok rs)) (Hnew : new d c store = Ret (Ok s0))
    (Hrun : rtc raft_step s0 s) (Hrun' : rtc raft_step s s') :
  let log := raft_log (r s) in
  let log' := raft_log (r s') in
  log_ok log' /\ RaftLog.applied log' <= Z.min (RaftLog.committed log') (RaftLog.persisted log') /\
  RaftLog.committed log <= RaftLog.committed log' /\
  (forall i, ALog.base (view log') < i <= RaftLog.committed log -> ALog.at_index (view log') i = ALog.at_index (view log) i) /\
  Config.min_election_ticks c <= randomized_election_timeout (r s') < Config.max_election_ticks c.
Proof.
  destruct (new_started d c store rs s0 Hs Hb Ha Hinit Hnew) as [_ Hst].
  pose proof (raft_steps_evolve _ _ Hrun) as He. pose proof (raft_steps_evolve _ _ Hrun') as He'.
  destruct (e_log _ _ _ He (proj1 (st_log _ _ _ _ _ Hst))) as [Hok _].
  destruct (e_log _ _ _ He' Hok) as [Hok' Hrtc].
  destruct (log_steps_good _ _ Hok Hrtc) as (_ & Hc & _ & _ & Hi). cbv zeta.
  split; [done|]. split; [apply (lo_applied _ Hok')|]. split; [done|]. split; [done|].
  destruct (st_timeout _ _ _ _ _ Hst) as (Ht & Hmin & Hmax).
  assert (evolve anything s0 s') as [] by by etrans. rewrite Hmin, Hmax in *.
  destruct e_rand as [->|]; done.
Qed.

(** All that a vote request changes. *)
Definition vote_effect s (m : Message.t) (g : bool) (commit_term' : Z) s' : Prop :=
  let sent := s <| msgs := msgs s ++ [vote_answer s m g commit_term'] |> in
  if g then
    if bool_decide (Message.msg_type m = MsgRequestVote)
    then s' = sent <| r := (r s) <| election_elapsed := 0 |> <| vote := Message.from m |> |>
    else s' = sent
  else if fast_forwards s m then took_commit sent (Message.commit m) s'
  else s' = sent.

(** C9 — Answer to a vote request: the vote is granted exactly if the node has given it already
    or has neither voted nor a leader (or it is a pre-vote of a later term), the log of
    the candidate is at least as up to date, and it is longer or its priority is not lower.
    One answer is sent.  A granted real vote is recorded and starts the election timeout anew; a granted
    pre-vote changes nothing else.  A rejection tells the commit index, and takes over the one of the
    request if that entry is here (where a node that campaigns steps down if a change of the
    configuration is committed by that), and changes nothing else.  The term never changes.  The call
    panics exactly if the rejection would carry the term 0. *)
Theorem vote_request_correct (s : Raft.t T) (m : Message.t) (last_term' commit_term' : Z)
    (Hok : log_ok (raft_log (r s))) (Hr : min_election_timeout (r s) < max_election_timeout (r s))
    (Hlast : lterm (view (raft_log (r s))) (ALog.last (view (raft_log (r s)))) = Some last_term')
    (Hcommit : lterm (view (raft_log (r s))) (RaftLog.committed (raft_log (r s))) = Some commit_term')
    (Hty : is_vote_request (Message.msg_type m) = true) (Hm : Message.term m <> 0) (Hc : 0 <= Message.commit m) :
  let g := vote_granted s m last_term' in
  if negb g && (term (r s) =? 0) then handle_vote_request m s = Panic
  else exists s', handle_vote_request m s = Ret (tt, s') /\
    term (r s') = term (r s) /\
    msgs s' = msgs s ++ [vote_answer s m g commit_term'] /\
    vote (r s') = (if g && bool_decide (Message.msg_type m = MsgRequestVote) then Message.from m else vote (r s)) /\
    view (raft_log (r s')) = view (raft_log (r s)) /\
    RaftLog.committed (raft_log (r s')) =
      (if negb g && fast_forwards s m then Message.commit m else RaftLog.committed (raft_log (r s))) /\
    vote_effect s m g commit_term' s'.
Proof.
  cbv zeta. unfold handle_vote_request. erewrite bind_run by (by apply grants_vote_run). fold (vote_granted s m last_term').
  set (g := vote_granted s m last_term').
  set (ty := if bool_decide (Message.msg_type m = MsgRequestVote) then MsgRequestVoteResponse else MsgRequestPreVoteResponse).
  assert (vote_resp_msg_type (Message.msg_type m) = Ret ty) as Hresp by (unfold ty; by destruct (Message.msg_type m)).
  assert (is_vote_response ty = true) as Hty' by (unfold ty; by case_bool_decide).
  erewrite bind_run by (rewrite Hresp; reflexivity). cbv zeta. unfold vote_effect. destruct g eqn:Eg; cbn [negb andb].
  - erewrite bind_run by (apply send_run; done). unfold vote_answer. fold ty. case_bool_decide as Hv; eexists; (split; [reflexivity|]); fields; by split_and!.
  - erewrite bind_run by reflexivity. erewrite bind_run by (apply asks_run; by apply commit_info_run). cbv beta iota.
    destruct (Z.eqb_spec (term (r s)) 0) as [Hz|Hs].
    { rewrite Hz. unfold ty. by case_bool_decide. }
    erewrite bind_run by (apply send_run; done).
    match goal with |- context [maybe_commit_by_vote m ?a] =>
      destruct (maybe_commit_by_vote_runs m a Hok Hc Hr) as (s' & E & He) end.
    exists s'. split; [exact E|]. change (fast_forwards _ m) with (fast_forwards s m) in He.
    destruct (fast_forwards s m); [|subst s'; fields; by split_and!]. pose proof He as []. fields. by split_and!.
Qed.

(** C8 — The commit rule of a leader: [maybe_commit] (without group commit) looks at the greatest
    position [i] that a majority of each half of the configuration has acknowledged, and
    commits up to [i] exactly if that is beyond the commit index and the entry there is
    of the current term; otherwise the node stays as it is.  It never panics. *)
Theorem leader_commit_rule (s : Raft.t T) (pr : Progress.t) (Hok : log_ok (raft_log (r s))) (Ht : term (r s) <> 0)
    (Hgc : ProgressTracker.group_commit (prs s) = false)
    (Hvoters : Majority.voters (Joint.incoming (Configuration.voters (ProgressTracker.conf (prs s)))) <> ∅)
    (Hself : progress_of s (id (r s)) = Some pr) :
  exists b s' i, maybe_commit s = Ret (b, s') /\
    (forall j, j <= u64_MAX -> (j <= i <-> quorum_acked (Configuration.voters (ProgressTracker.conf (prs s)))
                                            (acked_index (ProgressTracker.progress (prs s))) j)) /\
    (b = true <-> RaftLog.committed (raft_log (r s)) < i /\ lterm (view (raft_log (r s))) i = Some (term (r s))) /\
    (b = false -> s' = s) /\
    (b = true -> raft_log (r s') = (raft_log (r s)) <| RaftLog.committed := i |> /\
      progress_of s' (id (r s)) = Some (Progress.update_committed i pr)).
Proof.
  destruct (joint_commit_value (Configuration.voters (ProgressTracker.conf (prs s)))
    (acked_index (ProgressTracker.progress (prs s))) Hvoters) as (i & gc & Ei & Hi).
  unfold maybe_commit. erewrite bind_run by (apply asks_run; unfold ProgressTracker.maximal_committed_index; by rewrite Hgc).
  erewrite bind_run by reflexivity. simpl fst.
  destruct (Z.le_gt_cases i (RaftLog.committed (raft_log (r s)))) as [Hle|Hgt].
  { exists false, s, i. split_and!; try done; [|split; [done|lia]].
    unfold on_log, RaftLog.maybe_commit. prog_unfold. rewrite (proj2 (Z.leb_le _ _)) by lia. by destruct s as [? ? [] ?]. }
  erewrite bind_run by (apply zoom_run, log_maybe_commit_run; done).
  unfold matches. case_bool_decide as Hm.
  - erewrite bind_run by reflexivity. unfold on_progress. eexists true, _, i.
    split; [erewrite bind_run; [reflexivity|]; erewrite bind_run by reflexivity; erewrite bind_run; [reflexivity|];
      change (progress_of _ _) with (progress_of s (id (r s))); rewrite Hself; reflexivity|].
    split_and!; try done. intros _. split; [done|]. unfold progress_of, ProgressTracker.get_progress, put_progress. fields.
    by rewrite lookup_insert_eq.
  - exists false, s, i. split_and!; try done; [by destruct s as [? ? [] ?]|]. split; [done|naive_solver].
Qed.

(** C12 — The term of a message: a message of an older term changes nothing, at most it is answered
    so that its sender learns the term; a vote request while the lease of a leader runs is
    ignored; a pre-vote or a granted pre-vote answer of a later term leaves the term alone;
    any other message of a later term makes the node a follower of that term without a
    vote, and of its sender if that is the leader.  Only then the message is handled. *)
Theorem message_term_correct (s : Raft.t T) (m : Message.t) (Hok : log_ok (raft_log (r s)))
    (Hr : min_election_timeout (r s) < max_election_timeout (r s)) (Hm : 0 <= Message.term m) :
  exists go s', step_term m s = Ret (go, s') /\
    (Message.term m = 0 \/ Message.term m = term (r s) -> go = true /\ s' = s) /\
    (0 < Message.term m < term (r s) -> go = false /\ s' = s <| msgs := msgs s ++ stale_answer s m |>) /\
    (term (r s) < Message.term m -> Message.term m <> 0 ->
      if bool_decide (leased s m) then go = false /\ s' = s
      else if keeps_term m then go = true /\ s' = s
      else go = true /\ term (r s') = Message.term m /\ vote (r s') = INVALID_ID /\ state (r s') = Follower /\
           leader_id (r s') = (if from_leader m then Message.from m else INVALID_ID) /\
           raft_log (r s') = raft_log (r s) /\ msgs s' = msgs s).
Proof.
  unfold step_term. erewrite bind_run by reflexivity. cbv zeta.
  destruct (Z.eqb_spec (Message.term m) 0) as [H0'|H0'].
  { exists true, s. split_and!; try done; lia. }
  destruct (Z.ltb_spec (term (r s)) (Message.term m)) as [Hlt|Hge].
  - rewrite lease_protects_spec. destruct (bool_decide (leased s m)). { exists false, s. split_and!; try done; lia. }
    fold (keeps_term m). destruct (keeps_term m). { exists true, s. split_and!; try done; lia. }
    fold (from_leader m).
    destruct (become_follower_result (Message.term m) (if from_leader m then Message.from m else INVALID_ID) s Hok Hr)
      as (s' & E & Hs'); [lia|].
    exists true, s'. split; [erewrite bind_run; [reflexivity|]; destruct (from_leader m); exact E|].
    split_and!; try lia. intros _ _. split; [done|]. by destruct Hs' as (? & ? & ? & ? & ? & ? & ?).
  - destruct (Z.ltb_spec (Message.term m) (term (r s))) as [Hlt|Heq]; [|exists true, s; split_and!; try done; lia].
    exists false, (s <| msgs := msgs s ++ stale_answer s m |>).
    split; [|split_and!; try done; lia]. unfold stale_answer. destruct (_ && _).
    + erewrite bind_run; [reflexivity|]. reflexivity.
    + case_bool_decide.
      * erewrite bind_run; [reflexivity|]. etrans; [apply send_run; [done..|simpl; lia]|reflexivity].
      * rewrite app_nil_r. by destruct s.
Qed.
End properties.

(** ** Witnesses *)
Section witnesses.
#[local] Existing Instance ten_bytes.
#[local] Existing Instance sorted_order.
Import RaftCore Raft.

Lemma term_and_vote_stable_witness : vote (r (after tick node2_voted)) = 1.
Proof.
  assert (rtc raft_step node2_voted (after tick node2_voted)) as Hrun.
  { apply rtc_once. eapply step_local_work, step_own_work, (step_tick _ false); [by apply (fresh_at 1); [vm_compute|]|apply empty_log_room; [apply node2_voted_log|lia]|by vm_compute]. }
  destruct (term_and_vote_stable _ _ Hrun) as (_ & _ & Hv). rewrite Hv; by vm_compute.
Defined.

Lemma leader_needs_quorum_witness :
  exists votes, 2 <= Z.of_nat (size (granted (Majority.mk {[ 1; 2; 3 ]}) (fun i => (votes : gmap Z bool) !! i))).
Proof.
  destruct (leader_needs_quorum node1_candidate node1_leader vote_response (Ok tt) vote_response_wf
    ltac:(by apply (fresh_at 1); [vm_compute|]) ltac:(apply empty_log_room; [apply node1_candidate_log|by vm_compute]) ltac:(by vm_compute) ltac:(by vm_compute))
    as [[Hs _]|(votes & _ & [Hi|Hi] & _)]; [by vm_compute in Hs|by vm_compute in Hi|].
  exists votes. exact Hi.
Defined.

Lemma new_correct_witness : exists s, new 0 (config 1) store3 = Ret (Ok s) /\ state (r s) = Follower /\ promotable (r s) = true.
Proof.
  destruct (new_correct 0 (config 1) store3 _ node1 store3_ok ltac:(by vm_compute) ltac:(done)
    ltac:(reflexivity) ltac:(by vm_compute)) as [_ Hst].
  exists node1. split; [by vm_compute|]. split; [by destruct (st_role _ _ _ _ _ Hst)|].
  rewrite (st_promotable _ _ _ _ _ Hst). by vm_compute.
Defined.

Lemma node_log_safety_witness : log_ok (raft_log (r node1_candidate)) /\
  10 <= randomized_election_timeout (r node1_candidate) < 20.
Proof.
  assert (rtc raft_step node1 node1_candidate) as Hrun.
  { apply rtc_once. eapply (step_message _ msg_hup (Ok tt)); [apply msg_hup_wf|by apply (fresh_at 0); [vm_compute|]|apply empty_log_room; [apply node1_log|by vm_compute]|by vm_compute]. }
  destruct (node_log_safety 0 (config 1) store3 _ node1 node1 node1_candidate store3_ok ltac:(by vm_compute) ltac:(done)
    ltac:(reflexivity) ltac:(by vm_compute) ltac:(apply rtc_refl) Hrun) as (Hok & _ & _ & _ & Ht).
  by split.
Defined.

(** In a new cluster a pre-vote request asks for term 1.  A node of a higher priority rejects it,
    stamps the answer with its own term 0, and sending it panics. *)
Definition node1_pre_vote : Raft.t MemStorage.t := node1 <| r := (r node1) <| pre_vote := true |> |>.
Definition node2_prior : Raft.t MemStorage.t := after (set_priority 1) node2.
Definition pre_vote_request := nth 0 (msgs (after (step msg_hup) node1_pre_vote)) Message.default.

Lemma vote_request_correct_witness :
  (exists s', handle_vote_request vote_request node2_in_term = Ret (tt, s') /\ vote (r s') = 1 /\ len (msgs s') = 1) /\
  Message.term pre_vote_request = 1 /\ handle_vote_request pre_vote_request node2_prior = Panic.
Proof.
  assert (log_ok (raft_log (r node2_in_term))) as Hok1 by (rewrite node2_in_term_log; apply empty_log_ok).
  assert (log_ok (raft_log (r node2_prior))) as Hok2.
  { replace (raft_log (r node2_prior)) with empty_log by (by vm_compute). apply empty_log_ok. }
  split; [|split; [by vm_compute|]].
  - pose proof (vote_request_correct node2_in_term vote_request 0 0 Hok1 ltac:(by vm_compute) ltac:(by vm_compute)
      ltac:(by vm_compute) ltac:(by vm_compute) ltac:(by vm_compute) ltac:(by vm_compute)) as Hv. cbv zeta in Hv.
    assert (negb (vote_granted node2_in_term vote_request 0) && (term (r node2_in_term) =? 0) = false) as Eb by (by vm_compute).
    rewrite Eb in Hv. destruct Hv as (s' & E & _ & Hm & Hv & _).
    exists s'. split; [exact E|]. split; [rewrite Hv; by vm_compute|rewrite Hm; by vm_compute].
  - pose proof (vote_request_correct node2_prior pre_vote_request 0 0 Hok2 ltac:(by vm_compute) ltac:(by vm_compute)
      ltac:(by vm_compute) ltac:(by vm_compute) ltac:(by vm_compute) ltac:(by vm_compute)) as Hv. cbv zeta in Hv.
    assert (negb (vote_granted node2_prior pre_vote_request 0) && (term (r node2_prior) =? 0) = true) as Eb by (by vm_compute).
    rewrite Eb in Hv. exact Hv.
Defined.

Lemma leader_commit_rule_witness : exists s', maybe_commit node1_acked = Ret (true, s') /\
  RaftLog.committed (raft_log (r s')) = 1.
Proof.
  assert (log_ok (raft_log (r node1_acked))) as Hok.
  { rewrite node1_acked_log. apply stored_log_ok. }
  assert (exists pr, progress_of node1_acked (id (r node1_acked)) = Some pr) as [pr Hpr] by (vm_compute; by eexists).
  destruct (leader_commit_rule node1_acked pr Hok ltac:(by vm_compute) ltac:(by vm_compute) ltac:(by vm_compute) Hpr)
    as (b & s' & i & E & _ & _ & _ & Hb).
  assert (b = true) as -> by (vm_compute in E; congruence).
  exists s'. split; [exact E|]. vm_compute in E. injection E as <-. by vm_compute.
Defined.

Lemma message_term_correct_witness : exists s', step_term vote_request node2 = Ret (true, s') /\
  term (r s') = 1 /\ state (r s') = Follower.
Proof.
  assert (log_ok (raft_log (r node2))) as Hok by (rewrite node2_log; apply empty_log_ok).
  destruct (message_term_correct node2 vote_request Hok ltac:(by vm_compute) ltac:(by vm_compute)) as (go & s' & E & _ & _ & Hlater).
  specialize (Hlater ltac:(by vm_compute) ltac:(by vm_compute)).
  assert (bool_decide (leased node2 vote_request) = false) as Hl by by vm_compute.
  assert (keeps_term vote_request = false) as Hk by by vm_compute. rewrite Hl, Hk in Hlater.
  destruct Hlater as (-> & Ht & _ & Hs & _). exists s'.
  split; [exact E|]. split; [rewrite Ht; by vm_compute|exact Hs].
Defined.
End witnesses.
