(* ===== verification/Campaign.v ===== *)
(** * Campaigns ([raft.rs])

    A node that hears of no leader starts an election in time: what it becomes and
    the requests it sends. *)

From S2P Require Import Prelude Proto Errors Util Inflights Progress Quorum Tracker ConfChange.
From S2P Require Import Log Unstable Storage RaftLog ReadOnly Config RaftCore Raft RaftFrame RaftExample RaftProps.

(** Without a rejection an election is not lost. *)
Section never_lost.
Context `{HashOrder}.

Lemma majority_not_lost c check : (forall v, check v <> Some false) -> Majority.vote_result c check <> Lost.
Proof.
  intros Hc [Hne Hlt]%vote_lost. rewrite <-Nat2Z.inj_add, <-granted_missing_size in Hlt.
  assert (granted c check ∪ missing c check = Majority.voters c) as Ev.
  { apply set_eq. intros v. unfold granted, missing. rewrite elem_of_union, !elem_of_filter.
    specialize (Hc v). destruct (check v) as [[]|]; naive_solver. }
  rewrite Ev in Hlt. pose proof (majority_bounds (Majority.voter_count c)) as Hb. unfold Majority.voter_count in *.
  assert (0 < size (Majority.voters c))%nat by (apply Nat.neq_0_lt_0; by rewrite size_empty_iff, leibniz_equiv_iff). lia.
Qed.

Lemma not_lost c check : (forall v, check v <> Some false) -> Joint.vote_result c check <> Lost.
Proof. intros Hc [Hl|Hl]%joint_lost; by apply majority_not_lost in Hl. Qed.
End never_lost.

Section campaign.
Context {T : Type} `{StorageLaws T} `{Codec} `{HashOrder} `{ConfigurationDebug} `{Rng}.
Import RaftCore Raft.
Implicit Types s : Raft.t T.

(** The entries that are committed and not applied yet, without a configuration change. *)
Definition unapplied s : list Entry.t :=
  let l := raft_log (r s) in
  ALog.range (view l) (Z.max (RaftLog.applied l) (ALog.base (view l)) + 1) (RaftLog.committed l + 1).
Definition change_pending s : bool := negb (num_pending_conf (unapplied s) =? 0).

(** The vote request of a node for [to]; [lt] and [ct] are the terms of its last and of
    its last committed entry. *)
Definition ballot (c : RaftCore.t T) (ty : MessageType) (t lt ct to : Z) : Message.t :=
  let l := raft_log c in
  Message.default <| Message.msg_type := ty |> <| Message.to := to |> <| Message.from := id c |>
    <| Message.term := t |> <| Message.index := ALog.last (view l) |> <| Message.log_term := lt |>
    <| Message.commit := RaftLog.committed l |> <| Message.commit_term := ct |>
    <| Message.priority := priority c |> <| Message.deprecated_priority := Z.max 0 (priority c) |>.

(** A node that may campaign: its log is readable and compacted only up to the applied
    entries, [lt] and [ct] are the terms of its last and its last committed entry, its
    timeouts allow a draw, and it needs votes of others. *)
Record ready_to_campaign (lt ct : Z) s : Prop := {
  rc_fresh : fresh s;
  rc_log : log_ok (raft_log (r s));
  rc_compacted : Unstable.snapshot (RaftLog.unstable (raft_log (r s))) = None ->
    ALog.base (view (raft_log (r s))) <= RaftLog.applied (raft_log (r s));
  rc_last : lterm (view (raft_log (r s))) (ALog.last (view (raft_log (r s)))) = Some lt;
  rc_commit : lterm (view (raft_log (r s))) (RaftLog.committed (raft_log (r s))) = Some ct;
  rc_timeouts : min_election_timeout (r s) < max_election_timeout (r s);
  rc_state : state (r s) <> Leader;
  rc_votes : ~ own_vote_wins s
}.

(** [s'] is the node [s] after it asked the other voters for their votes, in a
    pre-election if [pre]. *)
Record campaigns (pre : bool) (lt ct : Z) s s' : Prop := {
  ca_state : state (r s') = if pre then PreCandidate else Candidate;
  ca_term : term (r s') = if pre then term (r s) else term (r s) + 1;
  ca_vote : vote (r s') = if pre then vote (r s) else id (r s);
  ca_leader : leader_id (r s') = INVALID_ID;
  ca_votes : ProgressTracker.votes (prs s') = {[ id (r s) := true ]};
  ca_elapsed : election_elapsed (r s') = if pre then election_elapsed (r s) else 0;
  ca_log : same_log (raft_log (r s)) (raft_log (r s'));
  ca_msgs : msgs s' = msgs s ++
    map (ballot (r s) (if pre then MsgRequestPreVote else MsgRequestVote) (term (r s) + 1) lt ct)
      (filter (fun to => to <> id (r s)) (Union.iter (Joint.ids (Configuration.voters (ProgressTracker.conf (prs s))))))
}.

(** ** Asking for votes *)

Lemma send_ballot_run m s : Message.from m = INVALID_ID -> is_vote_request (Message.msg_type m) = true -> Message.term m <> 0 ->
  Message.deprecated_priority m = 0 ->
  send m s = Ret (tt, s <| msgs := msgs s ++ [m <| Message.from := id (r s) |> <| Message.priority := priority (r s) |>
    <| Message.deprecated_priority := Z.max 0 (priority (r s)) |>] |>).
Proof.
  intros Hf Ht Hn Hp. unfold send, Sending.send. prog_unfold. rewrite Hf. simpl. fields. rewrite Ht.
  fields. rewrite (proj2 (Z.eqb_neq _ _) Hn). destruct m; simpl in *; subst. rewrite Ht.
  do 5 f_equal. destruct (Z.ltb_spec 0 (priority (r s))).
  - by rewrite Z.max_r by lia.
  - by rewrite Z.max_l by lia.
Qed.

Lemma request_vote_run ty vt t lt ct to s : ty <> CAMPAIGN_TRANSFER -> is_vote_request vt = true -> t <> 0 ->
  log_ok (raft_log (r s)) -> lterm (view (raft_log (r s))) (ALog.last (view (raft_log (r s)))) = Some lt ->
  request_vote ty vt t (RaftLog.committed (raft_log (r s))) ct to s =
    Ret (tt, if decide (to <> id (r s)) then s <| msgs := msgs s ++ [ballot (r s) vt t lt ct to] |> else s).
Proof.
  intros Hty Hvt Ht Hok Hlt. unfold request_vote. erewrite bind_run by reflexivity.
  destruct (Z.eqb_spec to (id (r s))); [by rewrite decide_False by auto|]. rewrite decide_True by done.
  erewrite bind_run by (apply asks_run, last_index_run; done).
  erewrite bind_run by (apply asks_run, last_term_run; done). cbv zeta. rewrite bool_decide_eq_false_2 by done.
  by rewrite send_ballot_run.
Qed.

Lemma request_votes_run ty vt t lt ct l s : ty <> CAMPAIGN_TRANSFER -> is_vote_request vt = true -> t <> 0 ->
  log_ok (raft_log (r s)) -> lterm (view (raft_log (r s))) (ALog.last (view (raft_log (r s)))) = Some lt ->
  for_each (request_vote ty vt t (RaftLog.committed (raft_log (r s))) ct) l s =
    Ret (tt, s <| msgs := msgs s ++ map (ballot (r s) vt t lt ct) (filter (fun to => to <> id (r s)) l) |>).
Proof.
  intros Hty Hvt Ht. revert s. induction l as [|to l IH]; intros s Hok Hlt; cbn [for_each].
  - cbn [filter list_filter map]. rewrite app_nil_r. by destruct s.
  - erewrite bind_run by (by apply request_vote_run). rewrite filter_cons. case_decide; [|by apply IH].
    set (s1 := s <| msgs := _ |>). change (r s) with (r s1). rewrite IH by done. subst s1. fields. cbn [map].
    by rewrite <-app_assoc.
Qed.

(** ** A campaign *)

(** The own vote is recorded and does not decide. *)
Lemma own_poll_run c vt s : ProgressTracker.votes (prs s) = ∅ -> ~ own_vote_wins s ->
  poll_with c (id (r s)) vt true s =
    Ret (Pending, s <| prs := (prs s) <| ProgressTracker.votes := {[ id (r s) := true ]} |> |>).
Proof.
  intros Hv Hw. unfold poll_with, on_prs. erewrite bind_run by reflexivity.
  unfold ProgressTracker.record_vote. rewrite Hv, lookup_empty, insert_empty.
  erewrite bind_run by reflexivity. unfold ProgressTracker.tally_votes, ProgressTracker.vote_result. cbv beta iota zeta. fields.
  assert (Joint.vote_result (Configuration.voters (ProgressTracker.conf (prs s)))
    (fun i => ({[ id (r s) := true ]} : gmap Z bool) !! i) <> Lost) as Hl.
  { apply not_lost. intros v. rewrite lookup_singleton_Some. naive_solver. }
  unfold own_vote_wins, won in Hw. destruct (Joint.vote_result _ _); done.
Qed.

Lemma become_candidate_runs s : log_ok (raft_log (r s)) -> min_election_timeout (r s) < max_election_timeout (r s) ->
  state (r s) <> Leader -> exists s1, was_reset s (term (r s) +w 1) s1 /\
    become_candidate s = Ret (tt, s1 <| r := (r s1) <| vote := id (r s) |> <| state := Candidate |> |>).
Proof.
  intros Hok Hlt Hs. destruct (reset_runs (term (r s) +w 1) s Hok Hlt) as [s1 E]. exists s1.
  split; [by eapply reset_inv|]. unfold become_candidate. erewrite bind_run by reflexivity.
  rewrite bool_decide_eq_false_2 by done. erewrite bind_run by reflexivity. erewrite bind_run by exact E. reflexivity.
Qed.

Lemma campaign_election_run fuel lt ct s : ready_to_campaign lt ct s ->
  exists s', campaign (S fuel) CAMPAIGN_ELECTION s = Ret (tt, s') /\ campaigns false lt ct s s'.
Proof.
  intros [[Hu Ht] Hok _ Hlt Hct Hto Hst Hv]. destruct (become_candidate_runs s Hok Hto Hst) as (s1 & Hr & E).
  rewrite u64_add_small in Hr by u64_lia. destruct Hr as [Hterm Hvote Hid Hmin Hmax Hrand Hstate Hprom Hlead Hel Hlog Hconf Hvotes Hmsgs Hprio].
  cbn [campaign]. rewrite bool_decide_eq_false_2 by done.
  erewrite bind_run. 2: { erewrite bind_run by exact E. erewrite bind_run by reflexivity. reflexivity. }
  cbv beta iota. set (s2 := s1 <| r := _ |>). erewrite bind_run by reflexivity.
  erewrite bind_run by (apply own_poll_run; [done|]; unfold own_vote_wins, s2; fields; by rewrite Hconf, Hid).
  rewrite bool_decide_eq_false_2 by done. subst s2.
  erewrite bind_run by (apply asks_run; fields; rewrite Hlog; by apply commit_info_run). cbv beta iota.
  erewrite bind_run by reflexivity. fields. rewrite <-Hlog in Hok, Hlt |- *.
  match goal with |- context [for_each _ _ ?x] => set (s3 := x); change (raft_log (r s1)) with (raft_log (r s3)) end.
  rewrite (request_votes_run _ _ _ lt); [|done|done|rewrite Hterm; u64_lia|exact Hok|exact Hlt].
  eexists. split; [reflexivity|]. subst s3. split; fields; try done; [by rewrite Hid|rewrite <-Hlog; by apply same_log_refl|].
  rewrite Hterm, Hmsgs, Hconf, Hid. f_equal.
  apply map_ext. intros to. unfold ballot. fields. by rewrite Hlog, Hid, Hprio.
Qed.

Lemma become_pre_candidate_runs s : state (r s) <> Leader ->
  become_pre_candidate s = Ret (tt, s <| r := (r s) <| state := PreCandidate |> <| leader_id := INVALID_ID |> |>
    <| prs := ProgressTracker.reset_votes (prs s) |>).
Proof.
  intros Hs. unfold become_pre_candidate, on_prs. erewrite bind_run by reflexivity.
  rewrite bool_decide_eq_false_2 by done. reflexivity.
Qed.

Lemma pre_campaign_run fuel lt ct s : ready_to_campaign lt ct s ->
  exists s', campaign (S fuel) CAMPAIGN_PRE_ELECTION s = Ret (tt, s') /\ campaigns true lt ct s s'.
Proof.
  intros [[Hu Ht] Hok _ Hlt Hct Hto Hst Hv]. cbn [campaign]. rewrite bool_decide_eq_true_2 by done.
  erewrite bind_run. 2: { erewrite bind_run by (by apply become_pre_candidate_runs). erewrite bind_run by reflexivity. reflexivity. }
  cbv beta iota. erewrite bind_run by reflexivity. erewrite bind_run by (by apply own_poll_run).
  rewrite bool_decide_eq_false_2 by done. erewrite bind_run by (apply asks_run; fields; by apply commit_info_run). cbv beta iota.
  erewrite bind_run by reflexivity. fields. rewrite u64_add_small by u64_lia.
  match goal with |- context [for_each _ _ ?x] => set (s3 := x); change (raft_log (r s)) with (raft_log (r s3)) end.
  rewrite (request_votes_run _ _ _ lt); [|done|done|u64_lia|exact Hok|exact Hlt].
  eexists. split; [reflexivity|]. subst s3. split; fields; try done. by apply same_log_refl.
Qed.

(** ** The start of a campaign *)

(** The first entry that [hup] looks at. *)
Lemma hup_first_index l : log_ok l -> (Unstable.snapshot (RaftLog.unstable l) = None -> ALog.base (view l) <= RaftLog.applied l) ->
  match Unstable.maybe_first_index (RaftLog.unstable l) with Some idx => idx | None => RaftLog.applied l +w 1 end
  = Z.max (RaftLog.applied l) (ALog.base (view l)) + 1.
Proof.
  intros Hok Hc. pose proof (lo_committed _ Hok). pose proof (lo_applied _ Hok). pose proof (lo_persisted _ Hok).
  pose proof (view_bounds _ Hok). destruct (Unstable.snapshot (RaftLog.unstable l)) as [sn|] eqn:Es.
  - rewrite (maybe_first_index_run _ _ (lo_unstable _ Hok) Es), view_base, Es. lia.
  - specialize (Hc eq_refl). unfold Unstable.maybe_first_index. rewrite Es. simpl.
    rewrite u64_add_small by u64_lia. lia.
Qed.

Lemma same_log_ready lt ct s l : ready_to_campaign lt ct s -> same_log (raft_log (r s)) l ->
  ready_to_campaign lt ct (s <| r := (r s) <| raft_log := l |> |>).
Proof.
  intros [? Hok ? ? ? ? ? ?] Hl. pose proof (same_log_view _ _ Hl) as Hv. pose proof (same_log_ok _ _ Hok Hl).
  destruct Hl as (st & -> & _). split; fields; rewrite ?Hv; done.
Qed.

Lemma hup_run lt ct s : ready_to_campaign lt ct s ->
  exists l s', same_log (raft_log (r s)) l /\ hup false s = Ret (tt, s') /\
    let s1 := s <| r := (r s) <| raft_log := l |> |> in
    if change_pending s then s' = s1 else campaigns (pre_vote (r s)) lt ct s1 s'.
Proof.
  intros Hrc. pose proof (rc_log _ _ _ Hrc) as Hok. pose proof (lo_committed _ Hok). pose proof (lo_applied _ Hok).
  pose proof (view_bounds _ Hok).
  unfold hup. erewrite bind_run by reflexivity. rewrite bool_decide_eq_false_2 by apply Hrc. cbv zeta.
  rewrite hup_first_index by (done || apply Hrc). rewrite u64_add_small by u64_lia.
  destruct (slice_run _ (Z.max (RaftLog.applied (raft_log (r s))) (ALog.base (view (raft_log (r s)))) + 1)
    (RaftLog.committed (raft_log (r s)) + 1) None TransferLeader Hok) as (x & l & E & Hl & Hx); [lia..|].
  destruct Hx as [[_ ?]|(es & -> & _ & _ & Hes)]; [done|]. rewrite (Hes eq_refl) in E.
  erewrite bind_run by (apply zoom_run, E). erewrite bind_run by reflexivity. fold (unapplied s). fold (change_pending s).
  exists l. pose proof (same_log_ready _ _ _ l Hrc Hl) as Hrc'.
  destruct (change_pending s); [by eexists|]. fields. destruct (pre_vote (r s)).
  - destruct (pre_campaign_run 1 lt ct _ Hrc') as (s' & E' & Hs'). by exists s'.
  - destruct (campaign_election_run 1 lt ct _ Hrc') as (s' & E' & Hs'). by exists s'.
Qed.

(** ** Time passes *)
Definition with_elapsed (e : Z) s : Raft.t T := s <| r := (r s) <| election_elapsed := e |> |>.

Fixpoint ticks (n : nat) : Prog (Raft.t T) unit :=
  match n with O => mret tt | S n => _b ← tick; ticks n end.

Lemma ticks_snoc n s s1 : ticks n s = Ret (tt, s1) -> ticks (S n) s = (_b ← tick; mret tt) s1.
Proof.
  revert s. induction n as [|n IH]; intros s; [by intros [= ->]|].
  cbn [ticks]. intros (b & s2 & Et & E)%bind_inv. erewrite bind_run by exact Et. by apply IH.
Qed.

Lemma tick_waits s : state (r s) <> Leader -> 0 <= election_elapsed (r s) ->
  election_elapsed (r s) + 1 < randomized_election_timeout (r s) < U64_MOD ->
  tick s = Ret (false, with_elapsed (election_elapsed (r s) + 1) s).
Proof.
  intros Hs H0' Hlt. unfold tick. erewrite bind_run by reflexivity.
  assert (tick_election s = Ret (false, with_elapsed (election_elapsed (r s) + 1) s)); [|by destruct (state (r s))].
  unfold tick_election. erewrite bind_run by reflexivity. rewrite u64_add_small by u64_lia.
  unfold pass_election_timeout. prog_unfold. fields. by rewrite (proj2 (Z.leb_gt _ _)) by lia.
Qed.

Lemma with_elapsed_ready lt ct e s : ready_to_campaign lt ct s -> ready_to_campaign lt ct (with_elapsed e s).
Proof. by intros []. Qed.

Lemma local_hup_run s i s' : hup false s = Ret (tt, s') -> step (new_message INVALID_ID MsgHup (Some i)) s = Ret (Ok tt, s').
Proof.
  intros E. unfold step. erewrite bind_run by (by apply step_term_local). simpl.
  erewrite bind_run by exact E. reflexivity.
Qed.

Lemma tick_fires lt ct s : ready_to_campaign lt ct s -> promotable (r s) = true -> 0 <= election_elapsed (r s) ->
  election_elapsed (r s) + 1 = randomized_election_timeout (r s) -> randomized_election_timeout (r s) < U64_MOD ->
  exists s', tick s = Ret (true, s') /\ hup false (with_elapsed 0 s) = Ret (tt, s').
Proof.
  intros Hrc Hp Hpos Hlt Hu. destruct (hup_run lt ct (with_elapsed 0 s)) as (l & s' & _ & E & _); [by apply with_elapsed_ready|].
  exists s'. split; [|done]. unfold tick. erewrite bind_run by reflexivity.
  assert (tick_election s = Ret (true, s')); [|pose proof (rc_state _ _ _ Hrc); by destruct (state (r s))].
  unfold tick_election. erewrite bind_run by reflexivity. rewrite u64_add_small by u64_lia.
  erewrite bind_run by reflexivity. unfold pass_election_timeout. fields.
  rewrite (proj2 (Z.leb_le _ _)) by lia. rewrite Hp. cbn [negb orb]. erewrite bind_run by reflexivity.
  erewrite bind_run; [reflexivity|]. unfold step_local. erewrite bind_run by reflexivity.
  by erewrite bind_run by (apply local_hup_run; exact E).
Qed.

(** A campaign after the log was read is one before. *)
Lemma campaigns_before pre lt ct l s s' : same_log (raft_log (r s)) l ->
  campaigns pre lt ct (s <| r := (r s) <| raft_log := l |> |>) s' -> campaigns pre lt ct s s'.
Proof.
  intros Hl [? ? ? ? ? ? Hlog Hmsgs]. pose proof (same_log_view _ _ Hl) as Hv. fields.
  split; try done; [by eapply same_log_trans|].
  rewrite Hmsgs. f_equal. apply map_ext. intros to. unfold ballot. fields. rewrite Hv. by destruct Hl as (st & -> & _).
Qed.

(** C11 — A node that hears nothing campaigns in time: as long as its randomized election
    timeout has not passed, a tick of a promotable node that is not leader only counts
    it; the tick with which it passes resets the clock and starts a pre-election or an
    election - in the next term and with the own vote - that asks every other voter, with
    the term it campaigns for and the position and the term of its last entry; only a
    configuration change that is committed and not applied keeps it from doing so.
    Nothing panics. *)
Theorem timeout_starts_campaign (s : Raft.t T) (lt ct : Z) (k : nat) (Hready : ready_to_campaign lt ct s)
    (Hpromotable : promotable (r s) = true) (He : 0 <= election_elapsed (r s))
    (Hk : election_elapsed (r s) + Z.of_nat k + 1 = randomized_election_timeout (r s))
    (Hu : randomized_election_timeout (r s) < U64_MOD) :
  (forall n, (n <= k)%nat -> ticks n s = Ret (tt, with_elapsed (election_elapsed (r s) + Z.of_nat n) s)) /\
  exists s', ticks (S k) s = Ret (tt, s') /\
    if change_pending s then
      exists l, same_log (raft_log (r s)) l /\ s' = s <| r := (r s) <| election_elapsed := 0 |> <| raft_log := l |> |>
    else campaigns (pre_vote (r s)) lt ct (with_elapsed 0 s) s'.
Proof.
  assert (forall n, (n <= k)%nat -> ticks n s = Ret (tt, with_elapsed (election_elapsed (r s) + Z.of_nat n) s)) as Hn.
  { induction n as [|n IH]; intros Hn; [rewrite Z.add_0_r; by destruct s as [? ? [] ?]|].
    erewrite ticks_snoc by (apply IH; lia). erewrite bind_run by (apply tick_waits; unfold with_elapsed; fields; [apply Hready|lia|lia]).
    unfold with_elapsed. fields. by replace (election_elapsed (r s) + Z.of_nat (S n)) with (election_elapsed (r s) + Z.of_nat n + 1) by lia. }
  split; [done|]. erewrite ticks_snoc by (by apply Hn).
  set (s1 := with_elapsed _ s). destruct (tick_fires lt ct s1) as (s' & E & Eh); unfold s1, with_elapsed; fields; try done; try lia.
  { by apply with_elapsed_ready. }
  fold s1. erewrite bind_run by exact E. exists s'. split; [done|].
  destruct (hup_run lt ct (with_elapsed 0 s1)) as (l & s2 & Hl & E' & Hs2); [by do 2 apply with_elapsed_ready|].
  rewrite Eh in E'. injection E' as <-. change (change_pending _) with (change_pending s) in Hs2.
  destruct (change_pending s); [by exists l|]. by eapply campaigns_before.
Qed.
End campaign.

Section campaign_witness.
#[local] Existing Instance ten_bytes.
#[local] Existing Instance sorted_order.
Import RaftCore Raft.

Lemma node1_ready : ready_to_campaign 0 0 node1.
Proof.
  split; [by apply (fresh_at 0); [vm_compute|]|rewrite node1_log; exact empty_log_ok|by rewrite node1_log| | |..].
  - rewrite node1_log. by vm_compute.
  - rewrite node1_log. by vm_compute.
  - by vm_compute.
  - by vm_compute.
  - by vm_compute.
Qed.

(** After ten ticks node 1 asks nodes 3 and 2 for their votes in term 1. *)
Lemma timeout_starts_campaign_witness : exists s', ticks 10 node1 = Ret (tt, s') /\
  state (r s') = Candidate /\ term (r s') = 1 /\ vote (r s') = 1 /\ Message.to <$> msgs s' = [3; 2].
Proof.
  destruct (timeout_starts_campaign node1 0 0 9 node1_ready ltac:(by vm_compute) ltac:(by vm_compute)
    ltac:(by vm_compute) ltac:(by vm_compute)) as (_ & s' & E & Hs').
  exists s'. split; [exact E|]. assert (change_pending node1 = false) as Hc by (by vm_compute). rewrite Hc in Hs'.
  assert (pre_vote (r node1) = false) as Hp by (by vm_compute). rewrite Hp in Hs'.
  destruct Hs' as [Hst Ht Hv _ _ _ _ Hm]. split; [exact Hst|]. rewrite Ht, Hv, Hm. vm_compute. auto.
Defined.
End campaign_witness.
