(* ===== verification/RawNodeProps.v ===== *)
(** * Properties of the raw node ([raw_node.rs])

    What a [Ready] holds, when there is one, and that the committed entries reach the
    application exactly once and in order. *)

From S2P Require Import Prelude Proto Errors Util Inflights Progress Quorum Tracker ConfChange.
From S2P Require Import Log Unstable Storage RaftLog ReadOnly Config RaftCore Raft RawNode RaftFrame RaftExample RaftProps.

Section raw.
Context {T : Type} `{StorageLaws T} `{Codec} `{HashOrder} `{ConfigurationDebug} `{Rng}.
Import RaftCore RawNode.
Implicit Types s : RawNode.t T.

Definition log_of s : RaftLog.t T := raft_log (Raft.r (raft s)).

(** A well-formed log, and a position that is a word. *)
Definition raw_ok s : Prop := log_ok (log_of s) /\ 0 <= commit_since_index s < u64_MAX.

(** ** Handing out entries

    From [s] to [s'] the entries [es] were handed out: in ascending order, only
    committed ones, each of them as the log has it, and none was skipped but for those
    that a snapshot or a compaction covers. *)
Record handed (es : list Entry.t) s s' : Prop := {
  h_ok : raw_ok s';
  h_run : rtc log_step (log_of s) (log_of s');
  h_since : commit_since_index s <= commit_since_index s';
  h_order : StronglySorted Z.lt (Entry.index <$> es);
  h_entry e : e ∈ es -> commit_since_index s < Entry.index e <= commit_since_index s' /\
    Entry.index e <= deliverable (log_of s') /\
    (ALog.base (view (log_of s')) < Entry.index e -> ALog.at_index (view (log_of s')) (Entry.index e) = Some e);
  h_all i : commit_since_index s < i <= commit_since_index s' ->
    i <= ALog.base (view (log_of s')) \/ i ∈ Entry.index <$> es
}.
Definition hands (es : list Entry.t) s s' : Prop := raw_ok s -> handed es s s'.

(** The log has room for one more entry. *)
Abbreviation Raft_room s := (room 1 (raft s)).

Lemma hands_app es1 es2 s s1 s2 : hands es1 s s1 -> hands es2 s1 s2 -> hands (es1 ++ es2) s s2.
Proof.
  intros H1' H2' Hok. destruct (H1' Hok) as [Ok1 R1 S1 O1 E1 A1]. destruct (H2' Ok1) as [Ok2 R2 S2 O2 E2 A2].
  destruct (log_steps_good _ _ (proj1 Ok1) R2) as (_ & Hc & _ & Hb & Hi).
  pose proof (log_steps_deliverable _ _ (proj1 Ok1) R2) as Hd.
  assert (deliverable (log_of s1) <= RaftLog.committed (log_of s1)) as Hdc by (unfold deliverable; lia). split.
  - done.
  - by etrans.
  - lia.
  - rewrite fmap_app, StronglySorted_app. split_and!; [|done..].
    intros x1 x2 (e1 & -> & He1)%list_elem_of_fmap (e2 & -> & He2)%list_elem_of_fmap.
    destruct (E1 _ He1) as [? _], (E2 _ He2) as [? _]. lia.
  - intros e [He|He]%elem_of_app.
    + destruct (E1 _ He) as (? & ? & Hat). split_and!; [lia..|]. intros Hlt. rewrite Hi by lia. apply Hat. lia.
    + destruct (E2 _ He) as (? & ? & Hat). split_and!; [lia..|done].
  - intros i Hi'. rewrite fmap_app, elem_of_app. destruct (decide (i <= commit_since_index s1)).
    + destruct (A1 i) as [|]; [lia|left; lia|by right; left].
    + destruct (A2 i) as [|]; [lia|by left|by right; right].
Qed.

(** Nothing is handed out. *)
Lemma hands_nil s s' : log_run (log_of s) (log_of s') -> commit_since_index s' = commit_since_index s -> hands [] s s'.
Proof.
  intros Hrun E Hok. destruct (Hrun (proj1 Hok)) as [Hok' R]. split; try done.
  - split; [done|]. rewrite E. apply Hok.
  - lia.
  - constructor.
  - by intros e ?%elem_of_nil.
  - intros i. lia.
Qed.

#[export] Instance hands_nil_preorder : PreOrder (hands []).
Proof.
  split; [intros s; apply hands_nil; [reflexivity|done]|]. intros s1 s2 s3 Ha Hb. exact (hands_app [] [] s1 s2 s3 Ha Hb).
Qed.

Lemma on_raft_hands {A} (m : Prog (Raft.t T) A) C : pres (evolve C) m -> pres (hands []) (on_raft m).
Proof.
  intros Hm. eapply pres_zoom; [exact Hm|]. intros s u Hev. by apply hands_nil; [apply (e_log _ _ _ Hev)|].
Qed.

Lemma same_run l l' : same_log l l' -> log_run l l'.
Proof. intros Hs. apply reads_run. by intros _. Qed.

(** Only the bookkeeping changes. *)
Lemma hands_same s s' : raft_log (Raft.r (raft s')) = raft_log (Raft.r (raft s)) ->
  commit_since_index s' = commit_since_index s -> hands [] s s'.
Proof. intros E. apply hands_nil. unfold log_of. by rewrite E. Qed.
Hint Extern 1 (hands [] _ _) => by apply hands_same : frame.

Lemma reduce_keeps es (x : Raft.t T) u x' : Raft.reduce_uncommitted_size es x = Ret (u, x') ->
  exists us, x' = x <| Raft.r := (Raft.r x) <| uncommitted_state := us |> |>.
Proof.
  intros E. unfold Raft.reduce_uncommitted_size in E. apply bind_inv in E as (x0 & ? & [-> ->]%get_inv & E).
  destruct (negb _); [apply ret_inv in E as [_ <-]; exists (uncommitted_state (Raft.r x)); by destruct x as [? ? [] ?]|].
  apply bind_inv in E as (b & x1 & E1 & [_ <-]%ret_inv). apply zoom_inv in E1 as (us & _ & ->). by exists us.
Qed.

(** The entries of a prefix of the log from a position on. *)
Lemma prefix_entries (l : ALog.t) lo hi es : ALog.ok l -> ALog.base l < lo -> hi <= ALog.last l + 1 ->
  es `prefix_of` ALog.range l lo hi ->
  forall n e, es !! n = Some e -> Entry.index e = lo + Z.of_nat n /\ lo <= Entry.index e < hi /\ ALog.at_index l (Entry.index e) = Some e.
Proof.
  intros Hok Hb Hhi [k Hk] n e He. assert (ALog.range l lo hi !! n = Some e) as Hr by (rewrite Hk; by apply lookup_app_l_Some).
  assert (Z.of_nat n < hi - lo) as Hn.
  { pose proof (lookup_lt_Some _ _ _ Hr) as Hlt. unfold ALog.range in Hlt. rewrite length_take in Hlt. lia. }
  assert (Entry.index e = lo + Z.of_nat n) as Hi.
  { eapply contiguous_lookup; [|exact Hr]. apply range_contiguous; [done..|lia]. }
  rewrite range_lookup in Hr by done. rewrite Hi. split_and!; [done|lia..|exact Hr].
Qed.

(** The bookkeeping, and what is told the application of the node, stays. *)
Record same_books s s' : Prop := {
  sb_ss : prev_ss s' = prev_ss s;
  sb_hs : prev_hs s' = prev_hs s;
  sb_number : max_number s' = max_number s;
  sb_records : records s' = records s;
  sb_hard : Raft.hard_state (raft s') = Raft.hard_state (raft s);
  sb_soft : Raft.soft_state (raft s') = Raft.soft_state (raft s)
}.

(** The entries after the position [lo], up to [hi]. *)
Lemma handed_prefix es s s' lo hi e0 :
  raw_ok s -> same_log (log_of s) (log_of s') -> lo = Z.max (commit_since_index s + 1) (ALog.base (view (log_of s)) + 1) ->
  hi <= deliverable (log_of s) -> es `prefix_of` ALog.range (view (log_of s)) lo (hi + 1) ->
  last es = Some e0 -> commit_since_index s' = Entry.index e0 -> handed es s s'.
Proof.
  intros [Hok Hc] Hs Hlo Hhi Hp Hl Hsince.
  assert (deliverable (log_of s) <= RaftLog.committed (log_of s)) as Hdc by (unfold deliverable; lia). pose proof (lo_committed _ Hok). pose proof (view_bounds _ Hok).
  pose proof (same_log_ok _ _ Hok Hs) as Hok'. pose proof (same_log_view _ _ Hs) as Hv.
  pose proof (prefix_entries (view (log_of s)) lo (hi + 1) es (view_ok _ Hok) ltac:(lia) ltac:(lia) Hp) as He.
  rewrite last_lookup in Hl. destruct (He _ _ Hl) as (Hi0 & Hb0 & _). pose proof (lookup_lt_Some _ _ _ Hl) as Hlen.
  assert (deliverable (log_of s') = deliverable (log_of s)) as Hdl by (by destruct Hs as (? & -> & _)).
  split.
  - split; [done|]. lia.
  - apply rtc_once. by apply step_read.
  - lia.
  - assert (forall n, StronglySorted Z.lt (Entry.index <$> drop n es)) as Hd; [|by specialize (Hd O)].
    intros n. remember (length es - n)%nat as k eqn:Hk. revert n Hk. induction k as [|k IH]; intros n Hk.
    { rewrite drop_ge by lia. constructor. }
    assert (exists e, es !! n = Some e) as [e En] by (apply lookup_lt_is_Some; lia).
    rewrite (drop_S _ _ _ En), fmap_cons. apply StronglySorted_cons. split; [|apply IH; lia].
    rewrite Forall_fmap, Forall_lookup. intros m e' Em. rewrite lookup_drop in Em. simpl.
    destruct (He _ _ En) as [-> _], (He _ _ Em) as [-> _]. lia.
  - intros e [n Hn]%list_elem_of_lookup. destruct (He _ _ Hn) as (Hi & Hb & Hat). pose proof (lookup_lt_Some _ _ _ Hn).
    rewrite Hdl, Hv. split_and!; [lia..|done].
  - intros i Hi. rewrite Hv. destruct (decide (i <= ALog.base (view (log_of s)))) as [|Hgt]; [by left|right].
    apply list_elem_of_fmap. assert (exists e, es !! Z.to_nat (i - lo) = Some e) as [e Hn].
    { apply lookup_lt_is_Some. lia. }
    exists e. split; [|by eapply list_elem_of_lookup_2]. destruct (He _ _ Hn) as [-> _]. lia.
Qed.

Lemma gen_light_ready_inv s lr s' : raw_ok s -> gen_light_ready s = Ret (lr, s') ->
  handed (LightReady.committed_entries lr) s s' /\
  LightReady.messages lr = Raft.msgs (raft s) /\ LightReady.commit_index lr = None /\ Raft.msgs (raft s') = [] /\
  (LightReady.committed_entries lr = [] <->
     RaftLog.has_next_entries_since (log_of s) (commit_since_index s) = Ret false) /\
  same_books s s'.
Proof.
  intros [Hok Hc] E. unfold gen_light_ready in E. apply bind_inv in E as (s0 & ? & [-> ->]%get_inv & E). cbv zeta in E.
  apply bind_inv in E as (x & s1 & E1 & E). apply zoom_inv in E1 as (r1 & E1 & ->). apply zoom_inv in E1 as (l1 & E1 & ->).
  destruct (next_entries_since_run (log_of s) (commit_since_index s) (Some (max_committed_size_per_ready (Raft.r (raft s)))) Hok Hc)
    as (x' & l1' & E1' & Hs & Hx). unfold log_of in E1'. rewrite E1 in E1'. injection E1' as <- <-.
  rewrite has_next_entries_since_run by done.
  set (es := default [] x) in *. apply bind_inv in E as (u1 & s2 & E2 & E). apply zoom_inv in E2 as (r2 & E2 & ->).
  apply reduce_keeps in E2 as [us ->]. apply bind_inv in E as (u2 & s3 & E3 & E).
  apply bind_inv in E as (s4 & ? & [-> ->]%get_inv & E). apply bind_inv in E as (u3 & s4 & ->%modify_inv & [<- <-]%ret_inv).
  fields. destruct x as [es0|]; cbn [default from_option] in es; subst es; change (Datatypes.id) with (fun x : list Entry.t => x) in *; cbv beta in *.
  - destruct Hx as [Hne Hp]. destruct (last es0) as [e0|] eqn:Hl; [|by apply last_None in Hl].
    apply bind_inv in E3 as (u4 & s5 & [_ ->]%assert_inv & ->%modify_inv). fields. split.
    + eapply handed_prefix; [done|exact Hs|reflexivity|reflexivity|exact Hp|exact Hl|done].
    + assert (RaftLog.committed l1 = RaftLog.committed (log_of s)) as Hcm by (by destruct Hs as (? & -> & _)).
      split_and!; try done; [|split; try done; unfold Raft.hard_state; fields; by rewrite Hcm].
      split; [done|]. intros [= Hge%Z.ltb_ge]. exfalso. apply Hne.
      destruct Hp as [k Hk]. unfold ALog.range in Hk. rewrite Z2Nat.nonpos in Hk by lia. by destruct es0.
  - apply ret_inv in E3 as [_ <-]. fields. split.
    + apply hands_nil; [apply same_run; exact Hs|done|by split].
    + assert (RaftLog.committed l1 = RaftLog.committed (log_of s)) as Hcm by (by destruct Hs as (? & -> & _)).
      split_and!; try done; [|split; try done; unfold Raft.hard_state; fields; by rewrite Hcm].
      split; [|done]. intros _. f_equal. apply Z.ltb_ge. lia.
Qed.

(** ** What a [Ready] holds *)
Record ready_of s (rd : Ready.t) : Prop := {
  ro_number : Ready.number rd = max_number s +w 1;
  ro_ss : Ready.ss rd = if bool_decide (Raft.soft_state (raft s) = prev_ss s) then None else Some (Raft.soft_state (raft s));
  ro_hs : Ready.hs rd = if bool_decide (Raft.hard_state (raft s) = prev_hs s) then None else Some (Raft.hard_state (raft s));
  ro_reads : Ready.read_states rd = read_states (Raft.r (raft s));
  ro_entries : Ready.entries rd = RaftLog.unstable_entries (log_of s);
  ro_snapshot : Ready.snapshot rd = default Snapshot.default (RaftLog.unstable_snapshot (log_of s));
  ro_messages : LightReady.messages (Ready.light rd) = Raft.msgs (raft s);
  ro_persisted : Ready.is_persisted_msg rd = negb (bool_decide (state (Raft.r (raft s)) = Leader));
  ro_sync : Ready.must_sync rd =
    bool_decide (is_Some (RaftLog.unstable_snapshot (log_of s)))
    || must_sync (Raft.hard_state (raft s)) (prev_hs s) (len (RaftLog.unstable_entries (log_of s)))
}.

(** The record kept of it. *)
Definition record_of s : ReadyRecord.t :=
  ReadyRecord.mk (max_number s +w 1)
    ((fun e => (Entry.index e, Entry.term e)) <$> last (RaftLog.unstable_entries (log_of s)))
    ((fun snap => (SnapshotMetadata.index (Snapshot.metadata snap), SnapshotMetadata.term (Snapshot.metadata snap)))
       <$> RaftLog.unstable_snapshot (log_of s)).

Lemma ready_snapshot_inv rd rc s x s' : raw_ok s -> ready_snapshot rd rc s = Ret (x, s') ->
  hands [] s s' /\ raft s' = raft s /\ prev_ss s' = prev_ss s /\ prev_hs s' = prev_hs s /\ max_number s' = max_number s /\
  records s' = records s /\
  (forall snap, RaftLog.unstable_snapshot (log_of s) = Some snap ->
     let i := SnapshotMetadata.index (Snapshot.metadata snap) in
     commit_since_index s <= i /\ commit_since_index s' = i /\ RaftLog.has_next_entries_since (log_of s) i = Ret false) /\
  (RaftLog.unstable_snapshot (log_of s) = None -> commit_since_index s' = commit_since_index s) /\
  x = match RaftLog.unstable_snapshot (log_of s) with
      | Some snap => (rd <| Ready.snapshot := snap |> <| Ready.must_sync := true |>,
          rc <| ReadyRecord.snapshot := Some (SnapshotMetadata.index (Snapshot.metadata snap), SnapshotMetadata.term (Snapshot.metadata snap)) |>)
      | None => (rd, rc)
      end.
Proof.
  intros [Hok Hc] E. unfold ready_snapshot in E. apply bind_inv in E as (s0 & ? & [-> ->]%get_inv & E).
  change (raft_log (Raft.r (raft s))) with (log_of s) in E.
  destruct (RaftLog.unstable_snapshot (log_of s)) as [snap|] eqn:Es; [|by apply ret_inv in E as [<- <-]].
  cbv zeta in E. apply bind_inv in E as (u1 & s1 & [Hle%Z.leb_le ->]%assert_inv & E).
  apply bind_inv in E as (u2 & s1 & ->%modify_inv & E). apply bind_inv in E as (b & s2 & Eb & E).
  apply zoom_inv in Eb as (r1 & Eb & ->). unfold Raft.ask_log in Eb. apply asks_inv in Eb as [Eb ->].
  apply bind_inv in E as (u3 & s3 & [Hb ->]%assert_inv & [<- <-]%ret_inv). apply negb_true_iff in Hb as ->. fields.
  split; [|split_and!; try done; by intros ? [= <-]]. intros _. pose proof (view_bounds _ Hok).
  assert (ALog.base (view (log_of s)) = SnapshotMetadata.index (Snapshot.metadata snap)) as Hbase.
  { rewrite view_base. unfold RaftLog.unstable_snapshot in Es. rewrite Es.
    pose proof (uo_snapshot _ (lo_unstable _ Hok) snap Es) as Hs. unfold Unstable.snap_index in Hs. lia. }
  pose proof (last_base (view (log_of s))).
  assert (log_of (s <| commit_since_index := SnapshotMetadata.index (Snapshot.metadata snap) |>
    <| raft := raft s |>) = log_of s) as El by done.
  split; rewrite ?El; fields.
  - split; [exact Hok|]. fields. lia.
  - done.
  - lia.
  - constructor.
  - by intros e ?%elem_of_nil.
  - intros i Hi. left. lia.
Qed.

Lemma must_sync_entries st pre es (e : Entry.t) : last es = Some e -> must_sync st pre (len es) = true.
Proof.
  intros Hl. unfold must_sync. destruct es as [|x es]; [done|]. rewrite len_cons. pose proof (len_nonneg es).
  by rewrite (proj2 (Z.eqb_neq _ _)) by lia.
Qed.

Lemma ready_inv s rd s' : raw_ok s -> ready s = Ret (rd, s') ->
  handed (LightReady.committed_entries (Ready.light rd)) s s' /\ ready_of s rd /\
  prev_ss s' = prev_ss s /\ prev_hs s' = prev_hs s /\ max_number s' = max_number s +w 1 /\
  (exists old, (old = records s \/ old = []) /\ records s' = old ++ [record_of s]) /\ Raft.msgs (raft s') = [] /\
  (forall snap, RaftLog.unstable_snapshot (log_of s) = Some snap ->
     let i := SnapshotMetadata.index (Snapshot.metadata snap) in
     LightReady.committed_entries (Ready.light rd) = [] /\ commit_since_index s <= i /\
     RaftLog.has_next_entries_since (log_of s) i = Ret false) /\
  (RaftLog.unstable_snapshot (log_of s) = None ->
     (LightReady.committed_entries (Ready.light rd) = [] <->
      RaftLog.has_next_entries_since (log_of s) (commit_since_index s) = Ret false)).
Proof.
  intros Hok E. unfold ready in E. apply bind_inv in E as (u1 & s1 & ->%modify_inv & E).
  apply bind_inv in E as (s0 & ? & [-> ->]%get_inv & E). fields. cbv zeta in E.
  set (s1 := s <| max_number := max_number s +w 1 |>) in E.
  apply bind_inv in E as (u2 & s2 & E2 & E).
  assert (hands [] s s2 /\ raft s2 = raft s /\ prev_ss s2 = prev_ss s /\ prev_hs s2 = prev_hs s /\ max_number s2 = max_number s +w 1 /\
    commit_since_index s2 = commit_since_index s /\ (records s2 = records s \/ records s2 = [])) as (Ha2 & Hr2 & Hss2 & Hhs2 & Hn2 & Hc2 & Hrec).
  { apply when_inv in E2 as [[_ E2]|[_ ->]].
    - apply bind_inv in E2 as (u3 & s3 & [_ ->]%assert_inv & ->%modify_inv). split_and!; try done; [by apply hands_same|by right].
    - split_and!; try done; [by apply hands_same|by left]. }
  clear E2 s1. apply bind_inv in E as (u3 & s3 & ->%modify_inv & E).
  match type of E with (ready_snapshot ?a _ ≫= _) _ = _ => set (rd1 := a) in E; assert (Ready.number rd1 = max_number s +w 1 /\
    Ready.ss rd1 = (if bool_decide (Raft.soft_state (raft s) = prev_ss s) then None else Some (Raft.soft_state (raft s))) /\
    Ready.hs rd1 = (if bool_decide (Raft.hard_state (raft s) = prev_hs s) then None else Some (Raft.hard_state (raft s))) /\
    Ready.read_states rd1 = read_states (Raft.r (raft s)) /\ Ready.snapshot rd1 = Snapshot.default /\
    Ready.must_sync rd1 = must_sync (Raft.hard_state (raft s)) (prev_hs s) 0) as (Hd1 & Hd2 & Hd3 & Hd4 & Hd5 & Hd6) end.
  { unfold rd1, must_sync. destruct (bool_decide (Raft.soft_state (raft s) = prev_ss s)); 
      (destruct (bool_decide_reflect (Raft.hard_state (raft s) = prev_hs s)) as [Eq|];
       [rewrite Eq, !Z.eqb_refl; by split_and!|by destruct (HardState.vote _ =? _), (HardState.term _ =? _); split_and!]). }
  clearbody rd1.
  set (s3 := s2 <| raft := _ |>) in E. assert (hands [] s s3) as Ha3.
  { etrans; [exact Ha2|]. by apply hands_same. }
  assert (log_of s3 = log_of s) as Hl3 by (unfold log_of, s3; fields; by rewrite Hr2).
  apply bind_inv in E as (x & s4 & E4 & E). pose proof (h_ok _ _ _ (Ha3 Hok)) as Hok3.
  apply ready_snapshot_inv in E4 as (Ha4 & Hr4 & Hss4 & Hhs4 & Hn4 & Hrec4 & Hsome & Hnone & ->); [|done].
  pose proof (h_ok _ _ _ (Ha4 Hok3)) as Hok4. assert (log_of s4 = log_of s) as Hl4 by (unfold log_of; by rewrite Hr4).
  rewrite Hl3 in *.
  assert (exists lr s5, gen_light_ready s4 = Ret (lr, s5) /\ s' = s5 <| records := records s5 ++ [record_of s] |> /\
    Ready.light rd = lr /\ (LightReady.messages lr = Raft.msgs (raft s) -> ready_of s rd)) as (lr & s5 & E5 & -> & Hlr & Hrd).
  { unfold record_of. destruct (RaftLog.unstable_snapshot (log_of s)) as [snap|] eqn:Esn; cbv beta iota in E;
      apply bind_inv in E as (s0 & ? & [-> ->]%get_inv & E); change (raft_log (Raft.r (raft s4))) with (log_of s4) in E;
      rewrite Hl4, Hr4 in E; destruct (last (RaftLog.unstable_entries (log_of s))) as [e|] eqn:El;
      apply bind_inv in E as (lr & s5 & E5 & E); apply bind_inv in E as (u5 & s6 & ->%modify_inv & [<- <-]%ret_inv);
      exists lr, s5; (split; [exact E5|]); (split; [done|]); (split; [done|]); intros Hm.
    all: split; rewrite ?Esn; fields; try done.
    all: first [by unfold s3; fields; rewrite Hr2|rewrite (bool_decide_eq_false_2 (is_Some None)) by (by intros [? ?])].
    - symmetry. by eapply must_sync_entries.
    - by apply last_None in El as ->. }
  clear E. pose proof (h_ok _ _ _ (Ha4 Hok3)) as Hok4'. apply gen_light_ready_inv in E5 as (Hes & Hm & _ & Hms & Hnext & Hbooks); [|done].
  destruct Hbooks as [B1 B2 B3 B4 _ _]. rewrite Hlr, Hl4 in *.
  assert (raft_log (Raft.r (raft s3)) = raft_log (Raft.r (raft s))) as Hl3' by exact Hl3.
  split_and!.
  - refine (hands_app [] _ s s4 _ _ _ Hok).
    + exact (hands_app [] [] s s3 s4 Ha3 Ha4).
    + rewrite <-(app_nil_r (LightReady.committed_entries lr)). eapply hands_app; [by intros _; exact Hes|by apply hands_same].
  - apply Hrd. rewrite Hm, Hr4. unfold s3. fields. by rewrite Hr2.
  - fields. by rewrite B1, Hss4.
  - fields. by rewrite B2, Hhs4.
  - fields. by rewrite B3, Hn4.
  - exists (records s2). split; [done|]. fields. rewrite B4, Hrec4. done.
  - exact Hms.
  - intros sn Hs. destruct (Hsome sn Hs) as (Hle & Hi & Hn). unfold s3 in Hle. fields. rewrite Hc2 in Hle.
    split_and!; [|done|done]. apply Hnext. by rewrite Hi.
  - intros Hs. rewrite Hnext, Hnone by done. unfold s3. fields. by rewrite Hc2.
Qed.

(** ** When there is something to do *)

(** A [Ready] without any work. *)
Definition nothing_to_do (rd : Ready.t) : Prop :=
  Ready.ss rd = None /\ Ready.hs rd = None /\ Ready.read_states rd = [] /\ Ready.entries rd = [] /\
  Snapshot_is_empty (Ready.snapshot rd) = true /\ LightReady.committed_entries (Ready.light rd) = [] /\
  LightReady.messages (Ready.light rd) = [].

Definition no_snapshot s : Prop :=
  match snap s with Some x => negb (Snapshot_is_empty x) | None => false end = false.

Lemma has_ready_run s : raw_ok s ->
  exists b next, has_ready s = Ret b /\ RaftLog.has_next_entries_since (log_of s) (commit_since_index s) = Ret next /\
    (b = false <-> Raft.msgs (raft s) = [] /\ Raft.soft_state (raft s) = prev_ss s /\ Raft.hard_state (raft s) = prev_hs s /\
      read_states (Raft.r (raft s)) = [] /\ RaftLog.unstable_entries (log_of s) = [] /\ no_snapshot s /\ next = false).
Proof.
  intros [Hok Hc]. unfold has_ready, no_snapshot. cbv zeta. change (raft_log (Raft.r (raft s))) with (log_of s).
  rewrite has_next_entries_since_run by done. set (b := _ <? _).
  repeat case_bool_decide; cbn [negb]; try (eexists _, _; split; [reflexivity|]; split; [reflexivity|naive_solver]).
  destruct (match snap s with Some x => _ | None => _ end); eexists _, _; (split; [reflexivity|]; split; [reflexivity|naive_solver]).
Qed.

(** [has_ready] tells exactly whether there is work: it never panics, and it answers false
    exactly if a [Ready] taken now would be empty (no change of the soft or hard state, no
    read states, no entries, no snapshot, no committed entries and no messages). *)
Theorem has_ready_correct s (rd : Ready.t) s' (Hok : raw_ok s) (Hready : ready s = Ret (rd, s')) :
  exists b, has_ready s = Ret b /\ (b = false <-> nothing_to_do rd).
Proof.
  destruct (has_ready_run s Hok) as (b & next & E & En & Hb). exists b. split; [exact E|]. rewrite Hb. clear Hb E.
  apply ready_inv in Hready as (_ & Hrd & _ & _ & _ & _ & _ & Hsome & Hnone); [|done].
  destruct Hrd as [_ Hss Hhs Hrs Hen Hsn Hms _ _]. unfold nothing_to_do, no_snapshot, snap, Raft.snap.
  change (Unstable.snapshot _) with (RaftLog.unstable_snapshot (log_of s)).
  rewrite Hss, Hhs, Hrs, Hen, Hsn, Hms. clear Hss Hhs Hrs Hen Hsn Hms.
  assert (Hlast : (match RaftLog.unstable_snapshot (log_of s) with Some x => negb (Snapshot_is_empty x) | None => false end = false /\ next = false) <->
    (Snapshot_is_empty (default Snapshot.default (RaftLog.unstable_snapshot (log_of s))) = true /\
     LightReady.committed_entries (Ready.light rd) = [])).
  { destruct (RaftLog.unstable_snapshot (log_of s)) as [x|]; simpl.
    - destruct (Hsome x eq_refl) as (Hes & Hle & Hn). rewrite negb_false_iff. split; [naive_solver|]. intros [Hx _]. split; [done|].
      unfold Snapshot_is_empty in Hx. apply Z.eqb_eq in Hx. rewrite Hx in *.
      assert (commit_since_index s = 0) as Hz by (destruct Hok; lia). rewrite Hz in En. congruence.
    - rewrite (Hnone eq_refl), En. naive_solver congruence. }
  repeat case_bool_decide; naive_solver.
Qed.

(** C26 — What a [Ready] holds: the soft and the hard state if they changed since the last one, all read
    states, the unstable entries and the unstable snapshot, and the messages, which only a
    leader may send before the data is persisted.  A synchronous write is asked for exactly
    if there are entries or a snapshot, or the vote or the term changed. *)
Theorem ready_correct s (rd : Ready.t) s' (Hok : raw_ok s) (Hready : ready s = Ret (rd, s')) :
  ready_of s rd /\
  (state (Raft.r (raft s)) <> Leader -> ready_messages rd = [] /\ ready_persisted_messages rd = Raft.msgs (raft s)) /\
  (state (Raft.r (raft s)) = Leader -> ready_messages rd = Raft.msgs (raft s) /\ ready_persisted_messages rd = []) /\
  Raft.msgs (raft s') = [].
Proof.
  apply ready_inv in Hready as (_ & Hrd & _ & _ & _ & _ & Hms & _); [|done]. split; [done|].
  unfold ready_messages, ready_persisted_messages. rewrite (ro_persisted _ _ Hrd), (ro_messages _ _ Hrd), negb_involutive.
  split; [|split; [|done]]; intros Hl; [by rewrite bool_decide_eq_false_2|by rewrite bool_decide_eq_true_2].
Qed.

(** ** The reports of the application *)

(** The application has written what the record names to the storage. *)
Definition record_stored (rc : ReadyRecord.t) (l : RaftLog.t T) : Prop :=
  match ReadyRecord.snapshot rc with
  | Some (i, _) => ALog.base (storage_log (RaftLog.store l)) = i /\ joined l
  | None => True
  end /\
  match ReadyRecord.last_entry rc with
  | Some (i, _) => ALog.last (storage_log (RaftLog.store l)) = i /\
      forall j, Unstable.offset (RaftLog.unstable l) <= j <= i ->
        ALog.at_index (storage_log (RaftLog.store l)) j = ALog.at_index (view l) j
  | None => True
  end.

Lemma on_log_hands {A} (m : Prog (RaftLog.t T) A) s a s' : on_raft (Raft.on_log m) s = Ret (a, s') ->
  exists l, m (log_of s) = Ret (a, l) /\ s' = s <| raft := (raft s) <| Raft.r := (Raft.r (raft s)) <| raft_log := l |> |> |>.
Proof. intros (r1 & (l & E & ->)%zoom_inv & ->)%zoom_inv. by exists l. Qed.

Lemma commit_ready_hands rd s u s' : (forall rc, last (records s) = Some rc -> record_stored rc (log_of s)) ->
  commit_ready rd s = Ret (u, s') -> hands [] s s' /\ records s' = records s /\ max_number s' = max_number s /\
  commit_since_index s' = commit_since_index s.
Proof.
  intros Hst E. unfold commit_ready in E. apply bind_inv in E as (u1 & s1 & E1 & E). apply bind_inv in E as (u2 & s2 & E2 & E).
  assert (hands [] s s2 /\ raft s2 = raft s /\ records s2 = records s /\ max_number s2 = max_number s /\
    commit_since_index s2 = commit_since_index s) as (Ha & Hr & Hrec & Hn & Hc).
  { destruct (Ready.ss rd); [apply modify_inv in E1 as ->|apply ret_inv in E1 as [_ <-]];
      (destruct (Ready.hs rd); [apply modify_inv in E2 as ->|apply ret_inv in E2 as [_ <-]]); split_and!; try done; by apply hands_same. }
  clear E1 E2 s1. apply bind_inv in E as (s0 & ? & [-> ->]%get_inv & E). rewrite Hrec in E.
  apply bind_inv in E as (rc & s3 & [Hlast ->]%unwrap_inv & E). specialize (Hst _ Hlast).
  apply bind_inv in E as (u3 & s3 & [_ ->]%assert_inv & E). apply bind_inv in E as (u4 & s4 & E4 & E).
  assert (log_of s2 = log_of s) as Hl by (unfold log_of; by rewrite Hr). rewrite <-Hl in Hst. destruct Hst as [Hsn Hen].
  assert (exists l1, s4 = s2 <| raft := (raft s2) <| Raft.r := (Raft.r (raft s2)) <| raft_log := l1 |> |> |> /\
    log_run (log_of s2) l1 /\ (log_ok (log_of s2) -> Unstable.offset (RaftLog.unstable l1) = Unstable.offset (RaftLog.unstable (log_of s2)) /\
      RaftLog.store l1 = RaftLog.store (log_of s2) /\
      forall j, Unstable.offset (RaftLog.unstable (log_of s2)) <= j -> ALog.at_index (view l1) j = ALog.at_index (view (log_of s2)) j))
    as (l1 & -> & Hrun1 & Hsame).
  { destruct (ReadyRecord.snapshot rc) as [[i ti]|].
    - destruct Hsn as [Hb Hj]. apply on_log_hands in E4 as (l1 & E4 & ->). destruct u4. exists l1. split; [done|].
      split; [apply log_run_step; intros _; by eapply step_stable_snap|]. intros Hok. by eapply stable_snap_view.
    - apply ret_inv in E4 as [_ <-]. exists (log_of s2). split; [by destruct s2 as [[? ? [] ?] ? ? ? ? ?]|]. by split. }
  clear E4. set (s3 := s2 <| raft := _ |>) in E.
  assert (exists l2, s' = s2 <| raft := (raft s2) <| Raft.r := (Raft.r (raft s2)) <| raft_log := l2 |> |> |> /\ log_run (log_of s2) l2)
    as (l2 & -> & Hrun2).
  { destruct (ReadyRecord.last_entry rc) as [[i ti]|].
    - destruct Hen as [Hi Hat]. apply on_log_hands in E as (l2 & E & ->). destruct u. exists l2. split; [done|].
      intros Hok. destruct (Hrun1 Hok) as [Hok1 _]. destruct (Hsame Hok) as (Ho & Hs & Hv).
      revert Hok. change (log_run (log_of s2) l2). etrans; [exact Hrun1|]. apply log_run_step. intros _.
      change (log_of s3) with l1 in E. eapply step_stable_entries; [exact E|by rewrite Hs|].
      intros j Hj. rewrite Ho in Hj. rewrite Hs, Hv by lia. by apply Hat.
    - apply ret_inv in E as [_ <-]. by exists l1. }
  split_and!; try done; [|fields; done..]. etrans; [exact Ha|]. by apply hands_nil.
Qed.

Lemma on_persist_ready_hands n : pres (hands []) (on_persist_ready (T:=T) n).
Proof.
  unfold on_persist_ready. frame.
  - eapply on_raft_hands, on_persist_snap_pres.
  - eapply on_raft_hands, on_persist_entries_pres.
Qed.
Lemma on_persist_ready_since n : pres (fun s s' => commit_since_index s' = commit_since_index s) (on_persist_ready (T:=T) n).
Proof.
  intros s u s' E. unfold on_persist_ready, on_raft in E. apply bind_inv in E as (s0 & ? & [-> ->]%get_inv & E).
  destruct (pop_records _ _ _ _ _) as [[[i t] si] rest]. prog_inv; done.
Qed.

Lemma advance_append_hands rd s lr s' : raw_ok s -> (forall rc, last (records s) = Some rc -> record_stored rc (log_of s)) ->
  advance_append rd s = Ret (lr, s') -> handed (LightReady.committed_entries lr) s s'.
Proof.
  intros Hok Hst E. unfold advance_append in E. apply bind_inv in E as (u1 & s1 & E1 & E).
  apply commit_ready_hands in E1 as (H1' & _); [|done]. apply bind_inv in E as (s0 & ? & [-> ->]%get_inv & E).
  apply bind_inv in E as (u2 & s2 & E2 & E). apply on_persist_ready_hands in E2 as H2'.
  pose proof (hands_app [] [] _ _ _ H1' H2' Hok) as Ha. apply bind_inv in E as (lr0 & s3 & E3 & E).
  apply gen_light_ready_inv in E3 as (Hes & _); [|apply Ha]. apply bind_inv in E as (s4 & ? & [-> ->]%get_inv & E).
  apply bind_inv in E as (u3 & s4 & [_ ->]%assert_inv & E). cbv zeta in E. apply bind_inv in E as (lr1 & s4 & E4 & E).
  assert (LightReady.committed_entries lr1 = LightReady.committed_entries lr0 /\ hands [] s3 s4) as [El H4'].
  { destruct (_ <? _).
    - apply bind_inv in E4 as (u4 & s5 & ->%modify_inv & [<- <-]%ret_inv). split; [done|by apply hands_same].
    - apply bind_inv in E4 as (u4 & s5 & [_ ->]%assert_inv & [<- <-]%ret_inv). by split. }
  apply bind_inv in E as (s5 & ? & [-> ->]%get_inv & E). apply bind_inv in E as (u4 & s5 & [_ ->]%assert_inv & [<- <-]%ret_inv).
  rewrite El. rewrite <-(app_nil_r (LightReady.committed_entries lr0)).
  apply (hands_app ([] ++ _) [] s s3 s4); [|done|done]. eapply hands_app; [intros _; exact Ha|intros _; exact Hes].
Qed.

Lemma apply_to_hands i s u s' : Raft_room s -> advance_apply_to i s = Ret (u, s') -> hands [] s s'.
Proof.
  intros Hr E. unfold advance_apply_to, commit_apply in E. apply zoom_inv in E as (r1 & E & ->).
  apply commit_apply_evolve in E; [|done]. by apply hands_nil; [apply (e_log _ _ _ E)|].
Qed.

Lemma on_entries_fetched_hands ctx : pres (hands []) (on_entries_fetched (T:=T) ctx).
Proof.
  unfold on_entries_fetched. frame; eapply (on_raft_hands _ calm), quiet_pres; eauto with frame nocore.
Qed.

(** ** The life of a raw node *)

(** [raw_step s es s']: one operation, which hands out the committed entries [es].  The
    operations that only pass on to the node are [raw_node] ([advance] is
    [advance_append] and then [advance_apply_to]).  The application reports data as
    persisted after writing it to the storage. *)
Inductive raw_step s : list Entry.t -> RawNode.t T -> Prop :=
  | raw_ready rd s' : ready s = Ret (rd, s') -> raw_step s (LightReady.committed_entries (Ready.light rd)) s'
  | raw_advance_append rd lr s' : (forall rc, last (records s) = Some rc -> record_stored rc (log_of s)) ->
      advance_append rd s = Ret (lr, s') -> raw_step s (LightReady.committed_entries lr) s'
  | raw_advance_append_async rd s' : (forall rc, last (records s) = Some rc -> record_stored rc (log_of s)) ->
      advance_append_async rd s = Ret (tt, s') -> raw_step s [] s'
  | raw_persist_ready n s' : on_persist_ready n s = Ret (tt, s') -> raw_step s [] s'
  | raw_apply_to i s' : Raft_room s -> advance_apply_to i s = Ret (tt, s') -> raw_step s [] s'
  | raw_entries_fetched ctx s' : on_entries_fetched ctx s = Ret (tt, s') -> raw_step s [] s'
  | raw_message m x s' : wf_msg m -> fresh (raft s) -> room (len (Message.entries m) + 1) (raft s) ->
      step m s = Ret (x, s') -> raw_step s [] s'
  | raw_tick b s' : fresh (raft s) -> Raft_room s -> tick s = Ret (b, s') -> raw_step s [] s'
  | raw_node r' : raft_step (raft s) r' -> raw_step s [] (s <| raft := r' |>).

Inductive raw_run s : list Entry.t -> RawNode.t T -> Prop :=
  | raw_run_nil : raw_run s [] s
  | raw_run_step es1 s1 es2 s2 : raw_step s es1 s1 -> raw_run s1 es2 s2 -> raw_run s (es1 ++ es2) s2.

Lemma advance_split rd s lr s' : advance rd s = Ret (lr, s') ->
  exists s1, advance_append rd s = Ret (lr, s1) /\ advance_apply_to (commit_since_index s) s1 = Ret (tt, s').
Proof.
  unfold advance. intros (s0 & ? & [-> ->]%get_inv & E)%bind_inv. cbv zeta in E. apply bind_inv in E as (l & s1 & E1 & E).
  apply bind_inv in E as ([] & s2 & E2 & [<- <-]%ret_inv). by exists s1.
Qed.

Lemma raw_step_hands s es s' : raw_step s es s' -> hands es s s'.
Proof.
  intros Hstep Hok.
  destruct Hstep as [rd s' E|rd lr s' Hst E|rd s' Hst E|n s' E|i s' Hr E|ctx s' E|m x s' Hm Hf Hr E|b s' Hf Hr E|r' Hs].
  - by apply ready_inv.
  - by eapply advance_append_hands.
  - apply commit_ready_hands in E as [Ha _]; [by apply Ha|done].
  - by apply (on_persist_ready_hands n _ _ _ E).
  - by apply (apply_to_hands i s tt s').
  - by apply (on_entries_fetched_hands ctx _ _ _ E).
  - unfold step in E. destruct (is_local_msg _); [apply ret_inv in E as [_ <-]; by apply hands_same|].
    apply bind_inv in E as (s0 & ? & [-> ->]%get_inv & E). destruct (_ || _); [|apply ret_inv in E as [_ <-]; by apply hands_same].
    apply zoom_inv in E as (r1 & E & ->). apply step_evolve in E; [|done..]. revert Hok. apply hands_nil; [apply (e_log _ _ _ E)|done].
  - apply zoom_inv in E as (r1 & E & ->). apply tick_evolve in E; [|done..]. revert Hok. apply hands_nil; [apply (e_log _ _ _ E)|done].
  - revert Hok. apply hands_nil; [apply (e_log _ _ _ (raft_step_evolve _ _ Hs))|done].
Qed.

Lemma raw_run_hands s es s' : raw_run s es s' -> hands es s s'.
Proof.
  induction 1 as [s|s es1 s1 es2 s2 Hs _ IH]; [reflexivity|]. eapply hands_app; [by apply raw_step_hands|done].
Qed.

Lemma new_inv d c store rs s : storage_ok store -> ALog.last (storage_log store) < u64_MAX - 1 -> 0 <= Config.applied c ->
  initial_state store = Ret (Ok rs) -> new d c store = Ret (Ok s) ->
  raw_ok s /\ commit_since_index s = Config.applied c /\ records s = [] /\
  started c (RaftState.hard_state rs) (RaftState.conf_state rs) (storage_log store) (raft s).
Proof.
  intros Hs Hb Ha Hinit Hnew. unfold new in Hnew. destruct (_ =? 0); [done|].
  destruct (Raft.new d c store) as [[rf|e]| |] eqn:E; try done. cbn [mbind outcome_bind] in Hnew. injection Hnew as <-.
  destruct (new_started d c store rs rf Hs Hb Ha Hinit E) as [_ Hst]. split_and!; try done. unfold raw_ok, log_of. fields.
  destruct (st_log _ _ _ _ _ Hst) as [Hok Hv]. split; [done|]. split; [done|]. cbn [commit_since_index].
  pose proof (st_applied _ _ _ _ _ Hst) as Hap. destruct (Z.ltb_spec 0 (Config.applied c)); [|u64_unfold; lia].
  pose proof (lo_applied _ Hok). pose proof (lo_committed _ Hok). pose proof (view_bounds _ Hok). lia.
Qed.

(** C7 — Every committed entry reaches the application exactly once, in order, and not before it is
    persisted: from the start of a raw node through every sequence of operations, the entries handed
    out in [Ready]s and [LightReady]s have ascending positions, start after the applied position of
    the configuration, are committed and persisted, are what the log and the stable storage hold,
    and every position up to [commit_since_index] was handed out unless a snapshot or a compaction
    covers it. *)
Theorem committed_entries_delivered_once (d : nat) (c : Config.t) (store : T) (rs : RaftState.t) s es s'
    (Hs : storage_ok store) (Hb : ALog.last (storage_log store) < u64_MAX - 1) (Ha : 0 <= Config.applied c)
    (Hinit : initial_state store = Ret (Ok rs)) (Hnew : new d c store = Ret (Ok s)) (Hrun : raw_run s es s') :
  StronglySorted Z.lt (Entry.index <$> es) /\
  (forall e, e ∈ es -> Config.applied c < Entry.index e <= RaftLog.committed (log_of s') /\
     Entry.index e <= RaftLog.persisted (log_of s') /\
     (ALog.base (view (log_of s')) < Entry.index e ->
        ALog.at_index (view (log_of s')) (Entry.index e) = Some e /\
        ALog.at_index (storage_log (RaftLog.store (log_of s'))) (Entry.index e) = Some e)) /\
  (forall i, Config.applied c < i <= commit_since_index s' -> i ∈ Entry.index <$> es \/ i <= ALog.base (view (log_of s'))) /\
  (forall e, e ∈ es -> Entry.index e <= commit_since_index s').
Proof.
  destruct (new_inv d c store rs s Hs Hb Ha Hinit Hnew) as (Hok & Hc & _).
  destruct (raw_run_hands s es s' Hrun Hok) as [Hok' _ _ Ho He Hall]. rewrite Hc in *. split_and!; [done|..].
  - intros e Hin. destruct (He e Hin) as (? & Hd & Hat). unfold deliverable in Hd. split_and!; [lia..|].
    intros Hlt. specialize (Hat Hlt). split; [done|]. rewrite persisted_stored; [done|apply Hok'|lia].
  - intros i Hi. destruct (Hall i Hi); auto.
  - intros e Hin. destruct (He e Hin) as (? & _). lia.
Qed.
End raw.

(** ** Witnesses: a cluster of one *)
Section witnesses.
#[local] Existing Instance ten_bytes.
#[local] Existing Instance sorted_order.
Import RaftCore RawNode.

Definition store1 : MemStorage.t :=
  MemStorage.new <| MemStorageCore.raft_state := RaftState.mk HardState.default (ConfState_from [1] []) |>.
Definition run {A} (m : Prog (RawNode.t MemStorage.t) A) s := match m s with Ret (_, s') => s' | _ => s end.
Definition unstarted : RawNode.t MemStorage.t := RawNode.mk idle SoftState.default HardState.default 0 [] 0.

Definition raw1 : RawNode.t MemStorage.t := match new 0 (config 1) store1 with Ret (Ok s) => s | _ => unstarted end.
Definition hup_default := Message.default <| Message.msg_type := MsgHup |>.
Definition raw1_leader := run campaign raw1.
Definition ready1 : Ready.t := match ready raw1_leader with Ret (rd, _) => rd | _ => Ready.default end.
Definition raw1_taken := run ready raw1_leader.

(** The application appends the entry to the storage. *)
Definition store1_written : MemStorage.t :=
  match MemStorageCore.append (Ready.entries ready1) store1 with Ret (_, st) => st | _ => store1 end.
Definition written_log : RaftLog.t MemStorage.t := (log_of raw1_taken) <| RaftLog.store := store1_written |>.
Definition raw1_written := raw1_taken <| raft := (raft raw1_taken) <| Raft.r := (Raft.r (raft raw1_taken)) <| raft_log := written_log |> |> |>.
Definition light1 : LightReady.t := match advance_append ready1 raw1_written with Ret (lr, _) => lr | _ => LightReady.default end.
Definition raw1_advanced := run (advance_append ready1) raw1_written.

Lemma store1_ok : storage_ok store1.
Proof. split; [by vm_compute|done|by vm_compute|by left]. Qed.
Lemma store1_written_ok : storage_ok store1_written.
Proof.
  replace store1_written with (store1 <| MemStorageCore.entries := [Entry.default <| Entry.term := 1 |> <| Entry.index := 1 |>] |>)
    by (by vm_compute).
  split; [by vm_compute|vm_compute; split; done|by vm_compute|by left].
Qed.

Definition empty_log1 : RaftLog.t MemStorage.t := RaftLog.mk store1 (Unstable.new 1) 0 0 0.
Lemma empty_log1_ok : log_ok empty_log1.
Proof.
  split; [exact store1_ok|split; try done; vm_compute; congruence|..]; [|by vm_compute..].
  intros _. by split; vm_compute.
Qed.
Lemma raw1_log : log_of raw1 = empty_log1.
Proof. by vm_compute. Qed.

Lemma raw1_room : room 1 (raft raw1).
Proof. unfold room. fold (log_of raw1). rewrite raw1_log. split; [apply empty_log1_ok|by vm_compute]. Qed.

Lemma raw1_campaigns : raw_step raw1 [] raw1_leader.
Proof.
  replace raw1_leader with (raw1 <| raft := raft raw1_leader |>) by (by vm_compute). apply raw_node.
  apply (step_message _ hup_default (Ok tt)); [by split|by apply (fresh_at 0); [vm_compute|]|apply raw1_room|by vm_compute].
Qed.
Lemma raw1_takes : raw_step raw1_leader [] raw1_taken.
Proof.
  replace [] with (LightReady.committed_entries (Ready.light ready1)) by (by vm_compute). apply raw_ready. by vm_compute.
Qed.
Lemma raw1_writes : raw_step raw1_taken [] raw1_written.
Proof.
  apply (raw_node raw1_taken (raft raw1_written)). apply step_local_work, step_log_work, step_store. split.
  - apply store1_written_ok.
  - intros _. fold (log_of raw1_taken). evaluate (log_of raw1_taken). evaluate store1_written.
    split_and!; try by vm_compute. intros i Hi. change (0 < i < 1) in Hi. lia.
Qed.
Lemma raw1_advances : raw_step raw1_written (LightReady.committed_entries light1) raw1_advanced.
Proof.
  apply (raw_advance_append raw1_written ready1 light1); [|by vm_compute].
  intros rc Hrc. replace rc with (ReadyRecord.mk 1 (Some (1, 1)) None) by (vm_compute in Hrc; congruence).
  replace (log_of raw1_written) with written_log by (by vm_compute). evaluate written_log. split; [done|].
  split; [by vm_compute|]. simpl. intros j Hj. assert (j = 1) as -> by lia. by vm_compute.
Qed.
Lemma raw1_run : raw_run raw1 (LightReady.committed_entries light1) raw1_advanced.
Proof.
  change (LightReady.committed_entries light1) with ([] ++ [] ++ [] ++ LightReady.committed_entries light1).
  apply (raw_run_step _ _ _ _ _ raw1_campaigns), (raw_run_step _ _ _ _ _ raw1_takes), (raw_run_step _ _ _ _ _ raw1_writes).
  rewrite <-(app_nil_r (LightReady.committed_entries light1)). apply (raw_run_step _ _ _ _ _ raw1_advances), raw_run_nil.
Qed.

Lemma committed_entries_delivered_once_witness :
  Entry.index <$> LightReady.committed_entries light1 = [1] /\ 1 ∈ Entry.index <$> LightReady.committed_entries light1.
Proof.
  split; [by vm_compute|].
  destruct (committed_entries_delivered_once 0 (config 1) store1 _ raw1 _ raw1_advanced store1_ok ltac:(by vm_compute)
    ltac:(done) ltac:(reflexivity) ltac:(by vm_compute) raw1_run) as (_ & _ & Hall & _).
  assert (commit_since_index raw1_advanced = 1) as Hc by (by vm_compute).
  assert (ALog.base (view (log_of raw1_advanced)) = 0) as Hb by (by vm_compute).
  rewrite Hc, Hb in Hall. destruct (Hall 1) as [Hin|?]; [split; [reflexivity|lia]|exact Hin|lia].
Defined.

Lemma raw1_ok : raw_ok raw1.
Proof. split; [rewrite raw1_log; apply empty_log1_ok|by vm_compute]. Qed.
Lemma raw1_leader_ok : raw_ok raw1_leader.
Proof. apply (raw_step_hands _ _ _ raw1_campaigns raw1_ok). Qed.

Lemma has_ready_correct_witness : has_ready raw1 = Ret false /\ has_ready raw1_leader = Ret true.
Proof.
  split.
  - destruct (has_ready_correct raw1 (match ready raw1 with Ret (rd, _) => rd | _ => Ready.default end) (run ready raw1) raw1_ok)
      as (b & -> & Hb); [by vm_compute|]. f_equal. apply Hb. by vm_compute.
  - destruct (has_ready_correct raw1_leader ready1 raw1_taken raw1_leader_ok) as (b & E & Hb); [by vm_compute|].
    rewrite E. destruct b; [done|]. destruct (proj1 Hb eq_refl) as (_ & _ & _ & Hen & _). by vm_compute in Hen.
Defined.

Lemma ready_correct_witness : Ready.must_sync ready1 = true /\ Raft.msgs (raft raw1_taken) = [].
Proof.
  destruct (ready_correct raw1_leader ready1 raw1_taken raw1_leader_ok) as (Hrd & _ & _ & Hm); [by vm_compute|].
  split; [rewrite (ro_sync _ _ Hrd); by vm_compute|exact Hm].
Defined.
End witnesses.
