(* ===== verification/Cluster.v ===== *)
(** * A cluster of nodes

    The nodes of [Raft.v] with a network between them: messages may be lost,
    duplicated, delayed and reordered, nodes may stop and come up again from their
    storage.  The voters stay the same here.  The theorem is the election safety of
    Raft: there is at most one leader in a term. *)

From S2P Require Import Prelude Proto Errors Util Inflights Progress Quorum Tracker ConfChange.
From S2P Require Import Log Unstable Storage RaftLog ReadOnly Config RaftCore Raft RaftFrame RaftExample RaftProps.

(** ** The votes a message makes a node give *)
Section grants.
Context {T : Type} `{StorageLaws T} `{Codec} `{HashOrder} `{ConfigurationDebug} `{Rng}.
Import RaftCore Raft.
Implicit Types s : Raft.t T.

(** Every message that gives a vote is old, or gives the vote of the node for its term. *)
Definition gives_own_vote s s' : Prop := forall m, gives_vote m -> m ∈ msgs s' ->
  m ∈ msgs s \/ (Message.from m = id (r s') /\ Message.term m = term (r s') /\ Message.to m = vote (r s') /\ Message.term m <> 0).

Lemma no_grants_own s s' : no_grants (msgs s) (msgs s') -> gives_own_vote s s'.
Proof. intros Hn m Hm Hin. left. by apply Hn. Qed.

Lemma handle_vote_request_grants m s u s' : Message.term m = 0 \/ Message.term m = term (r s) ->
  handle_vote_request m s = Ret (u, s') -> gives_own_vote s s'.
Proof using All.
  intros Ht [Hev|(_ & _ & Hz & m' & (_ & _ & Hto & Hfrom & Hterm & _) & ->)]%handle_vote_request_inv.
  { apply no_grants_own. by destruct (e_grants _ _ _ Hev). }
  intros m1 _ [?|Hin]%elem_of_app; [by left|]. apply list_elem_of_singleton in Hin as ->. right. fields.
  rewrite (Hterm eq_refl), (Hfrom eq_refl), Hto. fields. destruct Ht as [?|Ht]; [done|by rewrite Ht in *].
Qed.

Lemma step_grants m s x s' : wf_msg m -> fresh s -> room (len (Message.entries m) + 1) s ->
  step m s = Ret (x, s') -> gives_own_vote s s'.
Proof using All.
  intros Hm Hf Hr E. destruct (decide (Message.msg_type m = MsgRequestVote)) as [Ety|Hty].
  2: { apply no_grants_own. by destruct (e_grants _ _ _ (step_evolve _ _ _ _ Hm Hf Hr E)). }
  unfold step in E. apply bind_inv in E as (go & s1 & Et & E). apply step_term_inv in Et; [|done].
  rewrite Ety in E. destruct Et as [[-> Hgo]|[[-> Hq]|(Hlt & Hev & Ht & _)]].
  - destruct go; [|apply ret_inv in E as [_ <-]; by apply no_grants_own].
    apply bind_inv in E as (u & s2 & E & [_ <-]%ret_inv). eapply handle_vote_request_grants; [|done]. by apply Hgo; [|right].
  - apply ret_inv in E as [_ <-]. apply no_grants_own, Hq.
  - assert (no_grants (msgs s) (msgs s1)) as Hn by by destruct (e_grants _ _ _ Hev).
    destruct (negb go); [apply ret_inv in E as [_ <-]; by apply no_grants_own|].
    apply bind_inv in E as (u & s2 & E & [_ <-]%ret_inv). eapply handle_vote_request_grants in E; [|by right].
    intros m1 Hg Hin. destruct (E m1 Hg Hin) as [?|?]; [|by right]. left. by apply Hn.
Qed.
End grants.

(** ** The cluster *)
Section cluster.
Context {T : Type} `{StorageLaws T} `{Codec} `{HashOrder} `{ConfigurationDebug} `{Rng}.
Import RaftCore Raft.
Implicit Types s : Raft.t T.

(** The nodes by their id, and the messages that were ever sent. *)
Record cluster := mk_cluster {
  nodes : gmap Z (Raft.t T);
  net : list Message.t
}.
Implicit Types c : cluster.

Definition voters_of s : Joint.Configuration := Configuration.voters (ProgressTracker.conf (prs s)).

(** A node that was just started from its storage. *)
Definition started_node (i : Z) s : Prop := exists d cfg store rs,
  storage_ok store /\ ALog.last (storage_log store) < u64_MAX - 1 /\ 0 <= Config.applied cfg /\
  initial_state store = Ret (Ok rs) /\ Config.id cfg = i /\ new d cfg store = Ret (Ok s).

(** The voters are [V]. *)
Variable V : Joint.Configuration.

Definition initial_cluster c : Prop :=
  net c = [] /\ forall i s, nodes c !! i = Some s -> started_node i s /\ voters_of s = V.

(** What happens in the cluster, as long as no node leaves the configuration [V].
    - A node takes in a message.  A vote must have been sent to it; of the other
      messages nothing is assumed, they may even be made up.
    - A node works on its own: time, reports and requests of the application.
    - The messages of a node are sent.
    - A node starts again with the term and the vote it had (the application stores
      them before it sends the messages). *)
Inductive cluster_step c : cluster -> Prop :=
  | deliver i s m x s' : nodes c !! i = Some s ->
      (Message.msg_type m = MsgRequestVoteResponse -> m ∈ net c /\ Message.to m = i) ->
      wf_msg m -> fresh s -> room (len (Message.entries m) + 1) s -> step m s = Ret (x, s') -> voters_of s' = V ->
      cluster_step c (mk_cluster (<[i := s']> (nodes c)) (net c))
  | work i s s' : nodes c !! i = Some s -> local_step s s' -> voters_of s' = V ->
      cluster_step c (mk_cluster (<[i := s']> (nodes c)) (net c))
  | transmit i s : nodes c !! i = Some s ->
      cluster_step c (mk_cluster (<[i := s <| msgs := [] |>]> (nodes c)) (net c ++ msgs s))
  | restart i s s' : nodes c !! i = Some s -> started_node i s' -> term (r s') = term (r s) -> vote (r s') = vote (r s) ->
      voters_of s' = V -> cluster_step c (mk_cluster (<[i := s']> (nodes c)) (net c)).

(** *** The invariant

    [G v t a]: the voter [v] has given its vote of the term [t] to [a]; [L i t]: the
    node [i] was leader of the term [t]. *)
Implicit Types (G : Z -> Z -> Z -> Prop) (L : Z -> Z -> Prop).

(** The message gives a vote that was given. *)
Definition backed G (m : Message.t) : Prop := gives_vote m -> Message.to m <> INVALID_ID ->
  Message.term m <> 0 /\ G (Message.from m) (Message.term m) (Message.to m).

Record node_inv G L (i : Z) s : Prop := {
  n_id : id (r s) = i /\ i <> INVALID_ID;
  n_voters : voters_of s = V;
  n_vote : vote (r s) <> INVALID_ID -> G i (term (r s)) (vote (r s));
  n_runs : runs s -> vote (r s) = i;
  n_votes v : state (r s) = Candidate -> ProgressTracker.votes (prs s) !! v = Some true -> G v (term (r s)) i;
  n_msgs m : m ∈ msgs s -> backed G m;
  n_leader : state (r s) = Leader -> L i (term (r s))
}.

(** Votes that were given and win. *)
Definition elected G (i t : Z) : Prop := exists votes : gmap Z bool,
  Joint.vote_result V (fun v => votes !! v) = Won /\ forall v, votes !! v = Some true -> G v t i.

Record cluster_inv G L c : Prop := {
  i_nodes i s : nodes c !! i = Some s -> node_inv G L i s;
  i_one v t a b : G v t a -> G v t b -> a = b;
  i_past v t a : G v t a -> a <> INVALID_ID /\
    exists s, nodes c !! v = Some s /\ (t < term (r s) \/ (t = term (r s) /\ vote (r s) = a));
  i_net m : m ∈ net c -> backed G m;
  i_elected i t : L i t -> elected G i t
}.

(** More votes and leaders. *)
Lemma backed_mono G G' m : (forall v t a, G v t a -> G' v t a) -> backed G m -> backed G' m.
Proof. intros HG Hb Hg Hto. destruct (Hb Hg Hto) as [? ?]. auto. Qed.
Lemma elected_mono G G' i t : (forall v t a, G v t a -> G' v t a) -> elected G i t -> elected G' i t.
Proof. intros HG (votes & Hw & Hv). exists votes. auto. Qed.
Lemma node_inv_mono G G' L L' i s : (forall v t a, G v t a -> G' v t a) -> (forall j t, L j t -> L' j t) ->
  node_inv G L i s -> node_inv G' L' i s.
Proof. intros HG HL []. split; eauto using backed_mono. Qed.

(** *** A node takes a step *)
Section node_step.
Context (G : Z -> Z -> Z -> Prop) (L : Z -> Z -> Prop) (c : cluster) (i : Z) (s s' : Raft.t T) (C : cause).
Context (Hinv : cluster_inv G L c) (Hi : nodes c !! i = Some s) (Hev : evolve C s s') (Hown : gives_own_vote s s')
  (HV : voters_of s' = V).
Context (Hlead : state (r s') = Leader -> c_leader C (term (r s')) -> exists votes : gmap Z bool,
  Joint.vote_result V (fun v => votes !! v) = Won /\ forall v, votes !! v = Some true -> v = i \/ G v (term (r s')) i).
Context (Hvote : forall v, c_vote C v (term (r s')) -> G v (term (r s')) i).

Definition votes_after : Z -> Z -> Z -> Prop := fun v t a =>
  G v t a \/ (v = i /\ t = term (r s') /\ a = vote (r s') /\ a <> INVALID_ID).
Definition leaders_after : Z -> Z -> Prop := fun j t =>
  L j t \/ (j = i /\ t = term (r s') /\ state (r s') = Leader).

Lemma node_id : id (r s') = i /\ id (r s) = i /\ i <> INVALID_ID.
Proof using Hi Hinv Hev. destruct (n_id _ _ _ _ (i_nodes _ _ _ Hinv _ _ Hi)) as [Hid ?]. by rewrite (e_id _ _ _ Hev). Qed.

(** The vote of the node in its term was given before, if it had one. *)
Lemma vote_kept a : G i (term (r s')) a -> vote (r s') = a.
Proof using Hi Hinv Hev.
  intros HG. destruct (i_past _ _ _ Hinv _ _ _ HG) as (Ha & s0 & Hs0 & Ht). rewrite Hi in Hs0. injection Hs0 as <-.
  pose proof (e_term _ _ _ Hev). destruct Ht as [|[Ht Hv]]; [lia|].
  destruct (e_vote _ _ _ Hev Ht) as [?|?]; congruence.
Qed.

Lemma runs_after : runs s' -> vote (r s') = i.
Proof using Hi Hinv Hev.
  intros Hr. destruct node_id as (_ & Hid & Hz). destruct (e_runs _ _ _ Hev Hr) as [?|[?|[Hs Ht]]]; [congruence..|].
  pose proof (n_runs _ _ _ _ (i_nodes _ _ _ Hinv _ _ Hi) Hs) as Hv.
  destruct (e_vote _ _ _ Hev Ht); congruence.
Qed.

Lemma own_vote_after : runs s' -> votes_after i (term (r s')) i.
Proof using Hi Hinv Hev.
  intros Hr. right. destruct node_id as (_ & _ & Hz). by rewrite (runs_after Hr).
Qed.

Lemma node_after : node_inv votes_after leaders_after i s'.
Proof using Hi Hinv Hev Hown HV Hvote.
  pose proof (i_nodes _ _ _ Hinv _ _ Hi) as Hn. destruct node_id as (Hid & Hid0 & Hz). split.
  - done.
  - done.
  - intros Hv. by right.
  - exact runs_after.
  - intros v Hc Hv. destruct (e_votes _ _ _ Hev Hc v Hv) as [->|[Hv'|(Hc' & Ht & Hv')]].
    + rewrite Hid0. apply own_vote_after. by left.
    + left. by apply Hvote.
    + left. rewrite Ht. by apply (n_votes _ _ _ _ Hn).
  - intros m Hin Hg Hto. destruct (Hown m Hg Hin) as [Hold|(Hf & Ht & Hto' & Hnz)].
    + destruct (n_msgs _ _ _ _ Hn m Hold Hg Hto). split; [done|by left].
    + split; [done|]. right. by rewrite Hf, Hid, Ht, <-Hto'.
  - intros Hl. by right.
Qed.

Lemma elected_after j t : leaders_after j t -> elected votes_after j t.
Proof using Hi Hinv Hev Hlead.
  intros [HL|(-> & -> & Hl)]; [eapply elected_mono; [|by apply (i_elected _ _ _ Hinv)]; by left|].
  destruct (e_leader _ _ _ Hev Hl) as [[Hl0 Ht]|Hc].
  - rewrite Ht. eapply elected_mono; [by left|]. apply (i_elected _ _ _ Hinv), (n_leader _ _ _ _ (i_nodes _ _ _ Hinv _ _ Hi) Hl0).
  - destruct (Hlead Hl Hc) as (votes & Hw & Hv). exists votes. split; [done|]. intros v Hvt.
    destruct (Hv v Hvt) as [->|?]; [|by left]. apply own_vote_after. by right.
Qed.

Lemma node_step : cluster_inv votes_after leaders_after (mk_cluster (<[i := s']> (nodes c)) (net c)).
Proof using Hi Hinv Hev Hown HV Hlead Hvote.
  split; simpl.
  - intros j s0. rewrite lookup_insert. case_decide as Hj; [intros [= <-]; subst j; apply node_after|].
    intros Hs0. eapply node_inv_mono; [by left..|]. by apply (i_nodes _ _ _ Hinv).
  - intros v t a b [Ha|(-> & -> & -> & _)] [Hb|(Hv & Ht & -> & _)].
    + by eapply (i_one _ _ _ Hinv).
    + subst. by rewrite (vote_kept a).
    + by apply vote_kept.
    + done.
  - intros v t a [HG|(-> & -> & -> & Hz)].
    + destruct (i_past _ _ _ Hinv _ _ _ HG) as (Ha & s0 & Hs0 & Ht). split; [done|].
      destruct (decide (v = i)) as [->|Hv]; [|exists s0; by rewrite lookup_insert_ne].
      exists s'. rewrite lookup_insert_eq. split; [done|]. rewrite Hi in Hs0. injection Hs0 as <-.
      pose proof (e_term _ _ _ Hev). destruct (Z.eq_dec t (term (r s'))) as [->|]; [|left; destruct Ht as [?|[? _]]; lia].
      right. split; [done|by apply vote_kept].
    + split; [done|]. exists s'. rewrite lookup_insert_eq. auto.
  - intros m Hm. eapply backed_mono; [by left|]. by apply (i_net _ _ _ Hinv).
  - exact elected_after.
Qed.
End node_step.

(** *** A node is replaced by one with the same term and vote *)
Lemma replace_node G L c i s s' ms : cluster_inv G L c -> nodes c !! i = Some s -> node_inv G L i s' ->
  term (r s') = term (r s) -> vote (r s') = vote (r s) -> (forall m, m ∈ ms -> m ∈ net c \/ m ∈ msgs s) ->
  cluster_inv G L (mk_cluster (<[i := s']> (nodes c)) ms).
Proof.
  intros Hinv Hi Hn Ht Hv Hms. split; simpl.
  - intros j s0. rewrite lookup_insert. case_decide; [intros [= <-]; by subst j|]. apply (i_nodes _ _ _ Hinv).
  - apply (i_one _ _ _ Hinv).
  - intros v t a HG. destruct (i_past _ _ _ Hinv _ _ _ HG) as (Ha & s0 & Hs0 & Hp). split; [done|].
    destruct (decide (v = i)) as [->|Hne]; [|exists s0; by rewrite lookup_insert_ne].
    exists s'. rewrite lookup_insert_eq, Ht, Hv. split; [done|]. rewrite Hi in Hs0. by injection Hs0 as <-.
  - intros m [?|?]%Hms; [by apply (i_net _ _ _ Hinv)|]. by apply (n_msgs _ _ _ _ (i_nodes _ _ _ Hinv _ _ Hi)).
  - apply (i_elected _ _ _ Hinv).
Qed.

(** A started node has no votes, no messages and is not leader. *)
Lemma started_node_inv G L i s : started_node i s -> voters_of s = V ->
  (vote (r s) <> INVALID_ID -> G i (term (r s)) (vote (r s))) -> node_inv G L i s.
Proof.
  intros (d & cfg & store & rs & Hs & Hb & Ha & Hinit & Hid & Hnew) HV Hvote.
  destruct (new_started d cfg store rs s Hs Hb Ha Hinit Hnew) as [Hval Hst].
  destruct (st_role _ _ _ _ _ Hst) as (Hrole & _ & Hid'). pose proof (st_msgs _ _ _ _ _ Hst) as Hmsgs. split.
  - split; [congruence|]. intros ->. unfold Config.validate in Hval. by rewrite Hid in Hval.
  - done.
  - done.
  - by intros [?|?]; rewrite Hrole in *.
  - intros v. by rewrite Hrole.
  - intros m. rewrite Hmsgs. by intros ?%elem_of_nil.
  - by rewrite Hrole.
Qed.

(** *** Every step keeps the invariant *)
Lemma counted_vote G L c i s m : cluster_inv G L c -> (Message.msg_type m = MsgRequestVoteResponse -> m ∈ net c /\ Message.to m = i) ->
  i <> INVALID_ID -> gives_vote m -> of_term s m -> G (Message.from m) (term (r s)) i.
Proof.
  intros Hinv Hnet Hi Hg Ht. destruct (Hnet (proj1 Hg)) as [Hin Hto].
  destruct (i_net _ _ _ Hinv m Hin Hg) as [Hz HG]; [congruence|]. rewrite Hto in HG.
  destruct Ht as [?|<-]; [left; apply Hg|done|done].
Qed.

Lemma new_leaders L c i s' : (forall j t, L j t -> leaders_after L i s' j t) /\
  forall j t, leaders_after L i s' j t -> L j t \/ exists s, (<[i := s']> (nodes c)) !! j = Some s /\ state (r s) = Leader /\ t = term (r s).
Proof. split; [by left|]. intros j t [?|(-> & -> & Hl)]; [by left|right]. exists s'. by rewrite lookup_insert_eq. Qed.

Lemma cluster_step_inv G L c c' : cluster_inv G L c -> cluster_step c c' ->
  exists G' L', cluster_inv G' L' c' /\ (forall i t, L i t -> L' i t) /\
    forall i t, L' i t -> L i t \/ exists s, nodes c' !! i = Some s /\ state (r s) = Leader /\ t = term (r s).
Proof.
  intros Hinv [i s m x s' Hi Hnet Hm Hf Hr E HV|i s s' Hi Hs HV|i s Hi|i s s' Hi Hs Ht Hv HV].
  - pose proof (i_nodes _ _ _ Hinv _ _ Hi) as Hn. destruct (n_id _ _ _ _ Hn) as [Hid Hz].
    pose proof (step_evolve _ _ _ _ Hm Hf Hr E) as Hev.
    exists (votes_after G i s'), (leaders_after L i s'). split; [|by apply new_leaders]. eapply (node_step G L c i s s' (step_cause s m)); try done.
    + by eapply step_grants.
    + intros _ [(Hty & Hc & Hterm & Ht & Hw)|Hw].
      * eexists. split; [rewrite <-(n_voters _ _ _ _ Hn); exact Hw|]. intros v. unfold ProgressTracker.record_vote. rewrite Ht.
        destruct (ProgressTracker.votes (prs s) !! Message.from m) as [b|]; [right; by apply (n_votes _ _ _ _ Hn)|].
        fields. rewrite lookup_insert. case_decide as Hv; [|right; by apply (n_votes _ _ _ _ Hn)].
        intros [= Hb]. right. subst v. eapply counted_vote; [done..| |done]. split; [done|]. by destruct (Message.reject m).
      * eexists. split; [rewrite <-(n_voters _ _ _ _ Hn); exact Hw|]. intros v [Hv _]%lookup_singleton_Some. left. congruence.
    + intros v (Hg & -> & -> & Hterm). by eapply counted_vote.
  - pose proof (i_nodes _ _ _ Hinv _ _ Hi) as Hn. destruct (n_id _ _ _ _ Hn) as [Hid Hz].
    pose proof (local_step_evolve _ _ Hs) as Hev.
    exists (votes_after G i s'), (leaders_after L i s'). split; [|by apply new_leaders]. eapply (node_step G L c i s s' (works s)); try done.
    + apply no_grants_own. by destruct (e_grants _ _ _ Hev).
    + intros _ Hw. eexists. split; [rewrite <-(n_voters _ _ _ _ Hn); exact Hw|].
      intros v [Hv _]%lookup_singleton_Some. left. congruence.
  - exists G, L. split; [|by auto]. eapply replace_node; [done..| |done|done|by intros m ?%elem_of_app].
    destruct (i_nodes _ _ _ Hinv _ _ Hi). split; try done. by intros m ?%elem_of_nil.
  - exists G, L. split; [|by auto]. eapply replace_node; [done..| |done|done|by left].
    apply started_node_inv; [done..|]. rewrite Ht, Hv. apply (n_vote _ _ _ _ (i_nodes _ _ _ Hinv _ _ Hi)).
Qed.

Lemma cluster_steps_inv G L c c' : cluster_inv G L c -> rtc cluster_step c c' ->
  exists G' L', cluster_inv G' L' c' /\ forall i t, L i t -> L' i t.
Proof.
  intros Hinv Hrun. revert G L Hinv. induction Hrun as [c|c c1 c' Hs _ IH]; intros G L Hinv; [by exists G, L|].
  destruct (cluster_step_inv G L c c1 Hinv Hs) as (G1 & L1 & Hinv1 & HL1 & _).
  destruct (IH G1 L1 Hinv1) as (G2 & L2 & Hinv2 & HL2). exists G2, L2. split; [done|]. auto.
Qed.

Lemma initial_inv c : initial_cluster c ->
  cluster_inv (fun v t a => exists s, nodes c !! v = Some s /\ t = term (r s) /\ a = vote (r s) /\ a <> INVALID_ID)
    (fun _ _ => False) c.
Proof.
  intros [Hnet Hnodes]. split.
  - intros i s Hi. destruct (Hnodes i s Hi) as [Hs HV]. apply started_node_inv; [done..|]. intros Hv. by exists s.
  - intros v t a b (s & Hs & -> & -> & _) (s1 & Hs1 & _ & -> & _). congruence.
  - intros v t a (s & Hs & -> & -> & Hz). split; [done|]. exists s. auto.
  - intros m. rewrite Hnet. by intros ?%elem_of_nil.
  - done.
Qed.

(** Two elections of a term were won by the same node. *)
Lemma elected_once G L c i j t : Majority.voters (Joint.incoming V) <> ∅ -> cluster_inv G L c ->
  elected G i t -> elected G j t -> i = j.
Proof.
  intros HV Hinv (votes & Hw & Hv) (votes' & Hw' & Hv').
  destruct (halves_meet V _ _ Hw Hw' (Joint.incoming V) (or_introl eq_refl) HV) as (v & _ & E & E').
  eapply (i_one _ _ _ Hinv v t); auto.
Qed.

(** C2 — Election safety: in a cluster whose messages may be lost, duplicated, reordered and
    (but for votes) made up, and whose nodes may stop and start again, there is at most
    one leader of a term, now and at all later times, as long as the voters stay the
    same. *)
Theorem election_safety (c0 c c' : cluster) (i j : Z) (s s' : Raft.t T)
    (HV : Majority.voters (Joint.incoming V) <> ∅) (Hinit : initial_cluster c0)
    (Hrun : rtc cluster_step c0 c) (Hrun' : rtc cluster_step c c')
    (Hi : nodes c !! i = Some s) (Hl : state (r s) = Leader)
    (Hj : nodes c' !! j = Some s') (Hl' : state (r s') = Leader) (Hterm : term (r s) = term (r s')) : i = j.
Proof.
  destruct (cluster_steps_inv _ _ _ _ (initial_inv _ Hinit) Hrun) as (G & L & Hinv & _).
  destruct (cluster_steps_inv _ _ _ _ Hinv Hrun') as (G' & L' & Hinv' & HL).
  eapply (elected_once G' L' c'); [done|done|apply (i_elected _ _ _ Hinv'), HL|apply (i_elected _ _ _ Hinv')].
  - apply (n_leader _ _ _ _ (i_nodes _ _ _ Hinv _ _ Hi) Hl).
  - rewrite Hterm. apply (n_leader _ _ _ _ (i_nodes _ _ _ Hinv' _ _ Hj) Hl').
Qed.
End cluster.

(** ** A cluster that elects a leader *)
Section witnesses.
#[local] Existing Instance ten_bytes.
#[local] Existing Instance sorted_order.
Import RaftCore Raft.

Definition node3 := booted 3.
Definition three_voters : Joint.Configuration := voters_of node1.
Definition cluster_start : cluster := mk_cluster {[1 := node1; 2 := node2; 3 := node3]} [].
Definition sent (s : Raft.t MemStorage.t) : Raft.t MemStorage.t := s <| msgs := [] |>.
Lemma sent_log s : raft_log (r (sent s)) = raft_log (r s).
Proof. done. Qed.
Definition node1_elected := after (step vote_response) (sent node1_candidate).

Definition at_node (i : Z) (s : Raft.t MemStorage.t) (c : cluster) : cluster := mk_cluster (<[i := s]> (nodes c)) (net c).
Definition sending (i : Z) (s : Raft.t MemStorage.t) (c : cluster) : cluster :=
  mk_cluster (<[i := sent s]> (nodes c)) (net c ++ msgs s).
Definition cluster_asked : cluster := sending 1 node1_candidate (at_node 1 node1_candidate cluster_start).
Definition cluster_answered : cluster := sending 2 node2_voted (at_node 2 node2_voted cluster_asked).
Definition cluster_led : cluster := at_node 1 node1_elected cluster_answered.

Lemma booted_started i s : 0 < i < 10 -> new 0 (config i) store3 = Ret (Ok s) -> started_node i s.
Proof.
  intros Hi E. exists 0%nat, (config i), store3, (RaftState.mk HardState.default (ConfState_from [1; 2; 3] [])).
  split_and!; [exact store3_ok|by vm_compute|by vm_compute|by vm_compute|done|exact E].
Qed.

Lemma cluster_start_initial : initial_cluster three_voters cluster_start.
Proof.
  split; [done|]. intros i s. unfold cluster_start, nodes. rewrite !lookup_insert_Some, lookup_singleton_Some.
  intros [[<- <-]|(_ & [[<- <-]|(_ & <- & <-)])].
  - split; [apply booted_started; [lia|by vm_compute]|done].
  - split; [apply booted_started; [lia|by vm_compute]|by vm_compute].
  - split; [apply booted_started; [lia|by vm_compute]|by vm_compute].
Qed.

(** Nothing is asked of a message that is no vote. *)
Lemma no_vote_needed (m : Message.t) (P : Prop) : Message.msg_type m <> MsgRequestVoteResponse ->
  Message.msg_type m = MsgRequestVoteResponse -> P.
Proof. done. Qed.
Lemma node1_campaigns : step msg_hup node1 = Ret (Ok tt, node1_candidate).
Proof. by vm_compute. Qed.
Lemma node2_votes : step vote_request node2 = Ret (Ok tt, node2_voted).
Proof. by vm_compute. Qed.
Lemma node1_wins : step vote_response (sent node1_candidate) = Ret (Ok tt, node1_elected).
Proof. by vm_compute. Qed.
Lemma vote_response_sent : vote_response ∈ msgs node2_voted.
Proof. apply (bool_decide_unpack _). vm_compute. exact I. Qed.

Lemma sending_step i s c : cluster_step three_voters (at_node i s c) (sending i s (at_node i s c)).
Proof. apply transmit, lookup_insert_eq. Qed.

Lemma node1_delivery : cluster_step three_voters cluster_start (at_node 1 node1_candidate cluster_start).
Proof.
  eapply (deliver _ _ 1 node1 msg_hup (Ok tt)).
  - apply lookup_insert_eq.
  - by apply no_vote_needed.
  - exact msg_hup_wf.
  - by apply (fresh_at 0); [vm_compute|].
  - by apply empty_log_room; [exact node1_log|vm_compute].
  - exact node1_campaigns.
  - by vm_compute.
Qed.
Lemma node2_delivery : cluster_step three_voters cluster_asked (at_node 2 node2_voted cluster_asked).
Proof.
  eapply (deliver _ _ 2 node2 vote_request (Ok tt)).
  - unfold cluster_asked, sending, at_node, cluster_start. cbn [nodes]. rewrite 3!lookup_insert_ne by done. apply lookup_insert_eq.
  - by apply no_vote_needed.
  - exact vote_request_wf.
  - by apply (fresh_at 0); [vm_compute|].
  - by apply empty_log_room; [exact node2_log|vm_compute].
  - exact node2_votes.
  - by vm_compute.
Qed.
Lemma vote_delivery : cluster_step three_voters cluster_answered cluster_led.
Proof.
  eapply (deliver _ _ 1 (sent node1_candidate) vote_response (Ok tt)).
  - unfold cluster_answered, cluster_asked, sending, at_node. cbn [nodes]. rewrite 2!lookup_insert_ne by done. apply lookup_insert_eq.
  - intros _. split; [|by vm_compute]. unfold cluster_answered, sending. cbn [net].
    apply elem_of_app. right. exact vote_response_sent.
  - exact vote_response_wf.
  - by apply (fresh_at 1); [vm_compute|].
  - by apply empty_log_room; [exact (eq_trans (sent_log _) node1_candidate_log)|vm_compute].
  - exact node1_wins.
  - by vm_compute.
Qed.

Lemma cluster_elects : rtc (cluster_step three_voters) cluster_start cluster_led.
Proof.
  eapply rtc_l; [exact node1_delivery|].
  eapply rtc_l; [exact (sending_step 1 node1_candidate cluster_start)|].
  eapply rtc_l; [exact node2_delivery|].
  eapply rtc_l; [exact (sending_step 2 node2_voted cluster_asked)|].
  apply rtc_once. exact vote_delivery.
Qed.

Lemma election_safety_witness : state (r node1_elected) = Leader /\ 1 = 1.
Proof.
  split; [by vm_compute|].
  apply (election_safety three_voters cluster_start cluster_led cluster_led 1 1 node1_elected node1_elected).
  - apply (bool_decide_unpack _). vm_compute. exact I.
  - exact cluster_start_initial.
  - exact cluster_elects.
  - reflexivity.
  - apply lookup_insert_eq.
  - by vm_compute.
  - apply lookup_insert_eq.
  - by vm_compute.
  - reflexivity.
Defined.
End witnesses.
