(* ===== verification/LogMatching.v ===== *)
(** * The log matching property ([raft.rs], [raft_log.rs])

    In the cluster of [Cluster.v] the entries of two logs with the same index and term
    are the same, and so are all entries before them.  The proof keeps a ghost record of
    the entries the leaders wrote, each with the term of the entry before. *)

From S2P Require Import Prelude Proto Errors Util Inflights Progress Quorum Tracker ConfChange.
From S2P Require Import Log Unstable Storage RaftLog ReadOnly Config RaftCore Raft RaftFrame Writes.
From S2P Require Import RaftExample RaftProps Cluster.

(** ** Logs and what was written *)
Section ghost.
Implicit Types v : ALog.t.

(** [P i e pt]: a leader wrote [e] at the index [i], after an entry of the term [pt]
    ([None] where its log did not know it any more). *)
Definition history := Z -> Entry.t -> option Z -> Prop.
Implicit Types P : history.

Definition chained P v : Prop := forall i e, ALog.at_index v i = Some e ->
  exists pt, P i e pt /\ forall t, ALog.term_at v (i - 1) = Some t -> pt = Some t.
(** At most one entry per index and term. *)
Definition single P : Prop := forall i e e' pt pt', P i e pt -> P i e' pt' -> Entry.term e = Entry.term e' ->
  e = e' /\ pt = pt'.

Lemma chained_mono P P' v : (forall i e pt, P i e pt -> P' i e pt) -> chained P v -> chained P' v.
Proof. intros HP Hc i e (pt & Hp & Ht)%Hc. exists pt. auto. Qed.
Lemma chained_empty P v : ALog.ents v = [] -> chained P v.
Proof. intros Hv i e He%at_index_Some. unfold ALog.last in He. rewrite Hv, len_nil in He. lia. Qed.

Lemma term_at_index v i e : ALog.at_index v i = Some e -> ALog.term_at v i = Some (Entry.term e).
Proof.
  intros He. pose proof (at_index_Some _ _ _ He). unfold ALog.term_at.
  rewrite (proj2 (Z.eqb_neq _ _)) by lia. by rewrite He.
Qed.
Lemma term_at_inv v i t : ALog.term_at v i = Some t ->
  (i = ALog.base v /\ ALog.base_term v = Some t) \/ exists e, ALog.at_index v i = Some e /\ Entry.term e = t.
Proof.
  unfold ALog.term_at. destruct (Z.eqb_spec i (ALog.base v)) as [->|]; [by left|]. right.
  destruct (ALog.at_index v i) as [e|]; [|done]. exists e. split; [done|by injection H].
Qed.

(** [v'] knows nothing that [v] does not. *)
Record part v' v : Prop := {
  pa_base : ALog.base v <= ALog.base v';
  pa_term t : ALog.base_term v' = Some t -> ALog.term_at v (ALog.base v') = Some t;
  pa_at i e : ALog.at_index v' i = Some e -> ALog.at_index v i = Some e
}.

Lemma part_term v' v i t : part v' v -> ALog.term_at v' i = Some t -> ALog.term_at v i = Some t.
Proof. intros [_ Hb Ha] [[-> ?]|(e & He & <-)]%term_at_inv; [by apply Hb|by apply term_at_index, Ha]. Qed.
Lemma part_chained P v' v : part v' v -> chained P v -> chained P v'.
Proof.
  intros Hp Hc i e (pt & ? & Ht)%(pa_at _ _ Hp)%Hc. exists pt. split; [done|]. intros t Hv. by eapply Ht, part_term.
Qed.
Lemma part_refl v : part v v.
Proof. split; [done| |done]. intros t Ht. unfold ALog.term_at. by rewrite Z.eqb_refl. Qed.

(** What a log was copied into is chained like the log. *)
Lemma copies_chained P v m : copies v m -> chained P v -> chained P (log_of m).
Proof.
  intros Hm Hc i e He. destruct (Hm i e He) as [Hi Hb]. destruct (Hc i e Hi) as (pt & HP & Ht). exists pt.
  split; [done|]. intros t [[Hj Hlt]|(e1 & He1 & <-)]%term_at_inv; apply Ht.
  - simpl in Hj, Hlt. injection Hlt as <-. replace (i - 1) with (Message.index m) by lia. apply Hb. lia.
  - apply term_at_index. by apply Hm.
Qed.

(** Two chained logs that agree on the term of an entry agree up to it. *)
Lemma chained_agree P v v' n e e' : single P -> chained P v -> chained P v' ->
  ALog.at_index v n = Some e -> ALog.at_index v' n = Some e' -> Entry.term e = Entry.term e' ->
  forall d, ALog.base v < n - Z.of_nat d -> ALog.base v' < n - Z.of_nat d ->
    ALog.at_index v (n - Z.of_nat d) = ALog.at_index v' (n - Z.of_nat d).
Proof.
  intros HP Hc Hc' He He' Ht d. revert n e e' He He' Ht. induction d as [|d IH]; intros n e e' He He' Ht.
  - rewrite Z.sub_0_r. intros _ _. destruct (Hc _ _ He) as (pt & Hp & _), (Hc' _ _ He') as (pt' & Hp' & _).
    destruct (HP _ _ _ _ _ Hp Hp' Ht) as [-> _]. congruence.
  - replace (n - Z.of_nat (S d)) with (n - 1 - Z.of_nat d) by lia. intros Hb Hb'.
    pose proof (at_index_Some _ _ _ He). pose proof (at_index_Some _ _ _ He').
    destruct (at_index_is_Some v (n - 1)) as [e1 He1]; [lia|]. destruct (at_index_is_Some v' (n - 1)) as [e1' He1']; [lia|].
    apply (IH (n - 1) e1 e1'); [done..| |lia|lia].
    destruct (Hc _ _ He) as (pt & Hp & Hpt), (Hc' _ _ He') as (pt' & Hp' & Hpt').
    destruct (HP _ _ _ _ _ Hp Hp' Ht) as [_ Heq].
    specialize (Hpt _ (term_at_index _ _ _ He1)). specialize (Hpt' _ (term_at_index _ _ _ He1')). congruence.
Qed.

(** What a leader adds to its log is added to the record. *)
Definition extended P v v' : history := fun i e pt =>
  P i e pt \/ (ALog.last v < i /\ ALog.at_index v' i = Some e /\ pt = ALog.term_at v' (i - 1)).

Lemma extended_chained P v es : chained P v -> chained (extended P v (ALog.append v es)) (ALog.append v es).
Proof.
  intros Hc i e He. destruct (Z.le_gt_cases i (ALog.last v)) as [Hi|Hi].
  - rewrite at_index_append, (proj2 (Z.leb_le _ _)) in He by done. destruct (Hc i e He) as (pt & HP & Ht).
    exists pt. split; [by left|]. intros t. rewrite term_at_append, (proj2 (Z.leb_le _ _)) by lia. apply Ht.
  - eexists. split; [right; by split_and!|]. done.
Qed.
End ghost.

(** ** Writing entries *)
Section writing.
Context {T : Type} `{StorageLaws T} `{Codec}.
Implicit Types (P : history) (rl : RaftLog.t T).

(** *** An append message that is taken over

    Before the first conflict [c] the log stays, from there on it is that of the message. *)
Section accepted.
Context (rl : RaftLog.t T) (m : Message.t) (Hok : log_ok rl) (Hm : wf_msg m) (Hty : Message.msg_type m = MsgAppend).
Context (Hacc : accepts (view rl) (RaftLog.committed rl) m).
Abbreviation idx := (Message.index m).
Abbreviation es := (Message.entries m).
Abbreviation c := (first_mismatch (view rl) es).
Abbreviation after := (accepted_view rl idx es).
Context (Hc : c <> 0).

Lemma conflict_bounds : idx < c <= idx + len es /\ RaftLog.committed rl < c <= ALog.last (view rl) + 1 /\
  ALog.base (view rl) < c /\ ALog.last (ALog.truncate (view rl) c) = c - 1.
Proof using All.
  destruct Hacc as [[_ Hi] _ Hcf], (wm_entries _ Hm Hty) as (Hes & Hb & Hf & _). pose proof (wm_index _ Hm).
  destruct Hcf as [?|Hcf]; [done|]. destruct (mismatch_facts rl idx es ltac:(done) Hes) as ([?|Hcr] & _); [done|].
  destruct (mismatch_appendable rl idx es) as (_ & _ & e & He & Hap); try done.
  pose proof (ap_above _ _ _ Hap) as Ha. rewrite He in Ha. pose proof (lo_committed _ Hok).
  split_and!; try lia. rewrite last_truncate; lia.
Qed.

Lemma accepted_before i : i < c -> ALog.at_index after i = ALog.at_index (view rl) i /\
  ALog.term_at after i = ALog.term_at (view rl) i.
Proof using All.
  intros Hi. destruct conflict_bounds as (_ & _ & Hb & El). unfold accepted_view. rewrite (proj2 (Z.eqb_neq _ _)) by done.
  rewrite at_index_append, term_at_append, El, (proj2 (Z.leb_le _ _)), at_index_truncate, term_at_truncate by lia.
  by rewrite (proj2 (Z.ltb_lt _ _)).
Qed.

Lemma accepted_beyond i : c <= i -> ALog.at_index after i = ALog.at_index (log_of m) i.
Proof using All.
  intros Hi. destruct conflict_bounds as (Hcr & _ & _ & El). unfold accepted_view. rewrite (proj2 (Z.eqb_neq _ _)) by done.
  rewrite at_index_append, El, (proj2 (Z.leb_gt _ _)) by lia.
  unfold log_of, ALog.at_index, index. simpl. rewrite !(proj2 (Z.ltb_ge _ _)) by lia. rewrite lookup_drop. f_equal. lia.
Qed.

(** Where they meet they have the same term. *)
Lemma accepted_junction t : ALog.term_at (view rl) (c - 1) = Some t -> ALog.term_at (log_of m) (c - 1) = Some t.
Proof using All.
  intros Ht. destruct conflict_bounds as (Hcr & Hcm & Hb & _), (wm_entries _ Hm Hty) as (Hes & _). pose proof (wm_index _ Hm) as Hidx.
  assert (lterm (view rl) (c - 1) = Some t) as Hl.
  { unfold lterm. by rewrite (proj2 (Z.leb_le _ _)), (proj2 (Z.leb_le _ _)) by lia. }
  destruct (Z.eq_dec (c - 1) idx) as [Hci|Hci].
  - pose proof (ac_matches _ _ _ Hacc) as Hmt. apply bool_decide_eq_true in Hmt. rewrite Hci in Hl.
    unfold ALog.term_at. simpl. rewrite Hci, Z.eqb_refl. congruence.
  - destruct (at_index_is_Some (log_of m) (c - 1)) as [e He]; [unfold ALog.last; simpl; lia|].
    rewrite (term_at_index _ _ _ He). f_equal. pose proof (at_index_entry (log_of m) (c - 1) e (conj Hidx Hes) He) as Hi.
    assert (e ∈ es) as Hin.
    { unfold ALog.at_index, index in He. simpl in He. case_match; [done|]. by eapply list_elem_of_lookup_2. }
    destruct (mismatch_facts rl idx es Hidx Hes) as (_ & Hmatch & _).
    assert (lterm (view rl) (Entry.index e) = Some (Entry.term e)) as He' by (apply Hmatch; [done|right; lia]).
    rewrite Hi in He'. congruence.
Qed.

Lemma conflict_chained P : chained P (view rl) -> chained P (log_of m) -> chained P after.
Proof using All.
  intros Hv Hcm i e He. destruct (Z.lt_ge_cases i c) as [Hic|Hic].
  - rewrite (proj1 (accepted_before i Hic)) in He. destruct (Hv i e He) as (pt & HP & Hpt). exists pt. split; [done|].
    rewrite (proj2 (accepted_before (i - 1) ltac:(lia))). exact Hpt.
  - rewrite accepted_beyond in He by done. destruct (Hcm i e He) as (pt & HP & Hpt). exists pt. split; [done|].
    intros t Hterm. apply Hpt. destruct (Z.eq_dec i c) as [->|Hne].
    { assert (c - 1 < c) as Hlt by lia. rewrite (proj2 (accepted_before (c - 1) Hlt)) in Hterm. by apply accepted_junction. }
    apply term_at_inv in Hterm as [[Hb _]|(e1 & He1 & <-)].
    + destruct conflict_bounds as (_ & _ & Hcb & _). unfold accepted_view in Hb.
      rewrite (proj2 (Z.eqb_neq _ _)) in Hb by done. simpl in Hb. lia.
    + rewrite accepted_beyond in He1 by lia. by apply term_at_index.
Qed.
End accepted.

Lemma accepted_chained P rl m : log_ok rl -> wf_msg m -> Message.msg_type m = MsgAppend ->
  accepts (view rl) (RaftLog.committed rl) m -> chained P (view rl) -> chained P (log_of m) ->
  chained P (accepted_view rl (Message.index m) (Message.entries m)).
Proof using All.
  intros Hok Hm Ht Hacc Hv Hc. destruct (Z.eq_dec (first_mismatch (view rl) (Message.entries m)) 0) as [E|E];
    [|by apply conflict_chained]. unfold accepted_view. by rewrite E.
Qed.

(** *** The work of the application on the log

    It writes the entries of the log as it stands, or compacts what it wrote, and
    reports what it wrote as stable. *)
Inductive app_step rl : RaftLog.t T -> Prop :=
  | app_write s' : may_store rl s' ->
      part (storage_log s') (view rl) \/ part (storage_log s') (storage_log (RaftLog.store rl)) ->
      app_step rl (rl <| RaftLog.store := s' |>)
  | app_stable_entries i t rl' : RaftLog.stable_entries i t rl = Ret (tt, rl') ->
      ALog.last (storage_log (RaftLog.store rl)) = i ->
      (forall j, Unstable.offset (RaftLog.unstable rl) <= j <= i ->
        ALog.at_index (storage_log (RaftLog.store rl)) j = ALog.at_index (view rl) j) ->
      app_step rl rl'
  | app_stable_snap i rl' : RaftLog.stable_snap i rl = Ret (tt, rl') ->
      ALog.base (storage_log (RaftLog.store rl)) = i -> joined rl ->
      (forall t, ALog.base_term (storage_log (RaftLog.store rl)) = Some t -> ALog.base_term (view rl) = Some t) ->
      app_step rl rl'
  | app_read rl' : same_log rl rl' -> app_step rl rl'.

Lemma app_log_step rl rl' : app_step rl rl' -> log_step rl rl'.
Proof.
  intros []; [by apply step_store|by eapply step_stable_entries|by eapply step_stable_snap|by apply step_read].
Qed.
(** What the work of the application leaves of the log. *)
Record app_kept rl rl' : Prop := {
  ak_ok : log_ok rl';
  ak_part : part (view rl') (view rl);
  ak_last : ALog.last (view rl') = ALog.last (view rl);
  ak_stored : part (storage_log (RaftLog.store rl')) (view rl) \/
    part (storage_log (RaftLog.store rl')) (storage_log (RaftLog.store rl))
}.

Lemma app_write_view rl s' : log_ok rl -> may_store rl s' ->
  part (storage_log s') (view rl) \/ part (storage_log s') (storage_log (RaftLog.store rl)) ->
  part (view (rl <| RaftLog.store := s' |>)) (view rl).
Proof.
  intros Hok Hs Hp. destruct (good_store rl s' Hok Hs) as (Hok' & _).
  destruct (Unstable.snapshot (RaftLog.unstable rl)) as [x|] eqn:Es.
  { assert (view (rl <| RaftLog.store := s' |>) = view rl) as -> by (unfold view; fields; by rewrite Es). apply part_refl. }
  destruct Hs as [_ Hs]. destruct (Hs Es) as (Hb & Ho & _ & Hsame). clear Hs.
  pose proof (view_base rl) as Eb. pose proof (view_base (rl <| RaftLog.store := s' |>)) as Eb'.
  revert Eb'. fields. rewrite Es in *. intros Eb'. split; rewrite ?Eb', ?Eb.
  - lia.
  - intros t Ht. assert (ALog.base_term (storage_log s') = Some t) as Ht' by (revert Ht; unfold view; fields; by rewrite Es).
    destruct Hp as [Hp|Hp]; [by apply Hp|]. apply (pa_term _ _ Hp), term_at_inv in Ht' as [[Hbe Hbt]|(e & He & <-)].
    + unfold ALog.term_at. rewrite Eb, Hbe, Z.eqb_refl. unfold view. by rewrite Es.
    + apply term_at_index. by rewrite at_index_stable by (done || lia).
  - intros i e He. pose proof (at_index_Some _ _ _ He) as Hi. rewrite Eb' in Hi. destruct (Z.lt_ge_cases i (Unstable.offset (RaftLog.unstable rl))).
    + rewrite at_index_stable in He by done. rewrite at_index_stable by done. revert He. fields. by rewrite Hsame by lia.
    + rewrite at_index_unstable in He by done. by rewrite at_index_unstable.
Qed.

Lemma app_step_kept rl rl' : log_ok rl -> app_step rl rl' -> app_kept rl rl'.
Proof.
  intros Hok Hs. destruct (log_step_good _ _ Hok (app_log_step _ _ Hs)) as (Hok' & _).
  destruct Hs as [s' Hs Hp|i t rl' E Hl Hsame|i rl' E Hb Hj Ht|rl' Hr].
  - split; [done|by apply app_write_view|by rewrite !view_last|exact Hp].
  - pose proof (stable_entries_inv _ _ _ _ Hok E) as (u & -> & Es & Esu & Eu & _ & Hoff & Hiv & Hoi).
    destruct (lo_joined _ Hok Es) as [Hjo _]. pose proof (view_base rl) as Eb. rewrite Es in Eb.
    split; [done| |rewrite view_last by done; fields; rewrite Eu, Hoff, len_nil; lia|right; apply part_refl].
    assert (view (rl <| RaftLog.unstable := u |>) = ALog.append (ALog.truncate (storage_log (RaftLog.store rl)) (i + 1)) []) as ->.
    { unfold view. fields. by rewrite Esu, Eu, Hoff. }
    split; rewrite ?base_append, ?base_truncate.
    + lia.
    + intros t0 Ht0. unfold ALog.term_at. rewrite Eb, Z.eqb_refl. unfold view. by rewrite Es.
    + intros j e. rewrite at_index_append, at_index_truncate. rewrite last_truncate by lia.
      destruct (Z.leb_spec j (Z.min (ALog.last (storage_log (RaftLog.store rl))) (i + 1 - 1))); [|unfold index; rewrite lookup_nil; by case_match].
      rewrite (proj2 (Z.ltb_lt _ _)) by lia. intros He. pose proof (at_index_Some _ _ _ He).
      destruct (Z.lt_ge_cases j (Unstable.offset (RaftLog.unstable rl))); [by rewrite at_index_stable|]. by rewrite <-Hsame by lia.
  - destruct (stable_snap_view _ _ _ Hok E Hb Hj) as (Ho & Hst & Hat).
    destruct (stable_snap_inv _ _ _ E Hok) as (s & Es & Hi & -> & Hv). pose proof (view_base rl) as Eb. rewrite Es in Eb.
    split; [done| |by rewrite !view_last|right; apply part_refl].
    assert (ALog.base (view rl) = ALog.base (storage_log (RaftLog.store rl))) as Hbase by lia.
    split.
    + rewrite Hv, base_append, base_truncate. lia.
    + intros t. rewrite Hv. rewrite base_append, base_truncate. intros Hbt. unfold ALog.term_at. rewrite Hbase, Z.eqb_refl. by apply Ht.
    + intros j e He. pose proof (at_index_Some _ _ _ He) as Hjr. rewrite Hv, base_append, base_truncate in Hjr.
      rewrite <-Hat by lia. done.
  - destruct Hr as (s' & -> & Hs & Hl). assert (view (rl <| RaftLog.store := s' |>) = view rl) as Hv by (unfold view; fields; by rewrite Hl).
    split; rewrite ?Hv; [done|apply part_refl|done|]. fields. rewrite Hl. right. apply part_refl.
Qed.
End writing.

(** ** The cluster *)
Section matching.
Context {T : Type} `{StorageLaws T} `{Codec} `{HashOrder} `{ConfigurationDebug} `{Rng}.
Import RaftCore Raft.
Implicit Types (s : Raft.t T) (c : cluster (T := T)) (P : history) (L : Z -> Z -> Prop).
Abbreviation log s := (view (raft_log (r s))).
Abbreviation stored_log s := (storage_log (RaftLog.store (raft_log (r s)))).

Lemma own_work_grows s s' : log_ok (raft_log (r s)) -> own_work s s' -> grows s s'.
Proof.
  intros Hok [].
  - by eapply tick_grows.
  - left. by eapply calm_still, apply_conf_change_pres.
  - by eapply commit_apply_grows.
  - left. by eapply calm_still, on_persist_entries_pres.
  - left. by eapply calm_still, on_persist_snap_pres.
  - left. by eapply quiet_still, request_snapshot_quiet.
  - left. by eapply calm_still, ping_pres.
  - left. by eapply calm_still, reduce_uncommitted_size_pres.
  - left. by eapply calm_still, enable_group_commit_pres.
  - left. by eapply calm_still, assign_commit_groups_pres.
  - left. split; [done|]. by intros _ _ m ?%elem_of_nil.
Qed.

(** A node that was just started, without batching, from a storage that holds [l]. *)
Definition started_from (l : ALog.t) (i : Z) s : Prop := exists d cfg store rs,
  storage_ok store /\ storage_log store = l /\ ALog.last l < u64_MAX - 1 /\ 0 <= Config.applied cfg /\
  Config.batch_append cfg = false /\ initial_state store = Ret (Ok rs) /\ Config.id cfg = i /\ new d cfg store = Ret (Ok s).

Lemma started_from_node l i s : started_from l i s -> started_node i s.
Proof. intros (d & cfg & store & rs & ? & <- & ? & ? & _ & ? & ? & ?). by exists d, cfg, store, rs. Qed.
Lemma started_from_log l i s : started_from l i s -> log_ok (raft_log (r s)) /\ log s = l /\ stored_log s = l /\
  batch_append (r s) = false /\ msgs s = [] /\ state (r s) = Follower.
Proof.
  intros (d & cfg & store & rs & Hs & <- & Hb & Ha & Hbatch & Hinit & _ & Hnew).
  destruct (new_started d cfg store rs s Hs Hb Ha Hinit Hnew) as [_ [[? ?] _ _ _ [? _] _ _ _ ? ? ?]].
  split_and!; (done || congruence).
Qed.

Variable V : Joint.Configuration.

(** At first the logs have no entries. *)
Definition initial_logs c : Prop := net c = [] /\ forall i s, nodes c !! i = Some s ->
  voters_of s = V /\ exists l, ALog.ents l = [] /\ started_from l i s.

(** The steps of [Cluster.v], where the append messages that a node takes in were sent,
    the application writes the log as it stands, and a node comes up with what its
    storage holds. *)
Inductive log_cluster_step c : cluster -> Prop :=
  | log_deliver i s m x s' : nodes c !! i = Some s ->
      (Message.msg_type m = MsgRequestVoteResponse -> m ∈ net c /\ Message.to m = i) ->
      (Message.msg_type m = MsgAppend -> m ∈ net c) ->
      wf_msg m -> fresh s -> room (len (Message.entries m) + 1) s -> step m s = Ret (x, s') -> voters_of s' = V ->
      log_cluster_step c (mk_cluster (<[i := s']> (nodes c)) (net c))
  | log_own i s s' : nodes c !! i = Some s -> own_work s s' -> voters_of s' = V ->
      log_cluster_step c (mk_cluster (<[i := s']> (nodes c)) (net c))
  | log_app i s l : nodes c !! i = Some s -> app_step (raft_log (r s)) l ->
      log_cluster_step c (mk_cluster (<[i := s <| r := (r s) <| raft_log := l |> |>]> (nodes c)) (net c))
  | log_transmit i s : nodes c !! i = Some s ->
      log_cluster_step c (mk_cluster (<[i := s <| msgs := [] |>]> (nodes c)) (net c ++ msgs s))
  | log_restart i s s' : nodes c !! i = Some s -> started_from (stored_log s) i s' ->
      term (r s') = term (r s) -> vote (r s') = vote (r s) -> voters_of s' = V ->
      log_cluster_step c (mk_cluster (<[i := s']> (nodes c)) (net c)).

Lemma initial_logs_cluster c : initial_logs c -> initial_cluster V c.
Proof.
  intros [Hn Hs]. split; [done|]. intros i s (HV & l & _ & Hl)%Hs. split; [by eapply started_from_node|done].
Qed.

(** *** The invariant *)
Record node_log P L (i : Z) s : Prop := {
  nl_ok : log_ok (raft_log (r s));
  nl_log : chained P (log s);
  nl_stored : chained P (stored_log s);
  nl_batch : batch_append (r s) = false;
  nl_msgs m : m ∈ msgs s -> Message.msg_type m = MsgAppend -> chained P (log_of m);
  (** the leader has all entries of its term *)
  nl_leader j e pt : state (r s) = Leader -> P j e pt -> Entry.term e = term (r s) -> j <= ALog.last (log s);
  nl_candidate : state (r s) = Candidate -> ~ L i (term (r s));
  nl_past t : L i t -> t <= term (r s)
}.

Record logs_inv P L c : Prop := {
  li_nodes i s : nodes c !! i = Some s -> node_log P L i s;
  li_single : single P;
  li_author i e pt : P i e pt -> exists j, L j (Entry.term e);
  li_net m : m ∈ net c -> Message.msg_type m = MsgAppend -> chained P (log_of m)
}.
Lemma log_step_cluster c c' : (forall i s, nodes c !! i = Some s -> log_ok (raft_log (r s)) /\ voters_of s = V) ->
  log_cluster_step c c' -> cluster_step V c c'.
Proof.
  intros Hok [i s m x s' Hi Hn Ha Hm Hf Hr E HV|i s s' Hi Hw HV|i s l Hi Hl|i s Hi|i s s' Hi Hs Ht Hv HV].
  - by eapply deliver.
  - by eapply work; [|apply step_own_work|].
  - eapply work; [done| |by apply Hok in Hi as [_ HV]]. by apply step_log_work, app_log_step.
  - by apply transmit.
  - eapply restart; try done. by eapply started_from_node.
Qed.

(** *** A node takes a step *)
Section step.
Context (G : Z -> Z -> Z -> Prop) (L L' : Z -> Z -> Prop) (P : history) (c c' : cluster (T:=T)) (i : Z) (s s' : Raft.t T).
Context (HV : Majority.voters (Joint.incoming V) <> ∅) (Hinv : logs_inv P L c) (Hi : nodes c !! i = Some s)
  (Hc' : nodes c' = <[i := s']> (nodes c)) (Hci : cluster_inv V G L' c').
Context (HL : forall j t, L j t -> L' j t) (HL' : forall j t, L' j t ->
  L j t \/ exists s1, nodes c' !! j = Some s1 /\ state (r s1) = Leader /\ t = term (r s1)).
Context (Hterm : term (r s) <= term (r s')) (Hoffice : runs s' -> (runs s /\ term (r s') = term (r s) /\
  (state (r s') = Candidate -> state (r s) = Candidate)) \/ term (r s) < term (r s')).

Lemma node_is j s1 : nodes c' !! j = Some s1 -> (j = i /\ s1 = s') \/ (j <> i /\ nodes c !! j = Some s1).
Proof using All. rewrite Hc', lookup_insert. case_decide; [intros [= <-]; left; by subst|by right]. Qed.
Lemma node_now : nodes c' !! i = Some s'.
Proof using All. rewrite Hc'. apply lookup_insert_eq. Qed.

(** There is one leader of a term. *)
Lemma leader_once j k t : L' j t -> L' k t -> j = k.
Proof using All. intros Hj Hk. eapply elected_once; [exact HV|exact Hci|by apply (i_elected _ _ _ _ Hci)..]. Qed.
Lemma leads_now : state (r s') = Leader -> L' i (term (r s')).
Proof using All. apply (n_leader _ _ _ _ _ (i_nodes _ _ _ _ Hci _ _ node_now)). Qed.

Lemma leader_past j s1 t : nodes c' !! j = Some s1 -> L' j t -> t <= term (r s1).
Proof using All.
  intros Hj [Hl|(s2 & Hs2 & _ & ->)]%HL'; [|replace s2 with s1 by congruence; lia].
  apply node_is in Hj as [[-> ->]|[_ Hj]]; [|by apply (nl_past _ _ _ _ (li_nodes _ _ _ Hinv _ _ Hj))].
  pose proof (nl_past _ _ _ _ (li_nodes _ _ _ Hinv _ _ Hi) _ Hl). lia.
Qed.

Lemma candidate_new j s1 : nodes c' !! j = Some s1 -> state (r s1) = Candidate -> ~ L' j (term (r s1)).
Proof using All.
  intros Hj Hs [Hl|(s2 & Hs2 & Hl & _)]%HL'; [|congruence].
  apply node_is in Hj as [[-> ->]|[_ Hj]]; [|by apply (nl_candidate _ _ _ _ (li_nodes _ _ _ Hinv _ _ Hj))].
  destruct Hoffice as [(_ & Ht & Hs')|Ht]; [by left| |].
  - rewrite Ht in Hl. apply (nl_candidate _ _ _ _ (li_nodes _ _ _ Hinv _ _ Hi)); [auto|done].
  - pose proof (nl_past _ _ _ _ (li_nodes _ _ _ Hinv _ _ Hi) _ Hl). lia.
Qed.

(** A leader had all entries of its term before. *)
Lemma leader_has j e pt : state (r s') = Leader -> P j e pt -> Entry.term e = term (r s') -> j <= ALog.last (log s).
Proof using All.
  intros Hs HP Ht. destruct (li_author _ _ _ Hinv _ _ _ HP) as [k Hk]. rewrite Ht in Hk.
  assert (k = i) as -> by (by eapply leader_once; [apply HL|apply leads_now]).
  pose proof (li_nodes _ _ _ Hinv _ _ Hi) as Hn. destruct Hoffice as [(Hr & Hts & _)|Hlt]; [by right| |].
  - destruct Hr as [Hr|Hr]; [by destruct (nl_candidate _ _ _ _ Hn Hr); rewrite <-Hts|].
    eapply (nl_leader _ _ _ _ Hn); [done..|congruence].
  - pose proof (nl_past _ _ _ _ Hn _ Hk). lia.
Qed.

(** The record grows by entries of the leader at most. *)
Lemma logs_after P' : (forall j e pt, P j e pt -> P' j e pt) ->
  (forall j e pt, P' j e pt -> P j e pt \/ (state (r s') = Leader /\ Entry.term e = term (r s') /\ ALog.last (log s) < j <= ALog.last (log s'))) ->
  single P' -> log_ok (raft_log (r s')) -> chained P' (log s') -> chained P' (stored_log s') -> batch_append (r s') = false ->
  (forall m, m ∈ msgs s' -> Message.msg_type m = MsgAppend -> chained P' (log_of m)) ->
  (state (r s') = Leader -> ALog.last (log s) <= ALog.last (log s')) ->
  (forall m, m ∈ net c' -> Message.msg_type m = MsgAppend -> chained P' (log_of m)) ->
  logs_inv P' L' c'.
Proof using All.
  intros HP Hnew Hs1 Hok Hlog Hst Hb Hms Hlast Hnet. split; [|done| |done].
  - intros j s1 Hj. pose proof Hj as Hnow. pose proof (candidate_new _ _ Hj). pose proof (fun t => leader_past _ _ t Hj).
    apply node_is in Hj as [[-> ->]|[Hne Hj]].
    + split; try done. intros j e pt Hl [Hp|(_ & _ & ?)]%Hnew Ht; [|lia].
      pose proof (leader_has _ _ _ Hl Hp Ht). pose proof (Hlast Hl). lia.
    + pose proof (li_nodes _ _ _ Hinv _ _ Hj) as []. split; try done; try (by eapply chained_mono); [intros; by eapply chained_mono; eauto|].
      intros k e pt Hl [Hp|(Hl' & Ht' & _)]%Hnew Ht; [by eapply nl_leader0|]. destruct Hne.
      apply (leader_once j i (term (r s'))); [|by apply leads_now]. rewrite <-Ht', Ht.
      apply (n_leader _ _ _ _ _ (i_nodes _ _ _ _ Hci _ _ Hnow) Hl).
  - intros j e pt [Hp|(Hl & -> & _)]%Hnew; [|exists i; by apply leads_now].
    destruct (li_author _ _ _ Hinv _ _ _ Hp) as [k Hk]. exists k. auto.
Qed.
(** Without new entries of the node. *)
Lemma logs_kept : log_ok (raft_log (r s')) -> chained P (log s') -> chained P (stored_log s') -> batch_append (r s') = false ->
  (forall m, m ∈ msgs s' -> Message.msg_type m = MsgAppend -> chained P (log_of m)) ->
  (state (r s') = Leader -> ALog.last (log s) <= ALog.last (log s')) ->
  (forall m, m ∈ net c' -> Message.msg_type m = MsgAppend -> chained P (log_of m)) ->
  logs_inv P L' c'.
Proof using All. intros. apply logs_after; auto. apply (li_single _ _ _ Hinv). Qed.

Lemma copied_chained : copied (r s) (msgs s) (msgs s') ->
  forall m, m ∈ msgs s' -> Message.msg_type m = MsgAppend -> chained P (log_of m).
Proof using Hinv Hi.
  pose proof (li_nodes _ _ _ Hinv _ _ Hi) as []. intros Hc m Hm Ht.
  destruct (Hc nl_ok0 nl_batch0 m Hm Ht) as [Hold|Hcp]; [by apply nl_msgs0|by eapply copies_chained].
Qed.

(** A leader appends entries of its term. *)
Lemma logs_created es : created es s s' -> log_ok (raft_log (r s')) -> stored_log s' = stored_log s ->
  batch_append (r s') = batch_append (r s) -> net c' = net c -> logs_inv (extended P (log s) (log s')) L' c'.
Proof using All.
  intros [Hl Hv Ht Hm] Hok Hst Hb Hnet. pose proof (li_nodes _ _ _ Hinv _ _ Hi) as [].
  assert (forall j e pt, P j e pt -> extended P (log s) (log s') j e pt) as HP by by left.
  assert (forall j e pt, extended P (log s) (log s') j e pt -> P j e pt \/
    (ALog.at_index (log s') j = Some e /\ pt = ALog.term_at (log s') (j - 1) /\ Entry.term e = term (r s') /\
     ALog.last (log s) < j <= ALog.last (log s'))) as Hnew.
  { intros j e pt [?|(Hj & He & ->)]; [by left|right]. pose proof (at_index_Some _ _ _ He). split_and!; try (done || lia).
    rewrite Hv, at_index_append, (proj2 (Z.leb_gt _ _)) in He by lia. unfold index in He. case_match; [done|].
    rewrite Forall_lookup in Ht. by eapply Ht. }
  assert (chained (extended P (log s) (log s')) (log s')) as Hlog by (rewrite Hv; by apply extended_chained).
  apply logs_after; try done.
  - intros j e pt [?|(_ & _ & ? & ?)]%Hnew; [by left|by right].
  - intros j e e' pt pt' [Hp|(He & -> & Ht1 & Hj)]%Hnew [Hp'|(He' & -> & Ht2 & Hj')]%Hnew Hee.
    + by eapply (li_single _ _ _ Hinv).
    + pose proof (leader_has j e pt Hl Hp ltac:(congruence)). lia.
    + pose proof (leader_has j e' pt' Hl Hp' ltac:(congruence)). lia.
    + split; [congruence|done].
  - rewrite Hst. by eapply chained_mono.
  - congruence.
  - intros m Hin Hty. destruct (Hm m nl_batch0 Hin Hty) as [Hold|Hcp].
    + eapply chained_mono; [exact HP|by apply nl_msgs0].
    + by eapply copies_chained.
  - intros _. rewrite Hv, last_append. pose proof (len_nonneg es). lia.
  - intros m. rewrite Hnet. intros Hin Hty. eapply chained_mono; [exact HP|by apply (li_net _ _ _ Hinv)].
Qed.

Lemma logs_grows : grows s s' -> log_ok (raft_log (r s')) -> stored_log s' = stored_log s ->
  batch_append (r s') = batch_append (r s) -> net c' = net c -> exists P', logs_inv P' L' c'.
Proof using All.
  intros [[Hv Hcp]|(es & Hc)] Hok Hst Hb Hnet; [exists P|by eexists; eapply logs_created].
  pose proof (li_nodes _ _ _ Hinv _ _ Hi) as []. apply logs_kept; try done.
  - by rewrite Hv.
  - by rewrite Hst.
  - congruence.
  - by apply copied_chained.
  - by rewrite Hv.
  - rewrite Hnet. apply (li_net _ _ _ Hinv).
Qed.
(** What a message brings about. *)
Lemma logs_written m : wf_msg m -> written m s s' -> log_ok (raft_log (r s')) -> stored_log s' = stored_log s ->
  batch_append (r s') = batch_append (r s) -> net c' = net c ->
  (Message.msg_type m = MsgAppend -> chained P (log_of m)) -> exists P', logs_inv P' L' c'.
Proof using All.
  intros Hm Hw Hok Hst Hb Hnet Hmsg. pose proof (li_nodes _ _ _ Hinv _ _ Hi) as Hn.
  destruct Hw as [Hg|Hty Hacc Hlog Hs Hcp|Hty Hlog Hs Hcp]; [by apply logs_grows|..].
  all: exists P; apply logs_kept; try done; rewrite ?Hst, ?Hb, ?Hnet; try apply Hn; try (by apply copied_chained); try apply (li_net _ _ _ Hinv).
  all: try (by rewrite Hs).
  - rewrite Hlog. apply accepted_chained; try done; [apply Hn|apply Hn|auto].
  - by apply chained_empty.
Qed.
End step.
Definition both_inv c : Prop := exists G L P, cluster_inv V G L c /\ logs_inv P L c.

Lemma stored_kept C s s' : evolve C s s' -> ~ c_store C -> log_ok (raft_log (r s)) -> stored_log s' = stored_log s.
Proof. intros Hev HC Hok. destruct (e_stored _ _ _ Hev) as [|Hs]; [done|by apply Hs]. Qed.

Lemma log_step_invs G L P c c' : Majority.voters (Joint.incoming V) <> ∅ -> cluster_inv V G L c -> logs_inv P L c -> log_cluster_step c c' ->
  exists G' L' P', cluster_inv V G' L' c' /\ logs_inv P' L' c' /\ (forall i t, L i t -> L' i t) /\
    forall i t, L' i t -> L i t \/ exists s, nodes c' !! i = Some s /\ state (r s) = Leader /\ t = term (r s).
Proof.
  intros HV Hci Hinv Hstep.
  assert (cluster_step V c c') as Hs.
  { eapply log_step_cluster; [|exact Hstep]. intros i s Hi. split; [apply (nl_ok _ _ _ _ (li_nodes _ _ _ Hinv _ _ Hi))|].
    apply (n_voters _ _ _ _ _ (i_nodes _ _ _ _ Hci _ _ Hi)). }
  destruct (cluster_step_inv V G L c c' Hci Hs) as (G' & L' & Hci' & HL & HL'). clear Hs.
  cut (exists P', logs_inv P' L' c'); [intros [P' ?]; by exists G', L', P'|].
  destruct Hstep as [i s m x s' Hi Hn Ha Hm Hf Hr E HV'|i s s' Hi Hw HV'|i s l Hi Hl|i s Hi|i s s' Hi Hs Ht Hv HV'].
  - pose proof (nl_ok _ _ _ _ (li_nodes _ _ _ Hinv _ _ Hi)) as Hok. pose proof (step_evolve _ _ _ _ Hm Hf Hr E) as Hev.
    eapply (logs_written G' L L' P c _ i s s'); try done; try apply Hev; try done; [by eapply step_written| |].
    + exact (stored_kept _ _ _ Hev (fun f => f) Hok).
    + intros Hty. by apply (li_net _ _ _ Hinv); [apply Ha|].
  - pose proof (nl_ok _ _ _ _ (li_nodes _ _ _ Hinv _ _ Hi)) as Hok. pose proof (own_work_evolve _ _ Hw) as Hev.
    eapply (logs_grows G' L L' P c _ i s s'); try done; try apply Hev; [by apply own_work_grows|done|].
    exact (stored_kept _ _ _ Hev (fun f => f) Hok).
  - pose proof (li_nodes _ _ _ Hinv _ _ Hi) as Hnode. pose proof (app_step_kept _ _ (nl_ok _ _ _ _ Hnode) Hl) as Hk.
    exists P. eapply (logs_kept G' L L' P c _ i s); try done; try apply Hnode; fields.
    + by left.
    + apply Hk.
    + eapply part_chained; [apply Hk|apply Hnode].
    + destruct (ak_stored _ _ Hk) as [Hp|Hp]; (eapply part_chained; [exact Hp|apply Hnode]).
    + by rewrite (ak_last _ _ Hk).
    + apply (li_net _ _ _ Hinv).
  - pose proof (li_nodes _ _ _ Hinv _ _ Hi) as Hnode.
    exists P. eapply (logs_kept G' L L' P c _ i s); try done; try apply Hnode; fields.
    + by left.
    + by intros m ?%elem_of_nil.
    + intros m [Hin|Hin]%elem_of_app; [by apply (li_net _ _ _ Hinv)|by apply (nl_msgs _ _ _ _ Hnode)].
  - pose proof (li_nodes _ _ _ Hinv _ _ Hi) as Hnode.
    destruct (started_from_log _ _ _ Hs) as (Hok & Hlog & Hst & Hb & Hms & Hfo).
    exists P. eapply (logs_kept G' L L' P c _ i s s'); try done; rewrite ?Hlog, ?Hst, ?Hfo; try apply Hnode; try done.
    + lia.
    + intros [?|?]; congruence.
    + rewrite Hms. by intros m ?%elem_of_nil.
    + apply (li_net _ _ _ Hinv).
Qed.

Lemma log_cluster_step_inv c c' : Majority.voters (Joint.incoming V) <> ∅ -> both_inv c -> log_cluster_step c c' -> both_inv c'.
Proof.
  intros HV (G & L & P & Hci & Hinv) Hstep. destruct (log_step_invs G L P c c' HV Hci Hinv Hstep) as (G' & L' & P' & ? & ? & _).
  by exists G', L', P'.
Qed.

Lemma initial_invs c : initial_logs c -> exists G, cluster_inv V G (fun _ _ => False) c /\ logs_inv (fun _ _ _ => False) (fun _ _ => False) c.
Proof.
  intros Hinit. pose proof (initial_inv V c (initial_logs_cluster c Hinit)) as Hci. destruct Hinit as [Hnet Hnodes].
  eexists. split; [exact Hci|]. split; [|done..|].
  - intros i s Hi. destruct (Hnodes i s Hi) as (_ & l & Hl & Hs). destruct (started_from_log _ _ _ Hs) as (Hok & Hlog & Hst & Hb & Hms & Hfo).
    split; try done.
    + rewrite Hlog. by apply chained_empty.
    + rewrite Hst. by apply chained_empty.
    + rewrite Hms. by intros m ?%elem_of_nil.
    + by intros _ [].
  - rewrite Hnet. by intros m ?%elem_of_nil.
Qed.

Lemma initial_both c : initial_logs c -> both_inv c.
Proof. intros (G & ? & ?)%initial_invs. by eexists _, _, _. Qed.

(** C3 — Log matching: if the logs of two nodes of a cluster have an entry with the same index and
    term, they have the same entry there and at every index before that both logs still
    hold.  Messages may be lost, duplicated and reordered, nodes may stop and come up with
    what they stored, and the application writes and compacts the storage as it likes;
    the voters stay the same, and appends are not batched ([batch_append] is off). *)
Theorem log_matching (c0 c : cluster) (i j n : Z) (s s' : Raft.t T) (e e' : Entry.t)
    (HV : Majority.voters (Joint.incoming V) <> ∅) (Hinit : initial_logs c0) (Hrun : rtc log_cluster_step c0 c)
    (Hi : nodes c !! i = Some s) (Hj : nodes c !! j = Some s')
    (He : ALog.at_index (log s) n = Some e) (He' : ALog.at_index (log s') n = Some e') (Ht : Entry.term e = Entry.term e') :
  forall k, k <= n -> ALog.base (log s) < k -> ALog.base (log s') < k ->
    ALog.at_index (log s) k = ALog.at_index (log s') k /\ is_Some (ALog.at_index (log s) k).
Proof.
  assert (both_inv c) as (G & L & P & _ & Hinv).
  { apply initial_both in Hinit. induction Hrun as [c|c c1 c' Hs _ IH]; [done|]. apply IH; try done. by eapply log_cluster_step_inv. }
  pose proof (li_nodes _ _ _ Hinv _ _ Hi) as Hn. pose proof (li_nodes _ _ _ Hinv _ _ Hj) as Hn'.
  intros k Hk Hb Hb'. pose proof (at_index_Some _ _ _ He). split; [|apply at_index_is_Some; lia].
  replace k with (n - Z.of_nat (Z.to_nat (n - k))) by lia.
  eapply (chained_agree P); try done; [apply (li_single _ _ _ Hinv)|apply Hn|apply Hn'|lia|lia].
Qed.
End matching.

(** ** A cluster that copies an entry *)
Section witnesses.
#[local] Existing Instance ten_bytes.
#[local] Existing Instance sorted_order.
Import RaftCore Raft.

Definition first_append : Message.t := nth 1 (msgs node1_elected) Message.default.
Definition node2_copied : Raft.t MemStorage.t := after (step first_append) (sent node2_voted).
Definition cluster_sent : cluster := sending 1 node1_elected cluster_led.
Definition cluster_copied : cluster := at_node 2 node2_copied cluster_sent.
Definition first_entry : Entry.t := Entry.default <| Entry.term := 1 |> <| Entry.index := 1 |>.

Lemma first_append_wf : wf_msg first_append.
Proof.
  evaluate first_append. split; try done. intros _. split_and!; try done; [by apply Forall_singleton|by left].
Qed.
Lemma first_append_sent : first_append ∈ msgs node1_elected.
Proof. apply (bool_decide_unpack _). vm_compute. exact I. Qed.
Lemma node2_copies : step first_append (sent node2_voted) = Ret (Ok tt, node2_copied).
Proof. by vm_compute. Qed.

Lemma booted_from i s : 0 < i < 10 -> new 0 (config i) store3 = Ret (Ok s) -> started_from (storage_log store3) i s.
Proof.
  intros Hi E. exists 0%nat, (config i), store3, (RaftState.mk HardState.default (ConfState_from [1; 2; 3] [])).
  split_and!; [exact store3_ok|done|by vm_compute|by vm_compute|by vm_compute|by vm_compute|done|exact E].
Qed.

Lemma cluster_start_logs : initial_logs three_voters cluster_start.
Proof.
  destruct cluster_start_initial as [Hn Hs]. split; [exact Hn|]. intros i s Hi. split; [apply (Hs i s Hi)|].
  exists (storage_log store3). split; [by vm_compute|].
  unfold cluster_start, nodes in Hi. rewrite !lookup_insert_Some, lookup_singleton_Some in Hi.
  destruct Hi as [[<- <-]|(_ & [[<- <-]|(_ & <- & <-)])]; apply booted_from; (lia || by vm_compute).
Qed.

Lemma sending_logs i s c : log_cluster_step three_voters (at_node i s c) (sending i s (at_node i s c)).
Proof. apply log_transmit, lookup_insert_eq. Qed.

(** A message that needs not have been sent. *)
Lemma free_delivery i s m s' c : nodes c !! i = Some s -> Message.msg_type m <> MsgRequestVoteResponse ->
  Message.msg_type m <> MsgAppend -> wf_msg m -> fresh s -> room (len (Message.entries m) + 1) s ->
  step m s = Ret (Ok tt, s') -> voters_of s' = three_voters ->
  log_cluster_step three_voters c (at_node i s' c).
Proof. intros. by eapply (log_deliver _ _ i s m (Ok tt)). Qed.

Lemma log_node1_delivery : log_cluster_step three_voters cluster_start (at_node 1 node1_candidate cluster_start).
Proof.
  eapply (free_delivery 1 node1 msg_hup); [apply lookup_insert_eq|by vm_compute|by vm_compute|exact msg_hup_wf| | |exact node1_campaigns|by vm_compute].
  - by apply (fresh_at 0); [vm_compute|].
  - by apply empty_log_room; [exact node1_log|vm_compute].
Qed.
Lemma log_node2_delivery : log_cluster_step three_voters cluster_asked (at_node 2 node2_voted cluster_asked).
Proof.
  eapply (free_delivery 2 node2 vote_request); [|by vm_compute|by vm_compute|exact vote_request_wf| | |exact node2_votes|by vm_compute].
  - unfold cluster_asked, sending, at_node, cluster_start. cbn [nodes]. rewrite 3!lookup_insert_ne by done. apply lookup_insert_eq.
  - by apply (fresh_at 0); [vm_compute|].
  - by apply empty_log_room; [exact node2_log|vm_compute].
Qed.
Lemma not_of_type (m : Message.t) ty (Q : Prop) : Message.msg_type m <> ty -> Message.msg_type m = ty -> Q.
Proof. done. Qed.
Lemma log_vote_delivery : log_cluster_step three_voters cluster_answered cluster_led.
Proof.
  eapply (log_deliver _ _ 1 (sent node1_candidate) vote_response (Ok tt)).
  - unfold cluster_answered, cluster_asked, sending, at_node. cbn [nodes]. rewrite 2!lookup_insert_ne by done. apply lookup_insert_eq.
  - intros _. split; [|by vm_compute]. unfold cluster_answered, sending. cbn [net].
    apply elem_of_app. right. exact vote_response_sent.
  - by apply not_of_type; vm_compute.
  - exact vote_response_wf.
  - by apply (fresh_at 1); [vm_compute|].
  - by apply empty_log_room; [exact (eq_trans (sent_log _) node1_candidate_log)|vm_compute].
  - exact node1_wins.
  - by vm_compute.
Qed.
Lemma append_delivery : log_cluster_step three_voters cluster_sent cluster_copied.
Proof.
  eapply (log_deliver _ _ 2 (sent node2_voted) first_append (Ok tt)).
  - unfold cluster_sent, cluster_led, cluster_answered, sending, at_node. cbn [nodes]. rewrite 2!lookup_insert_ne by done. apply lookup_insert_eq.
  - by apply not_of_type; vm_compute.
  - intros _. unfold cluster_sent, sending. cbn [net]. apply elem_of_app. right. exact first_append_sent.
  - exact first_append_wf.
  - by apply (fresh_at 1); [vm_compute|].
  - by apply empty_log_room; [exact (eq_trans (sent_log _) node2_voted_log)|vm_compute].
  - exact node2_copies.
  - by vm_compute.
Qed.

Lemma cluster_copies : rtc (log_cluster_step three_voters) cluster_start cluster_copied.
Proof.
  eapply rtc_l; [exact log_node1_delivery|].
  eapply rtc_l; [exact (sending_logs 1 node1_candidate cluster_start)|].
  eapply rtc_l; [exact log_node2_delivery|].
  eapply rtc_l; [exact (sending_logs 2 node2_voted cluster_asked)|].
  eapply rtc_l; [exact log_vote_delivery|].
  eapply rtc_l; [exact (sending_logs 1 node1_elected cluster_answered)|].
  apply rtc_once. exact append_delivery.
Qed.

Lemma log_matching_witness :
  ALog.at_index (view (raft_log (r (sent node1_elected)))) 1 = Some first_entry /\
  ALog.at_index (view (raft_log (r (sent node1_elected)))) 1 = ALog.at_index (view (raft_log (r node2_copied))) 1.
Proof.
  split; [by vm_compute|].
  apply (log_matching three_voters cluster_start cluster_copied 1 2 1 (sent node1_elected) node2_copied first_entry first_entry).
  - apply (bool_decide_unpack _). vm_compute. exact I.
  - exact cluster_start_logs.
  - exact cluster_copies.
  - unfold cluster_copied, cluster_sent, sending, at_node. cbn [nodes]. rewrite lookup_insert_ne by done. apply lookup_insert_eq.
  - apply lookup_insert_eq.
  - by vm_compute.
  - by vm_compute.
  - reflexivity.
  - by vm_compute.
  - by vm_compute.
  - by vm_compute.
Defined.
End witnesses.
