(* ===== verification/Chosen.v ===== *)
(** * What is chosen

    The argument why a committed entry stays: elections and acknowledgements of a
    cluster as a record of what happened, without the nodes.  An entry is chosen if the
    leader of its term wrote it and a quorum acknowledged it in that term; every leader
    elected in a later term has it.  An acknowledgement may come from a node that knows
    its commit index from a later leader (pre-votes tell it without the term), so it need
    not speak of the log of the leader it is sent to. *)

From S2P Require Import Prelude Proto Errors Util Inflights Progress Quorum Tracker ConfChange Log Unstable Storage RaftLog.

Abbreviation entry := ALog.at_index.

(** ** Logs *)
Section logs.
Implicit Types v w : ALog.t.

Definition last_term v : Z := default 0 (ALog.term_at v (ALog.last v)).
(** [v] is a beginning of [w]. *)
Definition begins v w : Prop := forall k e, entry v k = Some e -> entry w k = Some e.
(** A voter with the log [v] grants a vote to a candidate with the log [w]. *)
Definition newer v w : Prop := last_term v < last_term w \/ (last_term w = last_term v /\ ALog.last v <= ALog.last w).
(** The log has no snapshot. *)
Definition rooted v : Prop := ALog.base v = 0 /\ ALog.base_term v = Some 0.

Lemma begins_refl v : begins v v.
Proof. by intros k e. Qed.
Lemma begins_trans v w x : begins v w -> begins w x -> begins v x.
Proof. intros H1 H2 k e He. by apply H2, H1. Qed.
Lemma begins_append v es : begins v (ALog.append v es).
Proof. intros k e He. pose proof (at_index_Some _ _ _ He). rewrite at_index_append, (proj2 (Z.leb_le _ _)) by lia. done. Qed.
Lemma rooted_append v es : rooted v -> rooted (ALog.append v es).
Proof. done. Qed.

Lemma entry_bounds v k e : rooted v -> entry v k = Some e -> 0 < k <= ALog.last v.
Proof. intros [Hb _] He. apply at_index_Some in He. lia. Qed.
Lemma entry_here v k : rooted v -> 0 < k <= ALog.last v -> exists e, entry v k = Some e.
Proof. intros [Hb _] Hk. apply at_index_is_Some. lia. Qed.
Lemma entry_before v k : rooted v -> k <= 0 -> entry v k = None.
Proof. intros [Hb _] Hk. apply at_index_None. lia. Qed.
Lemma begins_last v w : rooted v -> begins v w -> rooted w -> ALog.last v <= ALog.last w.
Proof.
  intros Hv Hb Hw. destruct (Z.le_gt_cases (ALog.last v) 0) as [|Hl].
  - pose proof (last_base w). destruct Hw. lia.
  - destruct (entry_here v (ALog.last v)) as [e He]; [done|lia|]. apply Hb, entry_bounds in He; [lia|done].
Qed.
(** The last entry has the last term. *)
Lemma last_term_entry v : rooted v -> 0 < last_term v ->
  exists e, entry v (ALog.last v) = Some e /\ Entry.term e = last_term v.
Proof.
  intros [Hb Ht] Hl. unfold last_term, ALog.term_at in *. rewrite Hb in *.
  destruct (Z.eqb_spec (ALog.last v) 0) as [E|E]; [rewrite Ht in Hl; simpl in Hl; lia|].
  destruct (entry v (ALog.last v)) as [e|]; [by exists e|simpl in Hl; lia].
Qed.
Lemma last_term_of v e : rooted v -> entry v (ALog.last v) = Some e -> last_term v = Entry.term e.
Proof.
  intros Hr He. pose proof (entry_bounds _ _ _ Hr He). destruct Hr as [Hb _]. unfold last_term, ALog.term_at.
  rewrite (proj2 (Z.eqb_neq _ _)) by lia. by rewrite He.
Qed.
End logs.

(** ** Elections, acknowledgements and what was chosen *)
Record ghost := mk_ghost {
  (** the terms with a leader, the latest election first *)
  terms : list Z;
  (** the log of the leader of a term when it was elected, and as it was last *)
  first : Z -> ALog.t;
  led : Z -> ALog.t;
  (** [acked v n t]: the node [v] acknowledged the position [n] in the term [t] *)
  acked : Z -> Z -> Z -> Prop;
  (** the log of a node when it could run in a term *)
  cand : Z -> Z -> ALog.t
}.

Section chosen.
Context `{HashOrder} (V : Joint.Configuration).
Implicit Types (g : ghost) (v w : ALog.t) (ts : list Z).

(** The log was written by the leaders of [ts]. *)
Record well_led g ts v : Prop := {
  wl_rooted : rooted v;
  wl_entry n e : entry v n = Some e -> Entry.term e ∈ ts /\ 0 < Entry.term e /\
    forall k, k <= n -> entry v k = entry (led g (Entry.term e)) k;
  wl_sorted n n' e e' : n <= n' -> entry v n = Some e -> entry v n' = Some e' -> Entry.term e <= Entry.term e'
}.

Lemma well_led_agree g ts ts' v v' n e e' : well_led g ts v -> well_led g ts' v' -> entry v n = Some e -> entry v' n = Some e' ->
  Entry.term e = Entry.term e' -> forall k, k <= n -> entry v k = entry v' k.
Proof.
  intros Hv Hv' He He' Ht k Hk. destruct (wl_entry _ _ _ Hv _ _ He) as (_ & _ & ->); [|done].
  destruct (wl_entry _ _ _ Hv' _ _ He') as (_ & _ & ->); [|done]. by rewrite Ht.
Qed.

Lemma begins_well_led g ts v w : rooted v -> begins v w -> well_led g ts w -> well_led g ts v.
Proof.
  intros Hr Hb Hw. assert (forall n e k, entry v n = Some e -> k <= n -> entry v k = entry w k) as Hsame.
  { intros n e k He Hk. pose proof (entry_bounds _ _ _ Hr He).
    destruct (Z.le_gt_cases k 0); [rewrite !entry_before; [done|apply Hw|done|done|done]|].
    destruct (entry_here v k Hr) as [ek Hek]; [lia|]. rewrite Hek. symmetry. by apply Hb. }
  split; [done| |].
  - intros n e He. destruct (wl_entry _ _ _ Hw n e) as (Ht & Hp & Ha); [by apply Hb|]. split_and!; [done..|].
    intros k Hk. rewrite (Hsame n e k) by done. by apply Ha.
  - intros n n' e e' Hn He He'. eapply (wl_sorted _ _ _ Hw); eauto.
Qed.

(** The log [w] has what was acknowledged up to [n] of the leader of [t], but for what
    a leader of a later term lacks. *)
Definition covers g ts w (n t : Z) : Prop := (n <= ALog.last (led g t) \/ exists u, u ∈ ts /\ t < u) /\
  forall k e, k <= n -> entry (led g t) k = Some e ->
    entry w k = Some e \/ exists u, u ∈ ts /\ t < u /\ entry (first g u) k <> Some e.

(** The voter [x] gave its vote of the term [t] to a candidate with the log [w]: it has
    seen the term, and its log covers what it acknowledged before. *)
Definition promises g ts (past : Z -> Z -> Prop) (acks : Z -> Z -> Z -> Prop) (x t : Z) w : Prop := exists v,
  past x t /\ well_led g ts v /\ newer v w /\ forall n t', acks x n t' -> t' < t -> covers g ts v n t'.

Inductive elections g past acks : list Z -> Prop :=
  | no_election : elections g past acks []
  | election t ts (votes : Z -> option bool) : t ∉ ts -> well_led g ts (first g t) ->
      Joint.vote_result V votes = Won -> (forall x, votes x = Some true -> promises g ts past acks x t (first g t)) ->
      elections g past acks ts -> elections g past acks (t :: ts).

Definition chosen g (t n : Z) : Prop := t ∈ terms g /\
  (exists votes : Z -> option bool, Joint.vote_result V votes = Won /\
    forall x, votes x = Some true -> exists m, n <= m /\ acked g x m t) /\
  exists e, entry (led g t) n = Some e /\ Entry.term e = t.

(** [v] holds chosen entries up to [c]. *)
Definition decided g v (c : Z) : Prop := c <= 0 \/ exists t n, chosen g t n /\ c <= n /\
  forall k, k <= c -> entry v k = entry (led g t) k.

Lemma decided_begins g v w c : rooted v -> rooted w -> begins v w -> c <= ALog.last v -> decided g v c -> decided g w c.
Proof.
  intros Hv Hw Hb Hc [?|(t & n & Hch & Hn & Ha)]; [by left|right]. exists t, n. split_and!; [done..|]. intros k Hk.
  rewrite <-Ha by done. destruct (Z.le_gt_cases k 0); [by rewrite !entry_before|].
  destruct (entry_here v k Hv) as [e He]; [lia|]. rewrite He. by apply Hb.
Qed.
Lemma decided_le g v c c' : c' <= c -> decided g v c -> decided g v c'.
Proof. intros Hc [?|(t & n & Hch & Hn & Ha)]; [left; lia|right]. exists t, n. split_and!; [done|lia|]. intros k Hk. apply Ha. lia. Qed.
Lemma decided_same g v w c : (forall k, k <= c -> entry w k = entry v k) -> decided g v c -> decided g w c.
Proof. intros Hs [?|(t & n & Hch & Hn & Ha)]; [by left|right]. exists t, n. split_and!; [done..|]. intros k Hk. rewrite Hs; auto. Qed.

(** The record fits together. *)
Record history_ok g past acks : Prop := {
  ho_elections : elections g past acks (terms g);
  ho_acked x n t : acked g x n t -> acks x n t;
  ho_led t : t ∈ terms g -> well_led g (terms g) (led g t);
  ho_first t : t ∈ terms g -> begins (first g t) (led g t);
  ho_terms t n e : t ∈ terms g -> entry (led g t) n = Some e -> Entry.term e <= t
}.

Section proof.
Context (g : ghost) (past : Z -> Z -> Prop) (acks : Z -> Z -> Z -> Prop) (HV : Majority.voters (Joint.incoming V) <> ∅)
  (Hok : history_ok g past acks).

(** *** Leaders have what was chosen before *)
Lemma chosen_here t n k : chosen g t n -> 0 < k <= n -> exists e, entry (led g t) k = Some e.
Proof using Hok.
  intros (Ht & _ & e & He & _) Hk. pose proof (wl_rooted _ _ _ (ho_led _ _ _ Hok t Ht)) as Hr.
  pose proof (entry_bounds _ _ _ Hr He). apply entry_here; [done|lia].
Qed.

Lemma elected_has_chosen t n u us (votes : Z -> option bool) : chosen g t n -> t < u ->
  (forall x, x ∈ us -> x ∈ terms g) -> well_led g us (first g u) -> Joint.vote_result V votes = Won ->
  (forall x, votes x = Some true -> promises g us past acks x u (first g u)) ->
  (forall x, x ∈ us -> t < x -> forall k, k <= n -> entry (first g x) k = entry (led g t) k) ->
  forall k, k <= n -> entry (first g u) k = entry (led g t) k.
Proof using All.
  intros Hch Htu Hus Hwl Hwon Hprom IH k Hk.
  pose proof Hch as (Ht & (acks' & Hacks & Hac) & e & He & Hte). pose proof (ho_led _ _ _ Hok t Ht) as Hlt.
  pose proof (wl_rooted _ _ _ Hlt) as Hrt. pose proof (wl_rooted _ _ _ Hwl) as Hru.
  destruct (Z.le_gt_cases k 0) as [Hk0|Hk0]; [by rewrite !entry_before|].
  (* a voter that acknowledged it and voted *)
  destruct (halves_meet V _ _ Hwon Hacks _ (or_introl eq_refl) HV) as (x & _ & Hx & Hx').
  destruct (Hprom x Hx) as (v & _ & Hv & Hnew & Hcov). destruct (Hac x Hx') as (m & Hnm & Hm).
  specialize (Hcov m t (ho_acked _ _ _ Hok _ _ _ Hm) Htu). destruct Hcov as [_ Hcov].
  assert (forall j e, j <= n -> entry (led g t) j = Some e -> entry v j = Some e) as Hvn.
  { intros j ej Hj Hej. destruct (Hcov j ej ltac:(lia) Hej) as [?|(x' & Hx1 & Hx2 & Hne)]; [done|].
    destruct Hne. by rewrite (IH x'). }
  pose proof (wl_rooted _ _ _ Hv) as Hrv. pose proof (entry_bounds _ _ _ Hrt He) as Hn.
  pose proof (Hvn n e ltac:(lia) He) as Hve. pose proof (entry_bounds _ _ _ Hrv Hve) as Hnv.
  destruct (entry_here v (ALog.last v)) as [el Hel]; [done|lia|].
  pose proof (last_term_of _ _ Hrv Hel) as Hlv. pose proof (wl_sorted _ _ _ Hv _ _ _ _ (proj2 Hnv) Hve Hel) as Hle.
  destruct (wl_entry _ _ _ Hlt _ _ He) as (_ & Htpos & _).
  assert (t <= last_term (first g u)) as Hlu by (destruct Hnew as [?|[? _]]; lia).
  destruct (last_term_entry (first g u) Hru ltac:(lia)) as (e' & He' & Hte').
  destruct (wl_entry _ _ _ Hwl _ _ He') as (Hin & _ & Hagree).
  pose proof (entry_bounds _ _ _ Hru He') as Hlast.
  destruct (Z.eq_dec (last_term (first g u)) t) as [Heq|Hneq].
  - (* the candidate's last entry is of the term itself *)
    rewrite Hte', Heq in Hagree. apply Hagree. destruct Hnew as [?|[_ ?]]; lia.
  - (* it is of a later term, whose leader has the entry *)
    set (l := last_term (first g u)) in *. rewrite Hte' in Hagree, Hin.
    assert (forall j ej, j <= n -> entry (led g t) j = Some ej -> entry (led g l) j = Some ej) as Hll.
    { intros j ej Hj Hej. apply (ho_first _ _ _ Hok); [by apply Hus|]. rewrite (IH l); [done|done|lia|done]. }
    assert (n <= ALog.last (first g u)) as Hnl.
    { destruct (Z.le_gt_cases n (ALog.last (first g u))) as [|Hgt]; [done|].
      destruct (chosen_here t n (ALog.last (first g u)) Hch) as [ej Hej]; [lia|].
      assert (entry (led g l) (ALog.last (first g u)) = Some ej) as Hl1 by (by apply Hll; [lia|]).
      rewrite <-Hagree, He' in Hl1 by lia. injection Hl1 as ->.
      pose proof (wl_sorted _ _ _ Hlt _ _ _ _ (Z.lt_le_incl _ _ Hgt) Hej He). lia. }
    destruct (chosen_here t n k Hch) as [ek Hek]; [lia|]. rewrite Hek, Hagree by lia. by apply Hll; [lia|].
Qed.

Lemma elections_have_chosen t n ts : chosen g t n -> elections g past acks ts -> (forall x, x ∈ ts -> x ∈ terms g) ->
  forall u, u ∈ ts -> t < u -> forall k, k <= n -> entry (first g u) k = entry (led g t) k.
Proof using All.
  intros Hch. induction 1 as [|t' ts votes Hnin Hwl Hwon Hprom Hel IH]; intros Hts u Hu Htu; [by apply not_elem_of_nil in Hu|].
  assert (forall x, x ∈ ts -> x ∈ terms g) as Hts' by (intros x Hx; apply Hts; by right).
  apply elem_of_cons in Hu as [->|Hu]; [|by apply IH].
  apply (elected_has_chosen t n t' ts votes Hch Htu Hts' Hwl Hwon Hprom). intros x. by apply IH.
Qed.

(** Leader completeness. *)
Lemma leaders_have_chosen t n u : chosen g t n -> u ∈ terms g -> t < u ->
  forall k, k <= n -> entry (first g u) k = entry (led g t) k.
Proof using All. intros Hch Hu Htu. by apply (elections_have_chosen t n (terms g) Hch (ho_elections _ _ _ Hok)). Qed.

Lemma led_have_chosen t n u : chosen g t n -> u ∈ terms g -> t <= u ->
  forall k, k <= n -> entry (led g u) k = entry (led g t) k.
Proof using All.
  intros Hch Hu Htu k Hk. destruct (Z.eq_dec t u) as [->|Hne]; [done|]. pose proof Hch as (Ht & _).
  destruct (Z.le_gt_cases k 0) as [|Hk0].
  { pose proof (wl_rooted _ _ _ (ho_led _ _ _ Hok t Ht)). pose proof (wl_rooted _ _ _ (ho_led _ _ _ Hok u Hu)). by rewrite !entry_before. }
  destruct (chosen_here t n k Hch) as [e He]; [lia|]. rewrite He. apply (ho_first _ _ _ Hok); [done|].
  by rewrite (leaders_have_chosen t n u) by (done || lia).
Qed.

Lemma chosen_agree t n t' n' k : chosen g t n -> chosen g t' n' -> k <= n -> k <= n' -> entry (led g t) k = entry (led g t') k.
Proof using All.
  intros Hch Hch' Hk Hk'. destruct (Z.le_gt_cases t t').
  - symmetry. by apply (led_have_chosen t n t' Hch (proj1 Hch')).
  - by apply (led_have_chosen t' n' t Hch' (proj1 Hch)); [lia|].
Qed.

(** Logs agree where both hold chosen entries. *)
Lemma decided_agree v c v' c' k : rooted v -> rooted v' -> decided g v c -> decided g v' c' -> k <= c -> k <= c' ->
  entry v k = entry v' k.
Proof using All.
  intros Hv Hv' Hd Hd' Hk Hk'. destruct (Z.le_gt_cases k 0); [by rewrite !entry_before|].
  destruct Hd as [?|(t & n & Hch & Hn & Ha)]; [lia|]. destruct Hd' as [?|(t' & n' & Hch' & Hn' & Ha')]; [lia|].
  rewrite Ha, Ha' by done. apply (chosen_agree t n t' n'); (done || lia).
Qed.
Lemma decided_here v c k : decided g v c -> 0 < k <= c -> exists e, entry v k = Some e.
Proof using Hok.
  intros [?|(t & n & Hch & Hn & Ha)] Hk; [lia|]. rewrite Ha by lia. apply (chosen_here t n k Hch). lia.
Qed.

(** *** Acknowledgements

    What a leader cannot commit any more because a later one committed something else. *)
Definition doomed t k : Prop := exists t' n, chosen g t' n /\ k <= n /\ entry (led g t) k <> entry (led g t') k.
(** In the term [t]: the log [w] has what was acknowledged up to [n]. *)
Definition holds w (t n : Z) : Prop := forall k, 0 < k <= n ->
  (exists e, entry w k = Some e /\ entry (led g t) k = Some e) \/ doomed t k.

(** A node whose term is [T] and whose log is [w] may have acknowledged [n] in the term [t]. *)
Record ack_ok w (T n t : Z) : Prop := {
  ao_term : 0 < n -> t ∈ terms g;
  ao_past : t <= T;
  ao_covers : covers g (terms g) w n t;
  ao_now : t = T -> holds w t n
}.

Lemma doomed_lacks t k : t ∈ terms g -> 0 < k -> doomed t k ->
  exists u, u ∈ terms g /\ t < u /\ forall e, entry (led g t) k = Some e -> entry (first g u) k <> Some e.
Proof using All.
  intros Ht Hk (t' & n & Hch & Hn & Hne). destruct (Z.le_gt_cases t' t).
  { destruct Hne. by apply (led_have_chosen t' n t). }
  exists t'. split; [apply Hch|]. split; [lia|]. intros e He Hf. destruct Hne. rewrite He. symmetry.
  apply (ho_first _ _ _ Hok); [apply Hch|done].
Qed.

Lemma holds_covers w t n : (0 < n -> t ∈ terms g) -> rooted (led g t) -> holds w t n -> covers g (terms g) w n t.
Proof using All.
  intros Ht Hr Hh. destruct (Z.le_gt_cases n 0) as [Hn|Hn].
  { split; [left; pose proof (last_base (led g t)); destruct Hr; lia|].
    intros k e Hk He. apply entry_bounds in He; [lia|done]. }
  specialize (Ht Hn). split.
  - destruct (Hh n ltac:(lia)) as [(e & _ & He)|(u & Hu & Htu & _)%doomed_lacks]; [left|right; by exists u|done..].
    by apply entry_bounds in He; [lia|].
  - intros k e Hk He. pose proof (entry_bounds _ _ _ Hr He).
    destruct (Hh k ltac:(lia)) as [(e' & Hw & He')|(u & Hu & Htu & Hl)%doomed_lacks]; [left; congruence|right|done|lia].
    exists u. auto.
Qed.

Lemma holds_begins w w' t n : begins w w' -> holds w t n -> holds w' t n.
Proof using All. intros Hb Hh k Hk. destruct (Hh k Hk) as [(e & ? & ?)|?]; [left; exists e; auto|by right]. Qed.
Lemma covers_begins ts w w' n t : begins w w' -> covers g ts w n t -> covers g ts w' n t.
Proof using All. intros Hb [Hn Hc]. split; [done|]. intros k e Hk He. destruct (Hc k e Hk He) as [?|?]; [left; auto|by right]. Qed.
Lemma ack_ok_begins w w' T n t : begins w w' -> ack_ok w T n t -> ack_ok w' T n t.
Proof using All.
  intros Hb [? ? ? ?]. split; [done..|by eapply covers_begins|]. intros Ht. eapply holds_begins; eauto.
Qed.
Lemma ack_ok_later w T T' n t : T <= T' -> ack_ok w T n t -> ack_ok w T' n t.
Proof using All. intros HT [? ? ? Hnow]. split; [done|lia|done|]. intros ->. apply Hnow. lia. Qed.

(** New acknowledgements: of the leader's own log, of what was taken over from it, of
    what is committed. *)
Lemma ack_ok_now w T n : (0 < n -> T ∈ terms g) -> rooted (led g T) -> holds w T n -> ack_ok w T n T.
Proof using All. intros HT Hr Hh. split; [done|lia|by apply holds_covers|done]. Qed.
Lemma holds_led w t n : (forall k, 0 < k <= n -> exists e, entry w k = Some e /\ entry (led g t) k = Some e) -> holds w t n.
Proof using All. intros Hw k Hk. left. auto. Qed.
Lemma holds_decided w t n : decided g w n -> holds w t n.
Proof using All.
  intros Hd k Hk. destruct (decided_here w n k Hd Hk) as [e He]. destruct Hd as [?|(t' & n' & Hch & Hn & Ha)]; [lia|].
  destruct (decide (entry (led g t) k = Some e)) as [Hl|Hl]; [left; by exists e|right].
  exists t', n'. split; [done|]. split; [lia|]. rewrite <-Ha by lia. congruence.
Qed.

(** What the leader of the term tells to be committed, among what was acknowledged to it. *)
Lemma holds_commit w t n c : rooted w -> rooted (led g t) -> holds w t n -> decided g (led g t) c -> c <= n -> decided g w c.
Proof using All.
  intros Hw Hr Hh Hd Hc. destruct Hd as [?|(t' & n' & Hch & Hn & Ha)]; [by left|]. right. exists t', n'. split_and!; [done..|].
  intros k Hk. destruct (Z.le_gt_cases k 0); [rewrite (entry_before w) by done; rewrite <-Ha by done; by rewrite entry_before|].
  destruct (Hh k ltac:(lia)) as [(e & Hwe & Hle)|(t1 & n1 & Hch1 & Hn1 & Hne)]; [by rewrite Hwe, <-Ha, Hle|].
  destruct Hne. rewrite Ha by done. apply (chosen_agree t' n' t1 n1); (done || lia).
Qed.

(** The log after a conflict at [c] with the leader of [T]. *)
Record overwritten w (T c : Z) w' : Prop := {
  ow_before k : k < c -> entry w' k = entry w k;
  ow_after k e : c <= k -> entry w' k = Some e -> entry (led g T) k = Some e;
  ow_conflict : entry w c <> entry (led g T) c
}.

Lemma overwritten_agree w T c w' k e : well_led g (terms g) w -> T ∈ terms g -> overwritten w T c w' ->
  entry w k = Some e -> entry (led g T) k = Some e -> k < c.
Proof using All.
  intros Hw HT Ho Hwe Hle. destruct (Z.lt_ge_cases k c) as [|Hck]; [done|]. destruct (ow_conflict _ _ _ _ Ho).
  by apply (well_led_agree g (terms g) (terms g) w (led g T) k e e); [|apply Hok|..].
Qed.

Lemma overwritten_ack w T c w' n t : well_led g (terms g) w -> T ∈ terms g -> overwritten w T c w' ->
  ack_ok w T n t -> ack_ok w' T n t.
Proof using All.
  intros Hw HT Ho [Hterm Hpast Hcov Hnow].
  assert (t = T -> holds w' t n) as Hnow'.
  { intros -> k Hk. destruct (Hnow eq_refl k Hk) as [(e & Hwe & Hle)|?]; [left; exists e|by right].
    split; [|done]. rewrite (ow_before _ _ _ _ Ho); [done|]. by eapply overwritten_agree. }
  split; [done..| |done]. destruct (Z.eq_dec t T) as [->|Hne].
  { apply holds_covers; [done|by apply (wl_rooted g (terms g)), Hok|by apply Hnow']. }
  destruct Hcov as [Hn Hcov]. split; [done|]. intros k e Hk He. destruct (Hcov k e Hk He) as [Hwe|?]; [|by right].
  destruct (Z.lt_ge_cases k c) as [Hkc|Hkc]; [left; by rewrite (ow_before _ _ _ _ Ho)|right].
  exists T. split; [done|]. split; [lia|]. intros Hf. apply (ho_first _ _ _ Hok) in Hf; [|done].
  assert (k < c) by by eapply overwritten_agree. lia.
Qed.
End proof.

(** *** The record grows

    Leaders append entries of their term, nodes acknowledge in their term, terms pass. *)
Record grows_to g (past : Z -> Z -> Prop) (acks : Z -> Z -> Z -> Prop) g' (past' : Z -> Z -> Prop) (acks' : Z -> Z -> Z -> Prop) : Prop := {
  gt_terms t : t ∈ terms g -> t ∈ terms g';
  gt_first t : t ∈ terms g -> first g' t = first g t;
  gt_led t : t ∈ terms g -> begins (led g t) (led g' t);
  gt_new t k e : t ∈ terms g -> entry (led g' t) k = Some e -> entry (led g t) k = Some e \/ Entry.term e = t;
  gt_rooted t : rooted (led g' t);
  gt_acked x n t : acked g x n t -> acked g' x n t;
  gt_past x t : past x t -> past' x t;
  gt_acks x n t t' : acks' x n t' -> past x t -> t' < t -> acks x n t';
  gt_known x n t : acks x n t -> 0 < n -> t ∈ terms g
}.

Section growth.
Context (g g' : ghost) (past past' : Z -> Z -> Prop) (acks acks' : Z -> Z -> Z -> Prop).
Context (Hok : history_ok g past acks) (Hg : grows_to g past acks g' past' acks').
#[local] Set Default Proof Using "All".

Lemma well_led_mono ts ts' v : (forall t, t ∈ ts -> t ∈ terms g /\ t ∈ ts') -> well_led g ts v -> well_led g' ts' v.
Proof.
  intros Hts [Hr He Hs]. split; [done| |done]. intros n e Hn. destruct (He n e Hn) as (Ht & Hpos & Ha). destruct (Hts _ Ht) as [Htg ?].
  split_and!; [done..|]. intros k Hk. destruct (Z.le_gt_cases k 0) as [|Hk0].
  { rewrite !entry_before; [done|apply Hg|done|done|done]. }
  pose proof (entry_bounds _ _ _ Hr Hn). destruct (entry_here v k Hr) as [ek Hek]; [lia|]. rewrite Hek. symmetry.
  apply (gt_led _ _ _ _ _ _ Hg); [done|]. rewrite <-Ha by done. done.
Qed.

(** An entry that a leader appends was not in the log of another. *)
Lemma new_entry_lacked ts v t k e : well_led g ts v -> t ∈ terms g -> entry (led g' t) k = Some e ->
  entry (led g t) k <> Some e -> entry v k <> Some e.
Proof.
  intros Hv Ht He Hne Hk. destruct (gt_new _ _ _ _ _ _ Hg _ _ _ Ht He) as [?|Hte]; [done|].
  destruct (wl_entry _ _ _ Hv _ _ Hk) as (_ & _ & Ha). rewrite Hte in Ha. apply Hne. by rewrite <-(Ha k).
Qed.

Lemma covers_mono ts ts' w n t : (0 < n -> t ∈ terms g) -> (forall u, u ∈ ts -> u ∈ terms g /\ u ∈ ts') ->
  covers g ts w n t -> covers g' ts' w n t.
Proof.
  intros Ht Hts [Hn Hc]. destruct (Z.le_gt_cases n 0) as [Hn0|Hn0].
  { pose proof (gt_rooted _ _ _ _ _ _ Hg t) as Hr. split; [left; pose proof (last_base (led g' t)); destruct Hr; lia|].
    intros k e Hk He. apply entry_bounds in He; [lia|done]. }
  specialize (Ht Hn0). assert (forall u, u ∈ ts -> begins (first g u) (led g u) /\ well_led g (terms g) (led g u)) as Hfirst.
  { intros u Hu. split; apply Hok; by apply Hts. }
  split.
  - destruct Hn as [Hn|(u & Hu & Htu)]; [left|right; exists u; by split; [apply Hts|]]. etrans; [exact Hn|].
    apply begins_last; [by apply (wl_rooted g (terms g)), Hok|by apply Hg|apply Hg].
  - intros k e Hk He. destruct (decide (entry (led g t) k = Some e)) as [Hold|Hnew].
    + destruct (Hc k e Hk Hold) as [?|(u & Hu & Htu & Hl)]; [by left|right]. exists u. split; [by apply Hts|]. split; [done|].
      rewrite (gt_first _ _ _ _ _ _ Hg) by by apply Hts. done.
    + right. assert (k <= ALog.last (led g t) -> False) as Hbeyond.
      { intros Hkl. pose proof (wl_rooted _ _ _ (ho_led _ _ _ Hok t Ht)) as Hr.
        pose proof (entry_bounds _ _ _ (gt_rooted _ _ _ _ _ _ Hg t) He).
        destruct (entry_here (led g t) k Hr) as [e' He']; [lia|]. destruct Hnew. rewrite He', <-He. symmetry. by apply Hg. }
      destruct Hn as [Hn|(u & Hu & Htu)]; [lia|]. exists u. split; [by apply Hts|]. split; [done|].
      rewrite (gt_first _ _ _ _ _ _ Hg) by by apply Hts. intros Hf. destruct (Hfirst u Hu) as [Hb Hw].
      by eapply (new_entry_lacked _ _ t k e Hw); [..|apply Hb].
Qed.

Lemma promises_mono ts ts' x t w : (forall u, u ∈ ts -> u ∈ terms g /\ u ∈ ts') ->
  promises g ts past acks x t w -> promises g' ts' past' acks' x t w.
Proof.
  intros Hts (v & Hp & Hv & Hn & Hc). exists v. split; [by apply Hg|]. split; [by eapply well_led_mono|]. split; [done|].
  intros n t' Ha Ht'. pose proof (gt_acks _ _ _ _ _ _ Hg _ _ _ _ Ha Hp Ht') as Ha0. eapply covers_mono; [|done|by apply Hc].
  by apply (gt_known _ _ _ _ _ _ Hg _ _ _ Ha0).
Qed.

Lemma elections_mono ts : (forall t, t ∈ ts -> t ∈ terms g) -> elections g past acks ts -> elections g' past' acks' ts.
Proof.
  intros Hts. induction 1 as [|t ts votes Hnin Hwl Hwon Hprom Hel IH]; [constructor|].
  assert (forall x, x ∈ ts -> x ∈ terms g /\ x ∈ ts) as Hts' by (intros x Hx; split; [apply Hts; by right|done]).
  assert (first g' t = first g t) as Hf by (apply Hg, Hts; by left).
  apply election with votes; [done|rewrite Hf; by eapply well_led_mono|done| |apply IH; apply Hts'].
  intros x Hx. rewrite Hf. by eapply promises_mono, Hprom.
Qed.

Lemma chosen_mono t n : chosen g t n -> chosen g' t n.
Proof.
  intros (Ht & (votes & Hw & Ha) & e & He & Hte). split; [by apply Hg|]. split.
  - exists votes. split; [done|]. intros x Hx. destruct (Ha x Hx) as (m & ? & ?). exists m. split; [done|by apply Hg].
  - exists e. split; [by apply Hg|done].
Qed.
Lemma chosen_led t n k : chosen g t n -> k <= n -> entry (led g' t) k = entry (led g t) k.
Proof.
  intros Hch Hk. destruct (Z.le_gt_cases k 0).
  { rewrite !entry_before; [done|by apply (wl_rooted g (terms g)), Hok, Hch|done|apply Hg|done]. }
  destruct (chosen_here g past acks Hok t n k Hch) as [e He]; [lia|]. rewrite He. by apply Hg; [apply Hch|].
Qed.
Lemma decided_mono v c : decided g v c -> decided g' v c.
Proof.
  intros [?|(t & n & Hch & Hn & Ha)]; [by left|right]. exists t, n. split; [by apply chosen_mono|]. split; [done|].
  intros k Hk. rewrite (chosen_led t n) by (done || lia). auto.
Qed.
Lemma doomed_mono t k : t ∈ terms g -> 0 < k -> doomed g t k -> doomed g' t k.
Proof.
  intros Ht Hk (t' & n & Hch & Hn & Hne). exists t', n. split; [by apply chosen_mono|]. split; [done|].
  rewrite (chosen_led t' n) by done. destruct (chosen_here g past acks Hok t' n k Hch) as [e He]; [lia|]. rewrite He in *.
  intros Hl. by eapply (new_entry_lacked _ (led g t') t k e); [apply Hok, Hch|done..].
Qed.
Lemma holds_mono w t n : (0 < n -> t ∈ terms g) -> holds g w t n -> holds g' w t n.
Proof.
  intros Ht Hh k Hk. destruct (Hh k Hk) as [(e & Hw & Hl)|Hd].
  - left. exists e. split; [done|]. apply Hg; [apply Ht; lia|done].
  - right. apply doomed_mono; [apply Ht; lia|lia|done].
Qed.
Lemma ack_ok_mono w T n t : ack_ok g w T n t -> ack_ok g' w T n t.
Proof.
  intros [Ht Hp Hc Hn]. split; [intros ?; by apply Hg, Ht|done| |intros E; apply holds_mono; auto].
  eapply covers_mono; [done| |done]. intros u Hu. split; [done|by apply Hg].
Qed.
End growth.

Lemma grows_to_trans g past acks g1 past1 acks1 g2 past2 acks2 : grows_to g past acks g1 past1 acks1 ->
  grows_to g1 past1 acks1 g2 past2 acks2 -> grows_to g past acks g2 past2 acks2.
Proof.
  intros H1 H2. split.
  - intros t Ht. by apply H2, H1.
  - intros t Ht. rewrite (gt_first _ _ _ _ _ _ H2) by by apply H1. by apply H1.
  - intros t Ht. eapply begins_trans; [by apply H1|]. by apply H2, H1.
  - intros t k e Ht He. destruct (gt_new _ _ _ _ _ _ H2 t k e (gt_terms _ _ _ _ _ _ H1 _ Ht) He) as [He1|]; [by apply H1|by right].
  - apply H2.
  - intros x n t Ha. by apply H2, H1.
  - intros x t Hp. by apply H2, H1.
  - intros x n t t' Ha Hp Ht. eapply H1; [|exact Hp|exact Ht]. eapply H2; [exact Ha|by apply H1|exact Ht].
  - apply H1.
Qed.

(** What happens to the record: a leader is elected for the term [t] with the log [v], the
    leader [i] of the term has the log [v] and has stored it up to [p], a node may run
    with the log [v] after the term [t], acknowledgements arrive. *)
Definition elect g (t : Z) v : ghost := mk_ghost (t :: terms g) (fun u => if u =? t then v else first g u)
  (fun u => if u =? t then v else led g u) (acked g) (cand g).
Definition lead g (i t : Z) v (p : Z) : ghost := mk_ghost (terms g) (first g) (fun u => if u =? t then v else led g u)
  (fun x n u => acked g x n u \/ (x = i /\ u = t /\ n <= p)) (cand g).
Definition prepare g (i t : Z) v : ghost := mk_ghost (terms g) (first g) (led g) (acked g)
  (fun j u => if (j =? i) && (t <? u) then v else cand g j u).
Definition confirm g (new : Z -> Z -> Z -> Prop) : ghost := mk_ghost (terms g) (first g) (led g)
  (fun x n t => acked g x n t \/ new x n t) (cand g).

Section happens.
Context (g : ghost) (past past' : Z -> Z -> Prop) (acks acks' : Z -> Z -> Z -> Prop).
Context (Hok : history_ok g past acks) (Hroot : forall t, rooted (led g t)) (Hknown : forall x n t, acks x n t -> 0 < n -> t ∈ terms g)
  (Hpast : forall x t, past x t -> past' x t).
#[local] Set Default Proof Using "All".

(** Only the acknowledgements and the terms that nodes have seen change. *)
Lemma same_record_grows g' : terms g' = terms g -> first g' = first g -> led g' = led g -> (forall x n t, acked g x n t -> acked g' x n t) ->
  (forall x n t t', acks' x n t' -> past x t -> t' < t -> acks x n t') -> grows_to g past acks g' past' acks'.
Proof. intros Et Ef El Ha Hacks. split; rewrite ?Et, ?Ef, ?El; try done; [intros; apply begins_refl|by left]. Qed.

Lemma elect_grows t v : t ∉ terms g -> rooted v -> grows_to g past acks (elect g t v) past' acks.
Proof.
  intros Ht Hv. assert (forall u, u ∈ terms g -> (u =? t) = false) as Hne by (intros u Hu; apply Z.eqb_neq; by intros ->).
  split; try done; simpl.
  - intros u Hu. by right.
  - intros u Hu. by rewrite Hne.
  - intros u Hu. rewrite Hne by done. apply begins_refl.
  - intros u k e Hu. rewrite Hne by done. by left.
  - intros u. by destruct (u =? t).
Qed.
Lemma elect_ok t v (votes : Z -> option bool) : t ∉ terms g -> well_led g (terms g) v -> (forall n e, entry v n = Some e -> Entry.term e <= t) ->
  Joint.vote_result V votes = Won -> (forall x, votes x = Some true -> promises g (terms g) past' acks x t v) ->
  history_ok (elect g t v) past' acks.
Proof.
  intros Ht Hv Hle Hwon Hprom. pose proof (elect_grows t v Ht (wl_rooted _ _ _ Hv)) as Hg.
  assert (forall u, u ∈ terms g -> (u =? t) = false) as Hne by (intros u Hu; apply Z.eqb_neq; by intros ->).
  assert (forall w, well_led g (terms g) w -> forall ts, (forall u, u ∈ terms g -> u ∈ ts) -> well_led (elect g t v) ts w) as Hwl
    by (intros w Hw ts Hts; eapply (well_led_mono g (elect g t v)); [exact Hok|exact Hg| |exact Hw]; auto).
  split.
  - simpl. apply election with votes; [done| |done| |].
    + simpl. rewrite Z.eqb_refl. by apply Hwl.
    + intros x Hx. simpl. rewrite Z.eqb_refl. destruct (Hprom x Hx) as (w & Hp & Hw & Hn & Hc). exists w.
      split; [done|]. split; [by apply Hwl|]. split; [done|]. intros n t' Ha Htt.
      eapply (covers_mono g (elect g t v) past past' acks acks Hok Hg); [by eapply Hknown| |by apply Hc]. auto.
    + eapply (elections_mono g (elect g t v)); [exact Hok|exact Hg|done|apply Hok].
  - apply Hok.
  - simpl. intros u [->|Hu]%elem_of_cons; [rewrite Z.eqb_refl|rewrite Hne by done]; (apply Hwl; [done || by apply Hok|]; intros x Hx; by right).
  - simpl. intros u [->|Hu]%elem_of_cons; [rewrite Z.eqb_refl; apply begins_refl|rewrite Hne by done; by apply Hok].
  - simpl. intros u n e [->|Hu]%elem_of_cons; [rewrite Z.eqb_refl; apply Hle|rewrite Hne by done; by apply Hok].
Qed.

Lemma lead_grows i t v p es : t ∈ terms g -> v = ALog.append (led g t) es -> Forall (fun e => Entry.term e = t) es ->
  (forall u, past i u -> u <= t) -> grows_to g past acks (lead g i t v p) past' (fun x n u => acks x n u \/ (x = i /\ u = t /\ n <= p)).
Proof.
  intros Ht -> Hes Hi. pose proof (Hroot t) as Hr. split; try done; simpl.
  - intros u Hu. destruct (Z.eqb_spec u t) as [->|]; [apply begins_append|apply begins_refl].
  - intros u k e Hu. destruct (Z.eqb_spec u t) as [->|]; [|by left]. rewrite at_index_append. destruct (_ <=? _); [by left|].
    unfold index. case_match; [done|]. intros He. right. rewrite Forall_lookup in Hes. by eapply Hes.
  - intros u. destruct (u =? t); [by apply rooted_append|done].
  - by left.
  - intros x n u u' [?|(-> & -> & _)] Hp Hlt; [done|]. specialize (Hi _ Hp). lia.
Qed.
Lemma lead_ok i t v p es : t ∈ terms g -> 0 < t -> v = ALog.append (led g t) es -> Forall (fun e => Entry.term e = t) es ->
  (forall u, past i u -> u <= t) -> history_ok (lead g i t v p) past' (fun x n u => acks x n u \/ (x = i /\ u = t /\ n <= p)).
Proof.
  intros Ht Hpos Hv Hes Hi. pose proof (lead_grows i t v p es Ht Hv Hes Hi) as Hg. set (g' := lead g i t v p) in *.
  pose proof (ho_led _ _ _ Hok t Ht) as Hwt.
  assert (forall w, well_led g (terms g) w -> well_led g' (terms g) w) as Hwl
    by (intros w Hw; eapply (well_led_mono g g'); [exact Hok|exact Hg| |exact Hw]; auto).
  assert (forall n e, entry v n = Some e -> entry (led g t) n = Some e \/ (Entry.term e = t /\ ALog.last (led g t) < n)) as Hnew.
  { intros n e He. destruct (Z.le_gt_cases n (ALog.last (led g t))) as [Hn|Hn].
    - left. rewrite Hv, at_index_append, (proj2 (Z.leb_le _ _)) in He by done. done.
    - right. split; [|lia]. rewrite Hv, at_index_append, (proj2 (Z.leb_gt _ _)) in He by lia. unfold index in He. case_match; [done|].
      rewrite Forall_lookup in Hes. by eapply Hes. }
  assert (well_led g' (terms g) v) as Hwv.
  { split; [rewrite Hv; by apply rooted_append| |].
    - intros n e He. destruct (Hnew n e He) as [He0|[Hte _]].
      + pose proof (Hwl _ Hwt) as Hw'. destruct (wl_entry _ _ _ Hw' n e He0) as (? & ? & Ha). split_and!; [done..|]. intros k Hk.
        rewrite <-Ha by done. rewrite Hv, at_index_append. pose proof (entry_bounds _ _ _ (Hroot t) He0).
        by rewrite (proj2 (Z.leb_le _ _)) by lia.
      + rewrite Hte. split_and!; [done..|]. intros k _. simpl. by rewrite Z.eqb_refl.
    - intros n n' e e' Hn He He'. destruct (Hnew n e He) as [He0|[Hte Hlt]], (Hnew n' e' He') as [He0'|[Hte' Hlt']].
      + by eapply (wl_sorted _ _ _ Hwt n n').
      + rewrite Hte'. by eapply (ho_terms _ _ _ Hok).
      + apply entry_bounds in He0'; [lia|done].
      + lia. }
  split; simpl.
  - eapply (elections_mono g g'); [exact Hok|exact Hg|done|apply Hok].
  - intros x n u [?|?]; [left; by apply (ho_acked _ _ _ Hok)|by right].
  - intros u Hu. destruct (Z.eqb_spec u t); [done|]. by apply Hwl, Hok.
  - intros u Hu. destruct (Z.eqb_spec u t) as [->|]; [|by apply Hok]. eapply begins_trans; [by apply Hok|]. rewrite Hv. apply begins_append.
  - intros u n e Hu. destruct (Z.eqb_spec u t) as [->|]; [|by apply Hok]. intros [He|[-> _]]%Hnew; [by eapply Hok|lia].
Qed.
End happens.
End chosen.
