(* ===== verification/Provenance.v ===== *)
(** * What a node says is true ([raft.rs])

    With the record of elections and acknowledgements of [Chosen.v]: what the messages
    of a node state holds, the entries it commits were chosen, and the progress a leader
    keeps of its peers was acknowledged, as long as this holds of the messages it takes
    in.  Snapshots are left out. *)

From S2P Require Import Prelude Proto Errors Util Inflights Progress Quorum Tracker ConfChange.
From S2P Require Import Log Unstable Storage RaftLog ReadOnly Config RaftCore Raft RaftFrame Writes RaftProps Chosen.

(** ** Keeping a property *)
Definition keeps {S} (P : S -> Prop) (s s' : S) : Prop := P s -> P s'.
#[export] Instance keeps_preorder {S} (P : S -> Prop) : PreOrder (keeps P).
Proof. split; [by intros s Hs|]. intros s s1 s2 H1 H2 Hs. by apply H2, H1. Qed.
Lemma keeps_get {S A} (P : S -> Prop) (k : S -> Prog S A) :
  (forall s a s', P s -> k s s = Ret (a, s') -> P s') -> pres (keeps P) (get ≫= k).
Proof. intros Hk s a s' (s0 & ? & [-> ->]%get_inv & E)%bind_inv Hs. by eapply Hk. Qed.

(** ** What a message states *)
Section says.
Context `{HashOrder} (V : Joint.Configuration).
Implicit Types (g : ghost) (m : Message.t) (K : Message.t -> Prop).

(** The commit index of the sender, with the term of the entry there. *)
Definition tells_commit g m : Prop := Message.commit m = 0 \/ Message.commit_term m = 0 \/
  exists v e, well_led g (terms g) v /\ decided V g v (Message.commit m) /\ entry v (Message.commit m) = Some e /\
    Entry.term e = Message.commit_term m.
(** Entries of the leader of the term, after one of its entries. *)
Definition tells_entries g m : Prop := Message.term m ∈ terms g /\
  (forall e, entry (led g (Message.term m)) (Message.index m) = Some e -> Entry.term e = Message.log_term m) /\
  Message.index m <= ALog.last (led g (Message.term m)) /\
  (forall k e, entry (log_of m) k = Some e -> entry (led g (Message.term m)) k = Some e) /\
  decided V g (led g (Message.term m)) (Message.commit m).
(** What a candidate has. *)
Definition tells_log g m : Prop :=
  Message.index m = ALog.last (cand g (Message.from m) (Message.term m)) /\
  Message.log_term m = last_term (cand g (Message.from m) (Message.term m)).

(** Positive answers, which [K] is to explain. *)
Definition confirms m : Prop := Message.reject m = false /\
  (Message.msg_type m = MsgRequestVoteResponse \/ (Message.msg_type m = MsgAppendResponse /\ 0 < Message.index m)).

Definition truthful g K m : Prop := (confirms m -> K m) /\
  match Message.msg_type m with
  | MsgAppend => Message.index m = 0 \/ Message.log_term m <> 0 -> tells_entries g m
  | MsgHeartbeat => Message.commit m <= 0 \/ exists n, acked g (Message.to m) n (Message.term m) /\
      Message.commit m <= n /\ decided V g (led g (Message.term m)) (Message.commit m)
  | MsgRequestVote => tells_log g m /\ tells_commit g m
  | MsgRequestPreVote | MsgRequestVoteResponse | MsgRequestPreVoteResponse => tells_commit g m
  | MsgReadIndexResp => Message.index m <= 0 \/ (Message.term m ∈ terms g /\ decided V g (led g (Message.term m)) (Message.index m))
  | _ => True
  end.
(** A message that states nothing. *)
Definition idle_message m : Prop :=
  match Message.msg_type m with
  | MsgAppend | MsgHeartbeat | MsgRequestVote | MsgRequestPreVote | MsgRequestVoteResponse
  | MsgRequestPreVoteResponse | MsgReadIndexResp => False
  | _ => True
  end /\ (Message.msg_type m = MsgAppendResponse -> Message.reject m = true \/ Message.index m <= 0).
Lemma idle_truthful g K m : idle_message m -> truthful g K m.
Proof.
  intros [Hty Hack]. split; [|by destruct (Message.msg_type m)].
  intros [Hr [Ht|[Ht Hi]]]; [by rewrite Ht in Hty|]. destruct (Hack Ht); [congruence|lia].
Qed.
End says.

(** ** Positions that a quorum has *)
Section quorum.
Context `{HashOrder}.

Lemma committed_index_reached c gc l i b j : Majority.voters c <> ∅ -> Majority.committed_index c gc l = Ret (i, b) -> j <= i ->
  majority (Majority.voter_count c) <= Z.of_nat (size (reached c l j)).
Proof.
  intros Hne E Hj. destruct gc.
  - destruct (group_commit_value c l Hne) as (i' & b' & E' & Hr). rewrite E in E'. injection E' as <- <-. destruct b; simpl in Hr.
    + by apply Hr.
    + destruct Hr as (_ & [[_ Hr]|(_ & Hall & _)]); [by apply Hr|].
      assert (reached c l j = Majority.voters c) as ->.
      { unfold reached. apply set_eq. intros v. rewrite elem_of_filter. split; [by intros [_ ?]|]. intros Hv.
        split; [|done]. specialize (Hall v Hv). lia. }
      change (Z.of_nat (size (Majority.voters c))) with (Majority.voter_count c).
      assert (0 < Majority.voter_count c) by (unfold Majority.voter_count; apply size_pos in Hne; lia).
      by apply majority_bounds.
  - destruct (majority_commit_value c l Hne) as (i' & E' & Hr). rewrite E in E'. simplify_eq. by apply Hr.
Qed.

Lemma joint_committed_reached c gc l i b j : Majority.voters (Joint.incoming c) <> ∅ ->
  Joint.committed_index c gc l = Ret (i, b) -> j <= i -> exists votes : Z -> option bool,
    Joint.vote_result c votes = Won /\ forall v, votes v = Some true -> j <= Index.index (Majority.acked l v).
Proof.
  intros Hne E Hj. exists (fun v => if decide (j <= Index.index (Majority.acked l v)) then Some true else None).
  split; [|intros v; by case_decide]. unfold Joint.committed_index in E.
  destruct (Majority.committed_index (Joint.incoming c) gc l) as [[i1 b1]| |] eqn:E1; try done. cbn [mbind outcome_bind] in E.
  destruct (Majority.committed_index (Joint.outgoing c) gc l) as [[i2 b2]| |] eqn:E2; try done. injection E as <- _.
  assert (forall half : Majority.Configuration, granted half (fun v => if decide (j <= Index.index (Majority.acked l v)) then Some true else None) =
    reached half l j) as Hg.
  { intros half. unfold granted, reached. apply set_eq. intros v. rewrite !elem_of_filter. case_decide; naive_solver. }
  apply joint_won. rewrite !vote_won, !Hg. split.
  - right. eapply committed_index_reached; [done|exact E1|lia].
  - destruct (decide (Majority.voters (Joint.outgoing c) = ∅)); [by left|right].
    eapply committed_index_reached; [done|exact E2|lia].
Qed.
End quorum.

(** ** Reading and moving in a log *)
Section log_facts.
Context {T : Type} `{StorageLaws T} `{Codec}.
Implicit Types l : RaftLog.t T.

Lemma reads_committed l l' : reads l l' -> log_ok l -> RaftLog.committed l' = RaftLog.committed l /\
  RaftLog.persisted l' = RaftLog.persisted l /\ view l' = view l /\ log_ok l'.
Proof.
  intros Hr Hok. pose proof (same_log_ok _ _ Hok (Hr Hok)). pose proof (reads_view _ _ Hr Hok).
  destruct (Hr Hok) as (x & -> & _). done.
Qed.

Lemma maybe_commit_cases i t l b l' : log_ok l -> t <> 0 -> RaftLog.maybe_commit i t l = Ret (b, l') ->
  l' = l \/ (RaftLog.committed l < i /\ l' = l <| RaftLog.committed := i |> /\
    exists e, entry (view l) i = Some e /\ Entry.term e = t).
Proof.
  intros Hok Ht E. destruct (Z.le_gt_cases i (RaftLog.committed l)) as [Hi|Hi].
  { left. unfold RaftLog.maybe_commit in E. apply bind_inv in E as (l0 & ? & [-> ->]%get_inv & E).
    rewrite (proj2 (Z.leb_le _ _) Hi) in E. by apply ret_inv in E as [_ <-]. }
  rewrite log_maybe_commit_run in E by (done || lia). destruct (matches (view l) i t) eqn:Em; [|injection E as _ <-; by left].
  injection E as _ <-. right. split; [lia|]. split; [done|]. unfold matches in Em. apply bool_decide_eq_true in Em.
  pose proof (lo_committed _ Hok). destruct (Z.le_gt_cases i (ALog.last (view l))) as [Hl|Hl].
  - destruct (lterm_inside (view l) i) as (e & He & Hte); [lia|]. exists e. split; [done|]. rewrite Hte in Em. by injection Em.
  - unfold lterm in Em. rewrite (proj2 (Z.leb_gt i _)), andb_false_r in Em by lia. congruence.
Qed.

Lemma commit_to_cases i l u l' : RaftLog.commit_to i l = Ret (u, l') ->
  l' = l \/ (RaftLog.committed l < i /\ l' = l <| RaftLog.committed := i |>).
Proof. unfold RaftLog.commit_to. intros E. prog_inv; [by left|]. right. split; [lia|done]. Qed.

(** The commit index and the term there. *)
Lemma commit_info_inv l c t : log_ok l -> rooted (view l) -> RaftLog.commit_info l = Ret (c, t) ->
  c = RaftLog.committed l /\ (c = 0 \/ exists e, entry (view l) c = Some e /\ Entry.term e = t).
Proof.
  intros Hok [Hb _] E. unfold RaftLog.commit_info in E. pose proof (lo_committed _ Hok). rewrite term_run in E by (done || lia).
  destruct (Z.eq_dec (RaftLog.committed l) 0) as [Hz|Hz].
  - split; [|left]; destruct (lterm _ _); by prog_inv.
  - destruct (lterm_inside (view l) (RaftLog.committed l)) as (e & He & Hte); [lia|]. rewrite Hte in E. injection E as <- <-.
    split; [done|]. right. by exists e.
Qed.

Lemma last_term_inv l t : log_ok l -> rooted (view l) -> RaftLog.last_term l = Ret t -> t = last_term (view l).
Proof.
  intros Hok [Hb Hbt] E. unfold RaftLog.last_term in E. rewrite last_index_run in E by done. cbn [mbind outcome_bind] in E.
  pose proof (last_base (view l)). rewrite term_run in E by (done || lia). unfold lterm in E.
  rewrite !(proj2 (Z.leb_le _ _)) in E by lia. simpl in E. unfold last_term. destruct (ALog.term_at _ _) as [t'|]; [by injection E|done].
Qed.
End log_facts.

(** ** Sending *)
Section sending.
Context {T : Type} `{StorageLaws T} `{Codec}.
Import RaftCore.

(** The message as it is put out: with its sender and, but for votes and forwarded
    requests, the term. *)
Record stamped (c : RaftCore.t T) (m m' : Message.t) : Prop := {
  sm_type : Message.msg_type m' = Message.msg_type m;
  sm_to : Message.to m' = Message.to m;
  sm_from : Message.from m' = if Message.from m =? INVALID_ID then id c else Message.from m;
  sm_term : if is_vote_request (Message.msg_type m) || is_vote_response (Message.msg_type m)
    then Message.term m' = Message.term m /\ Message.term m <> 0
    else Message.msg_type m = MsgPropose \/ Message.msg_type m = MsgReadIndex \/ Message.term m' = term c;
  sm_index : Message.index m' = Message.index m /\ Message.log_term m' = Message.log_term m /\ Message.entries m' = Message.entries m;
  sm_commit : Message.commit m' = Message.commit m /\ Message.commit_term m' = Message.commit_term m;
  sm_reject : Message.reject m' = Message.reject m
}.

Lemma sending_stamped (c : RaftCore.t T) m ms u ms' : Sending.send c m ms = Ret (u, ms') ->
  exists m', ms' = ms ++ [m'] /\ stamped c m m'.
Proof.
  unfold Sending.send. cbv zeta. set (m0 := if _ =? INVALID_ID then _ else m).
  assert (m0 = m <| Message.from := if Message.from m =? INVALID_ID then id c else Message.from m |>) as Hm0.
  { subst m0. destruct (_ =? _); [done|]. by destruct m. }
  clearbody m0. subst m0. fields. intros (m1 & ms1 & E1 & ->%modify_inv)%bind_inv.
  eexists. assert (ms1 = ms /\ stamped c m m1 /\ Message.msg_type m1 = Message.msg_type m) as (-> & Hs & Ht).
  { destruct (is_vote_request _ || is_vote_response _) eqn:Ev.
    - destruct (Z.eqb_spec (Message.term m) 0); [done|]. apply ret_inv in E1 as [<- <-]. split_and!; [done| |done].
      split; try done. rewrite Ev. by split.
    - destruct (negb _) in E1; [done|]. apply ret_inv in E1 as [<- <-]. split; [done|]. 
      destruct (bool_decide (Message.msg_type m = MsgPropose)) eqn:Ep; [|destruct (bool_decide (Message.msg_type m = MsgReadIndex)) eqn:Er]; simpl.
      all: split; [split; try done; rewrite Ev|done].
      + left. by apply bool_decide_eq_true in Ep.
      + right. left. by apply bool_decide_eq_true in Er.
      + by right; right. }
  split; [reflexivity|]. rewrite Ht. match goal with |- stamped _ _ (if ?b then _ else _) => destruct b end; [|exact Hs]. destruct (0 <? priority c), Hs; by split.
Qed.

(** A request for votes is one of the node, for a term it has seen. *)
Definition own_request (c : RaftCore.t T) m : Prop := Message.msg_type m = MsgRequestVote -> Message.from m = id c /\ Message.term m <= term c.
End sending.

(** ** The leader of a term *)
Section leading.
Context {T : Type} `{StorageLaws T} `{Codec} `{HashOrder} (V : Joint.Configuration) (g : ghost) (K : Message.t -> Prop) (τ : Z).
Import RaftCore.
Implicit Types c : RaftCore.t T.

(** What a node puts out. *)
Definition says c m : Prop := truthful V g K m /\ own_request c m.
Lemma says_later c c' m : id c' = id c -> term c <= term c' -> says c m -> says c' m.
Proof. intros Hi Ht [Hm Hr]. split; [done|]. intros Hty. destruct (Hr Hty). split; [congruence|lia]. Qed.
Lemma says_other c m : truthful V g K m -> Message.msg_type m <> MsgRequestVote -> says c m.
Proof. by split. Qed.
Lemma says_idle c m : idle_message m -> says c m.
Proof. intros Hm. apply says_other; [by apply idle_truthful|]. intros Hty. destruct Hm as [Hm _]. by rewrite Hty in Hm. Qed.

(** The core of the leader of the term [τ]. *)
Record leads_term c : Prop := {
  lt_state : state c = Leader;
  lt_term : term c = τ;
  lt_ok : log_ok (raft_log c);
  lt_rooted : rooted (view (raft_log c)) /\ rooted (led g τ);
  lt_batch : batch_append c = false;
  lt_terms : τ ∈ terms g /\ 0 < τ;
  lt_led : begins (view (raft_log c)) (led g τ);
  lt_committed : decided V g (view (raft_log c)) (RaftLog.committed (raft_log c));
  lt_own n : n <= RaftLog.persisted (raft_log c) -> acked g (id c) n τ
}.

Lemma leads_term_reads c l : reads (raft_log c) l -> leads_term c -> leads_term (c <| raft_log := l |>).
Proof.
  intros Hr []. destruct (reads_committed _ _ Hr lt_ok0) as (Hc & Hp & Hv & Hok). split; fields; try done; rewrite ?Hv, ?Hc, ?Hp; done.
Qed.
Lemma leads_term_committed c : leads_term c -> RaftLog.committed (raft_log c) <= ALog.last (view (raft_log c)) /\
  forall i, i <= RaftLog.committed (raft_log c) -> decided V g (led g τ) i.
Proof.
  intros []. pose proof (lo_committed _ lt_ok0). split; [lia|]. intros i Hi. eapply decided_le; [exact Hi|].
  apply (decided_begins V g (view (raft_log c))); [tauto|tauto|done|lia|done].
Qed.

(** A progress that was acknowledged by the peer [to]. *)
Definition tracked (to : Z) (p : Progress.t) : Prop := Progress.matched p <= 0 \/ acked g to (Progress.matched p) τ.

(** *** What a leader sends to a peer *)
Section peer.
Variable to : Z.

Definition sender_sound (s : Sender.t T) : Prop :=
  leads_term (Sender.core s) /\ tracked to (Sender.pr s) /\ forall m, m ∈ Sender.msgs s -> says (Sender.core s) m.

Lemma sender_pr {A} (m : Prog Progress.t A) : pres (keeps (tracked to)) m -> pres (keeps sender_sound) (Sending.on_pr (T:=T) m).
Proof.
  intros Hm. unfold Sending.on_pr. eapply pres_zoom; [exact Hm|]. intros s p Hp (Hl & Ht & Hms). split_and!; [done|by apply Hp|done].
Qed.
Lemma sender_log {A} (m : Prog (RaftLog.t T) A) : pres reads m -> pres (keeps sender_sound) (Sending.on_log m).
Proof.
  intros Hm. unfold Sending.on_log. eapply pres_zoom; [exact Hm|]. intros s l Hr (Hl & Ht & Hms).
  split_and!; [by apply leads_term_reads|done..].
Qed.
Lemma sender_send m s u s' : sender_sound s ->
  (forall m', stamped (Sender.core s) m m' -> says (Sender.core s) m') -> Sending.send_from (T:=T) m s = Ret (u, s') -> sender_sound s'.
Proof.
  intros (Hl & Ht & Hms) Hm E. unfold Sending.send_from in E. apply bind_inv in E as (s0 & ? & [-> ->]%get_inv & E).
  apply zoom_inv in E as (ms & (m' & -> & Hs)%sending_stamped & ->). split_and!; [done..|]. fields.
  intros x [?|Hx]%elem_of_app; [by apply Hms|]. apply list_elem_of_singleton in Hx as ->. auto.
Qed.
Lemma idle_stamped c m m' : stamped c m m' -> idle_message m -> idle_message m'.
Proof. intros [Ht _ _ _ (Hi & _) _ Hr] Hm. unfold idle_message in *. by rewrite Ht, Hi, Hr. Qed.
Lemma sender_idle m : idle_message m -> pres (keeps sender_sound) (Sending.send_from (T:=T) m).
Proof. intros Hm s u s' E Hs. eapply sender_send; [exact Hs| |exact E]. intros m' Hm'. by eapply says_idle, idle_stamped. Qed.

Lemma update_state_tracked i : pres (keeps (tracked to)) (Progress.update_state i).
Proof. intros p u p' E Hp. unfold Progress.update_state in E. prog_inv; exact Hp. Qed.
Lemma become_snapshot_tracked i : pres (keeps (tracked to)) (modify (Progress.become_snapshot i)).
Proof. intros p u p' ->%modify_inv Hp. exact Hp. Qed.
Hint Resolve sender_pr sender_log update_state_tracked become_snapshot_tracked : frame.

Lemma sender_send_snapshot m : pres (keeps sender_sound) (Sending.send_snapshot (T:=T) m to).
Proof.
  unfold Sending.send_snapshot. eapply (pres_bind_post _ (fun x => x.2 = true -> Message.msg_type x.1 = MsgSnapshot));
    [unfold Sending.prepare_send_snapshot; frame|intros ???; apply prepare_send_snapshot_type|].
  intros [m' []] Hm; simpl in Hm; [|by frame]. specialize (Hm eq_refl).
  assert (idle_message m') by (unfold idle_message; rewrite Hm; by split). pose proof (sender_idle m'). frame.
Qed.
Hint Resolve sender_send_snapshot : frame.

Lemma prepare_send_entries_sound m t ents s x s' : Sending.prepare_send_entries (T:=T) m t ents s = Ret (x, s') ->
  sender_sound s -> sender_sound s' /\ Message.msg_type x = MsgAppend /\ Sender.core s' = Sender.core s /\
    log_of x = ALog.mk (Progress.next_idx (Sender.pr s) -w 1) (Some t) ents /\
    Message.commit x = RaftLog.committed (raft_log (Sender.core s)).
Proof.
  intros E Hs. split; [revert Hs; change (keeps sender_sound s s'); call_frame (keeps sender_sound) E; unfold Sending.prepare_send_entries; frame|].
  unfold Sending.prepare_send_entries, Sending.on_pr in E. by prog_inv.
Qed.

(** The append message of a leader. *)
Lemma append_truthful c m m' t es idx : leads_term c -> stamped c m m' -> Message.msg_type m = MsgAppend ->
  log_of m = ALog.mk idx (Some t) es -> Message.commit m = RaftLog.committed (raft_log c) -> 0 <= idx ->
  RaftLog.term (raft_log c) idx = Ret (Ok t) -> copies (view (raft_log c)) m -> says c m'.
Proof.
  intros Hl [Ht _ _ Hterm (Hi & Hlt & He) (Hc & _) _] Hty Hm Hcm Hidx Et Hcp. rewrite Hty in *. simpl in Hterm.
  destruct Hterm as [?|[?|Hterm]]; [done..|]. rewrite (lt_term _ Hl) in Hterm. injection Hm as Hmi Hmt Hme. apply says_other; [|congruence].
  split; [intros [_ [?|[? _]]]; congruence|]. rewrite Ht, Hi, Hlt, Hmi, Hmt. intros Hnz.
  destruct (lt_rooted _ Hl) as [Hr Hr']. rewrite term_run in Et by (done || apply Hl).
  assert (idx <= ALog.last (view (raft_log c)) /\ lterm (view (raft_log c)) idx = Some t) as [Hle Hlt'].
  { destruct (lterm (view (raft_log c)) idx) as [t'|] eqn:El; [|done]. injection Et as ->. split; [|done].
    destruct (Z.le_gt_cases idx (ALog.last (view (raft_log c)))) as [|Hgt]; [done|]. unfold lterm in El.
    rewrite (proj2 (Z.leb_gt _ _) Hgt), andb_false_r in El. destruct Hnz as [->|Hnz]; [|congruence].
    pose proof (last_base (view (raft_log c))). destruct Hr. lia. }
  unfold tells_entries. rewrite Hterm, Hi, Hlt, Hmi, Hmt, Hc, Hcm. split_and!.
  - apply Hl.
  - intros e Hle'. destruct (Z.le_gt_cases idx 0) as [|Hpos]; [by rewrite entry_before in Hle'|].
    destruct (lterm_inside (view (raft_log c)) idx) as (e' & He' & Hte); [destruct Hr; lia|].
    apply (lt_led _ Hl) in He'. congruence.
  - etrans; [exact Hle|]. apply begins_last; [done|by apply Hl|done].
  - intros k e Hk. apply (lt_led _ Hl). replace (log_of m') with (log_of m) in Hk by (unfold log_of; congruence). by apply Hcp.
  - by apply (proj2 (leads_term_committed _ Hl)).
Qed.

Lemma sender_maybe_send_append b : pres (keeps sender_sound) (Sending.maybe_send_append (T:=T) to b).
Proof.
  intros s x s' E Hs. unfold Sending.maybe_send_append in E. apply bind_inv in E as (s0 & ? & [-> ->]%get_inv & E).
  destruct (Progress.is_paused _); [by apply ret_inv in E as [_ <-]|]. cbv zeta in E.
  destruct (negb (_ =? _)); [by eapply sender_send_snapshot|].
  apply bind_inv in E as (ents & s1 & E1 & E). pose proof (sender_log _ (entries_pres _ _ _) _ _ _ E1 Hs) as Hs1.
  apply zoom_inv in E1 as (l' & E1 & ->). destruct (_ && _); [by apply ret_inv in E as [_ <-]|].
  apply bind_inv in E as (t & s1 & [Et ->]%asks_inv & E). fields.
  pose proof (lt_batch _ (proj1 Hs)) as Hb. rewrite Hb in E.
  destruct t as [t|], ents as [es|er];
    try (by repeat case_match; first [by eapply sender_send_snapshot|by apply ret_inv in E as [_ <-]]).
  apply bind_inv in E as (bt & s1 & [<- <-]%ret_inv & E). apply bind_inv in E as (m & s2 & Ep & E).
  apply prepare_send_entries_sound in Ep as (Hs2 & Ht & Hc & Hm & Hcm); [|done]. fields.
  apply bind_inv in E as (u & s3 & E & [_ <-]%ret_inv). eapply sender_send; [exact Hs2| |exact E].
  intros m' Hm'. rewrite Hc in Hm' |- *. fields. refine (append_truthful _ m m' t es _ (proj1 Hs1) Hm' Ht Hm Hcm _ Et _).
  - apply u64_sub_range.
  - eapply read_copies; [apply (proj1 Hs)|exact E1|exact Et|exact Hm].
Qed.
Hint Resolve sender_maybe_send_append : frame.

Lemma sender_send_append : pres (keeps sender_sound) (Sending.send_append (T:=T) to).
Proof. unfold Sending.send_append. frame. Qed.
Lemma sender_append_loop fuel : pres (keeps sender_sound) (Sending.send_append_loop (T:=T) fuel to).
Proof. induction fuel; simpl; frame. Qed.
Hint Resolve sender_append_loop : frame.
Lemma sender_aggressively : pres (keeps sender_sound) (Sending.send_append_aggressively (T:=T) to).
Proof. unfold Sending.send_append_aggressively. frame. Qed.

Lemma sender_heartbeat ctx : pres (keeps sender_sound) (Sending.send_heartbeat (T:=T) to ctx).
Proof.
  unfold Sending.send_heartbeat. apply keeps_get. intros s a s' Hs E. cbv zeta in E.
  eapply sender_send; [exact Hs| |exact E]. clear E. intros m' [Hty Hto _ Hterm _ (Hc & _) _].
  assert (forall m, m = match ctx with Some c => Message.default <| Message.to := to |> <| Message.msg_type := MsgHeartbeat |>
    <| Message.commit := Z.min (Progress.matched (Sender.pr s)) (RaftLog.committed (raft_log (Sender.core s))) |> <| Message.context := c |>
    | None => Message.default <| Message.to := to |> <| Message.msg_type := MsgHeartbeat |>
    <| Message.commit := Z.min (Progress.matched (Sender.pr s)) (RaftLog.committed (raft_log (Sender.core s))) |> end ->
    Message.msg_type m = MsgHeartbeat /\ Message.to m = to /\
    Message.commit m = Z.min (Progress.matched (Sender.pr s)) (RaftLog.committed (raft_log (Sender.core s)))) as Hm
    by (intros m ->; by destruct ctx).
  destruct (Hm _ eq_refl) as (Hm1 & Hm2 & Hm3). clear Hm. rewrite Hm1 in *. rewrite Hm2 in Hto. rewrite Hm3 in Hc. simpl in Hterm.
  destruct Hterm as [?|[?|Hterm]]; [done..|]. destruct Hs as (Hl & Ht & _). rewrite (lt_term _ Hl) in Hterm.
  apply says_other; [|congruence]. split; [intros [_ [?|[? _]]]; congruence|]. rewrite Hty, Hto, Hterm, Hc. destruct Ht as [Ht|Ht]; [left; lia|].
  destruct (leads_term_committed _ Hl) as [_ Hd]. right. eexists. split; [exact Ht|]. split; [lia|]. apply Hd. lia.
Qed.
End peer.
End leading.

(** ** A node *)
Section node.
Context {T : Type} `{StorageLaws T} `{Codec} `{HashOrder} `{ConfigurationDebug} `{Rng}.
Context (V : Joint.Configuration) (g : ghost) (K : Message.t -> Prop).
Import RaftCore Raft.
Implicit Types s : Raft.t T.
Abbreviation log s := (view (raft_log (r s))).
Abbreviation commit s := (RaftLog.committed (raft_log (r s))).

(** What holds of a node whose messages are truthful. *)
Record sound s : Prop := {
  so_ok : log_ok (raft_log (r s));
  so_batch : batch_append (r s) = false;
  so_voters : Configuration.voters (ProgressTracker.conf (prs s)) = V;
  so_log : well_led g (terms g) (log s);
  so_terms n e : entry (log s) n = Some e -> Entry.term e <= term (r s);
  so_committed : decided V g (log s) (commit s);
  so_lead : state (r s) = Leader -> leads_term V g (term (r s)) (r s) /\
    forall v p, ProgressTracker.progress (prs s) !! v = Some p -> tracked g (term (r s)) v p;
  so_cand : state (r s) = Candidate -> cand g (id (r s)) (term (r s)) = log s;
  so_reads k rs : ReadOnly.pending_read_index (read_only (r s)) !! k = Some rs -> ReadIndexStatus.index rs <= commit s;
  so_msgs m : m ∈ msgs s -> says V g K (r s) m
}.

Lemma sound_rooted s : sound s -> rooted (log s).
Proof. intros Hs. apply (wl_rooted _ _ _ (so_log _ Hs)). Qed.

Lemma leads_core τ c c' : leads_term V g τ c -> raft_log c' = raft_log c -> state c' = state c -> term c' = term c ->
  id c' = id c -> batch_append c' = batch_append c -> leads_term V g τ c'.
Proof. intros [] El Es Et Ei Eb. split; rewrite ?El, ?Es, ?Et, ?Ei, ?Eb; done. Qed.

(** Nothing of all this changes. *)
Lemma sound_same s s' : raft_log (r s') = raft_log (r s) -> state (r s') = state (r s) -> term (r s') = term (r s) ->
  id (r s') = id (r s) -> batch_append (r s') = batch_append (r s) -> ProgressTracker.conf (prs s') = ProgressTracker.conf (prs s) ->
  (state (r s) = Leader -> forall v p, ProgressTracker.progress (prs s') !! v = Some p -> tracked g (term (r s)) v p) ->
  (forall k rs, ReadOnly.pending_read_index (read_only (r s')) !! k = Some rs -> ReadIndexStatus.index rs <= commit s) ->
  (forall m, m ∈ msgs s' -> says V g K (r s) m) -> sound s -> sound s'.
Proof.
  intros El Es Et Ei Eb Ec Hp Hr Hm []. split; rewrite ?El, ?Es, ?Et, ?Ei, ?Eb, ?Ec; try done.
  - intros Hl. split; [|by apply Hp]. eapply leads_core; [by apply so_lead0|done..].
  - intros m Hin. eapply says_later; [exact Ei|lia|by apply Hm].
Qed.
Lemma sound_reads s l : reads (raft_log (r s)) l -> sound s -> sound (s <| r := (r s) <| raft_log := l |> |>).
Proof.
  intros Hr []. destruct (reads_committed _ _ Hr so_ok0) as (Hc & Hp & Hv & Hok). split; fields; rewrite ?Hv, ?Hc; try done.
  intros Hl. destruct (so_lead0 Hl) as [? ?]. split; [by apply leads_term_reads|done].
Qed.
Lemma sound_send s m' : says V g K (r s) m' -> sound s -> sound (s <| msgs := msgs s ++ [m'] |>).
Proof.
  intros Hm' Hs. apply (sound_same s); try done; fields.
  - intros Hl. by apply so_lead.
  - apply so_reads. done.
  - intros x [?|Hx]%elem_of_app; [by apply (so_msgs _ Hs)|]. by apply list_elem_of_singleton in Hx as ->.
Qed.

(** *** What a leader does *)
Section leader.
Variables τ c : Z.

(** The leader of [τ], which has committed [c]. *)
Definition leading s : Prop := sound s /\ state (r s) = Leader /\ term (r s) = τ /\ c <= commit s.

Lemma leading_term s : leading s -> leads_term V g τ (r s).
Proof. intros (Hs & Hl & <- & _). by apply so_lead. Qed.
Lemma leading_same s s' : raft_log (r s') = raft_log (r s) -> state (r s') = state (r s) -> term (r s') = term (r s) ->
  id (r s') = id (r s) -> batch_append (r s') = batch_append (r s) -> ProgressTracker.conf (prs s') = ProgressTracker.conf (prs s) ->
  (forall v p, ProgressTracker.progress (prs s') !! v = Some p -> tracked g τ v p) ->
  (forall k rs, ReadOnly.pending_read_index (read_only (r s')) !! k = Some rs -> ReadIndexStatus.index rs <= commit s) ->
  (forall m, m ∈ msgs s' -> says V g K (r s) m) -> leading s -> leading s'.
Proof.
  intros El Es Et Ei Eb Ec Hp Hr Hm (Hs & Hl & Ht & Hc). split; [|by rewrite El, Es, Et]. eapply (sound_same s); try done.
  intros _. by rewrite Ht.
Qed.
Lemma leading_tracked s v p : leading s -> ProgressTracker.progress (prs s) !! v = Some p -> tracked g τ v p.
Proof. intros (Hs & Hl & <- & _). by apply so_lead. Qed.

Lemma lead_assign s f : let s' := s <| r := f |> in raft_log f = raft_log (r s) -> state f = state (r s) -> term f = term (r s) ->
  id f = id (r s) -> batch_append f = batch_append (r s) -> read_only f = read_only (r s) -> keeps leading s s'.
Proof.
  intros s' ? ? ? ? ? Hro Hs. apply (leading_same s); try done; subst s'; fields; rewrite ?Hro.
  - intros v p. by apply leading_tracked.
  - apply so_reads. apply Hs.
  - apply so_msgs. apply Hs.
Qed.
Hint Extern 1 (keeps leading _ _) => by apply lead_assign : frame.

Lemma lead_progress {A} i (m : Prog Progress.t A) : pres (keeps (tracked g τ i)) m -> pres (keeps leading) (on_progress (T:=T) i m).
Proof.
  intros Hm s a s' E Hs. unfold on_progress in E. apply bind_inv in E as (s0 & ? & [-> ->]%get_inv & E).
  apply bind_inv in E as (p & s1 & [Hp ->]%unwrap_inv & E). apply zoom_inv in E as (p' & E & ->).
  apply (leading_same s); try done; unfold put_progress; fields.
  - intros v q. rewrite lookup_insert. case_decide as Hv; [intros [= <-]; subst v|by apply leading_tracked].
    by apply (Hm _ _ _ E), (leading_tracked s).
  - apply so_reads. apply Hs.
  - apply so_msgs. apply Hs.
Qed.

Lemma lead_with_progress {A} i (m : Prog (Sender.t T) A) : pres feeds m -> pres (keeps (sender_sound V g K τ i)) m ->
  pres (keeps leading) (with_progress i m).
Proof.
  intros Hf Hm s a s' E Hs. unfold with_progress in E. apply bind_inv in E as (s0 & ? & [-> ->]%get_inv & E).
  apply bind_inv in E as (p & s1 & [Hp ->]%unwrap_inv & E). apply zoom_inv in E as (x & E & ->).
  destruct (Hf _ _ _ E) as [(l & Hc & Hr & _) _]. fields. destruct (Hm _ _ _ E) as (_ & Hp' & Hms).
  { split_and!; [by apply leading_term|by eapply leading_tracked|]. simpl. apply so_msgs, Hs. }
  unfold put_progress. simpl in Hc, Hr. rewrite Hc.
  assert (leading (s <| r := (r s) <| raft_log := l |> |>)) as Hs1.
  { destruct Hs as (Hs & Hl & Ht & Hcm). split; [by apply sound_reads|]. fields.
    destruct (reads_committed _ _ Hr (so_ok _ Hs)) as (-> & _). done. }
  apply (leading_same (s <| r := (r s) <| raft_log := l |> |>)); try done; fields.
  - intros v q. rewrite lookup_insert. case_decide as Hv; [intros [= <-]; by subst v|by apply (leading_tracked s)].
  - apply (so_reads _ (proj1 Hs1)).
  - intros m' Hin. specialize (Hms m' Hin). by rewrite Hc in Hms.
Qed.

Lemma lead_reading {A} (m : Prog (RaftLog.t T) A) : pres reads m -> pres (keeps leading) (on_log m).
Proof.
  intros Hm. eapply pres_zoom; [exact Hm|]. intros s l Hr (Hs & Hl & Ht & Hc). split; [by apply sound_reads|]. fields.
  destruct (reads_committed _ _ Hr (so_ok _ Hs)) as (-> & _). done.
Qed.
Lemma lead_ask {A} (f : RaftLog.t T -> outcome A) : pres (keeps leading) (ask_log f).
Proof. unfold ask_log. frame. Qed.
Lemma lead_read_only {A} (m : Prog ReadOnly.t A) :
  (forall n, c <= n -> pres (keeps (fun x => forall k rs, ReadOnly.pending_read_index x !! k = Some rs -> ReadIndexStatus.index rs <= n)) m) ->
  pres (keeps leading) (on_read_only (T:=T) m).
Proof.
  intros Hm s a s' E Hs. unfold on_read_only in E. apply zoom_inv in E as (x & E & ->). pose proof Hs as (Hs0 & _ & _ & Hc).
  apply (leading_same s); try done; fields.
  - intros v p. by apply leading_tracked.
  - eapply (Hm _ Hc); [exact E|]. by apply so_reads.
  - by apply so_msgs.
Qed.
Lemma lead_send m : idle_message m -> pres (keeps leading) (send (T:=T) m).
Proof.
  intros Hm s a s' E (Hs & Hl). unfold send in E. apply bind_inv in E as (s0 & ? & [-> ->]%get_inv & E).
  apply zoom_inv in E as (ms & (m' & -> & Hst)%sending_stamped & ->). split; [|done].
  apply sound_send; [|done]. by eapply says_idle, idle_stamped.
Qed.
Hint Resolve lead_with_progress lead_reading lead_ask lead_send : frame.
Hint Resolve sender_send_append sender_aggressively sender_heartbeat : frame.

Lemma lead_send_append to : pres (keeps leading) (send_append (T:=T) to).
Proof. unfold send_append. frame. Qed.
Lemma lead_send_aggressively to : pres (keeps leading) (send_append_aggressively (T:=T) to).
Proof. unfold send_append_aggressively. frame. Qed.
Hint Resolve lead_send_append lead_send_aggressively : frame.
Lemma lead_bcast_append : pres (keeps leading) (bcast_append (T:=T)).
Proof. unfold bcast_append. frame. Qed.
Lemma lead_bcast_heartbeat_ctx ctx : pres (keeps leading) (bcast_heartbeat_with_ctx (T:=T) ctx).
Proof. unfold bcast_heartbeat_with_ctx. frame. Qed.
Hint Resolve lead_bcast_append lead_bcast_heartbeat_ctx : frame.
Lemma lead_bcast_heartbeat : pres (keeps leading) (bcast_heartbeat (T:=T)).
Proof. unfold bcast_heartbeat. frame. Qed.
Hint Resolve lead_bcast_heartbeat : frame.
Lemma lead_abort_transfer : pres (keeps leading) (abort_leader_transfer (T:=T)).
Proof. unfold abort_leader_transfer. frame. Qed.
Hint Resolve lead_abort_transfer : frame.

(** Answers to reads tell what the leader has committed. *)
Lemma lead_answer_read req i : i <= c -> pres (keeps leading) (answer_read (T:=T) req i).
Proof.
  intros Hi s a s' E Hs. unfold answer_read in E. apply bind_inv in E as (x & s1 & E1 & E). unfold handle_ready_read_index in E1.
  apply bind_inv in E1 as (s0 & ? & [-> ->]%get_inv & E1). destruct (_ || _).
  - apply bind_inv in E1 as (e & s2 & [_ ->]%unwrap_inv & E1). apply bind_inv in E1 as (u & s2 & ->%modify_inv & [<- <-]%ret_inv).
    apply ret_inv in E as [_ <-]. revert Hs. change (keeps leading s (s <| r := (r s) <| read_states := read_states (r s) ++ [ReadState.mk i (Entry.data e)] |> |>)).
    by apply lead_assign.
  - apply ret_inv in E1 as [<- <-]. unfold send in E. apply bind_inv in E as (s0 & ? & [-> ->]%get_inv & E).
    apply zoom_inv in E as (ms & (m' & -> & [Hty _ _ Hterm (Hidx & _) _ _])%sending_stamped & ->). pose proof Hs as (Hs0 & Hl & Ht & Hc).
    split; [|done]. apply sound_send; [|done]. simpl in Hty, Hterm, Hidx. destruct Hterm as [?|[?|Hterm]]; [done..|].
    apply says_other; [|congruence]. split; [intros [_ [?|[? _]]]; congruence|]. rewrite Hty, Hidx, Hterm, Ht. right.
    split; [apply (lt_terms _ _ _ _ (leading_term _ Hs))|]. apply (proj2 (leads_term_committed _ _ _ _ (leading_term _ Hs))). lia.
Qed.

Lemma recv_ack_bounded n i ctx : pres (keeps (fun x => forall k rs, ReadOnly.pending_read_index x !! k = Some rs -> ReadIndexStatus.index rs <= n))
  (ReadOnly.recv_ack i ctx).
Proof.
  intros x a x' E Hx. unfold ReadOnly.recv_ack in E. prog_inv; [|done]. fields. intros k rs. rewrite lookup_insert.
  case_decide; [intros [= <-]; subst; fields; by eapply Hx|apply Hx].
Qed.
Lemma add_request_bounded n i req id : i <= n -> pres (keeps (fun x => forall k rs, ReadOnly.pending_read_index x !! k = Some rs -> ReadIndexStatus.index rs <= n))
  (ReadOnly.add_request i req id).
Proof.
  intros Hi x a x' E Hx. unfold ReadOnly.add_request in E. prog_inv; [exact Hx|]. fields. intros k rs. rewrite lookup_insert.
  case_decide; [by intros [= <-]|apply Hx].
Qed.
Lemma pop_bounded n j x l x' : ReadOnly.pop j x = Ret (l, x') ->
  (forall k rs, ReadOnly.pending_read_index x !! k = Some rs -> ReadIndexStatus.index rs <= n) ->
  (forall k rs, ReadOnly.pending_read_index x' !! k = Some rs -> ReadIndexStatus.index rs <= n) /\
  Forall (fun rs => ReadIndexStatus.index rs <= n) l.
Proof.
  revert x l x'. induction j as [|j IH]; intros x l x' E Hx; simpl in E; [by apply ret_inv in E as [<- <-]|].
  prog_inv. match goal with Hp : ReadOnly.pop _ _ = _ |- _ => apply IH in Hp as [? ?] end; fields.
  - split; [done|]. constructor; [by eapply Hx|done].
  - intros k rs. rewrite lookup_delete. case_decide; [done|]. apply Hx.
Qed.
Lemma advance_bounded n ctx x l x' : ReadOnly.advance ctx x = Ret (l, x') ->
  (forall k rs, ReadOnly.pending_read_index x !! k = Some rs -> ReadIndexStatus.index rs <= n) ->
  (forall k rs, ReadOnly.pending_read_index x' !! k = Some rs -> ReadIndexStatus.index rs <= n) /\
  Forall (fun rs => ReadIndexStatus.index rs <= n) l.
Proof.
  unfold ReadOnly.advance. intros (x0 & ? & [-> ->]%get_inv & E)%bind_inv Hx. apply bind_inv in E as (i & x1 & [_ ->]%lift_inv & E).
  destruct i; [by eapply pop_bounded|by apply ret_inv in E as [<- <-]].
Qed.
End leader.
Hint Resolve lead_with_progress lead_reading lead_ask lead_send lead_send_append lead_send_aggressively
  lead_bcast_append lead_bcast_heartbeat_ctx lead_bcast_heartbeat lead_abort_transfer : frame.
Hint Extern 1 (keeps (leading _ _) _ _) => by apply lead_assign : frame.
Hint Extern 1 (idle_message _) => by split : frame.
Hint Extern 2 (pres (keeps (leading _ _)) (on_progress _ _)) => solve [apply lead_progress; frame] : frame.

Section leader.
Variable τ : Z.

Lemma leading_now c s : leading τ c s -> leading τ (commit s) s.
Proof. intros (? & ? & ? & _). by split_and!. Qed.
Lemma leading_le c c' s : c <= c' -> leading τ c' s -> leading τ c s.
Proof. intros ? (? & ? & ? & ?). split_and!; [done..|lia]. Qed.

Lemma lead_answer_reads c from ctx : pres (keeps (leading τ c)) (answer_reads_if_quorum (T:=T) from ctx).
Proof.
  intros s a s' E Hs. unfold answer_reads_if_quorum in E. apply bind_inv in E as (acks & s1 & E1 & E).
  apply (lead_read_only τ c) in E1; [|intros n _; apply recv_ack_bounded]. specialize (E1 Hs). clear Hs s. rename s1 into s.
  apply bind_inv in E as (s0 & ? & [-> ->]%get_inv & E). destruct acks as [acks|]; [|by apply ret_inv in E as [_ <-]].
  destruct (ProgressTracker.has_quorum _ _); [|by apply ret_inv in E as [_ <-]].
  apply bind_inv in E as (rss & s1 & E2 & E). unfold on_read_only in E2. apply zoom_inv in E2 as (x & E2 & ->).
  pose proof E1 as (Hs & Hl & Ht & Hc). apply (advance_bounded (commit s)) in E2 as [Hx Hf]; [|by apply so_reads].
  apply (leading_le c (commit s)); [done|]. assert (leading τ (commit s) (s <| r := (r s) <| read_only := x |> |>)) as Hs1.
  { apply (leading_same τ (commit s) s); try done; fields; [intros v p; by apply (leading_tracked τ c)|apply so_msgs, Hs]. }
  revert Hs1. match type of E with _ ?a = _ => change (keeps (leading τ (commit s)) a s') end.
  eapply (for_each_inv (keeps (leading τ (commit s)))); [|exact E]. intros rs u b v Hin. apply lead_answer_read.
  rewrite Forall_forall in Hf. by apply Hf.
Qed.
Hint Resolve lead_answer_reads : frame.

(** Operations on the progress of a peer that leave [matched] alone. *)
Lemma tracked_modify i (f : Progress.t -> Progress.t) : (forall p, Progress.matched (f p) = Progress.matched p) -> pres (keeps (tracked g τ i)) (modify f).
Proof. intros Hf. apply pres_modify. intros p. unfold keeps, tracked. by rewrite Hf. Qed.
Lemma tracked_ins i (m : Prog Inflights.t unit) :
  pres (keeps (tracked g τ i)) (zoom Progress.ins (fun x p => p <| Progress.ins := x |>) m).
Proof. intros p a p' (x & _ & ->)%zoom_inv Hp. exact Hp. Qed.
Lemma update_committed_matched n p : Progress.matched (Progress.update_committed n p) = Progress.matched p.
Proof. unfold Progress.update_committed. by case_match. Qed.
Lemma become_probe_matched p : Progress.matched (Progress.become_probe p) = Progress.matched p.
Proof. unfold Progress.become_probe. by case_match. Qed.
Lemma tracked_decr i a b d : pres (keeps (tracked g τ i)) (Progress.maybe_decr_to a b d).
Proof. unfold Progress.maybe_decr_to. pose proof tracked_modify. frame. all: by unfold keeps, tracked; fields. Qed.
Lemma tracked_update i n : n <= 0 \/ acked g i n τ -> pres (keeps (tracked g τ i)) (Progress.maybe_update n).
Proof. intros Hn p a p' E Hp. unfold Progress.maybe_update in E. prog_inv; unfold tracked in *; fields; done. Qed.
Hint Resolve tracked_modify tracked_ins update_committed_matched become_probe_matched tracked_decr : frame.
Hint Extern 1 (keeps (tracked _ _ _) _ (Progress.update_committed _ _)) => by unfold keeps, tracked; rewrite update_committed_matched : frame.
Hint Extern 1 (keeps (tracked _ _ _) _ (Progress.become_probe _)) => by unfold keeps, tracked; rewrite become_probe_matched : frame.
Hint Extern 2 (keeps (tracked _ _ _) _ _) => by unfold keeps, tracked; fields : frame.

Lemma lead_heartbeat_response c m : pres (keeps (leading τ c)) (handle_heartbeat_response (T:=T) m).
Proof. unfold handle_heartbeat_response. frame. Qed.
Lemma lead_transfer_leader c m : pres (keeps (leading τ c)) (handle_transfer_leader (T:=T) m).
Proof. unfold handle_transfer_leader, send_timeout_now. frame. Qed.
Lemma lead_snapshot_status c m : pres (keeps (leading τ c)) (handle_snapshot_status (T:=T) m).
Proof. unfold handle_snapshot_status. frame. Qed.
Lemma lead_unreachable c m : pres (keeps (leading τ c)) (handle_unreachable (T:=T) m).
Proof. unfold handle_unreachable. frame. Qed.
Hint Resolve lead_heartbeat_response lead_transfer_leader lead_snapshot_status lead_unreachable : frame.

Lemma activity_tracked me (l : list (Z * Progress.t)) x : Forall (fun y => tracked g τ y.1 y.2) l ->
  (forall v p, x.1 !! v = Some p -> tracked g τ v p) ->
  forall v p, (fold_left (ProgressTracker.activity_step me) l x).1 !! v = Some p -> tracked g τ v p.
Proof.
  revert x. induction l as [|[i q] l IH]; intros x Hl Hx; simpl; [done|]. apply Forall_cons in Hl as [Hq Hl]. simpl in Hq.
  apply IH; [done|]. destruct x as [m active]. unfold ProgressTracker.activity_step. simpl in Hx.
  destruct (i =? me); [|destruct (Progress.recent_active q); [|done]]; simpl; intros v p; rewrite lookup_insert;
    (case_decide; [intros [= <-]; by subst|apply Hx]).
Qed.
Lemma lead_quorum_active c : pres (keeps (leading τ c)) (check_quorum_active (T:=T)).
Proof.
  intros s a s' E Hs. unfold check_quorum_active in E. apply bind_inv in E as (s0 & ? & [-> ->]%get_inv & E).
  unfold ProgressTracker.quorum_recently_active in E.
  destruct (fold_left _ _ _) as [ps active] eqn:Ef. apply bind_inv in E as (u & s1 & ->%modify_inv & [_ <-]%ret_inv).
  pose proof Hs as (Hs0 & _). apply (leading_same τ c s); try done; fields; [|by apply so_reads|by apply so_msgs].
  change ps with (ps, active).1. rewrite <-Ef. apply activity_tracked; simpl; [|intros v p; by apply (leading_tracked τ c)].
  apply Forall_forall. intros [v p] Hv. apply (leading_tracked τ c s); [done|]. by rewrite elem_of_map_iter in Hv.
Qed.

Lemma lead_read_index c m : pres (keeps (leading τ c)) (handle_read_index (T:=T) m).
Proof.
  intros s a s' E Hs. apply (leading_le c (commit s)); [apply Hs|]. apply leading_now in Hs. revert Hs.
  change (keeps (leading τ (commit s)) s s'). unfold handle_read_index in E. apply bind_inv in E as (s0 & ? & [-> ->]%get_inv & E).
  apply bind_inv in E as (b & s1 & [_ ->]%lift_inv & E). cbv zeta in E. pose proof (lead_answer_read τ (commit s) m (commit s) ltac:(done)).
  assert (forall m, pres (keeps (leading τ (commit s))) (on_read_only (T:=T) (ReadOnly.add_request (commit s) m (id (r s))))).
  { intros m'. apply lead_read_only. intros n Hn. by apply add_request_bounded. }
  call_frame (keeps (leading τ (commit s))) E. frame.
Qed.

(** *** Committing *)
Context (HV : Majority.voters (Joint.incoming V) <> ∅).

Lemma lead_maybe_commit c : pres (keeps (leading τ c)) (maybe_commit (T:=T)).
Proof using Type* HV.
  intros s a s' E Hs. unfold maybe_commit in E. apply bind_inv in E as ([i gc] & s1 & [Ei ->]%asks_inv & E).
  apply bind_inv in E as (s0 & ? & [-> ->]%get_inv & E). apply bind_inv in E as (b & s1 & E1 & E).
  assert (leading τ c s1) as Hs1.
  { unfold on_log in E1. apply zoom_inv in E1 as (l & E1 & ->). pose proof (leading_term _ _ _ Hs) as Hl.
    pose proof Hs as (Hs0 & Hst & Ht & Hc). simpl in E1.
    destruct (lt_terms _ _ _ _ Hl) as [Hin Hpos].
    apply maybe_commit_cases in E1 as [->|(Hlt & -> & e & He & Hte)]; [..|apply Hs0|lia].
    { by destruct s as [? ? [] ?]. }
    pose proof (lo_committed _ (so_ok _ Hs0)) as Hb. pose proof (entry_bounds _ _ _ (sound_rooted _ Hs0) He) as Hi.
    assert (decided V g (log s) i) as Hd.
    { right. exists τ, i. split; [|split; [done|]].
      - split; [done|]. split.
        + unfold ProgressTracker.maximal_committed_index in Ei. rewrite (so_voters _ Hs0) in Ei.
          destruct (joint_committed_reached _ _ _ _ _ i HV Ei ltac:(done)) as (votes & Hw & Hv). exists votes. split; [done|].
          intros v Hvt. specialize (Hv v Hvt). unfold Majority.acked, acked_index in Hv.
          destruct (ProgressTracker.progress (prs s) !! v) as [p|] eqn:Ep; simpl in Hv; [|lia].
          destruct (leading_tracked τ c s v p Hs Ep) as [?|Ha]; [lia|]. by exists (Progress.matched p).
        + exists e. split; [by apply (lt_led _ _ _ _ Hl)|congruence].
      - intros k Hk. destruct (Z.le_gt_cases k 0); [rewrite !entry_before; [done|apply Hl|done|by apply sound_rooted|done]|].
        destruct (entry_here (log s) k (sound_rooted _ Hs0)) as [ek Hek]; [lia|]. rewrite Hek. symmetry. by apply (lt_led _ _ _ _ Hl). }
    split; [|fields; split_and!; (done || lia)]. destruct Hs0. split; fields; rewrite ?view_committed; try done.
    - apply committed_ok; [done|lia].
    - intros _. destruct (so_lead0 Hst) as [[] Htr]. split; [|done]. split; fields; rewrite ?view_committed; try done. apply committed_ok; [done|lia].
    - intros k rs Hk. specialize (so_reads0 k rs Hk). lia. }
  revert Hs1. change (keeps (leading τ c) s1 s'). call_frame (keeps (leading τ c)) E. frame.
Qed.
Hint Resolve lead_maybe_commit lead_quorum_active lead_read_index : frame.

Lemma lead_append_response c m : (Message.reject m = false -> Message.index m <= 0 \/ acked g (Message.from m) (Message.index m) τ) ->
  pres (keeps (leading τ c)) (handle_append_response (T:=T) m).
Proof using Type* HV.
  intros Hm. unfold handle_append_response, send_timeout_now.
  assert (Message.reject m = false -> pres (keeps (tracked g τ (Message.from m))) (Progress.maybe_update (Message.index m))) as Hup.
  { intros Hr. by apply tracked_update, Hm. }
  destruct (Message.reject m); [clear Hup|specialize (Hup eq_refl)]; simpl; frame.
Qed.
Hint Resolve lead_append_response : frame.
End leader.
Hint Resolve lead_answer_reads lead_heartbeat_response lead_transfer_leader lead_snapshot_status lead_unreachable
  lead_quorum_active lead_read_index : frame.
Hint Extern 1 (idle_message _) => by split : frame.
Hint Extern 2 (pres (keeps (leading _ _)) (on_progress _ _)) => solve [apply lead_progress; frame] : frame.

(** *** A node that is not leader *)
Definition resting s : Prop := sound s /\ state (r s) <> Leader.

Lemma resting_assign s f : let s' := s <| r := f |> in raft_log f = raft_log (r s) -> state f = state (r s) -> term f = term (r s) ->
  id f = id (r s) -> batch_append f = batch_append (r s) -> read_only f = read_only (r s) -> keeps resting s s'.
Proof.
  intros s' ? Hst ? ? ? Hro [Hs Hl]. split; [|subst s'; fields; by rewrite Hst]. apply (sound_same s); try done; subst s'; fields; rewrite ?Hro.
  - by apply so_reads.
  - by apply so_msgs.
Qed.
Lemma rest_reading {A} (m : Prog (RaftLog.t T) A) : pres reads m -> pres (keeps resting) (on_log m).
Proof. intros Hm. eapply pres_zoom; [exact Hm|]. intros s l Hr (Hs & Hl). split; [by apply sound_reads|done]. Qed.
Lemma rest_ask {A} (f : RaftLog.t T -> outcome A) : pres (keeps resting) (ask_log f).
Proof. unfold ask_log. frame. Qed.
Lemma rest_send_truthful m s u s' : resting s -> (forall m', stamped (r s) m m' -> says V g K (r s) m') ->
  send (T:=T) m s = Ret (u, s') -> resting s'.
Proof.
  intros (Hs & Hl) Hm E. unfold send in E. apply bind_inv in E as (s0 & ? & [-> ->]%get_inv & E).
  apply zoom_inv in E as (ms & (m' & -> & Hst)%sending_stamped & ->). split; [|done]. apply sound_send; auto.
Qed.
Lemma rest_send m : idle_message m -> pres (keeps resting) (send (T:=T) m).
Proof. intros Hm s u s' E Hs. eapply rest_send_truthful; [done| |done]. intros m' Hm'. by eapply says_idle, idle_stamped. Qed.
Hint Extern 1 (keeps resting _ _) => by apply resting_assign : frame.
Hint Resolve rest_reading rest_ask rest_send : frame.

(** The positions of a log move. *)
Lemma rest_committed s l c : log_ok (raft_log (r s)) -> commit s <= c <= ALog.last (log s) -> decided V g (log s) c ->
  l = (raft_log (r s)) <| RaftLog.committed := c |> -> resting s -> resting (s <| r := (r s) <| raft_log := l |> |>).
Proof.
  intros Hok Hc Hd -> [[] Hl]. split; [|done]. split; fields; rewrite ?view_committed; try done.
  - by apply committed_ok.
  - intros k rs Hk. specialize (so_reads0 k rs Hk). lia.
Qed.
Lemma rest_maybe_commit i t s b s' : t <> 0 -> resting s ->
  (forall e, entry (log s) i = Some e -> Entry.term e = t -> decided V g (log s) i) ->
  on_log (RaftLog.maybe_commit i t) s = Ret (b, s') -> resting s'.
Proof.
  intros Ht Hs Hd E. unfold on_log in E. apply zoom_inv in E as (l & E & ->). pose proof (so_ok _ (proj1 Hs)) as Hok.
  apply maybe_commit_cases in E as [->|(Hlt & -> & e & He & Hte)]; [by destruct s as [? ? [] ?]| |done..].
  pose proof (entry_bounds _ _ _ (sound_rooted _ (proj1 Hs)) He). eapply rest_committed; [done| |by eapply Hd|done|done]. lia.
Qed.

Lemma reset_forgets t s u s' : reset t s = Ret (u, s') -> ReadOnly.pending_read_index (read_only (r s')) = ∅ /\
  forall v p, ProgressTracker.progress (prs s') !! v = Some p ->
    Progress.matched p = if v =? id (r s) then RaftLog.persisted (raft_log (r s)) else 0.
Proof.
  unfold reset, reset_randomized_election_timeout, abort_leader_transfer, on_prs, ask_log. intros E.
  prog_inv; fields; (split; [done|]); intros v p; fields; unfold ProgressTracker.reset_votes; fields;
    rewrite map_lookup_imap; (destruct (ProgressTracker.progress (prs s) !! v) as [q|]; simpl; [|done]); intros [= <-];
    unfold reset_progress; by destruct (v =? _).
Qed.

(** A node that starts over in a term, other than as leader. *)
Lemma reset_rests t s u s1 s' : term (r s) <= t -> reset t s = Ret (u, s1) -> sound s ->
  raft_log (r s') = raft_log (r s1) -> term (r s') = term (r s1) -> id (r s') = id (r s1) ->
  batch_append (r s') = batch_append (r s1) -> read_only (r s') = read_only (r s1) -> prs s' = prs s1 -> msgs s' = msgs s1 ->
  state (r s') <> Leader -> (state (r s') = Candidate -> cand g (id (r s)) t = log s) ->
  resting s' /\ raft_log (r s') = raft_log (r s) /\ term (r s') = t /\ id (r s') = id (r s).
Proof.
  intros Ht E Hs El Et Ei Eb Ero Ep Em Hl Hc. pose proof (reset_forgets _ _ _ _ E) as [Hro _]. apply reset_inv in E. destruct E.
  assert (raft_log (r s') = raft_log (r s) /\ term (r s') = t /\ id (r s') = id (r s)) as (Hlog & Hterm & Hid) by by split_and!; congruence.
  split; [|done]. split; [|done]. destruct Hs. split; rewrite ?Hlog, ?Hterm, ?Hid, ?Eb, ?Em, ?Ep, ?wr_batch, ?wr_conf, ?wr_msgs; try done.
  - intros n e He. specialize (so_terms0 n e He). lia.
  - intros k rs. by rewrite Ero, Hro, lookup_empty.
  - intros m Hin. eapply says_later; [exact Hid|lia|auto].
Qed.

Lemma become_follower_sound t l s u s' : term (r s) <= t -> become_follower t l s = Ret (u, s') -> sound s ->
  resting s' /\ raft_log (r s') = raft_log (r s) /\ term (r s') = t /\ id (r s') = id (r s) /\ state (r s') = Follower.
Proof.
  intros Ht E Hs. unfold become_follower in E. apply bind_inv in E as (s0 & ? & [-> ->]%get_inv & E).
  apply bind_inv in E as (u1 & s1 & Er & E). prog_inv. fields.
  eapply reset_rests in Er as (Hr & Hl & Hterm & Hid); [split_and!; [exact Hr|exact Hl|exact Hterm|exact Hid|reflexivity]|..]; done.
Qed.

(** *** New entries of a leader *)
Lemma append_entry_frame es s b s' : append_entry es s = Ret (b, s') -> exists l u,
  s' = s <| r := (r s) <| uncommitted_state := u |> <| raft_log := l |> |> /\
  RaftLog.committed l = commit s /\ RaftLog.persisted l = RaftLog.persisted (raft_log (r s)).
Proof.
  unfold append_entry, maybe_increase_uncommitted_size, on_log, ask_log. intros E. prog_inv.
  - exists (raft_log (r s)), x0. split; [|done]. destruct s as [? ? [] ?]. reflexivity.
  - match goal with Ea : RaftLog.append _ _ = Ret (_, ?l) |- _ => exists l; eexists; split; [reflexivity|];
      unfold RaftLog.append in Ea end. by prog_inv.
Qed.

Context (past : Z -> Z -> Prop) (acks : Z -> Z -> Z -> Prop) (Hok : history_ok V g past acks).

Lemma lead_append τ c es s b s' : leading τ c s -> room (len es) s -> append_entry es s = Ret (b, s') ->
  begins (log s') (led g τ) -> leading τ c s'.
Proof using Type* Hok.
  intros Hs Hroom E Hb. pose proof Hs as (Hs0 & Hl & Ht & Hc). pose proof (leading_term _ _ _ Hs) as Hlt.
  destruct (append_entry_created _ _ _ _ E Hroom Hl) as (es' & [_ Hlog _ _]).
  assert (log_ok (raft_log (r s'))) as Hok' 
    by (apply (e_log _ _ _ (proj1 (append_entry_evolve anything _ _ _ _ Logic.I E Hroom))), Hroom).
  apply append_entry_frame in E as (l & u & -> & Hcm & Hp). fields. rewrite Hlog in Hb.
  pose proof (ho_led _ _ _ _ Hok τ (proj1 (lt_terms _ _ _ _ Hlt))) as Hwl. pose proof (sound_rooted _ Hs0) as Hr.
  assert (rooted (view l)) as Hr' by (rewrite Hlog; by apply rooted_append).
  assert (decided V g (view l) (commit s)) as Hd.
  { rewrite Hlog. apply (decided_begins V g (log s)); [done|by apply rooted_append|by apply begins_append| |apply Hs0].
    pose proof (lo_committed _ (so_ok _ Hs0)). lia. }
  split; [|fields; by rewrite Hcm]. destruct Hs0. split; fields; rewrite ?Hcm; try done.
  - rewrite Hlog. by eapply begins_well_led.
  - intros n e He. rewrite Hlog in He. rewrite Ht. eapply (ho_terms _ _ _ _ Hok); [apply Hlt|by apply Hb].
  - intros _. destruct Hlt. split; [|by apply so_lead0]. rewrite Ht. split; fields; rewrite ?Hcm, ?Hp; try done.
    + by split; [|apply lt_rooted0].
    + by rewrite Hlog.
  - by rewrite Hl.
Qed.

Lemma become_leader_sound s u s' : resting s -> room 1 s -> state (r s) = Candidate -> become_leader s = Ret (u, s') ->
  term (r s) ∈ terms g -> 0 < term (r s) -> begins (log s') (led g (term (r s))) ->
  (forall n, n <= RaftLog.persisted (raft_log (r s')) -> acked g (id (r s)) n (term (r s))) -> leading (term (r s)) (commit s) s'.
Proof using Type* Hok.
  intros [Hs _] Hroom Hst E Hin Hpos Hb Hown. set (τ := term (r s)) in *.
  unfold become_leader, ask_log in E. apply bind_inv in E as (s0 & ? & [-> ->]%get_inv & E). apply bind_inv in E as (u1 & s1 & [_ ->]%assert_inv & E).
  apply bind_inv in E as (u2 & s1 & Er & E). pose proof (reset_forgets _ _ _ _ Er) as [Hro Hpr]. apply reset_inv in Er as Hreset. clear Er.
  apply bind_inv in E as (u3 & s2 & ->%modify_inv & E). apply bind_inv in E as (u4 & s2 & ->%modify_inv & E).
  apply bind_inv in E as (li & s2 & [_ ->]%asks_inv & E). apply bind_inv in E as (u5 & s2 & [_ ->]%assert_inv & E).
  apply bind_inv in E as (u6 & s2 & ->%modify_inv & E).
  match type of E with _ ?a = _ => set (s2 := a) in * end.
  assert (log s2 = log s /\ commit s2 = commit s /\ RaftLog.persisted (raft_log (r s2)) = RaftLog.persisted (raft_log (r s)) /\
    raft_log (r s2) = raft_log (r s)) as (Hv2 & Hc2 & Hp2 & Hl2)
    by (subst s2; fields; rewrite (wr_log _ _ _ Hreset); done).
  apply bind_inv in E as (u7 & s3 & Ep & E). apply bind_inv in E as (u8 & s4 & ->%modify_inv & E).
  apply bind_inv in E as (b & s5 & Ea & [_ <-]%assert_inv).
  assert (forall x, keeps (leading τ (commit s)) s3 x -> leading τ (commit s) s2 -> leading τ (commit s) x) as Hgo.
  { intros x Hx H2'. apply Hx. eapply (lead_progress τ (commit s)); [|exact Ep|exact H2']. apply pres_modify. by intros p Hp. }
  assert (raft_log (r s3) = raft_log (r s2)) as Hl3 by (unfold on_progress in Ep; by prog_inv).
  pose proof (append_entry_frame _ _ _ _ Ea) as (l & uu & Es' & _ & Hp').
  match type of Ea with append_entry _ ?a = _ => set (s4 := a) in *; assert (raft_log (r s4) = raft_log (r s)) as Hl4
    by (subst s4; fields; congruence) end.
  assert (room 1 s4) as Hroom4 by by eapply room_log.
  assert (state (r s4) = Leader) as Hst4 by (unfold on_progress in Ep; by prog_inv).
  assert (begins (log s4) (log s')) as Hb4.
  { destruct (append_entry_created _ _ _ _ Ea Hroom4 Hst4) as (es' & [_ -> _ _]). apply begins_append. }
  apply (lead_append τ (commit s) [Entry.default] s4 b); [|exact Hroom4|exact Ea|exact Hb]. apply Hgo.
  { unfold s4. by apply lead_assign. }
  assert (term (r s2) = τ /\ state (r s2) = Leader /\ id (r s2) = id (r s) /\ batch_append (r s2) = batch_append (r s) /\
    ProgressTracker.conf (prs s2) = ProgressTracker.conf (prs s) /\ msgs s2 = msgs s) as (Ht2 & Hst2 & Hid2 & Hb2 & Hcf2 & Hm2)
    by (subst s2; fields; destruct Hreset; by split_and!).
  assert (forall v p, ProgressTracker.progress (prs s2) !! v = Some p ->
    Progress.matched p = if v =? id (r s) then RaftLog.persisted (raft_log (r s)) else 0) as Hpr2 by (subst s2; fields; exact Hpr).
  assert (ReadOnly.pending_read_index (read_only (r s2)) = ∅) as Hro2 by (subst s2; fields; exact Hro).
  clearbody s2 s4. rewrite Es' in Hown. fields. rewrite Hp', Hl4 in Hown. rewrite Hl4 in Hb4.
  split; [|by rewrite Hc2]. destruct Hs. split; rewrite ?Hv2, ?Hc2, ?Ht2, ?Hst2, ?Hl2, ?Hb2, ?Hcf2, ?Hm2; try done.
  - intros _. split.
    + split; rewrite ?Ht2, ?Hst2, ?Hl2, ?Hb2, ?Hid2; try done.
      * split; [apply so_log0|]. apply (wl_rooted _ _ _ (ho_led _ _ _ _ Hok τ Hin)).
      * by eapply begins_trans.
    + intros v p Hp. unfold tracked. rewrite (Hpr2 v p Hp). destruct (Z.eqb_spec v (id (r s))) as [->|]; [right|by left]. apply Hown. lia.
  - intros k rs. by rewrite Hro2, lookup_empty.
  - intros m Hm. eapply says_later; [exact Hid2|rewrite Ht2; done|auto].
Qed.

(** *** Campaigns *)

(** What the record says of a node that is leader. *)
Definition crowned s : Prop := state (r s) = Leader -> term (r s) ∈ terms g /\ 0 < term (r s) /\
  begins (log s) (led g (term (r s))) /\
  forall n, n <= RaftLog.persisted (raft_log (r s)) -> acked g (id (r s)) n (term (r s)).
Definition may_run s : Prop := forall t, term (r s) < t -> cand g (id (r s)) t = log s.

Lemma leading_sound τ c s : leading τ c s -> sound s.
Proof. by intros []. Qed.

Lemma record_vote_rests i b s : resting s -> resting (s <| prs := ProgressTracker.record_vote i b (prs s) |>).
Proof.
  intros [Hs Hl]. split; [|done]. apply (sound_same s); try done; fields.
  - apply record_vote_conf.
  - by apply so_reads.
  - by apply so_msgs.
Qed.

(** What a poll does, by its result. *)
Lemma poll_with_cases c from ty v s res s' : poll_with c from ty v s = Ret (res, s') ->
  let s1 := s <| prs := ProgressTracker.record_vote from v (prs s) |> in
  match res with
  | Pending => s' = s1
  | Lost => exists u, become_follower (term (r s)) INVALID_ID s1 = Ret (u, s')
  | Won => (exists u, state (r s) = PreCandidate /\ c CAMPAIGN_ELECTION s1 = Ret (u, s')) \/
      exists u s2 u', state (r s) <> PreCandidate /\ become_leader s1 = Ret (u, s2) /\ bcast_append s2 = Ret (u', s')
  end.
Proof.
  unfold poll_with. intros (u1 & s1 & ->%modify_inv & E)%bind_inv. cbv zeta. set (s1 := s <| prs := _ |>) in *.
  apply bind_inv in E as (s1' & s2 & [-> ->]%get_inv & E). unfold ProgressTracker.tally_votes in E. cbv beta iota zeta in E.
  destruct (ProgressTracker.vote_result _ _) eqn:Ev; apply bind_inv in E as (u & s3 & E & [<- <-]%ret_inv).
  - by apply ret_inv in E as [_ <-].
  - by exists u.
  - destruct (bool_decide (state (r s1) = PreCandidate)) eqn:Es.
    + apply bool_decide_eq_true in Es. left. by exists u.
    + apply bool_decide_eq_false in Es. right. apply bind_inv in E as (u' & s4 & E1 & E2). exists u', s4, u. by split_and!.
Qed.

(** The leader that just won writes to its peers. *)
Lemma crowned_before s s' : quiet s s' -> log_ok (raft_log (r s)) -> crowned s' -> crowned s.
Proof.
  intros Hq Hl Hc. unfold crowned in *. destruct (reads_committed _ _ (q_log _ _ Hq) Hl) as (_ & Hp & Hv & _).
  rewrite (q_state _ _ Hq), (q_term _ _ Hq), Hp, Hv, (q_id _ _ Hq) in Hc. exact Hc.
Qed.

Lemma win_sound s u s2 u' s' : resting s -> room 1 s -> state (r s) = Candidate -> become_leader s = Ret (u, s2) ->
  bcast_append s2 = Ret (u', s') -> crowned s' -> leading (term (r s)) (commit s) s'.
Proof using Type* Hok.
  intros Hs Hroom Hst E1 E2 Hcr. pose proof (become_leader_evolve anything _ _ _ Logic.I Logic.I Hst Hroom E1) as (Hev & Ht & Hst2 & Hid & _).
  pose proof (bcast_append_pres _ _ _ E2) as Hq.
  assert (crowned s2) as Hc2 by (eapply crowned_before; [exact Hq|by apply (e_log _ _ _ Hev), Hroom|done]).
  destruct (Hc2 Hst2) as (Hin & Hpos & Hb & Hown). rewrite Ht, Hid in *.
  eapply (lead_bcast_append (term (r s)) (commit s)); [exact E2|]. by eapply become_leader_sound.
Qed.

(** The requests of a candidate. *)
Lemma request_votes_rest ty vt t n nt l s u s' : resting s ->
  (vt = MsgRequestVote /\ cand g (id (r s)) t = log s /\ t <= term (r s)) \/ vt = MsgRequestPreVote ->
  (n = 0 \/ exists e, entry (log s) n = Some e /\ Entry.term e = nt /\ decided V g (log s) n) ->
  for_each (request_vote ty vt t n nt) l s = Ret (u, s') -> resting s'.
Proof.
  intros Hs Hvt Hn E. set (i := id (r s)) in *. set (v := log s) in *. set (τ := term (r s)) in *.
  assert (keeps (fun s => resting s /\ log s = v /\ id (r s) = i /\ term (r s) = τ) s s') as Hk; [|by apply Hk].
  eapply (for_each_inv (keeps _)); [|exact E]. clear E. intros to s1 b s2 _ E (Hs1 & Hv & Hi & Hτ).
  unfold request_vote in E. apply bind_inv in E as (s0 & ? & [-> ->]%get_inv & E).
  destruct (to =? _); [by apply ret_inv in E as [_ <-]|]. unfold ask_log in E.
  apply bind_inv in E as (li & s3 & [El ->]%asks_inv & E). apply bind_inv in E as (lt & s3 & [Et ->]%asks_inv & E). cbv zeta in E.
  pose proof (so_ok _ (proj1 Hs1)) as Hok1. pose proof (sound_rooted _ (proj1 Hs1)) as Hr1.
  rewrite last_index_run in El by done. injection El as <-. apply last_term_inv in Et as ->; [|done..].
  assert (log s2 = log s1 /\ id (r s2) = id (r s1) /\ term (r s2) = term (r s1)) as (-> & -> & ->).
  { unfold send in E. apply bind_inv in E as (s0 & ? & [-> ->]%get_inv & E). apply zoom_inv in E as (ms & _ & ->). done. }
  split; [|done]. eapply rest_send_truthful; [exact Hs1| |exact E]. clear E. intros m' Hm'.
  match type of Hm' with stamped _ ?m _ => assert (Message.msg_type m = vt /\ Message.from m = INVALID_ID /\ Message.term m = t /\
    Message.index m = ALog.last (log s1) /\ Message.log_term m = last_term (log s1) /\ Message.commit m = n /\ Message.commit_term m = nt)
    as (M1 & M2 & M3 & M4 & M5 & M6 & M7) by (by destruct (bool_decide (ty = _))) end.
  destruct Hm' as [Hty _ Hfr Hte (Hix & Hlt & _) (Hc & Hct) _].
  rewrite M1 in Hty, Hte. rewrite M2, Z.eqb_refl in Hfr. rewrite M4 in Hix. rewrite M5 in Hlt. rewrite M6 in Hc. rewrite M7 in Hct. rewrite M3 in Hte.
  assert (tells_commit V g m') as Htc.
  { unfold tells_commit. rewrite Hc, Hct. destruct Hn as [->|(e & He & Hte' & Hd)]; [by left|right; right].
    exists v, e. split_and!; [|done..]. rewrite <-Hv. apply Hs1. }
  split; [split|].
  - intros [_ [Hx|[Hx _]]]; rewrite Hty in Hx; by destruct Hvt as [[-> _]| ->].
  - rewrite Hty. destruct Hvt as [[-> [Hcd _]]| ->]; [|done]. split; [|done]. destruct Hte as [Hte _].
    unfold tells_log. by rewrite Hix, Hlt, Hfr, Hte, Hi, Hcd, Hv.
  - intros Hx. destruct Hvt as [(-> & _ & Ht)| ->]; [|congruence]. destruct Hte as [Hte _]. split; [done|]. lia.
Qed.

Lemma become_candidate_rests s u s' : sound s -> fresh s -> may_run s -> become_candidate s = Ret (u, s') ->
  resting s' /\ raft_log (r s') = raft_log (r s) /\ term (r s') = term (r s) + 1 /\ id (r s') = id (r s) /\ state (r s') = Candidate.
Proof.
  intros Hs [Hu Hf] Hrun E. unfold become_candidate in E. apply bind_inv in E as (s0 & ? & [-> ->]%get_inv & E).
  apply bind_inv in E as (u0 & s0 & [_ ->]%assert_inv & E). apply bind_inv in E as (u1 & s1 & Er & E).
  rewrite u64_add_small in Er by u64_lia. prog_inv. fields.
  eapply reset_rests in Er as (Hr & Hl & Hterm & Hid); [split_and!; [exact Hr|exact Hl|exact Hterm|exact Hid|reflexivity]|..]; try done; [lia|].
  intros _. apply Hrun. lia.
Qed.

Lemma become_pre_candidate_rests s u s' : sound s -> become_pre_candidate s = Ret (u, s') ->
  resting s' /\ raft_log (r s') = raft_log (r s) /\ term (r s') = term (r s) /\ id (r s') = id (r s) /\ state (r s') = PreCandidate.
Proof.
  intros Hs E. unfold become_pre_candidate, on_prs in E. prog_inv. fields. split; [|done]. split; [|done]. destruct Hs.
  by split; fields.
Qed.

Lemma requests_rest ty (pre : bool) t s c u s' : resting s -> (pre = false -> cand g (id (r s)) t = log s /\ t <= term (r s)) ->
  RaftLog.commit_info (raft_log (r s)) = Ret c ->
  for_each (request_vote ty (if pre then MsgRequestPreVote else MsgRequestVote) t c.1 c.2)
    (Union.iter (Joint.ids (Configuration.voters (ProgressTracker.conf (prs s))))) s = Ret (u, s') -> resting s'.
Proof.
  intros Hs Hc Ei E. destruct c as [c ct]. pose proof (proj1 Hs) as [].
  apply commit_info_inv in Ei as [-> Hct]; [|done|by apply (sound_rooted _ (proj1 Hs))].
  eapply request_votes_rest; [exact Hs| | |exact E]; [destruct pre; [by right|left; auto]|].
  destruct Hct as [?|(e & He & Hte)]; [by left|right; by exists e].
Qed.

Lemma campaign_sound fuel ty s u s' : sound s -> fresh s -> room 1 s -> may_run s -> campaign fuel ty s = Ret (u, s') ->
  crowned s' -> sound s'.
Proof using Type* Hok.
  revert ty s u s'. induction fuel as [|fuel IH]; intros ty s u s' Hs Hf Hr Hrun E Hcr; [done|]. cbn [campaign] in E.
  apply bind_inv in E as ([vt t] & s1 & Eb & E). set (pre := bool_decide (ty = CAMPAIGN_PRE_ELECTION)) in *. clearbody pre.
  assert (resting s1 /\ raft_log (r s1) = raft_log (r s) /\ id (r s1) = id (r s) /\
    vt = (if pre then MsgRequestPreVote else MsgRequestVote) /\
    (if pre then state (r s1) = PreCandidate /\ term (r s1) = term (r s)
     else state (r s1) = Candidate /\ term (r s1) = t /\ cand g (id (r s1)) t = log s1)) as (Hs1 & Hlog & Hid & -> & Hpre).
  { destruct pre; apply bind_inv in Eb as (u1 & s1' & Eb & E1); apply bind_inv in E1 as (s0 & ? & [-> ->]%get_inv & [[= <- <-] <-]%ret_inv).
    - apply become_pre_candidate_rests in Eb as (? & ? & ? & ? & ?); [|done]. by split_and!.
    - apply become_candidate_rests in Eb as (? & Hl & Ht & Hi & Hc); [|done..]. split_and!; try done.
      rewrite Hi, Hl, Ht. apply Hrun. lia. }
  clear Eb. apply bind_inv in E as (s0 & ? & [-> ->]%get_inv & E). apply bind_inv in E as (res & s2 & Ep & E).
  assert (room 1 s1) as Hr1 by by eapply room_log.
  apply poll_with_cases in Ep. cbv zeta in Ep. set (s1' := s1 <| prs := _ |>) in *.
  pose proof (record_vote_rests (id (r s1)) true s1 Hs1 : resting s1') as Hs1'.
  assert (res <> Won -> resting s2 /\ raft_log (r s2) = raft_log (r s1) /\ id (r s2) = id (r s1) /\ term (r s2) = term (r s1)) as Hs2.
  { intros Hw. destruct res; [subst s2; by split_and!| |done]. destruct Ep as [u1 Ep].
    apply become_follower_sound in Ep as (? & ? & ? & ? & _); [done..|apply Hs1']. }
  case_bool_decide as Hw.
  - apply ret_inv in E as [_ <-]. subst res. destruct Ep as [(u1 & Hst & Ep)|(u1 & s3 & u2 & Hst & E1 & E2)].
    + destruct pre; [|destruct Hpre; congruence]. destruct Hpre as [_ Ht].
      eapply IH; [exact (proj1 Hs1')| |exact Hr1| |exact Ep|exact Hcr].
      * unfold fresh. change (term (r s1')) with (term (r s1)). by rewrite Ht.
      * intros t'. change (term (r s1) < t' -> cand g (id (r s1)) t' = log s1). rewrite Ht, Hid, Hlog. apply Hrun.
    + destruct pre; [destruct Hpre; congruence|]. eapply leading_sound, (win_sound s1' u1 s3); [exact Hs1'|exact Hr1|apply Hpre|done..].
  - destruct Hs2 as (Hs2 & Hl2 & Hi2 & Ht2); [congruence|]. unfold ask_log in E. apply bind_inv in E as ([c ct] & s3 & [Ec ->]%asks_inv & E).
    apply bind_inv in E as (s0 & ? & [-> ->]%get_inv & E). apply (requests_rest _ pre _ _ (c, ct)) in E; [apply E|done| |done].
    intros Hp. rewrite Hp in Hpre. destruct Hpre as (_ & Ht & Hc). rewrite Hi2, Hl2, Ht2, Ht. by split.
Qed.

Lemma hup_sound b s u s' : sound s -> fresh s -> room 1 s -> may_run s -> hup b s = Ret (u, s') -> crowned s' -> sound s'.
Proof using Type* Hok.
  intros Hs Hf Hr Hrun E Hcr. unfold hup in E. apply bind_inv in E as (s0 & ? & [-> ->]%get_inv & E).
  destruct (bool_decide _); [by apply ret_inv in E as [_ <-]|]. cbv zeta in E.
  apply bind_inv in E as (x & s1 & Ex & E). apply bind_inv in E as (ents & s2 & [_ ->]%lift_inv & E).
  apply zoom_inv in Ex as (l & Ex & ->). apply slice_pres in Ex. set (s1 := s <| r := _ |>) in *.
  assert (sound s1) as Hs1 by by apply sound_reads.
  assert (may_run s1) as Hrun1. { unfold may_run. subst s1. fields. by rewrite (reads_view _ _ Ex (so_ok _ Hs)). }
  assert (room 1 s1) as Hr1 by by eapply room_reads.
  destruct (negb _); [by apply ret_inv in E as [_ <-]|].
  destruct b; [|destruct (pre_vote _)]; by eapply campaign_sound.
Qed.
End node.
