(* ===== verification/Receives.v ===== *)
(** * What a node takes in ([raft.rs])

    The second half of [Provenance.v]: a node stays sound when it handles true messages
    and does its own work. *)

From S2P Require Import Prelude Proto Errors Util Inflights Progress Quorum Tracker ConfChange.
From S2P Require Import Log Unstable Storage RaftLog ReadOnly Config RaftCore Raft RaftFrame Writes RaftProps LogMatching Chosen Provenance.

(** ** Entries of the leader in a log *)
Section logs.
Context {T : Type} `{StorageLaws T} `{Codec} `{HashOrder} (V : Joint.Configuration) (g : ghost).
Context (past : Z -> Z -> Prop) (acks : Z -> Z -> Z -> Prop) (Hok : history_ok V g past acks).
Context (rl : RaftLog.t T) (m : Message.t) (Hlog : log_ok rl) (Hm : wf_msg m) (Hty : Message.msg_type m = MsgAppend).
Context (Hwl : well_led g (terms g) (view rl)) (Htell : tells_entries V g m).
Abbreviation τ := (Message.term m).
Abbreviation idx := (Message.index m).
Abbreviation es := (Message.entries m).
Abbreviation c := (first_mismatch (view rl) es).
Abbreviation after := (accepted_view rl idx es).

Lemma led_rooted : rooted (led g τ).
Proof using Hok Htell. apply (wl_rooted g (terms g)), Hok, Htell. Qed.

Lemma message_entry e : e ∈ es -> idx < Entry.index e <= idx + len es /\ entry (led g τ) (Entry.index e) = Some e.
Proof using Type*.
  intros (n & Hn)%list_elem_of_lookup. destruct (wm_entries _ Hm Hty) as (Hc & _). pose proof (contiguous_lookup _ _ _ _ Hc Hn) as Hi.
  pose proof (lookup_lt_Some _ _ _ Hn). split; [unfold len; lia|]. apply Htell. unfold ALog.at_index, index, log_of. simpl.
  rewrite (proj2 (Z.ltb_ge _ _)) by lia. rewrite <-Hn. f_equal. lia.
Qed.
Lemma message_position k : idx < k <= idx + len es -> exists e, e ∈ es /\ Entry.index e = k.
Proof using Type*.
  intros Hk. destruct (wm_entries _ Hm Hty) as (Hc & _).
  destruct (lookup_lt_is_Some_2 es (Z.to_nat (k - idx - 1))) as [e He]; [unfold len in Hk; lia|].
  exists e. split; [by eapply list_elem_of_lookup_2|]. rewrite (contiguous_lookup _ _ _ _ Hc He). lia.
Qed.

(** Where the log has the term of the leader's log it has its entries. *)
Lemma term_agrees n t : lterm (view rl) n = Some t -> t <> 0 -> (forall e, entry (led g τ) n = Some e -> Entry.term e = t) ->
  (exists e, entry (led g τ) n = Some e) -> forall k, k <= n -> entry (view rl) k = entry (led g τ) k.
Proof using Type*.
  intros Ht Hnz Hte [e He]. pose proof (wl_rooted _ _ _ Hwl) as Hr. pose proof (entry_bounds _ _ _ led_rooted He).
  assert (n <= ALog.last (view rl)) as Hn.
  { destruct (Z.le_gt_cases n (ALog.last (view rl))) as [|Hgt]; [done|]. unfold lterm in Ht.
    rewrite (proj2 (Z.leb_gt _ _) Hgt), andb_false_r in Ht. congruence. }
  destruct (lterm_inside (view rl) n) as (e' & He' & Ht'); [destruct Hr; lia|]. rewrite Ht in Ht'. injection Ht' as ->.
  eapply (well_led_agree g (terms g) (terms g)); [exact Hwl|apply Hok, Htell|exact He'|exact He|]. symmetry. auto.
Qed.

Context (Hacc : accepts (view rl) (RaftLog.committed rl) m).

Lemma agree_index k : k <= idx -> entry (view rl) k = entry (led g τ) k.
Proof using Type*.
  intros Hk. pose proof (wl_rooted _ _ _ Hwl) as Hr. destruct (Z.le_gt_cases k 0); [by rewrite !entry_before by (done || apply led_rooted)|].
  destruct Htell as (_ & Hte & Hle & _). pose proof (ac_matches _ _ _ Hacc) as Hmt. apply bool_decide_eq_true in Hmt.
  destruct (wm_entries _ Hm Hty) as (_ & _ & _ & [?|Hnz]); [lia|]. eapply term_agrees; [exact Hmt|done|done| |exact Hk].
  apply entry_here; [apply led_rooted|lia].
Qed.
Lemma agree_before k : k < c \/ c = 0 -> k <= idx + len es -> entry (view rl) k = entry (led g τ) k.
Proof using Type*.
  intros Hkc Hk. destruct (Z.le_gt_cases k idx) as [|Hki]; [by apply agree_index|].
  destruct (message_position k) as (e & He & Hek); [lia|]. destruct (message_entry e He) as [_ Hle]. rewrite Hek in Hle.
  destruct (wm_entries _ Hm Hty) as (Hc & _ & Hf & _). rewrite Forall_forall in Hf.
  destruct (mismatch_facts rl idx es (wm_index _ Hm) Hc) as (_ & Hmt & _).
  eapply (term_agrees k (Entry.term e)); [rewrite <-Hek; apply Hmt; [done|lia]|by apply Hf| |by exists e|done].
  intros e' He'. congruence.
Qed.

(** What is taken over agrees with the log of the leader. *)
Lemma after_agrees k : k <= idx + len es -> entry after k = entry (led g τ) k.
Proof using All.
  intros Hk. destruct (Z.eq_dec c 0) as [Hc|Hc].
  { unfold accepted_view. rewrite Hc. simpl. apply agree_before; auto. }
  destruct (Z.lt_ge_cases k c) as [Hkc|Hkc].
  - rewrite (proj1 (accepted_before rl m Hlog Hm Hty Hacc Hc k Hkc)). apply agree_before; auto.
  - rewrite (accepted_beyond rl m Hlog Hm Hty Hacc Hc k Hkc). pose proof (conflict_bounds rl m Hlog Hm Hty Hacc Hc).
    destruct (message_position k) as (e & He & <-); [lia|]. destruct (message_entry e He) as [_ ->].
    destruct (list_elem_of_lookup_1 _ _ He) as (n & Hn). destruct (wm_entries _ Hm Hty) as (Hcg & _).
    pose proof (contiguous_lookup _ _ _ _ Hcg Hn). unfold ALog.at_index, index, log_of. simpl.
    rewrite (proj2 (Z.ltb_ge _ _)) by lia. rewrite <-Hn. f_equal. lia.
Qed.
Lemma after_beyond k : c <> 0 -> idx + len es < k -> entry after k = None.
Proof using All.
  intros Hc Hk. destruct (wm_entries _ Hm Hty) as (Hcg & Hb & Hf & _).
  pose proof (accepted_last rl idx es Hlog (wm_index _ Hm) Hcg Hb (proj2 (ac_index _ _ _ Hacc)) Hf (ac_conflict _ _ _ Hacc)) as Hl.
  rewrite (proj2 (Z.eqb_neq _ _) Hc) in Hl. apply at_index_None. lia.
Qed.
Lemma after_rooted : rooted after.
Proof using All. pose proof (wl_rooted _ _ _ Hwl). unfold accepted_view. by destruct (c =? 0). Qed.

Lemma after_led : c = 0 \/ begins after (led g τ).
Proof using All.
  destruct (Z.eq_dec c 0) as [|Hc]; [by left|right]. intros k e He. destruct (Z.le_gt_cases k (idx + len es)).
  - by rewrite <-after_agrees.
  - by rewrite after_beyond in He.
Qed.
Lemma after_well_led : well_led g (terms g) after.
Proof using All.
  destruct after_led as [E|Hb]; [unfold accepted_view; by rewrite E|]. eapply begins_well_led; [apply after_rooted|exact Hb|].
  apply Hok, Htell.
Qed.
Lemma after_terms u n e : τ <= u -> (forall n e, entry (view rl) n = Some e -> Entry.term e <= u) -> entry after n = Some e -> Entry.term e <= u.
Proof using All.
  intros Hu Hv He. destruct after_led as [E|Hb]; [unfold accepted_view in He; rewrite E in He; by eapply Hv|].
  apply Hb, (ho_terms _ _ _ _ Hok) in He; [lia|apply Htell].
Qed.
Lemma after_overwritten : c <> 0 -> overwritten g (view rl) τ c after.
Proof using All.
  intros Hc. pose proof (conflict_bounds rl m Hlog Hm Hty Hacc Hc) as Hcb. destruct (wm_entries _ Hm Hty) as (Hcg & _). split.
  - intros k Hk. apply (accepted_before rl m Hlog Hm Hty Hacc Hc k Hk).
  - intros k e _ He. destruct after_led as [?|Hb]; [done|by apply Hb].
  - destruct (message_position c) as (e & He & Hec); [lia|]. destruct (message_entry e He) as [_ Hle]. rewrite Hec in Hle. rewrite Hle.
    intros Hv. destruct (mismatch_facts rl idx es (wm_index _ Hm) Hcg) as (_ & _ & Hne). apply (Hne e He Hec).
    pose proof (entry_bounds _ _ _ (wl_rooted _ _ _ Hwl) Hv). pose proof (wl_rooted _ _ _ Hwl) as [Hb _].
    destruct (lterm_inside (view rl) c) as (e' & He' & ->); [lia|]. congruence.
Qed.
Lemma after_committed k : k <= RaftLog.committed rl -> entry after k = entry (view rl) k.
Proof using All.
  intros Hk. destruct (Z.eq_dec c 0) as [E|Hc]; [unfold accepted_view; by rewrite E|].
  pose proof (conflict_bounds rl m Hlog Hm Hty Hacc Hc). apply (accepted_before rl m Hlog Hm Hty Hacc Hc). lia.
Qed.
Lemma after_decided : decided V g (view rl) (RaftLog.committed rl) ->
  decided V g after (Z.max (RaftLog.committed rl) (Z.min (Message.commit m) (idx + len es))).
Proof using All.
  intros Hd. destruct (Z.max_spec (RaftLog.committed rl) (Z.min (Message.commit m) (idx + len es))) as [[_ ->]|[_ ->]].
  - eapply decided_same; [|eapply decided_le; [|apply Htell]; lia]. intros k Hk. apply after_agrees. lia.
  - eapply decided_same; [|exact Hd]. apply after_committed.
Qed.
End logs.

(** ** A node *)
Section node.
Context {T : Type} `{StorageLaws T} `{Codec} `{HashOrder} `{ConfigurationDebug} `{Rng}.
Context (V : Joint.Configuration) (g : ghost) (K : Message.t -> Prop) (past : Z -> Z -> Prop) (acks : Z -> Z -> Z -> Prop).
Context (HV : Majority.voters (Joint.incoming V) <> ∅) (Hok : history_ok V g past acks) (Hpos : forall t, t ∈ terms g -> 0 < t).
Import RaftCore Raft.
#[local] Set Default Proof Using "All".
Implicit Types s : Raft.t T.
Abbreviation log s := (view (raft_log (r s))).
Abbreviation commit s := (RaftLog.committed (raft_log (r s))).
Abbreviation sound := (sound V g K).
Abbreviation resting := (resting V g K).
Abbreviation leading := (leading V g K).
Abbreviation truthful := (truthful V g K).

Hint Resolve rest_reading rest_ask rest_send : frame.
Hint Extern 1 (keeps (Provenance.resting _ _ _) _ _) => by apply resting_assign : frame.
Hint Extern 1 (idle_message _) => by split : frame.
Hint Resolve lead_ask lead_bcast_append lead_bcast_heartbeat lead_heartbeat_response lead_transfer_leader lead_snapshot_status
  lead_unreachable lead_quorum_active lead_read_index : frame.
Hint Extern 1 (keeps (Provenance.leading _ _ _ _ _) _ _) => by apply lead_assign : frame.

(** *** Commit indexes that messages tell *)
Lemma told_decided m s e : tells_commit V g m -> sound s -> Message.commit m <> 0 -> Message.commit_term m <> 0 ->
  entry (log s) (Message.commit m) = Some e -> Entry.term e = Message.commit_term m -> decided V g (log s) (Message.commit m).
Proof.
  intros [?|[?|(v & e' & Hv & Hd & He' & Ht')]] Hs Hc Hct He Ht; [done..|]. eapply decided_same; [|exact Hd].
  eapply (well_led_agree g (terms g) (terms g)); [apply Hs|exact Hv|exact He|exact He'|congruence].
Qed.

Lemma commit_by_vote_sound m s u s' : tells_commit V g m -> sound s -> maybe_commit_by_vote m s = Ret (u, s') -> sound s'.
Proof.
  intros Htc Hs E. destruct (decide (state (r s) = Leader)) as [Hl|Hl]; [by apply maybe_commit_by_vote_leader in E as ->|].
  unfold maybe_commit_by_vote in E. destruct (_ || _) eqn:Ez; [by apply ret_inv in E as [_ <-]|].
  apply orb_false_iff in Ez as [Hc%Z.eqb_neq Hct%Z.eqb_neq]. apply bind_inv in E as (s0 & ? & [-> ->]%get_inv & E). cbv zeta in E.
  destruct (_ || _); [by apply ret_inv in E as [_ <-]|]. apply bind_inv in E as (b & s1 & E1 & E).
  apply (rest_maybe_commit V g K) in E1 as Hs1; [|done|by split|intros e He Ht; by eapply told_decided].
  destruct (negb b); [apply ret_inv in E as [_ <-]; apply Hs1|]. destruct (_ && _); [apply ret_inv in E as [_ <-]; apply Hs1|].
  apply bind_inv in E as (l & s2 & [-> ->]%gets_inv & E). apply bind_inv in E as (x & s2 & E2 & E).
  apply (rest_reading V g K) in E2; [|apply slice_pres]. specialize (E2 Hs1). apply bind_inv in E as (ents & s3 & [_ ->]%lift_inv & E).
  destruct (negb _); [|apply ret_inv in E as [_ <-]; apply E2]. apply bind_inv in E as (s0 & ? & [-> ->]%get_inv & E).
  by apply (become_follower_sound V g K) in E as [[? _] _]; [|done|apply E2].
Qed.

(** *** Votes *)
Lemma grants_vote_newer m s b s1 : sound s -> grants_vote m s = Ret (b, s1) -> s1 = s /\ (b = true -> forall w,
  Message.index m = ALog.last w -> Message.log_term m = last_term w -> newer (log s) w).
Proof.
  intros Hs E. unfold grants_vote, ask_log in E. apply bind_inv in E as (s0 & ? & [-> ->]%get_inv & E).
  destruct (negb _); [by apply ret_inv in E as [<- <-]|]. apply bind_inv in E as (up & s2 & [Eu ->]%asks_inv & E).
  destruct up; cbn [negb] in E; [|by apply ret_inv in E as [<- <-]]. apply bind_inv in E as (li & s2 & [_ ->]%asks_inv & E).
  apply ret_inv in E as [_ <-]. split; [done|]. intros _ w Hi Ht. unfold RaftLog.is_up_to_date in Eu.
  destruct (RaftLog.last_term _) as [t| |] eqn:Et; try done. apply last_term_inv in Et as ->; [|apply Hs|by eapply sound_rooted]. cbn [mbind outcome_bind] in Eu.
  destruct (Z.ltb_spec (last_term (log s)) (Message.log_term m)); [left; lia|].
  rewrite last_index_run in Eu by apply Hs. injection Eu as [Heq%Z.eqb_eq Eu%Z.leb_le]%andb_true_iff. right. lia.
Qed.

(** The vote response. *)
Lemma send_vote_sound m s u s' : sound s -> (forall m', stamped (r s) m m' -> says V g K (r s) m') -> send (T:=T) m s = Ret (u, s') ->
  sound s' /\ r s' = r s.
Proof.
  intros Hs Hm E. unfold send in E. apply bind_inv in E as (s0 & ? & [-> ->]%get_inv & E).
  apply zoom_inv in E as (ms & (m' & -> & Hst)%sending_stamped & ->). split; [|done]. apply sound_send; auto.
Qed.
Lemma sound_assign s f : sound s -> raft_log f = raft_log (r s) -> state f = state (r s) -> term f = term (r s) ->
  id f = id (r s) -> batch_append f = batch_append (r s) -> read_only f = read_only (r s) -> sound (s <| r := f |>).
Proof.
  intros Hs ? ? ? ? ? Hro. apply (sound_same V g K s); try done; fields; rewrite ?Hro.
  - intros Hl. by apply (so_lead _ _ _ _ Hs).
  - apply (so_reads _ _ _ _ Hs).
  - apply (so_msgs _ _ _ _ Hs).
Qed.

Lemma handle_vote_request_sound m s u s' : is_vote_request (Message.msg_type m) = true -> sound s ->
  (Message.msg_type m = MsgRequestVote -> tells_log g m) -> tells_commit V g m ->
  (forall m', Message.msg_type m' = MsgRequestVoteResponse -> Message.reject m' = false -> Message.from m' = id (r s) ->
    Message.to m' = Message.from m -> Message.term m' = Message.term m -> Message.term m <> 0 -> Message.msg_type m = MsgRequestVote ->
    newer (log s) (cand g (Message.from m) (Message.term m)) -> K m') ->
  handle_vote_request m s = Ret (u, s') -> sound s'.
Proof.
  intros Hv Hs Htl Htc HK E. unfold handle_vote_request in E. apply bind_inv in E as (gr & s1 & Eg & E).
  apply grants_vote_newer in Eg as [-> Hnew]; [|done]. apply bind_inv in E as (ty & s1 & [Ety ->]%lift_inv & E). cbv zeta in E.
  assert (is_vote_response ty = true /\ (ty = MsgRequestVoteResponse \/ ty = MsgRequestPreVoteResponse) /\
    (ty = MsgRequestVoteResponse -> Message.msg_type m = MsgRequestVote)) as (Hresp & Hty & Hty')
    by (destruct (Message.msg_type m); try done; injection Ety as <-; by split_and!; auto).
  assert (forall x m', stamped (r s) x m' -> Message.msg_type x = ty -> tells_commit V g x -> (confirms m' -> K m') -> says V g K (r s) m') as Hsay.
  { intros x m' [Hx _ _ _ _ (Hc & Hct) _] Hxt Hxc Hk. apply says_other; [|intros Hq; destruct Hty; congruence]. split; [done|]. rewrite Hx, Hxt.
    assert (tells_commit V g m') by (unfold tells_commit in *; by rewrite Hc, Hct). by destruct Hty as [-> | ->]. }
  destruct gr.
  - specialize (Hnew eq_refl). apply bind_inv in E as (u1 & s1 & E1 & E). apply send_vote_sound in E1 as [Hs1 Hr1]; [|done|].
    + apply when_inv in E as [[_ E]|[_ ->]]; [|done]. prog_inv. do 2 (apply sound_assign; try done).
    + intros m' Hm'. eapply Hsay; [exact Hm'|done|by left|]. destruct Hm' as [Hx Hto Hfr Hterm _ _ Hrej].
      unfold new_message in *. fields. rewrite Z.eqb_refl in Hfr. intros [_ [Hc|[Hc _]]].
      * rewrite Hx in Hc. specialize (Hty' Hc). rewrite Hresp, orb_true_r in Hterm. destruct Hterm as [Hterm Hnz].
        apply HK; try done; [by rewrite Hx|]. destruct (Htl Hty') as [Hi Hlt]. by apply Hnew.
      * rewrite Hx in Hc. by destruct Hty; congruence.
  - apply bind_inv in E as (s0 & ? & [-> ->]%get_inv & E). unfold ask_log in E. apply bind_inv in E as ([c ct] & s1 & [Ec ->]%asks_inv & E).
    apply commit_info_inv in Ec as [-> Hct]; [|apply Hs|by eapply sound_rooted]. apply bind_inv in E as (u1 & s1 & E1 & E).
    apply send_vote_sound in E1 as [Hs1 Hr1]; [by eapply commit_by_vote_sound|done|].
    intros m' Hm'. eapply Hsay; [exact Hm'|done| |].
    + destruct Hct as [?|(e & He & Hte)]; [by left|right; right]. exists (log s), e. fields. split_and!; [apply Hs|apply Hs|done..].
    + destruct Hm' as [_ _ _ _ _ _ Hrej]. fields. intros [Hx _]. congruence.
Qed.

(** *** Entries and heartbeats of the leader *)

(** [K] explains the acknowledgements of the node in its state. *)
Definition explains s : Prop := forall m, Message.msg_type m = MsgAppendResponse -> Message.reject m = false -> 0 < Message.index m ->
  Message.from m = id (r s) -> Message.term m = term (r s) -> term (r s) ∈ terms g ->
  holds V g (log s) (term (r s)) (Message.index m) -> K m.
Lemma explains_core s s' : r s' = r s -> explains s' -> explains s.
Proof. unfold explains. by intros ->. Qed.

Lemma send_ack_rests m s u s' : resting s -> Message.msg_type m = MsgAppendResponse -> Message.from m = INVALID_ID ->
  (Message.reject m = true \/ (term (r s) ∈ terms g /\ holds V g (log s) (term (r s)) (Message.index m))) -> explains s' ->
  send m s = Ret (u, s') -> resting s'.
Proof.
  intros Hs Hty Hfr Hm HK E. assert (r s' = r s) as Hr.
  { unfold send in E. apply bind_inv in E as (s0 & ? & [-> ->]%get_inv & E). by apply zoom_inv in E as (ms & _ & ->). }
  apply (explains_core s) in HK; [|done]. eapply rest_send_truthful; [exact Hs| |exact E].
  intros m' [Hx _ Hf Ht (Hi & _) _ Hrej]. rewrite Hty in *. simpl in Ht. destruct Ht as [?|[?|Ht]]; [done..|].
  rewrite Hfr, Z.eqb_refl in Hf. apply says_other; [|congruence]. split; [|by rewrite Hx]. intros [Hr' [?|[_ Hpos']]]; [congruence|].
  destruct Hm as [?|[Hin Hh]]; [congruence|]. apply HK; try done. by rewrite Hi.
Qed.

Lemma send_request_snapshot_rests : pres (keeps resting) (send_request_snapshot (T:=T)).
Proof.
  unfold send_request_snapshot.
  assert (forall m, Message.msg_type m = MsgAppendResponse -> Message.reject m = true -> idle_message m) as Hm
    by (intros m Ht Hr; unfold idle_message; rewrite Ht; by split; [|left]).
  frame. by apply rest_send, Hm.
Qed.

Lemma maybe_append_rests m s res s' : wf_msg m -> Message.msg_type m = MsgAppend -> sound s -> state (r s) = Follower ->
  tells_entries V g m -> Message.term m = term (r s) -> commit s <= Message.index m ->
  on_log (RaftLog.maybe_append (Message.index m) (Message.log_term m) (Message.commit m) (Message.entries m)) s = Ret (res, s') ->
  resting s' /\ id (r s') = id (r s) /\ term (r s') = term (r s) /\
  match res with Some (_, n) => holds V g (log s') (term (r s')) n | None => True end.
Proof.
  intros Hm Hty Hs0 Hst Htell Ht Hci E. destruct (wm_entries _ Hm Hty) as (Hc & Hb & Hf & Ht'). pose proof (wm_index _ Hm) as Hidx.
  unfold on_log in E. apply zoom_inv in E as (l & E & ->). pose proof (so_ok _ _ _ _ Hs0) as Hlog.
  assert (l = raft_log (r s) -> resting (s <| r := (r s) <| raft_log := l |> |>)) as Hsame.
  { intros ->. assert (s <| r := (r s) <| raft_log := raft_log (r s) |> |> = s) as -> by (by destruct s as [? ? [] ?]). split; [done|congruence]. }
  destruct (Z.le_gt_cases (Message.index m) (ALog.last (log s))) as [Hle|Hgt].
  2: { rewrite maybe_append_beyond in E by done. injection E as <- <-. split; [by apply Hsame|done]. }
  rewrite maybe_append_run in E by done. cbv zeta in E. destruct (matches _ _ _) eqn:Em; cbn [negb] in E.
  2: { injection E as <- <-. split; [by apply Hsame|done]. }
  clear Hsame. destruct (_ && _) eqn:Ec; [done|]. injection E as <- <-. set (c := first_mismatch _ _) in *.
  assert (c = 0 \/ commit s < c) as Hcase.
  { apply andb_false_iff in Ec as [Ec|Ec]; [left; by apply negb_false_iff, Z.eqb_eq in Ec|right; by apply Z.leb_gt in Ec]. }
  assert (accepts (log s) (commit s) m) as Hacc by by split.
  destruct (accept_append_ok _ _ (Message.commit m) _ Hlog Hidx Hc Hb Hle Hf Hcase) as (Hok' & Hv & Hlast). fields.
  pose proof (after_agrees V g past acks Hok _ m Hlog Hm Hty (so_log _ _ _ _ Hs0) Htell Hacc) as Hagree.
  assert (RaftLog.committed (accept_append (raft_log (r s)) (Message.index m) (Message.commit m) (Message.entries m)) =
    Z.max (commit s) (Z.min (Message.commit m) (Message.index m + len (Message.entries m)))) as Hcm
    by (unfold accept_append; by destruct (_ =? 0)).
  split; [|split; [done|split; [done|]]].
  - split; [|fields; congruence]. destruct Hs0. split; fields; rewrite ?Hv, ?Hcm; try done.
    + by apply (after_well_led V g past acks).
    + intros n e He. eapply (after_terms V g past acks Hok (raft_log (r s)) m); [done..| |exact so_terms|exact He]. lia.
    + by apply (after_decided V g past acks).
    + congruence.
    + congruence.
    + intros k rs Hk. specialize (so_reads k rs Hk). lia.
  - rewrite Hv. apply (holds_led V g past acks HV Hok). intros k Hk. rewrite Hagree by lia. rewrite <-Ht.
    destruct (entry_here (accepted_view (raft_log (r s)) (Message.index m) (Message.entries m)) k) as [e He];
      [exact (after_rooted V g past acks Hok _ m Hlog Hm Hty (so_log _ _ _ _ Hs0) Htell Hacc)|lia|]. rewrite Hagree in He by lia. by exists e.
Qed.

Lemma handle_append_entries_rests m s u s' : wf_msg m -> Message.msg_type m = MsgAppend -> sound s -> state (r s) = Follower ->
  tells_entries V g m -> Message.term m = term (r s) -> explains s' -> handle_append_entries m s = Ret (u, s') -> resting s'.
Proof.
  intros Hm Hty Hs Hst Htell Ht HK E. assert (resting s) as Hrest by (split; [done|congruence]).
  unfold handle_append_entries in E. apply bind_inv in E as (s0 & ? & [-> ->]%get_inv & E). cbv zeta in E.
  destruct (negb _); [by eapply send_request_snapshot_rests|].
  destruct (Z.ltb_spec (Message.index m) (commit s)).
  { refine (send_ack_rests _ _ _ _ Hrest _ _ _ HK E); [done..|]. right. split; [rewrite <-Ht; apply Htell|].
    apply (holds_decided V g past acks HV Hok), Hs. }
  apply bind_inv in E as (res & s1 & E1 & E). apply maybe_append_rests in E1 as (Hs1 & Hid & Hterm & Hh); [|done..|lia].
  apply bind_inv in E as (x & s2 & E2 & E). assert (resting s2 /\ r s2 = r s1 /\ Message.msg_type x = MsgAppendResponse /\
    Message.from x = INVALID_ID /\ (Message.reject x = true \/ (term (r s2) ∈ terms g /\ holds V g (log s2) (term (r s2)) (Message.index x))))
    as (Hs2 & Hr2 & Hx & Hfr & Hack).
  { destruct res as [[p n]|]; unfold ask_log in E2; prog_inv; (split; [done|]); (split_and!; [done..|]); fields; [right|by left..].
    split; [rewrite Hterm, <-Ht; apply Htell|done]. }
  apply bind_inv in E as (l & s3 & [-> ->]%gets_inv & E). by refine (send_ack_rests _ _ _ _ Hs2 _ _ _ HK E).
Qed.

Lemma handle_heartbeat_rests m s u s' : resting s -> (RaftLog.committed (raft_log (r s)) < Message.commit m -> decided V g (log s) (Message.commit m)) ->
  handle_heartbeat m s = Ret (u, s') -> resting s'.
Proof.
  intros Hs Hd E. unfold handle_heartbeat in E. apply bind_inv in E as (u1 & s1 & E1 & E).
  assert (resting s1) as Hs1.
  { unfold on_log in E1. apply zoom_inv in E1 as (l & E1 & ->). pose proof (so_ok _ _ _ _ (proj1 Hs)) as Hlog.
    destruct u1. pose proof (good_commit_to _ _ _ Hlog E1) as Hg. apply commit_to_cases in E1 as [->|(Hlt & ->)]; [by destruct s as [? ? [] ?]|].
    pose proof (lo_committed _ (proj1 Hg)) as Hb. rewrite view_committed in Hb. simpl in Hb.
    eapply rest_committed; [done| |by apply Hd|done|done]. lia. }
  revert Hs1. change (keeps resting s1 s'). pose proof send_request_snapshot_rests. call_frame (keeps resting) E. frame.
Qed.

(** *** Messages of a node in its term *)

(** What a node relies on in a message that it handles in its term. *)
Record attends s (m : Message.t) : Prop := {
  at_append : Message.msg_type m = MsgAppend -> tells_entries V g m /\ Message.term m = term (r s);
  at_heartbeat : Message.msg_type m = MsgHeartbeat -> commit s < Message.commit m -> decided V g (log s) (Message.commit m);
  at_ack : Message.msg_type m = MsgAppendResponse -> Message.reject m = false ->
    Message.index m <= 0 \/ acked g (Message.from m) (Message.index m) (term (r s));
  at_read : Message.msg_type m = MsgReadIndexResp ->
    Message.index m <= 0 \/ (Message.term m ∈ terms g /\ decided V g (led g (Message.term m)) (Message.index m));
  at_vote : is_vote_response (Message.msg_type m) = true -> tells_commit V g m;
  at_snapshot : Message.msg_type m <> MsgSnapshot
}.
Lemma attends_core s s' m : raft_log (r s') = raft_log (r s) -> term (r s') = term (r s) -> attends s m -> attends s' m.
Proof. intros El Et []. split; rewrite ?El, ?Et; done. Qed.

(** What the record is to say of the node afterwards. *)
Record recorded s : Prop := {
  rc_crowned : crowned g s;
  rc_explains : explains s
}.

Lemma poll_sound from ty v s res s' : resting s -> (state (r s) = Candidate \/ state (r s) = PreCandidate) -> fresh s -> room 1 s ->
  may_run g s -> poll from ty v s = Ret (res, s') -> crowned g s' -> sound s'.
Proof.
  intros Hs Hst Hf Hr Hrun E Hcr. unfold poll in E. apply poll_with_cases in E. cbv zeta in E. set (s1 := s <| prs := _ |>) in *.
  pose proof (record_vote_rests V g K from v s Hs : resting s1) as Hs1. destruct res.
  - subst s'. apply Hs1.
  - destruct E as [u E]. by apply (become_follower_sound V g K) in E as [[? _] _]; [|done|apply Hs1].
  - destruct E as [(u & _ & E)|(u & s2 & u' & Hp & E1 & E2)].
    + eapply (campaign_sound V g K past acks Hok _ _ s1); [apply Hs1|exact Hf|exact Hr|exact Hrun|exact E|exact Hcr].
    + eapply leading_sound, (win_sound V g K past acks Hok s1 u s2); [exact Hs1|exact Hr| |exact E1|exact E2|exact Hcr].
      by destruct Hst.
Qed.

(** *** A leader *)
Lemma propose_loop_leads τ c i es : pres (keeps (leading τ c)) (propose_loop (T:=T) i es).
Proof.
  revert i. induction es as [|e es IH]; intros i; cbn [propose_loop].
  - frame.
  - assert (forall s x, keeps (leading τ c) s (s <| r := (r s) <| pending_conf_index := x |> |>)) by (intros; by apply lead_assign).
    pose proof (IH (i + 1)). frame.
Qed.

Lemma propose_sound m s x s' : room (len (Message.entries m)) s -> state (r s) = Leader -> sound s -> propose m s = Ret (x, s') ->
  crowned g s' -> sound s'.
Proof.
  intros Hroom Hl Hs E Hcr. assert (leading (term (r s)) (commit s) s) as Hlead by by split_and!.
  unfold propose in E. apply bind_inv in E as (s0 & ? & [-> ->]%get_inv & E).
  destruct (bool_decide _); [done|]. destruct (negb _); [by apply ret_inv in E as [_ <-]|].
  destruct (bool_decide _); [by apply ret_inv in E as [_ <-]|].
  apply try_bind_inv in E as [(es & s1 & El & E)|(e & El & _)]; [|by apply (propose_loop_leads (term (r s)) (commit s) _ _ _ _ _ El Hlead)].
  pose proof (propose_loop_length _ _ _ _ _ El) as Hlen. pose proof (propose_loop_pres _ _ _ _ _ El) as Hq.
  apply (propose_loop_leads (term (r s)) (commit s)) in El. specialize (El Hlead).
  assert (room (len es) s1) as Hr1 by (rewrite Hlen; eapply room_reads; [done|apply Hq]).
  apply bind_inv in E as (b & s2 & Ea & E). assert (state (r s1) = Leader) as Hl1 by apply El.
  pose proof (append_entry_evolve anything _ _ _ _ Logic.I Ea Hr1) as (Hev & Ht & _ & Hst & _).
  assert (log_ok (raft_log (r s2))) as Hok2 by (apply (e_log _ _ _ Hev), Hr1).
  assert (crowned g s2) as Hc2.
  { destruct b; cbn [negb] in E; [|by apply ret_inv in E as [_ <-]]. apply bind_inv in E as (u & s3 & Eb & [_ <-]%ret_inv).
    eapply crowned_before; [by eapply bcast_append_pres|done|done]. }
  destruct (Hc2 ltac:(congruence)) as (_ & _ & Hb & _). rewrite Ht, (proj1 (proj2 (proj2 El))) in Hb.
  apply (lead_append V g K past acks Hok (term (r s)) (commit s)) in Ea; [|done..].
  destruct b; cbn [negb] in E; [|apply ret_inv in E as [_ <-]; apply Ea]. apply bind_inv in E as (u & s3 & Eb & [_ <-]%ret_inv).
  by apply (lead_bcast_append V g K (term (r s)) (commit s) _ _ _ Eb).
Qed.

Lemma step_leader_sound m s x s' : room (len (Message.entries m)) s -> state (r s) = Leader -> sound s -> attends s m ->
  step_leader m s = Ret (x, s') -> crowned g s' -> sound s'.
Proof.
  intros Hroom Hl Hs Hm E Hcr. assert (leading (term (r s)) (commit s) s) as Hlead by by split_and!.
  assert (keeps (leading (term (r s)) (commit s)) s s' -> sound s') as Hgo by (intros Hk; by apply Hk).
  pose proof (at_ack _ _ Hm) as Hack. unfold step_leader in E. destruct (Message.msg_type m) eqn:Ety; try (by apply ret_inv in E as [_ <-]).
  all: try (apply Hgo; call_frame (keeps (leading (term (r s)) (commit s))) E; solve [frame]).
  - by eapply propose_sound.
  - apply Hgo. pose proof (lead_append_response V g K (term (r s)) HV (commit s) m (Hack eq_refl)).
    call_frame (keeps (leading (term (r s)) (commit s))) E. frame.
  - clear Hgo. apply bind_inv in E as (b & s1 & E1 & E). apply (lead_quorum_active V g K (term (r s)) (commit s)) in E1.
    specialize (E1 Hlead). apply bind_inv in E as (u & s2 & E & [_ <-]%ret_inv).
    destruct b; cbn [negb] in E; [apply ret_inv in E as [_ <-]; apply E1|].
    apply bind_inv in E as (s0 & ? & [-> ->]%get_inv & E). by apply (become_follower_sound V g K) in E as [[? _] _]; [|done|apply E1].
Qed.

(** *** A candidate *)
Lemma candidate_vote_sound (ignored : bool) m s (x : Result unit) s' : fresh s -> room 1 s -> state (r s) = Candidate \/ state (r s) = PreCandidate ->
  sound s -> may_run g s -> tells_commit V g m ->
  (if ignored then mret (Ok tt)
   else _res ← poll (Message.from m) (Message.msg_type m) (negb (Message.reject m)); maybe_commit_by_vote m;; mret (Ok tt)) s = Ret (x, s') ->
  crowned g s' -> sound s'.
Proof.
  intros Hf Hr Hst Hs Hrun Htc E Hcr. destruct ignored; [by apply ret_inv in E as [_ <-]|].
  assert (resting s) as Hrest by (split; [done|by destruct Hst as [-> | ->]]).
  apply bind_inv in E as (res & s1 & Ep & E). apply bind_inv in E as (u & s2 & Ec & [_ <-]%ret_inv).
  assert (sound s1); [|by eapply commit_by_vote_sound]. eapply poll_sound; [exact Hrest|done..|exact Ep|].
  intros Hl. apply maybe_commit_by_vote_leader in Ec as ->; [|done]. by apply Hcr.
Qed.

Lemma step_candidate_sound m s x s' : wf_msg m -> fresh s -> room 1 s -> state (r s) = Candidate \/ state (r s) = PreCandidate ->
  sound s -> may_run g s -> attends s m -> step_candidate m s = Ret (x, s') -> recorded s' -> sound s'.
Proof.
  intros Hwf Hf Hr Hst Hs Hrun Hm E [Hcr Hex]. assert (resting s) as Hrest by (split; [done|by destruct Hst as [-> | ->]]).
  unfold step_candidate in E. destruct (Message.msg_type m) eqn:Ety; try (by apply ret_inv in E as [_ <-]).
  all: try (apply bind_inv in E as (u & s1 & Ef & E); unfold follow_leader in Ef; apply bind_inv in Ef as (s0 & ? & [-> ->]%get_inv & Ef);
    apply bind_inv in Ef as (u1 & s2 & [Ht%Z.eqb_eq ->]%assert_inv & Ef);
    apply (become_follower_sound V g K) in Ef as (Hs1 & Hl & Ht1 & Hi & Hst1); [|lia|done];
    apply bind_inv in E as (u2 & s2 & E & [_ <-]%ret_inv)).
  - destruct (at_append _ _ Hm Ety) as [Htell _]. by eapply handle_append_entries_rests; [done..|apply Hs1| | | |exact Hex|exact E].
  - apply bind_inv in E as (s0 & ? & [-> ->]%get_inv & E). rewrite <-Ety in E.
    eapply candidate_vote_sound; [done..|apply (at_vote _ _ Hm); by rewrite Ety|exact E|exact Hcr].
  - by destruct (at_snapshot _ _ Hm).
  - eapply handle_heartbeat_rests; [exact Hs1| |exact E]. rewrite Hl. by apply (at_heartbeat _ _ Hm).
  - apply bind_inv in E as (s0 & ? & [-> ->]%get_inv & E). rewrite <-Ety in E.
    eapply candidate_vote_sound; [done..|apply (at_vote _ _ Hm); by rewrite Ety|exact E|exact Hcr].
Qed.

(** *** A follower *)
Lemma note_leader_rests m s u s' : note_leader m s = Ret (u, s') -> sound s -> sound s' /\ raft_log (r s') = raft_log (r s) /\
  state (r s') = state (r s) /\ term (r s') = term (r s).
Proof. intros E Hs. unfold note_leader in E. prog_inv. split; [|done]. do 2 (apply sound_assign; try done). Qed.

Lemma forward_rests m : idle_message m -> pres (keeps resting) (forward_to_leader (T:=T) m).
Proof. intros Hm. unfold forward_to_leader. frame. Qed.

Lemma read_answer_rests m s b s' : Message.index m <= 0 \/ (Message.term m ∈ terms g /\ decided V g (led g (Message.term m)) (Message.index m)) ->
  resting s -> on_log (RaftLog.maybe_commit (Message.index m) (Message.term m)) s = Ret (b, s') -> resting s'.
Proof.
  intros [Hi|[Hin Hd]] Hs E.
  - unfold on_log in E. apply zoom_inv in E as (l & E & ->). pose proof (so_ok _ _ _ _ (proj1 Hs)) as Hlog.
    assert (l = raft_log (r s)) as ->; [|by destruct s as [? ? [] ?]]. pose proof (view_bounds _ Hlog). pose proof (lo_committed _ Hlog).
    unfold RaftLog.maybe_commit in E. apply bind_inv in E as (l0 & ? & [-> ->]%get_inv & E).
    rewrite (proj2 (Z.leb_le _ _)) in E by lia. by apply ret_inv in E as [_ <-].
  - specialize (Hpos _ Hin). eapply (rest_maybe_commit V g K); [|exact Hs| |exact E]; [lia|]. intros e He Ht.
    eapply decided_same; [|exact Hd]. rewrite <-Ht. by apply (so_log _ _ _ _ (proj1 Hs)).
Qed.

Lemma step_follower_sound m s x s' : wf_msg m -> fresh s -> room 1 s -> state (r s) = Follower ->
  sound s -> may_run g s -> attends s m -> step_follower m s = Ret (x, s') -> recorded s' -> sound s'.
Proof.
  intros Hwf Hf Hr Hst Hs Hrun Hm E [Hcr Hex]. assert (resting s) as Hrest by (split; [done|congruence]).
  assert (keeps resting s s' -> sound s') as Hgo by (intros Hk; by apply Hk).
  assert (match Message.msg_type m with MsgPropose | MsgTransferLeader | MsgReadIndex => idle_message m | _ => True end) as Hidle
    by (unfold idle_message; by destruct (Message.msg_type m)).
  pose proof (forward_rests m) as Hfw.
  unfold step_follower in E. apply bind_inv in E as (s0 & ? & [-> ->]%get_inv & E). cbv zeta in E.
  destruct (Message.msg_type m) eqn:Ety; try (by apply ret_inv in E as [_ <-]).
  all: try (specialize (Hfw Hidle); apply Hgo; call_frame (keeps resting) E; solve [frame]).
  all: try (apply bind_inv in E as (u & s1 & En & E); apply note_leader_rests in En as (Hs1 & Hl1 & Hst1 & Ht1); [|done];
    apply bind_inv in E as (u2 & s2 & E & [_ <-]%ret_inv)).
  - destruct (at_append _ _ Hm Ety) as [Htell Ht].
    by eapply handle_append_entries_rests; [done..|exact Hs1|congruence| |congruence|exact Hex|exact E].
  - by destruct (at_snapshot _ _ Hm).
  - eapply handle_heartbeat_rests; [split; [exact Hs1|congruence]| |exact E]. rewrite Hl1. by apply (at_heartbeat _ _ Hm).
  - apply bind_inv in E as (u & s1 & E & [_ <-]%ret_inv). apply when_inv in E as [[_ E]|[_ ->]]; [|done].
    by eapply (hup_sound V g K past acks).
  - destruct (Message.entries m) as [|e [|]]; try (by apply ret_inv in E as [_ <-]).
    apply bind_inv in E as (u & s1 & ->%modify_inv & E). apply bind_inv in E as (b & s2 & E & [_ <-]%ret_inv).
    eapply read_answer_rests; [by apply (at_read _ _ Hm)| |exact E]. split; [by apply sound_assign|exact (proj2 Hrest)].
Qed.

(** *** Every message *)

(** What a node relies on in a message that comes in. *)
Record heard s (m : Message.t) : Prop := {
  hd_true : Provenance.truthful V g (fun m => Message.msg_type m = MsgAppendResponse ->
    Message.term m ∈ terms g /\ acked g (Message.from m) (Message.index m) (Message.term m)) m;
  hd_to : Message.msg_type m = MsgHeartbeat -> Message.to m = id (r s);
  hd_snapshot : Message.msg_type m <> MsgSnapshot
}.
(** [K] explains the votes of a node with the log of [s], given in a term of [s] to [s']
    on the request [m0]. *)
Definition explains_votes s s' (m0 : Message.t) : Prop := forall m, Message.msg_type m = MsgRequestVoteResponse -> Message.reject m = false ->
  Message.from m = id (r s) -> term (r s) <= Message.term m <= term (r s') -> Message.msg_type m0 = MsgRequestVote ->
  Message.to m = Message.from m0 -> Message.term m = Message.term m0 ->
  newer (log s) (cand g (Message.to m) (Message.term m)) -> K m.

Lemma step_term_sound m s go s1 : wf_msg m -> sound s -> step_term m s = Ret (go, s1) ->
  sound s1 /\ raft_log (r s1) = raft_log (r s) /\ id (r s1) = id (r s) /\ term (r s) <= term (r s1) /\
  (s1 = s \/ go = false \/ (term (r s1) = Message.term m /\ state (r s1) = Follower)) /\
  (go = true -> Message.msg_type m <> MsgRequestPreVote -> Message.msg_type m <> MsgRequestPreVoteResponse ->
    Message.term m = 0 \/ Message.term m = term (r s1)).
Proof.
  intros Hm Hs E. unfold step_term in E. apply bind_inv in E as (s0 & ? & [-> ->]%get_inv & E). cbv zeta in E.
  destruct (Z.eqb_spec (Message.term m) 0) as [Hz|Hz].
  { apply ret_inv in E as [<- <-]. split_and!; auto; lia. }
  destruct (Z.ltb_spec (term (r s)) (Message.term m)) as [Hlt|Hge].
  - destruct (lease_protects s m). { apply ret_inv in E as [<- <-]. split_and!; auto; (lia || done). }
    destruct (_ || _) eqn:Ek.
    { apply ret_inv in E as [<- <-]. split_and!; auto; [lia|]. intros _ Hp Hp'. rewrite !bool_decide_eq_false_2 in Ek by done. done. }
    apply bind_inv in E as (u & s2 & E & [<- <-]%ret_inv).
    assert (exists l, become_follower (Message.term m) l s = Ret (u, s2)) as [l El] by (destruct (_ || _) in E; by eexists).
    apply (become_follower_sound V g K) in El as ([? _] & Hl & Ht & Hi & Hst); [|lia|done]. split_and!; auto. lia.
  - destruct (Z.ltb_spec (Message.term m) (term (r s))) as [Hlt|Heq].
    + apply bind_inv in E as (u & s2 & E & [<- <-]%ret_inv).
      assert (sound s2 /\ r s2 = r s) as [Hs2 Hr]; [|rewrite Hr; split_and!; auto; (lia || done)].
      destruct (_ && _); [|destruct (bool_decide _); [|by apply ret_inv in E as [_ ->]]].
      all: eapply send_vote_sound; [exact Hs| |exact E].
      * intros m' Hm'. eapply says_idle, idle_stamped; [exact Hm'|]. split; [done|]. intros _. by right.
      * intros m' [Hty _ _ _ _ (Hc & _) Hrej]. unfold new_message in *. fields. apply says_other; [|congruence]. split; [intros [Hr _]; congruence|]. rewrite Hty. by left.
    + apply ret_inv in E as [<- <-]. split_and!; auto; lia.
Qed.

Definition heartbeat_known s (m : Message.t) : Prop := Message.msg_type m = MsgHeartbeat -> forall n,
  acked g (id (r s)) n (Message.term m) -> ack_ok V g (log s) (term (r s)) n (Message.term m).
Lemma heard_attends s s1 m : wf_msg m -> heard s m -> sound s -> heartbeat_known s m ->
  raft_log (r s1) = raft_log (r s) -> term (r s) <= term (r s1) ->
  (Message.msg_type m <> MsgRequestPreVote -> Message.msg_type m <> MsgRequestPreVoteResponse -> Message.term m = 0 \/ Message.term m = term (r s1)) ->
  attends s1 m.
Proof.
  intros Hwf [[Hc Ht] Hto Hsn] Hs Hack El Hle Hterm. assert (forall t, t ∈ terms g -> t <> 0) as Hnz by (intros t Hin; specialize (Hpos t Hin); lia).
  split; [..|done].
  - intros Hty. rewrite Hty in *. assert (tells_entries V g m) as Htell by (apply Ht; by apply Hwf).
    split; [done|]. pose proof (Hnz _ (proj1 Htell)). destruct Hterm as [?|?]; done.
  - intros Hty. rewrite Hty, El in *. intros Hlt. pose proof (lo_committed _ (so_ok _ _ _ _ Hs)) as Hb. pose proof (view_bounds _ (so_ok _ _ _ _ Hs)).
    destruct Ht as [?|(n & Ha & Hn & Hd)]; [lia|]. rewrite Hto in Ha by done. apply (Hack Hty) in Ha as [Hin Hpast _ Hnow].
    pose proof (Hnz _ (Hin ltac:(lia))). destruct Hterm as [?|Hterm]; [done..|].
    eapply (holds_commit V g past acks HV Hok); [by apply (sound_rooted V g K)| |apply Hnow; lia|exact Hd|done].
    apply (wl_rooted g (terms g)), Hok, Hin. lia.
  - intros Hty Hrej. destruct (Z.le_gt_cases (Message.index m) 0); [by left|right].
    destruct Hc as [Hin Ha]; [split; [done|right; by split; [|lia]]|done|]. pose proof (Hnz _ Hin).
    destruct Hterm as [?|Hterm]; [by rewrite Hty..|done|]. by rewrite <-Hterm.
  - intros Hty. by rewrite Hty in Ht.
  - intros Hv. by destruct (Message.msg_type m).
Qed.

Lemma step_sound m s x s' : wf_msg m -> fresh s -> room (len (Message.entries m) + 1) s -> heard s m -> sound s -> may_run g s ->
  heartbeat_known s m ->
  step m s = Ret (x, s') -> recorded s' -> explains_votes s s' m -> sound s'.
Proof.
  intros Hwf Hf Hr Hh Hs Hrun Hack E Hrec Hvotes. pose proof (len_nonneg (Message.entries m)) as Hlen. unfold step in E.
  apply bind_inv in E as (go & s1 & Et & E). apply step_term_sound in Et as (Hs1 & Hl & Hid & Hterm & Hsame & Hof); [|done..].
  destruct go; cbn [negb] in E; [|by apply ret_inv in E as [_ <-]]. specialize (Hof eq_refl).
  pose proof (heard_attends s s1 m Hwf Hh Hs Hack Hl Hterm Hof) as Hat.
  assert (fresh s1) as Hf1.
  { destruct Hsame as [-> |[?|[Ht _]]]; [done..|]. unfold fresh. rewrite Ht. pose proof (wm_term _ Hwf). u64_unfold. lia. }
  assert (may_run g s1) as Hrun1. { intros t Ht. rewrite Hid, Hl. apply Hrun. lia. }
  assert (room (len (Message.entries m) + 1) s1) as Hr1 by by eapply room_log.
  assert (room 1 s1) as Hr1' by (eapply room_mono; [|exact Hr1]; lia).
  assert (room (len (Message.entries m)) s1) as Hr1'' by (eapply room_mono; [|exact Hr1]; lia).
  assert (is_vote_request (Message.msg_type m) = true -> forall u, handle_vote_request m s1 = Ret (u, s') -> sound s') as Hvote.
  { intros Hty u Ev. destruct Hh as [[_ Ht] _ _]. pose proof (e_term _ _ _ (handle_vote_request_evolve _ _ _ _ Ev)) as Hle.
    eapply handle_vote_request_sound; [done..| | | |exact Ev].
    - intros Hx. rewrite Hx in Ht. apply Ht.
    - destruct (Message.msg_type m); try done; apply Ht.
    - intros m' Hx Hrej Hfr Hto Hte Hnz Hx' Hnew. apply Hvotes; [done..|congruence| |done|done|done|].
      + rewrite Hte. destruct Hof as [?|Ht']; [by rewrite Hx'..|done|]. lia.
      + by rewrite Hto, Hte, <-Hl. }
  destruct (Message.msg_type m) eqn:Ety.
  all: try (apply bind_inv in E as (s0 & ? & [-> ->]%get_inv & E); destruct (state (r s1)) eqn:Est;
    first [ eapply step_candidate_sound; [exact Hwf|exact Hf1|exact Hr1'|by auto|exact Hs1|exact Hrun1|exact Hat|exact E|exact Hrec]
          | eapply step_follower_sound; [exact Hwf|exact Hf1|exact Hr1'|exact Est|exact Hs1|exact Hrun1|exact Hat|exact E|exact Hrec]
          | eapply step_leader_sound; [exact Hr1''|exact Est|exact Hs1|exact Hat|exact E|apply Hrec] ]).
  all: apply bind_inv in E as (u & s2 & E & [_ <-]%ret_inv).
  - eapply (hup_sound V g K past acks); [exact Hok|exact Hs1|exact Hf1|exact Hr1'|exact Hrun1|exact E|apply Hrec].
  - by eapply Hvote.
  - by eapply Hvote.
Qed.

(** *** The work of a node on its own *)

(** Positions of the log other than the commit index. *)
Lemma sound_moved s l : log_ok l -> view l = log s -> RaftLog.committed l = commit s ->
  (state (r s) = Leader -> forall n, n <= RaftLog.persisted l -> acked g (id (r s)) n (term (r s))) ->
  sound s -> sound (s <| r := (r s) <| raft_log := l |> |>).
Proof.
  intros Hl Hv Hc Hp []. split; fields; rewrite ?Hv, ?Hc; try done.
  intros Hst. destruct (so_lead Hst) as [[] Htr]. split; [|done]. split; fields; rewrite ?Hv, ?Hc; auto.
Qed.
Lemma sound_tracker s p : ProgressTracker.conf p = ProgressTracker.conf (prs s) ->
  (forall v q, ProgressTracker.progress p !! v = Some q ->
    Progress.matched q <= 0 \/ exists q0, ProgressTracker.progress (prs s) !! v = Some q0 /\ Progress.matched q = Progress.matched q0) ->
  sound s -> sound (s <| prs := p |>).
Proof.
  intros Hc Hp Hs. apply (sound_same V g K s); try done; fields.
  - intros Hl v q Hq. destruct (Hp v q Hq) as [?|(q0 & Hq0 & E)]; [by left|]. unfold tracked. rewrite E.
    by apply (proj2 (so_lead _ _ _ _ Hs Hl) v q0).
  - apply (so_reads _ _ _ _ Hs).
  - apply (so_msgs _ _ _ _ Hs).
Qed.
Lemma sound_leading s : sound s -> state (r s) = Leader -> leading (term (r s)) (commit s) s.
Proof. intros Hs Hl. by split_and!. Qed.

(** What [maybe_commit] leaves alone. *)
Record settled s s' : Prop := {
  se_view : log s' = log s;
  se_persisted : RaftLog.persisted (raft_log (r s')) = RaftLog.persisted (raft_log (r s));
  se_core : state (r s') = state (r s) /\ term (r s') = term (r s) /\ id (r s') = id (r s);
  se_ok : log_ok (raft_log (r s))
}.
Lemma settled_crowned s s' : settled s s' -> crowned g s' -> crowned g s.
Proof. intros [Hv Hp (Hs & Ht & Hi) _]. unfold crowned. by rewrite Hv, Hp, Hs, Ht, Hi. Qed.
Lemma quiet_settled s s' : log_ok (raft_log (r s)) -> quiet s s' -> settled s s'.
Proof.
  intros Hl Hq. destruct (reads_committed _ _ (q_log _ _ Hq) Hl) as (_ & Hp & Hv & _). split; [done..| |done].
  by rewrite (q_state _ _ Hq), (q_term _ _ Hq), (q_id _ _ Hq).
Qed.
Lemma settled_trans s s1 s' : settled s s1 -> settled s1 s' -> settled s s'.
Proof. intros [V1 P1 (S1 & T1 & I1) L1] [V2 P2 (S2 & T2 & I2) _]. split; [congruence..|split_and!; congruence|done]. Qed.
Lemma maybe_commit_settled s b s' : log_ok (raft_log (r s)) -> maybe_commit s = Ret (b, s') -> settled s s' /\ log_ok (raft_log (r s')).
Proof.
  intros Hl E. pose proof (maybe_commit_pres _ _ _ E) as Hev. split; [|by apply (e_log _ _ _ Hev)].
  pose proof (proj1 (calm_still _ _ Hev) Hl) as Hv. split; [done| | |done].
  all: unfold maybe_commit, on_log, RaftLog.maybe_commit, RaftLog.commit_to, on_progress in E; by prog_inv.
Qed.

(** A leader commits, and tells its peers. *)
Lemma commit_sound s b s' : sound s -> state (r s) = Leader -> maybe_commit s = Ret (b, s') -> leading (term (r s)) (commit s) s' /\ settled s s'.
Proof.
  intros Hs Hl E. split; [|by apply (maybe_commit_settled _ _ _ (so_ok _ _ _ _ Hs) E)].
  by apply (lead_maybe_commit V g K (term (r s)) HV (commit s) _ _ _ E), sound_leading.
Qed.
Lemma tell_sound τ c s u s' : leading τ c s -> bcast_append s = Ret (u, s') -> leading τ c s' /\ settled s s'.
Proof.
  intros Hs E. split; [by apply (lead_bcast_append V g K τ c _ _ _ E)|]. eapply quiet_settled, bcast_append_pres; [apply Hs|exact E].
Qed.

Lemma on_persist_entries_sound i t s u s' : sound s -> on_persist_entries i t s = Ret (u, s') -> crowned g s' -> sound s'.
Proof.
  intros Hs E Hcr. unfold on_persist_entries in E. apply bind_inv in E as (up & s1 & E1 & E). unfold on_log in E1.
  apply zoom_inv in E1 as (l & E1 & ->). pose proof (so_ok _ _ _ _ Hs) as Hl. pose proof (maybe_persist_pres _ _ _ _ _ E1) as [[Hrun _] Hv].
  destruct (Hrun Hl) as [Hl' _]. specialize (Hv Hl).
  assert (RaftLog.committed l = commit s /\ (up = true -> RaftLog.persisted l = i)) as [Hc Hpi] by (unfold RaftLog.maybe_persist in E1; by prog_inv).
  set (s1 := s <| r := _ |>) in *. apply bind_inv in E as (s0 & ? & [-> ->]%get_inv & E).
  assert (crowned g s1 -> sound s1) as Hs1.
  { intros Hcr1. apply sound_moved; try done. intros Hst. by apply (Hcr1 Hst). }
  destruct (_ && _) eqn:Eup; [|apply ret_inv in E as [_ <-]; by apply Hs1].
  apply andb_true_iff in Eup as [-> Hst%bool_decide_eq_true]. specialize (Hpi eq_refl).
  apply bind_inv in E as (b & s2 & E2 & E).
  assert (raft_log (r s2) = l /\ state (r s2) = Leader /\ id (r s2) = id (r s) /\ term (r s2) = term (r s)) as (Hl2 & Hst2 & Hi2 & Ht2)
    by (unfold on_progress in E2; by prog_inv).
  assert (crowned g s2 -> sound s2) as Hs2.
  { intros Hcr2. destruct (Hcr2 Hst2) as (_ & _ & _ & Hack). rewrite Hl2, Hi2, Ht2, Hpi in Hack.
    eapply (leading_sound V g K (term (r s1)) (commit s1)), (lead_progress V g K); [|exact E2|apply sound_leading; [apply Hs1|exact Hst]].
    - apply tracked_update. right. apply Hack. lia.
    - intros _. destruct (Hcr2 Hst2) as (Hin & Hp & Hb & Hack'). rewrite Hl2, Ht2, Hi2 in *. by split_and!. }
  destruct (negb b); [apply ret_inv in E as [_ <-]; by apply Hs2|]. apply bind_inv in E as (b' & s3 & E3 & E).
  pose proof (maybe_commit_settled s2 b' s3 ltac:(by rewrite Hl2) E3) as [Hse Hl3].
  assert (crowned g s3 -> sound s2) as Hs3 by (intros ?; by eapply Hs2, settled_crowned).
  destruct (negb b').
  { apply ret_inv in E as [_ <-]. apply commit_sound in E3 as [Hs4 _]; [apply Hs4|by apply Hs3|done]. }
  apply bind_inv in E as (s0 & ? & [-> ->]%get_inv & E). apply when_inv in E as [[_ E]|[_ ->]].
  - assert (crowned g s3) as Hcr3 by (eapply crowned_before; [by eapply bcast_append_pres|done|done]).
    apply commit_sound in E3 as [Hs4 _]; [|by apply Hs3|done]. apply (proj1 (tell_sound _ _ _ _ _ Hs4 E)).
  - apply commit_sound in E3 as [Hs4 _]; [apply Hs4|by apply Hs3|done].
Qed.

Lemma on_persist_snap_sound i s u s' : sound s -> on_persist_snap i s = Ret (u, s') -> crowned g s' -> sound s'.
Proof.
  intros Hs E Hcr. unfold on_persist_snap in E. apply bind_inv in E as (b & s1 & E & [_ <-]%ret_inv). unfold on_log in E.
  apply zoom_inv in E as (l & E & ->). pose proof (so_ok _ _ _ _ Hs) as Hl. pose proof (maybe_persist_snap_pres _ _ _ _ E) as [[Hrun _] Hv].
  destruct (Hrun Hl) as [Hl' _]. apply sound_moved; [done|by apply Hv| |intros Hst; by apply Hcr|done].
  unfold RaftLog.maybe_persist_snap in E. by prog_inv.
Qed.

Lemma commit_apply_sound i s u s' : room 1 s -> sound s -> commit_apply i s = Ret (u, s') -> crowned g s' -> sound s'.
Proof.
  intros Hroom Hs E Hcr. unfold commit_apply in E. apply bind_inv in E as (s0 & ? & [-> ->]%get_inv & E). cbv zeta in E.
  apply bind_inv in E as (u1 & s1 & E1 & E). unfold on_log in E1. apply zoom_inv in E1 as (l & E1 & ->).
  pose proof (so_ok _ _ _ _ Hs) as Hl. pose proof (applied_to_pres _ _ _ _ E1) as [[Hrun _] Hv]. destruct (Hrun Hl) as [Hl' _]. specialize (Hv Hl).
  assert (RaftLog.committed l = commit s /\ RaftLog.persisted l = RaftLog.persisted (raft_log (r s))) as [Hc Hp]
    by (unfold RaftLog.applied_to in E1; by prog_inv).
  set (s1 := s <| r := _ |>) in *. assert (sound s1) as Hs1.
  { apply sound_moved; try done. intros Hst. rewrite Hp. apply (so_lead _ _ _ _ Hs Hst). }
  destruct (_ && _) eqn:Ec; [|by apply ret_inv in E as [_ <-]]. apply andb_true_iff in Ec as [_ Hst%bool_decide_eq_true].
  pose proof (sound_leading s1 Hs1 Hst) as Hlead. assert (room 1 s1) as Hr1 by (split; [done|]; change (raft_log (r s1)) with l; rewrite Hv; apply Hroom).
  apply bind_inv in E as (b & s2 & Ea & E). pose proof (append_entry_evolve anything _ _ _ _ Logic.I Ea Hr1) as (Hev & Ht & _ & Hst2 & _).
  apply bind_inv in E as (u2 & s3 & [_ ->]%assert_inv & E). unfold ask_log in E. apply bind_inv in E as (li & s3 & [_ ->]%asks_inv & E).
  apply modify_inv in E as ->. destruct (Hcr ltac:(fields; by rewrite Hst2)) as (_ & _ & Hb & _). fields. rewrite Ht in Hb.
  apply (lead_append V g K past acks Hok (term (r s1)) (commit s1)) in Ea; [|done..]. apply sound_assign; try done. apply Ea.
Qed.

Lemma request_snapshot_sound s x s' : sound s -> request_snapshot s = Ret (x, s') -> sound s'.
Proof.
  intros Hs E. unfold request_snapshot in E. apply bind_inv in E as (s0 & ? & [-> ->]%get_inv & E).
  destruct (bool_decide _) eqn:Hl; [by apply ret_inv in E as [_ <-]|]. apply bool_decide_eq_false in Hl.
  assert (resting s) as Hrest by by split. assert (keeps resting s s' -> sound s') as Hgo by (intros Hk; by apply Hk). apply Hgo.
  pose proof send_request_snapshot_rests. call_frame (keeps resting) E. frame.
Qed.
Lemma ping_sound s u s' : sound s -> ping s = Ret (u, s') -> sound s'.
Proof.
  intros Hs E. unfold ping in E. apply bind_inv in E as (s0 & ? & [-> ->]%get_inv & E). apply when_inv in E as [[Hl E]|[_ ->]]; [|done].
  apply bool_decide_eq_true in Hl. by apply (lead_bcast_heartbeat V g K (term (r s)) (commit s) _ _ _ E), sound_leading.
Qed.
Lemma reduce_sound es s u s' : sound s -> reduce_uncommitted_size es s = Ret (u, s') -> sound s'.
Proof.
  intros Hs E. unfold reduce_uncommitted_size in E. apply bind_inv in E as (s0 & ? & [-> ->]%get_inv & E).
  destruct (negb _); [by apply ret_inv in E as [_ <-]|]. apply bind_inv in E as (b & s1 & E & [_ <-]%ret_inv).
  apply zoom_inv in E as (x & _ & ->). by apply sound_assign.
Qed.
Lemma enable_group_commit_sound b s u s' : sound s -> enable_group_commit b s = Ret (u, s') -> sound s'.
Proof.
  intros Hs E. unfold enable_group_commit, on_prs in E. apply bind_inv in E as (u1 & s1 & ->%modify_inv & E).
  apply bind_inv in E as (s0 & ? & [-> ->]%get_inv & E). set (s1 := s <| prs := _ |>) in *.
  assert (sound s1) as Hs1 by (apply sound_tracker; [done| |done]; intros v q Hq; right; by exists q).
  destruct (_ && _) eqn:Hl; [|by apply ret_inv in E as [_ <-]]. apply andb_true_iff in Hl as [Hl%bool_decide_eq_true _].
  apply bind_inv in E as (c & s2 & E1 & E). apply commit_sound in E1 as [Hs2 _]; [|done..].
  apply when_inv in E as [[_ E]|[_ ->]]; [apply (proj1 (tell_sound _ _ _ _ _ Hs2 E))|apply Hs2].
Qed.

Lemma put_progress_sound i q s : (forall p, progress_of s i = Some p -> Progress.matched q = Progress.matched p) ->
  is_Some (progress_of s i) -> sound s -> sound (put_progress i q s).
Proof.
  intros Hq [p Hp] Hs. apply sound_tracker; [done| |done]. intros v q'. fields. rewrite lookup_insert.
  case_decide as Hv; [intros [= <-]; right; subst v; exists p; auto|intros Hq'; right; by exists q'].
Qed.
Lemma assign_commit_groups_sound ids s u s' : sound s -> assign_commit_groups ids s = Ret (u, s') -> sound s'.
Proof.
  intros Hs E. unfold assign_commit_groups in E. apply bind_inv in E as (u1 & s1 & E1 & E). assert (sound s1) as Hs1.
  { revert Hs. change (keeps sound s s1). eapply (for_each_inv (keeps sound)); [|exact E1]. intros [p c] a v a' _ Ea Ha.
    unfold assign_commit_group in Ea. apply bind_inv in Ea as (u2 & s2 & [_ ->]%assert_inv & Ea). apply bind_inv in Ea as (s0 & ? & [-> ->]%get_inv & Ea).
    destruct (progress_of a p) as [q|] eqn:Eq; [|by apply ret_inv in Ea as [_ <-]]. apply modify_inv in Ea as ->.
    apply put_progress_sound; [|by eexists|done]. intros p' Hp. rewrite Eq in Hp. by injection Hp as <-. }
  apply bind_inv in E as (s0 & ? & [-> ->]%get_inv & E). destruct (_ && _) eqn:Hl; [|by apply ret_inv in E as [_ <-]].
  apply andb_true_iff in Hl as [Hl%bool_decide_eq_true _].
  apply bind_inv in E as (c & s2 & E2 & E). apply commit_sound in E2 as [Hs2 _]; [|done..].
  apply when_inv in E as [[_ E]|[_ ->]]; [apply (proj1 (tell_sound _ _ _ _ _ Hs2 E))|apply Hs2].
Qed.

(** Learners that come and go. *)
Lemma changed_progress cfg changes n p v q : ProgressTracker.progress (ProgressTracker.apply_conf cfg changes n p) !! v = Some q ->
  Progress.matched q <= 0 \/ ProgressTracker.progress p !! v = Some q.
Proof.
  unfold ProgressTracker.apply_conf. induction changes as [|[k []] changes IH] using rev_ind; [by right|..];
    rewrite fold_left_app; simpl; fields.
  - rewrite lookup_insert. case_decide; [intros [= <-]; by left|done].
  - rewrite lookup_delete. by case_decide.
Qed.

(** Becoming a member or not changes neither the role nor the log. *)
Lemma sound_conf s p : Configuration.voters (ProgressTracker.conf p) = V ->
  (forall v q, ProgressTracker.progress p !! v = Some q -> Progress.matched q <= 0 \/ ProgressTracker.progress (prs s) !! v = Some q) ->
  sound s -> sound (s <| prs := p |>).
Proof.
  intros Hc Hp []. split; fields; try done. intros Hst. destruct (so_lead Hst) as [Hl Htr]. split; [done|]. intros v q Hq.
  destruct (Hp v q Hq) as [?|?]; [by left|by apply Htr].
Qed.

Definition same_conf s s' : Prop := ProgressTracker.conf (prs s') = ProgressTracker.conf (prs s).
#[local] Instance same_conf_preorder : PreOrder same_conf.
Proof. unfold same_conf. split; [by intros ?|]. intros s s1 s' H1' H2'. congruence. Qed.
Lemma quiet_conf {A} (m : Prog (Raft.t T) A) : pres quiet m -> pres same_conf m.
Proof. intros Hm s a s' E. apply (q_conf _ _ (Hm _ _ _ E)). Qed.
Lemma maybe_commit_conf : pres same_conf (maybe_commit (T:=T)).
Proof. intros s b s' E. unfold maybe_commit, on_log, on_progress in E. by prog_inv. Qed.

Lemma post_conf_change_conf : pres same_conf (post_conf_change (T:=T)).
Proof.
  pose proof maybe_commit_conf. assert (forall s f, same_conf s (s <| r := f |>)) by done.
  assert (pres same_conf (bcast_append (T:=T))) by apply quiet_conf, bcast_append_pres.
  assert (pres same_conf (abort_leader_transfer (T:=T))) by apply quiet_conf, abort_leader_transfer_pres.
  assert (forall i ctx, pres same_conf (answer_reads_if_quorum (T:=T) i ctx)) by (intros; apply quiet_conf, answer_reads_if_quorum_pres).
  assert (forall to, pres same_conf (with_progress (T:=T) to (Sending.maybe_send_append to false)))
    by (intros; apply quiet_conf, with_progress_pres, maybe_send_append_feeds).
  unfold post_conf_change. frame.
Qed.
Hint Resolve lead_with_progress lead_answer_reads lead_abort_transfer lead_maybe_commit sender_maybe_send_append : frame.
Lemma post_conf_change_sound s cs s' : sound s -> post_conf_change s = Ret (cs, s') -> sound s'.
Proof.
  intros Hs E. destruct (decide (state (r s) = Leader)) as [Hl|Hl].
  - assert (keeps (leading (term (r s)) (commit s)) s s') as Hk; [|by apply Hk, sound_leading].
    assert (forall to, pres (keeps (leading (term (r s)) (commit s))) (with_progress (T:=T) to (Sending.maybe_send_append to false)))
      by (intros; apply lead_with_progress; [apply maybe_send_append_feeds|apply sender_maybe_send_append]).
    call_frame (keeps (leading (term (r s)) (commit s))) E. unfold post_conf_change. frame.
  - apply post_conf_change_idle in E as [_ ->]; [|done]. by apply sound_assign.
Qed.

Lemma apply_conf_change_sound cc s x s' : sound s -> apply_conf_change cc s = Ret (x, s') ->
  Configuration.voters (ProgressTracker.conf (prs s')) = V -> sound s'.
Proof.
  intros Hs E HV'. unfold apply_conf_change in E. apply bind_inv in E as (s0 & ? & [-> ->]%get_inv & E). cbv zeta in E.
  match type of E with (match ?st with _ => _ end) _ = _ => destruct st as [[cfg changes]|e] end; [|by apply ret_inv in E as [_ <-]].
  unfold ask_log, on_prs in E. apply bind_inv in E as (li & s1 & [_ ->]%asks_inv & E). apply bind_inv in E as (u & s1 & ->%modify_inv & E).
  apply bind_inv in E as (cs & s2 & E & [_ <-]%ret_inv). pose proof (post_conf_change_conf _ _ _ E) as Hc. unfold same_conf in Hc. fields.
  eapply post_conf_change_sound; [|exact E]. apply sound_conf; [by rewrite <-Hc| |done].
  intros v q. apply changed_progress.
Qed.

(** *** Time *)
Lemma step_local_hup s u s' : step_local MsgHup s = Ret (u, s') -> exists u', hup false s = Ret (u', s').
Proof.
  intros E. unfold step_local in E. apply bind_inv in E as (s0 & ? & [-> ->]%get_inv & E).
  apply bind_inv in E as (x & s1 & E & [_ <-]%ret_inv). unfold step in E. erewrite bind_run in E by (by apply step_term_local).
  simpl in E. apply bind_inv in E as (u' & s2 & E & [_ <-]%ret_inv). by exists u'.
Qed.

(** The check of the quorum only changes the role. *)
Lemma check_quorum_sound s u s' : state (r s) = Leader -> sound s -> step_local MsgCheckQuorum s = Ret (u, s') ->
  resting s' \/ leading (term (r s)) (commit s) s'.
Proof.
  intros Hl Hs E. apply step_local_leader in E as [x E]; [|by left|done]. simpl in E.
  apply bind_inv in E as (b & s1 & E1 & E). apply (lead_quorum_active V g K (term (r s)) (commit s)) in E1. specialize (E1 (sound_leading _ Hs Hl)).
  apply bind_inv in E as (u1 & s2 & E & [_ <-]%ret_inv). destruct b; cbn [negb] in E; [apply ret_inv in E as [_ <-]; by right|left].
  apply bind_inv in E as (s0 & ? & [-> ->]%get_inv & E). by apply (become_follower_sound V g K) in E as [? _]; [|done|apply E1].
Qed.

Lemma tick_heartbeat_sound s b s' : state (r s) = Leader -> sound s -> tick_heartbeat s = Ret (b, s') -> sound s'.
Proof.
  intros Hl Hs E. unfold tick_heartbeat in E. apply bind_inv in E as (u & s1 & ->%modify_inv & E).
  apply bind_inv in E as (u2 & s2 & ->%modify_inv & E). apply bind_inv in E as (s0 & ? & [-> ->]%get_inv & E).
  match type of E with _ ?a = _ => set (s1 := a) in *; assert (sound s1) as Hs1 by (do 2 (apply sound_assign; try done));
    assert (state (r s1) = Leader) as Hl1 by done; clearbody s1 end. clear Hs Hl.
  apply bind_inv in E as (hr & s2 & E1 & E). assert (sound s2) as Hs2.
  { destruct (_ <=? _); [|by apply ret_inv in E1 as [_ <-]].
    apply bind_inv in E1 as (u1 & s3 & ->%modify_inv & E1). apply bind_inv in E1 as (u3 & s3 & Ew & E1).
    assert (sound s3) as Hs3.
    { assert (sound (s1 <| r := (r s1) <| election_elapsed := 0 |> |>)) as Hs1' by by apply sound_assign.
      apply when_inv in Ew as [[_ Ew]|[_ ->]]; [|done]. apply check_quorum_sound in Ew as [[? _]|[? _]]; done. }
    apply bind_inv in E1 as (s4 & ? & [-> ->]%get_inv & E1). apply bind_inv in E1 as (u4 & s4 & E2 & E1).
    assert (sound s4) as Hs4. { apply when_inv in E2 as [[_ E2]|[_ ->]]; [|done]. apply modify_inv in E2 as ->. by apply sound_assign. }
    by apply ret_inv in E1 as [_ <-]. }
  apply bind_inv in E as (s3 & ? & [-> ->]%get_inv & E).
  destruct (bool_decide (state (r s2) = Leader)) eqn:Hl2; simpl in E; [|by apply ret_inv in E as [_ <-]].
  apply bool_decide_eq_true in Hl2. destruct (heartbeat_timeout _ <=? _); [|by apply ret_inv in E as [_ <-]].
  apply bind_inv in E as (u1 & s3 & ->%modify_inv & E). apply bind_inv in E as (u3 & s3 & E & [_ <-]%ret_inv).
  apply step_local_leader in E as [x E]; [|by right|done]. simpl in E. apply bind_inv in E as (u4 & s4 & E & [_ <-]%ret_inv).
  eapply (leading_sound V g K (term (r s2)) (commit s2)), (lead_bcast_heartbeat V g K _ _ _ _ _ E). apply lead_assign; try done; by apply sound_leading.
Qed.

Lemma tick_sound s b s' : sound s -> fresh s -> room 1 s -> may_run g s -> tick s = Ret (b, s') -> crowned g s' -> sound s'.
Proof.
  intros Hs Hf Hr Hrun E Hcr. unfold tick in E. apply bind_inv in E as (s0 & ? & [-> ->]%get_inv & E).
  assert (tick_election s = Ret (b, s') -> sound s') as Hel.
  { clear E. intros E. unfold tick_election in E. apply bind_inv in E as (u & s1 & ->%modify_inv & E).
    apply bind_inv in E as (s2 & ? & [-> ->]%get_inv & E).
    destruct (_ || _); [apply ret_inv in E as [_ <-]; by apply sound_assign|].
    apply bind_inv in E as (u2 & s2 & ->%modify_inv & E). apply bind_inv in E as (u3 & s3 & E & [_ <-]%ret_inv).
    apply step_local_hup in E as [u' E]. eapply (hup_sound V g K past acks Hok); [| | | |exact E|exact Hcr]; [|exact Hf|exact Hr|exact Hrun].
    do 2 (apply sound_assign; try done). }
  destruct (state (r s)) eqn:Es; try (by apply Hel). by eapply tick_heartbeat_sound.
Qed.

Lemma own_work_sound s s' : sound s -> may_run g s -> own_work s s' -> Configuration.voters (ProgressTracker.conf (prs s')) = V ->
  crowned g s' -> sound s'.
Proof.
  intros Hs Hrun Hw HV' Hcr. destruct Hw.
  - by eapply tick_sound.
  - by eapply apply_conf_change_sound.
  - by eapply commit_apply_sound.
  - by eapply on_persist_entries_sound.
  - by eapply on_persist_snap_sound.
  - by eapply request_snapshot_sound.
  - by eapply ping_sound.
  - by eapply reduce_sound.
  - by eapply enable_group_commit_sound.
  - by eapply assign_commit_groups_sound.
  - apply sound_assign; try done. apply (sound_same V g K s); try done; fields.
    + intros Hl. by apply (so_lead _ _ _ _ Hs).
    + apply (so_reads _ _ _ _ Hs).
    + by intros m ?%elem_of_nil.
Qed.
End node.
