(* ===== verification/Growth.v ===== *)
(** * The record of a cluster grows ([raft.rs])

    What was said of a node and of messages in [Provenance.v] stays true while the
    record of [Chosen.v] grows, and two kinds of messages leave more alone than
    [RaftFrame.v] says. *)

From S2P Require Import Prelude Proto Errors Util Inflights Progress Quorum Tracker ConfChange.
From S2P Require Import Log Unstable Storage RaftLog ReadOnly Config RaftCore Raft RaftFrame Writes.
From S2P Require Import RaftExample RaftProps Cluster LogMatching Chosen Provenance Receives.

(** ** Truth is kept while the record grows *)
Section growth.
Context {T : Type} `{StorageLaws T} `{Codec} `{HashOrder} (V : Joint.Configuration).
Context (g g' : ghost) (past past' : Z -> Z -> Prop) (acks acks' : Z -> Z -> Z -> Prop).
Context (Hok : history_ok V g past acks) (Hg : grows_to g past acks g' past' acks').
#[local] Set Default Proof Using "All".

Lemma decided_led t c : t ∈ terms g -> decided V g (led g t) c -> decided V g' (led g' t) c.
Proof.
  intros Ht Hd. pose proof (wl_rooted _ _ _ (ho_led _ _ _ _ Hok t Ht)) as Hr.
  destruct (Z.le_gt_cases c 0) as [|Hc]; [by left|]. destruct (decided_here V g past acks Hok _ _ c Hd) as [e He]; [lia|].
  apply entry_bounds in He; [|done]. apply (decided_begins V g' (led g t)); [done|apply Hg|by apply Hg|lia|].
  by apply (decided_mono V g g' past past' acks acks').
Qed.

Lemma tells_commit_mono m : tells_commit V g m -> tells_commit V g' m.
Proof.
  intros [?|[?|(v & e & Hv & Hd & He)]]; [by left|by right; left|]. right. right. exists v, e. split; [|split; [|done]].
  - eapply (well_led_mono V g g'); [done..| |exact Hv]. intros t Ht. split; [done|by apply Hg].
  - by apply (decided_mono V g g' past past' acks acks').
Qed.

Lemma tells_entries_mono m : tells_entries V g m -> tells_entries V g' m.
Proof.
  intros (Hin & Ht & Hle & Hes & Hd). pose proof (wl_rooted _ _ _ (ho_led _ _ _ _ Hok _ Hin)) as Hr.
  pose proof (gt_rooted _ _ _ _ _ _ Hg (Message.term m)) as Hr'. pose proof (gt_led _ _ _ _ _ _ Hg _ Hin) as Hb. split_and!.
  - by apply Hg.
  - intros e He. pose proof (entry_bounds _ _ _ Hr' He). destruct (entry_here (led g (Message.term m)) (Message.index m)) as [e' He']; [done|lia|].
    pose proof (Hb _ _ He'). apply Ht. congruence.
  - etrans; [exact Hle|]. by apply begins_last.
  - intros k e He. by apply Hb, Hes.
  - by apply decided_led.
Qed.

Lemma truthful_mono (K K' : Message.t -> Prop) m : (confirms m -> K m -> K' m) ->
  (Message.msg_type m = MsgRequestVote -> cand g' (Message.from m) (Message.term m) = cand g (Message.from m) (Message.term m)) ->
  truthful V g K m -> truthful V g' K' m.
Proof.
  intros HK Hc [Hk Hm]. split; [intros Hcf; auto|]. destruct (Message.msg_type m); try done; try (by apply tells_commit_mono).
  - intros Hnz. by apply tells_entries_mono, Hm.
  - destruct Hm as [Hl Ht]. split; [|by apply tells_commit_mono]. unfold tells_log in *. by rewrite Hc.
  - destruct Hm as [?|(n & Ha & Hn & Hd)]; [by left|]. destruct (Z.le_gt_cases (Message.commit m) 0); [by left|right].
    exists n. split; [by apply Hg|]. split; [done|]. apply decided_led; [|done].
    eapply (gt_known _ _ _ _ _ _ Hg); [by apply (ho_acked _ _ _ _ Hok)|lia].
  - destruct Hm as [?|[Hin Hd]]; [by left|right]. split; [by apply Hg|by apply decided_led].
Qed.

Lemma history_mono : (forall t, t ∈ terms g' -> t ∈ terms g) -> terms g' = terms g -> led g' = led g -> (forall x n t, acked g' x n t -> acks' x n t) ->
  history_ok V g' past' acks'.
Proof.
  intros Hts Ets El Ha. split.
  - rewrite Ets. eapply (elections_mono V g g'); [done..|]. apply Hok.
  - done.
  - intros t Ht. rewrite El. eapply (well_led_mono V g g'); [done..| |by apply Hok, Hts]. intros u Hu. split; [done|by apply Hg].
  - intros t Ht. rewrite El, (gt_first _ _ _ _ _ _ Hg) by auto. by apply Hok, Hts.
  - intros t n e Ht. rewrite El. apply (ho_terms _ _ _ _ Hok). auto.
Qed.

Import RaftCore Raft.
Context `{ConfigurationDebug} `{Rng}.
Implicit Types s : Raft.t T.

Lemma sound_mono (K K' : Message.t -> Prop) s : sound V g K s -> (forall m, m ∈ msgs s -> confirms m -> K m -> K' m) ->
  (forall t, t <= term (r s) -> cand g' (id (r s)) t = cand g (id (r s)) t) -> sound V g' K' s.
Proof.
  intros [] HK Hc. assert (forall t, t ∈ terms g -> t ∈ terms g /\ t ∈ terms g') as Hts by (intros t Ht; split; [done|by apply Hg]). split; try done.
  - by eapply (well_led_mono V g g').
  - by apply (decided_mono V g g' past past' acks acks').
  - intros Hl. destruct (so_lead Hl) as [[] Htr]. split.
    + split; try done.
      * split; [tauto|apply Hg].
      * destruct lt_terms as [Hin ?]. split; [by apply Hg|done].
      * eapply begins_trans; [exact lt_led|by apply Hg; destruct lt_terms].
      * by apply (decided_mono V g g' past past' acks acks').
      * intros n Hn. by apply Hg, lt_own.
    + intros v p Hp. destruct (Htr v p Hp) as [?|?]; [by left|right]. by apply Hg.
  - intros Hcd. rewrite Hc by done. by apply so_cand.
  - intros m Hm. destruct (so_msgs m Hm) as [Htr Hreq]. split; [|done]. eapply truthful_mono; [by apply HK| |exact Htr].
    intros Hty. destruct (Hreq Hty) as [-> ?]. by apply Hc.
Qed.
End growth.

(** ** What two kinds of messages leave alone *)
Section handling.
Context {T : Type} `{StorageLaws T} `{Codec} `{HashOrder} `{ConfigurationDebug} `{Rng}.
#[local] Set Default Proof Using "All".
Import RaftCore Raft.
Implicit Types s : Raft.t T.
Abbreviation log s := (view (raft_log (r s))).

Definition same_term s s' : Prop := term (r s') = term (r s).
#[local] Instance same_term_preorder : PreOrder same_term.
Proof. unfold same_term. split; [by intros ?|]. intros s s1 s' E1 E2. congruence. Qed.
Lemma same_term_send m : pres same_term (send (T:=T) m).
Proof. intros s u s' E. unfold send in E. apply bind_inv in E as (s0 & ? & [-> ->]%get_inv & E). by apply zoom_inv in E as (ms & _ & ->). Qed.
Lemma same_term_log {A} (m : Prog (RaftLog.t T) A) : pres same_term (on_log m).
Proof. intros s a s' E. unfold on_log in E. by apply zoom_inv in E as (l & _ & ->). Qed.
Hint Resolve same_term_send same_term_log : frame.
Hint Extern 1 (same_term _ _) => done : frame.
Lemma append_entries_term m : pres same_term (handle_append_entries (T:=T) m).
Proof. unfold handle_append_entries, send_request_snapshot, ask_log. frame. Qed.

(** A message is handled in its term, or changes nothing but the messages. *)
Lemma step_term_cases m s go s1 : wf_msg m -> Message.term m <> 0 -> Message.msg_type m <> MsgRequestPreVote ->
  Message.msg_type m <> MsgRequestPreVoteResponse -> is_vote_request (Message.msg_type m) = false -> step_term m s = Ret (go, s1) ->
  (go = false /\ r s1 = r s) \/ (s1 = s /\ term (r s) = Message.term m) \/
  (term (r s1) = Message.term m /\ state (r s1) = Follower /\ raft_log (r s1) = raft_log (r s)).
Proof.
  intros Hm Hz Hp Hp' Hv E. unfold step_term in E. apply bind_inv in E as (s0 & ? & [-> ->]%get_inv & E). cbv zeta in E.
  rewrite (proj2 (Z.eqb_neq _ _) Hz) in E. destruct (Z.ltb_spec (term (r s)) (Message.term m)) as [Hlt|Hge].
  - assert (lease_protects s m = false) as El by (unfold lease_protects; by rewrite Hv). rewrite El in E.
    rewrite (bool_decide_eq_false_2 _ Hp), (bool_decide_eq_false_2 _ Hp') in E. simpl in E.
    apply bind_inv in E as (u & s2 & E & [<- <-]%ret_inv). right. right.
    assert (exists l, become_follower (Message.term m) l s = Ret (u, s2)) as [l El'] by (destruct (_ || _) in E; by eexists).
    apply (become_follower_evolve calm) in El' as (_ & Ht & Hs & Hl & _); [|lia]. done.
  - destruct (Z.ltb_spec (Message.term m) (term (r s))) as [Hlt|Hge'].
    + apply bind_inv in E as (u & s2 & E & [<- <-]%ret_inv). left. split; [done|]. 
      assert (forall x, send x s = Ret (u, s2) -> r s2 = r s) as Hsend.
      { intros x Ex. unfold send in Ex. apply bind_inv in Ex as (s0 & ? & [-> ->]%get_inv & Ex). by apply zoom_inv in Ex as (ms & _ & ->). }
      destruct (_ && _); [by eapply Hsend|]. destruct (bool_decide _); [by eapply Hsend|by apply ret_inv in E as [_ ->]].
    + apply ret_inv in E as [_ <-]. right. left. split; [done|lia].
Qed.

Lemma candidate_append_term m s x s' : Message.msg_type m = MsgAppend -> term (r s) = Message.term m ->
  step_candidate m s = Ret (x, s') -> term (r s') = Message.term m.
Proof.
  intros Hty Ht E. unfold step_candidate in E. rewrite Hty in E. apply bind_inv in E as (u & s2 & Ef & E).
  apply bind_inv in E as (u2 & s3 & E & [_ <-]%ret_inv). unfold follow_leader in Ef. apply bind_inv in Ef as (s0 & ? & [-> ->]%get_inv & Ef).
  apply bind_inv in Ef as (u1 & s4 & [Heq%Z.eqb_eq ->]%assert_inv & Ef). apply (become_follower_evolve calm) in Ef as (_ & Ht2 & _); [|lia].
  transitivity (term (r s2)); [|congruence]. eapply append_entries_term. exact E.
Qed.

Lemma append_in_term m s x s' : wf_msg m -> Message.msg_type m = MsgAppend -> Message.term m <> 0 ->
  step m s = Ret (x, s') -> log s' = log s \/ term (r s') = Message.term m.
Proof.
  intros Hm Hty Hz E. unfold step in E. apply bind_inv in E as (go & s1 & Et & E).
  apply step_term_cases in Et; [|done|done|by rewrite Hty..].
  destruct Et as [[-> Hr]|Ht]; [cbn [negb] in E; apply ret_inv in E as [_ <-]; left; by rewrite Hr|].
  destruct go; cbn [negb] in E; [|apply ret_inv in E as [_ <-]; left; destruct Ht as [[-> _]|(_ & _ & ->)]; done].
  rewrite Hty in E. assert (term (r s1) = Message.term m) as Ht1 by (destruct Ht as [[-> ?]|[? _]]; done).
  apply bind_inv in E as (s0 & ? & [-> ->]%get_inv & E). destruct (state (r s1)) eqn:Es.
  - right. rewrite <-Ht1. change (same_term s1 s'). call_frame same_term E. unfold step_follower, note_leader. rewrite Hty.
    pose proof append_entries_term. frame.
  - right. by eapply candidate_append_term.
  - left. unfold step_leader in E. rewrite Hty in E. apply ret_inv in E as [_ <-]. by destruct Ht as [[-> _]|(_ & _ & ->)].
  - right. by eapply candidate_append_term.
Qed.

(** A leader ignores heartbeats, and nobody becomes leader by one. *)
Lemma heartbeat_leader m s x s' : wf_msg m -> Message.msg_type m = MsgHeartbeat -> Message.term m <> 0 ->
  step m s = Ret (x, s') -> state (r s') = Leader -> r s' = r s.
Proof.
  intros Hm Hty Hz E Hl. unfold step in E. apply bind_inv in E as (go & s1 & Et & E).
  apply step_term_cases in Et; [|done|done|by rewrite Hty..].
  assert (forall a u b, state (r a) = Follower -> handle_heartbeat m a = Ret (u, b) -> state (r b) = Leader -> False) as Hhb.
  { intros a u b Ha Eb Hb. apply handle_heartbeat_pres in Eb. destruct (e_leader _ _ _ Eb Hb) as [[? _]|[]]. congruence. }
  destruct go; cbn [negb] in E.
  2: { apply ret_inv in E as [_ <-]. destruct Et as [[_ ?]|[[-> _]|(_ & Hf & _)]]; [done..|congruence]. }
  rewrite Hty in E. apply bind_inv in E as (s0 & ? & [-> ->]%get_inv & E).
  assert (forall a y, step_candidate m a = Ret (y, s') -> False) as Hcand.
  { intros a y Ec. unfold step_candidate in Ec. rewrite Hty in Ec. apply bind_inv in Ec as (u & s2 & Ef & Ec).
    apply bind_inv in Ec as (u2 & s3 & Ec & [_ <-]%ret_inv). apply follow_leader_inv in Ef as (_ & Hs2 & _). by eapply Hhb. }
  destruct (state (r s1)) eqn:Es.
  - unfold step_follower in E. rewrite Hty in E. apply bind_inv in E as (s0 & ? & [-> ->]%get_inv & E). cbv zeta in E.
    apply bind_inv in E as (u & s2 & En & E). apply bind_inv in E as (u2 & s3 & E & [_ <-]%ret_inv).
    apply note_leader_pres in En. rewrite <-(q_state _ _ En) in Es. exfalso. by eapply Hhb.
  - exfalso. by eapply Hcand.
  - unfold step_leader in E. rewrite Hty in E. apply ret_inv in E as [_ <-].
    destruct Et as [[? _]|[[-> _]|(_ & Hf & _)]]; [done..|congruence].
  - exfalso. by eapply Hcand.
Qed.

(** A node that was just started has no reads open. *)
Lemma started_reads l i s : started_from l i s -> ReadOnly.pending_read_index (read_only (r s)) = ∅.
Proof.
  intros (d & cfg & store & rs & _ & _ & _ & _ & _ & Hinit & _ & E). unfold new in E. destruct (Config.validate cfg); [|done].
  rewrite Hinit in E. cbn [mbind outcome_bind] in E. destruct (RaftLog.new store) as [rl| |]; try done. cbn [mbind outcome_bind] in E.
  destruct (start _ _ _) as [[[x|e] s1]| |] eqn:Es; try done. injection E as <-. unfold start in Es. cbv zeta in Es.
  apply bind_inv in Es as (li & a1 & _ & Es). apply try_bind_inv in Es as [(u & a2 & _ & Es)|(e & _ & ?)]; [|done].
  apply bind_inv in Es as (cs & a3 & _ & Es). apply bind_inv in Es as (u1 & a4 & _ & Es). apply bind_inv in Es as (u2 & a5 & _ & Es).
  apply bind_inv in Es as (u3 & a6 & _ & Es). apply bind_inv in Es as (self & a7 & [-> ->]%get_inv & Es).
  apply bind_inv in Es as (u4 & a8 & Es & [_ <-]%ret_inv). unfold become_follower in Es.
  apply bind_inv in Es as (self & a9 & [-> ->]%get_inv & Es). apply bind_inv in Es as (u5 & a10 & Er & Es).
  apply reset_forgets in Er as [Hro _]. by prog_inv.
Qed.
End handling.
