(* ===== verification/Agreement.v ===== *)
(** * The logs of a cluster agree ([raft.rs], [raft_log.rs])

    What is committed on one node is what is committed on every other node, now and
    later.  The cluster is that of [LogMatching.v], where every message that states
    something was sent, snapshots are not used and logs are not compacted.  The proof keeps
    the record of [Chosen.v] next to the cluster; [Provenance.v] and [Receives.v] tell
    that every node acts by it. *)

From S2P Require Import Prelude Proto Errors Util Inflights Progress Quorum Tracker ConfChange.
From S2P Require Import Log Unstable Storage RaftLog ReadOnly Config RaftCore Raft RaftFrame Writes.
From S2P Require Import RaftExample RaftProps Cluster LogMatching Chosen Provenance Receives Growth.

(** ** The cluster *)
Section cluster.
Context {T : Type} `{StorageLaws T} `{Codec} `{HashOrder} `{ConfigurationDebug} `{Rng}.
Context (V : Joint.Configuration) (HV : Majority.voters (Joint.incoming V) <> ∅).
Import RaftCore Raft.
#[local] Set Default Proof Using "All".
Implicit Types (s : Raft.t T) (c : cluster (T := T)) (g : ghost) (past : Z -> Z -> Prop) (acks : Z -> Z -> Z -> Prop) (L : Z -> Z -> Prop).
Abbreviation log s := (view (raft_log (r s))).
Abbreviation commit s := (RaftLog.committed (raft_log (r s))).
Abbreviation stored_log s := (storage_log (RaftLog.store (raft_log (r s)))).

(** A message that states nothing, which need not have been sent. *)
Definition free_message (ty : MessageType) : Prop :=
  match ty with
  | MsgHup | MsgBeat | MsgPropose | MsgHeartbeatResponse | MsgUnreachable | MsgSnapStatus | MsgCheckQuorum
  | MsgTransferLeader | MsgTimeoutNow | MsgReadIndex => True
  | _ => False
  end.

(** A positive answer to the position [n] of the leader of [t]. *)
Definition acknowledges (m : Message.t) (n t : Z) : Prop :=
  Message.msg_type m = MsgAppendResponse /\ Message.reject m = false /\ 0 < Message.index m /\ Message.index m = n /\ Message.term m = t.
Definition pending s (n t : Z) : Prop := exists m, m ∈ msgs s /\ acknowledges m n t.

(** The steps of [LogMatching.v] with the rest of what the nodes rely on: snapshots are
    not sent and logs are not compacted, a message that states something was sent to the
    node that takes it in, the application keeps entries it has stored, has stored the log
    when it sends the acknowledgements of it, and a node comes up with the term and
    vote it had and no commit index beyond the entries it stored. *)
Inductive full_log_step c : cluster -> Prop :=
  | full_deliver i s m x s' : nodes c !! i = Some s -> Message.msg_type m <> MsgSnapshot ->
      free_message (Message.msg_type m) \/ (m ∈ net c /\ Message.to m = i) ->
      wf_msg m -> fresh s -> room (len (Message.entries m) + 1) s -> step m s = Ret (x, s') -> voters_of s' = V ->
      full_log_step c (mk_cluster (<[i := s']> (nodes c)) (net c))
  | full_own i s s' : nodes c !! i = Some s -> own_work s s' -> voters_of s' = V ->
      full_log_step c (mk_cluster (<[i := s']> (nodes c)) (net c))
  | full_app i s l : nodes c !! i = Some s -> app_step (raft_log (r s)) l -> rooted (storage_log (RaftLog.store l)) ->
      (forall k e, entry (stored_log s) k = Some e -> entry (log s) k = Some e -> entry (storage_log (RaftLog.store l)) k = Some e) ->
      full_log_step c (mk_cluster (<[i := s <| r := (r s) <| raft_log := l |> |>]> (nodes c)) (net c))
  | full_transmit i s : nodes c !! i = Some s -> (forall n t, pending s n t -> begins (log s) (stored_log s)) ->
      full_log_step c (mk_cluster (<[i := s <| msgs := [] |>]> (nodes c)) (net c ++ msgs s))
  | full_restart i s s' : nodes c !! i = Some s -> started_from (stored_log s) i s' ->
      term (r s') = term (r s) -> vote (r s') = vote (r s) -> voters_of s' = V -> commit s' <= commit s ->
      (forall k, k <= commit s' -> entry (stored_log s) k = entry (log s) k) ->
      full_log_step c (mk_cluster (<[i := s']> (nodes c)) (net c)).

Lemma full_log_cluster c c' : full_log_step c c' -> log_cluster_step V c c'.
Proof.
  intros [i s m x s' Hi _ Hn Hm Hf Hr E HV'|i s s' Hi Hw HV'|i s l Hi Hl _ _|i s Hi _|i s s' Hi Hs Ht Hv HV' _ _].
  - eapply log_deliver; try done; intros Hty; rewrite Hty in Hn; by destruct Hn as [?|[? ?]].
  - by eapply log_own.
  - by apply log_app.
  - by apply log_transmit.
  - by eapply log_restart.
Qed.

(** At first the logs have no entries. *)
Definition initial_roots c : Prop := initial_logs V c /\ forall i s, nodes c !! i = Some s -> rooted (log s) /\ 0 <= term (r s).

(** *** The invariant *)
Definition past_of c : Z -> Z -> Prop := fun x t => exists s, nodes c !! x = Some s /\ t <= term (r s).
Definition acks_of g c : Z -> Z -> Z -> Prop := fun x n t => acked g x n t \/ exists s, nodes c !! x = Some s /\ pending s n t.

(** The vote that a message gives is one that keeps its promise. *)
Definition promised g past acks (m : Message.t) : Prop :=
  promises g (terms g) past acks (Message.from m) (Message.term m) (cand g (Message.to m) (Message.term m)) /\
  past (Message.to m) (Message.term m).
(** Why a node may put a message out, and what is known of one that was sent. *)
Definition put_out g past acks (i : Z) (m : Message.t) : Prop :=
  (Message.msg_type m = MsgRequestVoteResponse -> promised g past acks m) /\
  (Message.msg_type m = MsgAppendResponse -> Message.from m = i).
Definition sent_out g past acks (m : Message.t) : Prop :=
  (Message.msg_type m = MsgRequestVoteResponse -> promised g past acks m) /\
  (Message.msg_type m = MsgAppendResponse -> Message.term m ∈ terms g /\ acked g (Message.from m) (Message.index m) (Message.term m)).

Record node_safe g past acks (i : Z) s : Prop := {
  ns_sound : sound V g (put_out g past acks i) s;
  ns_runs : may_run g s;
  ns_stored : well_led g (terms g) (stored_log s);
  ns_stored_terms n e : entry (stored_log s) n = Some e -> Entry.term e <= term (r s);
  ns_acks n t : acks i n t -> ack_ok V g (log s) (term (r s)) n t;
  ns_kept n t : acked g i n t -> ack_ok V g (stored_log s) (term (r s)) n t;
  ns_votes v : state (r s) = Candidate -> ProgressTracker.votes (prs s) !! v = Some true -> v = i \/
    promises g (terms g) past acks v (term (r s)) (log s);
  ns_leader : state (r s) = Leader -> led g (term (r s)) = log s;
  ns_term : 0 <= term (r s) /\ (runs s -> 0 < term (r s))
}.

Record safe g L c : Prop := {
  sf_history : history_ok V g (past_of c) (acks_of g c);
  sf_nodes i s : nodes c !! i = Some s -> node_safe g (past_of c) (acks_of g c) i s;
  sf_net m : m ∈ net c -> truthful V g (sent_out g (past_of c) (acks_of g c)) m /\
    (Message.msg_type m = MsgRequestVote -> past_of c (Message.from m) (Message.term m));
  sf_rooted t : rooted (led g t);
  sf_terms t : t ∈ terms g -> 0 < t /\ exists j, L j t;
  sf_acked x n t : acked g x n t -> is_Some (nodes c !! x)
}.

Lemma safe_known g L c x n t : safe g L c -> acks_of g c x n t -> 0 < n -> t ∈ terms g.
Proof.
  intros Hs Ha. assert (exists s, nodes c !! x = Some s) as [s Hx].
  { destruct Ha as [Ha|(s & Hx & _)]; [by apply (sf_acked _ _ _ Hs) in Ha|by exists s]. }
  apply (ns_acks _ _ _ _ _ (sf_nodes _ _ _ Hs _ _ Hx)) in Ha. apply Ha.
Qed.

(** *** The record grows *)
Section mono.
Context (g g' : ghost) (past past' : Z -> Z -> Prop) (acks acks' : Z -> Z -> Z -> Prop).
Context (Hok : history_ok V g past acks) (Hg : grows_to g past acks g' past' acks').
Context (Hcand : forall x t, past x t -> cand g' x t = cand g x t).

Lemma promised_mono m : promised g past acks m -> promised g' past' acks' m.
Proof.
  intros [Hp Ht]. split; [|by apply Hg]. rewrite Hcand by done. eapply (promises_mono V g g'); [done..| |exact Hp].
  intros u Hu. split; [done|by apply Hg].
Qed.
Lemma put_out_mono i m : put_out g past acks i m -> put_out g' past' acks' i m.
Proof. intros [Hv Ha]. split; [intros Hty; by apply promised_mono, Hv|done]. Qed.
Lemma sent_out_mono m : sent_out g past acks m -> sent_out g' past' acks' m.
Proof. intros [Hv Ha]. split; [intros Hty; by apply promised_mono, Hv|]. intros Hty. destruct (Ha Hty). split; by apply Hg. Qed.

(** A node to which nothing happens. *)
Lemma node_safe_mono i s : node_safe g past acks i s -> id (r s) = i -> (forall t, past i t <-> t <= term (r s)) -> (forall t, cand g' i t = cand g i t) ->
  (forall n t, acks' i n t -> acks i n t) -> (forall n t, acked g' i n t -> acked g i n t) ->
  (state (r s) = Leader -> led g' (term (r s)) = led g (term (r s))) -> node_safe g' past' acks' i s.
Proof.
  intros [] Hid Hp Hc Ha Hak Hl. split.
  - eapply (sound_mono V g g' past past' acks acks' Hok Hg); [exact ns_sound0| |intros; by rewrite Hid].
    intros m _ _. apply put_out_mono.
  - intros t Ht. rewrite Hid, Hc, <-Hid. by apply ns_runs0.
  - eapply (well_led_mono V g g'); [done..| |done]. intros t Ht. split; [done|by apply Hg].
  - done.
  - intros n t Hn. eapply (ack_ok_mono V g g'); [done..|]. by apply ns_acks0, Ha.
  - intros n t Hn. eapply (ack_ok_mono V g g'); [done..|]. by apply ns_kept0, Hak.
  - intros v Hst Hv. destruct (ns_votes0 v Hst Hv) as [?|Hpr]; [by left|right]. eapply (promises_mono V g g'); [done..| |exact Hpr].
    intros u Hu. split; [done|by apply Hg].
  - intros Hst. rewrite Hl; auto.
  - done.
Qed.
Lemma net_mono m : truthful V g (sent_out g past acks) m /\ (Message.msg_type m = MsgRequestVote -> past (Message.from m) (Message.term m)) ->
  truthful V g' (sent_out g' past' acks') m /\ (Message.msg_type m = MsgRequestVote -> past' (Message.from m) (Message.term m)).
Proof.
  intros [Ht Hp]. split; [|intros Hty; by apply Hg, Hp]. eapply (truthful_mono V g g'); [done..| | |exact Ht].
  - intros _. apply sent_out_mono.
  - intros Hty. by apply Hcand, Hp.
Qed.
End mono.

(** *** A node is replaced *)
Section replace.
Context (g g' : ghost) (L L' : Z -> Z -> Prop) (c : cluster (T:=T)) (i : Z) (s s' : Raft.t T) (ms : list Message.t).
Abbreviation c' := (mk_cluster (<[i := s']> (nodes c)) ms).
Context (Hsafe : safe g L c) (Hids : forall j s, nodes c !! j = Some s -> id (r s) = j) (Hi : nodes c !! i = Some s)
  (Hterm : term (r s) <= term (r s')).

Lemma past_kept x t : past_of c x t -> past_of c' x t.
Proof.
  intros (s0 & Hx & Ht). destruct (decide (x = i)) as [->|Hne].
  - exists s'. split; [apply lookup_insert_eq|]. rewrite Hi in Hx. injection Hx as <-. lia.
  - exists s0. split; [|done]. simpl. by rewrite lookup_insert_ne.
Qed.
Lemma past_now t : past_of c' i t <-> t <= term (r s').
Proof.
  split; [|intros Ht; exists s'; split; [apply lookup_insert_eq|done]].
  intros (s0 & Hx & Ht). simpl in Hx. rewrite lookup_insert_eq in Hx. by injection Hx as <-.
Qed.
Lemma past_node x sx t : nodes c !! x = Some sx -> past_of c x t <-> t <= term (r sx).
Proof. intros Hx. split; [intros (s0 & Hs0 & ?); rewrite Hx in Hs0; by injection Hs0 as <-|by exists sx]. Qed.
Lemma acks_other x n t : x <> i -> acks_of g' c' x n t -> acked g' x n t \/ acks_of g c x n t.
Proof.
  intros Hne [?|(s0 & Hx & Hp)]; [by left|right]. right. exists s0. split; [|done]. simpl in Hx. by rewrite lookup_insert_ne in Hx.
Qed.
Lemma acks_now n t : acks_of g' c' i n t <-> acked g' i n t \/ pending s' n t.
Proof.
  unfold acks_of. simpl. rewrite lookup_insert_eq. split; [intros [?|(s0 & [= <-] & ?)]; auto|intros [?|?]; [by left|right; by exists s']].
Qed.

Context (Hg : grows_to g (past_of c) (acks_of g c) g' (past_of c') (acks_of g' c')) (Hok' : history_ok V g' (past_of c') (acks_of g' c')).
Context (Hcand : forall j t, j <> i \/ t <= term (r s) -> cand g' j t = cand g j t)
  (Hacked : forall j n t, j <> i -> acked g' j n t -> acked g j n t)
  (Hled : forall j sj, j <> i -> nodes c !! j = Some sj -> state (r sj) = Leader -> led g' (term (r sj)) = led g (term (r sj)))
  (Hterms : forall t, t ∈ terms g' -> 0 < t /\ exists j, L' j t)
  (Hms : forall m, m ∈ ms -> m ∈ net c \/ (truthful V g' (sent_out g' (past_of c') (acks_of g' c')) m /\
    (Message.msg_type m = MsgRequestVote -> past_of c' (Message.from m) (Message.term m)))).

Lemma cand_past x t : past_of c x t -> cand g' x t = cand g x t.
Proof.
  intros (s0 & Hx & Ht). apply Hcand. destruct (decide (x = i)) as [->|]; [right|by left]. rewrite Hi in Hx. by injection Hx as <-.
Qed.

Lemma safe_replace : node_safe g' (past_of c') (acks_of g' c') i s' -> safe g' L' c'.
Proof.
  intros Hnode. split; [done| | |apply Hg|done|].
  - intros j sj Hj. simpl in Hj. rewrite lookup_insert in Hj. case_decide as Hji; [injection Hj as <-; by subst j|].
    eapply (node_safe_mono g g'); [apply (sf_history _ _ _ Hsafe)|exact Hg|exact cand_past|by apply (sf_nodes _ _ _ Hsafe)|by apply Hids|..].
    + intros t. by apply past_node.
    + intros t. apply Hcand. by left.
    + intros n t Ha. apply acks_other in Ha as [Ha|?]; [left; by apply Hacked|done|done].
    + intros n t. by apply Hacked.
    + intros Hl. by eapply Hled.
  - intros m [Hm|?]%Hms; [|done]. eapply (net_mono g g'); [apply (sf_history _ _ _ Hsafe)|exact Hg|exact cand_past|].
    by apply (sf_net _ _ _ Hsafe).
  - intros x n t Ha. simpl. destruct (decide (x = i)) as [->|Hne]; [rewrite lookup_insert_eq; by eexists|].
    rewrite lookup_insert_ne by done. by eapply (sf_acked _ _ _ Hsafe), Hacked.
Qed.
End replace.

(** *** A node takes a step

    First the record follows the node: if it is leader now, it was elected or its log has
    grown.  Then its messages and what it may run with are recorded. *)
Section turn.
Context (g : ghost) (L L' : Z -> Z -> Prop) (c : cluster (T:=T)) (i : Z) (s s' : Raft.t T).
Abbreviation c' := (mk_cluster (<[i := s']> (nodes c)) (net c)).
Context (Hsafe : safe g L c) (Hids : forall j s, nodes c !! j = Some s -> id (r s) = j) (Hi : nodes c !! i = Some s)
  (Hterm : term (r s) <= term (r s')).
Abbreviation past' := (past_of c').
Abbreviation acks := (acks_of g c).

(** The leader's own acknowledgements. *)
Definition own_acks (x n t : Z) : Prop := x = i /\ t = term (r s') /\ n <= RaftLog.persisted (raft_log (r s')) /\ state (r s') = Leader.

Record turned (g1 : ghost) (acks1 : Z -> Z -> Z -> Prop) : Prop := {
  tu_grows : grows_to g (past_of c) acks g1 past' acks1;
  tu_history : history_ok V g1 past' acks1;
  tu_cand x t : cand g1 x t = cand g x t;
  tu_acked x n t : acked g1 x n t -> acked g x n t \/ own_acks x n t;
  tu_acks x n t : acks1 x n t -> acks x n t \/ own_acks x n t;
  tu_old x n t : acks x n t -> acks1 x n t;
  tu_terms t : t ∈ terms g1 -> t ∈ terms g \/ (t = term (r s') /\ state (r s') = Leader);
  tu_led t : t <> term (r s') \/ state (r s') <> Leader -> led g1 t = led g t;
  tu_leader : state (r s') = Leader -> term (r s') ∈ terms g1 /\ led g1 (term (r s')) = log s' /\
    forall n, n <= RaftLog.persisted (raft_log (r s')) -> acked g1 i n (term (r s'))
}.

Context (Hlog : state (r s') = Leader -> exists es, log s' = ALog.append (log s) es /\ Forall (fun e => Entry.term e = term (r s')) es)
  (Hpos : state (r s') = Leader -> 0 < term (r s'))
  (Hold : state (r s') = Leader -> term (r s') ∈ terms g -> led g (term (r s')) = log s)
  (Hnew : state (r s') = Leader -> term (r s') ∉ terms g -> exists votes : Z -> option bool, Joint.vote_result V votes = Won /\
    forall x, votes x = Some true -> promises g (terms g) past' acks x (term (r s')) (log s)).

Lemma lead_turned g0 past0 : grows_to g (past_of c) acks g0 past0 acks -> history_ok V g0 past0 acks -> state (r s') = Leader ->
  term (r s') ∈ terms g0 -> led g0 (term (r s')) = log s -> (forall x t, cand g0 x t = cand g x t) -> (forall x n t, acked g0 x n t -> acked g x n t) ->
  (forall t, t ∈ terms g0 -> t ∈ terms g \/ t = term (r s')) -> (forall t, t <> term (r s') -> led g0 t = led g t) ->
  (forall x t, past0 x t -> past' x t) -> exists g1 acks1, turned g1 acks1.
Proof.
  intros Hg Hok Hl Hin Hled Hc Hak Hts Hle Hp. destruct (Hlog Hl) as (es & Hes & Hf). rewrite <-Hled in Hes.
  set (p := RaftLog.persisted (raft_log (r s'))).
  assert (forall t, rooted (led g0 t)) as Hroot by apply Hg.
  assert (forall x n t, acks x n t -> 0 < n -> t ∈ terms g0) as Hknown by (intros x n t Ha Hn; apply Hg; by eapply safe_known).
  assert (forall u, past0 i u -> u <= term (r s')) as Hpi.
  { intros u Hu. apply Hp in Hu. by apply (past_now g g L L c i s s' (net c)) in Hu. }
  exists (lead g0 i (term (r s')) (log s') p), (fun x n u => acks x n u \/ (x = i /\ u = term (r s') /\ n <= p)). split.
  - eapply grows_to_trans; [exact Hg|]. by eapply (lead_grows V g0 past0 past').
  - by eapply (lead_ok V g0 past0 past'); eauto.
  - done.
  - simpl. intros x n t [?|(-> & -> & ?)]; [left; auto|by right].
  - simpl. intros x n t [?|(-> & -> & ?)]; [by left|by right].
  - by left.
  - simpl. intros t [?| ->]%Hts; [by left|by right].
  - simpl. intros t Ht. destruct (Z.eqb_spec t (term (r s'))) as [->|Hne]; [|by apply Hle]. destruct Ht; done.
  - intros _. simpl. rewrite Z.eqb_refl. split_and!; [done..|]. intros n Hn. by right.
Qed.

Lemma record_follows : exists g1 acks1, turned g1 acks1.
Proof.
  pose proof (sf_history _ _ _ Hsafe) as Hok. pose proof (sf_rooted _ _ _ Hsafe) as Hroot.
  pose proof (past_kept g g L L c i s s' (net c) Hsafe Hids Hi Hterm) as Hp.
  assert (forall x n t, acks x n t -> 0 < n -> t ∈ terms g) as Hknown by (intros x n t; by apply (safe_known g L c)).
  assert (grows_to g (past_of c) acks g past' acks) as Hsame by by apply (same_record_grows V g (past_of c) past' acks acks Hok Hroot Hknown Hp).
  assert (history_ok V g past' acks) as Hok'.
  { apply (history_mono V g g (past_of c) past' acks acks Hok Hsame); try done. apply Hok. }
  destruct (decide (state (r s') = Leader)) as [Hl|Hl].
  - destruct (decide (term (r s') ∈ terms g)) as [Hin|Hin].
    + apply (lead_turned g past'); auto.
    + destruct (Hnew Hl Hin) as (votes & Hwon & Hv). pose proof (ns_sound _ _ _ _ _ (sf_nodes _ _ _ Hsafe _ _ Hi)) as Hs.
      pose proof (so_log _ _ _ _ Hs) as Hwl.
      apply (lead_turned (elect g (term (r s')) (log s)) past').
      * by apply (elect_grows V g (past_of c) past' acks acks Hok Hroot Hknown Hp); [|eapply wl_rooted].
      * eapply (elect_ok V g (past_of c) past' acks acks Hok Hroot Hknown Hp); try done.
        intros n e He. etrans; [by eapply (so_terms _ _ _ _ Hs)|done].
      * done.
      * simpl. by left.
      * simpl. by rewrite Z.eqb_refl.
      * done.
      * done.
      * simpl. intros t [->|?]%elem_of_cons; auto.
      * simpl. intros t Ht. by rewrite (proj2 (Z.eqb_neq _ _)).
      * done.
  - exists g, acks. split; try done; auto; intros; by left.
Qed.

(** What the node puts out now: what it put out before, votes that keep their promise and
    acknowledgements of what it has. *)
Section settle.
Context (g1 : ghost) (acks1 : Z -> Z -> Z -> Prop) (Htu : turned g1 acks1).
Definition puts_out (m : Message.t) : Prop := (Message.msg_type m = MsgRequestVoteResponse -> promised g1 past' acks1 m) /\
  (Message.msg_type m = MsgAppendResponse -> Message.from m = i /\ (m ∈ msgs s \/
    (Message.term m = term (r s') /\ term (r s') ∈ terms g1 /\ holds V g1 (log s') (term (r s')) (Message.index m)))).
Abbreviation g2 := (prepare g1 i (term (r s')) (log s')).

(** The record tells of the node before as of the one after. *)
Lemma turned_rooted : forall t, rooted (led g1 t).
Proof. apply (tu_grows _ _ Htu). Qed.
Lemma turned_acks n t : acks i n t -> ack_ok V g1 (log s) (term (r s)) n t.
Proof.
  intros Ha. eapply (ack_ok_mono V g g1 _ _ _ _ (sf_history _ _ _ Hsafe) (tu_grows _ _ Htu)). by apply (sf_nodes _ _ _ Hsafe _ _ Hi).
Qed.
Lemma turned_positive t : t ∈ terms g1 -> 0 < t.
Proof. intros [Ht|[-> Hl]]%(tu_terms _ _ Htu); [by apply (sf_terms _ _ _ Hsafe)|auto]. Qed.

Lemma sound_before : sound V g1 puts_out s.
Proof.
  pose proof (sf_nodes _ _ _ Hsafe _ _ Hi) as [].
  apply (sound_mono V g g1 _ _ _ _ (sf_history _ _ _ Hsafe) (tu_grows _ _ Htu) (put_out g (past_of c) acks i)); [done| |intros; apply (tu_cand _ _ Htu)].
  intros m Hm _ [Hv Ha]. split.
  - intros Hty. eapply (promised_mono g g1); [apply (sf_history _ _ _ Hsafe)|apply (tu_grows _ _ Htu)|intros; apply (tu_cand _ _ Htu)|by apply Hv].
  - intros Hty. split; [by apply Ha|by left].
Qed.
Lemma runs_before : may_run g1 s.
Proof. intros t Ht. rewrite (tu_cand _ _ Htu). by apply (sf_nodes _ _ _ Hsafe _ _ Hi). Qed.

(** What the leader has stored. *)
Lemma own_holds n t : log_ok (raft_log (r s')) -> rooted (log s') -> own_acks i n t ->
  t = term (r s') /\ t ∈ terms g1 /\ holds V g1 (log s') t n /\ holds V g1 (stored_log s') t n.
Proof.
  intros Hlk Hr (_ & -> & Hn & Hl). destruct (tu_leader _ _ Htu Hl) as (Hin & Hled & _). split; [done|]. split; [done|].
  pose proof (lo_persisted _ Hlk). pose proof (view_last _ Hlk) as Hlast. pose proof (len_nonneg (Unstable.entries (RaftLog.unstable (raft_log (r s'))))).
  assert (forall k, 0 < k <= n -> entry (stored_log s') k = entry (log s') k) as Hst.
  { intros k Hk. symmetry. apply at_index_stable; [done| |lia]. destruct (Unstable.snapshot _) eqn:Es; [|done]. exfalso.
    pose proof (view_base (raft_log (r s'))) as Hb. rewrite Es in Hb. destruct Hr as [Hr _]. lia. }
  assert (forall k, 0 < k <= n -> exists e, entry (log s') k = Some e /\ entry (led g1 (term (r s'))) k = Some e) as Hh.
  { intros k Hk. rewrite Hled. destruct (entry_here (log s') k Hr) as [e He]; [lia|]. by exists e. }
  split; apply (holds_led V g1 past' acks1 HV (tu_history _ _ Htu)); intros k Hk; rewrite ?Hst by done; auto.
Qed.

Context (Hid : id (r s') = i).
Lemma turned_recorded : recorded V g1 puts_out s'.
Proof.
  split.
  - intros Hl. destruct (tu_leader _ _ Htu Hl) as (Hin & Hled & Hown). rewrite Hled, Hid. split_and!; auto. apply begins_refl.
  - intros m Hty Hrej Hn Hfr Ht Hin Hh. split; [congruence|]. intros _. split; [congruence|by right].
Qed.
Lemma turned_votes m0 : (Message.msg_type m0 = MsgRequestVote -> past_of c (Message.from m0) (Message.term m0)) ->
  id (r s) = i -> explains_votes g1 puts_out s s' m0.
Proof.
  intros Hreq Hid0 m Hty Hrej Hfr Ht Hty0 Hto Hterm0 Hnew0. pose proof (sf_nodes _ _ _ Hsafe _ _ Hi) as [].
  split; [|congruence]. intros _. split.
  - rewrite Hfr, Hid0. exists (log s). split_and!.
    + apply (past_now g g L L c i s s' (net c)); [done..|lia].
    + eapply (well_led_mono V g g1); [apply (sf_history _ _ _ Hsafe)|apply (tu_grows _ _ Htu)| |apply (so_log _ _ _ _ ns_sound0)].
      intros u Hu. split; [done|by apply (tu_grows _ _ Htu)].
    + done.
    + intros n t Ha Htt. destruct (tu_acks _ _ Htu _ _ _ Ha) as [Ha'|(_ & -> & _)]; [|lia]. by apply turned_acks in Ha' as [].
  - rewrite Hto, Hterm0. apply (tu_grows _ _ Htu). by apply Hreq.
Qed.
Lemma turned_heartbeat m x : wf_msg m -> step m s = Ret (x, s') -> id (r s) = i -> heartbeat_known V g1 s m.
Proof.
  intros Hm E Hid0 Hty n. rewrite Hid0. intros [Ha|Hown]%(tu_acked _ _ Htu); [apply turned_acks; by left|].
  pose proof Hown as (_ & Ht & _ & Hl). pose proof (ns_sound _ _ _ _ _ (sf_nodes _ _ _ Hsafe _ _ Hi)) as Hs.
  apply (heartbeat_leader m s x) in E as Hr; [|done|done|rewrite Ht; specialize (Hpos Hl); lia|done].
  apply own_holds in Hown as (_ & Hin & Hh & _); [|rewrite Hr; apply Hs|rewrite Hr; by eapply sound_rooted].
  rewrite Ht, <-Hr. rewrite Ht in Hin, Hh. apply (ack_ok_now V g1 past' acks1 HV (tu_history _ _ Htu)); [done|apply turned_rooted|done].
Qed.
Lemma turned_heard m : Message.msg_type m <> MsgSnapshot -> free_message (Message.msg_type m) \/ (m ∈ net c /\ Message.to m = i) -> id (r s) = i ->
  heard V g1 s m.
Proof.
  intros Hsn Hm Hid0. split; [..|done].
  - destruct Hm as [Hf|[Hin _]].
    + split; [|by destruct (Message.msg_type m)]. intros [_ [Hty|[Hty _]]]; by rewrite Hty in Hf.
    + destruct (sf_net _ _ _ Hsafe m Hin) as [Htr _]. eapply (truthful_mono V g g1 _ _ _ _ (sf_history _ _ _ Hsafe) (tu_grows _ _ Htu)); [| |exact Htr].
      * intros _ [_ Ha] Hty. destruct (Ha Hty). split; by apply (tu_grows _ _ Htu).
      * intros _. apply (tu_cand _ _ Htu).
  - intros Hty. rewrite Hty in Hm. destruct Hm as [?|[_ ->]]; done.
Qed.

Context (Hsound : sound V g1 puts_out s') (Hstored : stored_log s' = stored_log s)
  (Hacks : forall n t, ack_ok V g1 (log s) (term (r s)) n t -> ack_ok V g1 (log s') (term (r s')) n t)
  (Hvotes : forall v, state (r s') = Candidate -> ProgressTracker.votes (prs s') !! v = Some true -> v = i \/
    promises g1 (terms g1) past' acks1 v (term (r s')) (log s'))
  (Hruns : runs s' -> 0 < term (r s'))
  (Honce : forall j sj, j <> i -> nodes c !! j = Some sj -> state (r sj) = Leader -> state (r s') = Leader -> term (r sj) <> term (r s'))
  (HL : forall j t, L j t -> L' j t) (Hleads : state (r s') = Leader -> L' i (term (r s'))).

Lemma turned_known x n t : acks1 x n t -> 0 < n -> t ∈ terms g1.
Proof.
  intros [Ha|(-> & -> & _ & Hl)]%(tu_acks _ _ Htu) Hn; [|by apply (tu_leader _ _ Htu)].
  apply (tu_grows _ _ Htu). by eapply safe_known.
Qed.

(** Acknowledgements that the node puts out. *)
Lemma pending_now n t : pending s' n t -> acks i n t \/ (t = term (r s') /\ term (r s') ∈ terms g1 /\ holds V g1 (log s') (term (r s')) n).
Proof.
  intros (m & Hm & Hack). pose proof Hack as (Hty & Hrej & Hn & <- & <-). destruct (so_msgs _ _ _ _ Hsound m Hm) as [[Hk _] _].
  destruct Hk as [_ Hk]; [split; [done|right; by split]|]. destruct (Hk Hty) as [_ [Hin|?]]; [left|by right].
  right. exists s. split; [done|]. by exists m.
Qed.

Lemma recorded_grows : grows_to g1 past' acks1 g2 past' (acks_of g2 c').
Proof.
  apply (same_record_grows V g1 past' past' acks1 (acks_of g2 c') (tu_history _ _ Htu)); try done.
  - apply (tu_grows _ _ Htu).
  - exact turned_known.
  - intros x n t t' Ha Hp Hlt. destruct (decide (x = i)) as [->|Hne].
    + apply (past_now g g L L c i s s' (net c)) in Hp; [|done..]. apply (acks_now g g2 L L c i s s' (net c)) in Ha as [Ha|Ha]; [..|done|done|done|done].
      * by apply (ho_acked _ _ _ _ (tu_history _ _ Htu)).
      * apply pending_now in Ha as [Ha|(-> & _)]; [by apply (tu_old _ _ Htu)|lia].
    + apply (acks_other g g2 L L c i s s' (net c)) in Ha as [Ha|Ha]; try done.
      * by apply (ho_acked _ _ _ _ (tu_history _ _ Htu)).
      * by apply (tu_old _ _ Htu).
Qed.
Lemma settled_grows : grows_to g (past_of c) acks g2 past' (acks_of g2 c').
Proof. eapply grows_to_trans; [apply (tu_grows _ _ Htu)|exact recorded_grows]. Qed.
Lemma settled_history : history_ok V g2 past' (acks_of g2 c').
Proof.
  apply (history_mono V g1 g2 past' past' acks1 (acks_of g2 c') (tu_history _ _ Htu) recorded_grows); try done. by left.
Qed.

Lemma cand_settled x t : past' x t -> cand g2 x t = cand g1 x t.
Proof.
  intros Hp. simpl. destruct (Z.eqb_spec x i) as [->|]; [|done]. apply (past_now g g L L c i s s' (net c)) in Hp; [|done..].
  by rewrite (proj2 (Z.ltb_ge _ _)).
Qed.

(** What the node acknowledged before, for its log and its storage now. *)
Lemma old_acks n t : acks i n t -> ack_ok V g2 (log s') (term (r s')) n t.
Proof.
  intros Ha. eapply (ack_ok_mono V g1 g2 past' past' acks1 _ (tu_history _ _ Htu) recorded_grows). apply Hacks.
  eapply (ack_ok_mono V g g1 _ _ _ _ (sf_history _ _ _ Hsafe) (tu_grows _ _ Htu)). by apply (sf_nodes _ _ _ Hsafe _ _ Hi).
Qed.
Lemma old_kept n t : acked g i n t -> ack_ok V g2 (stored_log s') (term (r s')) n t.
Proof.
  intros Ha. rewrite Hstored. eapply (ack_ok_mono V g g2 _ _ _ _ (sf_history _ _ _ Hsafe) settled_grows).
  apply (ack_ok_later V g _ _ HV (sf_history _ _ _ Hsafe) _ (term (r s))); [done|]. by apply (sf_nodes _ _ _ Hsafe _ _ Hi).
Qed.
Lemma new_acks w n : term (r s') ∈ terms g1 -> holds V g1 w (term (r s')) n -> ack_ok V g2 w (term (r s')) n (term (r s')).
Proof.
  intros Hin Hh. eapply (ack_ok_mono V g1 g2 past' past' acks1 _ (tu_history _ _ Htu) recorded_grows).
  apply (ack_ok_now V g1 past' acks1 HV (tu_history _ _ Htu)); [done| |done]. apply (tu_grows _ _ Htu).
Qed.
Lemma settled_node : node_safe g2 past' (acks_of g2 c') i s'.
Proof.
  pose proof (sf_nodes _ _ _ Hsafe _ _ Hi) as []. pose proof settled_grows as Hg. pose proof recorded_grows as Hg2. split.
  - apply (sound_mono V g1 g2 past' past' acks1 _ (tu_history _ _ Htu) Hg2 puts_out).
    + exact Hsound.
    + intros m Hm _ [Hv Ha]. split; [|intros Hty; by apply Ha]. intros Hty. eapply (promised_mono g1 g2); [apply (tu_history _ _ Htu)|exact Hg2|exact cand_settled|].
      by apply Hv.
    + intros t Ht. rewrite Hid. apply cand_settled. by apply (past_now g g L L c i s s' (net c)).
  - intros t Ht. rewrite Hid. simpl. by rewrite Z.eqb_refl, (proj2 (Z.ltb_lt _ _)).
  - rewrite Hstored. eapply (well_led_mono V g g2); [apply (sf_history _ _ _ Hsafe)|exact Hg| |exact ns_stored0].
    intros t Ht. split; [done|by apply Hg].
  - rewrite Hstored. intros n e He. specialize (ns_stored_terms0 n e He). lia.
  - intros n t Ha. apply (acks_now g g2 L L c i s s' (net c)) in Ha as [Ha|Ha]; try done.
    + simpl in Ha. destruct (tu_acked _ _ Htu _ _ _ Ha) as [?|Hown]; [apply old_acks; by left|].
      apply own_holds in Hown as (-> & Hin & Hh & _); [|apply Hsound|by eapply sound_rooted]. by apply new_acks.
    + apply pending_now in Ha as [?|(-> & Hin & Hh)]; [by apply old_acks|by apply new_acks].
  - intros n t Ha. simpl in Ha. destruct (tu_acked _ _ Htu _ _ _ Ha) as [?|Hown]; [by apply old_kept|].
    apply own_holds in Hown as (-> & Hin & _ & Hh); [|apply Hsound|by eapply sound_rooted]. by apply new_acks.
  - intros v Hst Hv. destruct (Hvotes v Hst Hv) as [?|Hp]; [by left|right].
    eapply (promises_mono V g1 g2); [apply (tu_history _ _ Htu)|exact Hg2| |exact Hp]. intros u Hu. by split.
  - intros Hl. by apply (tu_leader _ _ Htu).
  - split; [lia|done].
Qed.

Lemma settled_safe : safe g2 L' c' /\ forall v k, decided V g v k -> decided V g2 v k.
Proof.
  split.
  - apply (safe_replace g g2 L L' c i s s' (net c)); try done.
    + exact settled_grows.
    + exact settled_history.
    + intros j t Hj. simpl. rewrite (tu_cand _ _ Htu). destruct (Z.eqb_spec j i) as [->|]; [|done]. destruct Hj as [?|Hj]; [done|].
      by rewrite (proj2 (Z.ltb_ge _ _)) by lia.
    + intros j n t Hj. simpl. intros [?|(? & _)]%(tu_acked _ _ Htu); done.
    + intros j sj Hj Hjs Hl. simpl. apply (tu_led _ _ Htu). destruct (decide (state (r s') = Leader)); [left; by eapply Honce|by right].
    + intros t. simpl. intros [Ht|[-> Hl]]%(tu_terms _ _ Htu).
      * destruct (sf_terms _ _ _ Hsafe t Ht) as [? [j ?]]. split; [done|exists j; auto].
      * split; [apply Hruns; by right|exists i; auto].
    + by left.
    + exact settled_node.
  - intros v k. apply (decided_mono V g g2 _ _ _ _ (sf_history _ _ _ Hsafe) settled_grows).
Qed.
End settle.
End turn.

(** *** What a node acknowledged stays in its log *)
Lemma grown_acks g (K : Message.t -> Prop) past acks s s' n t : history_ok V g past acks -> sound V g K s -> term (r s) <= term (r s') -> grows s s' ->
  ack_ok V g (log s) (term (r s)) n t -> ack_ok V g (log s') (term (r s')) n t.
Proof.
  intros Hok Hs Hle Hgr Ha. apply (ack_ok_later V g past acks HV Hok _ (term (r s))); [done|].
  destruct Hgr as [[Hv _]|(es & [_ -> _ _])]; [rewrite Hv by apply Hs; exact Ha|].
  eapply (ack_ok_begins V g past acks HV Hok); [apply begins_append|done].
Qed.
Lemma written_acks g (K : Message.t -> Prop) past acks m s x s' n t : history_ok V g past acks -> (forall t, t ∈ terms g -> 0 < t) -> wf_msg m ->
  sound V g K s -> heard V g s m -> Message.msg_type m <> MsgSnapshot -> term (r s) <= term (r s') -> written m s s' -> step m s = Ret (x, s') ->
  ack_ok V g (log s) (term (r s)) n t -> ack_ok V g (log s') (term (r s')) n t.
Proof.
  intros Hok Hpos Hwf Hs Hh Hsn Hle [Hgr|Hty Hacc Hv _ _|?] E Ha; [by eapply grown_acks| |done].
  assert (tells_entries V g m) as Htell.
  { destruct (hd_true _ _ _ _ Hh) as [_ Ht]. rewrite Hty in Ht. apply Ht. by apply Hwf. }
  pose proof (Hpos _ (proj1 Htell)). destruct (append_in_term m s x s' Hwf Hty ltac:(lia) E) as [Hsame|Hterm].
  { rewrite Hsame. by apply (ack_ok_later V g past acks HV Hok _ (term (r s))). }
  destruct (Z.eq_dec (first_mismatch (log s) (Message.entries m)) 0) as [Hc|Hc].
  { rewrite Hv. unfold accepted_view. rewrite Hc. by apply (ack_ok_later V g past acks HV Hok _ (term (r s))). }
  rewrite Hv, Hterm. eapply (overwritten_ack V g past acks HV Hok); [apply (so_log _ _ _ _ Hs)|apply Htell| |].
  - apply (after_overwritten V g past acks Hok (raft_log (r s)) m); [apply Hs|exact Hwf|exact Hty|apply (so_log _ _ _ _ Hs)|exact Htell|exact Hacc|exact Hc].
  - apply (ack_ok_later V g past acks HV Hok _ (term (r s))); [lia|done].
Qed.

Lemma cluster_ids G L c : cluster_inv V G L c -> forall j sj, nodes c !! j = Some sj -> id (r sj) = j.
Proof. intros Hci j sj Hj. by destruct (n_id _ _ _ _ _ (i_nodes _ _ _ _ Hci _ _ Hj)). Qed.

(** *** Messages and the work of a node *)
Section moves.
Context (G G' : Z -> Z -> Z -> Prop) (L L' : Z -> Z -> Prop) (P : history) (g : ghost) (c : cluster (T:=T)) (i : Z) (s s' : Raft.t T) (C : cause).
Abbreviation c' := (mk_cluster (<[i := s']> (nodes c)) (net c)).
Context (Hsafe : safe g L c) (Hci : cluster_inv V G L c) (Hli : logs_inv P L c) (Hci' : cluster_inv V G' L' c')
  (HL : forall j t, L j t -> L' j t) (Hi : nodes c !! i = Some s) (Hev : evolve C s s').
Abbreviation acks := (acks_of g c).
Abbreviation past := (past_of c).

Lemma node_ids j sj : nodes c !! j = Some sj -> id (r sj) = j.
Proof. by apply (cluster_ids G L). Qed.
Lemma id_after : id (r s') = i.
Proof. rewrite (e_id _ _ _ Hev). by apply node_ids. Qed.
Lemma leader_after : state (r s') = Leader -> L' i (term (r s')).
Proof. intros Hl. by apply (n_leader _ _ _ _ _ (i_nodes _ _ _ _ Hci' i s' (lookup_insert_eq _ _ _))). Qed.
Lemma one_leader j sj : j <> i -> nodes c !! j = Some sj -> state (r sj) = Leader -> state (r s') = Leader -> term (r sj) <> term (r s').
Proof.
  intros Hj Hsj Hl Hl' Ht. apply Hj. eapply (elected_once V G' L' c'); [exact HV|exact Hci'| |by apply (i_elected _ _ _ _ Hci'), leader_after].
  apply (i_elected _ _ _ _ Hci'), HL. rewrite <-Ht. by apply (n_leader _ _ _ _ _ (i_nodes _ _ _ _ Hci _ _ Hsj)).
Qed.
Lemma runs_positive : runs s' -> 0 < term (r s').
Proof.
  intros Hr. destruct (ns_term _ _ _ _ _ (sf_nodes _ _ _ Hsafe _ _ Hi)) as [H0' Hp].
  destruct (e_office _ _ _ Hev Hr) as [(Hr' & -> & _)|?]; [by apply Hp|lia].
Qed.

(** The leader of the term, or a new one. *)
Lemma leader_continues : state (r s') = Leader -> term (r s') ∈ terms g -> led g (term (r s')) = log s.
Proof.
  intros Hl Hin. destruct (sf_terms _ _ _ Hsafe _ Hin) as [_ [j Hj]].
  assert (j = i) as -> by (eapply (elected_once V G' L' c'); [exact HV|exact Hci'|by apply (i_elected _ _ _ _ Hci'), HL|by apply (i_elected _ _ _ _ Hci'), leader_after]).
  pose proof (li_nodes _ _ _ Hli _ _ Hi) as Hn. destruct (e_office _ _ _ Hev (or_intror Hl)) as [(Hr & Ht & _)|Hlt].
  - rewrite Ht in *. destruct Hr as [Hr|Hr]; [by destruct (nl_candidate _ _ _ _ Hn Hr)|]. by apply (ns_leader _ _ _ _ _ (sf_nodes _ _ _ Hsafe _ _ Hi)).
  - pose proof (nl_past _ _ _ _ Hn _ Hj). lia.
Qed.

Context (Hwon : state (r s') = Leader -> c_leader C (term (r s')) -> exists votes : Z -> option bool, Joint.vote_result V votes = Won /\
  forall x, votes x = Some true -> x = i \/ promises g (terms g) past acks x (term (r s')) (log s)).
Lemma leader_elected : state (r s') = Leader -> term (r s') ∉ terms g -> exists votes : Z -> option bool, Joint.vote_result V votes = Won /\
  forall x, votes x = Some true -> promises g (terms g) (past_of c') acks x (term (r s')) (log s).
Proof.
  intros Hl Hnin. pose proof (sf_nodes _ _ _ Hsafe _ _ Hi) as Hn. pose proof (ns_sound _ _ _ _ _ Hn) as Hs. pose proof (e_term _ _ _ Hev) as Hle.
  destruct (e_leader _ _ _ Hev Hl) as [[Hl0 Ht]|Hc].
  { destruct Hnin. rewrite Ht. apply (so_lead _ _ _ _ Hs Hl0). }
  destruct (Hwon Hl Hc) as (votes & Hw & Hv). exists votes. split; [done|]. intros x Hx. destruct (Hv x Hx) as [->|Hp].
  - exists (log s). split_and!; [|apply Hs|by right|].
    + apply (past_now g g L L c i s s' (net c) Hsafe node_ids Hi Hle). lia.
    + intros n t Ha _. by apply (ns_acks _ _ _ _ _ Hn) in Ha as [].
  - destruct Hp as (v & Hp & Hrest). exists v. split; [|exact Hrest]. by eapply (past_kept g g L L c i s s' (net c) Hsafe node_ids Hi Hle).
Qed.

Context (Hlog : state (r s') = Leader -> exists es, log s' = ALog.append (log s) es /\ Forall (fun e => Entry.term e = term (r s')) es)
  (Hcandidate : state (r s') = Candidate -> log s' = log s)
  (Hstored : stored_log s' = stored_log s)
  (Hvote : forall v, state (r s') = Candidate -> c_vote C v (term (r s')) ->
    promises g (terms g) past acks v (term (r s')) (log s)).

Lemma moved_safe : (forall g1 acks1, turned g c i s' g1 acks1 -> sound V g1 (puts_out c i s s' g1 acks1) s' /\
    forall n t, ack_ok V g1 (log s) (term (r s)) n t -> ack_ok V g1 (log s') (term (r s')) n t) ->
  exists g', safe g' L' c' /\ forall v k, decided V g v k -> decided V g' v k.
Proof.
  intros Hsound. pose proof (e_term _ _ _ Hev) as Hle. assert (state (r s') = Leader -> 0 < term (r s')) as Hpos by (intros ?; apply runs_positive; by right).
  destruct (record_follows g L L' c i s s' Hsafe node_ids Hi Hle Hlog Hpos leader_continues leader_elected) as (g1 & acks1 & Htu).
  destruct (Hsound g1 acks1 Htu) as [Hs' Hack].
  eexists. eapply (settled_safe g L L' c i s s' Hsafe node_ids Hi Hle Hlog Hpos leader_continues leader_elected g1 acks1 Htu id_after Hs' Hstored Hack).
  - intros v Hc Hv. rewrite (Hcandidate Hc).
    assert (v = i \/ promises g (terms g) past acks v (term (r s')) (log s)) as [?|Hp]; [|by left|right].
    { destruct (e_votes _ _ _ Hev Hc v Hv) as [->|[?|(Hc0 & -> & Hv0)]]; [left; by apply node_ids|right; by apply Hvote|].
      by apply (ns_votes _ _ _ _ _ (sf_nodes _ _ _ Hsafe _ _ Hi)). }
    eapply (promises_mono V g g1); [apply (sf_history _ _ _ Hsafe)|apply (tu_grows _ _ _ _ _ _ Htu)| |exact Hp].
    intros u Hu. split; [done|by apply (tu_grows _ _ _ _ _ _ Htu)].
  - exact runs_positive.
  - exact one_leader.
  - exact HL.
  - exact leader_after.
Qed.

Abbreviation Hle := (e_term _ _ _ Hev).
Lemma leader_positive : state (r s') = Leader -> 0 < term (r s').
Proof. intros Hl. apply runs_positive. by right. Qed.

(** A message is handled. *)
Lemma delivered_safe m x : Message.msg_type m <> MsgSnapshot -> free_message (Message.msg_type m) \/ (m ∈ net c /\ Message.to m = i) ->
  wf_msg m -> fresh s -> room (len (Message.entries m) + 1) s -> step m s = Ret (x, s') ->
  exists g', safe g' L' c' /\ forall v k, decided V g v k -> decided V g' v k.
Proof.
  intros Hsn Hm Hwf Hf Hr E. apply moved_safe. intros g1 acks1 Htu.
  pose proof (node_ids i s Hi) as Hid0. pose proof (tu_history _ _ _ _ _ _ Htu) as Hok1.
  assert (sound V g1 (puts_out c i s s' g1 acks1) s) as Hs1 by exact (sound_before g L L' c i s s' Hsafe node_ids Hi Hle Hlog leader_positive leader_continues leader_elected g1 acks1 Htu).
  assert (forall t, t ∈ terms g1 -> 0 < t) as Hpos1 by exact (turned_positive g L L' c i s s' Hsafe node_ids Hi Hle Hlog leader_positive leader_continues leader_elected g1 acks1 Htu).
  assert (heard V g1 s m) as Hh by exact (turned_heard g L L' c i s s' Hsafe node_ids Hi Hle Hlog leader_positive leader_continues leader_elected g1 acks1 Htu id_after m Hsn Hm Hid0).
  split.
  - eapply (step_sound V g1 (puts_out c i s s' g1 acks1) (past_of c') acks1 HV Hok1 Hpos1 m s x s' Hwf Hf Hr Hh Hs1).
    + exact (runs_before g L L' c i s s' Hsafe node_ids Hi Hle Hlog leader_positive leader_continues leader_elected g1 acks1 Htu).
    + exact (turned_heartbeat g L L' c i s s' Hsafe node_ids Hi Hle Hlog leader_positive leader_continues leader_elected g1 acks1 Htu id_after m x Hwf E Hid0).
    + exact E.
    + exact (turned_recorded g L L' c i s s' Hsafe node_ids Hi Hle Hlog leader_positive leader_continues leader_elected g1 acks1 Htu id_after).
    + apply (turned_votes g L L' c i s s' Hsafe node_ids Hi Hle Hlog leader_positive leader_continues leader_elected g1 acks1 Htu id_after m); [|exact Hid0].
      intros Hty. rewrite Hty in Hm. destruct Hm as [?|[Hin _]]; [done|]. by apply (sf_net _ _ _ Hsafe).
  - intros n t Ha. eapply (written_acks g1 _ (past_of c') acks1 m s x s'); [exact Hok1|exact Hpos1|exact Hwf|exact Hs1|exact Hh|exact Hsn|exact Hle|by eapply step_written|exact E|exact Ha].
Qed.

(** The node works on its own. *)
Lemma worked_safe : own_work s s' -> voters_of s' = V -> exists g', safe g' L' c' /\ forall v k, decided V g v k -> decided V g' v k.
Proof.
  intros Hw HV'. apply moved_safe. intros g1 acks1 Htu. pose proof (tu_history _ _ _ _ _ _ Htu) as Hok1.
  assert (sound V g1 (puts_out c i s s' g1 acks1) s) as Hs1 by exact (sound_before g L L' c i s s' Hsafe node_ids Hi Hle Hlog leader_positive leader_continues leader_elected g1 acks1 Htu).
  split.
  - eapply (own_work_sound V g1 (puts_out c i s s' g1 acks1) (past_of c') acks1 HV Hok1); [|exact Hs1| |exact Hw|exact HV'|].
    + exact (turned_positive g L L' c i s s' Hsafe node_ids Hi Hle Hlog leader_positive leader_continues leader_elected g1 acks1 Htu).
    + exact (runs_before g L L' c i s s' Hsafe node_ids Hi Hle Hlog leader_positive leader_continues leader_elected g1 acks1 Htu).
    + apply (turned_recorded g L L' c i s s' Hsafe node_ids Hi Hle Hlog leader_positive leader_continues leader_elected g1 acks1 Htu id_after).
  - intros n t. eapply grown_acks; [exact Hok1|exact Hs1|exact Hle|apply own_work_grows; [apply Hs1|exact Hw]].
Qed.
End moves.

(** *** What the application does

    The elections and the logs of the leaders stay. *)
Section keeps.
Context (g g' : ghost) (L : Z -> Z -> Prop) (c : cluster (T:=T)) (i : Z) (s s' : Raft.t T) (ms : list Message.t).
Abbreviation c' := (mk_cluster (<[i := s']> (nodes c)) ms).
Context (Hsafe : safe g L c) (Hids : forall j s, nodes c !! j = Some s -> id (r s) = j) (Hi : nodes c !! i = Some s)
  (Hterm : term (r s') = term (r s)).
Context (Eterms : terms g' = terms g) (Efirst : first g' = first g) (Eled : led g' = led g) (Hacked : forall x n t, acked g x n t -> acked g' x n t)
  (Hnew : forall n t, acked g' i n t -> acks_of g c i n t) (Hother : forall x n t, x <> i -> acked g' x n t -> acked g x n t)
  (Hpending : forall n t, pending s' n t -> pending s n t) (Hcand : forall j t, j <> i \/ t <= term (r s) -> cand g' j t = cand g j t).

Lemma kept_acks x n t : acks_of g' c' x n t -> acks_of g c x n t.
Proof.
  destruct (decide (x = i)) as [->|Hne].
  - intros [?|Hp]%(acks_now g g' L L c i s s' ms Hsafe Hids Hi ltac:(lia)); [by apply Hnew|]. right. exists s. split; [done|]. by apply Hpending.
  - intros [?|?]%(acks_other g g' L L c i s s' ms Hsafe Hids Hi ltac:(lia)); [left; by apply Hother|done..].
Qed.
Lemma kept_past x t : past_of c x t -> past_of c' x t.
Proof. apply (past_kept g g L L c i s s' ms Hsafe Hids Hi ltac:(lia)). Qed.
Lemma kept_grows : grows_to g (past_of c) (acks_of g c) g' (past_of c') (acks_of g' c').
Proof.
  apply (same_record_grows V g (past_of c) (past_of c') (acks_of g c) (acks_of g' c')); try done.
  - apply (sf_history _ _ _ Hsafe).
  - apply (sf_rooted _ _ _ Hsafe).
  - intros x n t. by apply (safe_known g L c).
  - exact kept_past.
  - intros x n t t' Ha _ _. by apply kept_acks.
Qed.
Lemma kept_history : history_ok V g' (past_of c') (acks_of g' c').
Proof.
  apply (history_mono V g g' _ _ _ _ (sf_history _ _ _ Hsafe) kept_grows); try done; [by rewrite Eterms|by left].
Qed.
Lemma kept_cand x t : past_of c x t -> cand g' x t = cand g x t.
Proof.
  intros (s0 & Hx & Ht). apply Hcand. destruct (decide (x = i)) as [->|]; [right|by left]. rewrite Hi in Hx. by injection Hx as <-.
Qed.

Lemma kept_safe : (forall m, m ∈ ms -> m ∈ net c \/ (truthful V g' (sent_out g' (past_of c') (acks_of g' c')) m /\
    (Message.msg_type m = MsgRequestVote -> past_of c' (Message.from m) (Message.term m)))) ->
  node_safe g' (past_of c') (acks_of g' c') i s' -> safe g' L c' /\ forall v k, decided V g v k -> decided V g' v k.
Proof.
  intros Hms Hnode. split.
  - apply (safe_replace g g' L L c i s s' ms Hsafe Hids Hi ltac:(lia) kept_grows kept_history Hcand Hother); try done.
    + intros. by rewrite Eled.
    + intros t. rewrite Eterms. apply (sf_terms _ _ _ Hsafe).
  - intros v k. apply (decided_mono V g g' _ _ _ _ (sf_history _ _ _ Hsafe) kept_grows).
Qed.
End keeps.

(** The application writes the log as it stands, or reads. *)
Lemma rooted_eq (v w : ALog.t) : rooted v -> rooted w -> part w v -> ALog.last w = ALog.last v -> w = v.
Proof.
  intros [Hb Ht] [Hb' Ht'] Hp Hl. destruct v as [b bt es], w as [b' bt' es']. simpl in *. subst. f_equal. unfold ALog.last in Hl. simpl in Hl.
  apply list_eq_same_length with (length es'); [unfold len in Hl; lia|done|]. intros k e e' Hk He He'.
  pose proof (pa_at _ _ Hp (Z.of_nat k + 1) e) as Ha. unfold ALog.at_index, index in Ha. simpl in Ha.
  rewrite (proj2 (Z.ltb_ge _ _)) in Ha by lia. replace (Z.to_nat (Z.of_nat k + 1 - 0 - 1)) with k in Ha by lia.
  specialize (Ha He). congruence.
Qed.

Lemma app_step_same rl rl' : log_ok rl -> app_step rl rl' -> rooted (view rl) -> rooted (storage_log (RaftLog.store rl')) ->
  log_ok rl' /\ view rl' = view rl /\ RaftLog.committed rl' = RaftLog.committed rl /\ RaftLog.persisted rl' = RaftLog.persisted rl.
Proof.
  intros Hok Hs Hr Hst. pose proof (app_step_kept _ _ Hok Hs) as []. split; [done|].
  assert (rooted (view rl') /\ RaftLog.committed rl' = RaftLog.committed rl /\ RaftLog.persisted rl' = RaftLog.persisted rl) as (Hr' & Hc & Hp).
  { assert (Unstable.snapshot (RaftLog.unstable rl') = None -> rooted (view rl')) as Hroot by (intros Hn; unfold view; by rewrite Hn).
    destruct Hs as [s' Hs Hp|i t rl' E Hl Hsame|i rl' E Hb Hj Ht|rl' (s' & -> & Hl1 & Hl2)].
    - split; [|done]. destruct (Unstable.snapshot (RaftLog.unstable rl)) eqn:Es; [|by apply Hroot]. revert Hr. unfold view. fields. by rewrite Es.
    - apply stable_entries_inv in E as (u & -> & Es & Esu & _); [|done]. split; [by apply Hroot|done].
    - apply stable_snap_inv in E as (x & Es & Hi & -> & _); [|done]. split; [|done]. by apply Hroot.
    - split; [|done]. revert Hr. unfold view. fields. by rewrite Hl2. }
  split; [|done]. by apply rooted_eq.
Qed.

Lemma ack_ok_merge g w w' w'' t n u : (forall k e, entry w k = Some e -> entry w' k = Some e -> entry w'' k = Some e) ->
  ack_ok V g w t n u -> ack_ok V g w' t n u -> ack_ok V g w'' t n u.
Proof.
  intros Hm [Ht Hp [Hn Hc] Hh] [_ _ [_ Hc'] Hh']. split; [done..| |].
  - split; [done|]. intros k e Hk He. destruct (Hc k e Hk He) as [?|?]; [|by right]. destruct (Hc' k e Hk He) as [?|?]; [left; auto|by right].
  - intros Hu k Hk. destruct (Hh Hu k Hk) as [(e & He & Hl)|?]; [|by right]. destruct (Hh' Hu k Hk) as [(e' & He' & Hl')|?]; [|by right].
    left. exists e. split; [|done]. apply Hm; [done|]. congruence.
Qed.

Lemma app_safe g L c i s l : safe g L c -> (forall j s, nodes c !! j = Some s -> id (r s) = j) -> nodes c !! i = Some s ->
  app_step (raft_log (r s)) l -> rooted (storage_log (RaftLog.store l)) ->
  (forall k e, entry (stored_log s) k = Some e -> entry (log s) k = Some e -> entry (storage_log (RaftLog.store l)) k = Some e) ->
  exists g', safe g' L (mk_cluster (<[i := s <| r := (r s) <| raft_log := l |> |>]> (nodes c)) (net c)) /\ forall v k, decided V g v k -> decided V g' v k.
Proof.
  intros Hsafe Hids Hi Hs Hr Hk. pose proof (sf_nodes _ _ _ Hsafe _ _ Hi) as Hn. pose proof (ns_sound _ _ _ _ _ Hn) as Hso.
  destruct (app_step_same _ _ (so_ok _ _ _ _ Hso) Hs (sound_rooted _ _ _ _ Hso) Hr) as (Hok & Hv & Hc & Hp).
  set (s' := s <| r := _ |>). assert (log s' = log s) as Hlog by done. exists g.
  assert (forall n t, acked g i n t -> acks_of g c i n t) as Hak by by left.
  assert (forall n t, pending s' n t -> pending s n t) as Hpe by done.
  apply (kept_safe g g L c i s s' (net c) Hsafe Hids Hi eq_refl eq_refl eq_refl eq_refl); try done; [by left|].
  apply (node_safe_mono g g (past_of c) _ (acks_of g c) _); try done.
  - apply (sf_history _ _ _ Hsafe).
  - by apply (kept_grows g g L c i s s' (net c)).
  - destruct Hn. pose proof (ak_stored _ _ (app_step_kept _ _ (so_ok _ _ _ _ Hso) Hs)) as Hpart. split; try done.
    + apply (sound_moved V g _ (past_of c) (acks_of g c) HV (sf_history _ _ _ Hsafe)); try done; [intros t Ht; by apply (sf_terms _ _ _ Hsafe)|]. intros Hl. rewrite Hp. apply (so_lead _ _ _ _ Hso Hl).
    + unfold may_run. by rewrite Hlog.
    + destruct Hpart as [Hpart|Hpart]; (eapply begins_well_led; [exact Hr|exact (pa_at _ _ Hpart)|]); [apply (so_log _ _ _ _ Hso)|done].
    + intros n e He. destruct Hpart as [Hpart|Hpart]; apply (pa_at _ _ Hpart) in He; [by eapply (so_terms _ _ _ _ Hso)|by eapply ns_stored_terms0].
    + rewrite Hlog. exact ns_acks0.
    + intros n t Ha. eapply (ack_ok_merge g (stored_log s) (log s)); [exact Hk|by apply ns_kept0|by apply ns_acks0, Hak].
    + rewrite Hlog. exact ns_votes0.
    + intros Hl. rewrite Hlog. exact (ns_leader0 Hl).
  - exact (Hids i s Hi).
  - intros t. exact (past_node g g L L c i s s' (net c) Hsafe Hids Hi (Z.le_refl _) i s t Hi).
  - intros n t. by apply (kept_acks g g L c i s s' (net c)).
Qed.

(** The messages of a node are sent; the log is stored by then. *)
Lemma transmit_safe g L c i s : safe g L c -> (forall j s, nodes c !! j = Some s -> id (r s) = j) -> nodes c !! i = Some s ->
  (forall n t, pending s n t -> begins (log s) (stored_log s)) ->
  exists g', safe g' L (mk_cluster (<[i := s <| msgs := [] |>]> (nodes c)) (net c ++ msgs s)) /\ forall v k, decided V g v k -> decided V g' v k.
Proof.
  intros Hsafe Hids Hi Hst. pose proof (sf_nodes _ _ _ Hsafe _ _ Hi) as Hn. pose proof (ns_sound _ _ _ _ _ Hn) as Hso.
  set (s' := s <| msgs := [] |>). set (g' := confirm g (fun x n t => x = i /\ pending s n t)). exists g'.
  assert (forall n t, pending s n t -> acks_of g c i n t) as Hpa by (intros n t Hp; right; by exists s).
  assert (forall n t, pending s' n t -> pending s n t) as Hpe by (intros n t (m & ?%elem_of_nil & _); done).
  assert (forall x n t, acked g x n t -> acked g' x n t) as Hak by by left.
  assert (forall n t, acked g' i n t -> acks_of g c i n t) as Hnew by (intros n t [?|[_ ?]]; [by left|auto]).
  assert (forall x n t, x <> i -> acked g' x n t -> acked g x n t) as Hother by (intros x n t Hx [?|[? _]]; done).
  assert (forall j t, j <> i \/ t <= term (r s) -> cand g' j t = cand g j t) as Hcand by done.
  pose proof (kept_grows g g' L c i s s' (net c ++ msgs s) Hsafe Hids Hi eq_refl eq_refl eq_refl eq_refl Hak Hnew Hother Hpe Hcand) as Hg.
  pose proof (sf_history _ _ _ Hsafe) as Hok.
  assert (past_of (mk_cluster (<[i:=s']> (nodes c)) (net c ++ msgs s)) i (term (r s))) as Hnow by (exists s'; split; [apply lookup_insert_eq|done]).
  apply (kept_safe g g' L c i s s' (net c ++ msgs s) Hsafe Hids Hi eq_refl eq_refl eq_refl eq_refl Hak Hnew Hother Hpe Hcand).
  - intros m [?|Hm]%elem_of_app; [by left|right]. destruct (so_msgs _ _ _ _ Hso m Hm) as [Htr Hreq]. split.
    + eapply (truthful_mono V g g' _ _ _ _ Hok Hg); [|done|exact Htr]. intros [Hrej Hcf] [Hv Ha]. split.
      * intros Hty. eapply (promised_mono g g' _ _ _ _ Hok Hg); [done|by apply Hv].
      * intros Hty. destruct Hcf as [?|[_ Hpos]]; [congruence|].
        assert (pending s (Message.index m) (Message.term m)) as Hp by (exists m; by split_and!).
        split; [|right; split; [by apply Ha|done]]. by apply (ns_acks _ _ _ _ _ Hn _ _ (Hpa _ _ Hp)).
    + intros Hty. destruct (Hreq Hty) as [-> Hle]. rewrite (Hids _ _ Hi). destruct Hnow as (s0 & Hs0 & ?). exists s0. split; [done|lia].
  - destruct Hn. split.
    + apply (sound_mono V g g' _ _ _ _ Hok Hg (put_out g (past_of c) (acks_of g c) i)); [|by intros m ?%elem_of_nil|done].
      apply (sound_same V g _ s); try done; fields; [apply (so_lead _ _ _ _ Hso)|apply (so_reads _ _ _ _ Hso)|by intros m ?%elem_of_nil].
    + done.
    + eapply (well_led_mono V g g' _ _ _ _ Hok Hg); [|exact ns_stored0]. by intros t Ht.
    + done.
    + intros n t Ha. eapply (ack_ok_mono V g g' _ _ _ _ Hok Hg), ns_acks0.
      by apply (kept_acks g g' L c i s s' (net c ++ msgs s) Hsafe Hids Hi eq_refl eq_refl eq_refl eq_refl Hak Hnew Hother Hpe Hcand).
    + intros n t [Ha|[_ Hp]]; eapply (ack_ok_mono V g g' _ _ _ _ Hok Hg); [by apply ns_kept0|].
      eapply (ack_ok_begins V g _ _ HV Hok); [by eapply Hst|by apply ns_acks0, Hpa].
    + intros v Hc Hv. destruct (ns_votes0 v Hc Hv) as [?|Hp]; [by left|right]. eapply (promises_mono V g g' _ _ _ _ Hok Hg); [|exact Hp]. by intros u Hu.
    + done.
    + done.
Qed.

(** A node comes up again. *)
Lemma restart_safe g L c i s s' : safe g L c -> (forall j s, nodes c !! j = Some s -> id (r s) = j) -> nodes c !! i = Some s ->
  started_from (stored_log s) i s' -> id (r s') = i -> term (r s') = term (r s) -> voters_of s' = V -> commit s' <= commit s ->
  (forall k, k <= commit s' -> entry (stored_log s) k = entry (log s) k) ->
  exists g', safe g' L (mk_cluster (<[i := s']> (nodes c)) (net c)) /\ forall v k, decided V g v k -> decided V g' v k.
Proof.
  intros Hsafe Hids Hi Hs Hid Ht HV' Hc Hst. pose proof (sf_nodes _ _ _ Hsafe _ _ Hi) as Hn. pose proof (ns_sound _ _ _ _ _ Hn) as Hso.
  destruct (started_from_log _ _ _ Hs) as (Hok' & Hlog & Hstored & Hb & Hms & Hfo). pose proof (started_reads _ _ _ Hs) as Hro.
  set (g' := prepare g i (term (r s')) (log s')). exists g'.
  assert (forall n t, pending s' n t -> pending s n t) as Hpe by (intros n t (m & Hm & _); rewrite Hms in Hm; by apply elem_of_nil in Hm).
  assert (forall x n t, acked g x n t -> acked g' x n t) as Hak by done.
  assert (forall n t, acked g' i n t -> acks_of g c i n t) as Hnew by by left.
  assert (forall x n t, x <> i -> acked g' x n t -> acked g x n t) as Hother by done.
  assert (forall j t, j <> i \/ t <= term (r s) -> cand g' j t = cand g j t) as Hcand.
  { intros j t Hj. simpl. destruct (Z.eqb_spec j i) as [->|]; [|done]. destruct Hj as [?|?]; [done|]. by rewrite (proj2 (Z.ltb_ge _ _)) by lia. }
  pose proof (kept_grows g g' L c i s s' (net c) Hsafe Hids Hi Ht eq_refl eq_refl eq_refl Hak Hnew Hother Hpe Hcand) as Hg.
  pose proof (sf_history _ _ _ Hsafe) as Hok.
  apply (kept_safe g g' L c i s s' (net c) Hsafe Hids Hi Ht eq_refl eq_refl eq_refl Hak Hnew Hother Hpe Hcand); [by left|].
  destruct Hn.
  assert (well_led g' (terms g') (stored_log s)) as Hwl by (eapply (well_led_mono V g g' _ _ _ _ Hok Hg); [|exact ns_stored0]; by intros t Ht').
  assert (forall n t, acked g i n t -> ack_ok V g' (stored_log s) (term (r s)) n t) as Hacks by (intros n t Ha; by eapply (ack_ok_mono V g g' _ _ _ _ Hok Hg), ns_kept0).
  split; rewrite ?Hlog, ?Hstored, ?Ht; try done.
  - split; rewrite ?Hlog, ?Ht; try done.
    + eapply decided_same; [exact Hst|]. eapply decided_le; [exact Hc|]. apply (decided_mono V g g' _ _ _ _ Hok Hg), Hso.
    + congruence.
    + congruence.
    + intros k rs. by rewrite Hro, lookup_empty.
    + rewrite Hms. by intros m ?%elem_of_nil.
  - intros t Hlt. rewrite Hid. simpl. rewrite Z.eqb_refl, (proj2 (Z.ltb_lt _ _)) by lia. done.
  - intros n t Ha. apply (acks_now g g' L L c i s s' (net c) Hsafe Hids Hi ltac:(lia)) in Ha as [Ha|Hp]; [by apply Hacks|].
    destruct Hp as (m & Hm & _). rewrite Hms in Hm. by apply elem_of_nil in Hm.
  - congruence.
  - congruence.
  - split; [tauto|]. intros [?|?]; congruence.
Qed.

(** *** Every step *)
Lemma safe_leaders g L L' c : (forall j t, L j t -> L' j t) -> safe g L c -> safe g L' c.
Proof.
  intros HL []. split; try done. intros t Ht. destruct (sf_terms0 t Ht) as [? [j ?]]. split; [done|exists j; auto].
Qed.

Lemma grows_leader s s' : log_ok (raft_log (r s)) -> grows s s' -> exists es, log s' = ALog.append (log s) es /\ Forall (fun e => Entry.term e = term (r s')) es.
Proof.
  intros Hok [[Hv _]|(es & [_ Hv Hf _])]; [|by exists es]. exists []. split; [|done]. rewrite Hv by done.
  unfold ALog.append. rewrite app_nil_r. by destruct (log s).
Qed.
Lemma grows_candidate s s' : log_ok (raft_log (r s)) -> grows s s' -> state (r s') = Candidate -> log s' = log s.
Proof. intros Hok [[Hv _]|(es & [Hl _ _ _])] Hc; [by apply Hv|congruence]. Qed.
Lemma written_role m s s' : Message.msg_type m <> MsgSnapshot -> written m s s' -> grows s s' \/ state (r s') = Follower.
Proof. intros Hsn [?| |]; [by left|by right|done]. Qed.

(** A vote that a candidate counts keeps its promise. *)
Lemma counted_promise G L g c i s m : cluster_inv V G L c -> safe g L c -> nodes c !! i = Some s -> state (r s) = Candidate ->
  free_message (Message.msg_type m) \/ (m ∈ net c /\ Message.to m = i) -> gives_vote m -> of_term s m ->
  promises g (terms g) (past_of c) (acks_of g c) (Message.from m) (term (r s)) (log s).
Proof.
  intros Hci Hsafe Hi Hc Hm Hg Ht. pose proof Hg as [Hty Hrej]. rewrite Hty in Hm. destruct Hm as [?|[Hin Hto]]; [done|].
  destruct (n_id _ _ _ _ _ (i_nodes _ _ _ _ Hci _ _ Hi)) as [Hid Hz].
  destruct (i_net _ _ _ _ Hci m Hin Hg) as [Hnz _]; [congruence|]. destruct (Ht (or_introl Hty)) as [?|Ht']; [done|].
  destruct (sf_net _ _ _ Hsafe m Hin) as [[Hk _] _]. destruct Hk as [Hk _]; [split; [done|by left]|].
  destruct (Hk Hty) as [Hp _]. rewrite Hto, Ht' in Hp.
  rewrite <-(so_cand _ _ _ _ (ns_sound _ _ _ _ _ (sf_nodes _ _ _ Hsafe _ _ Hi)) Hc), Hid. done.
Qed.

Lemma full_step_safe G L P g c c' : cluster_inv V G L c -> logs_inv P L c -> safe g L c -> full_log_step c c' ->
  exists G' L' P' g', cluster_inv V G' L' c' /\ logs_inv P' L' c' /\ safe g' L' c' /\ forall v k, decided V g v k -> decided V g' v k.
Proof.
  intros Hci Hli Hsafe Hstep.
  destruct (log_step_invs V G L P c c' HV Hci Hli (full_log_cluster _ _ Hstep)) as (G' & L' & P' & Hci' & Hli' & HL & _).
  exists G', L', P'. cut (exists g', safe g' L' c' /\ forall v k, decided V g v k -> decided V g' v k); [intros (g' & ? & ?); by exists g'|].
  pose proof (cluster_ids G L c Hci) as Hids. clear Hli'.
  destruct Hstep as [i s m x s' Hi Hsn Hm Hwf Hf Hr E HV'|i s s' Hi Hw HV'|i s l Hi Hl Hro Hk|i s Hi Hp|i s s' Hi Hs Ht Hv HV' Hc Hst].
  - pose proof (sf_nodes _ _ _ Hsafe _ _ Hi) as Hn. pose proof (so_ok _ _ _ _ (ns_sound _ _ _ _ _ Hn)) as Hok.
    pose proof (step_evolve _ _ _ _ Hwf Hf Hr E) as Hev. pose proof (written_role m s s' Hsn (step_written _ _ _ _ Hwf Hf Hr E)) as Hw.
    apply (delivered_safe G G' L L' P g c i s s' (step_cause s m) Hsafe Hci Hli Hci' HL Hi Hev) with m x; try done.
    + intros Hl [(Hty & Hc & Hterm & Ht & Hwin)|Hwin].
      * eexists. split; [rewrite <-(n_voters _ _ _ _ _ (i_nodes _ _ _ _ Hci _ _ Hi)); exact Hwin|]. intros v. rewrite Ht. unfold ProgressTracker.record_vote.
        destruct (ProgressTracker.votes (prs s) !! Message.from m) as [b|]; [by apply (ns_votes _ _ _ _ _ Hn)|].
        fields. rewrite lookup_insert. case_decide as Hv; [|by apply (ns_votes _ _ _ _ _ Hn)].
        intros [= Hb]. right. subst v. eapply counted_promise; [done..| |done]. split; [done|]. by destruct (Message.reject m).
      * eexists. split; [rewrite <-(n_voters _ _ _ _ _ (i_nodes _ _ _ _ Hci _ _ Hi)); exact Hwin|]. intros v [Hv _]%lookup_singleton_Some. left. rewrite <-Hv. by apply Hids.
    + intros Hl. destruct Hw as [Hw|?]; [by apply grows_leader|congruence].
    + intros Hl. destruct Hw as [Hw|?]; [by apply grows_candidate|congruence].
    + exact (stored_kept _ _ _ Hev (fun f => f) Hok).
    + intros v Hc (Hg & -> & Ht & Hof). rewrite Ht. destruct (e_office _ _ _ Hev (or_introl Hc)) as [(_ & _ & Hc0)|?]; [|lia].
      eapply counted_promise; auto; done.
  - pose proof (sf_nodes _ _ _ Hsafe _ _ Hi) as Hn. pose proof (so_ok _ _ _ _ (ns_sound _ _ _ _ _ Hn)) as Hok.
    pose proof (own_work_evolve _ _ Hw) as Hev. pose proof (own_work_grows _ _ Hok Hw) as Hgr.
    apply (worked_safe G G' L L' P g c i s s' _ Hsafe Hci Hli Hci' HL Hi Hev); try done.
    + intros Hl Hwin. eexists. split; [rewrite <-(n_voters _ _ _ _ _ (i_nodes _ _ _ _ Hci _ _ Hi)); exact Hwin|].
      intros v [Hv _]%lookup_singleton_Some. left. rewrite <-Hv. by apply Hids.
    + intros _. by apply grows_leader.
    + by apply grows_candidate.
    + exact (stored_kept _ _ _ Hev (fun f => f) Hok).
  - destruct (app_safe g L c i s l Hsafe Hids Hi Hl Hro Hk) as (g' & ? & ?). exists g'. split; [by eapply safe_leaders|done].
  - destruct (transmit_safe g L c i s Hsafe Hids Hi Hp) as (g' & ? & ?). exists g'. split; [by eapply safe_leaders|done].
  - destruct (restart_safe g L c i s s' Hsafe Hids Hi Hs) as (g' & ? & ?); try done.
    + by apply (cluster_ids G' L' _ Hci' i s'), lookup_insert_eq.
    + exists g'. split; [by eapply safe_leaders|done].
Qed.

Lemma full_steps_safe G L P g c c' : cluster_inv V G L c -> logs_inv P L c -> safe g L c -> rtc full_log_step c c' ->
  exists G' L' P' g', cluster_inv V G' L' c' /\ logs_inv P' L' c' /\ safe g' L' c' /\ forall v k, decided V g v k -> decided V g' v k.
Proof.
  intros Hci Hli Hsafe Hrun. revert G L P g Hci Hli Hsafe. induction Hrun as [c|c c1 c' Hs _ IH]; intros G L P g Hci Hli Hsafe; [by exists G, L, P, g|].
  destruct (full_step_safe G L P g c c1 Hci Hli Hsafe Hs) as (G1 & L1 & P1 & g1 & Hci1 & Hli1 & Hs1 & Hd1).
  destruct (IH G1 L1 P1 g1 Hci1 Hli1 Hs1) as (G2 & L2 & P2 & g2 & ? & ? & ? & Hd2). exists G2, L2, P2, g2. split_and!; auto.
Qed.

(** At first nobody was elected. *)
Definition no_history c : ghost := mk_ghost [] (fun _ => ALog.mk 0 (Some 0) []) (fun _ => ALog.mk 0 (Some 0) []) (fun _ _ _ => False)
  (fun i _ => match nodes c !! i with Some s => log s | None => ALog.mk 0 (Some 0) [] end).
Lemma initial_safe c : initial_roots c -> safe (no_history c) (fun _ _ => False) c.
Proof.
  intros [[Hnet Hnodes] Hroots].
  assert (forall i s, nodes c !! i = Some s -> exists l, ALog.ents l = [] /\ started_from l i s) as Hst by (intros i s Hi; by apply Hnodes).
  assert (forall x n t, acks_of (no_history c) c x n t -> False) as Hno.
  { intros x n t [?|(s & Hx & m & Hm & _)]; [done|]. destruct (Hst x s Hx) as (l & _ & Hs). destruct (started_from_log _ _ _ Hs) as (_ & _ & _ & _ & Hms & _).
    rewrite Hms in Hm. by apply elem_of_nil in Hm. }
  split; try done.
  - split; try (by intros ? ?%elem_of_nil); try (by intros ? ? ? ?%elem_of_nil); [constructor|by left].
  - intros i s Hi. destruct (Hst i s Hi) as (l & Hl & Hs). destruct (Hroots i s Hi) as [Hr Ht]. destruct (Hnodes i s Hi) as [HV' _].
    destruct (started_from_log _ _ _ Hs) as (Hok & Hlog & Hstored & Hb & Hms & Hfo). pose proof (started_reads _ _ _ Hs) as Hro.
    assert (forall n, entry (log s) n = None) as He.
    { intros n. apply at_index_None. rewrite Hlog. unfold ALog.last. rewrite Hl, len_nil. lia. }
    assert (well_led (no_history c) [] (log s)) as Hwl by (split; [done|intros n e; by rewrite He|intros n n' e e' _; by rewrite He]).
    assert (id (r s) = i) as Hid.
    { destruct Hs as (d & cfg & store & rs & Hs1 & Hs2 & Hs3 & Hs4 & Hs5 & Hs6 & Hs7 & Hs8). rewrite <-Hs2 in Hs3.
      destruct (new_started d cfg store rs s Hs1 Hs3 Hs4 Hs6 Hs8) as [_ Hx]. destruct (st_role _ _ _ _ _ Hx) as (_ & _ & Hy). congruence. }
    split; rewrite ?Hstored, <-?Hlog; try done.
    + split; try done.
      * intros n e. by rewrite He.
      * left. pose proof (lo_committed _ Hok) as Hc. destruct Hr as [Hr _]. revert Hc. unfold ALog.last. rewrite Hlog, Hl, len_nil. rewrite Hlog in Hr. lia.
      * congruence.
      * congruence.
      * intros k rs. by rewrite Hro, lookup_empty.
      * rewrite Hms. by intros m ?%elem_of_nil.
    + intros t _. rewrite Hid. simpl. by rewrite Hi.
    + intros n e. by rewrite He.
    + intros n t Ha. by apply Hno in Ha.
    + congruence.
    + congruence.
    + split; [done|]. intros [?|?]; congruence.
  - rewrite Hnet. by intros m ?%elem_of_nil.
  - by intros t ?%elem_of_nil.
Qed.

(** C1 — State machine safety: an entry that one node of a cluster has committed is the
    entry that every other node commits at this index, now and at all later times.
    Messages may be lost, duplicated and reordered, nodes may stop and come up with
    what they stored; the voters stay the same, appends are not batched ([batch_append] is
    off), logs are not compacted and snapshots not sent, and the application has stored the
    log before it sends acknowledgements. *)
Theorem state_machine_safety (c0 c c' : cluster) (i j k : Z) (s s' : Raft.t T) (Hinit : initial_roots c0)
    (Hrun : rtc full_log_step c0 c) (Hrun' : rtc full_log_step c c')
    (Hi : nodes c !! i = Some s) (Hj : nodes c' !! j = Some s') (Hk : 0 < k <= commit s) (Hk' : k <= commit s') :
  exists e, entry (log s) k = Some e /\ entry (log s') k = Some e.
Proof.
  destruct (initial_invs V c0 (proj1 Hinit)) as (G0 & Hci0 & Hli0).
  destruct (full_steps_safe _ _ _ _ _ _ Hci0 Hli0 (initial_safe c0 Hinit) Hrun) as (G & L & P & g & Hci & Hli & Hs & _).
  destruct (full_steps_safe _ _ _ _ _ _ Hci Hli Hs Hrun') as (G' & L' & P' & g' & _ & _ & Hs' & Hd).
  pose proof (ns_sound _ _ _ _ _ (sf_nodes _ _ _ Hs _ _ Hi)) as Hso. pose proof (ns_sound _ _ _ _ _ (sf_nodes _ _ _ Hs' _ _ Hj)) as Hso'.
  pose proof (sf_history _ _ _ Hs') as Hok. destruct (decided_here V g' _ _ Hok (log s) (commit s) k) as [e He]; [by apply Hd, (so_committed _ _ _ _ Hso)|done|].
  exists e. split; [done|]. rewrite <-He. symmetry.
  eapply (decided_agree V g' _ _ HV Hok); [by eapply sound_rooted|by eapply sound_rooted|by apply Hd, (so_committed _ _ _ _ Hso)|apply (so_committed _ _ _ _ Hso')|lia|done].
Qed.
End cluster.

(** ** A cluster that commits an entry *)
Section witnesses.
#[local] Existing Instance ten_bytes.
#[local] Existing Instance sorted_order.
Import RaftCore Raft.

(** The application stores the first entry. *)
Definition store4 : MemStorage.t := RaftLog.store RaftExample.stored_log.
Definition storing (s : Raft.t MemStorage.t) : Raft.t MemStorage.t :=
  s <| r := (r s) <| raft_log := (raft_log (r s)) <| RaftLog.store := store4 |> |> |>.
Definition unstored_log : RaftLog.t MemStorage.t := raft_log (r node2_copied).
Definition stable_log : RaftLog.t MemStorage.t :=
  RaftLog.mk store4 (Unstable.new 2) 0 0 0.

Definition vote_request2 : Message.t := nth 1 (msgs node1_candidate) Message.default.
Definition node2_stored := storing node2_copied.
Definition node1_stored := storing (sent node1_elected).
Definition node1_stable := node1_stored <| r := (r node1_stored) <| raft_log := stable_log |> |>.
Definition node1_kept := after (on_persist_entries 1 1) node1_stable.
Definition first_ack := nth 0 (msgs node2_stored) Message.default.
Definition node1_committed := after (step first_ack) node1_kept.
Definition commit_append := nth 0 (msgs node1_committed) Message.default.
Definition node2_committed := after (step commit_append) (sent node2_stored).

Definition cluster_acked := sending 2 node2_stored (at_node 2 node2_stored cluster_copied).
Definition cluster_stored := at_node 1 node1_kept (at_node 1 node1_stable (at_node 1 node1_stored cluster_acked)).
Definition cluster_committed := at_node 1 node1_committed cluster_stored.
Definition cluster_told := at_node 2 node2_committed (sending 1 node1_committed cluster_committed).

Lemma first_ack_wf : wf_msg first_ack.
Proof. evaluate first_ack. by split. Qed.
Lemma vote_request2_wf : wf_msg vote_request2.
Proof. evaluate vote_request2. by split. Qed.
Lemma commit_append_wf : wf_msg commit_append.
Proof. evaluate commit_append. split; try done. intros _. split_and!; try done. by right. Qed.

Lemma node1_stable_log : raft_log (r node1_stable) = stable_log.
Proof. done. Qed.
Lemma node1_kept_log : raft_log (r node1_kept) = RaftExample.stored_log.
Proof. by vm_compute. Qed.
Lemma unstored_view : view unstored_log = storage_log store4.
Proof. by vm_compute. Qed.
Lemma node1_view : view (raft_log (r (sent node1_elected))) = storage_log store4.
Proof. by vm_compute. Qed.

(** What is in the network, and who is where. *)
Ltac in_net := apply (bool_decide_unpack _); vm_compute; exact Logic.I.
Ltac find_node := cbn [nodes cluster_told cluster_committed cluster_stored cluster_acked cluster_copied cluster_sent cluster_led
  cluster_answered cluster_asked cluster_start sending at_node]; repeat first [apply lookup_insert_eq|rewrite lookup_insert_ne by done].

Lemma no_acks s : forallb (fun m => bool_decide (Message.msg_type m <> MsgAppendResponse)) (msgs s) = true ->
  forall n t, pending s n t -> begins (view (raft_log (r s))) (storage_log (RaftLog.store (raft_log (r s)))).
Proof.
  intros Hs n t (m & Hm & Hty & _). rewrite forallb_forall in Hs. apply list_elem_of_In, Hs, bool_decide_eq_true in Hm. done.
Qed.

Lemma free_step i s m s' c : nodes c !! i = Some s -> free_message (Message.msg_type m) -> wf_msg m -> fresh s -> room (len (Message.entries m) + 1) s ->
  step m s = Ret (Ok tt, s') -> voters_of s' = three_voters -> full_log_step three_voters c (at_node i s' c).
Proof. intros Hi Hf. intros. eapply (full_deliver _ _ i s m (Ok tt)); try done; [intros Hty; by rewrite Hty in Hf|by left]. Qed.
Lemma told_step i s m s' c : nodes c !! i = Some s -> bool_decide (Message.msg_type m <> MsgSnapshot) = true -> m ∈ net c -> Message.to m = i ->
  wf_msg m -> fresh s -> room (len (Message.entries m) + 1) s -> step m s = Ret (Ok tt, s') -> voters_of s' = three_voters ->
  full_log_step three_voters c (at_node i s' c).
Proof. intros Hi Hty%bool_decide_eq_true. intros. eapply (full_deliver _ _ i s m (Ok tt)); try done. by right. Qed.
Lemma sending_step_full i s c : (forall n t, pending s n t -> begins (view (raft_log (r s))) (storage_log (RaftLog.store (raft_log (r s))))) ->
  full_log_step three_voters (at_node i s c) (sending i s (at_node i s c)).
Proof. intros Hs. apply full_transmit; [apply lookup_insert_eq|exact Hs]. Qed.
Lemma own_step_full i s s' c : nodes c !! i = Some s -> own_work s s' -> voters_of s' = three_voters -> full_log_step three_voters c (at_node i s' c).
Proof. intros. by eapply full_own. Qed.
Lemma app_step_full i s l c : nodes c !! i = Some s -> app_step (raft_log (r s)) l -> storage_log (RaftLog.store l) = storage_log store4 ->
  view (raft_log (r s)) = storage_log store4 -> full_log_step three_voters c (at_node i (s <| r := (r s) <| raft_log := l |> |>) c).
Proof.
  intros Hi Hs Hl Hv. apply full_app; try done; [rewrite Hl; by vm_compute|]. intros k e _. rewrite Hl. congruence.
Qed.

Lemma booted_delivery : full_log_step three_voters cluster_start (at_node 1 node1_candidate cluster_start).
Proof.
  eapply (free_step 1 node1 msg_hup); [find_node|by vm_compute|exact msg_hup_wf|..].
  - by apply (fresh_at 0); [vm_compute|].
  - by apply empty_log_room; [exact node1_log|vm_compute].
  - exact node1_campaigns.
  - by vm_compute.
Qed.
Lemma request_delivery : full_log_step three_voters cluster_asked (at_node 2 node2_voted cluster_asked).
Proof.
  eapply (told_step 2 node2 vote_request2); [find_node|by vm_compute|in_net|by vm_compute|exact vote_request2_wf|..].
  - by apply (fresh_at 0); [vm_compute|].
  - by apply empty_log_room; [exact node2_log|vm_compute].
  - by vm_compute.
  - by vm_compute.
Qed.
Lemma full_vote_delivery : full_log_step three_voters cluster_answered cluster_led.
Proof.
  eapply (told_step 1 (sent node1_candidate) vote_response); [find_node|by vm_compute|in_net|by vm_compute|exact vote_response_wf|..].
  - by apply (fresh_at 1); [vm_compute|].
  - by apply empty_log_room; [exact (eq_trans (sent_log _) node1_candidate_log)|vm_compute].
  - exact node1_wins.
  - by vm_compute.
Qed.
Lemma full_append_delivery : full_log_step three_voters cluster_sent cluster_copied.
Proof.
  eapply (told_step 2 (sent node2_voted) first_append); [find_node|by vm_compute|in_net|by vm_compute|exact first_append_wf|..].
  - by apply (fresh_at 1); [vm_compute|].
  - by apply empty_log_room; [exact (eq_trans (sent_log _) node2_voted_log)|vm_compute].
  - exact node2_copies.
  - by vm_compute.
Qed.

(** *** The entry is stored *)
Definition written_log : RaftLog.t MemStorage.t := RaftLog.mk store4 (Unstable.mk None [first_entry] (size_of [first_entry]) 1) 0 0 0.
Lemma written_log_eq : unstored_log <| RaftLog.store := store4 |> = written_log.
Proof. by vm_compute. Qed.
Lemma unstored_store : may_store unstored_log store4.
Proof.
  split; [apply stored_log_ok|]. intros _. split_and!; try (by vm_compute); try (vm_compute; congruence).
  intros k Hk. change (0 < k < 1) in Hk. lia.
Qed.
Lemma store_written : app_step unstored_log written_log.
Proof. rewrite <-written_log_eq. apply app_write; [exact unstored_store|]. left. rewrite unstored_view. apply part_refl. Qed.
Lemma store_stable : app_step written_log stable_log.
Proof.
  eapply (app_stable_entries _ 1 1); [by vm_compute|by vm_compute|]. intros j Hj. change (1 <= j <= 1) in Hj.
  assert (j = 1) as -> by lia. by vm_compute.
Qed.
Lemma written_log_ok : log_ok written_log.
Proof.
  split.
  - apply stored_log_ok.
  - split; try done; vm_compute; congruence.
  - intros _. by split; vm_compute.
  - by vm_compute.
  - by vm_compute.
  - by vm_compute.
Qed.
Lemma node1_unstored : raft_log (r (sent node1_elected)) = unstored_log.
Proof. by vm_compute. Qed.
Lemma log_room n (s : Raft.t MemStorage.t) : log_ok (raft_log (r s)) -> ALog.last (view (raft_log (r s))) = 1 -> n < 1000 -> room n s.
Proof. intros Hok Hl Hn. split; [done|]. rewrite Hl. u64_lia. Qed.

Lemma node2_stores : full_log_step three_voters cluster_copied (at_node 2 node2_stored cluster_copied).
Proof.
  assert (node2_stored = node2_copied <| r := (r node2_copied) <| raft_log := written_log |> |>) as -> by (rewrite <-written_log_eq; reflexivity).
  apply (app_step_full 2 node2_copied written_log); [find_node|exact store_written|reflexivity|exact unstored_view].
Qed.
Lemma node1_stores : full_log_step three_voters cluster_acked (at_node 1 node1_stored cluster_acked).
Proof.
  assert ((raft_log (r (sent node1_elected))) <| RaftLog.store := store4 |> = written_log) as E by (rewrite node1_unstored; exact written_log_eq).
  unfold node1_stored, storing. rewrite E.
  apply (app_step_full 1 (sent node1_elected) written_log); [find_node|rewrite node1_unstored; exact store_written|reflexivity|exact node1_view].
Qed.
Lemma node1_settles : full_log_step three_voters (at_node 1 node1_stored cluster_acked) (at_node 1 node1_stable (at_node 1 node1_stored cluster_acked)).
Proof.
  assert (raft_log (r node1_stored) = written_log) as E by by vm_compute.
  apply (app_step_full 1 node1_stored stable_log); [find_node|rewrite E; exact store_stable|reflexivity|rewrite E; by vm_compute].
Qed.
Lemma node1_keeps : full_log_step three_voters (at_node 1 node1_stable (at_node 1 node1_stored cluster_acked)) cluster_stored.
Proof. apply (own_step_full 1 node1_stable node1_kept); [find_node|apply (step_persist_entries _ 1 1); by vm_compute|by vm_compute]. Qed.
Lemma ack_delivery : full_log_step three_voters cluster_stored cluster_committed.
Proof.
  eapply (told_step 1 node1_kept first_ack); [find_node|by vm_compute|in_net|by vm_compute|exact first_ack_wf|..].
  - by apply (fresh_at 1); [vm_compute|].
  - apply log_room; [rewrite node1_kept_log; exact stored_log_ok|by vm_compute|by vm_compute].
  - by vm_compute.
  - by vm_compute.
Qed.
Lemma commit_delivery : full_log_step three_voters (sending 1 node1_committed cluster_committed) cluster_told.
Proof.
  eapply (told_step 2 (sent node2_stored) commit_append); [find_node|by vm_compute|in_net|by vm_compute|exact commit_append_wf|..].
  - by apply (fresh_at 1); [vm_compute|].
  - apply log_room; [exact (eq_ind _ log_ok written_log_ok _ (eq_sym written_log_eq))|by vm_compute|by vm_compute].
  - by vm_compute.
  - by vm_compute.
Qed.

Lemma cluster_commits : rtc (full_log_step three_voters) cluster_start cluster_committed.
Proof.
  eapply rtc_l; [exact booted_delivery|].
  eapply rtc_l; [exact (sending_step_full 1 node1_candidate cluster_start (no_acks node1_candidate ltac:(by vm_compute)))|].
  eapply rtc_l; [exact request_delivery|].
  eapply rtc_l; [exact (sending_step_full 2 node2_voted cluster_asked (no_acks node2_voted ltac:(by vm_compute)))|].
  eapply rtc_l; [exact full_vote_delivery|].
  eapply rtc_l; [exact (sending_step_full 1 node1_elected cluster_answered (no_acks node1_elected ltac:(by vm_compute)))|].
  eapply rtc_l; [exact full_append_delivery|].
  eapply rtc_l; [exact node2_stores|].
  eapply rtc_l.
  { apply (sending_step_full 2 node2_stored cluster_copied). intros n t _.
    assert (view (raft_log (r node2_stored)) = storage_log (RaftLog.store (raft_log (r node2_stored)))) as -> by by vm_compute. apply begins_refl. }
  eapply rtc_l; [exact node1_stores|].
  eapply rtc_l; [exact node1_settles|].
  eapply rtc_l; [exact node1_keeps|].
  apply rtc_once. exact ack_delivery.
Qed.
Lemma cluster_tells : rtc (full_log_step three_voters) cluster_committed cluster_told.
Proof.
  eapply rtc_l; [exact (sending_step_full 1 node1_committed cluster_stored (no_acks node1_committed ltac:(by vm_compute)))|].
  apply rtc_once. exact commit_delivery.
Qed.
Lemma cluster_start_roots : initial_roots three_voters cluster_start.
Proof.
  split; [exact cluster_start_logs|]. intros i s Hi. unfold cluster_start, nodes in Hi. rewrite !lookup_insert_Some, lookup_singleton_Some in Hi.
  destruct Hi as [[_ <-]|(_ & [[_ <-]|(_ & _ & <-)])]; (split; [split; by vm_compute|by vm_compute]).
Qed.

Lemma state_machine_safety_witness : 0 < 1 <= RaftLog.committed (raft_log (r node1_committed)) /\
  exists e, entry (view (raft_log (r node1_committed))) 1 = Some e /\ entry (view (raft_log (r node2_committed))) 1 = Some e.
Proof.
  split; [by vm_compute|].
  assert (Majority.voters (Joint.incoming three_voters) <> ∅) as HV by (apply (bool_decide_unpack _); vm_compute; exact Logic.I).
  apply (state_machine_safety three_voters HV cluster_start cluster_committed cluster_told 1 2 1).
  - exact cluster_start_roots.
  - exact cluster_commits.
  - exact cluster_tells.
  - apply lookup_insert_eq.
  - apply lookup_insert_eq.
  - split; [done|by vm_compute].
  - by vm_compute.
Defined.
End witnesses.
