(* ===== verification/Node.v ===== *)
(** * The asynchronous node ([node.rs], [async_ch.rs])

    A raw node behind channels: the loop [run] takes events from the channels, one at a
    time, and hands out [Ready] values; the methods of the trait [Node] put events into
    the channels and wait for the answers.  The tasks interleave at their [await]s and at
    every acquisition of the lock of the raw node, so the node is a step relation. *)

From S2P Require Import Prelude Proto Errors Util Inflights Progress Quorum Tracker ConfChange.
From S2P Require Import Log Unstable Storage RaftLog ReadOnly Config RaftCore Raft RawNode.

(** ** The crate async_channel

    Its documentation: a channel is a queue, [send] waits while a bounded channel is
    full and [recv] while the channel is empty; what is received is what was sent, in
    the same order. *)
Class AsyncChannel := {
  chan : Type -> Type;
  bounded : forall {A : Type}, Z -> chan A;
  unbounded : forall {A : Type}, chan A;
  push : forall {A : Type}, A -> chan A -> option (chan A);
  pop : forall {A : Type}, chan A -> option (A * chan A)
}.

Class AsyncChannelLaws `{AsyncChannel} := {
  contents : forall {A : Type}, chan A -> list A;
  bounded_empty A n : contents (bounded (A:=A) n) = [];
  unbounded_empty A : contents (unbounded (A:=A)) = [];
  push_contents A (a : A) c c' : push a c = Some c' -> contents c' = contents c ++ [a];
  pop_contents A (c : chan A) : match pop c with
    | Some (a, c') => contents c = a :: contents c'
    | None => contents c = []
    end
}.

(** [SafeResult] *)
Abbreviation SafeResult A := (Result A).

(** [struct MsgWithResult]: a proposal, and the call that waits for its answer. *)
Module MsgWithResult.
Record t : Type := mk {
  m : option Message.t;
  ch : option nat
}.
Definition new_with_msg (msg : Message.t) : t := mk (Some msg) None.
Definition new_with_channel (call : nat) (msg : Message.t) : t := mk (Some msg) (Some call).
Definition get_msg (self : t) : option Message.t := m self.
End MsgWithResult.

(** ** The methods of the trait [Node], as the messages they send *)
Section messages.
Context `{Codec}.
Definition campaign_msg : Message.t := Message.default <| Message.msg_type := MsgHup |>.
Definition propose_msg (data : bytes) : Message.t :=
  Message.default <| Message.msg_type := MsgPropose |> <| Message.entries := [Entry.default <| Entry.data := data |>] |>.
Definition transfer_leader_ship_msg (lead transferee : Z) : Message.t :=
  Message.default <| Message.msg_type := MsgTransferLeader |> <| Message.from := transferee |> <| Message.to := lead |>.
Definition read_index_msg (rctx : bytes) : Message.t :=
  Message.default <| Message.msg_type := MsgReadIndex |> <| Message.entries := [Entry.default <| Entry.data := rctx |>] |>.
Definition report_unreachable_msg (id : Z) : Message.t :=
  Message.default <| Message.msg_type := MsgUnreachable |> <| Message.from := id |>.
Definition report_snapshot_msg (id : Z) (status : SnapshotStatus) : Message.t :=
  Message.default <| Message.msg_type := MsgSnapStatus |> <| Message.from := id |>
    <| Message.reject := bool_decide (status = Failure) |>.
Definition propose_conf_change_msg {C} `{ConfChangeI C} (cc : C) : Message.t :=
  Message.default <| Message.msg_type := MsgPropose |> <| Message.entries := [to_entry cc] |>.
End messages.

(** How far the loop is with a proposal.  It takes the lock of the raw node anew for each of the
    first four: about to ask whether the node is a voter, whether it knows a leader, for the identifier
    of the node, about to step the message, about to answer. *)
Inductive PropStage := AskVoter | AskLeader | AskId | StepProp (msg : Message.t) | Notify (res : SafeResult unit).

(** Where the loop is: about to look for work, about to fetch it, to offer it and to
    accept it, waiting for an event, busy with a proposal, waiting to answer a configuration
    change, ended. *)
Inductive Phase := Top | Collecting | Offering | Accepting | Selecting | Proposing (pm : MsgWithResult.t) (at_ : PropStage)
  | Answering (cs : ConfState.t) | Ended.

(** A call of a method in progress: at the first [select!] of [step_wait_option] (with
    [wait]), at the second one, returned. *)
Inductive Call := Sending (m : Message.t) (wait : bool) | Awaiting | Returned (res : SafeResult unit).

(** [struct InnerNode] with the local variables of [run].  The handles of the channels
    are always there, but for the sender of [done] that the loop gives up at the end
    ([done_tx]).  The answers that were sent to calls are kept. *)
Module InnerNode.
Record t {T : Type} `{AsyncChannel} : Type := mk {
  prop_c : chan MsgWithResult.t;
  recv_c : chan Message.t;
  conf_c : chan ConfChangeV2.t;
  conf_state_c : chan ConfState.t;
  ready_c : chan Ready.t;
  advance_c : chan unit;
  tick_c : chan unit;
  done : chan unit;
  stop_c : chan unit;
  status_c : chan nat;
  raw_node : RawNode.t T;
  done_tx : bool;
  phase : Phase;
  wait_advance : bool;
  ready : Ready.t;
  first : bool;
  notified : list (nat * SafeResult unit);
  statuses : list (nat * Status.t);
  calls : gmap nat Call
}.
Arguments t T {_}.
#[global] Instance eta_t {T} `{AsyncChannel} : Eta (t T) := fun s =>
  mk T _ (prop_c s) (recv_c s) (conf_c s) (conf_state_c s) (ready_c s) (advance_c s) (tick_c s) (done s) (stop_c s) (status_c s) (raw_node s) (done_tx s) (phase s) (wait_advance s) (ready s) (first s) (notified s) (statuses s) (calls s).
#[global] Instance set_prop_c {T} `{AsyncChannel} : Setter (@prop_c T _) := ltac:(derive_setter).
#[global] Instance set_recv_c {T} `{AsyncChannel} : Setter (@recv_c T _) := ltac:(derive_setter).
#[global] Instance set_conf_c {T} `{AsyncChannel} : Setter (@conf_c T _) := ltac:(derive_setter).
#[global] Instance set_conf_state_c {T} `{AsyncChannel} : Setter (@conf_state_c T _) := ltac:(derive_setter).
#[global] Instance set_ready_c {T} `{AsyncChannel} : Setter (@ready_c T _) := ltac:(derive_setter).
#[global] Instance set_advance_c {T} `{AsyncChannel} : Setter (@advance_c T _) := ltac:(derive_setter).
#[global] Instance set_tick_c {T} `{AsyncChannel} : Setter (@tick_c T _) := ltac:(derive_setter).
#[global] Instance set_done {T} `{AsyncChannel} : Setter (@done T _) := ltac:(derive_setter).
#[global] Instance set_stop_c {T} `{AsyncChannel} : Setter (@stop_c T _) := ltac:(derive_setter).
#[global] Instance set_status_c {T} `{AsyncChannel} : Setter (@status_c T _) := ltac:(derive_setter).
#[global] Instance set_raw_node {T} `{AsyncChannel} : Setter (@raw_node T _) := ltac:(derive_setter).
#[global] Instance set_done_tx {T} `{AsyncChannel} : Setter (@done_tx T _) := ltac:(derive_setter).
#[global] Instance set_phase {T} `{AsyncChannel} : Setter (@phase T _) := ltac:(derive_setter).
#[global] Instance set_wait_advance {T} `{AsyncChannel} : Setter (@wait_advance T _) := ltac:(derive_setter).
#[global] Instance set_ready {T} `{AsyncChannel} : Setter (@ready T _) := ltac:(derive_setter).
#[global] Instance set_first {T} `{AsyncChannel} : Setter (@first T _) := ltac:(derive_setter).
#[global] Instance set_notified {T} `{AsyncChannel} : Setter (@notified T _) := ltac:(derive_setter).
#[global] Instance set_statuses {T} `{AsyncChannel} : Setter (@statuses T _) := ltac:(derive_setter).
#[global] Instance set_calls {T} `{AsyncChannel} : Setter (@calls T _) := ltac:(derive_setter).
Arguments mk {T _}.

Section ops.
Context {T : Type} `{Storage T} `{Codec} `{HashOrder} `{ConfigurationDebug} `{Rng} `{AsyncChannel}.
Abbreviation M := (Prog (t T)).

Definition new (raw : RawNode.t T) : t T :=
  mk (bounded 1) (bounded 1) unbounded unbounded unbounded unbounded unbounded (bounded 1) unbounded unbounded
    raw true Top false Ready.default true [] [] ∅.

Definition on_raw {A} (m : Prog (RawNode.t T) A) : M A := zoom raw_node (fun x s => s <| raw_node := x |>) m.
Definition raft_of (self : t T) : Raft.t T := RawNode.raft (raw_node self).
Definition go (p : Phase) : M unit := modify (fun s => s <| phase := p |>).

(** ** One round of [run] *)

(** [if !wait_advance && self.rl_raw_node().has_ready() && !first] *)
Definition check_ready : M unit :=
  self ← get;
  has_ready ← lift (if negb (wait_advance self) then
                      b ← RawNode.has_ready (raw_node self); mret (b && negb (first self))
                    else mret false);
  if has_ready : bool then go Collecting
  else modify (fun s => s <| first := false |>);; go Selecting.

Definition collect_ready (fuel : nat) : M unit :=
  rd ← on_raw (RawNode.ready_without_accept fuel);
  modify (fun s => s <| ready := rd |>);;
  go Offering.

Definition offer_ready (c : chan Ready.t) : M unit :=
  modify (fun s => s <| ready_c := c |>);;
  go Accepting.

Definition accept_ready : M unit :=
  self ← get;
  on_raw (RawNode.accept_ready (ready self));;
  modify (fun s => s <| wait_advance := true |> <| first := false |>);;
  go Selecting.

Definition is_voter (self : t T) : bool :=
  let id := RaftCore.id (Raft.r (raft_of self)) in
  let cs := Configuration.to_conf_state (ProgressTracker.conf (Raft.prs (raft_of self))) in
  bool_decide (id ∈ ConfState.voters cs) || bool_decide (id ∈ ConfState.voters_outgoing cs).

Definition notify (pm : MsgWithResult.t) (res : SafeResult unit) : M unit :=
  match MsgWithResult.ch pm with
  | Some call => modify (fun s => s <| notified := notified s ++ [(call, res)] |>)
  | None => mret tt
  end.

(** The branches of [select!]. *)
Definition on_conf (cc : ConfChangeV2.t) : M unit :=
  r ← on_raw (RawNode.apply_conf_change cc);
  cs ← lift (result_unwrap r);
  go (Answering cs).

(** One stage of the branch of a proposal; other tasks run between two of them. *)
Definition on_prop (pm : MsgWithResult.t) (at_ : PropStage) : M unit :=
  self ← get;
  match at_ with
  | AskVoter => go (Proposing pm (if is_voter self then AskLeader else Notify (Err NotIsVoter)))
  | AskLeader => go (Proposing pm (if Raft.has_leader (raft_of self) then AskId else Notify (Err NoLeader)))
  | AskId =>
      msg ← unwrap (MsgWithResult.get_msg pm);
      go (Proposing pm (StepProp (msg <| Message.from := RaftCore.id (Raft.r (raft_of self)) |>)))
  | StepProp msg => res ← on_raw (RawNode.step msg); go (Proposing pm (Notify res))
  | Notify res => notify pm res;; go Top
  end.

Definition on_recv (msg : Message.t) : M unit :=
  self ← get;
  let is_pr := bool_decide (is_Some (Raft.progress_of (raft_of self) (Message.from msg))) in
  when (is_pr || negb (is_response_msg (Message.msg_type msg))) (_r ← on_raw (RawNode.on_raft (Raft.step msg)); mret tt);;
  go Top.

Definition tick : M unit := _b ← on_raw RawNode.tick; mret tt.
Definition on_tick : M unit := tick;; go Top.

Definition on_advance : M unit :=
  self ← get;
  _light ← on_raw (RawNode.advance (ready self));
  modify (fun s => s <| wait_advance := false |>);;
  go Top.

Definition get_status (self : t T) : Status.t := Status.from (raft_of self).
Definition on_status (call : nat) : M unit :=
  modify (fun s => s <| statuses := statuses s ++ [(call, get_status s)] |>);;
  go Top.

(** The loop ends once [done] has taken the message; the sender is given up. *)
Definition on_stop (c : chan unit) : M unit :=
  modify (fun s => s <| done := c |> <| done_tx := false |>);;
  go Ended.

(** ** The methods of [Node] *)

(** What a method that sends a message starts with; [do_step] and [step_wait] are
    [step_wait_option] without and with waiting. *)
Definition do_step (m : Message.t) : Call := Sending m false.
Definition step_wait (m : Message.t) : Call := Sending m true.
Definition campaign : Call := do_step campaign_msg.
Definition propose (data : bytes) : Call := step_wait (propose_msg data).
Definition step (m : Message.t) : Call :=
  if is_local_msg (Message.msg_type m) then Returned (Ok tt) else do_step m.
Definition propose_conf_change {C} `{ConfChangeI C} (cc : C) : Call := step (propose_conf_change_msg cc).
Definition transfer_leader_ship (lead transferee : Z) : Call := do_step (transfer_leader_ship_msg lead transferee).
Definition read_index (rctx : bytes) : Call := step (read_index_msg rctx).
Definition report_unreachable (id : Z) : Call := do_step (report_unreachable_msg id).
Definition report_snapshot (id : Z) (status : SnapshotStatus) : Call := do_step (report_snapshot_msg id status).

(** The first [select!] of [step_wait_option], when the send goes through; [None] while
    the channel is full. *)
Definition step_wait_option (call : nat) (m : Message.t) (wait : bool) (self : t T) : option (t T) :=
  if negb (bool_decide (Message.msg_type m = MsgPropose)) then
    c ← push m (recv_c self);
    Some (self <| recv_c := c |> <| calls := <[call := Returned (Ok tt)]> (calls self) |>)
  else
    let props_msg := if wait then MsgWithResult.new_with_channel call m else MsgWithResult.new_with_msg m in
    c ← push props_msg (prop_c self);
    Some (self <| prop_c := c |> <| calls := <[call := if wait then Awaiting else Returned (Ok tt)]> (calls self) |>).

(** The result when [done] comes first: [do_step] drops it. *)
Definition stopped (wait : bool) : Call := Returned (if wait then Err Stopped else Ok tt).

(** ** The tasks together

    The loop, the calls and the application; [fuel] bounds the reads of the log of
    [ready_without_accept]. *)
Variable fuel : nat.

Definition runs (m : M unit) (s s' : t T) : Prop := m s = Ret (tt, s').

Inductive run_step (s : t T) : t T -> Prop :=
  | run_check s' : phase s = Top -> runs check_ready s s' -> run_step s s'
  | run_collect s' : phase s = Collecting -> runs (collect_ready fuel) s s' -> run_step s s'
  | run_offer c s' : phase s = Offering -> push (ready s) (ready_c s) = Some c -> runs (offer_ready c) s s' -> run_step s s'
  | run_accept s' : phase s = Accepting -> runs accept_ready s s' -> run_step s s'
  | run_conf cc c s' : phase s = Selecting -> pop (conf_c s) = Some (cc, c) -> runs (on_conf cc) (s <| conf_c := c |>) s' -> run_step s s'
  | run_prop pm c : phase s = Selecting -> pop (prop_c s) = Some (pm, c) -> run_step s (s <| prop_c := c |> <| phase := Proposing pm AskVoter |>)
  | run_prop_on pm at_ s' : phase s = Proposing pm at_ -> runs (on_prop pm at_) s s' -> run_step s s'
  | run_recv m c s' : phase s = Selecting -> pop (recv_c s) = Some (m, c) -> runs (on_recv m) (s <| recv_c := c |>) s' -> run_step s s'
  | run_tick c s' : phase s = Selecting -> pop (tick_c s) = Some (tt, c) -> runs on_tick (s <| tick_c := c |>) s' -> run_step s s'
  | run_advance c s' : phase s = Selecting -> pop (advance_c s) = Some (tt, c) -> runs on_advance (s <| advance_c := c |>) s' -> run_step s s'
  | run_status call c s' : phase s = Selecting -> pop (status_c s) = Some (call, c) -> runs (on_status call) (s <| status_c := c |>) s' -> run_step s s'
  | run_stop c d s' : phase s = Selecting -> pop (stop_c s) = Some (tt, c) -> done_tx s = true -> push tt (done s) = Some d ->
      runs (on_stop d) (s <| stop_c := c |>) s' -> run_step s s'
  | run_answer cs c : phase s = Answering cs -> push cs (conf_state_c s) = Some c ->
      run_step s (s <| conf_state_c := c |> <| phase := Top |>)
  | run_answer_done cs c : phase s = Answering cs -> pop (done s) = Some (tt, c) -> run_step s (s <| done := c |> <| phase := Top |>).

(** The calls and the application.  [Node::tick] works on the raw node at once. *)
Inductive client_step (s : t T) : t T -> Prop :=
  | client_call call c : calls s !! call = None -> c <> Awaiting -> client_step s (s <| calls := <[call := c]> (calls s) |>)
  | client_send call m wait s' : calls s !! call = Some (Sending m wait) -> step_wait_option call m wait s = Some s' -> client_step s s'
  | client_stopped call m wait c : calls s !! call = Some (Sending m wait) -> pop (done s) = Some (tt, c) ->
      client_step s (s <| done := c |> <| calls := <[call := stopped wait]> (calls s) |>)
  | client_answered call res : calls s !! call = Some Awaiting -> (call, res) ∈ notified s ->
      client_step s (s <| calls := <[call := Returned res]> (calls s) |>)
  | client_gives_up call c : calls s !! call = Some Awaiting -> pop (done s) = Some (tt, c) ->
      client_step s (s <| done := c |> <| calls := <[call := stopped true]> (calls s) |>)
  | client_tick s' : runs tick s s' -> client_step s s'
  | client_takes_ready rd c : pop (ready_c s) = Some (rd, c) -> client_step s (s <| ready_c := c |>)
  | client_advance c : push tt (advance_c s) = Some c -> client_step s (s <| advance_c := c |>)
  | client_apply_conf_change (cc : Proto.ConfChange.t) c : push (as_v2 cc) (conf_c s) = Some c -> client_step s (s <| conf_c := c |>)
  | client_takes_conf_state cs c : pop (conf_state_c s) = Some (cs, c) -> client_step s (s <| conf_state_c := c |>)
  | client_status call c : push call (status_c s) = Some c -> client_step s (s <| status_c := c |>)
  | client_stop c : push tt (stop_c s) = Some c -> client_step s (s <| stop_c := c |>)
  | client_takes_done c : pop (done s) = Some (tt, c) -> client_step s (s <| done := c |>).

Definition node_step (s s' : t T) : Prop := run_step s s' \/ client_step s s'.

(** [start_node] *)
Definition start_node (draws : nat) (config : Config.t) (store : T) (peers : list Peer.t) : outcome (t T) :=
  if bool_decide (peers = []) then Panic
  else
    r ← RawNode.new draws config store;
    raw ← result_unwrap r;
    x ← RawNode.bootstrap peers raw;
    _u ← result_unwrap x.1;
    mret (new x.2).
End ops.
End InnerNode.
