(* ===== verification/NodeProps.v ===== *)
(** * Properties of the asynchronous node ([node.rs])

    What the loop hands out and how the calls are answered, along every interleaving of
    the loop with the calls. *)

From S2P Require Import Prelude Proto Errors Util Inflights Progress Quorum Tracker ConfChange.
From S2P Require Import Log Unstable Storage RaftLog ReadOnly Config RaftCore Raft RawNode RaftFrame RaftExample Node.

Section node.
Context {T : Type} `{Storage T} `{Codec} `{HashOrder} `{ConfigurationDebug} `{Rng} `{AsyncChannelLaws}.
Import InnerNode.
Implicit Types s : InnerNode.t T.

(** ** The records of a raw node

    Only [RawNode::ready] writes them, which the loop does not call. *)
Definition same_records (w w' : RawNode.t T) : Prop := RawNode.records w' = RawNode.records w.
#[local] Instance same_records_preorder : PreOrder same_records.
Proof. split; [done|]. intros w w' w'' H1' H2'. by unfold same_records in *; rewrite H2'. Qed.

Lemma on_raft_records {A} (m : Prog (Raft.t T) A) : pres same_records (RawNode.on_raft m).
Proof. eapply (pres_zoom _ (fun _ _ => True)); [done|done]. Qed.
Hint Resolve on_raft_records : frame.
Hint Extern 1 (same_records _ _) => reflexivity : frame.

Lemma raw_step_records m : pres same_records (RawNode.step (T:=T) m).
Proof. unfold RawNode.step. frame. Qed.
Lemma raw_conf_records cc : pres same_records (RawNode.apply_conf_change (T:=T) (C:=ConfChangeV2.t) cc).
Proof. unfold RawNode.apply_conf_change. frame. Qed.
Lemma raw_tick_records : pres same_records (RawNode.tick (T:=T)).
Proof. unfold RawNode.tick. frame. Qed.
Lemma raw_ready_records fuel : pres same_records (RawNode.ready_without_accept (T:=T) fuel).
Proof. unfold RawNode.ready_without_accept. frame. Qed.
Lemma raw_accept_records rd : pres same_records (RawNode.accept_ready (T:=T) rd).
Proof. unfold RawNode.accept_ready. frame. Qed.
Lemma bootstrap_entries_records i peers : pres same_records (RawNode.bootstrap_entries (T:=T) i peers).
Proof. revert i. induction peers; intros i; simpl; frame. Qed.
Hint Resolve bootstrap_entries_records : frame.
Lemma raw_bootstrap_records peers : pres same_records (RawNode.bootstrap (T:=T) peers).
Proof. unfold RawNode.bootstrap. frame. Qed.

(** Without a record a report of the application panics. *)
Lemma advance_panics w rd : RawNode.records w = [] -> RawNode.advance rd w = Panic.
Proof.
  intros Hw. unfold RawNode.advance, RawNode.advance_append, RawNode.commit_ready. erewrite bind_run by reflexivity.
  prog_unfold. destruct (Ready.ss rd), (Ready.hs rd); fields; by rewrite Hw.
Qed.

(** ** The loop *)

(** A raw node that keeps its records, and no Ready handed out or reported. *)
Definition plain s s' : Prop := same_records (raw_node s) (raw_node s') /\ ready_c s' = ready_c s /\ wait_advance s' = wait_advance s.
#[local] Instance plain_preorder : PreOrder plain.
Proof.
  split; [by intros s|]. intros s s' s'' (? & ? & ?) (? & ? & ?). split; [by etrans|split; congruence].
Qed.
Lemma on_raw_plain {A} (m : Prog (RawNode.t T) A) : pres same_records m -> pres plain (on_raw m).
Proof. intros Hm. eapply pres_zoom; [exact Hm|]. intros s w Hw. by split. Qed.
Hint Resolve on_raw_plain raw_step_records raw_conf_records raw_tick_records raw_ready_records raw_accept_records : frame.
Hint Extern 1 (plain _ _) => by split : frame.
Lemma notify_plain pm res : pres plain (notify (T:=T) pm res).
Proof. unfold notify. frame. Qed.
Lemma go_plain p : pres plain (go (T:=T) p).
Proof. unfold go. frame. Qed.
Lemma tick_plain : pres plain (tick (T:=T)).
Proof. unfold tick. frame. Qed.
Hint Resolve notify_plain go_plain tick_plain : frame.

Definition offers (p : Phase) : bool := match p with Collecting | Offering | Accepting => true | _ => false end.

Definition accepting (p : Phase) : bool := match p with Accepting => true | _ => false end.

(** No record is ever kept; at most one Ready is out, and while one is out no other is
    prepared. *)
Record loop_inv s : Prop := {
  l_records : RawNode.records (raw_node s) = [];
  l_ready : len (contents (ready_c s)) <= if wait_advance s || accepting (phase s) then 1 else 0;
  l_phase : offers (phase s) = true -> wait_advance s = false
}.

Lemma plain_inv s s' : loop_inv s -> plain s s' -> offers (phase s') = false -> accepting (phase s) = false -> loop_inv s'.
Proof.
  intros [Hr Hc Hp] (Hr' & Hc' & Hw) Ho Ha. split; [by rewrite Hr'| |by rewrite Ho].
  rewrite Hc', Hw. rewrite Ha in Hc. by destruct (wait_advance s), (phase s').
Qed.

(** A branch of [select!] ends with a jump. *)
Lemma branch_inv (m : Prog (InnerNode.t T) unit) p s s' : runs (m;; go p) s s' -> pres plain m -> offers p = false ->
  loop_inv s -> phase s = Selecting -> loop_inv s'.
Proof.
  intros Hrun Hm Hp Hs Hph. assert (phase s' = p) as Hp'.
  { apply bind_inv in Hrun as (u & s1 & _ & ->%modify_inv). done. }
  eapply plain_inv; [done| |by rewrite Hp'|by rewrite Hph]. eapply (pres_bind plain m (fun _ => go p)); [done|frame|done].
Qed.

Lemma on_prop_plain pm at_ s s' : runs (on_prop pm at_) s s' -> plain s s' /\ offers (phase s') = false.
Proof.
  unfold runs, on_prop. intros (s0 & ? & [-> ->]%get_inv & E)%bind_inv. destruct at_ as [| | |msg|res].
  - by apply modify_inv in E as ->.
  - by apply modify_inv in E as ->.
  - by apply bind_inv in E as (m & s1 & [_ ->]%unwrap_inv & ->%modify_inv).
  - apply bind_inv in E as (res & s1 & E & ->%modify_inv). split; [|done]. apply (on_raw_plain _ (raw_step_records msg)) in E.
    etrans; [exact E|done].
  - apply bind_inv in E as (u & s1 & E & ->%modify_inv). split; [|done]. apply notify_plain in E. etrans; [exact E|done].
Qed.

Lemma loop_inv_channels s s' : loop_inv s -> raw_node s' = raw_node s -> ready_c s' = ready_c s ->
  wait_advance s' = wait_advance s -> phase s' = phase s -> loop_inv s'.
Proof. intros [] Hr Hc Hw Hp. by split; rewrite ?Hr, ?Hc, ?Hw, ?Hp. Qed.

Lemma check_ready_inv s s' : runs check_ready s s' ->
  (s' = s <| phase := Collecting |> /\ wait_advance s = false) \/ s' = s <| first := false |> <| phase := Selecting |>.
Proof.
  unfold runs, check_ready. intros (s0 & ? & [-> ->]%get_inv & E)%bind_inv.
  apply bind_inv in E as (b & s1 & [Eb ->]%lift_inv & E). destruct b.
  - apply modify_inv in E as ->. left. split; [done|]. by destruct (wait_advance s).
  - apply bind_inv in E as (u & s1 & ->%modify_inv & ->%modify_inv). by right.
Qed.

Lemma run_step_inv fuel s s' : run_step fuel s s' -> loop_inv s -> loop_inv s'.
Proof.
  intros Hstep Hs. pose proof Hs as [Hrec Hc Hp].
  destruct Hstep as [s' Ht E|s' Ht E|c s' Ht Hpush E|s' Ht E|cc c s' Ht _ E|pm c Ht _|pm at_ s' Ht E|m c s' Ht _ E|c s' Ht _ E
    |c s' Ht _ E|call c s' Ht _ E|c d s' Ht _ _ _ E|cs c Ht _|cs c Ht _].
  - rewrite Ht in *. apply check_ready_inv in E as [[-> Hw]| ->]; [|by split; fields].
    split; fields; [done|by rewrite Hw in *|done].
  - rewrite Ht in *. unfold runs, collect_ready in E. apply bind_inv in E as (rd & s1 & E & E1).
    apply zoom_inv in E as (w & E & ->). apply raw_ready_records in E.
    apply bind_inv in E1 as (u & s2 & ->%modify_inv & ->%modify_inv). split; fields; [by rewrite E|done|by intros _; apply Hp].
  - rewrite Ht in *. unfold runs, offer_ready in E. apply bind_inv in E as (u & s1 & ->%modify_inv & ->%modify_inv).
    specialize (Hp eq_refl). rewrite Hp in Hc. apply push_contents in Hpush. split; fields; [done| |done].
    rewrite Hp, Hpush, len_app. simpl in *. rewrite len_cons, len_nil. lia.
  - rewrite Ht in *. unfold runs, accept_ready in E. apply bind_inv in E as (s0 & ? & [-> ->]%get_inv & E).
    apply bind_inv in E as (u & s1 & E & E1). apply zoom_inv in E as (w & E & ->). apply raw_accept_records in E.
    apply bind_inv in E1 as (u1 & s2 & ->%modify_inv & ->%modify_inv).
    rewrite (Hp eq_refl) in Hc. split; fields; [by rewrite E|done|done].
  - unfold runs, on_conf in E. apply bind_inv in E as (r & s1 & E & E1).
    apply (on_raw_plain _ (raw_conf_records cc)) in E. apply bind_inv in E1 as (cs & s2 & [_ ->]%lift_inv & E1).
    apply modify_inv in E1 as ->. assert (plain s s1) as Hpl by (etrans; [|exact E]; by split).
    eapply plain_inv; [done| |done|by rewrite Ht]. etrans; [exact Hpl|by split].
  - rewrite Ht in *. by split; fields.
  - apply on_prop_plain in E as [Hpl Ho]. eapply plain_inv; [done..|by rewrite Ht].
  - unfold runs, on_recv in E. apply bind_inv in E as (s0 & ? & [-> ->]%get_inv & E).
    eapply branch_inv; [exact E|frame|done|by eapply loop_inv_channels|done].
  - eapply branch_inv; [exact E|frame|done|by eapply loop_inv_channels|done].
  - unfold runs, on_advance in E. apply bind_inv in E as (s0 & ? & [-> ->]%get_inv & E).
    apply bind_inv in E as (l & s1 & E & _). apply zoom_inv in E as (w & E & _). fields.
    by rewrite (advance_panics _ _ Hrec) in E.
  - eapply branch_inv; [exact E|frame|done|by eapply loop_inv_channels|done].
  - eapply branch_inv; [exact E|frame|done|by eapply loop_inv_channels|done].
  - rewrite Ht in *. by split; fields.
  - rewrite Ht in *. by split; fields.
Qed.

Lemma client_step_inv s s' : client_step s s' -> loop_inv s -> loop_inv s'.
Proof.
  intros Hstep Hs. destruct Hstep as [ |call m wait s' _ E| | | |s' E|rd c E| | | | | | ];
    try (by eapply loop_inv_channels).
  - unfold step_wait_option in E. destruct (negb _); simpl in E;
      [destruct (push m _) eqn:Ep|destruct (push _ (prop_c s)) eqn:Ep]; try done; injection E as <-; by eapply loop_inv_channels.
  - pose proof (tick_plain _ _ _ E) as (Hr & Hc & Hw).
    assert (phase s' = phase s) as Hp.
    { unfold runs, tick in E. apply bind_inv in E as (b & s1 & E & [_ <-]%ret_inv). by apply zoom_inv in E as (w & _ & ->). }
    destruct Hs as [Hr1 Hc1 Hp1]. split; [by rewrite Hr|by rewrite Hc, Hw, Hp|by rewrite Hp, Hw].
  - destruct Hs as [Hr1 Hc1 Hp1]. split; fields; [done| |done].
    pose proof (pop_contents _ (ready_c s)) as Hpop. rewrite E in Hpop. rewrite Hpop, len_cons in Hc1. lia.
Qed.

Lemma node_steps_inv fuel s s' : rtc (node_step fuel) s s' -> loop_inv s -> loop_inv s'.
Proof.
  induction 1 as [|s s1 s' [Hs|Hs] _ IH]; intros Hi; [done|..]; apply IH; [by eapply run_step_inv|by eapply client_step_inv].
Qed.

Lemma inner_new_inv w : RawNode.records w = [] -> loop_inv (new w).
Proof. intros Hw. split; [done| |done]. unfold new. simpl. by rewrite unbounded_empty. Qed.

Lemma start_node_inv d config store peers s : start_node d config store peers = Ret s -> loop_inv s.
Proof.
  unfold start_node. case_bool_decide; [done|]. unfold RawNode.new. destruct (Config.id config =? 0); [done|].
  destruct (Raft.new _ _ _) as [[rf|]| |]; try done. simpl.
  match goal with |- context [RawNode.bootstrap peers ?w] => set (w0 := w) end.
  destruct (RawNode.bootstrap peers w0) as [[x w]| |] eqn:E; try done. simpl. destruct x; try done. simpl.
  intros [= <-]. apply inner_new_inv. by rewrite (raw_bootstrap_records peers _ _ _ E).
Qed.

(** Once a Ready is out nothing takes that back: a report of the application panics. *)
Lemma program_waits (m : Prog (InnerNode.t T) unit) s0 s s' : runs m s0 s' -> pres plain m ->
  wait_advance s0 = wait_advance s -> wait_advance s = true -> wait_advance s' = true.
Proof. intros E Hm H0' Hw. destruct (Hm _ _ _ E) as (_ & _ & ->). congruence. Qed.

Lemma run_step_waits fuel s s' : run_step fuel s s' -> loop_inv s -> wait_advance s = true -> wait_advance s' = true.
Proof.
  intros Hstep Hs Hw. pose proof Hs as [Hrec Hc Hp].
  destruct Hstep as [s' Ht E|s' Ht E|c s' Ht Hpush E|s' Ht E|cc c s' Ht _ E|pm c Ht _|pm at_ s' Ht E|m c s' Ht _ E|c s' Ht _ E
    |c s' Ht _ E|call c s' Ht _ E|c d s' Ht _ _ _ E|cs c Ht _|cs c Ht _]; try done.
  - apply check_ready_inv in E as [[_ ?]| ->]; [congruence|done].
  - eapply program_waits; [exact E|unfold collect_ready; frame|done|done].
  - eapply program_waits; [exact E|unfold offer_ready|done|done]. rewrite Hp in Hw by (by rewrite Ht). done.
  - rewrite Hp in Hw by (by rewrite Ht). done.
  - eapply program_waits; [exact E|unfold on_conf; frame|done|done].
  - apply on_prop_plain in E as [(_ & _ & ->) _]. done.
  - eapply program_waits; [exact E|unfold on_recv; frame|done|done].
  - eapply program_waits; [exact E|unfold on_tick; frame|done|done].
  - unfold runs, on_advance in E. apply bind_inv in E as (s0 & ? & [-> ->]%get_inv & E).
    apply bind_inv in E as (l & s1 & E & _). apply zoom_inv in E as (w & E & _). fields.
    by rewrite (advance_panics _ _ Hrec) in E.
  - eapply program_waits; [exact E|unfold on_status; frame|done|done].
  - eapply program_waits; [exact E|unfold on_stop; frame|done|done].
Qed.

Lemma client_step_waits s s' : client_step s s' -> wait_advance s' = wait_advance s.
Proof.
  intros Hstep. destruct Hstep as [ |call m wait s' _ E| | | |s' E| | | | | | | ]; try done.
  - unfold step_wait_option in E. destruct (negb _); simpl in E;
      [destruct (push m _) eqn:Ep|destruct (push _ (prop_c s)) eqn:Ep]; try done; by injection E as <-.
  - apply (tick_plain _ _ _ E).
Qed.

Lemma waits_for_ever fuel s s' : rtc (node_step fuel) s s' -> loop_inv s -> wait_advance s = true ->
  wait_advance s' = true /\ loop_inv s'.
Proof.
  induction 1 as [|s s1 s' [Hs|Hs] _ IH]; intros Hi Hw; [done|..].
  - apply IH; [by eapply run_step_inv|by eapply run_step_waits].
  - apply IH; [by eapply client_step_inv|by rewrite (client_step_waits _ _ Hs)].
Qed.

(** C27 — The asynchronous node hands out at most one Ready: whatever the tasks do after
    [start_node], a report of the application ([advance]) always makes the loop panic,
    because [ready_without_accept] leaves no record of the Ready for [commit_ready]; at
    most one Ready is ever in the channel, and once one was accepted none is prepared
    again. *)
Theorem node_hands_out_one_ready (fuel d : nat) (config : Config.t) (store : T) (peers : list Peer.t) (s0 s : InnerNode.t T)
    (Hstart : start_node d config store peers = Ret s0) (Hrun : rtc (node_step fuel) s0 s) :
  (forall c, on_advance (s <| advance_c := c |>) = Panic) /\
  len (contents (ready_c s)) <= 1 /\
  (wait_advance s = true -> forall s', rtc (node_step fuel) s s' ->
    phase s' <> Collecting /\ phase s' <> Offering /\ phase s' <> Accepting).
Proof.
  pose proof (node_steps_inv _ _ _ Hrun (start_node_inv _ _ _ _ _ Hstart)) as Hi. split_and!.
  - intros c. unfold on_advance. erewrite bind_run by reflexivity. unfold on_raw, zoom, mbind, prog_bind. fields.
    by rewrite (advance_panics _ _ (l_records _ Hi)).
  - pose proof (l_ready _ Hi) as Hl. destruct (_ || _); lia.
  - intros Hw s' Hrun'. destruct (waits_for_ever _ _ _ Hrun' Hi Hw) as [Hw' Hi'].
    pose proof (l_phase _ Hi') as Hp. split_and!; intros Hph; rewrite Hph in Hp; by rewrite Hp in Hw'.
Qed.

(** ** Answers to proposals *)

(** The calls whose proposal waits in the channel, is in the hands of the loop, or was answered. *)
Definition in_hand (p : Phase) : list nat :=
  match p with Proposing pm _ => match MsgWithResult.ch pm with Some call => [call] | None => [] end | _ => [] end.
Definition waiting s : list nat := omap MsgWithResult.ch (contents (prop_c s)) ++ in_hand (phase s) ++ (notified s).*1.
Definition proposed (o : option Call) : Prop := match o with Some (Sending _ _) | None => False | Some _ => True end.
Record answers_inv s : Prop := {
  a_once : NoDup (waiting s);
  a_calls call : call ∈ waiting s -> proposed (calls s !! call);
  a_kept call : calls s !! call = Some Awaiting -> call ∈ waiting s
}.

Lemma answers_same s s' : answers_inv s -> waiting s' ≡ₚ waiting s ->
  (forall call, proposed (calls s !! call) -> proposed (calls s' !! call)) ->
  (forall call, calls s' !! call = Some Awaiting -> calls s !! call = Some Awaiting) -> answers_inv s'.
Proof.
  intros [Hn Hc Hk] Hp Hcalls Hback. split; [by rewrite Hp|..]; intros call; rewrite Hp.
  - intros Hin. by apply Hcalls, Hc.
  - intros Ha. by apply Hk, Hback.
Qed.

(** What does not touch proposals and answers. *)
Definition silent s s' : Prop := prop_c s' = prop_c s /\ notified s' = notified s /\ calls s' = calls s.
#[local] Instance silent_preorder : PreOrder silent.
Proof.
  split; [by intros s|]. intros s s' s'' (? & ? & ?) (? & ? & ?). split_and!; congruence.
Qed.
Lemma silent_answers s s' : answers_inv s -> silent s s' -> in_hand (phase s') = in_hand (phase s) -> answers_inv s'.
Proof. intros Hs (Hp & Hn & Hc) Hh. eapply answers_same; [done| |..]; unfold waiting; by rewrite ?Hp, ?Hn, ?Hc, ?Hh. Qed.
Lemma on_raw_silent {A} (m : Prog (RawNode.t T) A) : pres silent (on_raw m).
Proof. eapply (pres_zoom _ (fun _ _ => True)); [done|by intros s w _]. Qed.
Lemma go_silent p : pres silent (go (T:=T) p).
Proof. by intros s u s' ->%modify_inv. Qed.
Hint Resolve on_raw_silent go_silent : frame.
Hint Extern 1 (silent _ _) => by split : frame.

(** No proposal is in the hands of the loop. *)
Definition free (p : Phase) : Prop := match p with Proposing _ _ => False | _ => True end.
Lemma free_hand p : free p -> in_hand p = [].
Proof. by destruct p. Qed.
(** Every branch but that of a proposal ends in such a place. *)
Definition ends_free (m : Prog (InnerNode.t T) unit) : Prop := forall s u s', m s = Ret (u, s') -> free (phase s').
Lemma ends_free_bind {A} (m : Prog (InnerNode.t T) A) f : (forall a, ends_free (f a)) -> ends_free (m ≫= f).
Proof. intros Hf s u s' (a & s1 & _ & E)%bind_inv. by eapply Hf. Qed.
Lemma ends_free_go p : free p -> ends_free (go p).
Proof. by intros Hp s u s' ->%modify_inv. Qed.
Ltac ends := first [by apply ends_free_go|apply ends_free_bind; intros ?; ends].

(** What a stage of the branch of a proposal does. *)
Definition stage_done pm at_ s s' : Prop :=
  match at_ with
  | AskVoter => s' = s <| phase := Proposing pm (if is_voter s then AskLeader else Notify (Err NotIsVoter)) |>
  | AskLeader => s' = s <| phase := Proposing pm (if Raft.has_leader (raft_of s) then AskId else Notify (Err NoLeader)) |>
  | AskId => exists m, MsgWithResult.m pm = Some m /\
      s' = s <| phase := Proposing pm (StepProp (m <| Message.from := RaftCore.id (Raft.r (raft_of s)) |>)) |>
  | StepProp msg => exists res w, RawNode.step msg (raw_node s) = Ret (res, w) /\
      s' = s <| raw_node := w |> <| phase := Proposing pm (Notify res) |>
  | Notify res => s' = s <| notified := notified s ++ match MsgWithResult.ch pm with Some call => [(call, res)] | None => [] end |> <| phase := Top |>
  end.
Lemma on_prop_done pm at_ s s' : runs (on_prop pm at_) s s' -> stage_done pm at_ s s'.
Proof.
  unfold runs, on_prop. intros (s0 & ? & [-> ->]%get_inv & E)%bind_inv. destruct at_ as [| | |msg|res]; simpl.
  - by apply modify_inv in E.
  - by apply modify_inv in E.
  - apply bind_inv in E as (m & s1 & [Hm ->]%unwrap_inv & ->%modify_inv). eauto.
  - apply bind_inv in E as (res & s1 & E & ->%modify_inv). apply zoom_inv in E as (w & E & ->). eauto.
  - apply bind_inv in E as (u & s1 & E & ->%modify_inv). unfold notify in E. destruct (MsgWithResult.ch pm).
    + by apply modify_inv in E as ->.
    + apply ret_inv in E as [_ ->]. destruct s1. unfold notified, set_notified. simpl. by rewrite app_nil_r.
Qed.

Lemma stage_done_frame pm at_ s s' : stage_done pm at_ s s' -> prop_c s' = prop_c s /\
  (forall pm' at', phase s' = Proposing pm' at' -> pm' = pm) /\
  forall call res, (call, res) ∈ notified s' -> (call, res) ∈ notified s \/ at_ = Notify res /\ MsgWithResult.ch pm = Some call.
Proof.
  destruct at_ as [| | |msg|res]; simpl; [intros ->|intros ->|intros (? & _ & ->)|intros (? & ? & _ & ->)|intros ->]; fields;
    (split_and!; [done|by intros ?? [= ]|by auto]) || idtac.
  split_and!; [done|done|]. intros call res' [|Hin]%elem_of_app; [by left|]. right.
  destruct (MsgWithResult.ch pm); [|by apply elem_of_nil in Hin]. by apply list_elem_of_singleton in Hin as [= -> ->].
Qed.

(** The steps of the loop: one that has nothing to do with proposals, one that takes a proposal, and the
    stages of its branch. *)
Lemma run_step_cases fuel s s' : run_step fuel s s' ->
  (silent s s' /\ free (phase s) /\ free (phase s')) \/
  (exists pm c, free (phase s) /\ pop (prop_c s) = Some (pm, c) /\ s' = s <| prop_c := c |> <| phase := Proposing pm AskVoter |>) \/
  (exists pm at_, phase s = Proposing pm at_ /\ stage_done pm at_ s s').
Proof.
  assert (forall m s0, runs m s0 s' -> pres silent m -> ends_free m -> silent s s0 -> free (phase s) ->
    silent s s' /\ free (phase s) /\ free (phase s')) as Hprog.
  { intros m s0 E Hm He H0' Hf. split_and!; [|done|by eapply He]. etrans; [done|by eapply Hm]. }
  intros Hstep.
  destruct Hstep as [s' Ht E|s' Ht E|c s' Ht _ E|s' Ht E|cc c s' Ht _ E|pm c Ht Hpop|pm at_ s' Ht E|m c s' Ht _ E|c s' Ht _ E
    |c s' Ht _ E|call c s' Ht _ E|c d s' Ht _ _ _ E|cs c Ht _|cs c Ht _].
  - left. apply check_ready_inv in E as [[-> _]| ->]; split_and!; try done; by rewrite Ht.
  - left. eapply Hprog; [exact E|unfold collect_ready; frame|unfold collect_ready; ends|by split|by rewrite Ht].
  - left. eapply Hprog; [exact E|unfold offer_ready; frame|unfold offer_ready; ends|by split|by rewrite Ht].
  - left. eapply Hprog; [exact E|unfold accept_ready; frame|unfold accept_ready; ends|by split|by rewrite Ht].
  - left. eapply Hprog; [exact E|unfold on_conf; frame|unfold on_conf; ends|by split|by rewrite Ht].
  - right. left. exists pm, c. split_and!; [by rewrite Ht|done..].
  - right. right. exists pm, at_. split; [done|by apply on_prop_done].
  - left. eapply Hprog; [exact E|unfold on_recv; frame|unfold on_recv; ends|by split|by rewrite Ht].
  - left. eapply Hprog; [exact E|unfold on_tick, tick; frame|unfold on_tick; ends|by split|by rewrite Ht].
  - left. eapply Hprog; [exact E|unfold on_advance; frame|unfold on_advance; ends|by split|by rewrite Ht].
  - left. eapply Hprog; [exact E|unfold on_status; frame|unfold on_status; ends|by split|by rewrite Ht].
  - left. eapply Hprog; [exact E|unfold on_stop; frame|unfold on_stop; ends|by split|by rewrite Ht].
  - left. split_and!; [by split|by rewrite Ht|done].
  - left. split_and!; [by split|by rewrite Ht|done].
Qed.

Lemma run_step_answers fuel s s' : run_step fuel s s' -> answers_inv s -> answers_inv s'.
Proof.
  intros [(Hsil & Hf & Hf')|[(pm & c & Hf & Hpop & ->)|(pm & at_ & Hp & E)]]%run_step_cases Hs.
  - eapply silent_answers; [done..|]. by rewrite !free_hand.
  - pose proof (pop_contents _ (prop_c s)) as Hcont. rewrite Hpop in Hcont. eapply answers_same; [done| |done|done].
    unfold waiting. fields. rewrite Hcont, (free_hand _ Hf). simpl. destruct (MsgWithResult.ch pm); simpl; [|done].
    by rewrite Permutation_middle.
  - destruct at_ as [| | |msg|res]; simpl in E.
    + subst s'. eapply silent_answers; [done|done|by rewrite Hp].
    + subst s'. eapply silent_answers; [done|done|by rewrite Hp].
    + destruct E as (m & _ & ->). eapply silent_answers; [done|done|by rewrite Hp].
    + destruct E as (res & w & _ & ->). eapply silent_answers; [done|done|by rewrite Hp].
    + subst s'. eapply answers_same; [done| |done|done]. unfold waiting. fields. rewrite Hp. simpl.
      apply Permutation_app_head. rewrite fmap_app. destruct (MsgWithResult.ch pm); simpl; [|by rewrite app_nil_r].
      by rewrite Permutation_app_comm.
Qed.

(** A call goes on from where it is proposed or not. *)
Lemma call_answers s s' call c : answers_inv s -> calls s' = <[call := c]> (calls s) -> waiting s' = waiting s ->
  (proposed (calls s !! call) -> proposed (Some c)) -> c <> Awaiting -> answers_inv s'.
Proof.
  intros Hs Hc Hw Hp Hna. eapply answers_same; [done|by rewrite Hw|..]; intros call'; rewrite Hc, lookup_insert; case_decide; subst; try done.
  congruence.
Qed.

Lemma client_step_answers s s' : client_step s s' -> answers_inv s -> answers_inv s'.
Proof.
  intros Hstep Hs.
  destruct Hstep as [call c Hc Hna|call m wait s' Hc E|call m wait c Hc _|call res Hc _|call c Hc _|s' E| | | | | | | ];
    try (by eapply silent_answers).
  - eapply call_answers; [done..| |done]. by rewrite Hc.
  - unfold step_wait_option in E. destruct (negb _); simpl in E.
    { destruct (push m _); [|done]. injection E as <-. eapply call_answers; [done..| |done]. by rewrite Hc. }
    destruct (push _ (prop_c s)) as [q|] eqn:Ep; [|done]. injection E as <-. apply push_contents in Ep.
    destruct wait; simpl in *.
    + assert (call ∉ waiting s) as Hnew by (intros Hin%(a_calls _ Hs); by rewrite Hc in Hin).
      assert (forall b, waiting (s <| prop_c := q |> <| calls := b |>) ≡ₚ call :: waiting s) as Hw.
      { intros b. unfold waiting. fields. rewrite Ep, omap_app. simpl. by rewrite <-app_assoc, Permutation_middle. }
      split; [rewrite Hw; constructor; [done|apply Hs]|..]; intros call'; rewrite Hw; fields; rewrite lookup_insert; case_decide.
      * done.
      * intros [?|Hin]%elem_of_cons; [congruence|]. by apply Hs.
      * subst. intros _. left.
      * intros Ha. right. by apply Hs.
    + eapply call_answers; [done|done| |by rewrite Hc|done]. unfold waiting. fields. rewrite Ep, omap_app. simpl. by rewrite app_nil_r.
  - by eapply call_answers.
  - by eapply call_answers.
  - by eapply call_answers.
  - unfold runs, tick in E. apply bind_inv in E as (b & s1 & E & [_ <-]%ret_inv). apply zoom_inv in E as (w & _ & ->).
    by eapply silent_answers.
Qed.

Lemma node_steps_answers fuel s s' : rtc (node_step fuel) s s' -> answers_inv s -> answers_inv s'.
Proof.
  induction 1 as [|s s1 s' [Hs|Hs] _ IH]; intros Hi; [done|..]; apply IH; [by eapply run_step_answers|by eapply client_step_answers].
Qed.

Lemma start_node_new d config store peers s : start_node d config store peers = Ret s -> exists w, s = new w.
Proof.
  unfold start_node. case_bool_decide; [done|]. intros E.
  destruct (RawNode.new _ _ _) as [[raw|]| |]; try done. simpl in E. destruct (RawNode.bootstrap _ _) as [[[] w]| |]; try done.
  injection E as <-. eauto.
Qed.
Lemma start_node_answers d config store peers s : start_node d config store peers = Ret s -> answers_inv s.
Proof.
  intros [w ->]%start_node_new. unfold new. split; unfold waiting; simpl; rewrite bounded_empty; simpl; [constructor|..]; [|done].
  by intros call ?%elem_of_nil.
Qed.

(** ** Where an answer comes from *)
Section verdicts.
Context (fuel : nat).
Abbreviation steps := (rtc (node_step (T:=T) fuel)).

(** At some moment of the run from [s1] to [s]. *)
Definition since s1 s (P : InnerNode.t T -> Prop) : Prop := exists s2, steps s1 s2 /\ steps s2 s /\ P s2.
Definition voter s : bool := Joint.contains (Configuration.voters (ProgressTracker.conf (Raft.prs (raft_of s)))) (RaftCore.id (Raft.r (raft_of s))).
Definition leader_of s : Z := RaftCore.leader_id (Raft.r (raft_of s)).

(** The questions the loop asks, in their order, each at a moment of its own after [s1]. *)
Definition found_voter s1 s : Prop := since s1 s (fun s2 => voter s2 = true).
Definition found_leader s1 s : Prop := since s1 s (fun s2 => leader_of s2 <> INVALID_ID /\ found_voter s1 s2).
Definition found_id (i : Z) s1 s : Prop := since s1 s (fun s2 => RaftCore.id (Raft.r (raft_of s2)) = i /\ found_leader s1 s2).

(** The answer [res] to the message [m] that was sent at [s1]. *)
Definition judged (m : Message.t) (res : SafeResult unit) s1 s : Prop :=
  (res = Err NotIsVoter /\ since s1 s (fun s2 => voter s2 = false)) \/
  (res = Err NoLeader /\ since s1 s (fun s2 => leader_of s2 = INVALID_ID /\ found_voter s1 s2)) \/
  since s1 s (fun s2 => exists i w, found_id i s1 s2 /\ RawNode.step (m <| Message.from := i |>) (raw_node s2) = Ret (res, w)).

(** The call [call] was about to send the proposal [m]. *)
Definition sends (call : nat) (m : Message.t) s : Prop := calls s !! call = Some (Sending m true) /\ Message.msg_type m = MsgPropose.

Lemma since_steps s1 s s' P : steps s s' -> since s1 s P -> since s1 s' P.
Proof. intros Hs (s2 & ? & ? & ?). exists s2. split_and!; [done| |done]. by etrans. Qed.
Lemma since_now s1 s (P : InnerNode.t T -> Prop) : steps s1 s -> P s -> since s1 s P.
Proof. intros. by exists s. Qed.
Lemma judged_steps m res s1 s s' : steps s s' -> judged m res s1 s -> judged m res s1 s'.
Proof. intros Hs [[? ?]|[[? ?]|?]]; [left|right; left|right; right]; split_and?; try done; by eapply since_steps. Qed.

Lemma is_voter_spec s : is_voter s = voter s.
Proof.
  apply eq_true_iff_eq. unfold voter. rewrite <-elem_of_all_voters. unfold is_voter, Configuration.to_conf_state, all_voters. simpl.
  rewrite orb_true_iff, !bool_decide_eq_true. unfold Majority.raw_slice, Majority.slice, Majority.ids.
  rewrite ?elem_of_set_iter. set_solver.
Qed.

(** What holds at a stage of the branch of a proposal. *)
Definition stage_ok (m : Message.t) at_ s1 s : Prop :=
  match at_ with
  | AskVoter => True
  | AskLeader => found_voter s1 s
  | AskId => found_leader s1 s
  | StepProp msg => exists i, msg = m <| Message.from := i |> /\ found_id i s1 s
  | Notify res => judged m res s1 s
  end.
Lemma stage_steps m at_ s1 s s' : steps s s' -> stage_ok m at_ s1 s -> stage_ok m at_ s1 s'.
Proof.
  intros Hs. destruct at_; simpl; [done|by apply since_steps..| |by apply judged_steps].
  intros (i & ? & ?). exists i. split; [done|]. by eapply since_steps.
Qed.
Lemma stage_done_ok m pm at_ s1 s s' at' : steps s1 s -> steps s s' -> stage_done pm at_ s s' -> phase s' = Proposing pm at' ->
  MsgWithResult.m pm = Some m -> stage_ok m at_ s1 s -> stage_ok m at' s1 s'.
Proof.
  intros H1s Hs E Hp Hm Hok. destruct at_ as [| | |msg|res]; simpl in *.
  - subst s'. injection Hp as <-. eapply stage_steps; [done|]. rewrite is_voter_spec. destruct (voter s) eqn:Ev; simpl.
    + by apply since_now.
    + left. split; [done|]. by apply since_now.
  - subst s'. injection Hp as <-. eapply stage_steps; [done|]. unfold Raft.has_leader.
    destruct (Z.eqb_spec (RaftCore.leader_id (Raft.r (raft_of s))) NONE) as [El|El]; simpl.
    + right. left. split; [done|]. by apply since_now.
    + by apply since_now.
  - destruct E as (m' & Hm' & ->). injection Hp as <-. eapply stage_steps; [done|]. simpl.
    eexists. split; [by simplify_eq|]. by apply since_now.
  - destruct E as (res & w & E & ->). injection Hp as <-. eapply stage_steps; [done|]. destruct Hok as (i & -> & Hi).
    right. right. apply since_now; eauto.
  - by subst s'.
Qed.

(** From [s0] on, every proposal that waits, that the loop works on or that was answered was sent by its
    call. *)
Context (s0 : InnerNode.t T).
Definition traced (call : nat) s (P : Message.t -> InnerNode.t T -> Prop) : Prop :=
  exists m s1, steps s0 s1 /\ steps s1 s /\ sends call m s1 /\ P m s1.
Record trace_inv s : Prop := {
  t_start : steps s0 s;
  t_queue pm call : pm ∈ contents (prop_c s) -> MsgWithResult.ch pm = Some call ->
    traced call s (fun m _ => MsgWithResult.m pm = Some m);
  t_hand pm at_ call : phase s = Proposing pm at_ -> MsgWithResult.ch pm = Some call ->
    traced call s (fun m s1 => MsgWithResult.m pm = Some m /\ stage_ok m at_ s1 s);
  t_answer call res : (call, res) ∈ notified s -> traced call s (fun m s1 => judged m res s1 s)
}.

Lemma traced_steps call s s' (P Q : Message.t -> InnerNode.t T -> Prop) : steps s s' -> traced call s P ->
  (forall m s1, steps s1 s -> P m s1 -> Q m s1) -> traced call s' Q.
Proof.
  intros Hs (m & s1 & H01 & Hrest & Hm & HP) HPQ. exists m, s1. split_and!; [done|by etrans|done|by apply HPQ].
Qed.

(** A step after which fewer proposals wait, and no answer is new. *)
Lemma trace_less s s' : trace_inv s -> node_step fuel s s' -> (forall pm, pm ∈ contents (prop_c s') -> pm ∈ contents (prop_c s)) ->
  notified s' = notified s -> phase s' = phase s \/ free (phase s') -> trace_inv s'.
Proof.
  intros [Hst Hq Hh Ha] Hs%rtc_once Hp Hn Hph. split.
  - by etrans.
  - intros pm call Hin Hch. eapply traced_steps; [done|eapply Hq; eauto|done].
  - intros pm at_ call Hp' Hch. destruct Hph as [Heq|Hf]; [|by rewrite Hp' in Hf]. rewrite Heq in Hp'.
    eapply traced_steps; [done|by eapply Hh|]. intros m s1 _ [? ?]. split; [done|by eapply stage_steps].
  - rewrite Hn. intros call res Hin. eapply traced_steps; [done|by apply Ha|]. intros m s1 _ Hj. by eapply judged_steps.
Qed.

Lemma run_step_trace s s' : run_step fuel s s' -> trace_inv s -> trace_inv s'.
Proof.
  intros Hstep Hs. assert (node_step fuel s s') as Hn by by left. pose proof (rtc_once _ _ Hn) as Hss'.
  apply run_step_cases in Hstep as [((Hp & Hno & _) & Hf & Hf')|[(pm & c & Hf & Hpop & ->)|(pm & at_ & Hp & E)]].
  - apply (trace_less s); [done|done|by rewrite Hp|done|by right].
  - pose proof (pop_contents _ (prop_c s)) as Hcont. rewrite Hpop in Hcont. destruct Hs as [Hst Hq Hh Ha]. split; fields.
    + by etrans.
    + intros pm' call Hin Hch. eapply traced_steps; [done|eapply Hq; [rewrite Hcont; by right|done]|done].
    + intros pm' at' call [= <- <-] Hch. eapply traced_steps; [done|eapply Hq; [rewrite Hcont; by left|done]|done].
    + intros call res Hin. eapply traced_steps; [done|by apply Ha|]. intros m s1 _ Hj. by eapply judged_steps.
  - destruct Hs as [Hst Hq Hh Ha].
    destruct (stage_done_frame _ _ _ _ E) as (Hc & Hpm & Hno).
    split.
    + by etrans.
    + rewrite Hc. intros pm' call Hin Hch. eapply traced_steps; [done|by eapply Hq|done].
    + intros pm' at' call Hp' Hch. pose proof (Hpm _ _ Hp') as ->. eapply traced_steps; [done|by eapply Hh|].
      intros m s1 Hrest [Hm Hok]. split; [done|by eapply stage_done_ok].
    + intros call res [Hold|[-> Hch]]%Hno.
      * eapply traced_steps; [done|by apply Ha|]. intros m s1 _ Hj. by eapply judged_steps.
      * eapply traced_steps; [done|by eapply Hh|]. intros m s1 _ [_ Hok]. by eapply judged_steps.
Qed.

Lemma client_step_trace s s' : client_step s s' -> trace_inv s -> trace_inv s'.
Proof.
  intros Hstep Hs. assert (node_step fuel s s') as Hn by by right. pose proof (rtc_once _ _ Hn) as Hss'.
  destruct Hstep as [ |call m wait s' Hc E| | | |s' E| | | | | | | ]; try (by (eapply trace_less; eauto)).
  - unfold step_wait_option in E. case_bool_decide as Hm; simpl in E.
    2: { destruct (push m _); [|done]. injection E as <-. by (eapply trace_less; eauto). }
    destruct (push _ (prop_c s)) as [q|] eqn:Ep; [|done]. injection E as <-. apply push_contents in Ep.
    destruct Hs as [Hst Hq Hh Ha]. split; fields.
    + by etrans.
    + intros pm call'. rewrite Ep. intros [Hin|Hin]%elem_of_app Hch.
      * eapply traced_steps; [done|by eapply Hq|done].
      * apply list_elem_of_singleton in Hin as ->. destruct wait; [|done]. injection Hch as <-. by exists m, s.
    + intros pm at_ call' Hp Hch. eapply traced_steps; [done|by eapply Hh|]. intros m' s1 _ [? ?]. split; [done|by eapply stage_steps].
    + intros call' res Hin. eapply traced_steps; [done|by apply Ha|]. intros m' s1 _ Hj. by eapply judged_steps.
  - pose proof E as E'. unfold runs, tick in E. apply bind_inv in E as (b & s1 & E & [_ <-]%ret_inv). apply zoom_inv in E as (w & _ & ->).
    by (eapply trace_less; eauto).
Qed.

Lemma node_steps_trace s s' : steps s s' -> trace_inv s -> trace_inv s'.
Proof.
  induction 1 as [|s s1 s' [Hs|Hs] _ IH]; intros Hi; [done|..]; apply IH; [by eapply run_step_trace|by eapply client_step_trace].
Qed.
Lemma start_node_trace d config store peers : start_node d config store peers = Ret s0 -> trace_inv s0.
Proof.
  intros [w Ew]%start_node_new. split; [apply rtc_refl|..]; rewrite Ew; unfold new; simpl.
  - intros pm call. by rewrite bounded_empty, elem_of_nil.
  - done.
  - by intros call res ?%elem_of_nil.
Qed.
End verdicts.

(** C28 — Proposals are answered at most once, truthfully, and none is lost: along every interleaving of
    the loop (which takes the lock of the raw node anew for each question), the calls and the ticks, no
    call gets two answers; the proposal of a call that waits is in the channel, in the hands of the loop
    or answered; and an answer is the verdict on the message that the call sent, after it sent it: that
    the node was not a voter, or that after it was found to be one it knew no leader, or, after both
    were found, what [RawNode::step] said of the message, sent in the name of the node.  What was found
    need not hold any more when the next question is asked. *)
Theorem proposals_answered_once (fuel d : nat) (config : Config.t) (store : T) (peers : list Peer.t) (s0 s : InnerNode.t T)
    (Hstart : start_node d config store peers = Ret s0) (Hrun : rtc (node_step fuel) s0 s) :
  NoDup (notified s).*1 /\
  (forall call, calls s !! call = Some Awaiting ->
    (exists pm, MsgWithResult.ch pm = Some call /\ (pm ∈ contents (prop_c s) \/ exists at_, phase s = Proposing pm at_)) \/
    exists res, (call, res) ∈ notified s) /\
  (forall call res, (call, res) ∈ notified s -> exists m s1,
    rtc (node_step fuel) s0 s1 /\ rtc (node_step fuel) s1 s /\ sends call m s1 /\ judged fuel m res s1 s).
Proof using All.
  pose proof (node_steps_answers _ _ _ Hrun (start_node_answers _ _ _ _ _ Hstart)) as Ha. split_and!.
  - pose proof (a_once _ Ha) as Hn. by apply NoDup_app in Hn as (_ & _ & (_ & _ & ?)%NoDup_app).
  - intros call [Hq|[Hh|Hn]%elem_of_app]%(a_kept _ Ha)%elem_of_app.
    + apply list_elem_of_omap in Hq as (pm & Hin & Hch). left. eauto.
    + left. destruct (phase s) as [| | | | |pm at_| |]; simpl in Hh; try by apply elem_of_nil in Hh.
      exists pm. destruct (MsgWithResult.ch pm) as [c|]; [|by apply elem_of_nil in Hh]. apply list_elem_of_singleton in Hh as ->. eauto.
    + right. apply list_elem_of_fmap in Hn as ([c res] & -> & Hin). eauto.
  - intros call res. apply (t_answer fuel s0 s). eapply node_steps_trace; [done|by eapply start_node_trace].
Qed.
End node.

(** ** A node that offers its first Ready and refuses a proposal *)
Section witnesses.
#[local] Existing Instance ten_bytes.
#[local] Existing Instance sorted_order.
Import InnerNode.

(** Queues with a capacity. *)
#[local] Instance fifo : AsyncChannel := {|
  chan A := (option Z * list A)%type;
  bounded A n := (Some n, []);
  unbounded A := (None, []);
  push A a c := match c.1 with
    | Some n => if len c.2 <? n then Some (c.1, c.2 ++ [a]) else None
    | None => Some (c.1, c.2 ++ [a])
    end;
  pop A c := match c.2 with [] => None | a :: l => Some (a, (c.1, l)) end
|}.
#[local] Instance fifo_laws : AsyncChannelLaws.
Proof.
  refine {| contents := fun A (c : chan A) => c.2 |}; try done.
  - intros A a [[n|] l] c' E; simpl in *; [destruct (_ <? _); [|done]|]; by injection E as <-.
  - by intros A [c [|a l]].
Defined.

Definition queue {A} (cap : option Z) (l : list A) : chan A := (cap, l).
Abbreviation ANode := (InnerNode.t MemStorage.t).
Definition peer1 : Peer.t := Peer.mk 1 (Some []).
Definition idle_node : ANode := new (RawNode.mk idle RaftCore.SoftState.default HardState.default 0 [] 0).
Definition node_started : ANode := match start_node 0 (config 1) MemStorage.new [peer1] with Ret s => s | _ => idle_node end.
Definition next (m : Prog ANode unit) (s : ANode) : ANode := match m s with Ret (_, s') => s' | _ => s end.

(** Waiting, asked for the status, looking for work, with a Ready at hand, offered, accepted. *)
Definition node_idle := next check_ready node_started.
Definition node_asked := node_idle <| status_c := (queue None [7%nat]) |>.
Definition node_top := next (on_status 7) (node_asked <| status_c := (queue None []) |>).
Definition node_found := next check_ready node_top.
Definition node_at_hand := next (collect_ready 1) node_found.
Definition node_offered := next (offer_ready (queue None [ready node_at_hand])) node_at_hand.
Definition node_accepted := next accept_ready node_offered.

Lemma node_starts : start_node 0 (config 1) MemStorage.new [peer1] = Ret node_started.
Proof. by vm_compute. Qed.
Lemma node_waits : node_step 1 node_started node_idle.
Proof. left. apply run_check; by vm_compute. Qed.
Lemma node_is_asked : node_step 1 node_idle node_asked.
Proof. right. by apply (client_status _ 7%nat); vm_compute. Qed.
Lemma node_tells : node_step 1 node_asked node_top.
Proof. left. by apply (run_status _ _ 7%nat (queue None [])); vm_compute. Qed.
Lemma node_finds : node_step 1 node_top node_found.
Proof. left. apply run_check; by vm_compute. Qed.
Lemma node_collects : node_step 1 node_found node_at_hand.
Proof. left. apply run_collect; by vm_compute. Qed.
Lemma node_offers : node_step 1 node_at_hand node_offered.
Proof. left. by apply (run_offer _ _ (queue None [ready node_at_hand])); vm_compute. Qed.
Lemma node_accepts : node_step 1 node_offered node_accepted.
Proof. left. apply run_accept; by vm_compute. Qed.

Lemma node_runs : rtc (node_step 1) node_started node_accepted.
Proof.
  eapply rtc_l; [exact node_waits|]. eapply rtc_l; [exact node_is_asked|]. eapply rtc_l; [exact node_tells|].
  eapply rtc_l; [exact node_finds|]. eapply rtc_l; [exact node_collects|]. eapply rtc_l; [exact node_offers|].
  apply rtc_once. exact node_accepts.
Qed.

Lemma node_hands_out_one_ready_witness : wait_advance node_accepted = true /\
  on_advance (node_accepted <| advance_c := (queue None []) |>) = Panic.
Proof.
  split; [by vm_compute|].
  destruct (node_hands_out_one_ready 1 0 (config 1) MemStorage.new [peer1] node_started node_accepted) as (Hp & _);
    [exact node_starts|exact node_runs|exact (Hp (queue None []))].
Defined.

(** A heartbeat of the leader 2 arrives once the Ready is out: a leader is known. *)
Definition heartbeat : Message.t :=
  Message.default <| Message.msg_type := MsgHeartbeat |> <| Message.from := 2 |> <| Message.to := 1 |> <| Message.term := 2 |>.
Definition node_beats := node_accepted <| calls := {[0%nat := step heartbeat]} |>.
Definition node_beaten := node_beats <| recv_c := (queue (Some 1) [heartbeat]) |> <| calls := {[0%nat := Returned (Ok tt)]} |>.
Definition node_follows := next check_ready (next (on_recv heartbeat) (node_beaten <| recv_c := (queue (Some 1) []) |>)).

(** A proposal, taken while another task ticks the node between two questions of the loop. *)
Definition proposal := MsgWithResult.new_with_channel 1 (propose_msg []).
Definition asks (at_ : PropStage) (s : ANode) : ANode := s <| phase := Proposing proposal at_ |>.
Definition node_calls (s : ANode) := s <| calls := <[1%nat := propose []]> (calls s) |>.
Definition node_proposes (s : ANode) := (node_calls s) <| prop_c := (queue (Some 1) [proposal]) |> <| calls := <[1%nat := Awaiting]> (calls (node_calls s)) |>.
Definition node_taken (s : ANode) := asks AskVoter ((node_proposes s) <| prop_c := (queue (Some 1) []) |>).
Definition node_ticked (s : ANode) := next tick (next (on_prop proposal AskVoter) (node_taken s)).
Definition node_refuses := next (on_prop proposal (Notify (Err NoLeader))) (next (on_prop proposal AskLeader) (node_ticked node_idle)).
Definition node_stepped := next (on_prop proposal AskId) (next (on_prop proposal AskLeader) (node_ticked node_follows)).
Definition to_step : Message.t := (propose_msg []) <| Message.from := 1 |>.
Definition node_accepts_it := next (on_prop proposal (Notify (Ok tt))) (next (on_prop proposal (StepProp to_step)) node_stepped).

Lemma node_asks s : phase s = Selecting -> prop_c s = queue (Some 1) [] -> calls s !! 1%nat = None ->
  (if (on_prop proposal AskVoter;; tick) (node_taken s) is Ret _ then True else False) -> rtc (node_step 1) s (node_ticked s).
Proof.
  intros Hp Hc Hn Hr. destruct ((on_prop proposal AskVoter;; tick) (node_taken s)) as [[[] s'']| |] eqn:E; [clear Hr|done..].
  apply bind_inv in E as ([] & s' & E1 & E2).
  apply (rtc_l _ _ (node_calls s)); [right; by apply (client_call s 1%nat (propose []))|].
  apply (rtc_l _ _ (node_proposes s)).
  { right. apply (client_send _ 1%nat (propose_msg []) true _); [apply lookup_insert_eq|].
    unfold step_wait_option. simpl. by rewrite Hc. }
  apply (rtc_l _ _ (node_taken s)); [left; by apply (run_prop _ _ proposal (queue (Some 1) []))|].
  apply (rtc_l _ _ s'); [left; by apply (run_prop_on _ _ proposal AskVoter)|].
  apply rtc_once. right. apply client_tick. unfold node_ticked, next. rewrite E1. unfold runs. by rewrite E2.
Qed.

Lemma node_refusal : rtc (node_step 1) node_started node_refuses.
Proof.
  eapply rtc_l; [exact node_waits|]. etrans; [apply node_asks; by vm_compute|].
  eapply rtc_l; [left; eapply (run_prop_on _ _ proposal AskLeader); by vm_compute|].
  apply rtc_once. left. eapply (run_prop_on _ _ proposal (Notify (Err NoLeader))); by vm_compute.
Qed.

Lemma node_acceptance : rtc (node_step 1) node_started node_accepts_it.
Proof.
  etrans; [exact node_runs|].
  eapply rtc_l; [right; by apply (client_call node_accepted 0%nat (step heartbeat))|].
  eapply rtc_l; [right; by apply (client_send _ 0%nat heartbeat false); vm_compute|].
  eapply rtc_l; [left; by apply (run_recv _ node_beaten heartbeat (queue (Some 1) [])); vm_compute|].
  eapply rtc_l; [left; apply run_check; by vm_compute|].
  etrans; [apply (node_asks node_follows); by vm_compute|].
  eapply rtc_l; [left; eapply (run_prop_on _ _ proposal AskLeader); by vm_compute|].
  eapply rtc_l; [left; eapply (run_prop_on _ _ proposal AskId); by vm_compute|].
  eapply rtc_l; [left; eapply (run_prop_on _ _ proposal (StepProp to_step)); by vm_compute|].
  apply rtc_once. left. eapply (run_prop_on _ _ proposal (Notify (Ok tt))); by vm_compute.
Qed.

Lemma proposals_answered_once_witness :
  (notified node_refuses = [(1%nat, Err NoLeader)] /\ exists m s1, sends 1 m s1 /\ judged 1 m (Err NoLeader) s1 node_refuses) /\
  (notified node_accepts_it = [(1%nat, Ok tt)] /\ exists m s1, sends 1 m s1 /\ judged 1 m (Ok tt) s1 node_accepts_it).
Proof.
  split; (split; [by vm_compute|]).
  - destruct (proposals_answered_once 1 0 (config 1) MemStorage.new [peer1] node_started node_refuses node_starts node_refusal) as (_ & _ & Ha).
    destruct (Ha 1%nat (Err NoLeader)) as (m & s1 & _ & _ & Hm & Hj); [vm_compute; left|]. exists m, s1. by split.
  - destruct (proposals_answered_once 1 0 (config 1) MemStorage.new [peer1] node_started node_accepts_it node_starts node_acceptance) as (_ & _ & Ha).
    destruct (Ha 1%nat (Ok tt)) as (m & s1 & _ & _ & Hm & Hj); [vm_compute; left|]. exists m, s1. by split.
Defined.
End witnesses.
