(* ===== verification/RaftEnds.v ===== *)
(** * Every message is handled in finite time

    The loops of the model that take fuel never run out of it. *)

From S2P Require Import Prelude Proto Errors Util Inflights Progress Quorum Tracker ConfChange.
From S2P Require Import Log Unstable Storage RaftLog ReadOnly Config RaftCore Raft RaftFrame RaftExample.

(** Anything keeps the trivial invariant. *)
Lemma trivial_keeps {S A} (m : Prog S A) : pres (keeps (fun _ => True)) m.
Proof. by intros ? ? ? ? ?. Qed.
#[export] Hint Resolve trivial_keeps : frame.
#[export] Hint Extern 1 (keeps (fun _ => True) _ _) => exact (fun _ => Logic.I) : frame.

(** A single call, where the state matters. *)
Lemma bind_ends {S A B} (m : Prog S A) (k : A -> Prog S B) s :
  m s <> OutOfFuel -> (forall a s1, m s = Ret (a, s1) -> k a s1 <> OutOfFuel) -> (m ≫= k) s <> OutOfFuel.
Proof. intros Hm Hk. unfold mbind, prog_bind. destruct (m s) as [[]| |]; try done. by apply Hk. Qed.

(** What is asked of the state is known of the answer. *)
Lemma ends_bind_asks {S A B} (I : S -> Prop) (f : S -> outcome A) (k : A -> Prog S B) :
  (forall s, I s -> f s <> OutOfFuel) -> (forall a, (exists s, I s /\ f s = Ret a) -> ends I (k a)) -> ends I (asks f ≫= k).
Proof.
  intros Hf Hk s Hs. unfold asks, mbind, prog_bind. specialize (Hf s Hs). destruct (f s) eqn:E; try done.
  by apply Hk; [eexists|].
Qed.

(** ** The window of in-flight messages *)
Section inflights.
Import Inflights.

Lemma free_scan_ends fuel self to i idx : count self <= i + Z.of_nat fuel -> free_scan fuel self to i idx <> OutOfFuel.
Proof.
  revert i idx. induction fuel as [|fuel IH]; intros i idx Hf; simpl; destruct (Z.ltb_spec i (count self)); try done; [lia|].
  destruct (index _ _); [|done]. destruct (_ <? _); [done|]. apply IH. lia.
Qed.

Lemma free_to_ends I to : ends I (free_to to).
Proof.
  intros s _. unfold free_to. prog_unfold. destruct (count s =? 0); [done|]. destruct (index _ _); [|done].
  destruct (_ <? _); [done|].
  pose proof (free_scan_ends (Z.to_nat (count s)) s to 0 (start s) ltac:(lia)) as He.
  destruct (free_scan _ _ _ _ _) as [[]| |]; try done. destruct (_ =? _); [|done]. by destruct (incoming_cap _).
Qed.

Lemma free_first_one_ends I : ends I free_first_one.
Proof.
  intros s _. unfold free_first_one. prog_unfold. destruct (0 <? count s); [|done]. destruct (index _ _); [|done].
  by apply (free_to_ends (fun _ => True)).
Qed.

Lemma add_ends I x : ends I (add x).
Proof.
  intros s _. unfold add, add_next. prog_unfold. destruct (full s); [done|]. by repeat case_match.
Qed.
End inflights.
#[export] Hint Resolve free_to_ends free_first_one_ends add_ends ends_modify : ends.

(** ** The log *)
Section log.
Context {T : Type} `{StorageLaws T} `{Codec}.
Import RaftLog.
Implicit Types l : RaftLog.t T.

Lemma first_index_ends l : log_ok l -> first_index l <> OutOfFuel.
Proof. intros Hok. by rewrite first_index_run. Qed.
Lemma last_index_ends l : log_ok l -> last_index l <> OutOfFuel.
Proof. intros Hok. by rewrite last_index_run. Qed.

Lemma term_total l i : log_ok l -> exists x, term l i = Ret x /\ (i < 0 -> x = Ok 0).
Proof.
  intros Hok. destruct (Z.lt_ge_cases i 0) as [Hi|Hi].
  - unfold term. rewrite first_index_run by done. pose proof (view_bounds _ Hok). pose proof (last_base (view l)). cbn [mbind outcome_bind].
    rewrite u64_sub_small by u64_lia. rewrite (proj2 (Z.ltb_lt _ _)) by lia. by eexists.
  - rewrite term_run by done. eexists. split; [reflexivity|lia].
Qed.
Lemma term_ends l i : log_ok l -> term l i <> OutOfFuel.
Proof. intros Hok. by destruct (term_total l i Hok) as (x & -> & _). Qed.
Lemma match_term_ends l i t : log_ok l -> match_term l i t <> OutOfFuel.
Proof. intros Hok. unfold match_term. by destruct (term_total l i Hok) as (x & -> & _). Qed.
Lemma find_conflict_ends l es : log_ok l -> find_conflict l es <> OutOfFuel.
Proof.
  intros Hok. induction es as [|e es IH]; [done|]. cbn [find_conflict]. apply outcome_ends_bind; [by apply match_term_ends|].
  intros b _. by destruct (negb b).
Qed.

(** Below position 0 the index wraps around, to where the log has no terms. *)
Lemma conflict_loop_ends fuel l i t : log_ok l -> 0 <= i < u64_MAX -> 0 <= t -> i + 2 <= Z.of_nat fuel ->
  conflict_loop fuel l i t <> OutOfFuel.
Proof.
  intros Hok. revert i. induction fuel as [|fuel IH]; intros i Hi Ht Hf; [lia|]. cbn [conflict_loop].
  destruct (term_total l i Hok) as (x & -> & _). cbn [mbind outcome_bind]. destruct x as [ti|]; [|done].
  destruct (t <? ti); [|done]. destruct (decide (i = 0)) as [->|].
  - destruct fuel as [|fuel]; [lia|]. cbn [conflict_loop]. rewrite term_run by (done || vm_compute; done).
    pose proof (view_bounds _ Hok). unfold lterm. rewrite (proj2 (Z.leb_gt (0 -w 1) _)) by (change (0 -w 1) with u64_MAX; lia).
    rewrite andb_false_r. cbn [mbind outcome_bind]. rewrite (proj2 (Z.ltb_ge _ _)) by lia. done.
  - apply IH; [|done|]; rewrite u64_sub_small by u64_lia; lia.
Qed.

Lemma find_conflict_by_term_ends l i t : log_ok l -> 0 <= i -> 0 <= t ->
  find_conflict_by_term (Raft.conflict_fuel i) l i t <> OutOfFuel.
Proof.
  intros Hok Hi Ht. unfold find_conflict_by_term. rewrite last_index_run by done. cbn [mbind outcome_bind].
  destruct (Z.ltb_spec (ALog.last (view l)) i); [done|]. pose proof (view_bounds _ Hok).
  apply conflict_loop_ends; [done|lia|done|]. unfold Raft.conflict_fuel. lia.
Qed.

Lemma is_up_to_date_ends l i t : log_ok l -> is_up_to_date l i t <> OutOfFuel.
Proof.
  intros Hok. unfold is_up_to_date, last_term. rewrite !last_index_run by done. cbn [mbind outcome_bind].
  destruct (term_total l (ALog.last (view l)) Hok) as (x & -> & _). cbn [mbind outcome_bind].
  destruct x; [|done]. simpl. by destruct (_ <? _).
Qed.
Lemma last_term_ends l : log_ok l -> last_term l <> OutOfFuel.
Proof.
  intros Hok. unfold last_term. rewrite !last_index_run by done. cbn [mbind outcome_bind].
  destruct (term_total l (ALog.last (view l)) Hok) as (x & -> & _). by destruct x.
Qed.
Lemma commit_info_ends l : log_ok l -> commit_info l <> OutOfFuel.
Proof.
  intros Hok. unfold commit_info. destruct (term_total l (committed l) Hok) as (x & -> & _). by destruct x.
Qed.
End log.
#[export] Hint Resolve first_index_ends last_index_ends term_ends match_term_ends find_conflict_ends
  find_conflict_by_term_ends is_up_to_date_ends last_term_ends commit_info_ends : ends.

Section log_programs.
Context {T : Type} `{StorageLaws T} `{Codec}.
Import RaftLog.
Implicit Types l : RaftLog.t T.

Lemma reads_keeps {A} (m : Prog (RaftLog.t T) A) : pres reads m -> pres (keeps log_ok) m.
Proof. apply pres_mono. intros l l' Hr Hok. eapply same_log_ok; [done|by apply Hr]. Qed.
Lemma log_run_keeps {A} (m : Prog (RaftLog.t T) A) : pres log_run m -> pres (keeps log_ok) m.
Proof. apply pres_mono. intros l l' Hr Hok. by apply Hr. Qed.

(** Some operations only need the storage. *)
Definition stored l : Prop := storage_ok (store l).
Lemma log_ok_stored l : log_ok l -> stored l.
Proof. apply lo_store. Qed.

Lemma last_index_stored l : stored l -> last_index l <> OutOfFuel.
Proof.
  intros Hs. unfold last_index. destruct (Unstable.maybe_last_index _); [done|]. by rewrite last_index_law.
Qed.
Hint Resolve last_index_stored : ends.
Hint Extern 1 (keeps stored _ _) => by intros ? : frame.

Lemma slice_ends low high max ctx : ends log_ok (slice (T:=T) low high max ctx).
Proof.
  intros l Hok. destruct (Z.lt_ge_cases high low) as [Hlt|Hle].
  { unfold slice, must_check_outofbounds, asks. unfold mbind at 1, prog_bind. by rewrite (proj2 (Z.ltb_lt _ _) Hlt). }
  pose proof (must_check_run l low high Hok Hle) as Hc.
  destruct (Z.leb_spec low (ALog.base (view l))); [|destruct (Z.ltb_spec (ALog.last (view l) + 1) high)].
  - unfold slice. by erewrite bind_run by (by apply asks_run).
  - unfold slice, asks. unfold mbind at 1, prog_bind. by rewrite Hc.
  - by destruct (slice_run l low high max ctx Hok) as (r' & rl1 & -> & _); [lia..|].
Qed.

Lemma entries_ends idx max ctx : ends log_ok (entries (T:=T) idx max ctx).
Proof. unfold entries. apply ends_bind; [ends|frame|]. intros a. destruct (_ <? _); [done|]. apply slice_ends. Qed.

Lemma snapshot_ends req to : ends log_ok (snapshot (T:=T) req to).
Proof.
  intros l Hok. unfold snapshot. prog_unfold.
  assert (forall x : outcome (Result Snapshot.t * T), st_snapshot req to (store l) = x -> x <> OutOfFuel) as Hs.
  { intros x <-. by destruct (snapshot_law (store l) req to (lo_store _ Hok)) as (r & s' & -> & _). }
  specialize (Hs _ eq_refl). destruct (Unstable.snapshot _); [destruct (_ <=? _); [done|]|]; by destruct (st_snapshot _ _ _) as [[]| |].
Qed.

Lemma commit_to_keeps i : pres (keeps stored) (commit_to (T:=T) i).
Proof. unfold commit_to. frame. Qed.
Lemma commit_to_ends i : ends stored (commit_to (T:=T) i).
Proof. unfold commit_to. ends. Qed.

Lemma truncate_and_append_ends I es : ends I (Unstable.truncate_and_append es).
Proof. intros u _. unfold Unstable.truncate_and_append, Unstable.must_check_outofbounds. prog_unfold. by repeat case_match. Qed.

Lemma append_keeps es : pres (keeps stored) (append (T:=T) es).
Proof. unfold append. frame. eapply (pres_zoom _ (fun _ _ => True)); [done|]. by intros ??? ?. Qed.
Lemma append_ends es : ends stored (append (T:=T) es).
Proof.
  unfold append. destruct (head es); [|ends]. apply ends_bind_get. intros a Ha. destruct (_ <? _); [done|].
  apply ends_bind; [|eapply (pres_zoom _ (fun _ _ => True)); [done|by intros ??? ?]|intros ?; ends].
  eapply (ends_zoom _ (fun _ => True)); [apply truncate_and_append_ends|done].
Qed.
Hint Resolve commit_to_ends append_ends : ends.
Hint Resolve append_keeps commit_to_keeps : frame.

Lemma log_commit_to_ends i : ends log_ok (commit_to (T:=T) i).
Proof. apply (ends_weaken _ stored); [apply log_ok_stored|apply commit_to_ends]. Qed.
Lemma log_append_ends es : ends log_ok (append (T:=T) es).
Proof. apply (ends_weaken _ stored); [apply log_ok_stored|apply append_ends]. Qed.

Lemma maybe_append_ends idx t ca es : ends log_ok (maybe_append (T:=T) idx t ca es).
Proof.
  unfold maybe_append. apply ends_bind; [ends|frame|]. intros []; [|done].
  apply ends_bind; [ends|frame|]. intros c. apply (ends_weaken _ stored); [apply log_ok_stored|]. ends.
Qed.

Lemma maybe_commit_ends i t : ends log_ok (maybe_commit (T:=T) i t).
Proof.
  unfold maybe_commit. apply ends_bind_get. intros a _. destruct (_ <=? _); [done|].
  apply ends_bind; [ends|frame|]. intros [x|]; [|done]. apply (ends_weaken _ stored); [apply log_ok_stored|].
  destruct (_ =? _); [|done]. ends.
Qed.

Lemma log_restore_ends I snap : ends I (RaftLog.restore (T:=T) snap).
Proof. intros l _. unfold RaftLog.restore. prog_unfold. by repeat case_match. Qed.
End log_programs.
#[export] Hint Resolve slice_ends entries_ends snapshot_ends maybe_append_ends maybe_commit_ends log_restore_ends
  log_commit_to_ends log_append_ends : ends.
#[export] Hint Resolve reads_keeps log_run_keeps | 2 : frame.

(** ** Sending *)
Section sending.
Context {T : Type} `{StorageLaws T} `{Codec}.
Import RaftCore.
Implicit Types s : Sender.t T.

Definition sender_ok s : Prop := log_ok (raft_log (Sender.core s)).

Lemma sends_keeps {A} (m : Prog (Sender.t T) A) : pres sends m -> pres (keeps sender_ok) m.
Proof.
  apply pres_mono. intros s s' (l & E & Hl) Hok. unfold sender_ok in *. rewrite E. fields.
  eapply same_log_ok; [exact Hok|by apply Hl].
Qed.
Hint Resolve sends_keeps | 2 : frame.
Hint Extern 1 (keeps sender_ok _ _) => by intros ? : frame.
Hint Resolve send_from_pres on_pr_pres sending_log_pres send_snapshot_pres try_batching_pres prepare_send_entries_pres : frame.

(** Whatever the message, the log is only read. *)
Lemma send_from_keeps m : pres (keeps sender_ok) (Sending.send_from (T:=T) m).
Proof.
  unfold Sending.send_from. intros s u s' (s0 & ? & [-> ->]%get_inv & E)%bind_inv. apply zoom_inv in E as (ms & _ & ->). by intros ?.
Qed.
Hint Resolve send_from_keeps | 1 : frame.

Lemma sending_send_ends I (c : RaftCore.t T) m : ends I (Sending.send c m).
Proof. intros l _. unfold Sending.send. prog_unfold. by repeat case_match. Qed.

Lemma send_from_ends m : ends sender_ok (Sending.send_from (T:=T) m).
Proof.
  unfold Sending.send_from. apply ends_bind_get. intros a _.
  eapply (ends_zoom _ (fun _ => True)); [apply sending_send_ends|done].
Qed.

Lemma sending_log_ends {A} (m : Prog (RaftLog.t T) A) : ends log_ok m -> ends sender_ok (Sending.on_log m).
Proof. intros Hm. eapply ends_zoom; [exact Hm|]. by intros s Hs. Qed.

Lemma sending_pr_ends {A} (m : Prog Progress.t A) : ends (fun _ => True) m -> ends sender_ok (Sending.on_pr (T:=T) m).
Proof. intros Hm. eapply ends_zoom; [exact Hm|done]. Qed.

Lemma update_state_ends I last : ends I (Progress.update_state last).
Proof.
  unfold Progress.update_state. intros p _. prog_unfold. destruct (Progress.state p); try done.
  pose proof (add_ends (fun _ => True) last (Progress.ins (Progress.optimistic_update last p)) Logic.I) as Ha.
  by destruct (Inflights.add _ _) as [[]| |].
Qed.
Hint Resolve send_from_ends sending_log_ends sending_pr_ends update_state_ends : ends.

Lemma send_snapshot_ends m to : ends sender_ok (Sending.send_snapshot (T:=T) m to).
Proof. unfold Sending.send_snapshot, Sending.prepare_send_snapshot. ends. Qed.
Lemma try_batching_ends to es : ends sender_ok (Sending.try_batching (T:=T) to es).
Proof. unfold Sending.try_batching. ends. Qed.
Lemma prepare_send_entries_ends m t es : ends sender_ok (Sending.prepare_send_entries (T:=T) m t es).
Proof. unfold Sending.prepare_send_entries. ends. Qed.
Hint Resolve send_snapshot_ends try_batching_ends prepare_send_entries_ends : ends.

Lemma maybe_send_append_ends to b : ends sender_ok (Sending.maybe_send_append (T:=T) to b).
Proof. unfold Sending.maybe_send_append. ends. Qed.
Hint Resolve maybe_send_append_ends : ends.
Hint Resolve maybe_send_append_pres : frame.

(** What [entries] yields ends at or after the position asked for. *)
Lemma entries_last (l l' : RaftLog.t T) idx max ctx es e : log_ok l ->
  RaftLog.entries idx max ctx l = Ret (Ok es, l') -> last es = Some e ->
  ALog.base (view l) < idx /\ idx <= Entry.index e <= ALog.last (view l).
Proof.
  intros Hok E He. destruct (entries_prefix _ _ _ _ _ _ Hok E) as (Hi & k & Hk); [by intros ->|].
  pose proof (range_contiguous (view l) idx (ALog.last (view l) + 1) (view_ok _ Hok) ltac:(lia) ltac:(lia)) as Hc.
  assert (len (ALog.range (view l) idx (ALog.last (view l) + 1)) = ALog.last (view l) + 1 - idx) as Hlen
    by (apply range_length; lia).
  rewrite Hk in Hc, Hlen. apply contiguous_app in Hc as [Hc _]. rewrite (contiguous_last _ _ _ Hc He).
  rewrite len_app in Hlen. pose proof (len_nonneg k). destruct es; [done|]. rewrite len_cons in *. pose proof (len_nonneg es). lia.
Qed.

Lemma update_state_advances i p u p' : Progress.update_state i p = Ret (u, p') ->
  Progress.is_paused p' = true \/ Progress.next_idx p' = i +w 1.
Proof.
  unfold Progress.update_state. intros (s0 & ? & [-> ->]%get_inv & E)%bind_inv. destruct (Progress.state p) eqn:Es.
  - apply modify_inv in E as ->. left. unfold Progress.is_paused, Progress.pause. fields. by rewrite Es.
  - apply bind_inv in E as (u1 & p1 & ->%modify_inv & E). apply zoom_inv in E as (w & _ & ->). by right.
  - done.
Qed.

Lemma send_snapshot_pauses m to s s' : Sending.send_snapshot m to s = Ret (true, s') ->
  Progress.is_paused (Sender.pr s') = true.
Proof.
  unfold Sending.send_snapshot. intros ([m' b] & s1 & Ep & E)%bind_inv. destruct b; [|by apply ret_inv in E as [? _]].
  apply bind_inv in E as (u & s2 & Es & [_ <-]%ret_inv).
  assert (Sender.pr s2 = Sender.pr s1) as -> by (unfold Sending.send_from in Es; by prog_inv).
  unfold Sending.prepare_send_snapshot, Sending.on_pr, Sending.on_log in Ep. by prog_inv.
Qed.

(** After a message with entries: either the peer is paused or its next index is
    past what was sent. *)
Definition advanced (s' : Sender.t T) (i : Z) : Prop :=
  Progress.is_paused (Sender.pr s') = true \/ Progress.next_idx (Sender.pr s') = i +w 1.

Lemma try_batching_advances to es e s s' : last es = Some e ->
  Sending.try_batching to es s = Ret (true, s') -> advanced s' (Entry.index e).
Proof.
  intros He. unfold Sending.try_batching, Sending.on_pr. intros E. prog_inv.
  - match goal with Hl : last (_ ++ es) = Some _ |- _ => rewrite last_app, He in Hl; injection Hl as <- end.
    match goal with Hu : Progress.update_state _ _ = _ |- _ => by apply update_state_advances in Hu end.
  - match goal with Hn : negb (bool_decide (es = [])) = false |- _ =>
      apply negb_false_iff, bool_decide_eq_true in Hn end. by subst es.
Qed.

Lemma prepare_send_entries_advances m t es e s m' s' : last es = Some e ->
  Sending.prepare_send_entries m t es s = Ret (m', s') -> advanced s' (Entry.index e).
Proof.
  intros He. unfold Sending.prepare_send_entries, Sending.on_pr. rewrite He. intros E. prog_inv.
  match goal with Hu : Progress.update_state _ _ = _ |- _ => by apply update_state_advances in Hu end.
Qed.

Lemma maybe_send_append_advances to s s' : sender_ok s -> Sending.maybe_send_append to false s = Ret (true, s') ->
  Progress.is_paused (Sender.pr s) = false /\
  (Progress.is_paused (Sender.pr s') = true \/
   exists i, 0 <= i /\ Progress.next_idx (Sender.pr s) <= i <= ALog.last (view (raft_log (Sender.core s))) /\
     Progress.next_idx (Sender.pr s') = i +w 1).
Proof.
  intros Hok. unfold Sending.maybe_send_append. intros (s0 & ? & [-> ->]%get_inv & E)%bind_inv.
  destruct (Progress.is_paused (Sender.pr s)); [by apply ret_inv in E as [? _]|]. split; [done|]. cbv zeta in E.
  destruct (negb _); [left; by eapply send_snapshot_pauses|].
  apply bind_inv in E as (ents & s1 & Ee & E). apply zoom_inv in Ee as (l & Ee & ->).
  destruct ents as [es|e].
  2: { by apply ret_inv in E as [? _]. }
  destruct es as [|e0 es0]; [by apply ret_inv in E as [? _]|]. cbn [negb andb] in E.
  set (es := e0 :: es0) in *. assert (exists e, last es = Some e) as [e He].
  { destruct (last es) eqn:Hl; [eauto|]. by apply last_None in Hl. }
  pose proof (entries_last _ _ _ _ _ _ _ Hok Ee He) as Hi.
  apply bind_inv in E as (tr & s2 & [_ ->]%asks_inv & E). destruct tr as [t|]; [|left; by eapply send_snapshot_pauses].
  pose proof (view_bounds _ Hok). assert (advanced s' (Entry.index e)) as [?|?];
    [|by left|right; exists (Entry.index e); split_and!; [lia..|done]].
  apply bind_inv in E as (b & s2 & Eb & E). destruct b.
  - apply ret_inv in E as [_ <-]. destruct (batch_append _); [by eapply try_batching_advances|by apply ret_inv in Eb as [? _]].
  - apply bind_inv in E as (m & s3 & Ep & E). apply bind_inv in E as (u & s4 & Es & [_ <-]%ret_inv).
    apply (prepare_send_entries_advances _ _ _ _ _ _ _ He) in Ep. unfold advanced in *.
    assert (Sender.pr s4 = Sender.pr s3) as -> by (unfold Sending.send_from in Es; by prog_inv). exact Ep.
Qed.

(** The rounds that are left. *)
Definition rounds s : nat :=
  if Progress.is_paused (Sender.pr s) then 0
  else S (Z.to_nat (ALog.last (view (raft_log (Sender.core s))) + 1 - Progress.next_idx (Sender.pr s))).

Lemma send_append_loop_ends fuel to s : sender_ok s -> (rounds s < fuel)%nat -> Sending.send_append_loop fuel to s <> OutOfFuel.
Proof.
  revert s. induction fuel as [|fuel IH]; intros s Hok Hf; [lia|]. cbn [Sending.send_append_loop].
  unfold mbind, prog_bind. pose proof (maybe_send_append_ends to false s Hok) as He.
  destruct (Sending.maybe_send_append to false s) as [[[] s1]| |] eqn:E; try done.
  pose proof (maybe_send_append_pres _ _ _ _ _ E) as (l & Hc & Hl & _).
  apply IH; [unfold sender_ok; rewrite Hc; fields; eapply same_log_ok; [exact Hok|by apply Hl]|].
  destruct (maybe_send_append_advances to s s1 Hok E) as [Hp Hcase]. unfold rounds in Hf |- *. rewrite Hp in Hf.
  destruct (Progress.is_paused (Sender.pr s1)); [lia|]. destruct Hcase as [?|(i & Hi0 & Hi & ->)]; [done|].
  rewrite Hc. fields. rewrite (same_log_view _ _ (Hl Hok)). pose proof (view_bounds _ Hok).
  rewrite u64_add_small by u64_lia. lia.
Qed.

Lemma send_append_aggressively_ends to : ends sender_ok (Sending.send_append_aggressively (T:=T) to).
Proof.
  intros s Hok. unfold Sending.send_append_aggressively, mbind, prog_bind, get.
  apply send_append_loop_ends; [done|]. unfold Sending.send_fuel, rounds. rewrite last_index_run by done.
  destruct (Progress.is_paused _); lia.
Qed.

Lemma sending_append_ends to : ends sender_ok (Sending.send_append (T:=T) to).
Proof. unfold Sending.send_append. ends. Qed.
Lemma send_heartbeat_ends to ctx : ends sender_ok (Sending.send_heartbeat (T:=T) to ctx).
Proof. unfold Sending.send_heartbeat. ends. Qed.
End sending.
#[export] Hint Resolve maybe_send_append_ends send_append_aggressively_ends sending_append_ends send_heartbeat_ends : ends.

(** ** Progress, quorums, reads and configuration changes *)
Section small.
Context `{HashOrder} `{ConfigurationDebug} `{Codec}.

Lemma maybe_update_ends I n : ends I (Progress.maybe_update n).
Proof. intros p _. unfold Progress.maybe_update. prog_unfold. by repeat case_match. Qed.
Lemma maybe_decr_to_ends I i j k : ends I (Progress.maybe_decr_to i j k).
Proof. intros p _. unfold Progress.maybe_decr_to. prog_unfold. by repeat case_match. Qed.

Lemma majority_committed_index_ends c b l : Majority.committed_index c b l <> OutOfFuel.
Proof. unfold Majority.committed_index. by repeat case_match. Qed.
Lemma joint_committed_index_ends c b l : Joint.committed_index c b l <> OutOfFuel.
Proof.
  unfold Joint.committed_index.
  repeat (apply outcome_ends_bind; [apply majority_committed_index_ends|intros [] _]). done.
Qed.

Lemma position_ends p q ctx : ReadOnly.position p q ctx <> OutOfFuel.
Proof.
  induction q as [|x q IH]; [done|]. simpl. destruct (negb _); [done|]. destruct (bool_decide _); [done|].
  by apply outcome_ends_bind.
Qed.
Lemma pop_ends n : ends (fun _ => True) (ReadOnly.pop n).
Proof. induction n as [|n IH]; intros s _; [done|]. cbn [ReadOnly.pop]. prog_unfold.
  destruct (head _); [|done]. simpl. destruct (_ !! _); [|done]. simpl.
  match goal with |- context [ReadOnly.pop n ?a] => specialize (IH a Logic.I); by destruct (ReadOnly.pop n a) as [[]| |] end.
Qed.
Lemma advance_ends I ctx : ends I (ReadOnly.advance ctx).
Proof.
  intros s _. unfold ReadOnly.advance. prog_unfold. pose proof (position_ends (ReadOnly.pending_read_index s) (ReadOnly.read_index_queue s) ctx).
  destruct (ReadOnly.position _ _ _) as [[i|]| |]; try done. by apply pop_ends.
Qed.
Lemma recv_ack_ends I i ctx : ends I (ReadOnly.recv_ack i ctx).
Proof. intros s _. unfold ReadOnly.recv_ack. prog_unfold. by destruct (_ !! _). Qed.
Lemma add_request_ends I i m j : ends I (ReadOnly.add_request i m j).
Proof. intros s _. unfold ReadOnly.add_request. prog_unfold. by repeat case_match. Qed.

Lemma restore_simple_ends n ccs : ends (fun _ => True) (ConfChange.restore_simple n ccs).
Proof.
  induction ccs as [|cc ccs IH]; intros s _; [done|]. cbn [ConfChange.restore_simple]. unfold try_bind. prog_unfold.
  destruct (ConfChange.Changer.simple _ _) as [[]|]; [|done]. by apply IH.
Qed.
Lemma conf_restore_ends I n cs : ends I (ConfChange.restore n cs).
Proof.
  intros s _. unfold ConfChange.restore. destruct (ConfChange.to_conf_change_single cs) as [[|o os] inc]; [by apply restore_simple_ends|].
  unfold try_bind. prog_unfold. pose proof (restore_simple_ends n (o :: os) s Logic.I) as Hr.
  destruct (ConfChange.restore_simple _ _ _) as [[[|] ?]| |]; try done.
  by destruct (ConfChange.Changer.enter_joint _ _ _) as [[]|].
Qed.
End small.
#[export] Hint Resolve maybe_update_ends maybe_decr_to_ends joint_committed_index_ends advance_ends recv_ack_ends
  add_request_ends conf_restore_ends : ends.

(** ** The operations of a node *)
Section node.
Context {T : Type} `{StorageLaws T} `{Codec} `{HashOrder} `{ConfigurationDebug} `{Rng}.
Import RaftCore Raft.
Implicit Types s : Raft.t T.

Definition node_ok s : Prop := log_ok (raft_log (r s)).

Lemma evolve_keeps C {A} (m : Prog (Raft.t T) A) : pres (evolve C) m -> pres (keeps node_ok) m.
Proof. apply pres_mono. intros s s' Hev Hok. by apply (e_log _ _ _ Hev). Qed.
Lemma plain_keeps {A} (m : Prog (Raft.t T) A) : pres (evolve calm) m -> pres (keeps node_ok) m.
Proof. apply evolve_keeps. Qed.
Lemma send_keeps m : pres (keeps node_ok) (send (T:=T) m).
Proof. intros s u s' (m' & -> & _)%send_inv. by intros ?. Qed.
Lemma forward_to_leader_keeps m : pres (keeps node_ok) (forward_to_leader (T:=T) m).
Proof. intros s u s' (s0 & ? & [-> ->]%get_inv & E)%bind_inv. by eapply send_keeps. Qed.
Hint Resolve send_keeps forward_to_leader_keeps | 1 : frame.
Lemma quiet_keeps {A} (m : Prog (Raft.t T) A) : pres quiet m -> pres (keeps node_ok) m.
Proof. intros Hm. by apply plain_keeps, quiet_pres. Qed.
Lemma writes_keeps {A} (m : Prog (Raft.t T) A) : pres (evolve writes) m -> pres (keeps node_ok) m.
Proof. apply evolve_keeps. Qed.
Hint Resolve quiet_keeps plain_keeps | 2 : frame.
Hint Resolve writes_keeps | 3 : frame.
Hint Extern 1 (c_log _) => exact I : frame.
Hint Resolve on_log_pres on_log_writes maybe_commit_pres on_prs_pres post_conf_change_pres handle_append_response_pres
  handle_heartbeat_pres | 2 : frame.
Hint Extern 1 (keeps node_ok _ _) => by intros ? : frame.

Lemma on_progress_ends {A} i (m : Prog Progress.t A) : ends (fun _ => True) m -> ends node_ok (on_progress (T:=T) i m).
Proof. intros Hm. unfold on_progress. ends. eapply ends_zoom; [exact Hm|done]. Qed.
Lemma with_progress_ends {A} i (m : Prog (Sender.t T) A) : ends sender_ok m -> ends node_ok (with_progress i m).
Proof. intros Hm. unfold with_progress. ends. eapply ends_zoom; [exact Hm|]. by intros s Hs. Qed.
Lemma send_ends m : ends node_ok (send (T:=T) m).
Proof. unfold send. ends. eapply (ends_zoom _ (fun _ => True)); [apply sending_send_ends|done]. Qed.
Lemma on_log_ends {A} (m : Prog (RaftLog.t T) A) : ends log_ok m -> ends node_ok (on_log m).
Proof. intros Hm. eapply ends_zoom; [exact Hm|]. by intros s Hs. Qed.
Lemma ask_log_ends {A} (f : RaftLog.t T -> outcome A) : (forall l, log_ok l -> f l <> OutOfFuel) -> ends node_ok (ask_log f).
Proof. intros Hf. unfold ask_log. apply ends_asks. intros s Hs. by apply Hf. Qed.
Lemma on_read_only_ends {A} (m : Prog ReadOnly.t A) : ends (fun _ => True) m -> ends node_ok (on_read_only (T:=T) m).
Proof. intros Hm. eapply ends_zoom; [exact Hm|done]. Qed.
Lemma result_unwrap_ends {A E} (x : result A E) : result_unwrap x <> OutOfFuel.
Proof. by destruct x. Qed.
Hint Extern 2 (ends _ (on_progress _ _)) => apply on_progress_ends; solve [ends] : ends.
Hint Extern 2 (ends (fun _ => True) (zoom _ _ _)) => eapply (ends_zoom _ (fun _ => True)); [solve [ends]|done] : ends.
Hint Resolve with_progress_ends send_ends on_log_ends ask_log_ends on_read_only_ends result_unwrap_ends : ends.

Lemma send_append_ends to : ends node_ok (send_append (T:=T) to).
Proof. unfold send_append. ends. Qed.
Lemma aggressively_ends to : ends node_ok (send_append_aggressively (T:=T) to).
Proof. unfold send_append_aggressively. ends. Qed.
Hint Resolve send_append_ends aggressively_ends : ends.
Lemma bcast_append_ends : ends node_ok (bcast_append (T:=T)).
Proof. unfold bcast_append. ends. Qed.
Lemma bcast_heartbeat_with_ctx_ends ctx : ends node_ok (bcast_heartbeat_with_ctx (T:=T) ctx).
Proof. unfold bcast_heartbeat_with_ctx. ends. Qed.
Hint Resolve bcast_append_ends bcast_heartbeat_with_ctx_ends : ends.
Lemma bcast_heartbeat_ends : ends node_ok (bcast_heartbeat (T:=T)).
Proof. unfold bcast_heartbeat. ends. Qed.
Lemma send_request_snapshot_ends : ends node_ok (send_request_snapshot (T:=T)).
Proof. unfold send_request_snapshot. ends. Qed.
Lemma maybe_commit_ends' : ends node_ok (maybe_commit (T:=T)).
Proof.
  unfold maybe_commit. apply ends_bind; [apply ends_asks; intros; apply joint_committed_index_ends|frame|intros ?].
  apply ends_bind_get. intros ? _. ends.
Qed.
Lemma answer_read_ends req i : ends node_ok (answer_read (T:=T) req i).
Proof. unfold answer_read, handle_ready_read_index. ends. Qed.
Hint Resolve bcast_heartbeat_ends send_request_snapshot_ends maybe_commit_ends' answer_read_ends : ends.
Lemma answer_reads_if_quorum_ends from ctx : ends node_ok (answer_reads_if_quorum (T:=T) from ctx).
Proof. unfold answer_reads_if_quorum. ends. Qed.
Hint Resolve answer_reads_if_quorum_ends : ends.

Lemma handle_heartbeat_response_ends m : ends node_ok (handle_heartbeat_response (T:=T) m).
Proof.
  unfold handle_heartbeat_response. ends.
Qed.
Lemma handle_transfer_leader_ends m : ends node_ok (handle_transfer_leader (T:=T) m).
Proof. unfold handle_transfer_leader, send_timeout_now. ends. Qed.
Lemma handle_snapshot_status_ends m : ends node_ok (handle_snapshot_status (T:=T) m).
Proof. unfold handle_snapshot_status. ends. Qed.
Lemma handle_unreachable_ends m : ends node_ok (handle_unreachable (T:=T) m).
Proof. unfold handle_unreachable. ends. Qed.
Lemma check_quorum_active_ends : ends node_ok (check_quorum_active (T:=T)).
Proof. unfold check_quorum_active. ends. Qed.
Lemma handle_read_index_ends m : ends node_ok (handle_read_index (T:=T) m).
Proof.
  unfold handle_read_index. apply ends_bind_get. intros a Ha. apply ends_bind; [|solve [frame]|intros ?; ends].
  apply ends_lift. unfold commit_to_current_term, at_current_term. apply outcome_ends_bind; [by apply term_ends|done].
Qed.
Lemma propose_loop_ends i es : ends node_ok (propose_loop (T:=T) i es).
Proof. revert i. induction es; intros i; simpl; ends. Qed.
Lemma forward_to_leader_ends m : ends node_ok (forward_to_leader (T:=T) m).
Proof. unfold forward_to_leader. ends. Qed.
Lemma handle_heartbeat_ends m : ends node_ok (handle_heartbeat (T:=T) m).
Proof.
  unfold handle_heartbeat. ends.
Qed.
Hint Resolve handle_heartbeat_response_ends handle_transfer_leader_ends handle_snapshot_status_ends handle_unreachable_ends
  check_quorum_active_ends handle_read_index_ends propose_loop_ends forward_to_leader_ends handle_heartbeat_ends : ends.

(** Terms and positions of a message are words. *)
Record word_msg (m : Message.t) : Prop := {
  ww_log_term : 0 <= Message.log_term m;
  ww_reject_hint : 0 <= Message.reject_hint m
}.

Lemma handle_append_response_ends m : word_msg m -> ends node_ok (handle_append_response (T:=T) m).
Proof.
  intros []. unfold handle_append_response, send_timeout_now. ends.
Qed.

Lemma handle_append_entries_ends m : wf_msg m -> word_msg m -> Message.msg_type m = MsgAppend ->
  ends node_ok (handle_append_entries (T:=T) m).
Proof.
  intros Hm [] Ht. destruct (wm_entries _ Hm Ht) as (Hc & Hb & Hf & Ht'). pose proof (wm_index _ Hm).
  pose proof (maybe_append_pres _ _ (Message.commit m) _ ltac:(done) Hc Hb Hf Ht').
  assert (forall l i, log_ok l -> RaftLog.last_index l = Ret i -> 0 <= i) as Hlast.
  { intros l i Hok. rewrite last_index_run by done. intros [= <-]. pose proof (view_bounds _ Hok).
    pose proof (last_base (view l)). lia. }
  unfold handle_append_entries. apply ends_bind_get. intros a _. cbv zeta. destruct (negb _); [ends|]. destruct (_ <? _); [ends|].
  apply ends_bind; [ends|solve [frame]|]. intros res.
  apply ends_bind; [|solve [frame]|intros ?; ends]. destruct res as [[]|]; [done|].
  apply ends_bind_asks; [intros s Hs; by apply last_index_ends|]. intros i (s & Hs & Hi). specialize (Hlast _ _ Hs Hi).
  ends. apply ask_log_ends. intros l Hok. apply find_conflict_by_term_ends; [done|lia|done].
Qed.

Hint Resolve handle_append_response_ends handle_append_entries_ends : ends.

(** ** Changes of the role *)
Lemma reset_keeps t : pres (keeps node_ok) (reset (T:=T) t).
Proof. intros s u s' Hw%reset_inv Hok. unfold node_ok. by rewrite (wr_log _ _ _ Hw). Qed.
Lemma reset_ends t : ends node_ok (reset (T:=T) t).
Proof. unfold reset, reset_randomized_election_timeout, abort_leader_transfer, on_prs. ends. Qed.
Hint Resolve reset_keeps : frame.
Hint Resolve reset_ends : ends.

Lemma become_follower_keeps t l : pres (keeps node_ok) (become_follower (T:=T) t l).
Proof. unfold become_follower. frame. Qed.
Lemma become_follower_ends t l : ends node_ok (become_follower (T:=T) t l).
Proof. unfold become_follower. ends. Qed.
Lemma become_candidate_ends : ends node_ok (become_candidate (T:=T)).
Proof. unfold become_candidate. ends. Qed.
Lemma append_entry_ends es : ends node_ok (append_entry (T:=T) es).
Proof.
  unfold append_entry. apply ends_bind.
  - unfold maybe_increase_uncommitted_size. eapply (ends_zoom _ (fun _ => True)); [|done].
    unfold UncommittedState.maybe_increase_uncommitted_size. ends.
  - unfold maybe_increase_uncommitted_size. eapply (pres_zoom _ (fun _ _ => True)); [done|]. by intros s u _ Hs.
  - intros b. destruct (negb b); [ends|]. apply ends_bind; [ends|solve [frame]|intros li]. apply ends_bind_get. intros a _.
    intros s Hok. apply bind_ends; [|done]. by apply (on_log_ends _ (log_append_ends _)).
Qed.
Hint Resolve become_follower_keeps : frame.
Hint Resolve become_follower_ends append_entry_ends : ends.

Lemma become_leader_ends : ends node_ok (become_leader (T:=T)).
Proof.
  unfold become_leader. apply ends_bind_get. intros a _. repeat (apply ends_bind; [solve [ends]|solve [frame]|intros ?]).
  intros s Hok. apply bind_ends; [by apply append_entry_ends|]. intros b s1 _. by destruct b.
Qed.

Lemma campaign_tail_ends (b : bool) ty vt t : ends node_ok
  (if b then mret tt
   else
     c ← ask_log (T:=T) RaftLog.commit_info;
     let '(commit, commit_term) := c in
     self ← get;
     for_each (request_vote ty vt t commit commit_term)
       (Union.iter (Joint.ids (Configuration.voters (ProgressTracker.conf (prs self)))))).
Proof. ends. unfold request_vote. ends. Qed.

Lemma poll_with_ends c from t v s : state (r s) = Candidate \/ state (r s) = PreCandidate -> room 1 s ->
  (forall s1, state (r s) = PreCandidate -> term (r s1) = term (r s) -> room 1 s1 -> c CAMPAIGN_ELECTION s1 <> OutOfFuel) ->
  poll_with c from t v s <> OutOfFuel.
Proof.
  intros Hst Hroom Hc. unfold poll_with. apply bind_ends; [done|]. intros u s1 ->%modify_inv.
  apply bind_ends; [done|]. intros s1 s2 [-> ->]%get_inv. unfold ProgressTracker.tally_votes. cbv beta iota zeta.
  destruct (ProgressTracker.vote_result _ _); apply bind_ends; try done.
  - apply become_follower_ends. by destruct Hroom.
  - fields. case_bool_decide as Hs; [by apply Hc|]. apply bind_ends; [apply become_leader_ends; by destruct Hroom|].
    intros u1 s1 E. apply (become_leader_evolve anything) in E as [Hev _]; [|done|done|by destruct Hst|exact Hroom].
    apply bcast_append_ends, (e_log _ _ _ Hev). by destruct Hroom.
Qed.

Lemma campaign_election_ends fuel ty s : ty <> CAMPAIGN_PRE_ELECTION -> fresh s -> room 1 s ->
  campaign (S fuel) ty s <> OutOfFuel.
Proof.
  intros Hty [Hu Ht] Hroom. cbn [campaign]. rewrite bool_decide_eq_false_2 by done. apply bind_ends.
  { apply bind_ends; [by apply become_candidate_ends, Hroom|done]. }
  intros v s1 E1. apply bind_inv in E1 as (u1 & s1' & Eb & E1). apply bind_inv in E1 as (s1'' & ? & [-> ->]%get_inv & [<- <-]%ret_inv).
  apply (become_candidate_evolve anything) in Eb as (Hev & Hterm & Hst & Hlog & _); [|done..].
  assert (room 1 s1') as Hr1 by by eapply room_log.
  apply bind_ends; [done|]. intros s2 ? [-> ->]%get_inv. apply bind_ends; [apply poll_with_ends; [by left|done|congruence]|].
  intros res s3 Ep. apply campaign_tail_ends. apply poll_with_evolve in Ep as Hev3; [|by left|congruence|done|].
  - by apply (e_log _ _ _ Hev3), Hr1.
  - intros ?????. by apply campaign_election_evolve.
Qed.

Lemma campaign_ends ty s : fresh s -> room 1 s -> campaign campaign_fuel ty s <> OutOfFuel.
Proof.
  intros Hf Hroom. destruct (decide (ty = CAMPAIGN_PRE_ELECTION)) as [Hty|]; [|by apply campaign_election_ends].
  unfold campaign_fuel. cbn -[poll_with become_pre_candidate for_each]. rewrite bool_decide_eq_true_2 by done. apply bind_ends.
  { apply bind_ends; [|done]. unfold become_pre_candidate, on_prs. apply (ends_weaken node_ok (fun _ => True)); [done|ends|apply Hroom]. }
  intros v s1 E1. apply bind_inv in E1 as (u1 & s1' & Eb & E1). apply bind_inv in E1 as (s1'' & ? & [-> ->]%get_inv & [<- <-]%ret_inv).
  apply (become_pre_candidate_evolve anything) in Eb as (Hev & Hterm & Hst & Hlog & _).
  assert (room 1 s1') as Hr1 by by eapply room_log.
  assert (fresh s1') as Hf1 by (unfold fresh; by rewrite Hterm).
  apply bind_ends; [done|]. intros s2 ? [-> ->]%get_inv. apply bind_ends.
  { apply poll_with_ends; [by right|done|]. intros s4 _ Ht4 Hr4. apply (campaign_election_ends 0); [done|unfold fresh; by rewrite Ht4|done]. }
  intros res s3 Ep. apply campaign_tail_ends. apply poll_with_evolve in Ep as Hev3; [|by right|done..|].
  - by apply (e_log _ _ _ Hev3), Hr1.
  - intros ?????. by apply (campaign_election_evolve 1).
Qed.

Lemma poll_ends from ty v s : state (r s) = Candidate \/ state (r s) = PreCandidate -> (state (r s) = PreCandidate -> fresh s) -> room 1 s -> poll from ty v s <> OutOfFuel.
Proof.
  intros Hst Hf Hroom. apply poll_with_ends; [done..|]. intros s1 Hs Ht Hr. apply campaign_ends; [|done].
  unfold fresh. rewrite Ht. by apply Hf.
Qed.

Lemma hup_ends b s : fresh s -> room 1 s -> hup b s <> OutOfFuel.
Proof.
  intros Hf Hroom. unfold hup. apply bind_ends; [done|]. intros s0 ? [-> ->]%get_inv. destruct (bool_decide _); [done|].
  cbv zeta. apply bind_ends; [apply (on_log_ends _ (slice_ends _ _ _ _)), Hroom|].
  intros x s1 Es. apply (reading_pres _ (slice_pres _ _ _ _)) in Es.
  apply bind_ends; [unfold lift; by destruct x|]. intros ents s2 [_ ->]%lift_inv.
  assert (fresh s1) as Hf1 by (unfold fresh; by rewrite (q_term _ _ Es)).
  assert (room 1 s1) as Hr1 by (eapply room_reads; [done|apply Es]).
  repeat case_match; first [done|by apply campaign_ends].
Qed.

Lemma maybe_commit_by_vote_keeps m : pres (keeps node_ok) (maybe_commit_by_vote (T:=T) m).
Proof. intros s u s' E Hok. by apply (e_log _ _ _ (maybe_commit_by_vote_evolve _ _ _ _ E)). Qed.
Lemma maybe_commit_by_vote_ends m : ends node_ok (maybe_commit_by_vote (T:=T) m).
Proof. unfold maybe_commit_by_vote. ends. Qed.
Hint Resolve maybe_commit_by_vote_ends : ends.

Lemma grants_vote_ends m : ends node_ok (grants_vote (T:=T) m).
Proof. unfold grants_vote. ends. Qed.
Lemma handle_vote_request_ends m : ends node_ok (handle_vote_request (T:=T) m).
Proof.
  unfold handle_vote_request. apply ends_bind; [apply grants_vote_ends| |].
  { unfold grants_vote. frame. }
  intros g. apply ends_bind; [apply ends_lift; by destruct (Message.msg_type m)|solve [frame]|]. intros ty. ends.
Qed.

(** Snapshots of the leader. *)
Lemma post_conf_change_ends : ends node_ok (post_conf_change (T:=T)).
Proof. unfold post_conf_change, abort_leader_transfer. ends. Qed.
Hint Resolve post_conf_change_ends : ends.
Hint Resolve on_tracker_pres | 2 : frame.

Lemma restore_ends snap : SnapshotMetadata.index (Snapshot.metadata snap) < u64_MAX - 1 ->
  ends node_ok (restore (T:=T) snap).
Proof.
  intros Hb. pose proof (restore_pres (T:=T) snap Hb). unfold restore.
  apply ends_bind_get. intros a _. cbv zeta. repeat (case_match; [solve [ends]|]). ends.
  eapply (ends_zoom _ (fun _ => True)); [apply conf_restore_ends|done].
Qed.

Lemma handle_snapshot_ends m s : wf_msg m -> state (r s) = Follower -> node_ok s -> handle_snapshot m s <> OutOfFuel.
Proof.
  intros Hm Hs Hok. unfold handle_snapshot. apply bind_ends; [by apply restore_ends; [apply Hm|]|].
  intros b s1 Er. apply restore_evolve in Er; [|apply Hm|done].
  match goal with |- ?k s1 <> _ => cut (ends node_ok k); [intros Hk; by apply Hk, (e_log _ _ _ Er)|ends] end.
Qed.

Lemma propose_ends m s : room (len (Message.entries m)) s -> propose m s <> OutOfFuel.
Proof.
  intros Hr. unfold propose. apply bind_ends; [done|]. intros s0 ? [-> ->]%get_inv.
  repeat (case_match; [done|]). unfold try_bind. apply bind_ends; [apply propose_loop_ends, Hr|].
  intros [es|] s1 El; [|done]. pose proof (propose_loop_length _ _ _ _ _ El) as Hlen. apply propose_loop_pres in El.
  assert (room (len es) s1) as Hr1 by (rewrite Hlen; eapply room_reads; [done|apply El]).
  apply bind_ends; [apply append_entry_ends, Hr1|]. intros b s2 Ea.
  apply (append_entry_evolve writes) in Ea as [Ea _]; [|done|done]. destruct (negb b); [done|].
  apply bind_ends; [apply bcast_append_ends, (e_log _ _ _ Ea), Hr1|done].
Qed.

(** ** Messages *)
Lemma step_leader_ends m s : word_msg m -> room (len (Message.entries m) + 1) s -> step_leader m s <> OutOfFuel.
Proof.
  intros Hw Hr. unfold step_leader. destruct (Message.msg_type m) eqn:Et.
  all: try (match goal with |- ?c _ <> _ => cut (ends node_ok c); [intros Hk; apply Hk, Hr|solve [ends]] end).
  apply propose_ends. eapply room_mono; [|exact Hr]. lia.
Qed.

Lemma as_follower_ends m s : wf_msg m -> word_msg m -> state (r s) = Follower -> node_ok s ->
  match Message.msg_type m with
  | MsgAppend => handle_append_entries m s <> OutOfFuel
  | MsgHeartbeat => handle_heartbeat m s <> OutOfFuel
  | MsgSnapshot => handle_snapshot m s <> OutOfFuel
  | _ => True
  end.
Proof.
  intros Hm Hw Hs Hok. destruct (Message.msg_type m) eqn:Et; try done.
  - by apply handle_append_entries_ends.
  - by apply handle_snapshot_ends.
  - by apply handle_heartbeat_ends.
Qed.

Lemma step_candidate_ends m s : wf_msg m -> word_msg m -> fresh s -> room 1 s ->
  state (r s) = Candidate \/ state (r s) = PreCandidate -> step_candidate m s <> OutOfFuel.
Proof.
  intros Hm Hw Hf Hr Hst. unfold step_candidate. pose proof (as_follower_ends m) as Hfo.
  destruct (Message.msg_type m) eqn:Et; try done.
  all: try (apply bind_ends; [unfold follow_leader; match goal with |- ?c _ <> _ => cut (ends node_ok c); [intros Hk; apply Hk, Hr|ends] end|];
    intros u s1 (Ef & Hs & _)%follow_leader_inv; apply bind_ends; [|done];
    by apply (Hfo s1 Hm Hw Hs), (e_log _ _ _ Ef), Hr).
  all: apply bind_ends; [done|]; intros s0 ? [-> ->]%get_inv; destruct (_ || _); [done|].
  all: apply bind_ends; [by apply poll_ends|]; intros res s1 Ep; apply poll_evolve in Ep; [|done..];
    apply bind_ends; [|done]; apply maybe_commit_by_vote_ends, (e_log _ _ _ Ep), Hr.
Qed.

Lemma step_follower_ends m s : wf_msg m -> word_msg m -> fresh s -> room 1 s -> state (r s) = Follower ->
  step_follower m s <> OutOfFuel.
Proof.
  intros Hm Hw Hf Hr Hst. unfold step_follower. pose proof (as_follower_ends m) as Hfo.
  apply bind_ends; [done|]. intros s0 ? [-> ->]%get_inv. cbv zeta. destruct (Message.msg_type m) eqn:Et; try done.
  all: try (match goal with |- ?c _ <> _ => cut (ends node_ok c); [intros Hk; apply Hk, Hr|unfold note_leader; solve [ends]] end; fail).
  all: try (apply bind_ends; [done|]; intros u s1 En; apply note_leader_pres in En; apply bind_ends; [|done];
    apply (Hfo s1 Hm Hw); [by rewrite (q_state _ _ En)|eapply (room_reads 1); [exact Hr|apply En]]).
  apply bind_ends; [|done]. destruct (promotable (r s)); [by apply hup_ends|done].
Qed.

Lemma step_term_ends m : ends node_ok (step_term (T:=T) m).
Proof. unfold step_term. ends. Qed.

Lemma step_ends m s : wf_msg m -> word_msg m -> fresh s -> room (len (Message.entries m) + 1) s -> step m s <> OutOfFuel.
Proof.
  intros Hm Hw Hf Hr. pose proof (len_nonneg (Message.entries m)). unfold step.
  apply bind_ends; [apply step_term_ends, Hr|]. intros go s1 Et. apply step_term_inv in Et; [|done].
  destruct (negb go) eqn:Hgo; [done|].
  assert (fresh s1 /\ room 1 s1 /\ (s1 = s \/ state (r s1) = Follower)) as (Hf1 & Hr1 & Hs1).
  { destruct Et as [[-> _]|[[-> _]|(Hlt & Hev & Ht & Hs & Hl & _)]]; [|done|].
    - split; [done|]. split; [|by left]. eapply room_mono; [|exact Hr]. lia.
    - split; [unfold fresh; rewrite Ht; pose proof (wm_term _ Hm); u64_unfold; lia|]. split; [|by right].
      eapply room_log; [|done]. eapply room_mono; [|exact Hr]. lia. }
  assert (state (r s1) = Leader -> room (len (Message.entries m) + 1) s1) as Hl by (intros; destruct Hs1 as [->|]; [done|congruence]).
  destruct (Message.msg_type m) eqn:Ety.
  all: try (apply bind_ends; [done|]; intros s0 ? [-> ->]%get_inv; destruct (state (r s1)) eqn:Est;
    [by apply step_follower_ends|apply step_candidate_ends; auto|apply step_leader_ends; auto|apply step_candidate_ends; auto]).
  all: apply bind_ends; [|done].
  - by apply hup_ends.
  - apply handle_vote_request_ends, Hr1.
  - apply handle_vote_request_ends, Hr1.
Qed.

(** ** Time *)
Lemma step_local_ends ty s : ty = MsgHup -> fresh s -> room 1 s -> step_local ty s <> OutOfFuel.
Proof.
  intros -> Hf Hr. unfold step_local. apply bind_ends; [done|]. intros s0 ? [-> ->]%get_inv.
  apply bind_ends; [|done]. apply step_ends; [by apply local_wf|by split|done|exact Hr].
Qed.

(** The local messages of a leader. *)
Lemma step_local_leader_ends ty s : ty = MsgCheckQuorum \/ ty = MsgBeat -> state (r s) = Leader -> node_ok s ->
  step_local ty s <> OutOfFuel.
Proof.
  intros Hty Hs Hok. unfold step_local. apply bind_ends; [done|]. intros s0 ? [-> ->]%get_inv.
  apply bind_ends; [|done]. unfold step. erewrite bind_run by (by apply step_term_local).
  destruct Hty as [-> | ->]; cbn -[step_leader]; (apply bind_ends; [done|]); intros s0 ? [-> ->]%get_inv; rewrite Hs;
    match goal with |- ?c _ <> _ => cut (ends node_ok c); [intros Hk; by apply Hk|unfold step_leader; simpl; solve [ends]] end.
Qed.

Lemma tick_heartbeat_ends s : state (r s) = Leader -> node_ok s -> tick_heartbeat s <> OutOfFuel.
Proof.
  intros Hs Hok. unfold tick_heartbeat. do 2 (apply bind_ends; [done|]; intros ? ? ->%modify_inv).
  apply bind_ends; [done|]. intros s0 ? [-> ->]%get_inv.
  match goal with |- _ ?a <> _ => set (s1 := a); assert (state (r s1) = Leader) as Hs1 by done; assert (node_ok s1) as Hok1 by done; clearbody s1 end.
  clear Hs Hok s. apply bind_ends.
  { destruct (_ <=? _); [|done]. apply bind_ends; [done|]. intros ? ? ->%modify_inv. apply bind_ends.
    - destruct (check_quorum _); [|done]. apply step_local_leader_ends; [by left|done..].
    - intros u s2 _. apply bind_ends; [done|]. intros s3 ? [-> ->]%get_inv. by destruct (_ && _). }
  intros hr s2 E. assert (node_ok s2) as Hok2.
  { destruct (_ <=? _); [|by apply ret_inv in E as [_ <-]].
    apply bind_inv in E as (u1 & s3 & ->%modify_inv & E). apply bind_inv in E as (u3 & s3 & Ew & E).
    assert (node_ok s3) as Hok3.
    { apply when_inv in Ew as [[_ Ew]|[_ ->]]; [|done]. apply check_quorum_evolve in Ew; [|done]. by apply (e_log _ _ _ Ew). }
    revert E. match goal with |- ?c _ = _ -> _ => cut (pres (keeps node_ok) c); [intros Hk Hc; by eapply Hk|solve [frame]] end. }
  apply bind_ends; [done|]. intros s3 ? [-> ->]%get_inv. destruct (bool_decide (state (r s2) = Leader)) eqn:Hl; [|done].
  apply bool_decide_eq_true in Hl. cbn [negb]. clear E. case_match; [|done].
  apply bind_ends; [done|]. intros ? ? ->%modify_inv. apply bind_ends; [|done].
  apply step_local_leader_ends; [by right|done..].
Qed.

Lemma tick_ends s : fresh s -> room 1 s -> tick s <> OutOfFuel.
Proof.
  intros Hf Hr. unfold tick. apply bind_ends; [done|]. intros s0 ? [-> ->]%get_inv.
  destruct (state (r s)) eqn:Es; try (apply tick_heartbeat_ends; [done|apply Hr]); unfold tick_election;
    (apply bind_ends; [done|]); intros ? ? ->%modify_inv; (apply bind_ends; [done|]); intros s0 ? [-> ->]%get_inv;
    (destruct (_ || _); [done|]); (apply bind_ends; [done|]); intros ? ? ->%modify_inv;
    (apply bind_ends; [by apply step_local_ends|done]).
Qed.

(** ** The property *)

(** C10 — Handling a message ends: in a node with a well-formed log, whose term and log have
    room left, the processing of every well-formed message and of every tick of the clock
    returns (or panics) within the fuel of its loops: a pre-election that is won starts
    exactly one election, a rejected append is answered after walking back the log at
    most once, and a leader that sends to a peer stops when the peer is paused, its window
    is full or the log is exhausted. *)
Theorem step_terminates (s : Raft.t T) (m : Message.t) (Hm : wf_msg m) (Hw : word_msg m) (Hf : fresh s)
    (Hr : room (len (Message.entries m) + 1) s) :
  ((exists x s', step m s = Ret (x, s')) \/ step m s = Panic) /\
  ((exists b s', tick s = Ret (b, s')) \/ tick s = Panic).
Proof.
  split.
  - pose proof (step_ends m s Hm Hw Hf Hr). destruct (step m s) as [[x s']| |]; [left; by eauto|by right|done].
  - assert (room 1 s) as Hr1 by (eapply room_mono; [|exact Hr]; pose proof (len_nonneg (Message.entries m)); lia).
    pose proof (tick_ends s Hf Hr1). destruct (tick s) as [[x s']| |]; [left; by eauto|by right|done].
Qed.
End node.

Section witnesses.
#[local] Existing Instance ten_bytes.
#[local] Existing Instance sorted_order.
Import RaftCore Raft.

Lemma step_terminates_witness : exists x s', step vote_response node1_candidate = Ret (x, s').
Proof.
  destruct (step_terminates node1_candidate vote_response) as [[Hr|Hp] _];
    [apply vote_response_wf|by evaluate vote_response|by apply (fresh_at 1); [vm_compute|]| |exact Hr|by vm_compute in Hp].
  apply empty_log_room; [apply node1_candidate_log|by vm_compute].
Defined.
End witnesses.
