(* ===== verification/Peers.v ===== *)
(** * Peers of the transport ([rafthttp/types/id.rs], [types/urls.rs], [url_pick.rs], [peer_status.rs])

    How the transport names its peers, where it reaches them and whether they answer. *)

From S2P Require Import Prelude Proto.

(** ** Numbers in a base

    [u64::to_string], the format [{:x}] and [u64::from_str_radix] of the standard library. *)
Section radix.
Context (b : Z).

Fixpoint radix_digits (fuel : nat) (n : Z) (acc : list Z) : list Z :=
  match fuel with
  | O => acc
  | S fuel => if n <? b then n :: acc else radix_digits fuel (n / b) (n mod b :: acc)
  end.

Definition digit_char (d : Z) : ascii :=
  Ascii.ascii_of_nat (Z.to_nat (if d <? 10 then 48 + d else 87 + d)).
(** [char::to_digit] *)
Definition to_digit (c : ascii) : option Z :=
  let n := Z.of_nat (Ascii.nat_of_ascii c) in
  let d := if (48 <=? n) && (n <=? 57) then n - 48
           else if (97 <=? n) && (n <=? 122) then n - 87
           else if (65 <=? n) && (n <=? 90) then n - 55 else b in
  if d <? b then Some d else None.

(** 64 digits are enough for a word in every base. *)
Definition print_radix (n : Z) : list ascii := digit_char <$> radix_digits 64 n [].

(** [IntErrorKind] *)
Inductive ParseIntError := Empty | InvalidDigit | PosOverflow.

Fixpoint parse_loop (acc : Z) (s : list ascii) : result Z ParseIntError :=
  match s with
  | [] => Ok acc
  | c :: s =>
      match to_digit c with
      | None => Err InvalidDigit
      | Some d => if u64_MAX <? acc * b + d then Err PosOverflow else parse_loop (acc * b + d) s
      end
  end.
Definition from_str_radix (s : list ascii) : result Z ParseIntError :=
  match s with
  | [] => Err Empty
  | "+"%char :: [] => Err InvalidDigit
  | "+"%char :: s => parse_loop 0 s
  | _ => parse_loop 0 s
  end.

Lemma radix_digits_S fuel n acc : radix_digits (S fuel) n acc = if n <? b then n :: acc else radix_digits fuel (n / b) (n mod b :: acc).
Proof. reflexivity. Qed.

(** *** Reading what was printed *)
Definition value (acc : Z) (ds : list Z) : Z := foldl (fun a d => a * b + d) acc ds.
Definition digit_ok (d : Z) : Prop := 0 <= d < b.

Hypothesis base_range : 2 <= b <= 16.

Lemma radix_digits_value fuel n acc : 0 <= n < b ^ Z.of_nat fuel -> value 0 (radix_digits fuel n acc) = value n acc.
Proof using base_range.
  revert n acc. induction fuel as [|fuel IH]; intros n acc Hn; simpl.
  - replace n with 0 by (simpl in Hn; lia). done.
  - destruct (Z.ltb_spec n b); [done|]. rewrite Nat2Z.inj_succ, Z.pow_succ_r in Hn by lia. rewrite IH.
    + simpl. f_equal. pose proof (Z.div_mod n b). lia.
    + split; [apply Z.div_pos; lia|]. apply Z.div_lt_upper_bound; lia.
Qed.

Lemma radix_digits_ok fuel n acc : 0 <= n -> Forall digit_ok acc -> Forall digit_ok (radix_digits fuel n acc).
Proof using base_range.
  revert n acc. induction fuel as [|fuel IH]; intros n acc Hn Hacc; simpl; [done|].
  destruct (Z.ltb_spec n b); [by constructor|]. apply IH; [apply Z.div_pos; lia|]. constructor; [|done]. apply Z.mod_pos_bound. lia.
Qed.

Lemma to_digit_char d : digit_ok d -> to_digit (digit_char d) = Some d.
Proof using base_range.
  intros [Hd Hb]. unfold to_digit, digit_char. set (n := if d <? 10 then 48 + d else 87 + d).
  assert (Z.of_nat (Ascii.nat_of_ascii (Ascii.ascii_of_nat (Z.to_nat n))) = n) as ->.
  { rewrite Ascii.nat_ascii_embedding; subst n; destruct (d <? 10); lia. }
  subst n. destruct (Z.ltb_spec d 10).
  - rewrite (proj2 (Z.leb_le 48 _)), (proj2 (Z.leb_le _ 57)) by lia. simpl.
    by replace (48 + d - 48) with d by lia; rewrite (proj2 (Z.ltb_lt _ _)).
  - rewrite (proj2 (Z.leb_gt _ 57)), andb_false_r by lia.
    rewrite (proj2 (Z.leb_le 97 _)), (proj2 (Z.leb_le _ 122)) by lia. simpl.
    by replace (87 + d - 87) with d by lia; rewrite (proj2 (Z.ltb_lt _ _)).
Qed.

Lemma value_grows acc ds : 0 <= acc -> Forall digit_ok ds -> acc <= value acc ds.
Proof using base_range.
  revert acc. induction ds as [|d ds IH]; intros acc Ha Hd; simpl; [lia|]. apply Forall_cons in Hd as [Hd Hds].
  etrans; [|apply IH; [unfold digit_ok in Hd; nia|done]]. unfold digit_ok in Hd. nia.
Qed.

Lemma parse_loop_digits acc ds : 0 <= acc -> Forall digit_ok ds ->
  parse_loop acc (digit_char <$> ds) = if u64_MAX <? value acc ds then if decide (ds = []) then Ok acc else Err PosOverflow else Ok (value acc ds).
Proof using base_range.
  revert acc. induction ds as [|d ds IH]; intros acc Ha Hd; simpl; [by case_match|].
  apply Forall_cons in Hd as [Hd Hds]. rewrite to_digit_char by done. unfold digit_ok in Hd.
  assert (0 <= acc * b + d) by nia. pose proof (value_grows (acc * b + d) ds ltac:(done) Hds).
  destruct (Z.ltb_spec u64_MAX (acc * b + d)).
  - by rewrite (proj2 (Z.ltb_lt _ _)) by lia.
  - rewrite IH by done. destruct (Z.ltb_spec u64_MAX (value (acc * b + d) ds)) as [Hlt|]; [|done].
    destruct (decide (ds = [])) as [->|]; [simpl in Hlt; lia|done].
Qed.
End radix.
#[global] Arguments radix_digits : simpl never.

(** ** Identifiers *)
Module ID.
Definition t := Z.
Definition new (id : Z) : t := id.
Definition to_string (self : t) : list ascii := print_radix 10 self.
(** The format [{:x}]. *)
Definition lower_hex (self : t) : list ascii := print_radix 16 self.
Definition from_str (s : list ascii) : result t ParseIntError := from_str_radix 16 s.
End ID.
Module IDSlice.
Definition t := list ID.t.
Definition sort (self : t) : t := merge_sort Z.le self.
End IDSlice.

Section ids.
Lemma word_bound b n : 2 <= b -> is_u64 n -> 0 <= n < b ^ Z.of_nat 64.
Proof.
  intros Hb [? Hn]. split; [done|]. change (Z.of_nat 64) with 64. unfold U64_MOD in Hn.
  pose proof (Z.pow_le_mono_l 2 b 64 ltac:(lia)). change (2 ^ 64) with 18446744073709551616 in *. lia.
Qed.

(** The first digit of a number is not zero, and there is another one from the base on. *)
Lemma radix_digits_head b fuel n acc : 2 <= b -> 0 < n < b ^ Z.of_nat fuel ->
  exists d ds, radix_digits b fuel n acc = d :: ds ++ acc /\ 1 <= d /\ (b <= n -> ds <> []).
Proof.
  intros Hb. revert n acc. induction fuel as [|fuel IH]; intros n acc Hn; [simpl in Hn; lia|].
  rewrite Nat2Z.inj_succ, Z.pow_succ_r in Hn by lia. rewrite radix_digits_S. destruct (Z.ltb_spec n b) as [|Hnb].
  - exists n, []. split_and!; [done|lia|lia].
  - destruct (IH (n / b) (n mod b :: acc)) as (d & ds & -> & Hd & _).
    { split; [apply Z.div_str_pos; lia|]. apply Z.div_lt_upper_bound; lia. }
    exists d, (ds ++ [n mod b]). rewrite <-app_assoc. split_and!; [done..|]. intros _ E. by destruct ds.
Qed.

Lemma digit_char_plus d b : b <= 16 -> digit_ok b d -> digit_char d <> "+"%char.
Proof.
  intros Hb [Hd Hd']. unfold digit_char. intros E%(f_equal Ascii.nat_of_ascii). revert E.
  rewrite Ascii.nat_ascii_embedding by (destruct (d <? 10); lia). change (Ascii.nat_of_ascii "+") with 43%nat.
  destruct (d <? 10); lia.
Qed.

Lemma from_str_digits b ds : 2 <= b <= 16 -> Forall (digit_ok b) ds -> ds <> [] ->
  from_str_radix b (digit_char <$> ds) = if u64_MAX <? value b 0 ds then Err PosOverflow else Ok (value b 0 ds).
Proof.
  intros Hb Hd Hne. transitivity (parse_loop b 0 (digit_char <$> ds)).
  - destruct ds as [|d ds]; [done|]. simpl. apply Forall_cons in Hd as [Hd _]. pose proof (digit_char_plus d b ltac:(lia) Hd).
    unfold from_str_radix. destruct (digit_char d) as [[] [] [] [] [] [] [] []]; done.
  - rewrite parse_loop_digits by done. case_decide; [done|]. done.
Qed.

Lemma print_digits b n : 2 <= b <= 16 -> is_u64 n -> Forall (digit_ok b) (radix_digits b 64 n []) /\ radix_digits b 64 n [] <> [].
Proof.
  intros Hb Hn. pose proof (word_bound b n ltac:(lia) Hn). split; [apply radix_digits_ok; [lia|apply Hn|done]|].
  change 64%nat with (S 63). rewrite radix_digits_S. destruct (Z.ltb_spec n b); [done|]. destruct (radix_digits_head b 63 (n / b) [n mod b]) as (d & ds & -> & _); [lia| |done].
  split; [apply Z.div_str_pos; lia|]. apply Z.div_lt_upper_bound; [lia|]. rewrite <-Z.pow_succ_r by lia. change (Z.succ (Z.of_nat 63)) with (Z.of_nat 64). lia.
Qed.

(** An identifier printed in hexadecimal is read back; printed by [to_string], in decimal,
    it is read back only if it has one digit. *)
Theorem id_roundtrip (id : ID.t) (Hid : is_u64 id) :
  ID.from_str (ID.lower_hex id) = Ok id /\ (ID.from_str (ID.to_string id) = Ok id <-> id < 10).
Proof.
  unfold ID.from_str, ID.lower_hex, ID.to_string, print_radix. split.
  - destruct (print_digits 16 id ltac:(lia) Hid) as [Hd Hne]. rewrite from_str_digits by (lia || done).
    rewrite radix_digits_value by (first [lia | by apply word_bound]). simpl. destruct Hid. rewrite (proj2 (Z.ltb_ge _ _)); [done|u64_unfold; lia].
  - destruct (print_digits 10 id ltac:(lia) Hid) as [Hd Hne].
    rewrite from_str_digits by (first [lia | done | eapply Forall_impl; [exact Hd|unfold digit_ok; intros; lia]]).
    pose proof (radix_digits_value 10 ltac:(lia) 64 id [] (word_bound 10 id ltac:(lia) Hid)) as Hv.
    destruct (Z.lt_ge_cases id 10) as [Hlt|Hge].
    + change 64%nat with (S 63). rewrite radix_digits_S. destruct (Z.ltb_spec id 10); [|lia]. simpl. destruct Hid.
      rewrite (proj2 (Z.ltb_ge _ _)) by (u64_unfold; lia). done.
    + split; [|lia]. destruct (radix_digits_head 10 64 id []) as (d & ds & E & H1 & H2); [lia|destruct (word_bound 10 id ltac:(lia) Hid); split; [lia|done]|].
      rewrite app_nil_r in E. rewrite E in *. apply Forall_cons in Hd as [_ Hd]. destruct ds as [|d' ds]; [by destruct H2|].
      apply Forall_cons in Hd as [Hd' Hd]. assert (forall a a', 0 <= a < a' -> value 10 a ds < value 16 a' ds) as Hlt.
      { clear -Hd. induction ds as [|x ds IH]; intros a a' Ha; simpl; [lia|]. apply Forall_cons in Hd as [Hx Hd].
        apply IH; [done|]. unfold digit_ok in Hx. lia. }
      change (value 10 ((0 * 10 + d) * 10 + d') ds = id) in Hv. change (value 16 0 (d :: d' :: ds)) with (value 16 ((0 * 16 + d) * 16 + d') ds).
      unfold digit_ok in Hd'. specialize (Hlt ((0 * 10 + d) * 10 + d') ((0 * 16 + d) * 16 + d') ltac:(lia)).
      case_match; [done|]. intros [= Hw]. lia.
Qed.
Lemma id_roundtrip_witness : ID.to_string 10 = ["1"; "0"]%char /\ ID.from_str (ID.lower_hex 10) = Ok 10.
Proof. split; [reflexivity|]. apply (id_roundtrip 10). split; [|reflexivity]. done. Defined.
End ids.

(** ** URLs

    The crate [url]: a URL is known by its serialization, which parses to it again; URLs
    are equal and ordered as their serializations are.  Looking up the addresses of a URL
    may ask the network. *)
Inductive ErrorKind := NotFound | Other | OsError.
Record IoError := Io { kind : ErrorKind; message : string }.
#[export] Instance error_kind_eq_dec : EqDecision ErrorKind.
Proof. solve_decision. Defined.
#[export] Instance io_error_eq_dec : EqDecision IoError.
Proof. solve_decision. Defined.

Class UrlCrate := {
  Url : Type;
  SocketAddr : Type;
  url_parse : string -> option Url;
  as_str : Url -> string;
  scheme : Url -> string;
  path : Url -> string;
  socket_addrs : Url -> result (list SocketAddr) IoError
}.
Class UrlLaws `{UrlCrate} := { parse_as_str u : url_parse (as_str u) = Some u }.

#[export] Instance as_str_inj `{UrlLaws} : Inj (=) (=) as_str.
Proof. intros u v E. pose proof (parse_as_str u) as Hu. rewrite E, parse_as_str in Hu. congruence. Qed.
Definition url_eqb `{UrlCrate} (u v : Url) : bool := String.eqb (as_str u) (as_str v).
Definition url_le `{UrlCrate} (u v : Url) : Prop := String.le (as_str u) (as_str v).
#[export] Instance url_le_dec `{UrlCrate} : RelDecision url_le.
Proof. intros u v. unfold url_le. apply _. Defined.
#[export] Instance url_le_total `{UrlCrate} : Total url_le.
Proof. intros u v. unfold url_le. apply (total String.le). Qed.
#[export] Instance url_le_trans `{UrlCrate} : Transitive url_le.
Proof. intros u v w. unfold url_le. apply transitivity. Qed.
Lemma url_eqb_eq `{UrlLaws} u v : url_eqb u v = true <-> u = v.
Proof. unfold url_eqb. rewrite String.eqb_eq. split; [apply (inj as_str)|by intros ->]. Qed.

Module URLs.
Section urls.
Context `{UrlCrate}.
Local Open Scope string_scope.
Definition t := list Url.
Implicit Types self : t.

Definition new (value : list Url) : t := value.
(** [fn String] *)
Definition to_string self : string := foldr (fun u s => as_str u +:+ "," +:+ s) "" self.
Definition len self : Z := Prelude.len self.
(** [expect]: both positions must be there. *)
Definition less self (i j : Z) : outcome bool :=
  u ← or_panic (index self i); v ← or_panic (index self j);
  mret (String.ltb (as_str u) (as_str v)).
(** The URLs change places by way of their text; the assignments index first. *)
Definition swap (i j : Z) : Prog t unit :=
  self ← get;
  temp ← unwrap (as_str <$> index self i);
  v ← unwrap (as_str <$> index self j);
  u ← unwrap (url_parse v);
  modify (fun self => <[Z.to_nat i := u]> self);;
  w ← unwrap (url_parse temp);
  modify (fun self => <[Z.to_nat j := w]> self).
Definition string_slice self : list string := as_str <$> self.
Definition sort self : t := merge_sort url_le self.
Definition get_url self (i : Z) : option Url := index self i.
Definition get_urls self : list Url := self.

Definition other (msg : string) : IoError := Io Other msg.
Definition quote : string := String.String (Ascii.ascii_of_nat 34) String.EmptyString.
(** The body of the loop of [new_urls]. *)
Definition check_url (s : string) : outcome (result Url IoError) :=
  let s := str (trim (String.list_ascii_of_string s)) in
  u ← or_panic (url_parse s);
  if negb (String.eqb (scheme u) "http") && negb (String.eqb (scheme u) "https")
     && negb (String.eqb (scheme u) "unix") && negb (String.eqb (scheme u) "unixs")
  then mret (Err (other "URL scheme must be http, https, unix, or unixs: {}"))
  else
    match socket_addrs u with
    | Err e => mret (Err e)
    | Ok [] => mret (Err (other ("URL address does not have the form " +:+ quote +:+ "host:port" +:+ quote +:+ ": {}")))
    | Ok _ => if negb (String.eqb (path u) "/") then mret (Err (other "URL must not contain a path")) else mret (Ok u)
    end.
Fixpoint parse_urls (strs : list string) : outcome (result t IoError) :=
  match strs with
  | [] => mret (Ok [])
  | s :: strs =>
      r ← check_url s;
      match r with
      | Err e => mret (Err e)
      | Ok u => rs ← parse_urls strs; mret (us ←! rs; Ok (u :: us))
      end
  end.
Definition new_urls (strs : list string) : outcome (result t IoError) :=
  if (Prelude.len strs =? 0)%Z then mret (Err (other "no valid URLs given"))
  else rs ← parse_urls strs; mret (us ←! rs; Ok (sort us)).
End urls.
End URLs.

Section url_facts.
Context `{UrlLaws}.

(** The URL a string stands for, if the transport can use it. *)
Definition usable (s : string) (u : Url) : Prop :=
  url_parse (str (trim (String.list_ascii_of_string s))) = Some u /\
  scheme u ∈ ["http"; "https"; "unix"; "unixs"]%string /\
  (exists a addrs, socket_addrs u = Ok (a :: addrs)) /\ path u = "/"%string.

Lemma check_url_ok s u : URLs.check_url s = Ret (Ok u) <-> usable s u.
Proof.
  unfold URLs.check_url, usable. destruct (url_parse _) as [v|]; simpl; [|naive_solver].
  assert (negb (String.eqb (scheme v) "http") && negb (String.eqb (scheme v) "https")
     && negb (String.eqb (scheme v) "unix") && negb (String.eqb (scheme v) "unixs") = true <->
    scheme v ∉ ["http"; "https"; "unix"; "unixs"]%string) as Hs.
  { rewrite !andb_true_iff, !negb_true_iff, !String.eqb_neq, !not_elem_of_cons, elem_of_nil. naive_solver. }
  destruct (_ && _).
  { split; [done|]. intros ([= ->] & Hin & _). by apply Hs in Hin. }
  destruct (socket_addrs v) as [[|a addrs]|e] eqn:Ea.
  1,3: split; [done|]; intros ([= ->] & _ & (? & ? & ?) & _); congruence.
  destruct (String.eqb_spec (path v) "/") as [Hp|Hp]; simpl.
  - split; [intros [= ->]|intros ([= ->] & _); done]. split_and!; [done| |by eauto|done].
    destruct (decide (scheme u ∈ ["http"; "https"; "unix"; "unixs"]%string)) as [|Hn]; [done|]. by apply Hs in Hn.
  - split; [done|]. intros ([= ->] & _ & _ & ?). congruence.
Qed.

Lemma parse_urls_ok strs us : URLs.parse_urls strs = Ret (Ok us) <-> Forall2 usable strs us.
Proof.
  revert us. induction strs as [|s strs IH]; intros us; simpl.
  { split; [intros [= <-]; constructor|]. intros ->%Forall2_nil_inv_l. done. }
  destruct (URLs.check_url s) as [[u|e]| |] eqn:Eu; simpl.
  2: { split; [done|]. intros (u & ? & Hu & _)%Forall2_cons_inv_l. apply check_url_ok in Hu. congruence. }
  2,3: split; [done|]; intros (u & ? & Hu & _)%Forall2_cons_inv_l; apply check_url_ok in Hu; congruence.
  apply check_url_ok in Eu. destruct (URLs.parse_urls strs) as [[vs|e]| |] eqn:Ev; simpl.
  - split; [intros [= <-]|intros (v & vs' & Hv & Hvs & ->)%Forall2_cons_inv_l].
    + constructor; [done|]. by apply IH.
    + apply IH in Hvs. destruct Hv as [Hv _], Eu as [Eu _].
      assert (v = u) as -> by congruence. assert (vs' = vs) as -> by congruence. done.
  - split; [done|]. intros (v & vs' & Hv & Hvs & ->)%Forall2_cons_inv_l. apply IH in Hvs. congruence.
  - split; [done|]. intros (v & vs' & Hv & Hvs & ->)%Forall2_cons_inv_l. apply IH in Hvs. congruence.
  - split; [done|]. intros (v & vs' & Hv & Hvs & ->)%Forall2_cons_inv_l. apply IH in Hvs. congruence.
Qed.

(** [new_urls] accepts a list of strings exactly if it is not empty and every string is
    usable; the result is sorted and has the same URLs. *)
Theorem new_urls_correct (strs : list string) :
  (forall us, URLs.new_urls strs = Ret (Ok us) -> exists vs, Forall2 usable strs vs /\ vs <> [] /\
    Permutation us vs /\ StronglySorted url_le us) /\
  (forall vs, strs <> [] -> Forall2 usable strs vs -> exists us, URLs.new_urls strs = Ret (Ok us)) /\
  URLs.new_urls [] = Ret (Err (URLs.other "no valid URLs given")).
Proof.
  split_and!; [| |done].
  - intros us. unfold URLs.new_urls. destruct (Z.eqb_spec (len strs) 0) as [|Hl]; [done|].
    destruct (URLs.parse_urls strs) as [[vs|e]| |] eqn:E; try done. simpl. intros [= <-]. apply parse_urls_ok in E.
    exists vs. split_and!; [done| |apply merge_sort_Permutation|apply StronglySorted_merge_sort; apply _].
    intros ->. apply Forall2_nil_inv_r in E. by subst.
  - intros vs Hne E. unfold URLs.new_urls. destruct (Z.eqb_spec (len strs) 0) as [E0|_]; [by apply len_zero_nil in E0|].
    apply parse_urls_ok in E. rewrite E. by eexists.
Qed.

(** [swap] exchanges two URLs. *)
Lemma swap_run i j (us : URLs.t) u v : index us i = Some u -> index us j = Some v ->
  URLs.swap i j us = Ret (tt, <[Z.to_nat j := u]> (<[Z.to_nat i := v]> us)).
Proof using All.
  intros Hi Hj. unfold URLs.swap. prog_unfold. rewrite Hi, Hj. simpl. rewrite !parse_as_str. done.
Qed.
End url_facts.

(** ** The URL picker

    A lock makes every operation one step. *)
Module BaseurlPicker.
Record t `{UrlCrate} : Type := mk { urls : URLs.t; picked : Z }.
#[global] Instance eta_t `{UrlCrate} : Eta t := fun s => mk _ (urls s) (picked s).
#[global] Instance set_urls `{UrlCrate} : Setter urls := ltac:(derive_setter).
#[global] Instance set_picked `{UrlCrate} : Setter picked := ltac:(derive_setter).

Section picker.
Context `{UrlCrate}.
Definition new (us : URLs.t) : t := mk _ us 0.
Definition update (us : URLs.t) : Prog t unit :=
  modify (fun self => self <| urls := us |>);;
  modify (fun self => self <| picked := 0 |>).
Definition pick : Prog t (option Url) := gets (fun self => URLs.get_url (urls self) (picked self)).
Definition unreachable (url : Url) : Prog t unit :=
  self ← get;
  current ← unwrap (URLs.get_url (urls self) (picked self));
  when (url_eqb url current)
    (modify (fun self => self <| picked := (picked self + 1) mod URLs.len (urls self) |>)).
End picker.
End BaseurlPicker.

Section picker_facts.
Context `{UrlLaws}.
Import BaseurlPicker.
Implicit Types s : BaseurlPicker.t.

Definition picker_ok s : Prop := 0 <= picked s < len (urls s).

(** What senders do with a picker; new URLs come from [new_urls], which gives some. *)
Inductive picker_step s : BaseurlPicker.t -> Prop :=
  | picker_update us s' : us <> [] -> update us s = Ret (tt, s') -> picker_step s s'
  | picker_pick u s' : pick s = Ret (u, s') -> picker_step s s'
  | picker_unreachable u s' : unreachable u s = Ret (tt, s') -> picker_step s s'.

(** A sender tries the picked URL in vain [k] times. *)
Fixpoint tries (k : nat) : Prog BaseurlPicker.t unit :=
  match k with
  | O => mret tt
  | S k => o ← pick; u ← unwrap o; unreachable u;; tries k
  end.

Lemma picker_new us : us <> [] -> picker_ok (new us).
Proof. intros Hus. split; simpl; [done|]. destruct us; [done|]. rewrite len_cons. pose proof (len_nonneg us). lia. Qed.

Lemma pick_run s : picker_ok s -> exists u, index (urls s) (picked s) = Some u /\ pick s = Ret (Some u, s).
Proof. intros Hs. destruct (index_is_Some (urls s) (picked s) Hs) as [u Hu]. exists u. split; [done|]. unfold pick, gets, URLs.get_url. by rewrite Hu. Qed.

Lemma unreachable_run s u v : picker_ok s -> index (urls s) (picked s) = Some v ->
  unreachable u s = Ret (tt, if url_eqb u v then s <| picked := (picked s + 1) mod len (urls s) |> else s).
Proof. intros Hs Hv. unfold unreachable, URLs.get_url. prog_unfold. rewrite Hv. by destruct (url_eqb u v). Qed.

Lemma picked_next s : picker_ok s -> picker_ok (s <| picked := (picked s + 1) mod len (urls s) |>).
Proof. intros Hs. unfold picker_ok in *. fields. apply Z.mod_pos_bound. lia. Qed.

Lemma picker_step_ok s s' : picker_ok s -> picker_step s s' -> picker_ok s'.
Proof.
  intros Hs [us s1 Hus E|u s1 E|u s1 E].
  - unfold update in E. prog_inv. by apply picker_new.
  - by apply gets_inv in E as [_ ->].
  - destruct (pick_run s Hs) as (v & Hv & _). rewrite (unreachable_run s u v Hs Hv) in E. injection E as <-.
    case_match; [by apply picked_next|done].
Qed.

Lemma tries_run k s : picker_ok s -> exists s', tries k s = Ret (tt, s') /\ urls s' = urls s /\
  picked s' = (picked s + Z.of_nat k) mod len (urls s).
Proof using All.
  revert s. induction k as [|k IH]; intros s Hs.
  - exists s. split_and!; [done..|]. rewrite Z.add_0_r, Z.mod_small; [done|exact Hs].
  - destruct (pick_run s Hs) as (u & Hu & Hp). destruct (IH _ (picked_next s Hs)) as (s' & E & Hus & Hk). exists s'.
    split_and!; [|done|].
    + simpl. erewrite bind_run by exact Hp. erewrite bind_run by done.
      erewrite bind_run by exact (unreachable_run s u u Hs Hu). by rewrite (proj2 (url_eqb_eq u u) eq_refl).
    + rewrite Hk. fields. rewrite Zplus_mod_idemp_l. f_equal. lia.
Qed.

(** C37 — The URL picker: from its creation on it always picks one of its URLs, a report about
    a URL that is not picked any more changes nothing, a report about the picked one
    moves on to the next, and every URL is picked after fewer reports than there are
    URLs. *)
Theorem picker_correct (us : URLs.t) s (Hus : us <> []) (Hrun : rtc picker_step (new us) s) :
  (exists u, pick s = Ret (Some u, s) /\ u ∈ urls s) /\
  (forall u v, pick s = Ret (Some v, s) -> u <> v -> unreachable u s = Ret (tt, s)) /\
  (forall u, u ∈ urls s -> exists k s', (k < length (urls s))%nat /\ tries k s = Ret (tt, s') /\ pick s' = Ret (Some u, s')).
Proof using All.
  assert (picker_ok s) as Hs.
  { apply picker_new in Hus. induction Hrun as [|s s1 s' Hstep _ IH]; [done|]. by eapply IH, picker_step_ok. }
  destruct (pick_run s Hs) as (v & Hv & Hp). split_and!.
  - exists v. split; [done|]. unfold index in Hv. case_match; [done|]. by eapply list_elem_of_lookup_2.
  - intros u v' Hp' Hne. rewrite Hp in Hp'. injection Hp' as <-. rewrite (unreachable_run s u v Hs Hv).
    destruct (url_eqb u v) eqn:E; [|done]. by apply url_eqb_eq in E.
  - intros u (n & Hn)%list_elem_of_lookup. pose proof (lookup_lt_Some _ _ _ Hn). set (l := len (urls s)).
    assert (0 <= (Z.of_nat n - picked s) mod l < l) as Hk by (apply Z.mod_pos_bound; unfold picker_ok in Hs; subst l; lia).
    destruct (tries_run (Z.to_nat ((Z.of_nat n - picked s) mod l)) s Hs) as (s' & E & Hus' & Hpk).
    eexists _, s'. split_and!; [|exact E|]; [unfold l, len in *; lia|].
    unfold pick, gets, URLs.get_url. rewrite Hus', Hpk, Z2Nat.id by lia. fold l. rewrite Zplus_mod_idemp_r.
    replace (picked s + (Z.of_nat n - picked s)) with (Z.of_nat n) by lia. rewrite Z.mod_small by (unfold l, len; lia).
    unfold index. rewrite (proj2 (Z.ltb_ge _ _)), Nat2Z.id by lia. by rewrite Hn.
Qed.

(** Without URLs a report panics. *)
Lemma unreachable_empty s u : urls s = [] -> unreachable u s = Panic.
Proof. intros Hs. unfold unreachable, URLs.get_url. prog_unfold. rewrite Hs. unfold index. by destruct (_ <? _). Qed.
End picker_facts.

(** ** Whether a peer answers

    The time of a change is given by the system clock. *)
Record FailureType := new_failure_type { source : string; action : string }.

Module PeerStatus.
Record t : Type := mk { local : ID.t; id : ID.t; active : bool; since : option Z }.
#[global] Instance eta_t : Eta t := fun s => mk (local s) (id s) (active s) (since s).
#[global] Instance set_active : Setter active := ltac:(derive_setter).
#[global] Instance set_since : Setter since := ltac:(derive_setter).

Definition new (local id : ID.t) : t := mk local id false None.
Definition activate (now : Z) : Prog t unit :=
  self ← get;
  when (negb (active self))
    (modify (fun self => self <| active := true |>);;
     modify (fun self => self <| since := Some now |>)).
(** The failure and its reason only go to the log. *)
Definition deactivate (failure : FailureType) (reason : string) : Prog t unit :=
  self ← get;
  when (active self)
    (modify (fun self => self <| active := false |>);;
     modify (fun self => self <| since := None |>)).
Definition is_active (self : t) : bool := active self.
Definition active_since (self : t) : option Z := since self.
End PeerStatus.

Section status.
Import PeerStatus.

Inductive status_step (s : PeerStatus.t) : PeerStatus.t -> Prop :=
  | status_activate now s' : activate now s = Ret (tt, s') -> status_step s s'
  | status_deactivate f r s' : deactivate f r s = Ret (tt, s') -> status_step s s'.

(** A peer has been active since some time exactly if it is active, and that is the time of
    the first report after it was inactive. *)
Lemma status_invariant l i s : rtc status_step (new l i) s -> (is_active s = true <-> is_Some (active_since s)).
Proof.
  intros Hrun. assert (is_active (new l i) = true <-> is_Some (active_since (new l i))) as H0 by (split; [done|by intros []]).
  induction Hrun as [|s s1 s2 Hs _ IH]; [done|]. apply IH. clear IH.
  unfold is_active, active_since in *. destruct Hs as [now s' E|f r s' E]; unfold activate, deactivate in E; prog_inv; fields; naive_solver.
Qed.
Lemma activate_run now s : activate now s = Ret (tt, if active s then s else s <| active := true |> <| since := Some now |>).
Proof. unfold activate. prog_unfold. by destruct (active s). Qed.
Lemma deactivate_run f r s : deactivate f r s = Ret (tt, if active s then s <| active := false |> <| since := None |> else s).
Proof. unfold deactivate. prog_unfold. by destruct (active s). Qed.
End status.

(** ** Witnesses *)
Section witnesses.
(** URLs that are their own text. *)
#[local] Instance text_urls : UrlCrate := {|
  Url := string; SocketAddr := unit; url_parse := Some; as_str := fun u => u;
  scheme := fun _ => "http"%string; path := fun _ => "/"%string; socket_addrs := fun _ => Ok [tt]
|}.
#[local] Instance text_urls_laws : UrlLaws.
Proof. by split. Qed.

Definition two_urls : URLs.t := ["http://a:1"; "http://b:2"]%string.
Definition second_picked : BaseurlPicker.t := BaseurlPicker.mk _ two_urls 1.
Lemma picker_correct_witness : BaseurlPicker.pick second_picked = Ret (Some "http://b:2"%string, second_picked).
Proof.
  destruct (picker_correct two_urls second_picked) as ((u & E & _) & _); [discriminate| |].
  - apply rtc_once, (picker_unreachable (BaseurlPicker.new two_urls) "http://a:1"%string). reflexivity.
  - etransitivity; [exact E|]. injection E as <-. reflexivity.
Defined.
End witnesses.
