(* ===== verification/Stats.v ===== *)
(** * Statistics of the transport ([rafthttp/v2state/queue.rs], [leader.rs], [server.rs])

    A ring buffer with the sizes of the last requests, the latency of a follower, and what
    a server tells about itself.  Times are nanoseconds of the clock, and every reading
    of the clock is an argument.  JSON is left out. *)

From Stdlib Require Import SpecFloat.
From S2P Require Import Prelude Proto RaftCore.

(** ** Numbers *)

(** An [isize] wraps around; [%] has the sign of the dividend. *)
Definition wrap_isize (z : Z) : Z := (z + 9223372036854775808) mod U64_MOD - 9223372036854775808.

(** An [f64] is a number of the IEEE 754 format binary64. *)
Abbreviation f64 := spec_float.
Definition f64_of_Z (z : Z) : f64 := binary_normalize 53 1024 z 0 false.
Definition f64_add : f64 -> f64 -> f64 := SFadd 53 1024.
Definition f64_sub : f64 -> f64 -> f64 := SFsub 53 1024.
Definition f64_mul : f64 -> f64 -> f64 := SFmul 53 1024.
Definition f64_div : f64 -> f64 -> f64 := SFdiv 53 1024.
Definition f64_sqrt : f64 -> f64 := SFsqrt 53 1024.
Definition f64_ltb : f64 -> f64 -> bool := SFltb.
Definition f64_zero : f64 := S754_zero false.

(** ** The queue of requests *)
Definition QUEUE_CAPACITY : Z := 200.

Module RequestState.
Record t : Type := mk { sending_time : Z; size : Z }.
Definition new (st size : Z) : t := mk st size.
End RequestState.

Module BaseStateQueue.
Record t : Type := mk {
  items : list (option RequestState.t);
  size : Z;
  front : Z;
  back : Z;
  total_req_size : Z
}.
#[global] Instance eta_t : Eta t := fun s => mk (items s) (size s) (front s) (back s) (total_req_size s).
#[global] Instance set_items : Setter items := ltac:(derive_setter).
#[global] Instance set_size : Setter size := ltac:(derive_setter).
#[global] Instance set_front : Setter front := ltac:(derive_setter).
#[global] Instance set_back : Setter back := ltac:(derive_setter).
#[global] Instance set_total_req_size : Setter total_req_size := ltac:(derive_setter).

(** [StateQueue::new]: a vector made with a capacity has no items. *)
Definition new : t := mk [] 0 0 (-1) 0.

Definition len (self : t) : Z := size self.
Definition req_size (self : t) : Z := total_req_size self.

Definition front_and_back (self : t) : outcome (option RequestState.t * option RequestState.t) :=
  if negb (size self =? 0) then
    f ← or_panic (index (items self) (front self));
    b ← or_panic (index (items self) (back self));
    mret (f, b)
  else mret (None, None).

(** The size of the request at a position, which must hold one. *)
Definition size_at (i : Z) : Prog t Z :=
  self ← get;
  item ← unwrap (index (items self) i);
  r ← unwrap item;
  mret (RequestState.size r).

Definition insert (p : option RequestState.t) : Prog t unit :=
  modify (fun self => self <| back := Z.rem (wrap_isize (back self + 1)) QUEUE_CAPACITY |>);;
  self ← get;
  (if size self =? QUEUE_CAPACITY then
     n ← size_at (front self);
     modify (fun self => self <| total_req_size := wrap_isize (total_req_size self - n) |>);;
     modify (fun self => self <| front := Z.rem (wrap_isize (back self + 1)) QUEUE_CAPACITY |>)
   else modify (fun self => self <| size := wrap_isize (size self + 1) |>));;
  self ← get;
  assert (bool_decide (is_Some (index (items self) (back self))));;
  modify (fun self => self <| items := <[Z.to_nat (back self) := p]> (items self) |>);;
  n ← size_at (back self);
  modify (fun self => self <| total_req_size := wrap_isize (total_req_size self + n) |>).

Definition clear : Prog t unit :=
  modify (fun self => self <| back := -1 |>);;
  modify (fun self => self <| front := 0 |>);;
  modify (fun self => self <| size := 0 |>);;
  modify (fun self => self <| total_req_size := 0 |>).

(** The rate of requests and of bytes. *)
Definition rate (now : Z) : Prog t (f64 * f64) :=
  fb ← asks front_and_back;
  if bool_decide (is_Some fb.1) || bool_decide (is_Some fb.2) then mret (f64_zero, f64_zero)
  else
    b ← unwrap fb.2;
    if 1000000000 <? now - RequestState.sending_time b then clear;; mret (f64_zero, f64_zero)
    else
      f ← unwrap fb.1;
      let seconds := Z.quot (RequestState.sending_time b - RequestState.sending_time f) 1000000000 in
      self ← get;
      let per_second n := f64_mul (f64_div (f64_of_Z n) (f64_of_Z seconds)) (f64_of_Z 1000) in
      mret (per_second (size self), per_second (total_req_size self)).
End BaseStateQueue.

Section queue.
Import BaseStateQueue.
Implicit Types q : BaseStateQueue.t.

(** C38 — The queue of request statistics never works as made by its constructor: the first
    request inserted into it panics, as the vector of the queue is empty, and [rate] panics
    while the queue is empty; whatever the queue holds, [rate] never measures anything. *)
Theorem state_queue_panics (r : RequestState.t) (now : Z) q :
  insert (Some r) new = Panic /\ rate now new = Panic /\
  (rate now q = Panic \/ rate now q = Ret ((f64_zero, f64_zero), q)).
Proof.
  split_and!; [reflexivity|reflexivity|]. unfold rate, asks. prog_unfold.
  destruct (front_and_back q) as [[f b]| |] eqn:E; [|by left|].
  - destruct f as [f|], b as [b|]; simpl; auto.
  - exfalso. revert E. unfold front_and_back. destruct (negb _); [|done].
    destruct (index (items q) (front q)), (index (items q) (back q)); discriminate.
Qed.

(** *** With room for its items the queue is a window on the last requests *)
Implicit Types w : list RequestState.t.
Definition slot (front i : Z) : Z := (front + i) mod QUEUE_CAPACITY.
Record represents q w : Prop := {
  rp_items : Prelude.len (items q) = QUEUE_CAPACITY;
  rp_size : size q = Prelude.len w /\ Prelude.len w <= QUEUE_CAPACITY;
  rp_front : 0 <= front q < QUEUE_CAPACITY /\ (size q < QUEUE_CAPACITY -> front q = 0);
  rp_back : back q = if size q =? 0 then -1 else slot (front q) (size q - 1);
  rp_content i r : w !! i = Some r -> index (items q) (slot (front q) (Z.of_nat i)) = Some (Some r);
  rp_total : total_req_size q = wrap_isize (foldr (fun r n => RequestState.size r + n) 0 w)
}.
Definition window_insert (r : RequestState.t) w : list RequestState.t :=
  (if Prelude.len w =? QUEUE_CAPACITY then tail w else w) ++ [r].
Lemma wrap_small z : -9223372036854775808 <= z < 9223372036854775808 -> wrap_isize z = z.
Proof. intros Hz. unfold wrap_isize, U64_MOD. rewrite Z.mod_small; lia. Qed.
Lemma wrap_add a b : wrap_isize (wrap_isize a + b) = wrap_isize (a + b).
Proof.
  unfold wrap_isize. f_equal. replace ((a + 9223372036854775808) mod U64_MOD - 9223372036854775808 + b + 9223372036854775808)
    with ((a + 9223372036854775808) mod U64_MOD + b) by lia.
  rewrite Zplus_mod_idemp_l. f_equal. lia.
Qed.
Lemma next_slot z : 0 <= z < QUEUE_CAPACITY -> Z.rem (wrap_isize (z + 1)) QUEUE_CAPACITY = slot z 1.
Proof. unfold QUEUE_CAPACITY. intros Hz. rewrite wrap_small by lia. apply Z.rem_mod_nonneg; lia. Qed.
Lemma slot_range f i : 0 <= slot f i < QUEUE_CAPACITY.
Proof. apply Z.mod_pos_bound. done. Qed.
Lemma slot_slot f i j : slot (slot f i) j = slot f (i + j).
Proof. unfold slot. rewrite Zplus_mod_idemp_l. f_equal. lia. Qed.
Lemma slot_small i : 0 <= i < QUEUE_CAPACITY -> slot 0 i = i.
Proof. intros Hi. unfold slot. by rewrite Z.add_0_l, Z.mod_small. Qed.
Lemma slot_full f : 0 <= f < QUEUE_CAPACITY -> slot f QUEUE_CAPACITY = f.
Proof. intros Hf. unfold slot. rewrite <-(Z.mul_1_l QUEUE_CAPACITY) at 1. rewrite Z.mod_add by done. by apply Z.mod_small. Qed.
Lemma slot_inj f i j : 0 <= i < QUEUE_CAPACITY -> 0 <= j < QUEUE_CAPACITY -> slot f i = slot f j -> i = j.
Proof.
  unfold slot, QUEUE_CAPACITY. intros Hi Hj E. pose proof (Z.div_mod (f + i) 200 ltac:(lia)). pose proof (Z.div_mod (f + j) 200 ltac:(lia)). lia.
Qed.

Lemma index_insert {A} (l : list A) i j x : 0 <= i < Prelude.len l -> 0 <= j ->
  index (<[Z.to_nat i := x]> l) j = if j =? i then Some x else index l j.
Proof.
  unfold index, Prelude.len. intros Hi Hj. rewrite !(proj2 (Z.ltb_ge _ _)) by lia. destruct (Z.eqb_spec j i) as [->|Hne].
  - apply list_lookup_insert_eq. lia.
  - apply list_lookup_insert_ne. lia.
Qed.

Definition total w : Z := foldr (fun r n => RequestState.size r + n) 0 w.
Lemma total_app w1 w2 : total (w1 ++ w2) = total w1 + total w2.
Proof. unfold total. induction w1 as [|r w1 IH]; simpl; lia. Qed.

Lemma represents_new : represents (BaseStateQueue.new <| items := replicate 200 None |>) [].
Proof. split; done || (split; done). Qed.

Lemma clear_represents q w : represents q w -> exists q', clear q = Ret (tt, q') /\ represents q' [].
Proof. intros [Hi _ _ _ _ _]. eexists. split; [reflexivity|]. split; done || (split; done). Qed.

(** Writing the request at the back. *)
Lemma write_back q r : Prelude.len (items q) = QUEUE_CAPACITY -> 0 <= back q < QUEUE_CAPACITY ->
  (self ← get;
   assert (bool_decide (is_Some (index (items self) (back self))));;
   modify (fun self => self <| items := <[Z.to_nat (back self) := Some r]> (items self) |>);;
   n ← size_at (back self);
   modify (fun self => self <| total_req_size := wrap_isize (total_req_size self + n) |>)) q =
  Ret (tt, q <| items := <[Z.to_nat (back q) := Some r]> (items q) |>
             <| total_req_size := wrap_isize (total_req_size q + RequestState.size r) |>).
Proof.
  intros Hi Hb. unfold size_at. prog_unfold. rewrite bool_decide_eq_true_2 by (apply index_is_Some; lia).
  prog_unfold. fields. rewrite index_insert, Z.eqb_refl by lia. prog_unfold. by destruct q.
Qed.

Lemma insert_represents q w r : represents q w ->
  exists q', insert (Some r) q = Ret (tt, q') /\ represents q' (window_insert r w).
Proof.
  intros [Hi [Hs Hw] [Hf Hf0] Hb Hc Ht]. unfold insert.
  erewrite bind_run by done. erewrite bind_run by done. cbv beta. fields. destruct (Z.eqb_spec (size q) QUEUE_CAPACITY) as [Hfull|Hfull].
  - (* the oldest request makes room *)
    assert (back q = slot (front q) (QUEUE_CAPACITY - 1)) as Hb' by (rewrite Hb, Hfull; done).
    assert (Z.rem (wrap_isize (back q + 1)) QUEUE_CAPACITY = front q) as Hback.
    { rewrite next_slot by (rewrite Hb'; apply slot_range). rewrite Hb', slot_slot. by apply slot_full. }
    rewrite Hback. destruct w as [|r0 w]; [by rewrite Hs in Hfull|].
    pose proof (Hc 0%nat r0 eq_refl) as H0. unfold slot in H0 at 1. rewrite Z.add_0_r, Z.mod_small in H0 by done.
    erewrite bind_run; [|unfold size_at; prog_unfold; fields; rewrite H0; prog_unfold; fields; rewrite next_slot by done; reflexivity].
    erewrite write_back by (fields; done). eexists. split; [reflexivity|]. unfold window_insert. rewrite <-Hs, Hfull, Z.eqb_refl. simpl tail.
    rewrite len_cons in Hs, Hw. split; fields.
    + unfold Prelude.len in *. by rewrite length_insert.
    + rewrite len_app, len_cons, len_nil. lia.
    + split; [apply slot_range|]. lia.
    + rewrite Hfull. simpl. rewrite slot_slot. by rewrite slot_full.
    + intros i x Hx. rewrite slot_slot. pose proof (slot_range (front q) (1 + Z.of_nat i)). rewrite index_insert by (rewrite ?Hi; lia).
      apply lookup_app_Some in Hx as [Hx|[Hle Hx]].
      * pose proof (lookup_lt_Some _ _ _ Hx). specialize (Hc (S i) x Hx). rewrite Nat2Z.inj_succ in Hc.
        replace (1 + Z.of_nat i) with (Z.succ (Z.of_nat i)) by lia. rewrite Hc.
        destruct (Z.eqb_spec (slot (front q) (Z.succ (Z.of_nat i))) (front q)) as [E|]; [|done].
        rewrite <-(slot_full (front q) Hf) in E at 2. unfold Prelude.len in *. exfalso.
        assert (slot (front q) (Z.succ (Z.of_nat i)) = slot (front q) 0) as E' by (rewrite E, slot_full by done; unfold slot; by rewrite Z.add_0_r, Z.mod_small).
        apply slot_inj in E'; lia.
      * apply list_lookup_singleton_Some in Hx as [Hx <-]. replace (1 + Z.of_nat i) with QUEUE_CAPACITY by (unfold Prelude.len in *; lia).
        by rewrite slot_full, Z.eqb_refl.
    + fold (total (r0 :: w)) in Ht. fold (total (w ++ [r])). rewrite wrap_add, Ht, total_app.
      replace (wrap_isize (total (r0 :: w)) - RequestState.size r0 + RequestState.size r)
        with (wrap_isize (total (r0 :: w)) + (RequestState.size r - RequestState.size r0)) by lia.
      rewrite wrap_add. f_equal. simpl. lia.
  - assert (front q = 0) as Hz by (apply Hf0; lia). pose proof (len_nonneg w).
    assert (Z.rem (wrap_isize (back q + 1)) QUEUE_CAPACITY = Prelude.len w) as Hback.
    { rewrite Hb, Hz. destruct (Z.eqb_spec (size q) 0) as [E|].
      - by rewrite <-Hs, E.
      - rewrite next_slot by apply slot_range. rewrite slot_slot, slot_small; lia. }
    rewrite Hback. erewrite bind_run by done. erewrite write_back by (fields; lia). eexists. split; [reflexivity|].
    unfold window_insert. rewrite (proj2 (Z.eqb_neq (Prelude.len w) _)) by lia.
    assert (wrap_isize (size q + 1) = Prelude.len w + 1) as Hsz by (rewrite wrap_small; unfold QUEUE_CAPACITY in *; lia).
    split; fields; rewrite ?Hsz.
    + unfold Prelude.len in *. by rewrite length_insert.
    + rewrite len_app, len_cons, len_nil. lia.
    + by rewrite Hz.
    + rewrite (proj2 (Z.eqb_neq _ _)) by lia. rewrite Hz, slot_small; lia.
    + intros i x Hx. rewrite Hz. pose proof (lookup_lt_Some _ _ _ Hx) as Hlt. rewrite length_app in Hlt. simpl in Hlt.
      rewrite slot_small, index_insert by (unfold Prelude.len in *; lia).
      apply lookup_app_Some in Hx as [Hx|[Hle Hx]].
      * pose proof (lookup_lt_Some _ _ _ Hx). rewrite (proj2 (Z.eqb_neq _ _)) by (unfold Prelude.len; lia).
        specialize (Hc i x Hx). rewrite Hz, slot_small in Hc by (unfold Prelude.len in *; lia). exact Hc.
      * apply list_lookup_singleton_Some in Hx as [Hx <-]. by rewrite (proj2 (Z.eqb_eq _ _)) by (unfold Prelude.len in *; lia).
    + fold (total w) in Ht. fold (total (w ++ [r])). rewrite Ht, wrap_add, total_app. f_equal. simpl. lia.
Qed.

(** What is done to a queue, and to the window. *)
Variant queue_op : Type := Insert (r : RequestState.t) | Clear.
Definition queue_run (op : queue_op) : Prog BaseStateQueue.t unit :=
  match op with Insert r => insert (Some r) | Clear => clear end.
Definition window_run w (op : queue_op) : list RequestState.t :=
  match op with Insert r => window_insert r w | Clear => [] end.

Lemma represents_front_and_back q w : represents q w -> front_and_back q = Ret (head w, last w).
Proof.
  intros [Hi [Hs Hw] [Hf Hf0] Hb Hc _]. unfold front_and_back. destruct w as [|r w].
  - by rewrite Hs.
  - rewrite Hb, (proj2 (Z.eqb_neq _ _)) by (rewrite Hs, len_cons; pose proof (len_nonneg w); lia).
    assert (front q = slot (front q) (Z.of_nat 0)) as -> by (unfold slot; by rewrite Z.add_0_r, Z.mod_small).
    destruct (last_is_Some (r :: w)) as [_ [x Hx]]; [done|]. rewrite (Hc 0%nat r eq_refl), Hx.
    rewrite last_lookup in Hx. specialize (Hc _ x Hx).
    assert (slot (slot (front q) (Z.of_nat 0)) (size q - 1) = slot (front q) (Z.of_nat (pred (length (r :: w))))) as ->; [|by rewrite Hc].
    rewrite slot_slot, Hs. f_equal. unfold Prelude.len. simpl. lia.
Qed.

Lemma run_represents op q w : represents q w ->
  exists q', queue_run op q = Ret (tt, q') /\ represents q' (window_run w op).
Proof. destruct op; [apply insert_represents|apply clear_represents]. Qed.

(** A queue with 200 slots refines a window on the requests since the last [clear], of
    which it keeps the last 200: no operation panics, [len] is the number of requests in the
    window, [req_size] is the sum of their sizes as far as an [isize] holds it, and
    [front_and_back] gives the oldest and the newest request. *)
Theorem queue_window (ops : list queue_op) q w : represents q w ->
  exists q', for_each queue_run ops q = Ret (tt, q') /\
    let w' := fold_left window_run ops w in
    represents q' w' /\ len q' = Prelude.len w' /\ req_size q' = wrap_isize (total w') /\
    front_and_back q' = Ret (head w', last w').
Proof.
  intros H. revert q w H. induction ops as [|op ops IH]; intros q w H; simpl.
  - exists q. split_and!; [done|done|apply H|apply H|by apply represents_front_and_back].
  - destruct (run_represents op _ _ H) as (q' & E & H'). erewrite bind_run by exact E. by apply IH.
Qed.

(** More than two rounds through the ring. *)
Definition round_trip : list queue_op :=
  Clear :: map (fun i => Insert (RequestState.new (Z.of_nat i) (Z.of_nat i * 3))) (seq 0 450).
Lemma queue_window_witness : exists q',
  for_each queue_run round_trip (BaseStateQueue.new <| items := replicate 200 None |>) = Ret (tt, q') /\
  len q' = 200 /\ req_size q' = 3 * (450 * 449 / 2 - 250 * 249 / 2).
Proof.
  destruct (queue_window round_trip _ _ represents_new) as (q' & E & _ & Hl & Hr & _).
  exists q'. split; [exact E|]. rewrite Hl, Hr. vm_compute. split; reflexivity.
Defined.
End queue.

(** ** What a leader knows of its followers *)
Module LatencyStats.
Record t : Type := mk {
  current : f64; average : f64; average_square : f64; standard_deviation : f64; minimum : f64; maximum : f64
}.
#[global] Instance eta_t : Eta t := fun s =>
  mk (current s) (average s) (average_square s) (standard_deviation s) (minimum s) (maximum s).
#[global] Instance set_current : Setter current := ltac:(derive_setter).
#[global] Instance set_average : Setter average := ltac:(derive_setter).
#[global] Instance set_average_square : Setter average_square := ltac:(derive_setter).
#[global] Instance set_standard_deviation : Setter standard_deviation := ltac:(derive_setter).
#[global] Instance set_minimum : Setter minimum := ltac:(derive_setter).
#[global] Instance set_maximum : Setter maximum := ltac:(derive_setter).
End LatencyStats.

Module CountsStats.
Record t : Type := mk { fail_ : Z; success : Z }.
#[global] Instance eta_t : Eta t := fun s => mk (fail_ s) (success s).
#[global] Instance set_fail_ : Setter fail_ := ltac:(derive_setter).
#[global] Instance set_success : Setter success := ltac:(derive_setter).
Definition get_fail (self : t) : Z := fail_ self.
Definition get_success (self : t) : Z := success self.
End CountsStats.

Module FollowerStats.
Import LatencyStats CountsStats.
Record t : Type := mk { latency : LatencyStats.t; counts : CountsStats.t }.
#[global] Instance eta_t : Eta t := fun s => mk (latency s) (counts s).
#[global] Instance set_latency : Setter latency := ltac:(derive_setter).
#[global] Instance set_counts : Setter counts := ltac:(derive_setter).

Definition default : t :=
  mk (LatencyStats.mk f64_zero f64_zero f64_zero f64_zero f64_zero f64_zero) (CountsStats.mk 0 0).
Definition get_latency (self : t) : LatencyStats.t := latency self.
Definition get_counts (self : t) : CountsStats.t := counts self.

(** A duration is a number of nanoseconds; its milliseconds are the whole ones. *)
Definition num_milliseconds (d : Z) : Z := Z.quot d 1000000.

Definition succ (d : Z) (self : t) : t :=
  let total := f64_mul (f64_of_Z (success (counts self))) (average (latency self)) in
  let total_square := f64_mul (f64_of_Z (success (counts self))) (average_square (latency self)) in
  let self := self <| counts := (counts self) <| success := success (counts self) +w 1 |> |> in
  let self := self <| latency := (latency self) <| current := f64_div (f64_of_Z (num_milliseconds d)) (f64_of_Z 1000000) |> |> in
  let self := if f64_ltb (maximum (latency self)) (current (latency self))
              then self <| latency := (latency self) <| maximum := current (latency self) |> |> else self in
  let self := if f64_ltb (current (latency self)) (minimum (latency self))
              then self <| latency := (latency self) <| minimum := current (latency self) |> |> else self in
  let self := self <| latency := (latency self) <| average :=
    f64_div (f64_add total (current (latency self))) (f64_of_Z (success (counts self))) |> |> in
  let self := self <| latency := (latency self) <| average_square :=
    f64_div (f64_add total_square (f64_mul (current (latency self)) (current (latency self))))
      (f64_of_Z (success (counts self))) |> |> in
  self <| latency := (latency self) <| standard_deviation :=
    f64_sqrt (f64_sub (average_square (latency self)) (f64_mul (average (latency self)) (average (latency self)))) |> |>.

Definition fail (self : t) : t := self <| counts := (counts self) <| fail_ := fail_ (counts self) +w 1 |> |>.
End FollowerStats.

Section follower.
Import FollowerStats.

(** *** Signs *)
Definition nonneg (x : f64) : Prop :=
  match x with
  | S754_zero s | S754_infinity s | S754_finite s _ _ => s = false
  | S754_nan => True
  end.
Lemma round_nonneg m e l : nonneg (binary_round_aux 53 1024 false m e l).
Proof.
  unfold binary_round_aux. destruct (shr_fexp 53 1024 m e l) as [mrs e']. destruct (shr_fexp 53 1024 _ _ _) as [mrs' e''].
  by destruct (shr_m mrs') as [|p|p]; [|destruct (_ <=? _)%Z|].
Qed.
Lemma of_Z_nonneg z : 0 <= z -> nonneg (f64_of_Z z).
Proof.
  intros Hz. unfold f64_of_Z, binary_normalize. destruct z as [|p|p]; [done| |done].
  unfold binary_round. destruct (shl_align _ _ _). apply round_nonneg.
Qed.
Lemma div_nonneg x y : nonneg x -> nonneg y -> nonneg (f64_div x y).
Proof.
  unfold f64_div. destruct x as [?|?| |? m1 e1], y as [?|?| |? m2 e2]; simpl; intros; subst; try done.
  destruct (SFdiv_core_binary _ _ _ _ _ _) as [[m e] l]. apply round_nonneg.
Qed.
Lemma nonneg_not_below x : nonneg x -> f64_ltb x f64_zero = false.
Proof. unfold f64_ltb, SFltb. destruct x as [?|?| |? m e]; simpl; intros; by subst. Qed.

(** *** What happened to a follower *)
Variant follower_op : Type := Succ (d : Z) | Fail.
Definition follower_run (self : FollowerStats.t) (op : follower_op) : FollowerStats.t :=
  match op with Succ d => succ d self | Fail => fail self end.
Definition succeeded (op : follower_op) : bool := match op with Succ _ => true | Fail => false end.
Definition took_time (op : follower_op) : Prop := match op with Succ d => 0 <= d | Fail => True end.

Lemma succ_minimum d self : 0 <= d -> LatencyStats.minimum (latency self) = f64_zero ->
  LatencyStats.minimum (latency (succ d self)) = f64_zero.
Proof.
  intros Hd Hm. unfold succ. cbv zeta. fields.
  match goal with |- context [f64_ltb ?c (LatencyStats.minimum (latency (if ?b then ?x else ?y)))] =>
    assert (forall z : FollowerStats.t, z = (if b then x else y) ->
      LatencyStats.current (latency z) = f64_div (f64_of_Z (num_milliseconds d)) (f64_of_Z 1000000) /\
      LatencyStats.minimum (latency z) = f64_zero) as Hz
  end.
  { intros z ->. by destruct (f64_ltb _ _); fields. }
  match goal with |- context [f64_ltb _ (LatencyStats.minimum (latency ?z))] => destruct (Hz z eq_refl) as [-> ->] end.
  rewrite nonneg_not_below; [apply (Hz _ eq_refl)|].
  apply div_nonneg; apply of_Z_nonneg; [|done]. apply Z.quot_pos; lia.
Qed.
Lemma succ_counts d self :
  counts (succ d self) = CountsStats.mk (CountsStats.fail_ (counts self)) (CountsStats.success (counts self) +w 1).
Proof.
  unfold succ. cbv zeta. fields. destruct self as [? [f s]].
  repeat match goal with |- context [if ?b then _ else _] => destruct b end; by fields.
Qed.

(** The statistics of a follower count its successes and failures up to the width of a
    [u64], and the minimum of its latencies, which the constructor sets to zero, stays zero
    whatever the latencies are: no latency is below it. *)
Theorem follower_stats (ops : list follower_op) : Forall took_time ops ->
  let self := fold_left follower_run ops default in
  LatencyStats.minimum (get_latency self) = f64_zero /\
  CountsStats.get_success (get_counts self) = Z.of_nat (length (filter succeeded ops)) mod U64_MOD /\
  CountsStats.get_fail (get_counts self) = Z.of_nat (length (filter (fun op => negb (succeeded op)) ops)) mod U64_MOD.
Proof.
  induction ops as [|op ops IH] using rev_ind; intros Hall; [done|].
  apply Forall_app in Hall as [Hall [Hop _]%Forall_cons]. destruct (IH Hall) as (Hm & Hs & Hf). clear IH.
  cbv zeta in *. rewrite fold_left_app, !filter_app, !length_app. cbn [fold_left follower_run]. unfold get_latency, get_counts, CountsStats.get_success, CountsStats.get_fail in *.
  destruct op as [d|]; cbn [follower_run took_time] in *.
  - rewrite succ_counts. cbn [CountsStats.success CountsStats.fail_]. split; [by apply succ_minimum|]. rewrite Hs, Hf. unfold u64_add. simpl.
    rewrite Zplus_mod_idemp_l. split; f_equal; lia.
  - unfold fail. fields. rewrite Hs, Hf. unfold u64_add. simpl. rewrite Zplus_mod_idemp_l. split_and!; [done|f_equal; lia..].
Qed.
(** Two answers and a failure. *)
Lemma follower_stats_witness :
  let self := fold_left follower_run [Succ 3000000; Fail; Succ 5000000] default in
  LatencyStats.minimum (get_latency self) = f64_zero /\
  CountsStats.get_success (get_counts self) = 2 /\ f64_ltb f64_zero (LatencyStats.maximum (get_latency self)) = true.
Proof.
  assert (Forall took_time [Succ 3000000; Fail; Succ 5000000]) as H by (repeat constructor; done).
  destruct (follower_stats _ H) as (Hm & Hs & _). split; [exact Hm|]. split; [rewrite Hs; reflexivity|by vm_compute].
Defined.
End follower.

Module LeaderStats.
Record t : Type := mk { leader : string; followers : gmap string FollowerStats.t }.
#[global] Instance eta_t : Eta t := fun s => mk (leader s) (followers s).
#[global] Instance set_leader : Setter leader := ltac:(derive_setter).
#[global] Instance set_followers : Setter followers := ltac:(derive_setter).

(** [LeaderStats::follower] gives a clone of what it keeps. *)
Definition follower (name : string) : Prog t FollowerStats.t :=
  self ← get;
  match followers self !! name with
  | Some fs => mret fs
  | None =>
      modify (fun self => self <| followers := <[name := FollowerStats.default]> (followers self) |>);;
      self ← get;
      unwrap (followers self !! name)
  end.
End LeaderStats.

(** ** What a server tells about itself *)
Module leader_info.
Record t : Type := mk { name : string; up_time : string; start_time : Z }.
#[global] Instance eta_t : Eta t := fun s => mk (name s) (up_time s) (start_time s).
#[global] Instance set_name : Setter name := ltac:(derive_setter).
#[global] Instance set_start_time : Setter start_time := ltac:(derive_setter).
End leader_info.

Module ServerState.
Record t : Type := mk {
  name : string; id : string;
  state : StateRole;
  start_time : Z;
  leader_info : leader_info.t;
  recv_append_request_cnt : Z; recving_pkg_rate : f64; recving_bandwidth_rate : f64;
  send_append_request_cnt : Z; sending_pkg_rate : f64; sending_bandwidth_rate : f64;
  send_rate_queue : BaseStateQueue.t; recv_rate_queue : BaseStateQueue.t
}.
#[global] Instance eta_t : Eta t := fun s =>
  mk (name s) (id s) (state s) (start_time s) (leader_info s)
     (recv_append_request_cnt s) (recving_pkg_rate s) (recving_bandwidth_rate s)
     (send_append_request_cnt s) (sending_pkg_rate s) (sending_bandwidth_rate s)
     (send_rate_queue s) (recv_rate_queue s).
#[global] Instance set_state : Setter state := ltac:(derive_setter).
#[global] Instance set_leader_info : Setter leader_info := ltac:(derive_setter).
#[global] Instance set_recv_append_request_cnt : Setter recv_append_request_cnt := ltac:(derive_setter).
#[global] Instance set_recving_pkg_rate : Setter recving_pkg_rate := ltac:(derive_setter).
#[global] Instance set_recving_bandwidth_rate : Setter recving_bandwidth_rate := ltac:(derive_setter).
#[global] Instance set_send_append_request_cnt : Setter send_append_request_cnt := ltac:(derive_setter).
#[global] Instance set_sending_pkg_rate : Setter sending_pkg_rate := ltac:(derive_setter).
#[global] Instance set_sending_bandwidth_rate : Setter sending_bandwidth_rate := ltac:(derive_setter).
#[global] Instance set_send_rate_queue : Setter send_rate_queue := ltac:(derive_setter).
#[global] Instance set_recv_rate_queue : Setter recv_rate_queue := ltac:(derive_setter).

(** [new_server_state]: the clock is read twice. *)
Definition new_server_state (name id : string) (now1 now2 : Z) : t :=
  mk name id Follower now1 (leader_info.mk EmptyString EmptyString now2)
     0 f64_zero f64_zero 0 f64_zero f64_zero BaseStateQueue.new BaseStateQueue.new.

Definition with_send_queue {A} : Prog BaseStateQueue.t A -> Prog t A :=
  zoom send_rate_queue (fun q s => s <| send_rate_queue := q |>).
Definition with_recv_queue {A} : Prog BaseStateQueue.t A -> Prog t A :=
  zoom recv_rate_queue (fun q s => s <| recv_rate_queue := q |>).

(** The rates [JSON] stores before it serializes the state. *)
Definition update_rates (now1 now2 : Z) : Prog t unit :=
  sending ← with_send_queue (BaseStateQueue.rate now1);
  recving ← with_recv_queue (BaseStateQueue.rate now2);
  modify (fun self => self <| sending_pkg_rate := sending.1 |>);;
  modify (fun self => self <| sending_bandwidth_rate := sending.2 |>);;
  modify (fun self => self <| recving_pkg_rate := recving.1 |>);;
  modify (fun self => self <| recving_bandwidth_rate := recving.2 |>).

Definition recv_append_req (now : Z) (leader : string) (req_size : Z) : Prog t unit :=
  modify (fun self => self <| state := Follower |>);;
  self ← get;
  when (negb (bool_decide (leader = leader_info.name (leader_info self))))
    (modify (fun self => self <| leader_info := (leader_info self) <| leader_info.name := leader |> |>);;
     modify (fun self => self <| leader_info := (leader_info self) <| leader_info.start_time := now |> |>));;
  with_recv_queue (BaseStateQueue.insert (Some (RequestState.new now req_size)));;
  modify (fun self => self <| recv_append_request_cnt := recv_append_request_cnt self +w 1 |>).

Definition become_leader (now : Z) : Prog t unit :=
  self ← get;
  when (negb (bool_decide (state self = Leader)))
    (modify (fun self => self <| state := Leader |>);;
     modify (fun self => self <| leader_info := (leader_info self) <| leader_info.name := id self |> |>);;
     modify (fun self => self <| leader_info := (leader_info self) <| leader_info.start_time := now |> |>)).

Definition send_append_req (now1 now2 : Z) (req_size : Z) : Prog t unit :=
  become_leader now1;;
  with_send_queue (BaseStateQueue.insert (Some (RequestState.new now2 req_size)));;
  modify (fun self => self <| send_append_request_cnt := send_append_request_cnt self +w 1 |>).
End ServerState.

Section server.
Import ServerState.
Implicit Types self : ServerState.t.

(** What the counters and queues of a server stand for. *)
Record describes self (sent received : list RequestState.t) : Prop := {
  ds_send : represents (send_rate_queue self) sent;
  ds_recv : represents (recv_rate_queue self) received
}.

(** The statistics of a server whose queues have room: receiving an append makes it a
    follower of the sender, whose term of office starts now unless it was known already,
    sending one makes it the leader, whose term of office starts now unless it was that
    already; each is counted and is the newest request of its window, and the other
    direction's window and counter do not change. *)
Theorem server_requests self ws wr now1 now2 ldr n : describes self ws wr ->
  (exists self', recv_append_req now1 ldr n self = Ret (tt, self') /\
     describes self' ws (window_insert (RequestState.new now1 n) wr) /\
     state self' = Follower /\ leader_info.name (leader_info self') = ldr /\
     leader_info.start_time (leader_info self') =
       (if decide (leader_info.name (leader_info self) = ldr) then leader_info.start_time (leader_info self) else now1) /\
     recv_append_request_cnt self' = recv_append_request_cnt self +w 1 /\
     send_append_request_cnt self' = send_append_request_cnt self) /\
  (exists self', send_append_req now1 now2 n self = Ret (tt, self') /\
     describes self' (window_insert (RequestState.new now2 n) ws) wr /\
     state self' = Leader /\
     leader_info self' =
       (if decide (state self = Leader) then leader_info self
        else leader_info.mk (id self) (leader_info.up_time (leader_info self)) now1) /\
     recv_append_request_cnt self' = recv_append_request_cnt self /\
     send_append_request_cnt self' = send_append_request_cnt self +w 1).
Proof.
  intros [Hs Hr].
  destruct (insert_represents _ _ (RequestState.new now1 n) Hr) as (q1 & E1 & R1).
  destruct (insert_represents _ _ (RequestState.new now2 n) Hs) as (q2 & E2 & R2). split.
  - unfold recv_append_req. erewrite bind_run by done. erewrite bind_run by done. cbv beta. fields. unfold when.
    destruct (decide (leader_info.name (leader_info self) = ldr)) as [<-|Hne].
    + rewrite bool_decide_eq_true_2 by done. erewrite bind_run by done.
      erewrite bind_run by (apply zoom_run; exact E1). eexists. split; [reflexivity|]. by fields.
    + rewrite bool_decide_eq_false_2 by done. erewrite bind_run by done.
      erewrite bind_run by (apply zoom_run; exact E1). eexists. split; [reflexivity|]. by fields.
  - unfold send_append_req, become_leader, when.
    destruct (decide (state self = Leader)) as [Hl|Hl].
    + erewrite bind_run by (erewrite bind_run by done; by rewrite bool_decide_eq_true_2).
      erewrite bind_run by (apply zoom_run; exact E2). eexists. split; [reflexivity|]. by fields.
    + erewrite bind_run by (erewrite bind_run by done; by rewrite bool_decide_eq_false_2).
      erewrite bind_run by (apply zoom_run; exact E2). eexists. split; [reflexivity|]. by fields.
Qed.
Definition room : BaseStateQueue.t := BaseStateQueue.new <| BaseStateQueue.items := replicate 200 None |>.
Definition roomy : ServerState.t :=
  (new_server_state EmptyString EmptyString 0 0) <| send_rate_queue := room |> <| recv_rate_queue := room |>.
Lemma server_requests_witness : exists self',
  recv_append_req 7 EmptyString 12 roomy = Ret (tt, self') /\ state self' = Follower /\ recv_append_request_cnt self' = 1.
Proof.
  assert (describes roomy [] []) as H by (split; apply represents_new).
  destruct (server_requests roomy [] [] 7 8 EmptyString 12 H) as [(self' & E & _ & Hs & _ & _ & Hc & _) _].
  exists self'. split_and!; [exact E|exact Hs|rewrite Hc; reflexivity].
Defined.

(** The statistics of a server as it is made: the first request and the first report panic. *)
Lemma new_server_panics name id now1 now2 now3 now4 ldr n :
  let self := new_server_state name id now1 now2 in
  recv_append_req now3 ldr n self = Panic /\ send_append_req now3 now4 n self = Panic /\ update_rates now3 now4 self = Panic.
Proof.
  unfold recv_append_req, send_append_req, become_leader, when. prog_unfold. fields. split_and!; [|reflexivity..].
  by destruct (negb _).
Qed.
End server.
