(* ===== verification/Wire.v ===== *)
(** * What peers send each other ([rafthttp/util/net_util.rs], [util/reader.rs],
      [util/read_closer.rs], [error.rs], [peer.rs])

    The requests that carry messages, the answers to them, the versions peers can talk to,
    and the readers that bound what is read.  The crates [hyper] and [semver] are parameters
    ([Http], [Semver]); strings are UTF-8. *)

From Stdlib Require Import String.
From S2P Require Import Prelude Proto Peers.

(** ** Text of the standard library *)

(** [String::from_utf8_lossy]: the characters of the text, each by its bytes; what is not
    one is replaced, as far as it could have been the beginning of one. *)
Definition byte_z (b : Byte.byte) : Z := Z.of_N (Byte.to_N b).
Definition between (lo hi : Z) (b : Byte.byte) : bool := (lo <=? byte_z b) && (byte_z b <=? hi).
Definition replacement : list Byte.byte := [Byte.xef; Byte.xbf; Byte.xbd].

(** The second byte a character may have after its first one, if it has three or four. *)
Definition second_ok (b0 b1 : Byte.byte) : bool :=
  if byte_z b0 =? 224 then between 160 191 b1
  else if byte_z b0 =? 237 then between 128 159 b1
  else if byte_z b0 =? 240 then between 144 191 b1
  else if byte_z b0 =? 244 then between 128 143 b1
  else between 128 191 b1.

Fixpoint from_utf8_lossy (s : list Byte.byte) : list (list Byte.byte) :=
  match s with
  | [] => []
  | b0 :: s1 =>
      if byte_z b0 <=? 127 then [b0] :: from_utf8_lossy s1
      else if between 194 223 b0 then
        match s1 with
        | b1 :: s2 => if between 128 191 b1 then [b0; b1] :: from_utf8_lossy s2 else replacement :: from_utf8_lossy s1
        | [] => [replacement]
        end
      else if between 224 239 b0 then
        match s1 with
        | b1 :: s2 =>
            if second_ok b0 b1 then
              match s2 with
              | b2 :: s3 => if between 128 191 b2 then [b0; b1; b2] :: from_utf8_lossy s3 else replacement :: from_utf8_lossy s2
              | [] => [replacement]
              end
            else replacement :: from_utf8_lossy s1
        | [] => [replacement]
        end
      else if between 240 244 b0 then
        match s1 with
        | b1 :: s2 =>
            if second_ok b0 b1 then
              match s2 with
              | b2 :: s3 =>
                  if between 128 191 b2 then
                    match s3 with
                    | b3 :: s4 => if between 128 191 b3 then [b0; b1; b2; b3] :: from_utf8_lossy s4 else replacement :: from_utf8_lossy s3
                    | [] => [replacement]
                    end
                  else replacement :: from_utf8_lossy s2
              | [] => [replacement]
              end
            else replacement :: from_utf8_lossy s1
        | [] => [replacement]
        end
      else replacement :: from_utf8_lossy s1
  end.

(** [char::is_whitespace] *)
Definition is_white (c : list Byte.byte) : bool :=
  match map byte_z c with
  | [n] => ((9 <=? n) && (n <=? 13)) || (n =? 32)
  | [194; n] => (n =? 133) || (n =? 160)
  | [225; 154; 128] => true
  | [226; 128; n] => ((128 <=? n) && (n <=? 138)) || (n =? 168) || (n =? 169) || (n =? 175)
  | [226; 129; 159] => true
  | [227; 128; 128] => true
  | _ => false
  end.
Fixpoint drop_while {A} (p : A -> bool) (l : list A) : list A :=
  match l with [] => [] | x :: l' => if p x then drop_while p l' else l end.
(** [str::trim_end] *)
Definition trim_end (s : list (list Byte.byte)) : list (list Byte.byte) := rev (drop_while is_white (rev s)).
Definition text (s : list (list Byte.byte)) : string := string_of_list_byte (concat s).
(** [str::contains] *)
Definition contains (needle s : string) : bool := if String.index 0 needle s then true else false.

(** ** Errors *)

(** [rafthttp/error.rs] *)
Inductive Error := ErrShortRead | ErrExpectEOF | ErrSend | ErrNoDBSnapshot | ErrNoSnapshot | ErrEmptySnapshot | ErrCRCMismatch.

Inductive CustomError := IncompatibleVersion | ClusterIDMismatch | MemberRemoved | OtherError (msg : string).
Definition CustomError_to_string (e : CustomError) : string :=
  match e with
  | IncompatibleVersion => "incompatible version"
  | ClusterIDMismatch => "Cluster ID mismatch"
  | MemberRemoved => "the member has been permanently removed from the cluster"
  | OtherError msg => "Unhandled error: " +:+ msg
  end.
Definition other_error (msg : string) : IoError := Io Other msg.

(** ** Messages ([rafthttp/peer.rs]) *)
Definition is_msg_app (m : Message.t) : bool := bool_decide (Message.msg_type m = MsgAppend).
Definition is_msg_snap (m : Message.t) : bool := bool_decide (Message.msg_type m = MsgSnapshot).

(** ** Versions *)
Class Semver := {
  Prerelease : Type; pre_default : Prerelease;
  BuildMetadata : Type; build_default : BuildMetadata
}.
Record Version `{Semver} := { major : Z; minor : Z; patch : Z; pre : Prerelease; build : BuildMetadata }.
Class SemverCrate `{Semver} := {
  SemverError : Type;
  version_parse : string -> result Version SemverError;
  version_cmp : Version -> Version -> comparison;
  version_to_string : Version -> string
}.

Definition MinClusterVersion : string := "3.0.0".
Definition server_Version : string := "3.6.0-alpha.0".

Section versions.
Context `{SemverCrate}.

Definition compare_major_minor_version (a b : Version) : Z :=
  let na := {| major := major a; minor := minor a; patch := 0; pre := pre_default; build := build_default |} in
  let nb := {| major := major b; minor := minor b; patch := 0; pre := pre_default; build := build_default |} in
  match version_cmp na nb with Lt => -1 | Gt => 1 | Eq => 0 end.

(** A header that is missing or not visible text is [None]. *)
Definition server_version (headers : string -> option string) : result Version SemverError :=
  match headers "X-Server-Version" with
  | Some ver_str => version_parse ver_str
  | None => version_parse "2.0.0"
  end.
Definition min_cluster_version (headers : string -> option string) : result Version SemverError :=
  match headers "X-Min-Cluster-Version" with
  | Some ver_str => version_parse ver_str
  | None => version_parse "2.0.0"
  end.

Definition check_version_compatibility (name : string) (server min_cluster : Version) :
    outcome (result (Version * Version) IoError) :=
  local_server ← result_unwrap (version_parse server_Version);
  local_min_cluster ← result_unwrap (version_parse MinClusterVersion);
  if compare_major_minor_version server local_min_cluster =? -1 then
    mret (Err (other_error ("remote version is too low: remote[" +:+ name +:+ "]=" +:+ version_to_string server
                            +:+ ", local=" +:+ version_to_string local_server)))
  else if compare_major_minor_version min_cluster local_min_cluster =? 1 then
    mret (Err (other_error ("local version is too low: remote[" +:+ name +:+ "]=" +:+ version_to_string server
                            +:+ ", local=" +:+ version_to_string local_server)))
  else mret (Ok (local_server, local_min_cluster)).
End versions.

Class SemverLaws `{SemverCrate} := {
  (** Versions are ordered by their numbers first. *)
  version_cmp_numbers (a b : Version) : patch a = patch b -> pre a = pre b -> build a = build b ->
    version_cmp a b = match major a ?= major b with Eq => minor a ?= minor b | c => c end;
  parse_min_cluster : exists v, version_parse MinClusterVersion = Ok v /\ major v = 3 /\ minor v = 0;
  parse_server : exists v, version_parse server_Version = Ok v /\ major v = 3 /\ minor v = 6
}.

Section version_facts.
Context `{SemverLaws}.

(** The order of the first two numbers. *)
Definition before (a b : Z * Z) : Prop := a.1 < b.1 \/ a.1 = b.1 /\ a.2 < b.2.
Definition numbers (v : Version) : Z * Z := (major v, minor v).

Lemma compare_correct a b :
  (compare_major_minor_version a b = -1 <-> before (numbers a) (numbers b)) /\
  (compare_major_minor_version a b = 0 <-> numbers a = numbers b) /\
  (compare_major_minor_version a b = 1 <-> before (numbers b) (numbers a)).
Proof using All.
  unfold compare_major_minor_version. rewrite version_cmp_numbers by done. cbv zeta. simpl. unfold before, numbers. simpl.
  destruct (Z.compare_spec (major a) (major b)) as [E| |]; [destruct (Z.compare_spec (minor a) (minor b))|..];
    (split_and!; split; intros Hx; try discriminate Hx; try (injection Hx as Hx); try lia; f_equal; lia).
Qed.

(** A peer is accepted exactly if its version is at least the minimal cluster version of
    this server and its minimal cluster version is at most that one too, counting the major
    and minor numbers; what is answered then is this server's version and minimal cluster
    version, and the first of the two that fails decides about the error.  Nothing panics. *)
Theorem check_version_compatibility_correct name server min_cluster : exists ls lmc,
  numbers ls = (3, 6) /\ numbers lmc = (3, 0) /\
  (check_version_compatibility name server min_cluster = Ret (Ok (ls, lmc)) <->
     ~ before (numbers server) (3, 0) /\ ~ before (3, 0) (numbers min_cluster)) /\
  (check_version_compatibility name server min_cluster =
     Ret (Err (other_error ("remote version is too low: remote[" +:+ name +:+ "]=" +:+ version_to_string server
                            +:+ ", local=" +:+ version_to_string ls))) <-> before (numbers server) (3, 0)) /\
  (check_version_compatibility name server min_cluster =
     Ret (Err (other_error ("local version is too low: remote[" +:+ name +:+ "]=" +:+ version_to_string server
                            +:+ ", local=" +:+ version_to_string ls))) <->
     ~ before (numbers server) (3, 0) /\ before (3, 0) (numbers min_cluster)).
Proof using All.
  destruct parse_server as (ls & Els & Ea & Eb), parse_min_cluster as (lmc & Elmc & Ec & Ed).
  exists ls, lmc. unfold check_version_compatibility. rewrite Els, Elmc. simpl.
  assert (numbers lmc = (3, 0)) as Hmin by (unfold numbers; by rewrite Ec, Ed).
  split; [unfold numbers; by rewrite Ea, Eb|]. split; [done|].
  destruct (compare_correct server lmc) as (Hlow & _), (compare_correct min_cluster lmc) as (_ & _ & Hhigh). rewrite Hmin in Hlow, Hhigh.
  destruct (Z.eqb_spec (compare_major_minor_version server lmc) (-1)) as [E|E].
  - rewrite Hlow in E. split_and!; split; try done; try tauto; intros; discriminate.
  - rewrite Hlow in E. destruct (Z.eqb_spec (compare_major_minor_version min_cluster lmc) 1) as [E'|E']; rewrite Hhigh in E'.
    + split_and!; split; try done; try tauto; intros; try discriminate; tauto.
    + split_and!; split; try done; try tauto; intros; try discriminate; tauto.
Qed.
End version_facts.

(** ** Requests and answers *)
Class Http `{UrlCrate} := {
  set_path : string -> Url -> Url;
  Builder : Type; Request : Type; Response : Type; HttpError : Type;
  request_builder : Builder;
  method_post : Builder -> Builder;
  uri : string -> Builder -> Builder;
  header : string -> string -> Builder -> Builder;
  body : list Byte.byte -> Builder -> result Request HttpError;
  request_uri : Request -> string;
  (** A header's text, if it is there and visible. *)
  request_header : Request -> string -> option string;
  response_header : Response -> string -> option string;
  status : Response -> Z;
  status_to_string : Z -> string;
  (** The first chunk of the body. *)
  response_data : Response -> option (result (list Byte.byte) HttpError)
}.

Section requests.
Context `{Http}.
Local Open Scope string_scope.

Definition id_text (id : ID.t) : string := str (ID.to_string id).
Definition set_peer_urls_header (req : Builder) (urls : URLs.t) : Builder :=
  if (URLs.len urls =? 0)%Z then req else header "X-PeerURLs" (URLs.to_string urls) req.

Definition create_POST_request (u : Url) (path : string) (data : list Byte.byte) (ct : string)
    (urls : URLs.t) (from cid : ID.t) : result Request HttpError :=
  let uu := set_path path u in
  let req := header "X-Etcd-Cluster-ID" (id_text cid)
    (header "X-Min-Cluster-Version" MinClusterVersion
    (header "X-Server-Version" server_Version
    (header "X-Server-From" (id_text from)
    (header "Content-Type" ct
    (uri (as_str uu) (method_post request_builder)))))) in
  body data (set_peer_urls_header req urls).

Definition PRECONDITION_FAILED : Z := 412.
Definition FORBIDDEN : Z := 403.
Definition NO_CONTENT : Z := 204.

(** The log entry about another cluster reads a header of both sides, which must be there. *)
Definition check_post_response (resp : Response) (req : Request) : outcome (result unit IoError) :=
  if (status resp =? PRECONDITION_FAILED)%Z then
    frame ← or_panic (response_data resp);
    data ← result_unwrap frame;
    let body_str := text (trim_end (from_utf8_lossy data)) in
    if contains (CustomError_to_string IncompatibleVersion) body_str then mret (Err (other_error body_str))
    else if contains (CustomError_to_string ClusterIDMismatch) body_str then
      _ ← or_panic (response_header resp "X-Etcd-Cluster-ID");
      _ ← or_panic (request_header req "X-Etcd-Cluster-ID");
      mret (Err (other_error body_str))
    else mret (Err (other_error ""))
  else if (status resp =? FORBIDDEN)%Z then mret (Err (other_error (CustomError_to_string MemberRemoved)))
  else if (status resp =? NO_CONTENT)%Z then mret (Ok tt)
  else mret (Err (other_error ("unexpected https status " +:+ status_to_string (status resp)
                               +:+ " while posting to " +:+ request_uri req))).

(** When this panics: the answer [412] has no body that can be read, or tells of another cluster and the
    answer or the request does not name one. *)
Definition check_crashes (resp : Response) (req : Request) : bool :=
  (status resp =? PRECONDITION_FAILED)%Z &&
  match response_data resp with
  | Some (Ok data) =>
      let body_str := text (trim_end (from_utf8_lossy data)) in
      negb (contains (CustomError_to_string IncompatibleVersion) body_str)
      && contains (CustomError_to_string ClusterIDMismatch) body_str
      && (bool_decide (response_header resp "X-Etcd-Cluster-ID" = None) || bool_decide (request_header req "X-Etcd-Cluster-ID" = None))
  | _ => true
  end.
Lemma check_crashes_spec resp req :
  if check_crashes resp req then check_post_response resp req = Panic else exists r, check_post_response resp req = Ret r.
Proof.
  unfold check_crashes, check_post_response, or_panic, result_unwrap. destruct (status resp =? PRECONDITION_FAILED)%Z; simpl.
  - destruct (response_data resp) as [[data|]|]; simpl; [|done..]. destruct (contains _ _); simpl; [by eexists|]. destruct (contains _ _); simpl; [|by eexists].
    destruct (response_header resp _), (request_header req _); simpl; (done || by eexists).
  - repeat case_match; by eexists.
Qed.

Lemma check_post_response_ok resp req : check_post_response resp req = Ret (Ok tt) <-> status resp = NO_CONTENT.
Proof.
  unfold check_post_response, PRECONDITION_FAILED, FORBIDDEN, NO_CONTENT.
  destruct (Z.eqb_spec (status resp) 412) as [->|]; [|destruct (Z.eqb_spec (status resp) 403) as [->|]; [|by destruct (Z.eqb_spec (status resp) 204)]]; [|by split].
  destruct (response_data resp) as [[data|]|]; simpl; [|by split..]. destruct (contains _ _); [by split|]. destruct (contains _ _); [|by split].
  destruct (response_header resp _); simpl; [|by split]. destruct (request_header req _); by split.
Qed.
End requests.

(** ** Readers *)

(** [std::io::Read]: what is read into a buffer of some length. *)
Class Read (R : Type) := read : Z -> R -> result (list Byte.byte) IoError * R.
(** A buffer after something was read into its beginning. *)
Definition fill (data p : list Byte.byte) : list Byte.byte := data ++ drop (length data) p.

Module LimitedBufferReader.
Section limited.
Context {R} `{Read R}.
Record t : Type := mk { r : R; n : Z }.
Definition new (r : R) (n : Z) : t := mk r n.
Definition read (self : t) (p : list Byte.byte) : result Z IoError * list Byte.byte * t :=
  let '(res, r') := Wire.read (if n self <? len p then n self else len p) (r self) in
  match res with
  | Ok data => (Ok (len data), fill data p, mk r' (n self))
  | Err e => (Err e, p, mk r' (n self))
  end.
End limited.
Arguments t : clear implicits.
End LimitedBufferReader.

Module ExactReaderCloser.
Section exact.
Context {R} `{Read R}.
Record t : Type := mk { rc : R; br : Z; total_bytes : Z }.
#[global] Instance eta_t : Eta t := fun s => mk (rc s) (br s) (total_bytes s).
#[global] Instance set_rc : Setter rc := ltac:(derive_setter).
#[global] Instance set_br : Setter br := ltac:(derive_setter).
Definition new (rc : R) (total_bytes : Z) : t := mk rc 0 total_bytes.
Definition wrap_i64 (z : Z) : Z := (z + 9223372036854775808) mod U64_MOD - 9223372036854775808.
(** What was read is in the buffer, whatever is returned. *)
Definition read (p : list Byte.byte) : Prog t (result Z Error * list Byte.byte) :=
  self ← get;
  let '(res, rc') := Wire.read (len p) (rc self) in
  data ← lift (result_unwrap res);
  modify (fun self => self <| rc := rc' |>);;
  modify (fun self => self <| br := wrap_i64 (br self + len data) |>);;
  self ← get;
  if total_bytes self <? br self then mret (Err ErrExpectEOF, fill data p)
  else if (br self <? total_bytes self) && (len data =? 0) then mret (Err ErrShortRead, fill data p)
  else mret (Ok (len data), fill data p).
End exact.
Arguments t : clear implicits.
End ExactReaderCloser.

Section exact_facts.
Import ExactReaderCloser.
Context {R : Type} `{Read R} (contents : R -> list Byte.byte).
(** A reader that does not fail gives the beginning of what is left, at least a byte if there is one. *)
Hypothesis read_correct : forall cap r, 0 < cap -> exists data r', Wire.read cap r = (Ok data, r') /\
  contents r = data ++ contents r' /\ len data <= cap /\ (data = [] -> contents r = []).

(** A client that reads until the end with a buffer [p]. *)
Fixpoint read_all (fuel : nat) (p acc : list Byte.byte) : Prog (ExactReaderCloser.t R) (result (list Byte.byte) Error) :=
  match fuel with
  | O => fun _ => OutOfFuel
  | S fuel =>
      x ← ExactReaderCloser.read p;
      match x.1 with
      | Err e => mret (Err e)
      | Ok n => if n =? 0 then mret (Ok acc) else read_all fuel p (acc ++ take (Z.to_nat n) x.2)
      end
  end.

Lemma wrap_i64_small z : -9223372036854775808 <= z < 9223372036854775808 -> wrap_i64 z = z.
Proof. intros Hz. unfold wrap_i64, U64_MOD. rewrite Z.mod_small; lia. Qed.
Lemma take_fill data p : take (Z.to_nat (len data)) (fill data p) = data.
Proof. unfold fill, len. by rewrite Nat2Z.id, take_app_length. Qed.

Lemma read_all_run fuel p acc (s : ExactReaderCloser.t R) : p <> [] -> (length (contents (rc s)) < fuel)%nat ->
  0 <= br s <= total_bytes s -> total_bytes s < 2 ^ 63 -> br s + len (contents (rc s)) < 2 ^ 63 ->
  exists s', read_all fuel p acc s = Ret
    (if total_bytes s <? br s + len (contents (rc s)) then Err ErrExpectEOF
     else if br s + len (contents (rc s)) <? total_bytes s then Err ErrShortRead
     else Ok (acc ++ contents (rc s)), s').
Proof using read_correct.
  intros Hp. assert (0 < len p) as Hcap by (destruct p as [|x p]; [done|]; rewrite len_cons; pose proof (len_nonneg p); lia).
  revert acc s. induction fuel as [|fuel IH]; intros acc s Hfuel Hbr Ht Hl; [lia|].
  destruct (read_correct (len p) (rc s) Hcap) as (data & r' & E & Hc & Hd & Hend).
  pose proof (len_nonneg data). pose proof (len_nonneg (contents r')).
  assert (len (contents (rc s)) = len data + len (contents r')) as Hlen by (by rewrite Hc, len_app).
  set (s' := s <| rc := r' |> <| br := br s + len data |>).
  assert (ExactReaderCloser.read p s = Ret
    (if total_bytes s <? br s + len data then (Err ErrExpectEOF, fill data p)
     else if (br s + len data <? total_bytes s) && (len data =? 0) then (Err ErrShortRead, fill data p)
     else (Ok (len data), fill data p), s')) as Er.
  { unfold ExactReaderCloser.read. erewrite bind_run by done. rewrite E. unfold lift, result_unwrap. prog_unfold. fields.
    rewrite wrap_i64_small by lia. subst s'. fields. by repeat case_match. }
  simpl. erewrite bind_run by exact Er. clear E Er.
  destruct (Z.ltb_spec (total_bytes s) (br s + len data)).
  - exists s'. simpl. rewrite (proj2 (Z.ltb_lt _ _)) by lia. done.
  - destruct (Z.eqb_spec (len data) 0) as [E0|E0].
    + apply len_zero_nil in E0 as ->. specialize (Hend eq_refl). rewrite Hend in *. rewrite len_nil in *.
      exists s'. rewrite andb_true_r, Z.add_0_r. rewrite (proj2 (Z.ltb_ge (total_bytes s) _)) by lia.
      destruct (br s <? total_bytes s); simpl; [done|]. by rewrite app_nil_r.
    + rewrite andb_false_r. cbn [fst snd]. rewrite (proj2 (Z.eqb_neq _ _) E0), take_fill.
      destruct (IH (acc ++ data) s') as (s2 & E2); subst s'; fields; rewrite ?length_app in *.
      * unfold len in *. lia.
      * lia.
      * lia.
      * lia.
      * exists s2. rewrite E2. rewrite Hlen. rewrite !Z.add_assoc. by rewrite <-app_assoc, <-Hc.
Qed.

(** A reader that must give an exact number of bytes, read to its end with a buffer of
    any size: what it holds is read if it has this many bytes; if it has fewer, the end is
    reported as a short read, and if it has more, as a missing end. *)
Theorem exact_reader_correct (r : R) (total : Z) (p : list Byte.byte) (fuel : nat) :
  p <> [] -> 0 <= total < 2 ^ 63 -> len (contents r) < 2 ^ 63 -> (length (contents r) < fuel)%nat ->
  exists s', read_all fuel p [] (ExactReaderCloser.new r total) = Ret
    (if total <? len (contents r) then Err ErrExpectEOF
     else if len (contents r) <? total then Err ErrShortRead
     else Ok (contents r), s').
Proof using All. intros Hp Ht Hl Hf. apply (read_all_run fuel p [] (ExactReaderCloser.new r total)); simpl; done || lia. Qed.
End exact_facts.

(** ** Witnesses *)
Section witnesses.
(** A version without any check of its text. *)
Fixpoint cut (c : ascii) (s : list ascii) : list ascii * list ascii :=
  match s with
  | [] => ([], [])
  | x :: s => if Ascii.eqb x c then ([], s) else let '(a, b) := cut c s in (x :: a, b)
  end.
#[local] Instance plain_semver : Semver := {| Prerelease := list ascii; pre_default := []; BuildMetadata := list ascii; build_default := [] |}.
Definition plain_parse (s : string) : result Version ParseIntError :=
  let '(s, b) := cut "+" (list_ascii_of_string s) in
  let '(s, p) := cut "-" s in
  let '(x, s) := cut "." s in
  let '(y, z) := cut "." s in
  x ←! from_str_radix 10 x; y ←! from_str_radix 10 y; z ←! from_str_radix 10 z;
  Ok {| major := x; minor := y; patch := z; pre := p; build := b |}.
Definition plain_cmp (a b : Version) : comparison :=
  match major a ?= major b with
  | Eq => match minor a ?= minor b with Eq => patch a ?= patch b | c => c end
  | c => c
  end.
#[local] Instance plain_crate : SemverCrate := {|
  SemverError := ParseIntError; version_parse := plain_parse; version_cmp := plain_cmp; version_to_string := fun _ => ""%string
|}.
#[local] Instance plain_laws : SemverLaws.
Proof.
  split.
  - intros a b Hp _ _. simpl. unfold plain_cmp. rewrite Hp, Z.compare_refl. by repeat case_match.
  - eexists. split_and!; reflexivity.
  - eexists. split_and!; reflexivity.
Qed.
Definition version (x y : Z) : Version := {| major := x; minor := y; patch := 0; pre := []; build := [] |}.
(** The version of this server as a minimal cluster version is too new for it. *)
Lemma check_version_compatibility_correct_witness :
  (exists r, check_version_compatibility "a" (version 3 4) (version 3 0) = Ret (Ok r)) /\
  (exists e, check_version_compatibility "a" (version 3 6) (version 3 6) = Ret (Err e)).
Proof.
  destruct (check_version_compatibility_correct "a" (version 3 4) (version 3 0)) as (ls & lmc & _ & _ & [_ Hok] & _ & _).
  destruct (check_version_compatibility_correct "a" (version 3 6) (version 3 6)) as (ls' & lmc' & _ & _ & _ & _ & [_ Hnew]).
  split; eexists; [apply Hok; unfold before, numbers; simpl; lia|apply Hnew; unfold before, numbers; simpl; lia].
Defined.

(** A reader of bytes in memory. *)
#[local] Instance memory : Read (list Byte.byte) := fun cap s => (Ok (take (Z.to_nat cap) s), drop (Z.to_nat cap) s).
Definition hello : list Byte.byte := list_byte_of_string "hello".
Lemma exact_reader_correct_witness :
  (exists s', read_all 6 [Byte.x00; Byte.x00; Byte.x00] [] (ExactReaderCloser.new hello 5) = Ret (Ok hello, s')) /\
  (exists s', read_all 6 [Byte.x00; Byte.x00; Byte.x00] [] (ExactReaderCloser.new hello 6) = Ret (Err ErrShortRead, s')).
Proof.
  assert (forall cap (r : list Byte.byte), 0 < cap -> exists data r', Wire.read cap r = (Ok data, r') /\
    id r = data ++ id r' /\ len data <= cap /\ (data = [] -> id r = [])) as Hr.
  { intros cap r Hc. exists (take (Z.to_nat cap) r), (drop (Z.to_nat cap) r). split_and!; [done|symmetry; apply take_drop| |].
    - unfold len. rewrite length_take. lia.
    - destruct r; [done|]. destruct (Z.to_nat cap) eqn:E; [lia|done]. }
  split.
  - apply (exact_reader_correct id Hr hello 5 [Byte.x00; Byte.x00; Byte.x00] 6); [done|lia|done|simpl; lia].
  - apply (exact_reader_correct id Hr hello 6 [Byte.x00; Byte.x00; Byte.x00] 6); [done|lia|done|simpl; lia].
Defined.
End witnesses.
