(* ===== verification/SnapFiles.v ===== *)
(** * Snapshot files ([rafthttp/snap/snap_shotter.rs], [util/util.rs])

    Saving snapshots to files, loading one of them, and removing what is left over.  A disk
    maps paths to files with their modes; whether the process may read and write a file of
    its own depends on the mode ([Process]).  An operation of the file system can fail, which
    a list of faults decides, and a directory is listed in an order of the system's choice
    ([ReadDir]).  The codec of the files and the checksum are parameters. *)

From S2P Require Import Prelude Proto Peers.

(** ** Text and paths of the standard library *)
Abbreviation text := (list ascii).
Definition lit (s : string) : text := String.list_ascii_of_string s.
#[local] Open Scope char_scope.
#[local] Open Scope Z_scope.

Fixpoint strip_prefix (p s : text) : option text :=
  match p, s with
  | [], _ => Some s
  | a :: p, b :: s => if Ascii.eqb a b then strip_prefix p s else None
  | _ :: _, [] => None
  end.
Definition starts_with (p s : text) : bool := if strip_prefix p s then true else false.
Definition ends_with (p s : text) : bool := starts_with (rev p) (rev s).
(** A pattern that is not empty is found at most as often as the text is long. *)
Fixpoint strip_all (fuel : nat) (p s : text) : text :=
  match fuel with
  | O => s
  | S fuel => match strip_prefix p s with Some s' => strip_all fuel p s' | None => s end
  end.
Definition trim_end_matches (p s : text) : text := rev (strip_all (length s) (rev p) (rev s)).

(** [PathBuf::push] *)
Definition join (dir name : text) : text :=
  match name with
  | "/" :: _ => name
  | _ => match last dir with
         | None => name
         | Some "/" => dir ++ name
         | Some _ => dir ++ "/" :: name
         end
  end.
(** What is before and after the first [c]. *)
Fixpoint cut (c : ascii) (s : text) : text * option text :=
  match s with
  | [] => ([], None)
  | a :: s => if Ascii.eqb a c then ([], Some s) else let '(x, y) := cut c s in (a :: x, y)
  end.
(** [Path::file_name] of a path that does not end in a slash or [..]. *)
Definition file_name (path : text) : text := rev (cut "/" (rev path)).1.
(** [PathBuf::set_extension]: what is after the last dot of the file name changes, if there
    is something before it. *)
Definition set_extension (ext path : text) : text :=
  match cut "." (rev (file_name path)) with
  | (old, Some (_ :: _)) => take (length path - length old - 1) path ++ "." :: ext
  | _ => path ++ "." :: ext
  end.

(** ** The disk *)
Module File.
Record t : Type := mk { mode : Z; content : list Byte.byte }.
#[global] Instance eta_t : Eta t := fun s => mk (mode s) (content s).
#[global] Instance set_content : Setter content := ltac:(derive_setter).
End File.

(** The process: its mask for the modes of new files, and whether the system lets it read
    and write every file (as it does the superuser). *)
Class Process := { file_mask : Z; privileged : bool }.

Record Disk := MkDisk {
  files : gmap text File.t;
  (** Whether the next operations fail, and how many bytes a failing [write_all] has written. *)
  faults : list (option (IoError * nat))
}.
#[global] Instance eta_disk : Eta Disk := fun s => MkDisk (files s) (faults s).
#[global] Instance set_files : Setter files := ltac:(derive_setter).
#[global] Instance set_faults : Setter faults := ltac:(derive_setter).

Abbreviation IO A := (Prog Disk (result A IoError)).

(** The order in which the names of the files of a directory are listed. *)
Class ReadDir := read_dir_order : gmap text File.t -> text -> list text.

Section disk.
Context `{Process}.

(** The rights of the owner of a file, which is the process: the bits 0400 and 0200 of the mode. *)
Definition may_read (f : File.t) : bool := privileged || Z.testbit (File.mode f) 8.
Definition may_write (f : File.t) : bool := privileged || Z.testbit (File.mode f) 7.

Definition fault : Prog Disk (option (IoError * nat)) :=
  d ← get;
  match faults d with
  | [] => mret None
  | f :: fs => modify (fun d => d <| faults := fs |>);; mret f
  end.
(** An operation that has no effect if it fails. *)
Definition sys {A} (op : IO A) : IO A :=
  f ← fault; match f with Some (e, _) => mret (Err e) | None => op end.
Definition not_found : IoError := Io NotFound "No such file or directory".

Definition permission_denied : IoError := Io OsError "Permission denied".

(** [OpenOptions::new().write(true).create(true).truncate(true).mode(perm).open(path)]: a new file gets the
    mode, and can be written by who made it whatever its mode is. *)
Definition open_truncate (path : text) (perm : Z) : IO unit :=
  sys (d ← get;
       match files d !! path with
       | None => modify (fun d => d <| files := <[path := File.mk (Z.land perm (Z.lnot file_mask)) []]> (files d) |>);; mret (Ok tt)
       | Some f =>
           if may_write f then modify (fun d => d <| files := <[path := f <| File.content := [] |>]> (files d) |>);; mret (Ok tt)
           else mret (Err permission_denied)
       end).
(** The path stands for the file that was opened. *)
Definition put_content (path : text) (c : list Byte.byte) : Prog Disk unit :=
  modify (fun d => d <| files := alter (fun f => f <| File.content := c |>) path (files d) |>).
Definition write_all (path : text) (content : list Byte.byte) : IO unit :=
  f ← fault;
  match f with
  | Some (e, n) => put_content path (take n content);; mret (Err e)
  | None => put_content path content;; mret (Ok tt)
  end.
Definition sync_all : IO unit := sys (mret (Ok tt)).
Definition fs_read (path : text) : IO (list Byte.byte) :=
  sys (d ← get; mret (match files d !! path with
                      | Some f => if may_read f then Ok (File.content f) else Err permission_denied
                      | None => Err not_found
                      end)).
Definition remove_file (path : text) : IO unit :=
  sys (d ← get;
       match files d !! path with
       | Some _ => modify (fun d => d <| files := delete path (files d) |>);; mret (Ok tt)
       | None => mret (Err not_found)
       end).
Definition rename (from to : text) : IO unit :=
  sys (d ← get;
       match files d !! from with
       | Some c => modify (fun d => d <| files := <[to := c]> (delete from (files d)) |>);; mret (Ok tt)
       | None => mret (Err not_found)
       end).
Definition read_dir `{ReadDir} (dir : text) : IO (list text) :=
  sys (d ← get; mret (Ok (read_dir_order (files d) dir))).
(** The next entry of a directory that is being read. *)
Definition next_entry (name : text) : IO text := sys (mret (Ok name)).

(** [util::write_and_sync_file] *)
Definition write_and_sync_file (filename : text) (content : list Byte.byte) (perm : Z) : IO unit :=
  _ ←? open_truncate filename perm;
  _ ←? write_all filename content;
  _ ←? sync_all;
  mret (Ok tt).
End disk.

(** ** Files of snapshots *)

(** The message [snappb::Snapshot]. *)
Module Snap.
Record t : Type := mk { crc : Z; data : list Byte.byte }.
Definition default : t := mk 0 [].
#[global] Instance eta_t : Eta t := fun s => mk (crc s) (data s).
#[global] Instance set_crc : Setter crc := ltac:(derive_setter).
#[global] Instance set_data : Setter data := ltac:(derive_setter).
End Snap.

Class SnapCodec := {
  snap_write : Snap.t -> list Byte.byte;
  snap_parse : list Byte.byte -> option Snap.t;
  snapshot_write : Snapshot.t -> list Byte.byte;
  snapshot_parse : list Byte.byte -> option Snapshot.t
}.
(** What the crate [protobuf] promises. *)
Class SnapCodecLaws `{SnapCodec} := {
  snap_parse_write s : snap_parse (snap_write s) = Some s;
  snapshot_parse_write s : snapshot_parse (snapshot_write s) = Some s;
  snap_parse_empty : snap_parse [] = Some Snap.default;
  snapshot_parse_empty : snapshot_parse [] = Some Snapshot.default
}.
(** The crate [crc]. *)
Class Crc := {
  Digest : Type;
  crc_digest : Digest;
  crc_update : list Byte.byte -> Digest -> Digest;
  crc_finalize : Digest -> Z
}.

Definition snap_suffix : text := lit ".snap".

Module SnapShotter.
Record t : Type := new { dir : text }.

Section shotter.
Context `{Process} `{ReadDir} `{SnapCodec} `{Crc}.
Implicit Types self : t.

(** [digest] is a constant: every use of it is a new value. *)
Definition digest : Digest := crc_digest.

Definition save self (snap : Snapshot.t) : IO unit :=
  let fname := print_radix 10 (SnapshotMetadata.index (Snapshot.metadata snap)) ++ "-"
               :: print_radix 10 (SnapshotMetadata.term (Snapshot.metadata snap)) ++ snap_suffix in
  let data := snapshot_write snap in
  let _ := crc_update data digest in
  let crc := crc_finalize digest in
  let snapshot := Snap.default <| Snap.crc := crc |> <| Snap.data := data |> in
  let d := snap_write snapshot in
  write_and_sync_file (join (dir self) fname) d 102. (* 0x66 *)

Definition save_snap self (snap : Snapshot.t) : IO unit :=
  if Snapshot_is_empty snap then panic else save self snap.

(** The loop of [snap_names]. *)
Fixpoint collect_names self (entries : list text) (snaps : list text) : IO (list text) :=
  match entries with
  | [] => mret (Ok snaps)
  | entry :: entries =>
      entry ←? next_entry entry;
      if ends_with snap_suffix (join (dir self) entry) then collect_names self entries (snaps ++ [entry])
      else collect_names self entries snaps
  end.
Definition snap_names self : IO (list text) :=
  entries ←? read_dir (dir self);
  collect_names self entries [].

(** The names are removed as they are, without the directory. *)
Fixpoint cleanup_loop (file_names : list text) (names : list text) : IO (list text) :=
  match file_names with
  | [] => mret (Ok names)
  | name :: file_names =>
      if starts_with (lit "db.tmp") name then
        _ ←? remove_file name;
        cleanup_loop file_names names
      else cleanup_loop file_names (names ++ [name])
  end.
Definition cleanup_snapdir self (file_names : list text) : IO (list text) := cleanup_loop file_names [].

(** Entries that cannot be read are left out. *)
Fixpoint readable_entries (entries : list text) : Prog Disk (list text) :=
  match entries with
  | [] => mret []
  | entry :: entries =>
      r ← next_entry entry;
      match r with
      | Err _ => readable_entries entries
      | Ok entry =>
          t ← sys (mret (Ok tt)); (* [file_type] *)
          rest ← readable_entries entries;
          mret (match t with Ok _ => entry :: rest | Err _ => rest end)
      end
  end.
Fixpoint release_loop self (index : Z) (filenames : list text) : IO unit :=
  match filenames with
  | [] => mret (Ok tt)
  | name :: filenames =>
      if ends_with (lit ".snap.db") name then
        let hex_index := trim_end_matches (lit ".snap.db") name in
        match from_str_radix 10 hex_index with
        | Err _ => panic
        | Ok i =>
            if i <? index then
              _ ←? remove_file (join (dir self) name);
              release_loop self index filenames
            else release_loop self index filenames
        end
      else release_loop self index filenames
  end.
Definition release_snapdbs self (snap : Snapshot.t) : IO unit :=
  entries ←? read_dir (dir self);
  filenames ← readable_entries entries;
  release_loop self (SnapshotMetadata.index (Snapshot.metadata snap)) filenames.

(** [read] *)
Definition read (snap_name : text) : IO Snapshot.t :=
  snap ←? fs_read snap_name;
  match snap with
  | [] => mret (Err (Io Other "empty snapshot file"))
  | _ =>
      serializedSnap ← unwrap (snap_parse snap);
      let _ := crc_update (Snap.data serializedSnap) digest in
      let crc := crc_finalize digest in
      if negb (crc =? Snap.crc serializedSnap) then mret (Err (Io Other "crc mismatch"))
      else
        snap ← unwrap (snapshot_parse (Snap.data serializedSnap));
        mret (Ok snap)
  end.

(** [load_snap]: a file that cannot be read gets another extension. *)
Definition load_snap (dir name : text) : IO Snapshot.t :=
  let fpath := join dir name in
  snap ← read fpath;
  match snap with
  | Err _ =>
      let broken_path := set_extension (lit "broken") fpath in
      _ ←? rename fpath broken_path;
      mret (Err (Io Other "failed to renamed snap file"))
  | Ok snap => mret (Ok snap)
  end.

Fixpoint load_loop self (match_fn : Snapshot.t -> bool) (names : list text) : IO Snapshot.t :=
  match names with
  | [] => mret (Err (Io NotFound "no matching snapshot found"))
  | name :: names =>
      r ← load_snap (dir self) name;
      match r with
      | Ok snap => if match_fn snap then mret (Ok snap) else load_loop self match_fn names
      | Err _ => load_loop self match_fn names
      end
  end.
Definition load_matching self (match_fn : Snapshot.t -> bool) : IO Snapshot.t :=
  r ← snap_names self;
  names ← unwrap (match r with Ok names => Some names | Err _ => None end);
  load_loop self match_fn names.
Definition load self : IO Snapshot.t := load_matching self (fun _ => true).

(** [check_suffix]: other names are only worth a warning. *)
Fixpoint check_suffix (names : list text) : list text :=
  match names with
  | [] => []
  | name :: names => if ends_with snap_suffix name then name :: check_suffix names else check_suffix names
  end.
End shotter.
End SnapShotter.

(** ** Paths *)
Section paths.
Implicit Types p s dir name : text.

Lemma strip_prefix_app p s : strip_prefix p (p ++ s) = Some s.
Proof. induction p as [|a p IH]; simpl; [done|]. by rewrite Ascii.eqb_refl. Qed.
Lemma strip_prefix_Some p s t : strip_prefix p s = Some t -> s = p ++ t.
Proof.
  revert s. induction p as [|a p IH]; intros [|b s]; simpl; try congruence.
  destruct (Ascii.eqb_spec a b) as [->|]; [|done]. by intros ->%IH.
Qed.
Lemma ends_with_spec p s : ends_with p s = true <-> exists t, s = t ++ p.
Proof.
  unfold ends_with, starts_with. split.
  - destruct (strip_prefix (rev p) (rev s)) as [t|] eqn:E; [|done]. intros _. apply strip_prefix_Some in E.
    exists (rev t). by rewrite <-(rev_involutive s), E, rev_app_distr, rev_involutive.
  - intros [t ->]. by rewrite rev_app_distr, strip_prefix_app.
Qed.

(** A name in a directory: not a path of its own. *)
Definition plain name : Prop := name <> [] /\ "/" ∉ name.
Definition dir_prefix dir : text :=
  match last dir with None => [] | Some "/" => dir | Some _ => dir ++ ["/"] end.
Lemma join_plain dir name : plain name -> join dir name = dir_prefix dir ++ name.
Proof.
  intros [Hn Hs]. unfold join, dir_prefix. destruct name as [|c name]; [done|].
  assert (c <> "/") as Hc by (intros ->; apply Hs; left).
  transitivity (match last dir with None => c :: name | Some "/" => dir ++ c :: name | Some _ => dir ++ "/" :: c :: name end).
  { destruct c as [[] [] [] [] [] [] [] []]; done. }
  destruct (last dir) as [l|] eqn:E.
  - destruct l as [[] [] [] [] [] [] [] []]; rewrite <-?app_assoc; done.
  - done.
Qed.
Lemma join_inj dir n1 n2 : plain n1 -> plain n2 -> join dir n1 = join dir n2 -> n1 = n2.
Proof. intros H1 H2. rewrite !join_plain by done. apply app_inv_head. Qed.
Lemma join_suffix dir name : plain name -> ends_with snap_suffix name = true -> ends_with snap_suffix (join dir name) = true.
Proof. intros Hn [t ->]%ends_with_spec. rewrite join_plain by done. apply ends_with_spec. eexists. by rewrite app_assoc. Qed.

Lemma broken_no_snap path : ends_with snap_suffix (set_extension (lit "broken") path) = false.
Proof.
  unfold ends_with, starts_with, set_extension.
  assert (forall s, strip_prefix (rev snap_suffix) (rev (s ++ "." :: lit "broken")) = None) as E.
  { intros s. by rewrite rev_app_distr. }
  by repeat case_match; rewrite ?E in *.
Qed.
End paths.

(** ** Running on a disk *)
Section running.
Context `{Process}.
Lemma fault_inv d f d' : fault d = Ret (f, d') -> files d' = files d.
Proof. unfold fault. prog_unfold. destruct (faults d); intros [= _ <-]; done. Qed.
Lemma fault_total d : exists f d', fault d = Ret (f, d').
Proof. unfold fault. prog_unfold. destruct (faults d); eauto. Qed.
Lemma io_inv {A B} (m : IO A) (f : A -> IO B) d r d' : try_bind m f d = Ret (r, d') ->
  exists r1 d1, m d = Ret (r1, d1) /\ match r1 with Ok a => f a d1 = Ret (r, d') | Err e => r = Err e /\ d' = d1 end.
Proof.
  unfold try_bind. prog_unfold. destruct (m d) as [[r1 d1]| |]; [|done..]. intros E. exists r1, d1. split; [done|].
  destruct r1; [done|]. simpl in E. by injection E as <- <-.
Qed.
Lemma sys_inv {A} (op : IO A) d r d' : sys op d = Ret (r, d') ->
  exists d1, files d1 = files d /\ ((exists e, r = Err e) /\ d' = d1 \/ op d1 = Ret (r, d')).
Proof.
  unfold sys. prog_unfold. destruct (fault_total d) as (f & d1 & E). rewrite E. apply fault_inv in E.
  intros Hr. exists d1. split; [done|]. destruct f as [[e n]|]; [|by right]. left. injection Hr as <- <-. eauto.
Qed.
Lemma sys_total {A} (op : IO A) : (forall d, exists r d', op d = Ret (r, d')) -> forall d, exists r d', sys op d = Ret (r, d').
Proof. intros Ht d. unfold sys. prog_unfold. destruct (fault_total d) as (f & d1 & ->). destruct f as [[e n]|]; [eauto|apply Ht]. Qed.

(** A disk on which nothing fails. *)
Definition quiet (fs : gmap text File.t) : Disk := MkDisk fs [].
Lemma sys_quiet {A} (op : IO A) fs : sys op (quiet fs) = op (quiet fs).
Proof. done. Qed.

(** What the process can read at a path. *)
Definition reads (fs : gmap text File.t) (path : text) : option (list Byte.byte) :=
  match fs !! path with Some f => if may_read f then Some (File.content f) else None | None => None end.
Lemma reads_some fs path f : fs !! path = Some f -> reads fs path = if may_read f then Some (File.content f) else None.
Proof. unfold reads. by intros ->. Qed.
Lemma reads_insert_ne fs path p f : p <> path -> reads (<[path := f]> fs) p = reads fs p.
Proof. intros Hp. unfold reads. by rewrite lookup_insert_ne. Qed.
Lemma reads_delete fs path p : reads (delete path fs) p = if decide (p = path) then None else reads fs p.
Proof. unfold reads. case_decide as E; [subst; by rewrite lookup_delete_eq|]. by rewrite lookup_delete_ne. Qed.

Lemma fs_read_inv path d r d' : fs_read path d = Ret (r, d') ->
  files d' = files d /\ forall c, r = Ok c -> reads (files d) path = Some c.
Proof.
  intros (d1 & Hd & [[[e ->] ->]|E])%sys_inv; [done|]. prog_inv. split; [done|]. rewrite <-Hd.
  intros c. unfold reads. destruct (files d1 !! path) as [f|]; [destruct (may_read f)|]; congruence.
Qed.
Lemma fs_read_quiet path fs : exists r, fs_read path (quiet fs) = Ret (r, quiet fs) /\
  match reads fs path with Some c => r = Ok c | None => exists e, r = Err e end.
Proof.
  unfold fs_read, sys, fault, reads. prog_unfold. simpl. eexists. split; [done|].
  destruct (fs !! path) as [f|]; [destruct (may_read f)|]; eauto.
Qed.
Lemma rename_inv from to d r d' : rename from to d = Ret (r, d') ->
  files d' = files d \/ exists c, files d !! from = Some c /\ files d' = <[to := c]> (delete from (files d)).
Proof.
  intros (d1 & Hd & [[_ ->]|E])%sys_inv; [by left|]. rewrite <-Hd. prog_inv; fields; [right; eauto|by left].
Qed.
End running.

(** A directory lists the names of its files, each once. *)
Class ReadDirLaws `{ReadDir} := {
  read_dir_names fs dir name : name ∈ read_dir_order fs dir <-> plain name /\ is_Some (fs !! join dir name);
  read_dir_once fs dir : NoDup (read_dir_order fs dir)
}.

Section snapshots.
Context `{Process} `{ReadDir} `{SnapCodecLaws} `{Crc}.
Import SnapShotter.
Implicit Types self : SnapShotter.t.

(** The file a snapshot is saved to, and what is written there. *)
Definition snap_file (snap : Snapshot.t) : text :=
  print_radix 10 (SnapshotMetadata.index (Snapshot.metadata snap)) ++ "-"
  :: print_radix 10 (SnapshotMetadata.term (Snapshot.metadata snap)) ++ snap_suffix.
Definition snap_content (snap : Snapshot.t) : list Byte.byte :=
  snap_write (Snap.mk (crc_finalize digest) (snapshot_write snap)).

(** [holds c s]: a file with content [c] is read as the snapshot [s]. *)
Definition holds (c : list Byte.byte) (s : Snapshot.t) : Prop :=
  c <> [] /\ exists m, snap_parse c = Some m /\ Snap.crc m = crc_finalize digest /\ snapshot_parse (Snap.data m) = Some s.
(** [readable c]: reading it does not panic. *)
Definition readable (c : list Byte.byte) : Prop :=
  c = [] \/ exists m, snap_parse c = Some m /\ (Snap.crc m = crc_finalize digest -> is_Some (snapshot_parse (Snap.data m))).

Lemma holds_fun c s1 s2 : holds c s1 -> holds c s2 -> s1 = s2.
Proof. intros (_ & m1 & E1 & _ & Hs1) (_ & m2 & E2 & _ & Hs2). congruence. Qed.
Lemma holds_readable c s : holds c s -> readable c.
Proof. intros (_ & m & E & _ & Es). right. exists m. split; [done|]. intros _. eauto. Qed.
Lemma content_holds s : Snapshot_is_empty s = false -> holds (snap_content s) s.
Proof using All.
  intros He. unfold holds, snap_content. split.
  - intros E. pose proof (snap_parse_write (Snap.mk (crc_finalize digest) (snapshot_write s))) as Ep. rewrite E, snap_parse_empty in Ep.
    injection Ep as _ Ed. pose proof (snapshot_parse_write s) as Es. rewrite <-Ed, snapshot_parse_empty in Es. by injection Es as <-.
  - eexists. split; [apply snap_parse_write|]. split; [done|apply snapshot_parse_write].
Qed.

(** *** Reading *)
Lemma read_inv path d r d' : read path d = Ret (r, d') ->
  files d' = files d /\ forall s, r = Ok s -> exists c, reads (files d) path = Some c /\ holds c s.
Proof.
  unfold read. intros (r1 & d1 & [Hd Hc]%fs_read_inv & E)%io_inv. destruct r1 as [c|e].
  - specialize (Hc c eq_refl). destruct c as [|b c]; [by prog_inv|]. revert E. prog_unfold.
    destruct (snap_parse (b :: c)) as [m|] eqn:Em; [|done]. cbv beta iota.
    destruct (Z.eqb_spec (crc_finalize digest) (Snap.crc m)); cbv beta iota delta [negb]; [|by intros [= <- <-]].
    destruct (snapshot_parse (Snap.data m)) as [s0|] eqn:Es; [|done]. intros [= <- <-]. split; [done|].
    intros s [= <-]. exists (b :: c). split; [done|]. split; [done|]. by exists m.
  - destruct E as [-> ->]. done.
Qed.
Lemma read_quiet path fs c : reads fs path = Some c -> readable c ->
  exists r, read path (quiet fs) = Ret (r, quiet fs) /\ forall s, r = Ok s <-> holds c s.
Proof.
  intros Hc Hr. unfold read. destruct (fs_read_quiet path fs) as (r0 & E0 & Hr0). rewrite Hc in Hr0. subst r0.
  erewrite try_bind_run by exact E0.
  destruct Hr as [->|(m & Em & Hs)]; [eexists; split; [done|]; split; [done|by intros []]|].
  destruct c as [|b c]; [eexists; split; [done|]; split; [done|by intros []]|]. prog_unfold. rewrite Em. simpl.
  destruct (Z.eqb_spec (crc_finalize digest) (Snap.crc m)) as [E|E]; simpl.
  - destruct (Hs (eq_sym E)) as [s Es]. rewrite Es. eexists. split; [done|]. intros s'. split.
    + intros [= <-]. split; [done|]. by exists m.
    + intros (_ & m' & Em' & _ & Es'). congruence.
  - eexists. split; [done|]. intros s. split; [done|]. intros (_ & m' & Em' & Hcrc & _). congruence.
Qed.

(** *** Saving *)
Lemma digits_no_slash n : is_u64 n -> Forall (fun c => c <> "/" /\ c <> ".") (print_radix 10 n) /\ print_radix 10 n <> [].
Proof.
  intros Hn. destruct (print_digits 10 n ltac:(lia) Hn) as [Hd Hne]. unfold print_radix. split.
  - apply Forall_fmap. eapply Forall_impl; [exact Hd|]. intros d [Hd1 Hd2]. unfold compose, digit_char. rewrite (proj2 (Z.ltb_lt d 10)) by done.
    split; intros E%(f_equal Ascii.nat_of_ascii); rewrite Ascii.nat_ascii_embedding in E by lia; revert E;
      [change (Ascii.nat_of_ascii "/") with 47%nat|change (Ascii.nat_of_ascii ".") with 46%nat]; lia.
  - intros E%fmap_nil_inv. done.
Qed.
Lemma snap_file_plain s : is_u64 (SnapshotMetadata.index (Snapshot.metadata s)) -> is_u64 (SnapshotMetadata.term (Snapshot.metadata s)) ->
  plain (snap_file s).
Proof.
  intros [Hi Hn]%digits_no_slash [Ht _]%digits_no_slash. unfold snap_file. split; [by intros [? _]%app_nil|].
  rewrite Forall_forall in Hi, Ht. rewrite elem_of_app, elem_of_cons, elem_of_app.
  intros [[? _]%Hi|[E|[[? _]%Ht|Hs]]]; try done. revert Hs. by apply (bool_decide_unpack _).
Qed.
Lemma snap_file_suffix s : ends_with snap_suffix (snap_file s) = true.
Proof. apply ends_with_spec. unfold snap_file. eexists (_ ++ "-" :: _). rewrite <-app_assoc. reflexivity. Qed.

Lemma open_inv path perm d r d' : open_truncate path perm d = Ret (r, d') ->
  (exists e, r = Err e /\ files d' = files d) \/ r = Ok tt /\ exists f, files d' = <[path := f]> (files d).
Proof.
  intros (d1 & Hd & [[[e ->] ->]|E])%sys_inv; [left; eauto|]. prog_inv; fields; rewrite ?Hd; eauto.
Qed.
Lemma write_inv path c d r d' : write_all path c d = Ret (r, d') ->
  exists c', files d' = alter (fun f => f <| File.content := c' |>) path (files d) /\ (r = Ok tt -> c' = c).
Proof.
  unfold write_all, put_content. intros (f & d1 & Hd%fault_inv & E)%bind_inv. destruct f as [[e n]|]; prog_inv; fields; rewrite Hd; eexists; by split.
Qed.
Lemma sync_inv d r d' : sync_all d = Ret (r, d') -> files d' = files d.
Proof. intros (d1 & Hd & [[_ ->]|E])%sys_inv; [done|]. by prog_inv. Qed.

Lemma io_total {A B} (m : IO A) (f : A -> IO B) : (forall d, exists r d', m d = Ret (r, d')) ->
  (forall a d, exists r d', f a d = Ret (r, d')) -> forall d, exists r d', try_bind m f d = Ret (r, d').
Proof.
  intros Hm Hf d. destruct (Hm d) as ([a|e] & d1 & E); [destruct (Hf a d1) as (r & d' & E')|];
    unfold try_bind; setoid_rewrite (bind_run _ _ _ _ _ E); eauto.
Qed.
Lemma write_total path c perm d : exists r d', write_and_sync_file path c perm d = Ret (r, d').
Proof.
  revert d. apply io_total; [|intros _; apply io_total; [|intros _; apply io_total; [|intros _; by eauto]]].
  - apply sys_total. intros d. prog_unfold. repeat case_match; eauto.
  - intros d. unfold write_all, put_content. prog_unfold. destruct (fault_total d) as ([[e n]|] & d1 & ->); eauto.
  - apply sys_total. eauto.
Qed.
Lemma write_correct path c perm d : exists r d', write_and_sync_file path c perm d = Ret (r, d') /\
  (forall p, p <> path -> files d' !! p = files d !! p) /\
  (r = Ok tt -> exists f, files d' !! path = Some f /\ File.content f = c).
Proof.
  destruct (write_total path c perm d) as (r & d' & E). exists r, d'. split; [done|].
  apply io_inv in E as (r1 & d1 & [(e & -> & Hd)|(-> & f & Hd)]%open_inv & E).
  { destruct E as [-> ->]. by rewrite Hd. }
  apply io_inv in E as (r2 & d2 & (c' & Hd2 & Hc)%write_inv & E).
  assert (forall p, p <> path -> files d2 !! p = files d !! p) as Hp by (intros p Hp; by rewrite Hd2, lookup_alter_ne, Hd, lookup_insert_ne by done).
  destruct r2 as [[]|e]; [|by destruct E as [-> ->]].
  apply io_inv in E as (r3 & d3 & Hd3%sync_inv & E).
  assert (files d' = files d2) as -> by (destruct r3; [by injection E as <- <-|by destruct E as [_ ->]]). split; [done|].
  intros _. rewrite Hd2, Hd, lookup_alter_eq, lookup_insert_eq. simpl. eexists. split; [done|]. by apply Hc.
Qed.

(** The mode of a file after it was opened for writing. *)
Definition opened_mode (fs : gmap text File.t) (path : text) (perm : Z) : Z :=
  match fs !! path with Some f => File.mode f | None => Z.land perm (Z.lnot file_mask) end.
Lemma write_quiet path c perm fs : (forall f, fs !! path = Some f -> may_write f = true) ->
  write_and_sync_file path c perm (quiet fs) = Ret (Ok tt, quiet (<[path := File.mk (opened_mode fs path perm) c]> fs)).
Proof.
  intros Hw. unfold write_and_sync_file, open_truncate, write_all, put_content, sync_all, try_bind, sys, fault, opened_mode. prog_unfold. simpl.
  destruct (fs !! path) as [f|] eqn:Ef; [rewrite (Hw f eq_refl)|]; cbv beta iota; simpl; unfold quiet; fields;
    by rewrite alter_insert_eq.
Qed.
Lemma write_refused path c perm fs f : fs !! path = Some f -> may_write f = false ->
  write_and_sync_file path c perm (quiet fs) = Ret (Err permission_denied, quiet fs).
Proof.
  intros Hf Hw. unfold write_and_sync_file, open_truncate, try_bind, sys, fault. prog_unfold. simpl. by rewrite Hf, Hw.
Qed.

(** Saving a snapshot that is not empty, whatever fails: only the file named after its
    index and term changes, and if saving succeeds the content of this file stands for the
    snapshot.  An empty snapshot panics. *)
Theorem save_correct self s d :
  if Snapshot_is_empty s then save_snap self s d = Panic
  else exists r d', save_snap self s d = Ret (r, d') /\
    (forall p, p <> join (dir self) (snap_file s) -> files d' !! p = files d !! p) /\
    (r = Ok tt -> exists f, files d' !! join (dir self) (snap_file s) = Some f /\ holds (File.content f) s).
Proof using All.
  unfold save_snap. destruct (Snapshot_is_empty s) eqn:He; [done|].
  destruct (write_correct (join (dir self) (snap_file s)) (snap_content s) 102 d) as (r & d' & E & Hp & Hc).
  exists r, d'. split; [exact E|]. split; [exact Hp|]. intros Hr. destruct (Hc Hr) as (f & Hf & Ef). exists f. split; [done|].
  rewrite Ef. by apply content_holds.
Qed.

(** *** Loading *)
Definition is_snap (path : text) : bool := ends_with snap_suffix path.

Lemma collect_names_inv self entries acc d names d' : collect_names self entries acc d = Ret (Ok names, d') ->
  files d' = files d /\ names = acc ++ filter (fun n => is_snap (join (dir self) n)) entries.
Proof.
  revert acc d. induction entries as [|n entries IH]; intros acc d; simpl.
  - intros [= <- <-]. by rewrite app_nil_r.
  - intros (r1 & d1 & (d2 & Hd2 & Hn)%sys_inv & E)%io_inv. destruct r1 as [n'|]; [|by destruct E].
    destruct Hn as [[[? ?] _]|[= <- <-]]; [done|]. rewrite filter_cons. fold (is_snap (join (dir self) n)) in E.
    destruct (is_snap (join (dir self) n)); apply IH in E as [-> ->]; split; try done.
    by rewrite <-app_assoc.
Qed.
Lemma collect_names_quiet self entries acc fs : collect_names self entries acc (quiet fs) =
  Ret (Ok (acc ++ filter (fun n => is_snap (join (dir self) n)) entries), quiet fs).
Proof.
  revert acc. induction entries as [|n entries IH]; intros acc; simpl; [by rewrite app_nil_r|].
  erewrite try_bind_run by (unfold next_entry; by rewrite sys_quiet). rewrite filter_cons. fold (is_snap (join (dir self) n)).
  destruct (is_snap (join (dir self) n)); rewrite IH; [by rewrite <-app_assoc|done].
Qed.

(** What loading does to the snapshot files of a disk: readable ones stay. *)
Definition kept (fs fs' : gmap text File.t) : Prop := forall p c, is_snap p = true ->
  (reads fs' p = Some c -> reads fs p = Some c) /\ (reads fs p = Some c -> (exists s, holds c s) -> reads fs' p = Some c).
#[local] Instance kept_preorder : PreOrder kept.
Proof.
  split; [by intros fs p c|]. intros fs1 fs2 fs3 K1 K2 p c Hp. destruct (K1 p c Hp), (K2 p c Hp). split; [by eauto|]. intros E Hs. by eauto.
Qed.
(** The file system after a file was renamed to [.broken]. *)
Definition broken (fs : gmap text File.t) (path : text) (f : File.t) : gmap text File.t := <[set_extension (lit "broken") path := f]> (delete path fs).
Lemma broken_reads fs path f p : is_snap p = true -> reads (broken fs path f) p = if decide (p = path) then None else reads fs p.
Proof.
  intros Hp. unfold broken. rewrite reads_insert_ne, reads_delete; [done|]. intros ->. unfold is_snap in Hp. by rewrite broken_no_snap in Hp.
Qed.
Lemma broken_kept path f fs : (forall c s, reads fs path = Some c -> ~ holds c s) -> kept fs (broken fs path f).
Proof.
  intros Hn p c Hp. rewrite broken_reads by done. case_decide as E; [subst p|done]. split; [done|]. intros Hc [s Hh]. by destruct (Hn c s Hc).
Qed.

Definition no_new_snaps (d d' : Disk) : Prop := forall p c, is_snap p = true -> reads (files d') p = Some c -> reads (files d) p = Some c.
#[local] Instance no_new_snaps_preorder : PreOrder no_new_snaps.
Proof. split; [by intros d p c|]. intros d1 d2 d3 K1 K2 p c Hp E. by eauto. Qed.

Lemma load_snap_inv dr name d r d' : load_snap dr name d = Ret (r, d') ->
  no_new_snaps d d' /\ forall s, r = Ok s -> exists c, reads (files d) (join dr name) = Some c /\ holds c s.
Proof.
  unfold load_snap. intros E. apply bind_inv in E as (r1 & d1 & [Hd Hs]%read_inv & E). destruct r1 as [s1|e].
  - injection E as <- <-. split; [intros p c _; by rewrite Hd|done].
  - apply io_inv in E as (r2 & d2 & Hr%rename_inv & E).
    assert (d' = d2 /\ exists e, r = Err e) as [-> [e' ->]] by (destruct r2; [by injection E as <- <-; eauto|destruct E as [-> ->]; eauto]).
    split; [|done]. rewrite Hd in Hr. intros p c Hp. destruct Hr as [->|(f & Hf & ->)]; [done|].
    fold (broken (files d) (join dr name) f). rewrite broken_reads by done. by case_decide.
Qed.

Lemma load_loop_inv self f names d s d' : Forall (fun n => is_snap (join (dir self) n) = true) names ->
  load_loop self f names d = Ret (Ok s, d') ->
  f s = true /\ exists n c, n ∈ names /\ reads (files d) (join (dir self) n) = Some c /\ holds c s.
Proof.
  revert d. induction names as [|n names IH]; intros d Hall E; [done|]. apply Forall_cons in Hall as [Hn Hall].
  simpl in E. apply bind_inv in E as (r & d1 & Hl & E). destruct (load_snap_inv _ _ _ _ _ Hl) as [Hno Hs].
  assert (load_loop self f names d1 = Ret (Ok s, d') ->
    f s = true /\ exists n' c, n' ∈ n :: names /\ reads (files d) (join (dir self) n') = Some c /\ holds c s) as Hrest.
  { intros (Hf & n' & c & Hin & Hc & Hh)%IH; [|done]. split; [done|]. exists n', c. split_and!; [by right| |done].
    apply Hno; [|done]. by eapply Forall_forall in Hall. }
  destruct r as [s1|e]; [|by apply Hrest]. destruct (f s1) eqn:Hf; [|by apply Hrest].
  injection E as -> ->. split; [done|]. destruct (Hs s eq_refl) as (c & Hc & Hh). exists n, c. split_and!; [left|done..].
Qed.

(** A file of the directory that is listed among the snapshots. *)
Definition listed (fs : gmap text File.t) self (n : text) : Prop :=
  n ∈ read_dir_order fs (dir self) /\ is_snap (join (dir self) n) = true.
Lemma listed_names fs self : Forall (fun n => is_snap (join (dir self) n) = true)
  (filter (fun n => is_snap (join (dir self) n)) (read_dir_order fs (dir self))).
Proof. apply Forall_forall. intros n [? _]%list_elem_of_filter. by apply Is_true_true. Qed.
Lemma listed_filter fs self n : n ∈ filter (fun n => is_snap (join (dir self) n)) (read_dir_order fs (dir self)) <-> listed fs self n.
Proof. unfold listed. rewrite list_elem_of_filter, Is_true_true. tauto. Qed.

Lemma load_snap_quiet dr name fs : is_snap (join dr name) = true -> (forall c, reads fs (join dr name) = Some c -> readable c) ->
  exists r fs', load_snap dr name (quiet fs) = Ret (r, quiet fs') /\ kept fs fs' /\
    match r with
    | Ok s => exists c, reads fs (join dr name) = Some c /\ holds c s
    | Err _ => ~ exists c s, reads fs (join dr name) = Some c /\ holds c s
    end.
Proof.
  intros Hp Hr. unfold load_snap.
  assert (exists r, read (join dr name) (quiet fs) = Ret (r, quiet fs) /\
    match r with Ok s => exists c, reads fs (join dr name) = Some c /\ holds c s | Err _ => forall c s, reads fs (join dr name) = Some c -> ~ holds c s end)
    as (r & E & Hs).
  { destruct (reads fs (join dr name)) as [c|] eqn:Hc.
    - destruct (read_quiet _ _ _ Hc (Hr c eq_refl)) as (r & E & Hs). exists r. split; [done|].
      destruct r as [s|e]; [exists c; split; [done|by apply Hs]|]. intros c' s [= <-] Hh%Hs. done.
    - unfold read. destruct (fs_read_quiet (join dr name) fs) as (r0 & E0 & Hr0). rewrite Hc in Hr0. destruct Hr0 as [e ->].
      exists (Err e). split; [by apply try_bind_fails|done]. }
  erewrite bind_run by exact E. destruct r as [s|e]; [by exists (Ok s), fs|].
  unfold rename, sys, fault, try_bind. prog_unfold. simpl. destruct (fs !! join dr name) as [f|] eqn:Hf.
  - eexists _, (broken fs (join dr name) f). split_and!; [reflexivity|by apply broken_kept|]. intros (c & s & Hc & Hh). by eapply Hs.
  - eexists _, fs. split_and!; [reflexivity|done|]. intros (c & s & Hc & Hh). by eapply Hs.
Qed.

Lemma load_loop_quiet self f names fs : Forall (fun n => is_snap (join (dir self) n) = true) names ->
  (forall n c, n ∈ names -> reads fs (join (dir self) n) = Some c -> readable c) ->
  exists r fs', load_loop self f names (quiet fs) = Ret (r, quiet fs') /\ kept fs fs' /\
    match r with
    | Ok s => True
    | Err e => e = Io NotFound "no matching snapshot found" /\
        forall n c s, n ∈ names -> reads fs (join (dir self) n) = Some c -> holds c s -> f s = false
    end.
Proof.
  revert fs. induction names as [|n names IH]; intros fs Hall Hr.
  { eexists _, fs. split; [reflexivity|]. split; [done|]. split; [done|]. intros n c s []%not_elem_of_nil. }
  apply Forall_cons in Hall as [Hn Hall]. simpl.
  destruct (load_snap_quiet (dir self) n fs Hn) as (r & fs1 & E & Hk & Hres); [intros c; apply Hr; left|].
  erewrite bind_run by exact E.
  assert (exists r fs', load_loop self f names (quiet fs1) = Ret (r, quiet fs') /\ kept fs fs' /\
    match r with
    | Ok s => True
    | Err e => e = Io NotFound "no matching snapshot found" /\
        forall n c s, n ∈ names -> reads fs (join (dir self) n) = Some c -> holds c s -> f s = false
    end) as (r2 & fs2 & E2 & Hk2 & Hres2).
  { destruct (IH fs1 Hall) as (r2 & fs2 & E2 & Hk2 & Hres2).
    - intros m c Hm Hc. eapply Hr; [by right|]. apply Hk; [|done]. by eapply Forall_forall in Hall.
    - exists r2, fs2. split_and!; [done|by etrans|]. destruct r2; [done|]. destruct Hres2 as [-> Hres2]. split; [done|].
      intros m c s Hm Hc Hh. eapply Hres2; [done| |done]. eapply Hk; [by eapply Forall_forall in Hall|done|eauto]. }
  destruct r as [s|e].
  - destruct (f s) eqn:Hf; [by exists (Ok s), fs1|]. exists r2, fs2. split_and!; [done..|]. destruct r2 as [|e2]; [done|].
    destruct Hres2 as [-> Hres2]. split; [done|]. intros m c s' [->|Hm]%elem_of_cons Hc Hh; [|by eauto].
    destruct Hres as (c0 & Hc0 & Hh0). rewrite Hc in Hc0. injection Hc0 as <-. by rewrite <-(holds_fun _ _ _ Hh0 Hh).
  - exists r2, fs2. split_and!; [done..|]. destruct r2 as [|e2]; [done|].
    destruct Hres2 as [-> Hres2]. split; [done|]. intros m c s' [->|Hm]%elem_of_cons Hc Hh; [|by eauto].
    destruct Hres. eauto.
Qed.

Lemma load_matching_inv self f d s d' : load_matching self f d = Ret (Ok s, d') ->
  f s = true /\ exists n c, listed (files d) self n /\ reads (files d) (join (dir self) n) = Some c /\ holds c s.
Proof.
  unfold load_matching. intros (r & d1 & E1 & (names & d2 & Eu & E)%bind_inv)%bind_inv.
  destruct r as [l|]; [|done]. injection Eu as -> ->.
  apply io_inv in E1 as (r & d3 & (d4 & Hd & Hr)%sys_inv & E1). destruct r as [entries|]; [|by destruct E1].
  apply collect_names_inv in E1 as [Hd2 Hn]. simpl in Hn. destruct Hr as [[[? ?] _]|[= <- <-]]; [done|]. rewrite Hd in *. subst names.
  apply load_loop_inv in E as (Hf & n & c & Hin & Hc & Hh); [|apply listed_names]. split; [done|]. exists n, c. rewrite <-Hd2.
  split; [|done]. rewrite Hd2. by apply listed_filter.
Qed.
Lemma load_matching_quiet self f fs : (forall n c, listed fs self n -> reads fs (join (dir self) n) = Some c -> readable c) ->
  exists r fs', load_matching self f (quiet fs) = Ret (r, quiet fs') /\ kept fs fs' /\
    match r with
    | Ok s => True
    | Err e => e = Io NotFound "no matching snapshot found" /\
        forall n c s, listed fs self n -> reads fs (join (dir self) n) = Some c -> holds c s -> f s = false
    end.
Proof.
  intros Hr. unfold load_matching.
  assert (snap_names self (quiet fs) = Ret (Ok (filter (fun n => is_snap (join (dir self) n)) (read_dir_order fs (dir self))), quiet fs)) as En.
  { unfold snap_names. erewrite try_bind_run by (unfold read_dir; by rewrite sys_quiet). apply collect_names_quiet. }
  erewrite bind_run by exact En. erewrite bind_run by done.
  destruct (load_loop_quiet self f _ fs (listed_names fs self)) as (r & fs' & E & Hk & Hres).
  { intros n c Hn%listed_filter. by apply Hr. }
  exists r, fs'. split_and!; [done..|]. destruct r as [|e]; [done|]. destruct Hres as [-> Hres]. split; [done|].
  intros n c s Hn%listed_filter. by apply Hres.
Qed.

(** [stored fs self s]: a snapshot file of the directory holds [s]. *)
Definition stored (fs : gmap text File.t) self (s : Snapshot.t) : Prop :=
  exists n c, listed fs self n /\ reads fs (join (dir self) n) = Some c /\ holds c s.
(** Every snapshot file can be parsed, or is empty, or fails its check. *)
Definition parsable (fs : gmap text File.t) self : Prop :=
  forall n c, listed fs self n -> reads fs (join (dir self) n) = Some c -> readable c.

(** Loading a snapshot.  Whatever fails, what is loaded is in a snapshot file of the
    directory that the process may read, and matches.  If nothing fails and the snapshot files can be parsed, loading
    does not panic; it finds a snapshot, or reports that there is none, and then no file holds
    one that matches; and no readable file that holds a snapshot is lost. *)
Theorem load_correct self f :
  (forall d s d', load_matching self f d = Ret (Ok s, d') -> f s = true /\ stored (files d) self s) /\
  (forall fs, parsable fs self -> exists r fs', load_matching self f (quiet fs) = Ret (r, quiet fs') /\
     match r with
     | Ok s => f s = true /\ stored fs self s
     | Err e => e = Io NotFound "no matching snapshot found" /\ forall s, stored fs self s -> f s = false
     end /\
     forall n c s, listed fs self n -> reads fs (join (dir self) n) = Some c -> holds c s -> reads fs' (join (dir self) n) = Some c).
Proof.
  split; [intros d s d'; apply load_matching_inv|]. intros fs Hp. destruct (load_matching_quiet self f fs Hp) as (r & fs' & E & Hk & Hr).
  exists r, fs'. split; [done|]. split.
  - destruct r as [s|e]; [by apply (load_matching_inv _ _ _ _ _ E)|]. destruct Hr as [-> Hr]. split; [done|].
    intros s (n & c & Hl & Hc & Hh). eauto.
  - intros n c s [_ Hn] Hc Hh. apply Hk; eauto.
Qed.

(** Other files than the saved one are listed and read as before. *)
Lemma others_same self s fs f n `{!ReadDirLaws} : let path := join (dir self) (snap_file s) in
  plain (snap_file s) -> listed (<[path := f]> fs) self n -> n <> snap_file s ->
  listed fs self n /\ reads (<[path := f]> fs) (join (dir self) n) = reads fs (join (dir self) n).
Proof.
  intros path Hpl [[Hn Hsome]%read_dir_names Hs] Hne.
  assert (join (dir self) n <> path) as Hd by (by intros E%join_inj).
  rewrite lookup_insert_ne in Hsome by done. split; [split; [by apply read_dir_names|done]|]. by apply reads_insert_ne.
Qed.
Lemma saved_listed self s fs f `{!ReadDirLaws} : plain (snap_file s) -> listed (<[join (dir self) (snap_file s) := f]> fs) self (snap_file s).
Proof.
  intros Hpl. split; [|apply join_suffix; [done|apply snap_file_suffix]]. apply read_dir_names. split; [done|]. rewrite lookup_insert_eq. eauto.
Qed.
Lemma saved_parsable self s fs f `{!ReadDirLaws} : plain (snap_file s) -> readable (File.content f) -> parsable fs self ->
  parsable (<[join (dir self) (snap_file s) := f]> fs) self.
Proof.
  intros Hpl Hr Hp n c Hn Hc. destruct (decide (n = snap_file s)) as [->|Hne].
  - rewrite (reads_some _ _ f) in Hc by apply lookup_insert_eq. destruct (may_read f); [|done]. by injection Hc as <-.
  - destruct (others_same self s fs f n Hpl Hn Hne) as [Hl E]. rewrite E in Hc. by eapply Hp.
Qed.

(** The mode 0x66 of a saved file (octal 0146) lets its owner neither read nor write it, whatever the mask. *)
Lemma saved_mode_refuses c : privileged = false -> let f := File.mk (Z.land 102 (Z.lnot file_mask)) c in may_read f = false /\ may_write f = false.
Proof. intros Hp f. unfold may_read, may_write, f. rewrite Hp. cbn [orb File.mode]. by rewrite !Z.land_spec. Qed.

(** The only snapshot file of a directory: if it cannot be read it gets another name. *)
Lemma load_unreadable self fs n f : read_dir_order fs (dir self) = [n] -> is_snap (join (dir self) n) = true ->
  fs !! join (dir self) n = Some f -> may_read f = false ->
  load self (quiet fs) = Ret (Err (Io NotFound "no matching snapshot found"), quiet (broken fs (join (dir self) n) f)).
Proof.
  intros Hdir Hn Hf Hr. unfold load, load_matching, snap_names.
  erewrite bind_run by (erewrite try_bind_run by (unfold read_dir; by rewrite sys_quiet); by apply collect_names_quiet).
  simpl. rewrite Hdir, filter_cons, Hn. simpl. erewrite bind_run by done. simpl. unfold load_snap, read, fs_read, rename, try_bind, sys, fault.
  prog_unfold. simpl. rewrite Hf, Hr. simpl. by rewrite Hf.
Qed.

(** C34 — What is saved can be loaded only by a process that may read every file, as the superuser.
    Into a directory whose snapshot files can be parsed such a process saves a snapshot, and loading then
    finds one that a file holds; it is the saved one if the directory had no snapshot file of another
    name.  Any other process is told that a new snapshot was saved, but the file is made with the mode
    0x66 (where 0666 in octal was meant), which lets its owner neither read nor write it: saving the snapshot again is
    refused, loading never finds it, and if it is the only file of the directory, loading reports that
    there is no snapshot and renames the file to [.broken]. *)
Theorem save_load self s fs `{!ReadDirLaws} :
  Snapshot_is_empty s = false ->
  is_u64 (SnapshotMetadata.index (Snapshot.metadata s)) -> is_u64 (SnapshotMetadata.term (Snapshot.metadata s)) ->
  parsable fs self ->
  let path := join (dir self) (snap_file s) in
  (privileged = true -> exists fs1 s' fs2, save_snap self s (quiet fs) = Ret (Ok tt, quiet fs1) /\
    load self (quiet fs1) = Ret (Ok s', quiet fs2) /\ stored fs1 self s /\ stored fs1 self s' /\
    ((forall n, listed fs self n -> n = snap_file s) -> s' = s)) /\
  (privileged = false -> fs !! path = None -> exists fs1 r fs2, save_snap self s (quiet fs) = Ret (Ok tt, quiet fs1) /\
    save_snap self s (quiet fs1) = Ret (Err permission_denied, quiet fs1) /\
    load self (quiet fs1) = Ret (r, quiet fs2) /\ (forall s', r = Ok s' -> stored fs self s') /\
    (read_dir_order fs1 (dir self) = [snap_file s] -> r = Err (Io NotFound "no matching snapshot found") /\
      fs2 !! path = None /\ is_Some (fs2 !! set_extension (lit "broken") path))).
Proof using All.
  intros He Hi Ht Hp path. assert (plain (snap_file s)) as Hpl by (by apply snap_file_plain).
  set (f := File.mk (opened_mode fs path 102) (snap_content s)). set (fs1 := <[path := f]> fs).
  assert (readable (snap_content s)) as Hrc by (by eapply holds_readable, content_holds).
  assert (parsable fs1 self) as Hp1 by (by apply saved_parsable).
  assert ((forall f, fs !! path = Some f -> may_write f = true) -> save_snap self s (quiet fs) = Ret (Ok tt, quiet fs1)) as Es.
  { intros Hw. unfold save_snap. rewrite He. by apply write_quiet. }
  destruct (load_matching_quiet self (fun _ => true) fs1 Hp1) as (r & fs2 & E & Hk & Hr). split.
  - intros Hpriv. assert (forall f, may_read f = true) as Hread by (intros f'; unfold may_read; by rewrite Hpriv).
    assert (reads fs1 path = Some (snap_content s)) as Hc by (rewrite (reads_some _ _ f), Hread; [done|apply lookup_insert_eq]).
    assert (stored fs1 self s) as Hst. { exists (snap_file s), (snap_content s). split_and!; [by apply saved_listed|done|by apply content_holds]. }
    destruct r as [s'|e].
    + exists fs1, s', fs2. destruct (load_matching_inv _ _ _ _ _ E) as [_ Hst'].
      split_and!; [apply Es; intros f' _; unfold may_write; by rewrite Hpriv|done..|].
      intros Honly. destruct Hst' as (n & c & Hl & Hcn & Hh). destruct (decide (n = snap_file s)) as [->|Hne].
      * change (reads fs1 path = Some c) in Hcn. rewrite Hc in Hcn. injection Hcn as <-. eapply holds_fun; [done|by apply content_holds].
      * destruct (others_same self s fs f n Hpl Hl Hne) as [Hl' _]. by destruct (Hne (Honly n Hl')).
    + destruct Hst as (n & c & Hl & Hcn & Hh). destruct Hr as [_ Hr]. by specialize (Hr n c s Hl Hcn Hh).
  - intros Hpriv Hnew. destruct (saved_mode_refuses (snap_content s) Hpriv) as [Hmr Hmw].
    assert (f = File.mk (Z.land 102 (Z.lnot file_mask)) (snap_content s)) as Ef by (unfold f, opened_mode; by rewrite Hnew).
    rewrite <-Ef in Hmr, Hmw. assert (fs1 !! path = Some f) as Hf by apply lookup_insert_eq.
    exists fs1, r, fs2. split_and!.
    + apply Es. rewrite Hnew. done.
    + unfold save_snap. rewrite He. by eapply write_refused.
    + done.
    + intros s' ->. destruct (load_matching_inv _ _ _ _ _ E) as [_ (n & c & Hl & Hcn & Hh)]. destruct (decide (n = snap_file s)) as [->|Hne].
      * change (reads fs1 path = Some c) in Hcn. rewrite (reads_some _ _ _ Hf), Hmr in Hcn. done.
      * destruct (others_same self s fs f n Hpl Hl Hne) as [Hl' En]. exists n, c. by rewrite <-En.
    + intros Hdir. pose proof (load_unreadable self fs1 _ f Hdir) as El. unfold load in El. rewrite El in E; [|apply join_suffix; [done|apply snap_file_suffix]|done..].
      injection E as <- <-. split; [done|]. fold path. unfold broken. split; [|rewrite lookup_insert_eq; eauto].
      rewrite lookup_insert_ne, lookup_delete_eq; [done|]. intros Eb. pose proof (broken_no_snap path) as Hb. rewrite Eb in Hb.
      unfold path in Hb. rewrite join_suffix in Hb; [done..|apply snap_file_suffix].
Qed.

(** The checksum of a file says nothing about its data: whatever replaces the data, the file
    is read as what the new data say. *)
Lemma checksum_of_nothing s s' path fs : Snapshot_is_empty s' = false ->
  reads fs path = Some (snap_write ((Snap.mk (crc_finalize digest) (snapshot_write s)) <| Snap.data := snapshot_write s' |>)) ->
  read path (quiet fs) = Ret (Ok s', quiet fs).
Proof using All.
  intros He Hc. change (reads fs path = Some (snap_content s')) in Hc. pose proof (content_holds s' He) as Hh.
  destruct (read_quiet _ _ _ Hc (holds_readable _ _ Hh)) as (r & E & Hr). rewrite E. by rewrite (proj2 (Hr s')).
Qed.
End snapshots.

(** *** Removing what is left over *)
Section cleanup.
Context `{ReadDir}.
Import SnapShotter.
Implicit Types self : SnapShotter.t.

Lemma readable_entries_quiet entries fs : readable_entries entries (quiet fs) = Ret (entries, quiet fs).
Proof.
  induction entries as [|n entries IH]; simpl; [done|]. erewrite bind_run by (unfold next_entry; by rewrite sys_quiet). simpl.
  erewrite bind_run by (by rewrite sys_quiet). by erewrite bind_run by exact IH.
Qed.

(** The index in the name of a database file. *)
Definition db_file (name : text) : bool := ends_with (lit ".snap.db") name.
Definition db_index (name : text) : result Z ParseIntError := from_str_radix 10 (trim_end_matches (lit ".snap.db") name).
(** The files below an index. *)
Definition orphan (index : Z) (name : text) : bool :=
  db_file name && match db_index name with Ok i => i <? index | Err _ => false end.

Definition orphans (index : Z) self (names : list text) : list text := join (dir self) <$> filter (fun n => orphan index n) names.

Lemma release_step self index n names : (db_file n = true -> exists i, db_index n = Ok i) ->
  release_loop self index (n :: names) =
  if orphan index n then _ ←? remove_file (join (dir self) n); release_loop self index names else release_loop self index names.
Proof.
  intros Hi. change (release_loop self index (n :: names)) with
    (if db_file n then
       match db_index n with
       | Err _ => panic
       | Ok i => if i <? index then _ ←? remove_file (join (dir self) n); release_loop self index names else release_loop self index names
       end
     else release_loop self index names).
  unfold orphan. destruct (db_file n); [|done].
  by destruct (Hi eq_refl) as [i ->].
Qed.
Lemma release_loop_quiet self index names fs : NoDup names -> Forall plain names ->
  (forall n, n ∈ names -> is_Some (fs !! join (dir self) n)) ->
  (forall n, n ∈ names -> db_file n = true -> exists i, db_index n = Ok i) ->
  exists fs', release_loop self index names (quiet fs) = Ret (Ok tt, quiet fs') /\
    forall p, fs' !! p = if decide (p ∈ orphans index self names) then None else fs !! p.
Proof.
  revert fs. induction names as [|n names IH]; intros fs Hnd Hp Hsome Hi.
  { by exists fs. }
  apply NoDup_cons in Hnd as [Hn Hnd]. apply Forall_cons in Hp as [Hpn Hp].
  assert (forall fs0, (forall p, p <> join (dir self) n -> fs0 !! p = fs !! p) -> exists fs',
    release_loop self index names (quiet fs0) = Ret (Ok tt, quiet fs') /\
    forall p, fs' !! p = if decide (p ∈ orphans index self names) then None else fs0 !! p) as Hrest.
  { intros fs0 Hsame. apply IH; [done..| |].
    - intros m Hm. rewrite Hsame; [apply Hsome; by right|]. intros <-%join_inj; [done| |done]. by eapply Forall_forall in Hp.
    - intros m Hm. apply Hi. by right. }
  assert (orphans index self (n :: names) = (if orphan index n then [join (dir self) n] else []) ++ orphans index self names) as Ho.
  { unfold orphans. rewrite filter_cons. by destruct (orphan index n). }
  rewrite Ho, (release_step self index n names) by (by apply Hi; left). clear Ho.
  destruct (orphan index n); cbn [app]; [|by apply Hrest].
  destruct (Hrest (delete (join (dir self) n) fs)) as (fs' & E & Hfs); [intros p Hne; by rewrite lookup_delete_ne|].
  exists fs'. split.
  - destruct (Hsome n (list_elem_of_here n names)) as [c Hc]. erewrite try_bind_run; [exact E|].
    unfold remove_file, sys, fault. prog_unfold. simpl. by rewrite Hc.
  - intros p. rewrite Hfs. destruct (decide (p = join (dir self) n)) as [->|Hne].
    + rewrite lookup_delete_eq. repeat case_decide; try done; exfalso; set_solver.
    + rewrite lookup_delete_ne by done. repeat case_decide; try done; exfalso; set_solver.
Qed.

(** Removing the databases of old snapshots, when nothing fails and the names of the
    databases in the directory are decimal indices: exactly those below the index of the
    snapshot are removed. *)
Theorem release_correct self (snap : Snapshot.t) fs `{!ReadDirLaws} :
  (forall n, n ∈ read_dir_order fs (dir self) -> db_file n = true -> exists i, db_index n = Ok i) ->
  exists fs', release_snapdbs self snap (quiet fs) = Ret (Ok tt, quiet fs') /\
    forall p, fs' !! p =
      if decide (p ∈ orphans (SnapshotMetadata.index (Snapshot.metadata snap)) self (read_dir_order fs (dir self)))
      then None else fs !! p.
Proof.
  intros Hi. unfold release_snapdbs. erewrite try_bind_run by (unfold read_dir; by rewrite sys_quiet).
  erewrite bind_run by apply readable_entries_quiet. apply release_loop_quiet; [apply read_dir_once| | |done].
  - apply Forall_forall. by intros n [? _]%read_dir_names.
  - by intros n [_ ?]%read_dir_names.
Qed.
End cleanup.

(** ** Witnesses

    A codec by numbers, a checksum that counts, and directories in the order of the map. *)
Section witnesses.
#[local] Instance plain_dec name : Decision (plain name).
Proof. unfold plain. apply _. Defined.
Definition child (dir path : text) : option text :=
  let name := drop (length (dir_prefix dir)) path in
  if decide (plain name /\ join dir name = path) then Some name else None.
#[local] Instance map_order : ReadDir := fun fs dir => omap (child dir) (map_to_list fs).*1.

Lemma drop_join dir name : plain name -> drop (length (dir_prefix dir)) (join dir name) = name.
Proof. intros Hn. by rewrite join_plain, drop_app_length. Qed.
Lemma child_Some dir path name : child dir path = Some name <-> plain name /\ join dir name = path.
Proof.
  unfold child. split.
  - case_decide as E; [|done]. by intros [= <-].
  - intros [Hn <-]. rewrite drop_join by done. by rewrite decide_True.
Qed.
Lemma omap_nodup {A B} (f : A -> option B) (l : list A) : (forall a1 a2 b, f a1 = Some b -> f a2 = Some b -> a1 = a2) ->
  NoDup l -> NoDup (omap f l).
Proof.
  intros Hf. induction l as [|a l IH]; intros Hl; simpl; [constructor|]. apply NoDup_cons in Hl as [Ha Hl].
  destruct (f a) as [b|] eqn:E; [|by apply IH]. constructor; [|by apply IH].
  intros (a' & Ha' & E')%list_elem_of_omap. by rewrite (Hf _ _ _ E E') in Ha.
Qed.
#[local] Instance map_order_laws : ReadDirLaws.
Proof.
  split.
  - intros fs dir name. unfold read_dir_order, map_order. rewrite list_elem_of_omap. split.
    + intros (path & Hpath & [Hn Hj]%child_Some). split; [done|]. apply list_elem_of_fmap in Hpath as ([p c] & Hp & Hin).
      apply elem_of_map_to_list in Hin. exists c. by rewrite Hj, Hp.
    + intros [Hn [c Hc]]. exists (join dir name). split; [|by apply child_Some].
      apply list_elem_of_fmap. exists (join dir name, c). split; [done|]. by apply elem_of_map_to_list.
  - intros fs dir. apply omap_nodup; [|apply NoDup_fst_map_to_list].
    intros p1 p2 n [_ <-]%child_Some [_ <-]%child_Some. done.
Qed.

#[local] Instance byte_countable : Countable Byte.byte := inj_countable Byte.to_N Byte.of_N Byte.of_to_N.
#[local] Instance conf_state_countable : Countable ConfState.t := inj_countable'
  (fun s => (ConfState.voters s, ConfState.learners s, ConfState.voters_outgoing s, ConfState.learners_next s, ConfState.auto_leave s))
  (fun '(a, b, c, d, e) => ConfState.mk a b c d e) ltac:(by intros []).
#[local] Instance snapshot_countable : Countable Snapshot.t := inj_countable'
  (fun s => (Snapshot.data s, SnapshotMetadata.conf_state (Snapshot.metadata s), SnapshotMetadata.index (Snapshot.metadata s),
             SnapshotMetadata.term (Snapshot.metadata s)))
  (fun '(a, b, c, d) => Snapshot.mk a (SnapshotMetadata.mk b c d)) ltac:(by intros [? []]).
#[local] Instance snap_eq_dec : EqDecision Snap.t.
Proof. solve_decision. Defined.
#[local] Instance snap_countable : Countable Snap.t := inj_countable'
  (fun s => (Snap.crc s, Snap.data s)) (fun '(a, b) => Snap.mk a b) ltac:(by intros []).

(** A number, least bit first; nothing stands for the default. *)
Fixpoint bits (p : positive) : list Byte.byte :=
  match p with xH => [Byte.x01] | xO p => Byte.x00 :: bits p | xI p => Byte.x01 :: bits p end.
Fixpoint unbits (s : list Byte.byte) : positive :=
  match s with
  | [] | [_] => xH
  | Byte.x00 :: s => xO (unbits s)
  | _ :: s => xI (unbits s)
  end.
Lemma unbits_bits p : unbits (bits p) = p.
Proof. induction p as [p IH|p IH|]; simpl; [..|done]; (destruct (bits p) eqn:E; [by destruct p|by rewrite IH]). Qed.
Definition write_with {A} `{Countable A} (default a : A) : list Byte.byte := if decide (a = default) then [] else bits (encode a).
Definition parse_with {A} `{Countable A} (default : A) (s : list Byte.byte) : option A :=
  match s with [] => Some default | _ => decode (unbits s) end.
Lemma parse_write_with {A} `{Countable A} (default a : A) : parse_with default (write_with default a) = Some a.
Proof.
  unfold parse_with, write_with. case_decide as E; [by rewrite E|]. destruct (bits (encode a)) eqn:Eb; [by destruct (encode a)|].
  by rewrite <-Eb, unbits_bits, decode_encode.
Qed.
#[local] Instance number_codec : SnapCodec := {|
  snap_write := write_with Snap.default; snap_parse := parse_with Snap.default;
  snapshot_write := write_with Snapshot.default; snapshot_parse := parse_with Snapshot.default
|}.
#[local] Instance number_laws : SnapCodecLaws.
Proof. split; [apply (parse_write_with Snap.default)|apply (parse_write_with Snapshot.default)|done|done]. Qed.
#[local] Instance counting : Crc := {| Digest := list Byte.byte; crc_digest := []; crc_update := app; crc_finalize := fun s => len s |}.

Definition some_snapshot : Snapshot.t := Snapshot.mk [Byte.x61] (SnapshotMetadata.mk (ConfState.mk [1; 2; 3] [] [] [] false) 12 3).
Definition snaps : SnapShotter.t := SnapShotter.new (lit "/data/snap").
Definition superuser : Process := {| file_mask := 18; privileged := true |}.
#[local] Instance common_user : Process := {| file_mask := 18; privileged := false |}.
Lemma save_load_witness :
  (exists fs1 fs2, SnapShotter.save_snap (H:=superuser) snaps some_snapshot (quiet ∅) = Ret (Ok tt, quiet fs1) /\
    SnapShotter.load (H:=superuser) snaps (quiet fs1) = Ret (Ok some_snapshot, quiet fs2)) /\
  (exists fs1 fs2, SnapShotter.save_snap snaps some_snapshot (quiet ∅) = Ret (Ok tt, quiet fs1) /\
    SnapShotter.load snaps (quiet fs1) = Ret (Err (Io NotFound "no matching snapshot found"), quiet fs2) /\
    fs2 !! lit "/data/snap/12-3.snap" = None /\ is_Some (fs2 !! lit "/data/snap/12-3.broken")).
Proof.
  split.
  - destruct (proj1 (save_load (H:=superuser) snaps some_snapshot ∅ eq_refl ltac:(done) ltac:(done)
      ltac:(intros n c [Hn _]; by apply not_elem_of_nil in Hn)) eq_refl) as (fs1 & s' & fs2 & E1 & E2 & _ & _ & Hs).
    exists fs1, fs2. rewrite Hs in E2; [done|]. intros n [Hn _]. by apply not_elem_of_nil in Hn.
  - destruct (proj2 (save_load snaps some_snapshot ∅ eq_refl ltac:(done) ltac:(done)
      ltac:(intros n c [Hn _]; by apply not_elem_of_nil in Hn)) eq_refl eq_refl) as (fs1 & r & fs2 & E1 & _ & E2 & _ & Hlost).
    assert (match SnapShotter.save_snap snaps some_snapshot (quiet ∅) with Ret (_, d) => read_dir_order (files d) (SnapShotter.dir snaps) | _ => [] end
      = [snap_file some_snapshot]) as Hdir by by vm_compute.
    rewrite E1 in Hdir. destruct (Hlost Hdir) as (-> & Hgone & Hbroken). exists fs1, fs2. split_and!; [done|done|exact Hgone|exact Hbroken].
Defined.
(** Writing fails after two bytes, on a disk with another file. *)
Definition bad_disk : Disk := MkDisk {[lit "/data/snap/db" := File.mk 420 [Byte.x61]]} [None; Some (Io OsError "No space left on device", 2%nat)].
Lemma save_correct_witness : exists r d', SnapShotter.save_snap snaps some_snapshot bad_disk = Ret (r, d') /\
  files d' !! lit "/data/snap/db" = Some (File.mk 420 [Byte.x61]).
Proof.
  destruct (save_correct snaps some_snapshot bad_disk) as (r & d' & E & Hp & _). exists r, d'. split; [exact E|].
  rewrite Hp; [by vm_compute|]. by vm_compute.
Defined.
Definition empty_file : gmap text File.t := {[lit "/data/snap/1-1.snap" := File.mk 420 []]}.
Lemma empty_file_reads path c : reads empty_file path = Some c -> c = [].
Proof.
  unfold reads, empty_file. destruct (_ !! path) as [f|] eqn:E; [|done]. apply lookup_singleton_Some in E as [_ <-]. simpl. congruence.
Qed.
Lemma load_correct_witness : exists fs',
  SnapShotter.load snaps (quiet empty_file) = Ret (Err (Io NotFound "no matching snapshot found"), quiet fs').
Proof.
  destruct (load_correct snaps (fun _ => true)) as [Hany Hall].
  destruct (Hall empty_file) as (r & fs' & E & Hr & _).
  - intros n c _ Hc. left. by eapply empty_file_reads.
  - exists fs'. destruct r as [s|e]; [|by destruct Hr as [-> _]]. exfalso. destruct Hr as [_ (n & c & _ & Hc & Hne & _)].
    exact (Hne (empty_file_reads _ _ Hc)).
Defined.
Definition three_files : gmap text File.t := list_to_map
  [(lit "/data/snap/7.snap.db", File.mk 420 []); (lit "/data/snap/12.snap.db", File.mk 420 []); (lit "/data/snap/1-1.snap", File.mk 420 [])].
Lemma indexed_names (names : list text) :
  forallb (fun n => implb (db_file n) (match db_index n with Ok _ => true | Err _ => false end)) names = true ->
  forall n, n ∈ names -> db_file n = true -> exists i, db_index n = Ok i.
Proof.
  intros Hall n Hn Hd. rewrite forallb_forall in Hall. specialize (Hall n (proj1 (list_elem_of_In _ _) Hn)).
  rewrite Hd in Hall. destruct (db_index n); [eauto|done].
Qed.
Lemma release_correct_witness : exists fs',
  SnapShotter.release_snapdbs snaps some_snapshot (quiet three_files) = Ret (Ok tt, quiet fs') /\
  fs' !! lit "/data/snap/7.snap.db" = None /\ fs' !! lit "/data/snap/12.snap.db" = Some (File.mk 420 []).
Proof.
  destruct (release_correct snaps some_snapshot three_files) as (fs' & E & Hfs).
  - apply indexed_names. by vm_compute.
  - exists fs'. split; [exact E|]. split; rewrite Hfs; vm_compute; reflexivity.
Defined.
End witnesses.
