(* ===== verification/FileUtil.v ===== *)
(** * Files of the client ([src/client/src/pkg/fileutil/])

    Checks of directories, sorted listings and the zeroing of a file, over a file system
    whose operations can fail.  Paths are texts, each file has one; symbolic links
    and access rights of the process are left out (a refusal is a fault like any other). *)

From S2P Require Import Prelude Proto Peers SnapFiles.
#[local] Open Scope char_scope.
#[local] Open Scope Z_scope.

(** ** The file system *)
Inductive Node := DirNode (mode : Z) | FileNode (mode : Z) (content : list Byte.byte).
Definition set_mode (mode : Z) (n : Node) : Node :=
  match n with DirNode _ => DirNode mode | FileNode _ c => FileNode mode c end.
(** [MetadataExt::mode]: the permissions with the type of the file. *)
Definition S_IFDIR : Z := 16384.
Definition S_IFREG : Z := 32768.
Definition st_mode (n : Node) : Z :=
  match n with DirNode m => Z.lor S_IFDIR m | FileNode m _ => Z.lor S_IFREG m end.

Record Fs := MkFs {
  tree : gmap text Node;
  (** Whether the next operations fail, and how many bytes a failing [write_all] has written. *)
  failing : list (option (IoError * nat))
}.
#[global] Instance eta_fs : Eta Fs := fun s => MkFs (tree s) (failing s).
#[global] Instance set_tree : Setter tree := ltac:(derive_setter).
#[global] Instance set_failing : Setter failing := ltac:(derive_setter).
Abbreviation FsIO A := (Prog Fs (result A IoError)).

(** The mask of the process, and the order in which the system lists the names of a directory. *)
Class System := { umask : Z; list_dir : gmap text Node -> text -> list text }.
Class SystemLaws `{System} := {
  umask_range : 0 <= umask < 512;
  list_dir_names m dir name : name ∈ list_dir m dir <-> plain name /\ is_Some (m !! join dir name);
  list_dir_once m dir : NoDup (list_dir m dir)
}.

(** The format [{}] of a text and of an error. *)
Definition show (t : text) : string := String.string_of_list_ascii t.
Definition other_error (msg : string) : IoError := Io Other msg.

Section fs.
Context `{System}.
Local Open Scope string_scope.

Definition next_fault : Prog Fs (option (IoError * nat)) :=
  s ← get;
  match failing s with
  | [] => mret None
  | f :: fs => modify (fun s => s <| failing := fs |>);; mret f
  end.
(** A call of the system that has no effect if it fails. *)
Definition call {A} (op : FsIO A) : FsIO A :=
  f ← next_fault; match f with Some (e, _) => mret (Err e) | None => op end.
Definition no_entry : IoError := Io NotFound "No such file or directory".
Definition is_a_directory : IoError := Io OsError "Is a directory".
Definition not_a_directory : IoError := Io OsError "Not a directory".
Definition file_exists : IoError := Io OsError "File exists".

Definition at_path (path : text) : Prog Fs (option Node) := s ← get; mret (tree s !! path).
Definition put_node (path : text) (n : Node) : Prog Fs unit := modify (fun s => s <| tree := <[path := n]> (tree s) |>).

(** The directory of a path; [[]] is the current one. *)
Definition parent (path : text) : text :=
  match cut "/"%char (rev path) with
  | (_, None) => []
  | (_, Some []) => ["/"%char]
  | (_, Some dir) => rev dir
  end.
Definition is_dir (m : gmap text Node) (path : text) : bool :=
  match path with
  | [] => true
  | _ => match m !! path with Some (DirNode _) => true | _ => false end
  end.

(** Why nothing can be made at a path. *)
Definition no_parent (m : gmap text Node) (path : text) : IoError :=
  match m !! parent path with Some _ => not_a_directory | None => no_entry end.

Definition fs_metadata (path : text) : FsIO Node :=
  call (n ← at_path path; mret (match n with Some n => Ok n | None => Err no_entry end)).
(** [File::create] *)
Definition fs_create (path : text) : FsIO unit :=
  call (s ← get;
        match tree s !! path with
        | Some (DirNode _) => mret (Err is_a_directory)
        | Some (FileNode m _) => put_node path (FileNode m []);; mret (Ok tt)
        | None =>
            if is_dir (tree s) (parent path) then put_node path (FileNode (Z.land 438 (Z.lnot umask)) []);; mret (Ok tt)
            else mret (Err (no_parent (tree s) path))
        end).
(** [write_all] on a file that was just created. *)
Definition fs_write (path : text) (content : list Byte.byte) : FsIO unit :=
  f ← next_fault;
  n ← at_path path;
  let write c := match n with Some (FileNode m _) => put_node path (FileNode m c) | _ => mret tt end in
  match f with
  | Some (e, k) => write (take k content);; mret (Err e)
  | None => write content;; mret (Ok tt)
  end.
Definition fs_remove_file (path : text) : FsIO unit :=
  call (n ← at_path path;
        match n with
        | Some (FileNode _ _) => modify (fun s => s <| tree := delete path (tree s) |>);; mret (Ok tt)
        | Some (DirNode _) => mret (Err is_a_directory)
        | None => mret (Err no_entry)
        end).
Definition fs_set_permissions (path : text) (mode : Z) : FsIO unit :=
  call (n ← at_path path;
        match n with
        | Some n => put_node path (set_mode mode n);; mret (Ok tt)
        | None => mret (Err no_entry)
        end).
Definition fs_create_dir (path : text) : FsIO unit :=
  call (s ← get;
        match tree s !! path with
        | Some _ => mret (Err file_exists)
        | None =>
            if is_dir (tree s) (parent path) then put_node path (DirNode (Z.land 511 (Z.lnot umask)));; mret (Ok tt)
            else mret (Err (no_parent (tree s) path))
        end).
(** [Path::is_dir] *)
Definition path_is_dir (path : text) : Prog Fs bool :=
  r ← fs_metadata path; mret (match r with Ok (DirNode _) => true | _ => false end).
(** [fs::create_dir_all]: the directories above are made if they are missed.  Each is shorter
    than what it contains, which bounds the recursion. *)
Fixpoint make_dirs (fuel : nat) (path : text) : FsIO unit :=
  match fuel with
  | O => fun _ => OutOfFuel
  | S fuel =>
      if bool_decide (path = []) then mret (Ok tt)
      else
        r ← fs_create_dir path;
        match r with
        | Ok _ => mret (Ok tt)
        | Err (Io NotFound _) =>
            if bool_decide (path = ["/"%char]) then mret (Err no_entry)
            else
              _ ←? make_dirs fuel (parent path);
              r ← fs_create_dir path;
              match r with
              | Ok _ => mret (Ok tt)
              | Err e => d ← path_is_dir path; mret (if d : bool then Ok tt else Err e)
              end
        | Err e => d ← path_is_dir path; mret (if d : bool then Ok tt else Err e)
        end
  end.
Definition fs_create_dir_all (path : text) : FsIO unit := make_dirs (S (length path)) path.
Definition fs_read_dir (dir : text) : FsIO (list text) :=
  call (s ← get;
        mret (match tree s !! dir with
              | Some (DirNode _) => Ok (list_dir (tree s) dir)
              | Some (FileNode _ _) => Err not_a_directory
              | None => Err no_entry
              end)).
End fs.

(** ** Sorted listings ([read_dir.rs]) *)
Definition text_le (s t : text) : Prop := String.le (show s) (show t).
#[global] Instance text_le_dec : RelDecision text_le.
Proof. intros s t. unfold text_le. apply _. Defined.
#[global] Instance text_le_total : Total text_le.
Proof. intros s t. unfold text_le. apply (total String.le). Qed.
#[global] Instance text_le_trans : Transitive text_le.
Proof. intros s t u. unfold text_le. apply transitivity. Qed.
Lemma show_inj s t : show s = show t -> s = t.
Proof.
  intros E. rewrite <-(String.list_ascii_of_string_of_list_ascii s), <-(String.list_ascii_of_string_of_list_ascii t).
  unfold show in E. congruence.
Qed.
#[global] Instance text_le_anti : AntiSymm (=) text_le.
Proof. intros s t H1 H2. apply show_inj. by apply (anti_symm String.le). Qed.

Module ReadDirOp.
Record t := mk { ext : text }.
#[global] Instance eta_t : Eta t := fun s => mk (ext s).
#[global] Instance set_ext : Setter ext := ltac:(derive_setter).
Definition new : t := mk [].
(** [ReadDirOption]: an option changes the operation. *)
Definition apply_opts (self : t) (opts : list (t -> t)) : t := fold_left (fun op opt => opt op) opts self.
End ReadDirOp.
Definition with_ext (ext : text) : ReadDirOp.t -> ReadDirOp.t := fun op => op <| ReadDirOp.ext := ext |>.

Section fileutil.
Context `{System}.

(** An entry that cannot be read panics. *)
Fixpoint dir_names (entries : list text) : Prog Fs (list text) :=
  match entries with
  | [] => mret []
  | entry :: entries =>
      r ← call (mret (Ok entry));
      name ← unwrap (result_ok r);
      names ← dir_names entries;
      mret (name :: names)
  end.
Definition read_dir (d : text) (opts : list (ReadDirOp.t -> ReadDirOp.t)) : FsIO (list text) :=
  let op := ReadDirOp.apply_opts ReadDirOp.new opts in
  entries ←? fs_read_dir d;
  names ← dir_names entries;
  let names := merge_sort text_le names in
  mret (Ok (if negb (bool_decide (ReadDirOp.ext op = [])) then List.filter (ends_with (ReadDirOp.ext op)) names else names)).

(** ** Directories ([fileutil.rs]) *)
Definition PrivateFileMode : Z := 384.
Definition PrivateDirMode : Z := 511.
Definition is_ok {A E} (r : result A E) : bool := match r with Ok _ => true | Err _ => false end.
Local Open Scope string_scope.

Definition is_dir_writeable (dir : text) : FsIO unit :=
  let path := join dir (lit ".touch") in
  _ ←? fs_create path;
  _ ←? fs_write path (String.list_byte_of_string "test");
  _ ←? fs_remove_file path;
  mret (Ok tt).

(** [metadata(name).is_ok()] *)
Definition exists_ (name : text) : Prog Fs bool := r ← fs_metadata name; mret (is_ok r).

(** The format [{:o}]. *)
Definition octal (n : Z) : string := show (print_radix 8 n).
Definition check_dir_permission (dir : text) (perm : Z) : FsIO unit :=
  e ← exists_ dir;
  if negb e then mret (Err (other_error ("directory " ++ show dir ++ " empty, cannot check permission")))
  else
    result ← fs_metadata dir;
    match result with
    | Err e => mret (Err (other_error (message e)))
    | Ok n =>
        let mode := st_mode n in
        if negb (mode =? perm)%Z then
          mret (Err (other_error ("directory " ++ show dir ++ " exist with permission " ++ octal mode ++ ", need " ++ octal perm)))
        else mret (Ok tt)
    end.

(** The permissions of a directory that is there are only worth a line in the log. *)
Definition torch_dir_all (dir : text) : FsIO unit :=
  e ← exists_ dir;
  _ ←? (if e : bool then
          result ← check_dir_permission dir PrivateDirMode;
          mret (Ok tt)
        else
          create_dir ← fs_create_dir_all dir;
          match create_dir with
          | Err e => mret (Err (other_error ("create dir error " ++ show dir ++ ",reason => " ++ message e)))
          | Ok _ =>
              perm ← fs_set_permissions dir PrivateDirMode;
              match perm with
              | Err _ => mret (Err (other_error ("set permission error " ++ show dir)))
              | Ok _ => mret (Ok tt)
              end
          end);
  is_dir_writeable dir.

Definition dir_empty (dir : text) : Prog Fs bool :=
  result ← read_dir dir [];
  match result with
  | Err _ => mret false
  | Ok names => mret (Prelude.len names =? 0)%Z
  end.

Definition create_dir_all (dir : text) : FsIO unit :=
  result ← torch_dir_all dir;
  match result with
  | Ok _ =>
      names ← read_dir dir [];
      match names with
      | Err e => mret (Err (other_error ("err =>" ++ message e)))
      | Ok names =>
          if negb (Prelude.len names =? 0)%Z then mret (Err (other_error ("directory " ++ show dir ++ " not empty")))
          else mret (Ok tt)
      end
  | Err e => mret (Err (other_error ("create error " ++ show dir ++ " , reason =>" ++ message e)))
  end.

(** The loop goes over [dir.iter().next()], which is an option. *)
Definition remove_match_file (input_dir : text) (match_func : text -> bool) : FsIO unit :=
  e ← exists_ input_dir;
  if negb e then mret (Err (other_error ("directory " ++ show input_dir ++ " does not exist")))
  else
    r ← read_dir input_dir [];
    dir ← unwrap (result_ok r);
    match head dir with
    | None => mret (Ok tt)
    | Some path_str =>
        if match_func path_str then
          let file_dir := (input_dir ++ "/"%char :: path_str)%list in
          result ← fs_remove_file file_dir;
          match result with
          | Err e => mret (Err (other_error ("remove file " ++ show file_dir ++ " error,reason =>" ++ message e)))
          | Ok _ => mret (Ok tt)
          end
        else mret (Ok tt)
    end.
End fileutil.

(** ** An open file *)
Record OpenFile := MkOpen { bytes : list Byte.byte; cursor : Z; refused : list (option IoError) }.
#[global] Instance eta_open : Eta OpenFile := fun s => MkOpen (bytes s) (cursor s) (refused s).
#[global] Instance set_bytes : Setter bytes := ltac:(derive_setter).
#[global] Instance set_cursor : Setter cursor := ltac:(derive_setter).
#[global] Instance set_refused : Setter refused := ltac:(derive_setter).
Abbreviation OpenIO A := (Prog OpenFile (result A IoError)).

(** [nix::fcntl::fallocate] with [FALLOC_FL_ZERO_RANGE]: the range is zeroed, the file is made
    longer if the range goes beyond its end, and an empty range is refused. *)
Class Nix := { fallocate_zero : Z -> Z -> list Byte.byte -> result (list Byte.byte) IoError }.
Definition zeros (n : Z) : list Byte.byte := replicate (Z.to_nat n) Byte.x00.
Class NixLaws `{Nix} := {
  fallocate_run off n c : 0 <= off <= len c -> 0 < n ->
    fallocate_zero off n c = Ok (take (Z.to_nat off) c ++ zeros n ++ drop (Z.to_nat (off + n)) c);
  fallocate_empty off n c : n <= 0 -> exists e, fallocate_zero off n c = Err e
}.

Section open.
Context `{Nix}.

Definition on_file {A} (op : OpenIO A) : OpenIO A :=
  f ← get;
  match refused f with
  | [] => op
  | None :: fs => modify (fun f => f <| refused := fs |>);; op
  | Some e :: fs => modify (fun f => f <| refused := fs |>);; mret (Err e)
  end.
Inductive SeekFrom := Start (n : Z) | End_ (n : Z) | Current (n : Z).
(** A position before the start is refused. *)
Definition seek (pos : SeekFrom) : OpenIO Z :=
  on_file (f ← get;
           let p := match pos with Start n => n | End_ n => Prelude.len (bytes f) + n | Current n => cursor f + n end in
           if p <? 0 then mret (Err (Io OsError "Invalid argument"))
           else modify (fun f => f <| cursor := p |>);; mret (Ok p)).
Definition set_len (n : Z) : OpenIO unit :=
  on_file (modify (fun f => f <| bytes := take (Z.to_nat n) (bytes f) ++ zeros (n - Prelude.len (bytes f)) |>);; mret (Ok tt)).
Definition fallocate (off n : Z) : OpenIO unit :=
  on_file (f ← get;
           match fallocate_zero off n (bytes f) with
           | Ok c => modify (fun f => f <| bytes := c |>);; mret (Ok tt)
           | Err e => mret (Err e)
           end).
(** [n as i64] of a word. *)
Definition as_i64 (n : Z) : Z := if n <? 9223372036854775808 then n else n - U64_MOD.

Definition zero_to_end : OpenIO unit :=
  off ←? seek (Current 0);
  lenf ←? seek (End_ 0);
  _ ←? set_len off;
  _ ←? fallocate (as_i64 off) (as_i64 (lenf -w off));
  _ ←? seek (Start off);
  mret (Ok tt).
End open.

(** ** Paths *)
Section file_paths.
Implicit Types dir name path : text.
Local Open Scope char_scope.

Lemma cut_app c s t : c ∉ s -> cut c (s ++ c :: t) = (s, Some t).
Proof.
  induction s as [|a s IH]; intros Hc; simpl; [by rewrite Ascii.eqb_refl|].
  apply not_elem_of_cons in Hc as [Ha Hs]. rewrite IH by done. destruct (Ascii.eqb_spec a c); [by subst|done].
Qed.
(** A path of a directory as it is usually written: without a slash at its end. *)
Definition tidy dir : Prop := dir = ["/"] \/ dir <> [] /\ last dir <> Some "/".

Lemma tidy_prefix dir : tidy dir -> dir <> [] /\ (dir = ["/"] /\ dir_prefix dir = ["/"] \/ dir_prefix dir = dir ++ ["/"]).
Proof.
  unfold dir_prefix. intros [->|[Hn Hl]]; [by split; [|left]|]. split; [done|right].
  destruct (last dir) as [c|] eqn:E; [|by apply last_None in E].
  destruct c as [[] [] [] [] [] [] [] []]; done.
Qed.
Lemma join_tidy dir name : tidy dir -> dir <> ["/"] -> plain name -> join dir name = dir ++ "/" :: name.
Proof.
  intros Ht Hr Hp. rewrite join_plain by done. destruct (tidy_prefix dir Ht) as [_ [[? _]|E]]; [done|]. rewrite E.
  by rewrite <-app_assoc.
Qed.
Lemma parent_join dir name : tidy dir -> plain name -> parent (join dir name) = dir.
Proof.
  intros Ht Hp. rewrite join_plain by done. unfold parent. destruct Hp as [Hn Hs].
  assert ("/" ∉ rev name) as Hr by (rewrite list_elem_of_In, <-in_rev, <-list_elem_of_In; exact Hs).
  destruct (tidy_prefix dir Ht) as [Hd [[-> E]|E]]; rewrite E, !rev_app_distr; simpl.
  - by rewrite cut_app.
  - rewrite cut_app by done. destruct (rev dir) as [|c l] eqn:E0.
    + destruct Hd. apply (f_equal (@rev _)) in E0. by rewrite rev_involutive in E0.
    + by rewrite <-E0, rev_involutive.
Qed.
Lemma join_not_dir dir name : tidy dir -> plain name -> join dir name <> dir.
Proof.
  intros Ht Hp E. rewrite join_plain in E by done. apply (f_equal length) in E. rewrite length_app in E.
  destruct Hp as [Hn _]. destruct name; [done|]. destruct (tidy_prefix dir Ht) as [_ [[-> Hd]|Hd]]; rewrite Hd in E;
    rewrite ?length_app in E; simpl in E; lia.
Qed.
Lemma touch_plain : plain (lit ".touch").
Proof. split; [done|]. by vm_compute; repeat (apply not_elem_of_cons; split; [done|]); apply not_elem_of_nil. Qed.
End file_paths.

(** ** Running on a file system *)
Section running.
Context `{SystemLaws}.

(** A file system on which nothing fails. *)
Definition calm (m : gmap text Node) : Fs := MkFs m [].

Lemma call_calm {A} (op : FsIO A) m : call op (calm m) = op (calm m).
Proof. done. Qed.
Lemma next_fault_inv s f s' : next_fault s = Ret (f, s') -> tree s' = tree s.
Proof. unfold next_fault. prog_unfold. destruct (failing s); by intros [= _ <-]. Qed.
Lemma next_fault_total s : exists f s', next_fault s = Ret (f, s').
Proof. unfold next_fault. prog_unfold. destruct (failing s); eauto. Qed.
Lemma call_inv {A} (op : FsIO A) s r s' : call op s = Ret (r, s') ->
  exists s1, tree s1 = tree s /\ ((exists e, r = Err e) /\ s' = s1 \/ op s1 = Ret (r, s')).
Proof.
  unfold call. prog_unfold. destruct (next_fault_total s) as (f & s1 & E). rewrite E. apply next_fault_inv in E.
  intros Hr. exists s1. split; [done|]. destruct f as [[e n]|]; [|by right]. left. injection Hr as <- <-. eauto.
Qed.
Lemma fs_metadata_inv path s r s' : fs_metadata path s = Ret (r, s') ->
  tree s' = tree s /\ forall n, r = Ok n -> tree s !! path = Some n.
Proof.
  intros (s1 & Hs & [[[e ->] ->]|E])%call_inv; [done|]. unfold at_path in E. prog_inv. split; [done|].
  intros n. rewrite <-Hs. by destruct (tree _ !! path); intros [= ->].
Qed.

(** The names of a directory in order. *)
Definition listing (m : gmap text Node) (dir : text) : list text := merge_sort text_le (list_dir m dir).
Definition with_suffix (e : text) (names : list text) : list text := List.filter (ends_with e) names.

Lemma dir_names_inv l s r s' : dir_names l s = Ret (r, s') -> r = l /\ tree s' = tree s.
Proof.
  revert s r s'. induction l as [|n l IH]; intros s r s' E; simpl in E; [by prog_inv|].
  apply bind_inv in E as (r1 & s1 & (s2 & Hs & Hc)%call_inv & E).
  destruct Hc as [[[e ->] ->]|E1]; [by prog_inv|]. prog_inv.
  match goal with E : dir_names l _ = _ |- _ => apply IH in E as [-> ->] end. simplify_eq/=. done.
Qed.
Lemma dir_names_calm l m : dir_names l (calm m) = Ret (l, calm m).
Proof. induction l as [|n l IH]; [done|]. simpl. prog_unfold. simpl. by rewrite IH. Qed.

Lemma ends_with_nil s : ends_with [] s = true.
Proof. done. Qed.
Lemma filter_all {A} (f : A -> bool) l : (forall x, f x = true) -> List.filter f l = l.
Proof. intros Hf. induction l as [|x l IH]; simpl; [done|]. by rewrite Hf, IH. Qed.
Lemma suffix_filter op names :
  (if negb (bool_decide (ReadDirOp.ext op = [])) then List.filter (ends_with (ReadDirOp.ext op)) names else names) =
  with_suffix (ReadDirOp.ext op) names.
Proof.
  unfold with_suffix. case_bool_decide as E; simpl; [|done]. by rewrite E, filter_all by apply ends_with_nil.
Qed.
Lemma read_dir_inv d opts s r s' : read_dir d opts s = Ret (r, s') ->
  tree s' = tree s /\
  forall l, r = Ok l -> (exists mode, tree s !! d = Some (DirNode mode)) /\
    l = with_suffix (ReadDirOp.ext (ReadDirOp.apply_opts ReadDirOp.new opts)) (listing (tree s) d).
Proof.
  unfold read_dir. intros [(l & s1 & E1 & E)|(e & E1 & ->)]%try_bind_inv.
  - apply call_inv in E1 as (s2 & Hs2 & [[[? ?] _]|E1]); [done|]. apply bind_inv in E as (names & s3 & [-> Hs3]%dir_names_inv & E).
    rewrite suffix_filter in E. prog_inv. rewrite <-Hs2. split; [congruence|]. intros l' [= <-].
    destruct (tree _ !! d) as [[mode|mode c]|] eqn:Ed; simplify_eq. split; [eauto|]. unfold listing. done.
  - apply call_inv in E1 as (s2 & Hs2 & [[_ ->]|E1]); [done|]. prog_inv. done.
Qed.
Lemma read_dir_calm d opts m mode : m !! d = Some (DirNode mode) ->
  read_dir d opts (calm m) = Ret (Ok (with_suffix (ReadDirOp.ext (ReadDirOp.apply_opts ReadDirOp.new opts)) (listing m d)), calm m).
Proof.
  intros Hd. unfold read_dir. erewrite try_bind_run by (unfold fs_read_dir; rewrite call_calm; prog_unfold; simpl; by rewrite Hd).
  erewrite bind_run by apply dir_names_calm. by rewrite suffix_filter.
Qed.
Lemma listing_names m dir name : name ∈ listing m dir <-> plain name /\ is_Some (m !! join dir name).
Proof using All. unfold listing. rewrite merge_sort_Permutation. apply list_dir_names. Qed.
End running.

(** ** Making directories *)
Section directories.
Context `{SystemLaws}.
Implicit Types dir path p : text.

Definition touch_file (dir : text) : text := join dir (lit ".touch").
(** [above path p]: [p] is [path] or one of the directories it is in. *)
Inductive above : text -> text -> Prop :=
  | above_self path : above path path
  | above_up path p : path <> [] -> path <> ["/"%char] -> above (parent path) p -> above path p.
Definition new_dir : Node := DirNode (Z.land 511 (Z.lnot umask)).

Lemma cut_spec c s a b : cut c s = (a, b) -> s = a ++ match b with Some t => c :: t | None => [] end.
Proof.
  revert a b. induction s as [|x s IH]; intros a b; simpl; [by intros [= <- <-]|].
  destruct (Ascii.eqb_spec x c) as [->|]; [by intros [= <- <-]|].
  destruct (cut c s) as [a' b'] eqn:E. intros [= <- <-]. simpl. f_equal. by apply IH.
Qed.
Lemma parent_shorter path : path <> [] -> path <> ["/"%char] -> (length (parent path) < length path)%nat.
Proof.
  intros Hn Hr. unfold parent. destruct (cut _ (rev path)) as [a b] eqn:E. apply cut_spec in E.
  destruct b as [[|c t]|]; [|..|destruct path; simpl; [done|lia]].
  - apply (f_equal (@rev _)) in E. rewrite rev_involutive, rev_app_distr in E. simpl in E. subst path.
    destruct (rev a); simpl in *; [done|lia].
  - apply (f_equal length) in E. rewrite length_rev, length_app in E. rewrite length_rev. simpl in *. lia.
Qed.
Lemma above_length path p : above path p -> (length p <= length path)%nat.
Proof. induction 1 as [|path p Hn Hr _ IH]; [lia|]. pose proof (parent_shorter path Hn Hr). lia. Qed.
Lemma above_join dir name : tidy dir -> plain name -> ~ above dir (join dir name).
Proof.
  intros Ht Hp Ha%above_length. destruct (decide (dir = ["/"%char])) as [->|Hr].
  - rewrite (join_plain _ name) in Ha by done. destruct Hp as [Hn _]. destruct name; [done|]. simpl in Ha. lia.
  - rewrite join_tidy, length_app in Ha by done. simpl in Ha. lia.
Qed.

Lemma is_dir_spec m p : is_dir m p = true <-> p = [] \/ exists mode, m !! p = Some (DirNode mode).
Proof.
  destruct p as [|c p]; simpl; [by split; [left|]|]. destruct (m !! _) as [[mode|mode content]|]; naive_solver.
Qed.
Lemma fs_metadata_calm path m : fs_metadata path (calm m) = Ret (match m !! path with Some n => Ok n | None => Err no_entry end, calm m).
Proof. done. Qed.
Lemma path_is_dir_calm path m : path_is_dir path (calm m) = Ret (match m !! path with Some (DirNode _) => true | _ => false end, calm m).
Proof. unfold path_is_dir. erewrite bind_run by apply fs_metadata_calm. by destruct (m !! path). Qed.
Lemma exists_calm path m : exists_ path (calm m) = Ret (bool_decide (is_Some (m !! path)), calm m).
Proof. unfold exists_. erewrite bind_run by apply fs_metadata_calm. by destruct (m !! path). Qed.
Lemma fs_create_dir_calm path m : fs_create_dir path (calm m) =
  match m !! path with
  | Some _ => Ret (Err file_exists, calm m)
  | None => if is_dir m (parent path) then Ret (Ok tt, calm (<[path := new_dir]> m)) else Ret (Err (no_parent m path), calm m)
  end.
Proof. unfold fs_create_dir. rewrite call_calm. prog_unfold. simpl. destruct (m !! path); [done|]. by destruct (is_dir _ _). Qed.

(** [fs::create_dir_all] makes the directories that are missed, if no file is in the way. *)
Lemma make_dirs_calm fuel path m : (length path < fuel)%nat ->
  (forall p, above path p -> p <> [] -> forall mode c, m !! p <> Some (FileNode mode c)) ->
  (above path ["/"%char] -> is_Some (m !! ["/"%char])) ->
  exists m', make_dirs fuel path (calm m) = Ret (Ok tt, calm m') /\ m ⊆ m' /\ is_dir m' path = true /\
    forall p n, m' !! p = Some n -> m !! p = Some n \/ n = new_dir /\ above path p /\ p <> [].
Proof.
  revert path. induction fuel as [|fuel IH]; intros path Hfuel Hfile Hroot; [lia|]. simpl.
  case_bool_decide as En; [subst path; exists m; eauto|].
  destruct (m !! path) as [n|] eqn:Ep.
  { erewrite bind_run by (rewrite fs_create_dir_calm, Ep; done). cbv iota.
    unfold file_exists. cbv iota. erewrite bind_run by (rewrite path_is_dir_calm, Ep; done).
    destruct n as [mode|mode c]; [|by destruct (Hfile path (above_self _) En mode c)].
    exists m. split_and!; [done|done|apply is_dir_spec; eauto|auto]. }
  assert (path <> ["/"%char]) as Hr. { intros ->. destruct (Hroot (above_self _)) as [n Hn]. congruence. }
  assert (forall m', m ⊆ m' -> m' !! path = None -> is_dir m' (parent path) = true ->
    (forall p n, m' !! p = Some n -> m !! p = Some n \/ n = new_dir /\ above path p /\ p <> []) ->
    fs_create_dir path (calm m') = Ret (Ok tt, calm (<[path := new_dir]> m')) /\ m ⊆ <[path := new_dir]> m' /\
    is_dir (<[path := new_dir]> m') path = true /\
    forall p n, <[path := new_dir]> m' !! p = Some n -> m !! p = Some n \/ n = new_dir /\ above path p /\ p <> []) as Hmake.
  { intros m' Hm Hnone Hd Hnew. rewrite fs_create_dir_calm, Hnone, Hd. split_and!; [done| | |].
    - etrans; [exact Hm|]. by apply insert_subseteq.
    - apply is_dir_spec. right. eexists. by rewrite lookup_insert_eq.
    - intros p n [[<- <-]|[_ Hn]]%lookup_insert_Some; [right|by apply Hnew]. split_and!; [done|constructor|done]. }
  destruct (is_dir m (parent path)) eqn:Ed.
  { destruct (Hmake m) as (E & Hrest); [done..|auto|]. erewrite bind_run by exact E. eauto. }
  erewrite bind_run by (rewrite fs_create_dir_calm, Ep, Ed; done).
  assert (m !! parent path = None) as Hpar.
  { destruct (m !! parent path) as [[mode|mode c]|] eqn:E; [..|done]; exfalso.
    - assert (is_dir m (parent path) = true) by (apply is_dir_spec; eauto). congruence.
    - destruct (decide (parent path = [])) as [E0|E0]; [by rewrite E0 in Ed|].
      by apply (Hfile (parent path) (above_up _ _ En Hr (above_self _)) E0 mode c). }
  unfold no_parent. rewrite Hpar. cbv iota beta delta [no_entry]. rewrite bool_decide_false by done.
  pose proof (parent_shorter path En Hr).
  destruct (IH (parent path)) as (m1 & E & Hsub & Hd & Hnew); [lia| | |].
  - intros p Hp. apply Hfile. by constructor.
  - intros Hp. apply Hroot. by constructor.
  - erewrite try_bind_run by exact E. destruct (Hmake m1) as (E1 & Hrest); [done| |done| |].
    + destruct (m1 !! path) as [n|] eqn:E1; [|done]. exfalso.
      destruct (Hnew path n E1) as [?|(_ & Ha%above_length & _)]; [congruence|lia].
    + intros p n Hn. destruct (Hnew p n Hn) as [?|(-> & Ha & Hp)]; [by left|right]. split_and!; [done|by constructor|done].
    + erewrite bind_run by exact E1. eauto.
Qed.

(** Only what [P] says is changed, removed or made, but for new directories at the places of [Q]. *)
Definition keeps_but (P Q : text -> Prop) (s s' : Fs) : Prop :=
  (forall p n, ~ P p -> tree s !! p = Some n -> tree s' !! p = Some n) /\
  (forall p n, ~ P p -> tree s' !! p = Some n -> tree s !! p = Some n \/ n = new_dir /\ Q p).
#[local] Instance keeps_but_preorder P Q : PreOrder (keeps_but P Q).
Proof.
  split; [intros s; split; by auto|]. intros s1 s2 s3 [H12 N12] [H23 N23]. split; intros p n HP Hn.
  - by apply H23, H12.
  - destruct (N23 p n HP Hn) as [Hn2|?]; [by apply N12|by right].
Qed.
Lemma keeps_tree P Q s s' : tree s' = tree s -> keeps_but P Q s s'.
Proof. intros E. split; rewrite E; by auto. Qed.

Lemma next_fault_keeps P Q : pres (keeps_but P Q) next_fault.
Proof. intros s f s' E%next_fault_inv. by apply keeps_tree. Qed.
Lemma put_node_keeps (P Q : text -> Prop) path n : P path -> pres (keeps_but P Q) (put_node path n).
Proof.
  intros HP s r s' E. unfold put_node in E. prog_inv. split; intros p n' Hp; fields; rewrite lookup_insert_ne by (by intros ->); auto.
Qed.
Lemma delete_keeps (P Q : text -> Prop) path : P path -> forall s, keeps_but P Q s (s <| tree := delete path (tree s) |>).
Proof. intros HP s. split; intros p n' Hp; fields; rewrite lookup_delete_ne by (by intros ->); auto. Qed.
#[local] Hint Resolve next_fault_keeps put_node_keeps : frame.
Lemma call_keeps {A} P Q (op : FsIO A) : pres (keeps_but P Q) op -> pres (keeps_but P Q) (call op).
Proof.
  intros Hop s r s' (s1 & Hs & [[_ ->]|E])%call_inv; [by apply keeps_tree|]. etrans; [by apply keeps_tree|by eapply Hop].
Qed.
Lemma fs_metadata_keeps P Q path : pres (keeps_but P Q) (fs_metadata path).
Proof. intros s r s' [E _]%fs_metadata_inv. by apply keeps_tree. Qed.
Lemma read_dir_keeps P Q dir opts : pres (keeps_but P Q) (read_dir dir opts).
Proof. intros s r s' [E _]%read_dir_inv. by apply keeps_tree. Qed.
#[local] Hint Resolve call_keeps fs_metadata_keeps read_dir_keeps : frame.
Lemma fs_create_dir_keeps P (Q : text -> Prop) path : Q path -> pres (keeps_but P Q) (fs_create_dir path).
Proof.
  intros HQ. apply call_keeps. intros s r s' E. unfold put_node in E. prog_inv; try done. split; intros p n _; fields.
  - intros Hn. rewrite lookup_insert_ne; [done|]. intros ->. congruence.
  - intros [[<- <-]|[_ Hn]]%lookup_insert_Some; auto.
Qed.
Lemma path_is_dir_keeps P Q path : pres (keeps_but P Q) (path_is_dir path).
Proof. unfold path_is_dir. frame. Qed.
#[local] Hint Resolve path_is_dir_keeps : frame.
Lemma make_dirs_keeps P (Q : text -> Prop) fuel path : (forall p, above path p -> Q p) -> pres (keeps_but P Q) (make_dirs fuel path).
Proof.
  revert path. induction fuel as [|fuel IH]; intros path HQ; simpl; [frame|]. case_bool_decide as Hn; [frame|].
  assert (pres (keeps_but P Q) (fs_create_dir path)) by (apply fs_create_dir_keeps, HQ; constructor).
  destruct (bool_decide (path = ["/"%char])) eqn:Hr; [frame|]. apply bool_decide_eq_false in Hr.
  assert (pres (keeps_but P Q) (make_dirs fuel (parent path))) by (apply IH; intros p Hp; by apply HQ, above_up).
  frame.
Qed.
Lemma exists_keeps P Q path : pres (keeps_but P Q) (exists_ path).
Proof. unfold exists_. frame. Qed.
#[local] Hint Resolve exists_keeps : frame.
Lemma check_dir_permission_keeps P Q dir perm : pres (keeps_but P Q) (check_dir_permission dir perm).
Proof. unfold check_dir_permission. frame. Qed.
Lemma is_dir_writeable_keeps (P Q : text -> Prop) dir : P (touch_file dir) -> pres (keeps_but P Q) (is_dir_writeable dir).
Proof.
  intros HP. unfold is_dir_writeable, fs_create, fs_write, fs_remove_file, at_path, touch_file in *. frame.
  all: apply call_keeps; frame; by apply delete_keeps.
Qed.
#[local] Hint Resolve check_dir_permission_keeps : frame.
Lemma torch_dir_all_keeps (P Q : text -> Prop) dir : P (touch_file dir) -> P dir -> (forall p, above dir p -> Q p) ->
  pres (keeps_but P Q) (torch_dir_all dir).
Proof.
  intros Ht Hd HQ. pose proof (is_dir_writeable_keeps P Q dir Ht). pose proof (make_dirs_keeps P Q (S (length dir)) dir HQ).
  unfold torch_dir_all, fs_create_dir_all, fs_set_permissions, at_path. frame.
  all: apply call_keeps; frame.
Qed.

Lemma parent_touch dir : tidy dir -> parent (touch_file dir) = dir.
Proof. intros Ht. apply parent_join; [done|apply touch_plain]. Qed.
Lemma is_dir_writeable_calm dir m mode : tidy dir -> m !! dir = Some (DirNode mode) -> m !! touch_file dir = None ->
  is_dir_writeable dir (calm m) = Ret (Ok tt, calm m).
Proof.
  intros Ht Hd Hn. unfold is_dir_writeable. fold (touch_file dir).
  assert (is_dir m dir = true) as Hdir by (apply is_dir_spec; eauto).
  erewrite try_bind_run.
  2: { unfold fs_create. rewrite call_calm. prog_unfold. simpl. rewrite Hn, parent_touch, Hdir by done. unfold put_node. reflexivity. }
  erewrite try_bind_run.
  2: { unfold fs_write. prog_unfold. simpl. unfold at_path, put_node. prog_unfold. simpl. by rewrite lookup_insert_eq. }
  erewrite try_bind_run.
  2: { unfold fs_remove_file, call, next_fault, at_path. prog_unfold. simpl. rewrite lookup_insert_eq. reflexivity. }
  unfold mret, prog_ret, calm. fields. simpl. do 3 f_equal. rewrite insert_insert_eq. by rewrite delete_insert_id.
Qed.

Lemma fs_metadata_total path s : exists r s', fs_metadata path s = Ret (r, s') /\ tree s' = tree s /\ forall n, r = Ok n -> tree s !! path = Some n.
Proof.
  destruct (next_fault_total s) as (f & s1 & E).
  assert (exists r s', fs_metadata path s = Ret (r, s')) as (r & s' & Em).
  { unfold fs_metadata, call, at_path. prog_unfold. rewrite E. destruct f as [[e k]|]; eauto. }
  exists r, s'. split; [done|]. by apply fs_metadata_inv in Em.
Qed.
(** The bits of a mode that [chmod] can set. *)
Definition mode_bits (n : Node) : Prop := 0 <= match n with DirNode m | FileNode m _ => m end < 4096.
Lemma st_mode_type n : mode_bits n -> 4096 <= st_mode n.
Proof.
  intros Hm. assert (forall a b, 0 <= a -> 0 <= b -> a <= Z.lor a b) as Hlor.
  { intros a b Ha Hb. apply Z.ldiff_le; [by apply Z.lor_nonneg|]. apply Z.bits_inj'. intros i Hi.
    rewrite Z.ldiff_spec, Z.lor_spec, Z.bits_0. by destruct (Z.testbit a i), (Z.testbit b i). }
  unfold mode_bits in Hm. destruct n as [m|m c]; simpl; [transitivity S_IFDIR|transitivity S_IFREG]; try apply Hlor; unfold S_IFDIR, S_IFREG; lia.
Qed.

(** The mode of a directory says what it is too, so that it is never a set of permissions: the check
    fails whatever the permissions are and whatever the system answers, and changes nothing. *)
Theorem check_dir_permission_fails dir perm s : (forall p n, tree s !! p = Some n -> mode_bits n) -> 0 <= perm < 4096 ->
  exists e s', check_dir_permission dir perm s = Ret (Err e, s') /\ tree s' = tree s.
Proof.
  intros Hbits Hperm. unfold check_dir_permission, exists_.
  destruct (fs_metadata_total dir s) as (r1 & s1 & E1 & Hs1 & _).
  erewrite bind_run by (erewrite bind_run by exact E1; done). destruct r1 as [n1|e1]; simpl; [|unfold mret, prog_ret; eauto].
  destruct (fs_metadata_total dir s1) as (r2 & s2 & E2 & Hs2 & Hn2). erewrite bind_run by exact E2.
  assert (tree s2 = tree s) by congruence. destruct r2 as [n2|e2]; [|unfold mret, prog_ret; eauto].
  assert (4096 <= st_mode n2). { apply st_mode_type, (Hbits dir). rewrite <-Hs1. by apply Hn2. }
  destruct (Z.eqb_spec (st_mode n2) perm); [lia|]. simpl. unfold mret, prog_ret. eauto.
Qed.
Lemma check_dir_permission_calm dir perm m : exists r, check_dir_permission dir perm (calm m) = Ret (r, calm m).
Proof.
  unfold check_dir_permission. erewrite bind_run by apply exists_calm. case_bool_decide; simpl; [|by eexists].
  erewrite bind_run by apply fs_metadata_calm. destruct (m !! dir); [|by eexists]. case_match; by eexists.
Qed.

Lemma torch_dir_all_calm_there dir m mode : tidy dir -> m !! dir = Some (DirNode mode) -> m !! touch_file dir = None ->
  torch_dir_all dir (calm m) = Ret (Ok tt, calm m).
Proof.
  intros Ht Hd Hn. unfold torch_dir_all. erewrite bind_run by apply exists_calm. rewrite bool_decide_true by eauto.
  destruct (check_dir_permission_calm dir PrivateDirMode m) as [r E].
  erewrite try_bind_run by (cbv iota; erewrite bind_run by exact E; done). by eapply is_dir_writeable_calm.
Qed.
Lemma torch_dir_all_calm_missing dir m : tidy dir -> m !! dir = None -> (forall name, plain name -> m !! join dir name = None) ->
  (forall p, above dir p -> p <> [] -> forall mode c, m !! p <> Some (FileNode mode c)) ->
  (above dir ["/"%char] -> is_Some (m !! ["/"%char])) ->
  exists m', torch_dir_all dir (calm m) = Ret (Ok tt, calm m') /\ m ⊆ m' /\ m' !! dir = Some (DirNode PrivateDirMode) /\
    forall p n, m' !! p = Some n -> p = dir \/ m !! p = Some n \/ n = new_dir /\ above dir p.
Proof.
  intros Ht Hd Hin Hfile Hroot. destruct (tidy_prefix dir Ht) as [Hne _].
  destruct (make_dirs_calm (S (length dir)) dir m) as (m1 & E & Hsub & Hdir & Hnew); [lia|done..|].
  apply is_dir_spec in Hdir as [?|[mode Hdir]]; [done|].
  assert (forall name, plain name -> m1 !! join dir name = None) as Hin1.
  { intros name Hp. destruct (m1 !! join dir name) as [n|] eqn:En; [|done]. exfalso.
    destruct (Hnew _ _ En) as [E0|(_ & Ha & _)]; [by rewrite Hin in E0|by apply (above_join dir name)]. }
  assert (fs_set_permissions dir PrivateDirMode (calm m1) = Ret (Ok tt, calm (<[dir := DirNode PrivateDirMode]> m1))) as Eperm.
  { unfold fs_set_permissions. rewrite call_calm. unfold at_path, put_node. prog_unfold. simpl. by rewrite Hdir. }
  exists (<[dir := DirNode PrivateDirMode]> m1). split_and!.
  - unfold torch_dir_all. erewrite bind_run by apply exists_calm. rewrite bool_decide_false by (rewrite Hd; by intros []).
    erewrite try_bind_run by (cbv iota; erewrite bind_run by exact E; cbv iota; erewrite bind_run by exact Eperm; done).
    eapply is_dir_writeable_calm; [done|by rewrite lookup_insert_eq|]. unfold touch_file.
    rewrite lookup_insert_ne; [apply Hin1, touch_plain|]. symmetry. apply join_not_dir; [done|apply touch_plain].
  - apply map_subseteq_spec. intros p n Hp. rewrite lookup_insert_ne by congruence. by eapply lookup_weaken.
  - by rewrite lookup_insert_eq.
  - intros p n [[<- <-]|[Hp Hn]]%lookup_insert_Some; [by left|]. right. destruct (Hnew p n Hn) as [?|(? & ? & _)]; auto.
Qed.

(** A directory without entries. *)
Definition empty_dir (m : gmap text Node) (dir : text) : Prop :=
  (exists mode, m !! dir = Some (DirNode mode)) /\ forall name, plain name -> m !! join dir name = None.
Lemma listing_empty m dir : listing m dir = [] <-> forall name, plain name -> m !! join dir name = None.
Proof using All.
  split.
  - intros E name Hp. destruct (m !! join dir name) eqn:En; [|done]. assert (name ∈ listing m dir) as Hin by (apply listing_names; eauto).
    rewrite E in Hin. by apply not_elem_of_nil in Hin.
  - intros Hn. destruct (listing m dir) as [|name l] eqn:E; [done|]. exfalso.
    destruct (proj1 (listing_names m dir name)) as [Hp [n Hs]]; [rewrite E; left|]. by rewrite Hn in Hs.
Qed.
Lemma with_suffix_nil names : with_suffix (ReadDirOp.ext (ReadDirOp.apply_opts ReadDirOp.new [])) names = names.
Proof. apply filter_all, ends_with_nil. Qed.
Lemma create_dir_all_end dir m m' : torch_dir_all dir (calm m) = Ret (Ok tt, calm m') -> empty_dir m' dir ->
  create_dir_all dir (calm m) = Ret (Ok tt, calm m').
Proof using All.
  intros E [[mode Hd] Hn]. unfold create_dir_all. erewrite bind_run by exact E. cbv iota.
  erewrite bind_run by by eapply read_dir_calm. by rewrite with_suffix_nil, (proj2 (listing_empty m' dir) Hn).
Qed.
Lemma create_dir_all_keeps (P Q : text -> Prop) dir : P (touch_file dir) -> P dir -> (forall p, above dir p -> Q p) ->
  pres (keeps_but P Q) (create_dir_all dir).
Proof. intros Ht Hd HQ. pose proof (torch_dir_all_keeps P Q dir Ht Hd HQ). unfold create_dir_all. frame. Qed.

(** C39 [create_dir_all] whatever the system answers: nothing is changed, removed or made but the
    directory, its file [.touch] and missing directories above the directory, which are made with the
    permissions the mask of the process leaves; and the answer is [Ok] only with a directory that is there
    and empty.  If nothing fails, an empty directory stays as it is, and a missing one is made together
    with the directories above it.  It gets the mode 511 (0777, every right for everybody), not 0700 as
    the comment of [torch_dir_all] promises: [PrivateDirMode] is 0777. *)
Theorem create_dir_all_correct dir : tidy dir ->
  (forall s r s', create_dir_all dir s = Ret (r, s') ->
    (forall p n, p <> dir -> p <> touch_file dir ->
      (tree s !! p = Some n -> tree s' !! p = Some n) /\
      (tree s' !! p = Some n -> tree s !! p = Some n \/ n = new_dir /\ above dir p)) /\
    (r = Ok tt -> empty_dir (tree s') dir)) /\
  (forall m, empty_dir m dir -> create_dir_all dir (calm m) = Ret (Ok tt, calm m)) /\
  (forall m, m !! dir = None -> (forall name, plain name -> m !! join dir name = None) ->
    (forall p, above dir p -> p <> [] -> forall mode c, m !! p <> Some (FileNode mode c)) ->
    (above dir ["/"%char] -> is_Some (m !! ["/"%char])) ->
    exists m', create_dir_all dir (calm m) = Ret (Ok tt, calm m') /\ m ⊆ m' /\ m' !! dir = Some (DirNode 511) /\
      forall p n, m' !! p = Some n -> p = dir \/ m !! p = Some n \/ n = new_dir /\ above dir p).
Proof using All.
  intros Ht. split_and!.
  - intros s r s' E. split.
    + intros p n Hp Htouch.
      destruct (create_dir_all_keeps (fun p => p = dir \/ p = touch_file dir) (above dir) dir) with s r s' as [Hkeep Hmade]; [by right|by left|done|done|].
      split; [apply Hkeep; tauto|apply Hmade; tauto].
    + intros ->. unfold create_dir_all in E. apply bind_inv in E as (r1 & s1 & _ & E). destruct r1 as [[]|e]; [|prog_inv].
      apply bind_inv in E as (r2 & s2 & [Hs Hr]%read_dir_inv & E). destruct r2 as [l|e]; [|prog_inv].
      destruct (Hr l eq_refl) as [Hd El]. rewrite with_suffix_nil in El.
      destruct (Z.eqb_spec (Prelude.len l) 0) as [El0%len_zero_nil|]; simpl in E; [|prog_inv]. prog_inv.
      unfold empty_dir. rewrite Hs. split; [done|]. by apply listing_empty.
  - intros m Hm. apply create_dir_all_end; [|done]. destruct Hm as [[mode Hd] Hn].
    eapply torch_dir_all_calm_there; [done..|]. apply Hn, touch_plain.
  - intros m Hd Hin Hfile Hroot. destruct (torch_dir_all_calm_missing dir m) as (m' & E & Hsub & Hd' & Hnew); [done..|].
    exists m'. split_and!; [|done..]. apply create_dir_all_end; [done|]. split; [eauto|]. intros name Hp.
    destruct (m' !! join dir name) as [n|] eqn:En; [|done]. exfalso. destruct (Hnew _ _ En) as [?|[E0|[_ Ha]]].
    + by apply (join_not_dir dir name).
    + by rewrite Hin in E0.
    + by apply (above_join dir name).
Qed.

(** [remove_match_file] looks at the first name of the directory only: if it matches, its file is
    removed, and every other file stays, also one that matches. *)
Theorem remove_match_file_first dir (f : text -> bool) m mode : tidy dir -> dir <> ["/"%char] -> m !! dir = Some (DirNode mode) ->
  match head (listing m dir) with
  | None => remove_match_file dir f (calm m) = Ret (Ok tt, calm m)
  | Some name =>
      if f name then
        match m !! join dir name with
        | Some (FileNode _ _) => remove_match_file dir f (calm m) = Ret (Ok tt, calm (delete (join dir name) m))
        | _ => exists e, remove_match_file dir f (calm m) = Ret (Err e, calm m)
        end
      else remove_match_file dir f (calm m) = Ret (Ok tt, calm m)
  end.
Proof using All.
  intros Ht Hr Hd. unfold remove_match_file. erewrite (bind_run (exists_ dir)) by apply exists_calm. rewrite bool_decide_true by eauto.
  cbv beta iota delta [negb]. erewrite (bind_run (read_dir dir [])) by by eapply read_dir_calm. rewrite with_suffix_nil.
  erewrite (bind_run (unwrap _)) by reflexivity.
  destruct (head (listing m dir)) as [name|] eqn:Eh; [|done]. destruct (f name); [|done].
  assert (name ∈ listing m dir) as [Hp _]%listing_names by (destruct (listing m dir); [done|injection Eh as ->; left]).
  rewrite <-(join_tidy dir name) by done. unfold fs_remove_file, call, next_fault, at_path. prog_unfold. simpl.
  destruct (m !! join dir name) as [[]|]; simpl; eauto.
Qed.

Lemma with_suffix_spec e names name : name ∈ with_suffix e names <-> name ∈ names /\ exists t, name = t ++ e.
Proof. unfold with_suffix. by rewrite list_elem_of_In, filter_In, <-list_elem_of_In, ends_with_spec. Qed.
Lemma sorted_filter (f : text -> bool) l : StronglySorted text_le l -> StronglySorted text_le (List.filter f l).
Proof.
  induction 1 as [|x l Hl IH Hx]; simpl; [constructor|]. destruct (f x); [|done]. constructor; [done|].
  rewrite Forall_forall in *. intros y [Hy _]%list_elem_of_In%filter_In. by apply Hx, list_elem_of_In.
Qed.
Lemma listing_sorted m dir : StronglySorted text_le (listing m dir).
Proof. apply StronglySorted_merge_sort; apply _. Qed.
Lemma listing_once m dir : NoDup (listing m dir).
Proof using All. unfold listing. rewrite merge_sort_Permutation. apply list_dir_once. Qed.

(** [read_dir] lists the names of a directory that end in the extension that is asked for, each once
    and in order, and changes nothing. *)
Theorem read_dir_correct d opts m mode : m !! d = Some (DirNode mode) ->
  exists l, read_dir d opts (calm m) = Ret (Ok l, calm m) /\ StronglySorted text_le l /\ NoDup l /\
    forall name, name ∈ l <-> plain name /\ is_Some (m !! join d name) /\
      exists t, name = t ++ ReadDirOp.ext (ReadDirOp.apply_opts ReadDirOp.new opts).
Proof using All.
  intros Hd. eexists. split; [by eapply read_dir_calm|]. split_and!.
  - apply sorted_filter, listing_sorted.
  - apply NoDup_ListNoDup, List.NoDup_filter, NoDup_ListNoDup, listing_once.
  - intros name. rewrite with_suffix_spec, listing_names. tauto.
Qed.
End directories.

(** What [read_dir] gives does not depend on the order in which the system lists the names. *)
Lemma read_dir_any_order `{S1 : System} `{!SystemLaws} (S2 : System) (L2 : @SystemLaws S2) d opts m mode :
  m !! d = Some (DirNode mode) -> read_dir (H:=S1) d opts (calm m) = read_dir (H:=S2) d opts (calm m).
Proof.
  intros Hd. destruct (read_dir_correct (H:=S1) d opts m mode Hd) as (l1 & -> & Hs1 & Hn1 & Hl1).
  destruct (read_dir_correct (H:=S2) d opts m mode Hd) as (l2 & -> & Hs2 & Hn2 & Hl2). do 3 f_equal.
  apply (StronglySorted_unique text_le); [done..|]. apply NoDup_Permutation; [done..|]. intros name. by rewrite Hl1, Hl2.
Qed.

(** ** Zeroing a file *)
Section zeroing.
Context `{NixLaws}.

Definition same_file (f f' : OpenFile) : Prop := bytes f' = bytes f /\ cursor f' = cursor f.
Lemma on_file_inv {A} (op : OpenIO A) f r f' : on_file op f = Ret (r, f') ->
  exists f1, same_file f f1 /\ ((exists e, r = Err e) /\ f' = f1 \/ op f1 = Ret (r, f')).
Proof.
  unfold on_file, same_file. prog_unfold. destruct (refused f) as [|[e|] fs].
  - intros E. exists f. auto.
  - intros [= <- <-]. eexists. split; [|left; eauto]. done.
  - intros E. eexists. split; [|by right]. done.
Qed.
Definition seek_to (pos : SeekFrom) (f : OpenFile) : Z :=
  match pos with Start n => n | End_ n => len (bytes f) + n | Current n => cursor f + n end.
Lemma seek_inv pos f r f' : seek pos f = Ret (r, f') ->
  bytes f' = bytes f /\ forall p, r = Ok p -> p = seek_to pos f /\ cursor f' = p.
Proof.
  intros (f1 & [Hb Hc] & [[[e ->] ->]|E])%on_file_inv; [done|].
  assert (seek_to pos f1 = seek_to pos f) as Hs by (destruct pos; simpl; congruence). rewrite <-Hb.
  apply bind_inv in E as (f2 & f3 & [-> ->]%get_inv & E). fold (seek_to pos f1) in E. rewrite Hs in E.
  cbv zeta in E. destruct (seek_to pos f <? 0); prog_inv; [by split|]. fields. split; [done|]. by intros p [= <-].
Qed.
Lemma set_len_inv n f r f' : set_len n f = Ret (r, f') ->
  bytes f' = bytes f /\ (exists e, r = Err e) \/ bytes f' = take (Z.to_nat n) (bytes f) ++ zeros (n - len (bytes f)) /\ r = Ok tt.
Proof.
  intros (f1 & [Hb Hc] & [[He ->]|E])%on_file_inv; [by left|]. right. prog_inv. fields. by rewrite Hb.
Qed.
Lemma fallocate_inv off n f r f' : fallocate off n f = Ret (r, f') ->
  bytes f' = bytes f /\ (exists e, r = Err e) \/ fallocate_zero off n (bytes f) = Ok (bytes f') /\ r = Ok tt.
Proof.
  intros (f1 & [Hb Hc] & [[He ->]|E])%on_file_inv; [by left|]. rewrite <-Hb.
  apply bind_inv in E as (f2 & f3 & [-> ->]%get_inv & E). destruct (fallocate_zero off n (bytes f1)) as [c|e] eqn:Ef; prog_inv; fields; eauto.
Qed.

Lemma len_take {A} (l : list A) n : 0 <= n <= len l -> len (take (Z.to_nat n) l) = n.
Proof. unfold len. intros Hn. rewrite length_take. lia. Qed.
Lemma zeros_none n : n <= 0 -> zeros n = [].
Proof. intros Hn. unfold zeros. by replace (Z.to_nat n) with 0%nat by lia. Qed.
Lemma as_i64_word a b : 0 <= b < 9223372036854775808 -> 0 <= a < 9223372036854775808 -> as_i64 (a -w b) = a - b.
Proof.
  intros Hb Ha. unfold as_i64, u64_sub, U64_MOD in *. destruct (Z.le_gt_cases b a).
  - rewrite Z.mod_small by lia. destruct (Z.ltb_spec (a - b) 9223372036854775808); lia.
  - rewrite <-(Z.mod_unique_pos (a - b) 18446744073709551616 (-1) (a - b + 18446744073709551616)) by lia.
    destruct (Z.ltb_spec (a - b + 18446744073709551616) 9223372036854775808); lia.
Qed.
Definition free (b : list Byte.byte) (c : Z) : OpenFile := MkOpen b c [].
Lemma seek_free pos b c : 0 <= seek_to pos (free b c) -> seek pos (free b c) = Ret (Ok (seek_to pos (free b c)), free b (seek_to pos (free b c))).
Proof.
  intros Hp. unfold seek, on_file. prog_unfold. simpl. fold (seek_to pos (free b c)).
  change (match pos with Start n => n | End_ n => len b + n | Current n => c + n end) with (seek_to pos (free b c)).
  by destruct (Z.ltb_spec (seek_to pos (free b c)) 0); [lia|].
Qed.
Lemma set_len_free n b c : set_len n (free b c) = Ret (Ok tt, free (take (Z.to_nat n) b ++ zeros (n - len b)) c).
Proof. done. Qed.
Lemma fallocate_free off n b c : fallocate off n (free b c) =
  match fallocate_zero off n b with Ok b' => Ret (Ok tt, free b' c) | Err e => Ret (Err e, free b c) end.
Proof. unfold fallocate, on_file. prog_unfold. simpl. by destruct (fallocate_zero off n b). Qed.
(** A file of a size and with a position that the system allows. *)
Definition small (f : OpenFile) : Prop := len (bytes f) < 9223372036854775808 /\ 0 <= cursor f < 9223372036854775808.

Lemma zero_to_end_inv f r f' : small f -> zero_to_end f = Ret (r, f') -> cursor f <= len (bytes f) ->
  take (Z.to_nat (cursor f)) (bytes f') = take (Z.to_nat (cursor f)) (bytes f) /\
  (r = Ok tt -> cursor f < len (bytes f) /\ cursor f' = cursor f /\
    bytes f' = take (Z.to_nat (cursor f)) (bytes f) ++ zeros (len (bytes f) - cursor f)).
Proof using All.
  intros [Hlen Hcur]. pose proof (len_nonneg (bytes f)) as Hpos.
  intros E Hin. unfold zero_to_end in E.
  apply try_bind_inv in E as [(off & f1 & [Hb1 Ho]%seek_inv & E)|(e & [Hb1 _]%seek_inv & ->)]; [|by rewrite Hb1].
  destruct (Ho off eq_refl) as [-> Hc1]. simpl in *. rewrite Z.add_0_r in *.
  apply try_bind_inv in E as [(lenf & f2 & [Hb2 Hl]%seek_inv & E)|(e & [Hb2 _]%seek_inv & ->)]; [|by rewrite Hb2, Hb1].
  destruct (Hl lenf eq_refl) as [-> Hc2]. simpl in *. rewrite Z.add_0_r, Hb1 in *.
  assert (take (Z.to_nat (cursor f)) (bytes f) ++ zeros (cursor f - len (bytes f)) = take (Z.to_nat (cursor f)) (bytes f)) as Hz
    by by rewrite zeros_none, app_nil_r by lia.
  apply try_bind_inv in E as [([] & f3 & E3 & E)|(e & E3 & ->)].
  2: { apply set_len_inv in E3 as [[Hb3 _]|[_ ?]]; [|done]. by rewrite Hb3, Hb2. }
  apply set_len_inv in E3 as [[_ [? ?]]|[Hb3 _]]; [done|]. rewrite Hb2, Hz in Hb3.
  assert (as_i64 (cursor f) = cursor f) as Ei by (unfold as_i64; destruct (Z.ltb_spec (cursor f) 9223372036854775808); lia).
  rewrite as_i64_word, Ei in E by lia.
  apply try_bind_inv in E as [([] & f4 & E4 & E)|(e & E4 & ->)].
  2: { apply fallocate_inv in E4 as [[Hb4 _]|[_ ?]]; [|done]. by rewrite Hb4, Hb3, take_idemp. }
  apply fallocate_inv in E4 as [[_ [? ?]]|[E4 _]]; [done|].
  destruct (Z.le_gt_cases (len (bytes f)) (cursor f)) as [Hend|Hbefore].
  { destruct (fallocate_empty (cursor f) (len (bytes f) - cursor f) (bytes f3)) as [e Ee]; [lia|]. congruence. }
  rewrite fallocate_run in E4 by (rewrite ?Hb3, ?len_take by lia; lia). injection E4 as E4.
  rewrite Hb3, take_idemp, drop_ge, app_nil_r in E4 by (rewrite length_take; unfold len in *; lia).
  assert (take (Z.to_nat (cursor f)) (bytes f4) = take (Z.to_nat (cursor f)) (bytes f)) as Ht.
  { rewrite <-E4. rewrite take_app_le by (rewrite length_take; unfold len in *; lia). by rewrite take_idemp. }
  apply try_bind_inv in E as [(p & f5 & [Hb5 Hp]%seek_inv & E)|(e & [Hb5 _]%seek_inv & ->)]; [|by rewrite Hb5].
  prog_inv. destruct (Hp _ eq_refl) as [Hp5 Hc5]. rewrite Hb5. split; [done|]. intros _. split_and!; [done|congruence|done].
Qed.
Lemma zero_to_end_runs f : small f -> refused f = [] ->
  if cursor f <? len (bytes f) then exists f', zero_to_end f = Ret (Ok tt, f')
  else exists e f', zero_to_end f = Ret (Err e, f') /\ bytes f' = bytes f ++ zeros (cursor f - len (bytes f)).
Proof using All.
  intros [Hlen Hcur]. pose proof (len_nonneg (bytes f)) as Hpos.
  destruct f as [b c fs]. simpl in *. intros ->. fold (free b c). unfold zero_to_end.
  erewrite try_bind_run by (apply seek_free; simpl; lia). simpl. rewrite Z.add_0_r.
  erewrite try_bind_run by (apply seek_free; simpl; lia). simpl. rewrite Z.add_0_r.
  erewrite try_bind_run by apply set_len_free. rewrite as_i64_word by lia.
  assert (as_i64 c = c) as -> by (unfold as_i64; destruct (Z.ltb_spec c 9223372036854775808); lia).
  destruct (Z.ltb_spec c (len b)).
  + rewrite (zeros_none (c - len b)), app_nil_r by lia.
    erewrite try_bind_run by (rewrite fallocate_free, fallocate_run by (rewrite ?len_take by lia; lia); done).
    erewrite try_bind_run by (apply seek_free; simpl; lia). by eexists.
  + destruct (fallocate_empty c (len b - c) (take (Z.to_nat c) b ++ zeros (c - len b))) as [e Ee]; [lia|].
    erewrite try_bind_fails by (rewrite fallocate_free, Ee; done). do 2 eexists. split; [done|]. simpl.
    by rewrite take_ge by (unfold len in *; lia).
Qed.

(** C40 [zero_to_end]: an [Ok] means that what is before the position stays, the rest of the file is zero
    and its length and the position are as they were, and this is the answer for a position inside the file if
    nothing fails; whatever fails, what is before the position stays.  At the end of the file and beyond it
    is an error, which leaves a file that reaches up to the position. *)
Theorem zero_to_end_correct f : small f ->
  (forall r f', zero_to_end f = Ret (r, f') -> cursor f <= len (bytes f) ->
    take (Z.to_nat (cursor f)) (bytes f') = take (Z.to_nat (cursor f)) (bytes f) /\
    (r = Ok tt -> cursor f < len (bytes f) /\ cursor f' = cursor f /\
      bytes f' = take (Z.to_nat (cursor f)) (bytes f) ++ zeros (len (bytes f) - cursor f))) /\
  (refused f = [] ->
    if cursor f <? len (bytes f) then exists f', zero_to_end f = Ret (Ok tt, f')
    else exists e f', zero_to_end f = Ret (Err e, f') /\ bytes f' = bytes f ++ zeros (cursor f - len (bytes f))).
Proof using All. intros Hf. split; [intros r f'; by apply zero_to_end_inv|by apply zero_to_end_runs]. Qed.
End zeroing.

(** ** Examples: a system that lists names in the order of the map *)
Section witnesses.
#[local] Existing Instance plain_dec.
#[local] Instance some_system : System := {| umask := 18; list_dir m dir := omap (child dir) (map_to_list m).*1 |}.
#[local] Instance some_system_laws : SystemLaws.
Proof.
  split; simpl; [lia| |].
  - intros m dir name. rewrite list_elem_of_omap. split.
    + intros (path & ([p n] & -> & Hin%elem_of_map_to_list)%list_elem_of_fmap & [Hn Hj]%child_Some). split; [done|]. exists n. by rewrite Hj.
    + intros [Hn [n Hin]]. exists (join dir name). split; [|by apply child_Some].
      apply list_elem_of_fmap. exists (join dir name, n). split; [done|]. by apply elem_of_map_to_list.
  - intros m dir. apply omap_nodup; [|apply NoDup_fst_map_to_list].
    intros p1 p2 n [_ <-]%child_Some [_ <-]%child_Some. done.
Qed.
#[local] Instance some_nix : Nix := {|
  fallocate_zero off n c := if 0 <? n then Ok (take (Z.to_nat off) c ++ zeros n ++ drop (Z.to_nat (off + n)) c) else Err (Io OsError "Invalid argument")
|}.
#[local] Instance some_nix_laws : NixLaws.
Proof.
  split; simpl; intros off n c; [intros _ Hn|intros Hn]; destruct (Z.ltb_spec 0 n); first [done|lia|eauto].
Qed.

Definition root_only : gmap text Node := {[lit "/" := DirNode 493]}.
Lemma create_dir_all_correct_witness : exists m',
  create_dir_all (lit "/data/wal") (calm root_only) = Ret (Ok tt, calm m') /\ m' !! lit "/data/wal" = Some (DirNode 511).
Proof.
  destruct (create_dir_all_correct (lit "/data/wal")) as (_ & _ & Hnew); [by right; split|].
  destruct (Hnew root_only) as (m' & E & _ & Hd & _).
  - done.
  - intros name Hp. unfold root_only. apply lookup_singleton_None. rewrite join_plain by done. intros E%(f_equal length).
    rewrite length_app in E. simpl in E. lia.
  - intros p _ _ mode c Hp. unfold root_only in Hp. by apply lookup_singleton_Some in Hp as [_ ?].
  - intros _. by eexists.
  - exists m'. split; [exact E|exact Hd].
Defined.
Lemma zero_to_end_correct_witness : exists f',
  zero_to_end (MkOpen [Byte.x01; Byte.x02; Byte.x03; Byte.x04] 2 []) = Ret (Ok tt, f') /\ bytes f' = [Byte.x01; Byte.x02; Byte.x00; Byte.x00].
Proof.
  destruct (zero_to_end_correct (MkOpen [Byte.x01; Byte.x02; Byte.x03; Byte.x04] 2 [])) as [Hall Hrun]; [by split|].
  destruct (Hrun eq_refl) as [f' E]. exists f'. split; [exact E|].
  destruct (Hall _ _ E) as (_ & Hok); [done|]. by destruct (Hok eq_refl) as (_ & _ & ->).
Defined.
Definition two_files : gmap text Node :=
  list_to_map [(lit "/tmp/d", DirNode 493); (lit "/tmp/d/b.snap", FileNode 420 []); (lit "/tmp/d/a.snap", FileNode 420 []); (lit "/tmp/d/c.db", FileNode 420 [])].
Lemma read_dir_correct_witness : exists l, read_dir (lit "/tmp/d") [with_ext (lit ".snap")] (calm two_files) = Ret (Ok l, calm two_files) /\
  l = [lit "a.snap"; lit "b.snap"].
Proof.
  destruct (read_dir_correct (lit "/tmp/d") [with_ext (lit ".snap")] two_files 493) as (l & E & _ & _ & Hl); [by vm_compute|].
  exists l. split; [exact E|]. vm_compute in E. by injection E as <-.
Defined.
Lemma remove_match_file_first_witness : exists m',
  remove_match_file (lit "/tmp/d") (ends_with (lit ".snap")) (calm two_files) = Ret (Ok tt, calm m') /\
  m' !! lit "/tmp/d/a.snap" = None /\ m' !! lit "/tmp/d/b.snap" = Some (FileNode 420 []).
Proof.
  assert (head (listing two_files (lit "/tmp/d")) = Some (lit "a.snap")) as Eh by by vm_compute.
  assert (two_files !! join (lit "/tmp/d") (lit "a.snap") = Some (FileNode 420 [])) as Ea by by vm_compute.
  pose proof (remove_match_file_first (lit "/tmp/d") (ends_with (lit ".snap")) two_files 493 ltac:(by right; split) ltac:(done) ltac:(by vm_compute)) as E.
  rewrite Eh, Ea in E. simpl in E. eexists. split; [exact E|]. split; by vm_compute.
Defined.
Lemma check_dir_permission_fails_witness : exists e s', check_dir_permission (lit "/") 493 (calm root_only) = Ret (Err e, s') /\ tree s' = root_only.
Proof.
  destruct (check_dir_permission_fails (lit "/") 493 (calm root_only)) as (e & s' & E & Hs).
  - intros p n Hp. unfold root_only in Hp. simpl in Hp. apply lookup_singleton_Some in Hp as [_ <-]. unfold mode_bits. lia.
  - lia.
  - exists e, s'. split; [exact E|exact Hs].
Defined.
End witnesses.
