(* ===== verification/Pipeline.v ===== *)
(** * Sending to a peer ([rafthttp/pipeline.rs], [remote.rs], [snapshot_sender.rs],
      [snap/message.rs], [transport.rs], [etcdserver/async_ch.rs])

    A pipeline is a task that takes messages from a queue, posts them to the peer and reports
    to Raft, to the statistics and to the status of the peer; senders only fill the queue.
    Its steps are a relation, as the task and the senders run concurrently and wait for each
    other at bounded channels.  The answers of the peer, the encoded messages and the clock
    are arguments. *)

From Stdlib Require Import String.
From S2P Require Import Prelude Proto RawNode Peers Stats Wire.

(** ** Channels ([async_ch.rs])

    The crate [async_channel]: a queue with a capacity that is not zero; its clones share it.
    A [Channel] can lose its sending side, and its receiving side was there from the start. *)
Module Channel.
Section channel.
Context {A : Type}.
Record t : Type := mk { capacity : nat; queue : list A; tx : bool }.
#[global] Instance eta_t : Eta t := fun s => mk (capacity s) (queue s) (tx s).
#[global] Instance set_queue : Setter queue := ltac:(derive_setter).
#[global] Instance set_tx : Setter tx := ltac:(derive_setter).

Definition new (n : nat) : outcome t := match n with O => Panic | _ => Ret (mk n [] true) end.
Definition is_full (self : t) : bool := (capacity self <=? length (queue self))%nat.
(** [try_send] refuses a message if the channel is full.  Then it sends, and as another sender may come
    between the two this is a step like that of [send], [None] while it waits.  Without a sender nothing is
    sent, and that is no error. *)
Definition try_send_refuses (self : t) : bool := tx self && is_full self.
Definition try_send (msg : A) (self : t) : option t :=
  if tx self then
    if is_full self then None else Some (self <| queue := queue self ++ [msg] |>)
  else Some self.
Definition try_recv (self : t) : option A * t :=
  match queue self with [] => (None, self) | x :: q => (Some x, self <| queue := q |>) end.
(** A step of [recv] and [send]; [None] while they wait. *)
Definition recv (self : t) : option (A * t) :=
  match queue self with [] => None | x :: q => Some (x, self <| queue := q |>) end.
Definition send (msg : A) (self : t) : outcome (option t) :=
  if tx self then
    Ret (if is_full self then None else Some (self <| queue := queue self ++ [msg] |>))
  else Panic.
Definition take_tx (self : t) : bool * t := (tx self, self <| tx := false |>).
End channel.
Arguments t : clear implicits.
End Channel.

(** ** Snapshot messages ([snap/message.rs]) *)
Module SnapMessage.
Record t : Type := mk { msg : Message.t; total_size : Z; close_c : Channel.t bool }.
#[global] Instance eta_t : Eta t := fun s => mk (msg s) (total_size s) (close_c s).
#[global] Instance set_close_c : Setter close_c := ltac:(derive_setter).
Definition new_snap_message (msg : Message.t) (total_size : Z) (close_c : Channel.t bool) : t := mk msg total_size close_c.
Definition close_notify (self : t) : Channel.t bool := close_c self.
Definition get_msg (self : t) : Message.t := msg self.
(** A step of [close_with_error]: sending can only wait, as the channel keeps its receiver. *)
Definition close_with_error (self : t) : outcome (option t) :=
  match Channel.send true (close_c self) with
  | Ret c => Ret ((fun c => self <| close_c := c |>) <$> c)
  | Panic => Panic
  | OutOfFuel => OutOfFuel
  end.
End SnapMessage.

(** ** Transports ([transport.rs])

    The part that senders use; the callbacks of the trait [Raft] are recorded. *)
Inductive Report := ReportUnreachable (id : Z) | ReportSnapshot (id : Z) (status : SnapshotStatus).

Module Transport.
Section transport.
Context `{UrlCrate}.
Record t : Type := mk { ID : ID.t; URLS : URLs.t; cluster_id : ID.t; pipeline_client : bool }.
Fixpoint parse_all (urls : list string) : outcome (list Url) :=
  match urls with
  | [] => mret []
  | url :: urls => u ← or_panic (url_parse url); us ← parse_all urls; mret (u :: us)
  end.
Definition new (urls : list string) (id cluster_id : Z) (pc : bool) : outcome t :=
  url_vec ← parse_all urls;
  mret (mk (ID.new id) (URLs.new url_vec) (ID.new cluster_id) pc).
Definition get_id (self : t) : ID.t := ID self.
Definition get_urls (self : t) : URLs.t := URLS self.
Definition get_cluster_id (self : t) : ID.t := cluster_id self.
End transport.
End Transport.

Definition RaftPrefix : string := "/raft".
Definition RaftSnapshotPrefix : string := "/raft/snapshot".
Definition pipelineMsg : string := "pipeline".
Definition sendSnap : string := "sendMsgSnap".

(** The encoding of a message, the text of a failure of the client, and the durations of the
    crate [chrono], which are nanoseconds here. *)
Class PostCrates `{Http} := {
  message_write : Message.t -> option (list Byte.byte);
  http_error_text : HttpError -> string;
  duration_from_std : Z -> option Z
}.

(** ** The pipeline *)
Definition connPerPipeline : Z := 1.
Definition pipelineBufSize : Z := 64.

(** Where the task is: it waits for a message or a stop, or to report an error, having that
    error, the message and the outcome of posting it, or to report that it is done. *)
Inductive Task :=
  | Idle
  | SendingError (e : IoError) (msg : Message.t) (err : string)
  | SendingDone
  | Stopped
  | Crashed.

Module Pipeline.
Section pipeline.
Context `{PostCrates}.
Record t : Type := mk {
  tr : Transport.t;
  picker : BaseurlPicker.t;
  status : PeerStatus.t;
  raft : list Report;
  errorc : Channel.t IoError;
  follower_stats : FollowerStats.t;
  msgc : Channel.t Message.t;
  stopc : Channel.t unit;
  done : Channel.t unit
}.
#[global] Instance eta_t : Eta t := fun s =>
  mk (tr s) (picker s) (status s) (raft s) (errorc s) (follower_stats s) (msgc s) (stopc s) (done s).
#[global] Instance set_picker : Setter picker := ltac:(derive_setter).
#[global] Instance set_status : Setter status := ltac:(derive_setter).
#[global] Instance set_raft : Setter raft := ltac:(derive_setter).
#[global] Instance set_errorc : Setter errorc := ltac:(derive_setter).
#[global] Instance set_follower_stats : Setter follower_stats := ltac:(derive_setter).
#[global] Instance set_msgc : Setter msgc := ltac:(derive_setter).
#[global] Instance set_stopc : Setter stopc := ltac:(derive_setter).
#[global] Instance set_done : Setter done := ltac:(derive_setter).

Definition with_picker {A} : Prog BaseurlPicker.t A -> Prog t A := zoom picker (fun p s => s <| picker := p |>).
Definition with_status {A} : Prog PeerStatus.t A -> Prog t A := zoom status (fun p s => s <| status := p |>).
Definition report (r : Report) : Prog t unit := modify (fun s => s <| raft := raft s ++ [r] |>).

(** [start], apart from the log: a second subscriber for the process's traces panics.  One
    task is spawned. *)
Definition start (subscriber_set : bool) : Prog t Task :=
  assert (negb subscriber_set);;
  c ← lift (Channel.new 64); modify (fun s => s <| stopc := c |>);;
  c ← lift (Channel.new (Z.to_nat pipelineBufSize)); modify (fun s => s <| msgc := c |>);;
  c ← lift (Channel.new 64); modify (fun s => s <| done := c |>);;
  mret Idle.

(** A step of [stop]. *)
Definition stop (self : t) : outcome (option t) :=
  match Channel.send tt (stopc self) with
  | Ret c => Ret ((fun c => self <| stopc := c |>) <$> c)
  | Panic => Panic
  | OutOfFuel => OutOfFuel
  end.

(** [post] up to the report of a removed member: its result, and the error to report. *)
Definition post (data : list Byte.byte) (answer : result Response HttpError) :
    Prog t (result unit IoError * option IoError) :=
  p ← with_picker BaseurlPicker.pick;
  u ← unwrap p;
  self ← get;
  let create := create_POST_request u RaftPrefix data "application/protobuf" (Transport.get_urls (tr self))
                  (Transport.get_id (tr self)) (Transport.get_cluster_id (tr self)) in
  request ← lift (result_unwrap create);
  req ← lift (result_unwrap create);
  assert (Transport.pipeline_client (tr self));;
  match answer with
  | Err e => with_picker (BaseurlPicker.unreachable u);; mret (Err (other_error (http_error_text e)), None)
  | Ok resp =>
      err ← lift (check_post_response resp req);
      match err with
      | Err temp_err =>
          with_picker (BaseurlPicker.unreachable u);;
          let err_str := message temp_err in
          mret (Err (other_error err_str),
                if contains "the member has been permanently removed from the cluster" err_str
                then Some temp_err else None)
      | Ok _ => mret (Ok tt, None)
      end
  end.

(** What [handle] does with the outcome, up to the report that it is done. *)
Definition failed (msg : Message.t) (err : string) : Prog t unit :=
  with_status (PeerStatus.deactivate (new_failure_type pipelineMsg "write") err);;
  when (is_msg_app msg) (modify (fun s => s <| follower_stats := FollowerStats.fail (follower_stats s) |>));;
  report (ReportUnreachable (Message.to msg));;
  when (is_msg_snap msg) (report (ReportSnapshot (Message.to msg) Failure)).
Definition succeeded (msg : Message.t) (now duration : Z) : Prog t unit :=
  with_status (PeerStatus.activate now);;
  when (is_msg_app msg)
    (d ← unwrap (duration_from_std duration);
     modify (fun s => s <| follower_stats := FollowerStats.succ d (follower_stats s) |>));;
  when (is_msg_snap msg) (report (ReportSnapshot (Message.to msg) Finish)).

(** The branch of [handle] for a message. *)
Definition handle_msg (msg : Message.t) (answer : result Response HttpError) (now duration : Z) : Prog t Task :=
  data ← unwrap (message_write msg);
  r ← post data answer;
  match r with
  | (Ok _, _) => succeeded msg now duration;; mret SendingDone
  | (Err e, Some temp_err) => mret (SendingError temp_err msg (message e))
  | (Err e, None) => failed msg (message e);; mret SendingDone
  end.
End pipeline.
End Pipeline.

(** ** Remotes ([remote.rs])

    [send] is two steps, as two senders can both find room for one message; [stop], [pause] and
    [resume] make a future and drop it, which runs nothing of it. *)
Module Remote.
Section remote.
Context `{PostCrates}.
(** A message that is refused only goes to the log. *)
Definition send_refuses (pipeline : Pipeline.t) : bool := Channel.try_send_refuses (Pipeline.msgc pipeline).
(** A step of a call that was not refused; [None] while it waits. *)
Definition send (m : Message.t) (pipeline : Pipeline.t) : option Pipeline.t :=
  (fun c => pipeline <| Pipeline.msgc := c |>) <$> Channel.try_send m (Pipeline.msgc pipeline).
Definition stop (pipeline : Pipeline.t) : Pipeline.t := pipeline.
Definition pause (pipeline : Pipeline.t) : Pipeline.t := stop pipeline.
Definition resume (pipeline : Pipeline.t) : Pipeline.t := pipeline.
End remote.
End Remote.

(** ** Steps of a pipeline *)
Section steps.
Context `{PostCrates}.
Import Pipeline.

Record Taken := Take { taken : Message.t; answer : result Response HttpError; at_time : Z; duration : Z }.
Inductive Event :=
  | Sent (m : Message.t) (accepted : bool)
  | Took (x : Taken)
  | ReadDone
  | Silent.

Inductive step : Task * t -> Event -> Task * t -> Prop :=
  | step_take x m c s task s' : Channel.recv (msgc s) = Some (m, c) -> m = taken x ->
      handle_msg m (answer x) (at_time x) (duration x) (s <| msgc := c |>) = Ret (task, s') ->
      step (Idle, s) (Took x) (task, s')
  | step_crash x m c s : Channel.recv (msgc s) = Some (m, c) -> m = taken x ->
      handle_msg m (answer x) (at_time x) (duration x) (s <| msgc := c |>) = Panic ->
      step (Idle, s) (Took x) (Crashed, s <| msgc := c |>)
  | step_error e m err c s s' : Channel.send e (errorc s) = Ret (Some c) ->
      failed m err (s <| errorc := c |>) = Ret (tt, s') ->
      step (SendingError e m err, s) Silent (SendingDone, s')
  | step_done c s : Channel.send tt (done s) = Ret (Some c) -> step (SendingDone, s) Silent (Idle, s <| done := c |>)
  | step_stop c s : Channel.recv (stopc s) = Some (tt, c) -> step (Idle, s) Silent (Stopped, s <| stopc := c |>)
  (** Others. *)
  | env_refused m task s : Remote.send_refuses s = true -> step (task, s) (Sent m false) (task, s)
  | env_send m task s s' : Remote.send m s = Some s' -> step (task, s) (Sent m true) (task, s')
  | env_stop task s s' : stop s = Ret (Some s') -> step (task, s) Silent (task, s')
  | env_done c task s : Channel.recv (done s) = Some (tt, c) -> step (task, s) ReadDone (task, s <| done := c |>)
  | env_error e c task s : Channel.recv (errorc s) = Some (e, c) -> step (task, s) Silent (task, s <| errorc := c |>).

Inductive steps : Task * t -> list Event -> Task * t -> Prop :=
  | steps_nil x : steps x [] x
  | steps_snoc x evs y ev z : steps x evs y -> step y ev z -> steps x (evs ++ [ev]) z.

(** *** What has to be reported about a message *)
Definition delivered (a : result Response HttpError) : bool :=
  match a with Ok resp => Wire.status resp =? NO_CONTENT | Err _ => false end.
Definition reports (x : Taken) : list Report :=
  let m := taken x in
  if delivered (answer x) then if is_msg_snap m then [ReportSnapshot (Message.to m) Finish] else []
  else ReportUnreachable (Message.to m) :: if is_msg_snap m then [ReportSnapshot (Message.to m) Failure] else [].
Definition count (fs : FollowerStats.t) (x : Taken) : FollowerStats.t :=
  if is_msg_app (taken x) then
    if delivered (answer x) then
      match duration_from_std (duration x) with Some d => FollowerStats.succ d fs | None => fs end
    else FollowerStats.fail fs
  else fs.
Definition now_active (b : bool) (x : Taken) : bool := delivered (answer x).

(** [handled m s x s']: everything about a message was done. *)
Record handled (x : Taken) (s s' : t) : Prop := {
  hd_raft : raft s' = raft s ++ reports x;
  hd_stats : follower_stats s' = count (follower_stats s) x;
  hd_active : PeerStatus.is_active (status s') = delivered (answer x);
  hd_msgc : msgc s' = msgc s; hd_done : done s' = done s; hd_tr : tr s' = tr s
}.
(** What posting leaves alone. *)
Record posted (s s' : t) : Prop := {
  po_raft : raft s' = raft s; po_stats : follower_stats s' = follower_stats s; po_status : status s' = status s;
  po_msgc : msgc s' = msgc s; po_done : done s' = done s; po_tr : tr s' = tr s
}.
#[local] Instance posted_preorder : PreOrder posted.
Proof. split; [by intros s|]. intros s1 s2 s3 [] []. split; congruence. Qed.

Lemma pres_picker {A} (m : Prog BaseurlPicker.t A) : pres posted (with_picker m).
Proof. intros s a s' (p & _ & ->)%zoom_inv. by split. Qed.
#[local] Hint Resolve pres_picker : frame.
Lemma pres_post data a : pres posted (post data a).
Proof. unfold post. frame. Qed.

Lemma post_result data a s r o s' : post data a s = Ret ((r, o), s') ->
  if delivered a then r = Ok tt /\ o = None else exists e, r = Err e.
Proof.
  unfold post. intros E. repeat (apply bind_inv in E as (? & ? & _ & E)). destruct a as [resp|e].
  - apply bind_inv in E as (err & s1 & Ec & E). unfold lift in Ec. destruct (check_post_response resp _) as [res| |] eqn:Er; [|done..].
    injection Ec as <- <-. simpl. destruct res as [[]|e].
    + apply check_post_response_ok in Er. rewrite Er. by injection E as <- <- <-.
    + apply bind_inv in E as (? & ? & _ & E). injection E as <- _ _.
      destruct (Z.eqb_spec (Wire.status resp) NO_CONTENT) as [Hs|]; [|by eexists].
      unfold check_post_response in Er. rewrite Hs in Er. done.
  - apply bind_inv in E as (? & ? & _ & E). injection E as <- _ _. by eexists.
Qed.

Lemma failed_handled x err s s0 s' : delivered (answer x) = false -> posted s0 s ->
  failed (taken x) err s = Ret (tt, s') -> handled x s0 s'.
Proof.
  intros Hd []. unfold failed. intros (? & ? & (st & Est & ->)%zoom_inv & E)%bind_inv. rewrite deactivate_run in Est. injection Est as _ <-.
  revert E. unfold report. prog_unfold. destruct (is_msg_app (taken x)) eqn:Ha, (is_msg_snap (taken x)) eqn:Hs; intros [= <-];
    split; fields; unfold reports, count, PeerStatus.is_active; rewrite ?Ha, ?Hs, ?Hd; try congruence;
    try (by destruct (PeerStatus.active (status s)) eqn:E; fields); rewrite <-?app_assoc; simpl; congruence.
Qed.
Lemma succeeded_handled x s s0 s' : delivered (answer x) = true -> posted s0 s ->
  succeeded (taken x) (at_time x) (duration x) s = Ret (tt, s') -> handled x s0 s'.
Proof.
  intros Hd []. unfold succeeded. intros (? & ? & (st & Est & ->)%zoom_inv & E)%bind_inv. rewrite activate_run in Est. injection Est as _ <-.
  revert E. unfold report. prog_unfold. destruct (is_msg_app (taken x)) eqn:Ha, (is_msg_snap (taken x)) eqn:Hs;
    try (destruct (duration_from_std (duration x)) eqn:Ed; [|done]); intros [= <-];
    split; fields; unfold reports, count, PeerStatus.is_active; rewrite ?Ha, ?Hs, ?Hd, ?Ed, ?app_nil_r; try congruence;
    by destruct (PeerStatus.active (status s)) eqn:E; fields.
Qed.

(** What is left to be done for a message after the task took it. *)
Definition after (x : Taken) (s0 : t) (task : Task) (s : t) : Prop :=
  match task with
  | SendingDone => handled x s0 s
  | SendingError e m err => posted s0 s /\ m = taken x /\ delivered (answer x) = false
  | _ => False
  end.
Lemma handle_after x s task s' : handle_msg (taken x) (answer x) (at_time x) (duration x) s = Ret (task, s') -> after x s task s'.
Proof.
  unfold handle_msg. intros (data & s1 & Ed & ([r o] & s2 & Ep & E)%bind_inv)%bind_inv.
  assert (s1 = s) as -> by (unfold unwrap in Ed; destruct (message_write _); [by injection Ed|done]).
  pose proof (pres_post _ _ _ _ _ Ep) as Hp. apply post_result in Ep. destruct (delivered (answer x)) eqn:Hd.
  - destruct Ep as [-> ->]. apply bind_inv in E as ([] & s3 & Es & E). injection E as <- <-. by eapply succeeded_handled.
  - destruct Ep as [e ->]. destruct o as [te|]; [by injection E as <- <-|].
    apply bind_inv in E as ([] & s3 & Es & E). injection E as <- <-. by eapply failed_handled.
Qed.

(** *** What happened so far *)
Fixpoint took (evs : list Event) : list Taken :=
  match evs with [] => [] | Took x :: evs => x :: took evs | _ :: evs => took evs end.
Fixpoint accepted (evs : list Event) : list Message.t :=
  match evs with [] => [] | Sent m true :: evs => m :: accepted evs | _ :: evs => accepted evs end.
Lemma took_app evs1 evs2 : took (evs1 ++ evs2) = took evs1 ++ took evs2.
Proof. induction evs1 as [|[] evs1 IH]; simpl; [done|..]; by rewrite IH. Qed.
Lemma accepted_app evs1 evs2 : accepted (evs1 ++ evs2) = accepted evs1 ++ accepted evs2.
Proof. induction evs1 as [|[? []| | |] evs1 IH]; simpl; [done|..]; by rewrite IH. Qed.

(** The state of reports and statistics after some messages. *)
Record reported (s0 : t) (xs : list Taken) (s : t) : Prop := {
  rp_raft : raft s = raft s0 ++ concat (reports <$> xs);
  rp_stats : follower_stats s = fold_left count xs (follower_stats s0);
  rp_active : PeerStatus.is_active (status s) = fold_left now_active xs (PeerStatus.is_active (status s0))
}.
Definition history (s0 : t) (xs : list Taken) (task : Task) (s : t) : Prop :=
  match task with
  | Idle | Stopped | SendingDone => reported s0 xs s
  | SendingError e m err => exists xs' x, xs = xs' ++ [x] /\ reported s0 xs' s /\ m = taken x /\ delivered (answer x) = false
  | Crashed => exists xs' x, xs = xs' ++ [x] /\ reported s0 xs' s
  end.

Lemma reported_same s0 xs s s' : raft s' = raft s -> follower_stats s' = follower_stats s -> status s' = status s ->
  reported s0 xs s -> reported s0 xs s'.
Proof. intros Hr Hf Hs []. split; congruence. Qed.
Lemma history_same s0 xs task s s' : raft s' = raft s -> follower_stats s' = follower_stats s -> status s' = status s ->
  history s0 xs task s -> history s0 xs task s'.
Proof.
  intros Hr Hf Hs. destruct task; simpl; try by apply reported_same.
  - intros (xs' & x & ? & Hx & ?). exists xs', x. split_and!; [done| |by destruct_and!..]. by eapply reported_same.
  - intros (xs' & x & ? & Hx). exists xs', x. split; [done|]. by eapply reported_same.
Qed.
Lemma reported_snoc s0 xs x s s' : reported s0 xs s -> handled x s s' -> reported s0 (xs ++ [x]) s'.
Proof.
  intros [Hr Hf Ha] [Hr' Hf' Ha' _ _ _]. split.
  - by rewrite Hr', Hr, fmap_app, concat_app, app_assoc; simpl; rewrite app_nil_r.
  - by rewrite Hf', Hf, fold_left_app.
  - by rewrite Ha', fold_left_app.
Qed.

(** What holds in a state reached by [evs] from a pipeline that was just started as [s0]. *)
Record reached (s0 : t) (evs : list Event) (task : Task) (s : t) : Prop := {
  re_history : history s0 (took evs) task s;
  re_queue : accepted evs = (taken <$> took evs) ++ Channel.queue (msgc s);
  re_msgc : Channel.tx (msgc s) = true;
  re_done : Channel.tx (done s) = true /\ Channel.capacity (done s) = 64%nat
}.

Lemma recv_Some {A} (c c' : Channel.t A) x : Channel.recv c = Some (x, c') ->
  Channel.queue c = x :: Channel.queue c' /\ Channel.tx c' = Channel.tx c /\ Channel.capacity c' = Channel.capacity c.
Proof. unfold Channel.recv. destruct (Channel.queue c) as [|y q]; [done|]. by intros [= -> <-]. Qed.
Lemma send_Some {A} (c c' : Channel.t A) x : Channel.send x c = Ret (Some c') ->
  Channel.queue c' = Channel.queue c ++ [x] /\ Channel.tx c' = Channel.tx c /\ Channel.capacity c' = Channel.capacity c /\
  (length (Channel.queue c) < Channel.capacity c)%nat.
Proof.
  unfold Channel.send, Channel.is_full. destruct (Channel.tx c) eqn:Htx; [|done]. destruct (Nat.leb_spec (Channel.capacity c) (length (Channel.queue c))); [done|].
  intros [= <-]. by fields.
Qed.

Lemma reached_start s0 : Channel.queue (msgc s0) = [] -> Channel.tx (msgc s0) = true -> Channel.tx (done s0) = true ->
  Channel.capacity (done s0) = 64%nat -> reached s0 [] Idle s0.
Proof. intros Hq Hm Hd Hc. split; simpl; [|by rewrite Hq|done|done]. split; [by rewrite app_nil_r|done|done]. Qed.

(** Steps that only move what is in the other channels. *)
Lemma reached_same s0 evs ev task s s' : raft s' = raft s -> follower_stats s' = follower_stats s -> status s' = status s ->
  took [ev] = [] -> accepted [ev] = [] -> Channel.queue (msgc s') = Channel.queue (msgc s) -> Channel.tx (msgc s') = Channel.tx (msgc s) ->
  Channel.tx (done s') = Channel.tx (done s) -> Channel.capacity (done s') = Channel.capacity (done s) ->
  reached s0 evs task s -> reached s0 (evs ++ [ev]) task s'.
Proof.
  intros Hr Hf Hs Ht Ha Hq Htx Hd Hc [Hh Hqu Hm Hdo]. split; rewrite ?took_app, ?accepted_app, ?Ht, ?Ha, ?app_nil_r.
  - by eapply history_same.
  - by rewrite Hq.
  - congruence.
  - by rewrite Hd, Hc.
Qed.

Lemma reached_took s0 evs x m c s task s' : Channel.recv (msgc s) = Some (m, c) -> m = taken x ->
  msgc s' = c -> done s' = done s -> history s0 (took evs ++ [x]) task s' ->
  reached s0 evs Idle s -> reached s0 (evs ++ [Took x]) task s'.
Proof.
  intros (Hq & Htx & _)%recv_Some -> Hc Hd Hh [_ Hqu Hm Hdo]. split; rewrite ?took_app, ?accepted_app; simpl.
  - done.
  - rewrite app_nil_r, Hqu, Hq, Hc, fmap_app. by rewrite <-app_assoc.
  - congruence.
  - by rewrite Hd.
Qed.

Lemma handle_history s0 xs x c s task s' : reported s0 xs s -> after x (s <| msgc := c |>) task s' ->
  history s0 (xs ++ [x]) task s' /\ msgc s' = c /\ done s' = done s.
Proof.
  intros Hrep Ha. assert (reported s0 xs (s <| msgc := c |>)) as Hrep' by (revert Hrep; by apply reported_same).
  destruct task; simpl in Ha; try done.
  - destruct Ha as ([] & -> & Hd). split; [|by split]. exists xs, x. split_and!; [done| |done|done]. by eapply reported_same.
  - pose proof Ha as [_ _ _ Hm Hdo _]. split; [|by split]. simpl. by eapply reported_snoc.
Qed.
Lemma step_reached s0 evs task s ev task' s' : reached s0 evs task s -> step (task, s) ev (task', s') ->
  reached s0 (evs ++ [ev]) task' s'.
Proof.
  intros Hi Hstep. inversion Hstep as [x m c ? ? ? Hc Hm Hh|x m c ? Hc Hm Hh|e m err c ? ? Hc Hf|c ? Hc|c ? Hc|m ? ? Hc|m ? ? ? Hc|? ? ? Hc|c ? ? Hc|e c ? ? Hc]; subst; clear Hstep.
  - apply handle_after in Hh. destruct (handle_history s0 (took evs) _ _ _ _ _ (re_history _ _ _ _ Hi) Hh) as (Hhist & Hm & Hd).
    by eapply reached_took.
  - eapply reached_took; [done..| |done]. simpl. exists (took evs), x. split; [done|]. pose proof (re_history _ _ _ _ Hi) as Hr. revert Hr. by apply reported_same.
  - destruct Hi as [(xs & x & Hxs & Hr & -> & Hd) Hq Hm Hdo].
    assert (handled x s s') as Hh by (apply (failed_handled x err (s <| errorc := c |>)); [done|by split|done]).
    pose proof Hh as [_ _ _ Hmsgc Hdone _].
    split; rewrite ?took_app, ?accepted_app; simpl; rewrite ?app_nil_r.
    + rewrite Hxs. by eapply reported_snoc.
    + by rewrite Hmsgc.
    + congruence.
    + by rewrite Hdone.
  - apply send_Some in Hc as (_ & Htx & Hcap & _). assert (reached s0 evs Idle s) as Hi' by (destruct Hi; by split).
    by apply (reached_same s0 evs _ _ s).
  - assert (reached s0 evs Stopped s) as Hi' by (destruct Hi; by split). by apply (reached_same s0 evs _ _ s).
  - by apply (reached_same s0 evs _ _ s').
  - unfold Remote.send, Channel.try_send in Hc. rewrite (re_msgc _ _ _ _ Hi) in Hc. destruct (Channel.is_full (msgc s)); [done|].
    simpl in Hc. injection Hc as <-. destruct Hi as [Hh Hq Hm Hdo]. split; rewrite ?took_app, ?accepted_app; simpl; rewrite ?app_nil_r; fields.
    + by apply (history_same s0 _ _ s).
    + rewrite Hq. by rewrite app_assoc.
    + done.
    + done.
  - unfold stop in Hc. destruct (Channel.send tt (stopc s)) as [[c|]| |]; [|done..]. injection Hc as <-. by apply (reached_same s0 evs _ _ s).
  - apply recv_Some in Hc as (_ & Htx & Hcap). by apply (reached_same s0 evs _ _ s).
  - by apply (reached_same s0 evs _ _ s).
Qed.

(** [started s0]: [s0] is the state of a pipeline after [start]. *)
Definition started (s0 : t) : Prop := exists s, start false s = Ret (Idle, s0).
Lemma started_reached s0 : started s0 -> reached s0 [] Idle s0.
Proof. intros [s E]. unfold start in E. prog_unfold. simpl in E. injection E as <-. by apply reached_start. Qed.
Lemma steps_reached s0 evs task s : started s0 -> steps (Idle, s0) evs (task, s) -> reached s0 evs task s.
Proof.
  intros Hs%started_reached Hr. remember (Idle, s0) as x eqn:Ex. remember (task, s) as z eqn:Ez. revert task s Ez.
  induction Hr as [x|x evs [task1 s1] ev z Hr IH Hstep]; intros task s ->.
  - by injection Ex as -> ->.
  - eapply step_reached; [|done]. by apply IH.
Qed.
(** The first [start] of a process is the only one. *)
Lemma start_again s : start true s = Panic.
Proof. done. Qed.

(** C33 — A pipeline, in every interleaving of its task with senders, with others that read its
    channels and with [stop]: messages are taken in the order in which they were accepted and
    none is lost; and when the task is not in the middle of a message, exactly the following
    was reported about the messages taken: to Raft, that the peer was unreachable for each
    that was not delivered, and the outcome of each that is a snapshot, in their order; to the
    statistics, the outcome of each that is an append; and the peer is active exactly if the
    last of them was delivered. *)
Theorem pipeline_reports s0 evs task s : started s0 -> steps (Idle, s0) evs (task, s) ->
  accepted evs = (taken <$> took evs) ++ Channel.queue (msgc s) /\
  (task = Idle \/ task = SendingDone \/ task = Stopped ->
   raft s = raft s0 ++ concat (reports <$> took evs) /\
   follower_stats s = fold_left count (took evs) (follower_stats s0) /\
   PeerStatus.is_active (status s) = fold_left now_active (took evs) (PeerStatus.is_active (status s0))).
Proof.
  intros Hs Hr. destruct (steps_reached s0 evs task s Hs Hr) as [Hh Hq _ _]. split; [done|].
  intros [->|[->| ->]]; destruct Hh; by split_and!.
Qed.

(** *** Nobody reads that the pipeline is done *)
Definition pending (task : Task) : nat := match task with Idle | Stopped => 0 | _ => 1 end.
Lemma unread_step s0 evs task s ev task' s' : reached s0 evs task s -> step (task, s) ev (task', s') -> ev <> ReadDone ->
  length (took evs) = (length (Channel.queue (done s)) + pending task)%nat -> (length (Channel.queue (done s)) <= 64)%nat ->
  length (took (evs ++ [ev])) = (length (Channel.queue (done s')) + pending task')%nat /\ (length (Channel.queue (done s')) <= 64)%nat.
Proof.
  intros Hi Hstep Hev Hlen Hcap. rewrite took_app, length_app.
  inversion Hstep as [x m c ? ? ? Hc Hm Hh|x m c ? Hc Hm Hh|e m err c ? ? Hc Hf|c ? Hc|c ? Hc|m ? ? Hc|m ? ? ? Hc|? ? ? Hc|c ? ? Hc|e c ? ? Hc]; subst; clear Hstep; simpl in *.
  - apply handle_after in Hh. destruct (handle_history s0 (took evs) _ _ _ _ _ (re_history _ _ _ _ Hi) Hh) as (_ & _ & ->).
    split; [|done]. rewrite Hlen. destruct task'; simpl in *; done || lia.
  - lia.
  - destruct (re_history _ _ _ _ Hi) as (xs & x & Hxs & Hr & -> & Hd).
    assert (handled x s s') as [_ _ _ _ -> _] by (apply (failed_handled x err (s <| errorc := c |>)); [done|by split|done]). lia.
  - apply send_Some in Hc as (-> & _ & _ & Hlt). destruct (re_done _ _ _ _ Hi) as [_ Hc]. rewrite Hc in Hlt. rewrite length_app. simpl. lia.
  - lia.
  - lia.
  - unfold Remote.send, Channel.try_send in Hc. repeat case_match; simplify_eq/=; fields; lia.
  - unfold stop in Hc. destruct (Channel.send tt (stopc s)) as [[c|]| |]; [|done..]. injection Hc as <-. fields. lia.
  - done.
  - lia.
Qed.

Lemma unread_steps s0 evs task s : started s0 -> steps (Idle, s0) evs (task, s) -> ReadDone ∉ evs ->
  length (took evs) = (length (Channel.queue (done s)) + pending task)%nat /\ (length (Channel.queue (done s)) <= 64)%nat.
Proof.
  intros Hs Hr. remember (Idle, s0) as x eqn:Ex. remember (task, s) as z eqn:Ez. revert task s Ez.
  induction Hr as [x|x evs [task1 s1] ev z Hr IH Hstep]; intros task s -> Hev.
  - destruct Hs as [s' E]. injection Ex as -> ->. unfold start in E. prog_unfold. simpl in E. injection E as <-. simpl. lia.
  - apply not_elem_of_app in Hev as [Hev1 Hev2]. destruct (IH Ex _ _ eq_refl Hev1) as [Hl Hc].
    eapply unread_step; [|done|by set_solver|done|done]. rewrite Ex in Hr. by eapply steps_reached.
Qed.
Lemma steps_trans x evs y evs' z : steps x evs y -> steps y evs' z -> steps x (evs ++ evs') z.
Proof. intros Hr Hr'. induction Hr' as [y|y evs' w ev z _ IH Hstep]; [by rewrite app_nil_r|]. rewrite app_assoc. econstructor; [by apply IH|done]. Qed.

(** C36 — A pipeline whose channel [done] nobody reads takes at most 65 messages: with the 65th
    the task waits forever, no further message is taken, and [stop] does not end it. *)
Theorem pipeline_stalls s0 evs task s : started s0 -> steps (Idle, s0) evs (task, s) -> ReadDone ∉ evs ->
  (length (took evs) <= 65)%nat /\
  (length (took evs) = 65%nat -> forall evs' task' s', steps (task, s) evs' (task', s') -> ReadDone ∉ evs' ->
     took evs' = [] /\ task' <> Idle /\ task' <> Stopped).
Proof.
  intros Hs Hr Hev. destruct (unread_steps _ _ _ _ Hs Hr Hev) as [Hl Hc]. split; [destruct task; simpl in *; lia|].
  intros H65 evs' task' s' Hr' Hev'. destruct (unread_steps s0 (evs ++ evs') task' s' Hs) as [Hl' Hc'].
  { by eapply steps_trans. }
  { by apply not_elem_of_app. }
  rewrite took_app, length_app, H65 in Hl'. destruct task'; simpl in *; try lia;
    (split; [|done]); apply length_zero_iff_nil; lia.
Qed.

(** *** The task moves on *)
(** The URLs of a pipeline give requests. *)
Record fit (s : t) : Prop := {
  ft_picker : picker_ok (picker s);
  ft_client : Transport.pipeline_client (tr s) = true;
  ft_requests u data : u ∈ BaseurlPicker.urls (picker s) -> exists req,
    create_POST_request u RaftPrefix data "application/protobuf" (Transport.get_urls (tr s))
      (Transport.get_id (tr s)) (Transport.get_cluster_id (tr s)) = Ok req
}.

(** The request that a message with the encoding [data] is posted with. *)
Definition request_of (s : t) (data : list Byte.byte) (req : Request) : Prop :=
  exists u, index (BaseurlPicker.urls (picker s)) (BaseurlPicker.picked (picker s)) = Some u /\
    create_POST_request u RaftPrefix data "application/protobuf" (Transport.get_urls (tr s))
      (Transport.get_id (tr s)) (Transport.get_cluster_id (tr s)) = Ok req.
(** The panics of the branch for a message: an answer that cannot be checked, and a time beyond those of the
    crate [chrono] after an append message was delivered. *)
Definition answer_breaks (a : result Response HttpError) (req : Request) : bool :=
  match a with Ok resp => check_crashes resp req | Err _ => false end.
Definition time_breaks (m : Message.t) (a : result Response HttpError) (d : Z) : bool :=
  delivered a && is_msg_app m && bool_decide (duration_from_std d = None).

Lemma fit_same s s' : picker s' = picker s -> tr s' = tr s -> fit s -> fit s'.
Proof. intros Hp Ht [H1' H2' H3']. by split; rewrite ?Hp, ?Ht. Qed.
Lemma unreachable_fit s u : fit s -> index (BaseurlPicker.urls (picker s)) (BaseurlPicker.picked (picker s)) = Some u ->
  exists s', with_picker (BaseurlPicker.unreachable u) s = Ret (tt, s') /\ fit s'.
Proof.
  intros [Hp Hc Hr] Hu. eexists. split; [apply zoom_run; by eapply unreachable_run|].
  split; fields; [case_match; [by apply picked_next|done]|done|]. intros v data Hv. apply Hr. by case_match.
Qed.

Lemma fit_request s data : fit s -> exists req, request_of s data req.
Proof.
  intros [Hp Hc Hr]. destruct (pick_run _ Hp) as (u & Hu & _).
  destruct (Hr u data) as [req Hreq]; [unfold index in Hu; case_match; [done|by eapply list_elem_of_lookup_2]|]. by exists req, u.
Qed.
Lemma post_run data a s req : fit s -> request_of s data req ->
  if answer_breaks a req then post data a s = Panic
  else exists r o s', post data a s = Ret ((r, o), s') /\ fit s'.
Proof.
  intros Hfit (u & Hu & Hreq). pose proof Hfit as [Hp Hc Hr]. destruct (pick_run _ Hp) as (v & Hv & Hpick).
  rewrite Hu in Hv. injection Hv as <-. destruct (unreachable_fit s u Hfit Hu) as (s' & Eu & Hfit').
  assert (with_picker BaseurlPicker.pick s = Ret (Some u, s)) as Ep by (unfold with_picker; erewrite zoom_run by exact Hpick; by destruct s).
  unfold post. erewrite bind_run by exact Ep. erewrite bind_run by done. erewrite bind_run by done. cbv zeta.
  erewrite bind_run by (unfold lift, result_unwrap; by rewrite Hreq). erewrite bind_run by (unfold lift, result_unwrap; by rewrite Hreq).
  erewrite bind_run by (unfold assert; by rewrite Hc). destruct a as [resp|e]; simpl answer_breaks.
  - pose proof (check_crashes_spec resp req) as Hck. destruct (check_crashes resp req).
    + unfold lift, mbind, prog_bind. by rewrite Hck.
    + destruct Hck as [r Er]. erewrite bind_run by (unfold lift; by rewrite Er).
      destruct r as [[]|e]; [by eexists _, _, _|]. erewrite bind_run by exact Eu. by eexists _, _, _.
  - erewrite bind_run by exact Eu. by eexists _, _, _.
Qed.
Lemma failed_total m err s : exists s', failed m err s = Ret (tt, s') /\ picker s' = picker s /\ tr s' = tr s.
Proof.
  unfold failed, report. erewrite bind_run by (apply zoom_run, deactivate_run). prog_unfold.
  destruct (is_msg_app m), (is_msg_snap m); by eexists.
Qed.
Lemma succeeded_run m now d s :
  if is_msg_app m && bool_decide (duration_from_std d = None) then succeeded m now d s = Panic
  else exists s', succeeded m now d s = Ret (tt, s') /\ picker s' = picker s /\ tr s' = tr s.
Proof.
  unfold succeeded, report. destruct (is_msg_app m) eqn:Hm; simpl; [destruct (duration_from_std d) as [d'|] eqn:Hd; simpl|].
  - erewrite bind_run by (apply zoom_run, activate_run). prog_unfold. destruct (is_msg_snap m); by eexists.
  - erewrite bind_run by (apply zoom_run, activate_run). prog_unfold. done.
  - erewrite bind_run by (apply zoom_run, activate_run). prog_unfold. destruct (is_msg_snap m); by eexists.
Qed.
Lemma handle_msg_run m a now d s data req : fit s -> message_write m = Some data -> request_of s data req ->
  if answer_breaks a req || time_breaks m a d then handle_msg m a now d s = Panic
  else exists task s', handle_msg m a now d s = Ret (task, s') /\ fit s'.
Proof.
  intros Hfit Hdata Hreq. pose proof (post_run data a s req Hfit Hreq) as Hpost. unfold handle_msg.
  erewrite bind_run by (unfold unwrap; by rewrite Hdata). destruct (answer_breaks a req); simpl.
  { unfold mbind, prog_bind. by rewrite Hpost. }
  destruct Hpost as (r & o & s2 & Ep & Hfit2). erewrite bind_run by exact Ep. apply post_result in Ep. unfold time_breaks.
  destruct (delivered a) eqn:Hdel; simpl.
  - destruct Ep as [-> ->]. pose proof (succeeded_run m now d s2) as Hs. destruct (is_msg_app m && _).
    + unfold mbind, prog_bind. by rewrite Hs.
    + destruct Hs as (s3 & E3 & ? & ?). erewrite bind_run by exact E3. eexists _, s3. split; [done|]. by apply (fit_same s2).
  - destruct Ep as [e ->]. destruct o as [te|]; [by eexists _, _|]. destruct (failed_total m (message e) s2) as (s3 & E3 & ? & ?).
    erewrite bind_run by exact E3. eexists _, s3. split; [done|]. by apply (fit_same s2).
Qed.

(** C35 — What the task of a pipeline does with a message that waits, whatever the peer answers.  The message is
    taken.  The task panics exactly if the answer cannot be checked ([check_crashes]: a [412] without a body
    that can be read, or one that tells of another cluster without its header) or the time it took is beyond
    those of the statistics.  Otherwise it is only held up by full channels: it can report that it is
    done if [done] has room, a removed member if the channel for errors has, and what it needs for the next
    message is still there. *)
Theorem pipeline_progress s m q a now d data req : fit s -> Channel.queue (msgc s) = m :: q ->
  message_write m = Some data -> request_of s data req ->
  exists task s', step (Idle, s) (Took (Take m a now d)) (task, s') /\ Channel.queue (msgc s') = q /\
    if answer_breaks a req || time_breaks m a d then task = Crashed
    else fit s' /\
      match task with
      | SendingDone => Channel.tx (done s') = true -> Channel.is_full (done s') = false ->
          exists s2, step (task, s') Silent (Idle, s2) /\ fit s2
      | SendingError e m' err => Channel.tx (errorc s') = true -> Channel.is_full (errorc s') = false ->
          exists s2, step (task, s') Silent (SendingDone, s2) /\ fit s2
      | _ => False
      end.
Proof.
  intros Hfit Hq Hm Hreq. set (c := (msgc s) <| Channel.queue := q |>). set (s1 := s <| msgc := c |>).
  assert (Channel.recv (msgc s) = Some (m, c)) as Hrecv by (unfold Channel.recv; by rewrite Hq).
  assert (fit s1) as Hfit1 by (by apply (fit_same s)).
  pose proof (handle_msg_run m a now d s1 data req Hfit1 Hm Hreq) as Hrun. destruct (answer_breaks a req || time_breaks m a d).
  { exists Crashed, s1. split; [by eapply step_crash|by split]. }
  destruct Hrun as (task & s' & E & Hfit'). exists task, s'. pose proof (handle_after (Take m a now d) s1 task s' E) as Haft.
  split; [by eapply step_take|]. destruct task; simpl in Haft; try done.
  - destruct Haft as (Hpo & -> & _). split; [by rewrite (po_msgc _ _ Hpo)|]. split; [done|]. intros Htx Hf.
    set (s2 := s' <| errorc := (errorc s') <| Channel.queue := Channel.queue (errorc s') ++ [e] |> |>).
    destruct (failed_total m err s2) as (s3 & E3 & ? & ?). exists s3. split; [|by apply (fit_same s')].
    eapply step_error; [|exact E3]. unfold Channel.send. by rewrite Htx, Hf.
  - split; [by rewrite (hd_msgc _ _ _ Haft)|]. split; [done|]. intros Htx Hf.
    exists (s' <| done := (done s') <| Channel.queue := Channel.queue (done s') ++ [tt] |> |>). split; [|by apply (fit_same s')].
    apply step_done. unfold Channel.send. by rewrite Htx, Hf.
Qed.
End steps.

(** ** Sending a snapshot ([snapshot_sender.rs]) *)
Module SnapshotSender.
Section sender.
Context `{PostCrates}.
Record t : Type := mk {
  from : ID.t; to : ID.t; cid : ID.t;
  tr : Transport.t;
  picker : BaseurlPicker.t;
  status : PeerStatus.t;
  raft : list Report;
  errorc : option (Channel.t IoError);
  stopc : Channel.t unit
}.
#[global] Instance eta_t : Eta t := fun s =>
  mk (from s) (to s) (cid s) (tr s) (picker s) (status s) (raft s) (errorc s) (stopc s).
#[global] Instance set_picker : Setter picker := ltac:(derive_setter).
#[global] Instance set_status : Setter status := ltac:(derive_setter).
#[global] Instance set_raft : Setter raft := ltac:(derive_setter).
#[global] Instance set_errorc : Setter errorc := ltac:(derive_setter).
#[global] Instance set_stopc : Setter stopc := ltac:(derive_setter).

Definition with_picker {A} : Prog BaseurlPicker.t A -> Prog t A := zoom picker (fun p s => s <| picker := p |>).
Definition with_status {A} : Prog PeerStatus.t A -> Prog t A := zoom status (fun p s => s <| status := p |>).
Definition report (r : Report) : Prog t unit := modify (fun s => s <| raft := raft s ++ [r] |>).

Definition new_snapshot_sender (tr : Transport.t) (picker : BaseurlPicker.t) (status : PeerStatus.t)
    (errorc : option (Channel.t IoError)) (raft : list Report) (to : ID.t) : outcome t :=
  stopc ← Channel.new 1;
  mret (mk (Transport.get_id tr) to (Transport.get_cluster_id tr) tr picker status raft errorc stopc).

(** A step of [stop]. *)
Definition stop (self : t) : outcome (option t) :=
  match Channel.send tt (stopc self) with
  | Ret c => Ret ((fun c => self <| stopc := c |>) <$> c)
  | Panic => Panic
  | OutOfFuel => OutOfFuel
  end.

Definition create_snap_body (merged : SnapMessage.t) : outcome (list Byte.byte) :=
  or_panic (message_write (SnapMessage.get_msg merged)).

(** [post]: without an answer it panics.  When there is one and a stop as well, either may be
    taken, which [choose_stop] says. *)
Definition post (choose_stop : bool) (answer : result Response HttpError) (check_req : Request) :
    Prog t (result unit IoError) :=
  self ← get;
  assert (Transport.pipeline_client (tr self));;
  resp ← lift (result_unwrap answer);
  self ← get;
  match choose_stop, Channel.recv (stopc self) with
  | true, Some (_, c) => modify (fun s => s <| stopc := c |>);; mret (Err (other_error "stopped"))
  | _, _ => lift (check_post_response resp check_req)
  end.

(** Where a call of [send] is: it waits to report that this member was removed, or it is done. *)
Inductive Sending := Waiting (err : IoError) (u : Url) (m : Message.t) | Sent.

Definition send_failed (u : Url) (m : Message.t) (err : IoError) : Prog t unit :=
  with_picker (BaseurlPicker.unreachable u);;
  with_status (PeerStatus.deactivate (new_failure_type sendSnap "post") (message err));;
  report (ReportUnreachable (Message.to m));;
  report (ReportSnapshot (Message.to m) Failure).

(** [send] up to its end, or to the report of a removed member.  [has_snapshot] says whether
    the message has a snapshot with metadata, or only the default, which the log of a failure
    needs. *)
Definition send (merged : SnapMessage.t) (has_snapshot choose_stop : bool) (answer : result Response HttpError) (now : Z) :
    Prog t Sending :=
  let m := SnapMessage.get_msg merged in
  body ← lift (create_snap_body merged);
  p ← with_picker BaseurlPicker.pick;
  u ← unwrap p;
  self ← get;
  let create := create_POST_request u RaftSnapshotPrefix body "application/octet-stream"
                  (Transport.get_urls (tr self)) (from self) (cid self) in
  req ← lift (result_unwrap create);
  req_check ← lift (result_unwrap create);
  res ← post choose_stop answer req_check;
  match res with
  | Err err =>
      assert has_snapshot;;
      if String.eqb (message err) (CustomError_to_string MemberRemoved) then mret (Waiting err u m)
      else send_failed u m err;; mret Sent
  | Ok _ =>
      with_status (PeerStatus.activate now);;
      report (ReportSnapshot (Message.to m) Finish);;
      mret Sent
  end.

(** A step of a call that waits. *)
Definition send_error (err : IoError) (u : Url) (m : Message.t) (self : t) : outcome (option t) :=
  c ← or_panic (errorc self);
  match Channel.send err c with
  | Ret (Some c) =>
      match send_failed u m err (self <| errorc := Some c |>) with
      | Ret (_, s) => Ret (Some s)
      | Panic => Panic
      | OutOfFuel => OutOfFuel
      end
  | Ret None => Ret None
  | Panic => Panic
  | OutOfFuel => OutOfFuel
  end.
End sender.
End SnapshotSender.

Section snapshot_facts.
Context `{PostCrates}.
Import SnapshotSender.

Lemma send_failed_run s u m err : picker_ok (picker s) -> exists s', send_failed u m err s = Ret (tt, s') /\
  raft s' = raft s ++ [ReportUnreachable (Message.to m); ReportSnapshot (Message.to m) Failure] /\
  PeerStatus.is_active (status s') = false.
Proof.
  intros Hp. destruct (pick_run _ Hp) as (v & Hv & _). unfold send_failed, report.
  erewrite bind_run by (apply zoom_run; by apply unreachable_run). erewrite bind_run by (apply zoom_run, deactivate_run). prog_unfold.
  eexists. split; [done|]. fields. rewrite <-app_assoc. split; [done|].
  by destruct (PeerStatus.active (status s)) eqn:E; unfold PeerStatus.is_active; fields.
Qed.

(** Sending a snapshot.  If the peer does not answer the sender panics, so that nothing is
    reported.  If it answers and nothing stops the sender, Raft is told that the snapshot
    was sent exactly if the answer is [204], and the peer is active then; otherwise it is told
    that the peer is unreachable and that the snapshot failed, and the peer is not active,
    except that for an answer that this member was removed an error has to be taken first. *)
Theorem send_snapshot s merged answer now u :
  let m := SnapMessage.get_msg merged in
  index (BaseurlPicker.urls (picker s)) (BaseurlPicker.picked (picker s)) = Some u -> picker_ok (picker s) ->
  Transport.pipeline_client (tr s) = true -> is_Some (message_write m) ->
  (forall data, exists req, create_POST_request u RaftSnapshotPrefix data "application/octet-stream"
     (Transport.get_urls (tr s)) (from s) (cid s) = Ok req) ->
  match answer with
  | Err _ => send merged true false answer now s = Panic
  | Ok resp => (forall req, check_crashes resp req = false) ->
      exists r s', send merged true false answer now s = Ret (r, s') /\
        match r with
        | Waiting err u' m' => raft s' = raft s /\ u' = u /\ m' = m /\ message err = CustomError_to_string MemberRemoved
        | Sent => raft s' = raft s ++ (if Wire.status resp =? NO_CONTENT then [ReportSnapshot (Message.to m) Finish]
                                       else [ReportUnreachable (Message.to m); ReportSnapshot (Message.to m) Failure]) /\
                  PeerStatus.is_active (status s') = (Wire.status resp =? NO_CONTENT)
        end
  end.
Proof.
  intros m Hu Hp Hc [data Hdata] Hreq. destruct (Hreq data) as [req Er]. destruct (pick_run _ Hp) as (v & Hv & Hpick). rewrite Hu in Hv. injection Hv as <-.
  assert (with_picker BaseurlPicker.pick s = Ret (Some u, s)) as Ep by (unfold with_picker; erewrite zoom_run by exact Hpick; by destruct s).
  assert (send merged true false answer now s = (res ← post false answer req;
    match res with
    | Err err =>
        assert true;;
        if String.eqb (message err) (CustomError_to_string MemberRemoved) then mret (Waiting err u m)
        else send_failed u m err;; mret Sent
    | Ok _ => with_status (PeerStatus.activate now);; report (ReportSnapshot (Message.to m) Finish);; mret Sent
    end) s) as ->.
  { unfold send. cbv zeta. fold m. erewrite bind_run by (unfold lift, create_snap_body; fold m; by rewrite Hdata).
    erewrite bind_run by exact Ep. erewrite bind_run by done. erewrite bind_run by done. rewrite Er. by do 2 (erewrite bind_run by done). }
  destruct answer as [resp|e].
  - intros Hch. pose proof (check_crashes_spec resp req) as Hck. rewrite Hch in Hck. destruct Hck as [r Hr].
    assert (post false (Ok resp) req s = Ret (r, s)) as Epost.
    { unfold post. erewrite bind_run by done. erewrite bind_run by (unfold assert; by rewrite Hc). do 2 (erewrite bind_run by done). unfold lift. by rewrite Hr. }
    erewrite bind_run by exact Epost. pose proof (check_post_response_ok resp req) as Hok. rewrite Hr in Hok. destruct r as [[]|err].
    + destruct Hok as [Hok _]. rewrite (Hok eq_refl). unfold report. erewrite bind_run by (apply zoom_run, activate_run). prog_unfold.
      eexists _, _. split; [done|]. fields. split; [done|]. by destruct (PeerStatus.active (status s)) eqn:E; unfold PeerStatus.is_active; fields.
    + assert (Wire.status resp =? NO_CONTENT = false) as -> by (apply Z.eqb_neq; intros Hs; apply Hok in Hs; discriminate).
      erewrite bind_run by done. destruct (String.eqb_spec (message err) (CustomError_to_string MemberRemoved)) as [Hm|Hm].
      * by eexists _, _.
      * destruct (send_failed_run s u m err Hp) as (s' & Es & Hraft & Hact). erewrite bind_run by exact Es. by eexists _, _.
  - unfold post. prog_unfold. by rewrite Hc.
Qed.
End snapshot_facts.

(** ** Witnesses *)
Section witnesses.
#[local] Instance text_urls : UrlCrate := {|
  Url := string; SocketAddr := unit; url_parse := Some; as_str := fun u => u;
  scheme := fun _ => "https"%string; path := fun _ => "/"%string; socket_addrs := fun _ => Ok [tt]
|}.
(** An answer is its status; requests are lists of headers. *)
#[local] Instance status_http : Http := {|
  set_path := fun p (u : Url) => (u +:+ p : Url);
  Builder := list (string * string); Request := list (string * string); Response := Z; HttpError := string;
  request_builder := []; method_post := fun b => b; uri := fun u b => b; header := fun n v b => b ++ [(n, v)];
  body := fun _ b => Ok b; request_uri := fun _ => ""%string;
  request_header := fun r n => match list_find (fun h => h.1 = n) r with Some x => Some x.2.2 | None => None end;
  response_header := fun _ _ => None; Wire.status := fun r => r; status_to_string := fun _ => ""%string;
  response_data := fun _ => None
|}.
#[local] Instance some_crates : PostCrates := {|
  message_write := fun _ => Some []; http_error_text := fun e => e; duration_from_std := Some
|}.

Definition some_pipeline : Pipeline.t :=
  Pipeline.mk (Transport.mk 1 ["https://localhost:2380"%string] 1 true) (BaseurlPicker.mk _ ["https://localhost:2380"%string] 0)
    (PeerStatus.new 1 2) [] (Channel.mk 10 [] true) FollowerStats.default (Channel.mk 64 [] true) (Channel.mk 1 [] true) (Channel.mk 64 [] true).
Definition pipeline0 : Pipeline.t := match Pipeline.start false some_pipeline with Ret (_, s) => s | _ => some_pipeline end.
Definition some_append : Message.t := Message.default <| Message.msg_type := MsgAppend |> <| Message.to := 2 |>.
(** An append that is sent and refused, for whom [done] has room. *)
Definition refused : Taken := Take some_append (Ok 500) 7 3000000.
Definition pipeline1 : Pipeline.t := default pipeline0 (Remote.send some_append pipeline0).
Definition pipeline2 : Pipeline.t :=
  match Pipeline.handle_msg some_append (Ok 500) 7 3000000 (pipeline1 <| Pipeline.msgc := Channel.mk 64 [] true |>) with
  | Ret (_, s) => s | _ => pipeline1 end.
Definition pipeline3 : Pipeline.t := pipeline2 <| Pipeline.done := Channel.mk 64 [tt] true |>.
Definition one_message : list Event := [Sent some_append true; Took refused; Silent].

Lemma started0 : started pipeline0.
Proof. by exists some_pipeline. Qed.
Lemma one_message_steps : steps (Idle, pipeline0) one_message (Idle, pipeline3).
Proof.
  apply (steps_snoc _ [Sent some_append true; Took refused] (SendingDone, pipeline2)); [|by apply step_done].
  apply (steps_snoc _ [Sent some_append true] (Idle, pipeline1)); [|by eapply (step_take refused)].
  apply (steps_snoc _ [] (Idle, pipeline0)); [constructor|]. by apply (env_send some_append).
Qed.
Lemma pipeline_reports_witness :
  Pipeline.raft pipeline3 = [ReportUnreachable 2] /\ PeerStatus.is_active (Pipeline.status pipeline3) = false.
Proof.
  destruct (pipeline_reports pipeline0 one_message Idle pipeline3 started0 one_message_steps) as [_ (Hr & _ & Ha)]; [by left|].
  split; [rewrite Hr; reflexivity|rewrite Ha; reflexivity].
Defined.
Lemma pipeline_stalls_witness : (length (took one_message) <= 65)%nat.
Proof. destruct (pipeline_stalls pipeline0 one_message Idle pipeline3 started0 one_message_steps) as [Hl _]; [|exact Hl]. by unfold one_message; rewrite !not_elem_of_cons; split_and?; [..|apply not_elem_of_nil]. Defined.
Lemma fit0 : fit pipeline0.
Proof. split; [done|done|]. intros u data _. by eexists. Qed.
Definition no_body : result Response HttpError := Ok 412.
(** A refused message is handled, and an answer [412] without a body crashes the task. *)
Lemma pipeline_progress_witness :
  (exists task s', step (Idle, pipeline1) (Took refused) (task, s') /\ fit s') /\
  exists s', step (Idle, pipeline1) (Took (Take some_append no_body 7 3000000)) (Crashed, s').
Proof.
  assert (fit pipeline1) as Hfit by (apply (fit_same pipeline0); [reflexivity..|exact fit0]).
  destruct (fit_request pipeline1 [] Hfit) as [req Hreq]. split.
  - destruct (pipeline_progress pipeline1 some_append [] (answer refused) 7 3000000 [] req) as (task & s' & Hs & _ & Hf & _);
      [exact Hfit|reflexivity|reflexivity|exact Hreq|]. exists task, s'. split; [exact Hs|exact Hf].
  - destruct (pipeline_progress pipeline1 some_append [] no_body 7 3000000 [] req) as (task & s' & Hs & _ & Ht);
      [exact Hfit|reflexivity|reflexivity|exact Hreq|]. assert (task = Crashed) as Et by exact Ht. rewrite Et in Hs. by exists s'.
Defined.

Definition some_sender : SnapshotSender.t :=
  SnapshotSender.mk 1 2 1 (Pipeline.tr some_pipeline) (Pipeline.picker some_pipeline) (PeerStatus.new 1 2) [] None (Channel.mk 1 [] true).
Definition some_snapshot : SnapMessage.t :=
  SnapMessage.new_snap_message (Message.default <| Message.msg_type := MsgSnapshot |> <| Message.to := 2 |>) 10 (Channel.mk 1 [] true).
Definition sent : result Response HttpError := Ok 204.
Lemma send_snapshot_witness : exists s',
  SnapshotSender.send some_snapshot true false sent 7 some_sender = Ret (SnapshotSender.Sent, s') /\
  SnapshotSender.raft s' = [ReportSnapshot 2 Finish].
Proof.
  destruct (send_snapshot some_sender some_snapshot sent 7 "https://localhost:2380"%string) as (r & s' & E & Hr).
  - reflexivity.
  - done.
  - reflexivity.
  - by eexists.
  - intros data. by eexists.
  - intros req. reflexivity.
  - exists s'. assert (r = SnapshotSender.Sent) as -> by (revert E; by intros [= <- _]). split; [exact E|]. destruct Hr as [-> _]. reflexivity.
Defined.
End witnesses.
